(* ===== verification/_CoqProject ===== *)
-Q . S2P
Prelude.v
Action.v
Bytes.v
Nostr.v
EventID.v
EventIDFacts.v
Bolt.v
OutboxData.v
OutboxStore.v
Quorum.v
Outbox.v
BackupRun.v
BackupRunPending.v
OutboxInv.v
OutboxRetention.v
LedgerInv.v
OpsInv.v
LedgerOpsInv.v
LedgerReads.v
OutboxReads.v
OutboxHistory.v
SampleDigest.v
Sample.v
LedgerProps.v
OutboxProps.v
OutboxOpen.v
EventIDProps.v
ControlRecords.v
TrustEpoch.v
TrustEpochFacts.v
TrustEpochProps.v
Saga.v
SagaStore.v
SagaEngine.v
SagaLogic.v
SagaMethods.v
SagaProps.v
BoltCoord.v
BoltCoordFacts.v
BoltCoordProps.v
BetterBinary.v
BetterBinaryFacts.v
BetterBinaryProps.v
Md5.v
EventStore.v
EventStoreFacts.v
QuickSelect.v
EventQuery.v
EventQueryFacts.v
EventIndexFacts.v
EventQueryPlan.v
EventStoreProps.v
CanonicalJSON.v
CanonicalJSONFacts.v
CanonicalJSONProps.v
Inbound.v
ContextVM.v
ContextVMTransport.v
ContextVMFacts.v
ContextVMProps.v
TagIndex.v
CoordStore.v
LocalStore.v
PagedFacts.v
LocalReads.v
LocalFacts.v
LocalProps.v
LocalConverge.v
LocalRepair.v
TagReads.v
LocalSample.v
Rollout.v
RolloutTrace.v
RolloutProps.v
DeletionGuard.v
Recovery.v
RecoveryInv.v
RecoveryRun.v
RecoveryEngine.v
RecoveryProps.v
