(* ===== verification/Prelude.v ===== *)
(** * Bahia: a verification of its durable core

    Bahia ([src/]) is a deployment control plane that talks over Nostr relays.
    What it must not get wrong is kept in a few local stores: the outbox of
    signed events and the backup-run ledger that shares its file, the control
    records beside them, the accepted trust epochs of a service identity, the
    checkpoints of provisioning sagas, the event store with its indexes and
    its binary form, the ledger that keeps remote requests from running twice,
    and the ledger of the recovery from a leaked identity.  This development
    models those components, the event identity they all rest on and the
    executor of progressive rollouts, and proves what they guarantee.

    ** The parts and where they are modelled

    - Event identity ([src/third_party/nostr/event.go], [signature.go],
      [keys.go], [types.go]): [Nostr] has the event type, [EventID] the two
      JSON escapers with their eight-byte word test, the buffer and the
      streaming serializer, [CheckID] and [VerifySignature]; [Bytes] has the
      parts of Go's library they call.
    - The publish outbox ([src/internal/adapters/nostr/localstore/outbox.go]):
      [OutboxData] has its records and bucket keys, [OutboxStore] its buckets
      and the functions inside its transactions, [Outbox] its methods,
      [Quorum] the delivery proof.
    - The backup-run ledger ([backup_run_admission.go] and
      [backup_run_pending.go] in that directory): [BackupRun] and
      [BackupRunPending], the latter also with the upgrade of a file when it
      is opened.
    - Control records ([control_records.go] in that directory):
      [ControlRecords].
    - Trust epochs ([src/internal/trustepoch/]): [TrustEpoch] has the signed
      envelope, the inventory check, acceptance and judging, receipts and
      readiness, and the bolt record behind the [Persistence] interface.
    - Provisioning sagas ([src/internal/soulfactory/saga/types.go],
      [store.go], [engine.go]): [Saga] has runs and their checks, [SagaStore]
      the [Store] interface, the file store and retention, [SagaEngine] the
      engine.
    - Coordinates and deletions ([src/internal/boltcoord/boltcoord.go]):
      [BoltCoord] has coordinates and their addresses, the versions of a
      coordinate, and the deletion index with its backfill in batches.
    - The binary form of stored events
      ([src/third_party/nostr/eventstore/codec/betterbinary/]):
      [BetterBinary], with the buffer [Marshal] writes into and panics as
      errors.
    - The event store ([src/third_party/nostr/eventstore/boltdb/]):
      [EventStore] has the buckets, the index keys, [SaveEvent], [DeleteEvent]
      and reads by id, with [Md5] for the digests in the keys; [EventQuery]
      the planner, the backwards iterators with their batches, the query and
      [ReplaceEvent]; [QuickSelect] the selection of the next iterators.
    - The local event store: [TagIndex] is the index of tag values the event
      store skips ([src/internal/boltcoord/tagindex.go]), [CoordStore] the
      store of coordinates over both ([store.go] there), [LocalStore] the
      calls of [src/internal/adapters/nostr/localstore/store.go] and the
      markers of [undelivered.go].
    - ContextVM requests: [ContextVM] is the ledger of claims, completions and
      deliveries ([contextvm.go] and the cursors of [store.go] in
      [src/internal/adapters/nostr/localstore/]); [ContextVMTransport] is what
      happens to one delivered event
      ([src/internal/controlplane/encrypted_transport.go],
      [contextvm_local_run.go]); [CanonicalJSON] the fingerprint of request
      parameters ([contextvm_fingerprint.go]); [Inbound] the checks on events
      from relays ([src/internal/adapters/nostr/validation.go],
      [src/internal/nostrutil/lifecycle.go]).
    - Progressive rollouts ([src/internal/rollout/], with the types of
      [src/internal/domain/rollout.go]): [Rollout] has the plans, the health
      gate, the steps, traffic and the rollback.
    - The deletion guard ([src/internal/deletionguard/guard.go]):
      [DeletionGuard].
    - Identity recovery ([src/internal/identityrecovery/], its engine and
      ledger): [Recovery] has the ten phases, the signed records and their
      queue, the inventory, the cut and the deletions by the leaked key.

    ** How code becomes definitions

    A fallible call returns [result]; a bbolt transaction is a function from
    the buckets to a result, so that an error carries no state and rolls back.
    Buckets are finite maps read by byte-ordered cursors ([Bolt]).  Stored
    JSON is kept decoded, with [Corrupt] for rows that do not decode.  The
    saga engine is a state monad over the external systems, the store, a clock
    and a log of driver calls.  Integers are [Z] with the width written out
    where the code wraps ([to_u64], [to_i64]); times are instants in
    nanoseconds.  Definitions keep the source's names; helpers that name a
    loop or a block of a function are lower case.  Loops that are not
    structural take fuel: the trimming of strings takes their length, the
    page scans the number of keys, and [reconcile_loop] ten rounds for nine
    forward stages ([Reconcile_returns] shows they are enough).  The rounds of
    a query take one more than the entries its iterators can deliver
    ([query_newest_first] shows that a query ends), quickselect the length of
    its range, and the JSON string writer the length of the string.  A paged
    read takes one page for each stored event and one for each doubling of the
    page ([paged_loop_spec]), a read of the tag index one for each key
    ([events_loop_spec]).  Writes of the local store that stop half way keep
    what they wrote, so its calls are actions that return a state with the
    error ([act], in [Action] with its rules).  Rollouts and recovery are such
    actions over a world that answers their calls and a log of these calls.
    The health gate takes a round for each tick before its deadline and two
    more ([rollout_settles], [health_gate_exact]); publishing takes the length
    of the queue and the batches of a deletion the length of the inventory
    ([recovery_apply_completes]).

    Code outside the repository is a parameter: SHA-256, the curve checks and
    JSON decoding are fields of [NostrPrims] and [TrustJSON], what is assumed
    of them the laws of [NostrLaws] (digests of 32 bytes do not collide, an
    accepted signature parses).  Saga drivers and the event query of the trust
    source are arbitrary functions.  The event store's hex decoder is in
    [StorePrims]; the order in which a query visits a map and its batch sizes
    are in [QueryEnv], with the bounds its laws state.  [ContextVMPrims] has
    the envelope and JSON-RPC library, whose unwrapped messages are well formed
    and carry their own id by [ContextVMLaws]; [LocalPrims] is a kind number
    of another module.  The runtime, observer, traffic controller and
    repository of a rollout are [RolloutEnv], whose tickers pass on time; the
    signers, relays, adapters, clock and disk of a recovery are [RecoveryEnv],
    whose signers keep the fields of an event, and the bodies of its records
    are encoded by [RecoveryJSON].  [SampleDigest], [Sample] and the modules
    [TrustSample], [SagaSample], [CoordSample], [StoreSample],
    [FingerprintSample], [ContextVMSample], [LocalSample], [RolloutSample] and
    [RecoverySample] instantiate them, and the theorems with hypotheses are
    evaluated there.

    ** What the theorems show

    - [EventIDFacts], [EventIDProps]: both escapers compute the byte-wise
      escape, the serialization determines the signed fields, and an id binds
      its event.
    - [OutboxInv], [LedgerInv], [OpsInv], [LedgerOpsInv], [OutboxHistory]: the invariant of the file, one preservation lemma per transaction, the
      transition system of committed calls, and the order of what is never
      taken back.  [LedgerProps] states the guarantees for every reachable
      file: consistency, monotone history, refusals that stay, runs executed
      only on two stored quorum proofs, scans that miss nothing.
    - [OutboxRetention], [OutboxReads], [LedgerReads], [OutboxProps],
      [OutboxOpen]: rounds merge, proofs come
      from a publisher's quorum only, retention and purges remove exactly what
      they may, reads are exact, and opening a file rebuilds its indexes.
    - [ControlRecords]: the calls refine an abstract map, and retirement is
      atomic.
    - [TrustEpochFacts], [TrustEpochProps]: accepted heads only advance under
      any interleaving; a sequential verifier resolves only keys the operator
      root's signatures lead to; old-key events need the signed inventory;
      receipts bind what they acknowledge.  Two theorems record behaviour the
      comments do not announce.
    - [SagaLogic] is a program logic for the engine (the invariant of a run,
      the discipline of driver calls, rules for the monad), [SagaMethods] has
      one lemma per method, [SagaProps] the guarantees: disciplined driver
      calls, runs that follow the stage machine and are only extended, dry
      runs that only observe, termination, optimistic saves, exact purges.
    - [BoltCoordFacts], [BoltCoordProps]: the deletion index answers for
      exactly the requests still stored, requests reach only their author's
      coordinates, an interrupted backfill can be run again.
    - [BetterBinaryFacts], [BetterBinaryProps]: [Marshal] stays inside its
      buffer and writes a reference encoding, which reads back unchanged
      unless the wrap of a 16-bit offset is not visible or the time is
      negative; both cases are shown to lose the event.
    - [EventStoreFacts], [EventIndexFacts], [EventQueryFacts],
      [EventQueryPlan], [EventStoreProps]: saves, deletes and reads refine a
      map of events, a query ends and returns the newest events its index
      prefixes name, a complete one misses no match, and replacement keeps the
      latest version, except across values that share the truncated digest,
      where the event of another value is deleted.
    - [PagedFacts], [LocalReads], [LocalFacts], [LocalProps],
      [LocalConverge], [LocalRepair], [TagReads], [LocalSample]: over events
      the truncated index keys can tell apart, the local store refines a set
      of events with latest-wins and deletion requests, two stores that saw
      the same events hold the same, opening an older file restores the
      invariant, also after an opening that stopped while it wrote the
      indexes, and a filter on long values is answered exactly.
    - [CanonicalJSONFacts], [CanonicalJSONProps]: fingerprints are equal
      exactly for equal JSON values.
    - [ContextVMFacts], [ContextVMProps]: over all deliveries, crashes,
      restarts and prunes a request runs at most once, retries are answered
      from the ledger whatever calls come between, and a key is free again
      only past retention; a lost ledger, after which a recent request runs
      again, and an evidence hold are the exceptions.
    - [RolloutTrace], [RolloutProps]: what calls a rollout can make; a
      promotion comes after every gate of its plan, a rollback is recorded only
      once verified, rollouts end, the health gate decides as configured, and
      the settings of the plans are never used.
    - [DeletionGuard]: the guard lets through exactly the requests it is for.
    - [RecoveryInv], [RecoveryRun], [RecoveryEngine]: the history a ledger
      holds, the invariant of ledger, memory and calls, and that every action
      keeps it.  [RecoveryProps] states the guarantees over all sequences of
      commands: phases in order, activations that wait for readiness and are
      final, a leaked key confined to deletions, deletions that cover the
      inventory, and an abort that a failed save undoes.

    ** Not modelled

    File-system failures other than a failed save, locks and fsync; bbolt's
    limits on key sizes; the cancellation of contexts in the saga engine;
    concurrency inside a saga call (the store theorems cover concurrent
    writers); the saga's event store, observability and operator files; of the
    ContextVM transport the client half, the relay followers and the branch
    without a local store; the adapters of identity recovery; the rest of the
    control plane, services, reconcilers, adapters, API, commands and web
    application, which are network I/O, SQL, process wiring or a user
    interface. *)

From Stdlib Require Import ZArith Lia Bool.
From stdpp Require Import base tactics decidable option list numbers strings gmap sorting.

#[global] Open Scope Z_scope.

(** ** Results: Go's [(value, error)] pairs *)

(** A fallible Go call returns [Ok v] when its error is nil and [Err e]
    otherwise; the value a Go function returns beside a non-nil error is the
    zero value and is never read by the callers modelled here. *)
Inductive result (E A : Type) : Type :=
| Ok (a : A)
| Err (e : E).
Arguments Ok {E A} a.
Arguments Err {E A} e.

Definition result_bind {E A B} (m : result E A) (f : A → result E B) : result E B :=
  match m with
  | Ok a => f a
  | Err e => Err e
  end.

(** [guard c e]: the early return [if !c { return e }]. *)
Definition require {E} (c : bool) (e : E) : result E unit :=
  if c then Ok tt else Err e.

(** An option read as a lookup that fails with [e] when it is absent. *)
Definition of_option {E A} (e : E) (o : option A) : result E A :=
  match o with
  | Some a => Ok a
  | None => Err e
  end.

Definition is_ok {E A} (m : result E A) : bool :=
  match m with Ok _ => true | Err _ => false end.

Declare Scope bahia_scope.
Delimit Scope bahia_scope with bahia.
#[global] Open Scope bahia_scope.

Notation "'let!' x ':=' c 'in' k" := (result_bind c (λ x, k))
  (at level 10, x name, c at level 100, k at level 200) : bahia_scope.
Notation "'let!' ' p ':=' c 'in' k" := (result_bind c (λ x, match x with p => k end))
  (at level 10, p strict pattern, c at level 100, k at level 200) : bahia_scope.
Notation "'check!' c 'else' e 'in' k" := (result_bind (require c e) (λ _, k))
  (at level 10, c at level 100, e at level 100, k at level 200) : bahia_scope.

(** A row of a bbolt bucket read back through [json.Unmarshal]: either the
    value that was marshalled into it, or bytes that do not decode. *)
Inductive row (A : Type) : Type :=
| Row (a : A)
| Corrupt.
Arguments Row {A} a.
Arguments Corrupt {A}.

Definition unmarshal {A} (r : row A) : option A :=
  match r with
  | Row a => Some a
  | Corrupt => None
  end.

(** ** Machine integers *)

Definition two64 : Z := 18446744073709551616.
Definition two63 : Z := 9223372036854775808.

(** [uint64(x)] and [int64(x)]: conversion of an integer to 64 bits. *)
Definition to_u64 (x : Z) : Z := x mod two64.
Definition to_i64 (x : Z) : Z := (x + two63) mod two64 - two63.

Definition max_i64 : Z := two63 - 1.
Definition min_i64 : Z := - two63.

(** ** Instants and durations

    A [time.Time] is the instant it denotes, in nanoseconds since the Unix
    epoch, without its location: every comparison below is on instants.  A
    [time.Duration] is its int64 count of nanoseconds. *)

Definition nanosecond : Z := 1.
Definition microsecond : Z := 1000.
Definition second : Z := 1000000000.
Definition minute : Z := 60 * second.
Definition hour : Z := 60 * minute.

(** [time.Time{}] is January 1 of year 1, UTC. *)
Definition zero_time : Z := -62135596800 * second.
Definition time_is_zero (t : Z) : bool := t =? zero_time.
Definition time_before (a b : Z) : bool := a <? b.
Definition time_after (a b : Z) : bool := b <? a.
Definition unix_nano (t : Z) : Z := to_i64 t.
Definition unix_sec (t : Z) : Z := t / second.

(** [Time.Sub] saturates at the int64 bounds. *)
Definition time_sub (a b : Z) : Z := Z.max min_i64 (Z.min max_i64 (a - b)).

(** ** Tactics *)

(** Inverts one [let!] or [check!] of a computation known to have succeeded. *)
Lemma bind_ok {E A B} (m : result E A) (f : A → result E B) b :
  result_bind m f = Ok b ↔ ∃ a, m = Ok a ∧ f a = Ok b.
Proof. destruct m; simpl; naive_solver. Qed.

Lemma bind_err {E A B} (m : result E A) (f : A → result E B) e :
  result_bind m f = Err e ↔ m = Err e ∨ ∃ a, m = Ok a ∧ f a = Err e.
Proof. destruct m; simpl; naive_solver. Qed.

Lemma require_ok {E} c (e : E) u : require c e = Ok u ↔ c = true ∧ u = tt.
Proof. destruct c, u; simpl; naive_solver. Qed.

Lemma require_err {E} c (e e' : E) : require c e = Err e' ↔ c = false ∧ e = e'.
Proof. destruct c; simpl; naive_solver. Qed.

Lemma of_option_ok {E A} (e : E) (o : option A) a : of_option e o = Ok a ↔ o = Some a.
Proof. destruct o; simpl; naive_solver. Qed.

Lemma unmarshal_Some {A} (r : row A) a : unmarshal r = Some a ↔ r = Row a.
Proof. destruct r; simpl; naive_solver. Qed.

Ltac inv_ok :=
  repeat match goal with
  | H : result_bind _ _ = Ok _ |- _ =>
      let a := fresh "v" in let H1 := fresh "Hok" in let H2 := fresh "Hok" in
      apply bind_ok in H as (a & H1 & H2)
  | H : require _ _ = Ok _ |- _ =>
      let H1 := fresh "Hreq" in apply require_ok in H as [H1 ->]
  | H : of_option _ _ = Ok _ |- _ => apply of_option_ok in H
  | H : Ok _ = Ok _ |- _ => injection H as H
  | H : Err _ = Ok _ |- _ => discriminate H
  | H : Ok _ = Err _ |- _ => discriminate H
  end.

(** Splits boolean conjunctions and negations in the context into facts. *)
Ltac bool_facts :=
  repeat match goal with
  | H : (_ && _)%bool = true |- _ => apply andb_true_iff in H as [? ?]
  | H : (_ || _)%bool = false |- _ => apply orb_false_iff in H as [? ?]
  | H : negb _ = true |- _ => apply negb_true_iff in H
  | H : negb _ = false |- _ => apply negb_false_iff in H
  | H : bool_decide _ = true |- _ => apply bool_decide_eq_true in H
  | H : bool_decide _ = false |- _ => apply bool_decide_eq_false in H
  | H : (_ =? _)%Z = true |- _ => apply Z.eqb_eq in H
  | H : (_ =? _)%Z = false |- _ => apply Z.eqb_neq in H
  | H : (_ <? _)%Z = true |- _ => apply Z.ltb_lt in H
  | H : (_ <? _)%Z = false |- _ => apply Z.ltb_ge in H
  | H : (_ <=? _)%Z = true |- _ => apply Z.leb_le in H
  | H : (_ <=? _)%Z = false |- _ => apply Z.leb_gt in H
  end.

(** ** Integers *)

Lemma to_u64_range x : 0 ≤ to_u64 x < two64.
Proof. apply Z.mod_pos_bound. reflexivity. Qed.

Lemma to_u64_small x : 0 ≤ x < two64 → to_u64 x = x.
Proof. apply Z.mod_small. Qed.

Lemma to_i64_small x : min_i64 ≤ x ≤ max_i64 → to_i64 x = x.
Proof. unfold to_i64, min_i64, max_i64. intros. rewrite Z.mod_small; unfold two63, two64 in *; lia. Qed.

Lemma to_i64_range x : min_i64 ≤ to_i64 x ≤ max_i64.
Proof.
  unfold to_i64, min_i64, max_i64.
  pose proof (Z.mod_pos_bound (x + two63) two64 eq_refl). unfold two63, two64 in *. lia.
Qed.

Lemma to_i64_u64 x : min_i64 ≤ x ≤ max_i64 → to_i64 (to_u64 x) = x.
Proof.
  intros Hx. unfold to_i64, to_u64. rewrite Zplus_mod_idemp_l.
  change ((x + two63) mod two64 - two63) with (to_i64 x). by apply to_i64_small.
Qed.

#[export] Hint Resolve to_u64_range to_i64_range : core.

(** ** Lists *)

Section lists.
Context {A : Type}.
Implicit Types (l : list A) (P : A → Prop).

Lemma filter_all P `{∀ x, Decision (P x)} l : (∀ x, x ∈ l → P x) → filter P l = l.
Proof.
  induction l as [|x l IH]; intros Hl; [done|].
  rewrite filter_cons_True by (apply Hl; by left). f_equal. apply IH. intros y Hy. apply Hl. by right.
Qed.

Lemma filter_none P `{∀ x, Decision (P x)} l : (∀ x, x ∈ l → ¬ P x) → filter P l = [].
Proof.
  induction l as [|x l IH]; intros Hl; [done|].
  rewrite filter_cons_False by (apply Hl; by left). apply IH. intros y Hy. apply Hl. by right.
Qed.
End lists.
