(* ===== verification/Action.v ===== *)
(** * Calls that keep what they did

    A Go call that performs several effects and fails half-way leaves the
    effects it had already made.  Such a call is an action: from a state to a
    result and the state it leaves, whether it fails or not.  The notation
    [do!] runs two actions in a row and stops at the first error. *)

From Stdlib Require Import ZArith Lia Bool.
From stdpp Require Import base tactics decidable option list.
From S2P Require Import Prelude.

Definition act (S E A : Type) : Type := S → result E A * S.

Definition act_ret {S E A} (a : A) : act S E A := λ s, (Ok a, s).
Definition act_fail {S E A} (e : E) : act S E A := λ s, (Err e, s).
Definition act_bind {S E A B} (c : act S E A) (k : A → act S E B) : act S E B := λ s,
  match c s with
  | (Ok a, s') => k a s'
  | (Err e, s') => (Err e, s')
  end.
(** A read of the state. *)
Definition act_read {S E A} (r : S → result E A) : act S E A := λ s, (r s, s).
(** A write that cannot fail. *)
Definition act_write {S E} (w : S → S) : act S E unit := λ s, (Ok tt, w s).

Notation "'do!' x ':=' c 'in' k" := (act_bind c (λ x, k))
  (at level 10, x name, c at level 100, k at level 200) : bahia_scope.

(** [for _, x := range l], with an early return on an error. *)
Fixpoint act_each {S E A} (body : A → act S E unit) (l : list A) : act S E unit :=
  match l with
  | [] => act_ret tt
  | x :: l' => do! _ := body x in act_each body l'
  end.

(** The error of a call as a value: [if err := c(); err != nil]. *)
Definition act_try {S E E' A} (c : act S E A) : act S E' (result E A) := λ s, let '(r, s') := c s in (Ok r, s').

(** ** Running actions *)

Lemma act_bind_ok {S E A B} (c : act S E A) (k : A → act S E B) s a s' : c s = (Ok a, s') → act_bind c k s = k a s'.
Proof. intros Hc. unfold act_bind. by rewrite Hc. Qed.

(** A pair of actions that succeeds ran both. *)
Lemma act_bind_inv {S E A B} (c : act S E A) (k : A → act S E B) s b s' : act_bind c k s = (Ok b, s') →
  ∃ a s1, c s = (Ok a, s1) ∧ k a s1 = (Ok b, s').
Proof. unfold act_bind. destruct (c s) as [[a|e] s1]; [by exists a, s1|done]. Qed.

(** One that fails failed in the first or in the second. *)
Lemma act_bind_err {S E A B} (c : act S E A) (k : A → act S E B) s e s' : act_bind c k s = (Err e, s') →
  c s = (Err e, s') ∨ ∃ a s1, c s = (Ok a, s1) ∧ k a s1 = (Err e, s').
Proof. unfold act_bind. destruct (c s) as [[a|e0] s1]; [right; by exists a, s1|intros [= -> ->]; by left]. Qed.

Lemma act_try_inv {S E E' A} (c : act S E A) s (r : result E' (result E A)) s' : act_try c s = (r, s') → ∃ x, r = Ok x ∧ c s = (x, s').
Proof. unfold act_try. destruct (c s) as [x s1]. intros [= <- <-]. by exists x. Qed.

(** ** Weakest preconditions *)

(** [c] run from [s] ends in [Q]; actions are total, so there is one outcome. *)
Definition act_wp {S E A} (c : act S E A) (Q : result E A → S → Prop) (s : S) : Prop := Q (fst (c s)) (snd (c s)).

Lemma act_wp_run {S E A} (c : act S E A) Q s r s' : act_wp c Q s → c s = (r, s') → Q r s'.
Proof. unfold act_wp. intros HQ Hc. by rewrite Hc in HQ. Qed.
Lemma act_wp_mono {S E A} (c : act S E A) (Q Q' : result E A → S → Prop) s : act_wp c Q s → (∀ r s', Q r s' → Q' r s') → act_wp c Q' s.
Proof. unfold act_wp. auto. Qed.
Lemma act_wp_ret {S E A} (a : A) (Q : result E A → S → Prop) s : Q (Ok a) s → act_wp (act_ret a) Q s.
Proof. done. Qed.
Lemma act_wp_fail {S E A} (e : E) (Q : result E A → S → Prop) s : Q (Err e) s → act_wp (act_fail e) Q s.
Proof. done. Qed.
Lemma act_wp_read {S E A} (f : S → result E A) (Q : result E A → S → Prop) s : Q (f s) s → act_wp (act_read f) Q s.
Proof. done. Qed.
Lemma act_wp_write {S E} (f : S → S) (Q : result E unit → S → Prop) s : Q (Ok tt) (f s) → act_wp (act_write f) Q s.
Proof. done. Qed.
Lemma act_wp_bind {S E A B} (c : act S E A) (k : A → act S E B) (Q : result E B → S → Prop) s :
  act_wp c (λ r s', match r with Ok a => act_wp (k a) Q s' | Err e => Q (Err e) s' end) s → act_wp (act_bind c k) Q s.
Proof. unfold act_wp, act_bind. destruct (c s) as [[a|e] s']; done. Qed.
Lemma act_wp_try {S E E' A} (c : act S E A) (Q : result E' (result E A) → S → Prop) s :
  act_wp c (λ r s', Q (Ok r) s') s → act_wp (act_try c) Q s.
Proof. unfold act_wp, act_try. by destruct (c s) as [r s']. Qed.
