(* ===== verification/Bytes.v ===== *)
(** * Byte strings

    Go's [string] and [[]byte] are both byte sequences, so both are modelled
    by [string], whose characters are bytes; the conversions between the two
    are the identity.  This file has the string functions the sources call,
    the byte order of [bytes.Compare] (the order in which bbolt keeps a
    bucket's keys), the big-endian codec of [encoding/binary] and the hex
    codec of event ids. *)

From Stdlib Require Import ZArith Lia Bool Ascii.
From stdpp Require Import base tactics decidable option list numbers strings sorting.
From S2P Require Import Prelude.

#[global] Arguments String.append !s1 s2 : simpl nomatch.

(** ** Bytes *)

Definition byte_of_Z (z : Z) : ascii := ascii_of_N (Z.to_N (z mod 256)).
Definition Z_of_byte (a : ascii) : Z := Z.of_N (N_of_ascii a).

(** ** The functions of package strings *)

Definition slen (s : string) : Z := Z.of_nat (String.length s).

(** [strings.HasPrefix(s, p)]. *)
Definition has_prefix (s p : string) : bool := String.prefix p s.

Fixpoint drop_bytes (n : nat) (s : string) : string :=
  match n, s with
  | O, _ => s
  | S n', String _ s' => drop_bytes n' s'
  | S _, EmptyString => EmptyString
  end.

(** [s[:n]] *)
Fixpoint take_bytes (n : nat) (s : string) : string :=
  match n, s with
  | O, _ => EmptyString
  | S n', String c s' => String c (take_bytes n' s')
  | S _, EmptyString => EmptyString
  end.

(** [strings.CutPrefix(s, p)]: the rest of [s] and whether [p] was there. *)
Definition cut_prefix (s p : string) : string * bool :=
  if has_prefix s p then (drop_bytes (String.length p) s, true) else (s, false).

(** [strings.TrimPrefix(s, p)]. *)
Definition trim_prefix (s p : string) : string := fst (cut_prefix s p).

Fixpoint contains_byte (c : ascii) (s : string) : bool :=
  match s with
  | EmptyString => false
  | String d s' => if ascii_dec c d then true else contains_byte c s'
  end.

(** [strings.SplitN(s, sep, 2)] for a one-byte separator; [None] when it does
    not occur. *)
Fixpoint cut_byte (c : ascii) (s : string) : option (string * string) :=
  match s with
  | EmptyString => None
  | String d s' =>
      if ascii_dec c d then Some (EmptyString, s')
      else match cut_byte c s' with Some (a, b) => Some (String d a, b) | None => None end
  end.

(** [strings.ContainsRune(s, 0)]. *)
Definition nul : ascii := ascii_of_N 0.
Definition contains_nul (s : string) : bool := contains_byte nul s.

(** *** TrimSpace *)

(** The encodings of the code points [unicode.IsSpace] accepts: the ASCII
    spaces, U+0085, U+00A0, U+1680, U+2000 to U+200A, U+2028, U+2029, U+202F,
    U+205F and U+3000. *)
Definition space_runes : list (list Z) :=
  [[9]; [10]; [11]; [12]; [13]; [32];
   [194; 133]; [194; 160]; [225; 154; 128];
   [226; 128; 128]; [226; 128; 129]; [226; 128; 130]; [226; 128; 131];
   [226; 128; 132]; [226; 128; 133]; [226; 128; 134]; [226; 128; 135];
   [226; 128; 136]; [226; 128; 137]; [226; 128; 138];
   [226; 128; 168]; [226; 128; 169]; [226; 128; 175];
   [226; 129; 159]; [227; 128; 128]].

Fixpoint string_of_bytes (l : list Z) : string :=
  match l with
  | [] => EmptyString
  | b :: l' => String (byte_of_Z b) (string_of_bytes l')
  end.

Fixpoint bytes_of_string (s : string) : list Z :=
  match s with
  | EmptyString => []
  | String c s' => Z_of_byte c :: bytes_of_string s'
  end.

(** The length of the space rune [s] starts with, among [runes]. *)
Fixpoint space_at (runes : list (list Z)) (s : string) : option nat :=
  match runes with
  | [] => None
  | r :: runes' =>
      if has_prefix s (string_of_bytes r) then Some (length r) else space_at runes' s
  end.

Fixpoint trim_left_aux (fuel : nat) (runes : list (list Z)) (s : string) : string :=
  match fuel with
  | O => s
  | S fuel' =>
      match space_at runes s with
      | Some n => trim_left_aux fuel' runes (drop_bytes n s)
      | None => s
      end
  end.

(** Every round of the loop drops at least one byte, so the length of the
    string is enough fuel. *)
Definition trim_left (runes : list (list Z)) (s : string) : string :=
  trim_left_aux (String.length s) runes s.

Fixpoint rev_string (s acc : string) : string :=
  match s with
  | EmptyString => acc
  | String c s' => rev_string s' (String c acc)
  end.

(** [strings.TrimSpace(s)]; the right end is trimmed on the reversed string
    against the reversed encodings. *)
Definition trim_space (s : string) : string :=
  let l := trim_left space_runes s in
  rev_string (trim_left (map (@reverse Z) space_runes) (rev_string l "")) "".

(** *** ToLower *)

Definition lower_byte (c : ascii) : ascii :=
  let z := Z_of_byte c in
  if (65 <=? z) && (z <=? 90) then byte_of_Z (z + 32) else c.

(** [strings.ToLower(s)] as far as ASCII results go: A-Z, U+212A (the Kelvin
    sign, whose lower case is k) and U+0130 (whose lower case is i).  The
    other non-ASCII code points map to non-ASCII ones and are left as they
    are: the sources only compare the result with ASCII literals. *)
Fixpoint to_lower (s : string) : string :=
  match s with
  | EmptyString => EmptyString
  | String a s1 =>
      match s1 with
      | String b s2 =>
          if (Z_of_byte a =? 196) && (Z_of_byte b =? 176) then String (byte_of_Z 105) (to_lower s2)
          else match s2 with
          | String c s3 =>
              if (Z_of_byte a =? 226) && (Z_of_byte b =? 132) && (Z_of_byte c =? 170)
              then String (byte_of_Z 107) (to_lower s3)
              else String (lower_byte a) (to_lower s1)
          | EmptyString => String (lower_byte a) (to_lower s1)
          end
      | EmptyString => String (lower_byte a) EmptyString
      end
  end.

(** ** Byte order *)

(** [bytes.Compare(a, b) <= 0]. *)
Fixpoint bytes_leb (a b : string) : bool :=
  match a, b with
  | EmptyString, _ => true
  | String _ _, EmptyString => false
  | String x a', String y b' =>
      if Z_of_byte x <? Z_of_byte y then true
      else if Z_of_byte x =? Z_of_byte y then bytes_leb a' b' else false
  end.

(** [bytes.Compare(a, b) < 0]. *)
Definition bytes_ltb (a b : string) : bool := negb (bytes_leb b a).

Definition bytes_le (a b : string) : Prop := bytes_leb a b = true.
Definition bytes_lt (a b : string) : Prop := bytes_ltb a b = true.

#[export] Instance bytes_le_dec : RelDecision bytes_le :=
  λ a b, bool_eq_dec (bytes_leb a b) true.

(** ** Big-endian integers *)

Fixpoint be (n : nat) (z : Z) : string :=
  match n with
  | O => EmptyString
  | S n' => String (byte_of_Z (z / 256 ^ Z.of_nat n')) (be n' z)
  end.

Definition be32 (z : Z) : string := be 4 z.
Definition be64 (z : Z) : string := be 8 z.

Fixpoint be_decode_aux (acc : Z) (s : string) : Z :=
  match s with
  | EmptyString => acc
  | String c s' => be_decode_aux (acc * 256 + Z_of_byte c) s'
  end.

(** [binary.BigEndian.Uint64(s[:8])]. *)
Definition be_decode (s : string) : Z := be_decode_aux 0 s.

(** ** Hex *)

Definition hex_digit (z : Z) : ascii :=
  byte_of_Z (if z <? 10 then 48 + z else 87 + z).

(** [ID.Hex]: two lower-case digits per byte. *)
Fixpoint hex (s : string) : string :=
  match s with
  | EmptyString => EmptyString
  | String c s' =>
      String (hex_digit (Z_of_byte c / 16)) (String (hex_digit (Z_of_byte c mod 16)) (hex s'))
  end.

Definition unhex_digit (c : ascii) : option Z :=
  let z := Z_of_byte c in
  if (48 <=? z) && (z <=? 57) then Some (z - 48)
  else if (97 <=? z) && (z <=? 102) then Some (z - 87)
  else if (65 <=? z) && (z <=? 70) then Some (z - 55)
  else None.

Fixpoint unhex (s : string) : option string :=
  match s with
  | EmptyString => Some EmptyString
  | String a (String b s') =>
      match unhex_digit a, unhex_digit b, unhex s' with
      | Some x, Some y, Some t => Some (String (byte_of_Z (16 * x + y)) t)
      | _, _, _ => None
      end
  | String _ EmptyString => None
  end.

(** [nostr.IDFromHex]: 64 hex digits. *)
Definition id_from_hex (s : string) : option string :=
  if Nat.eqb (String.length s) 64 then unhex s else None.

(** ** Facts *)

Lemma Z_of_byte_range c : 0 ≤ Z_of_byte c < 256.
Proof. unfold Z_of_byte. pose proof (N_ascii_bounded c). lia. Qed.

Lemma Z_of_byte_of_Z z : Z_of_byte (byte_of_Z z) = z mod 256.
Proof.
  unfold Z_of_byte, byte_of_Z.
  pose proof (Z.mod_pos_bound z 256 eq_refl).
  rewrite N_ascii_embedding; lia.
Qed.

Lemma byte_of_Z_of_byte c : byte_of_Z (Z_of_byte c) = c.
Proof.
  unfold byte_of_Z. pose proof (Z_of_byte_range c).
  rewrite Z.mod_small by lia. unfold Z_of_byte. rewrite N2Z.id. apply ascii_N_embedding.
Qed.

#[export] Instance Z_of_byte_inj : Inj (=) (=) Z_of_byte.
Proof. intros a b H. by rewrite <- (byte_of_Z_of_byte a), H, byte_of_Z_of_byte. Qed.

(** *** Concatenation *)

Lemma app_string_nil_r s : s +:+ "" = s.
Proof. induction s; simpl; congruence. Qed.

Lemma app_string_assoc a b c : a +:+ b +:+ c = (a +:+ b) +:+ c.
Proof. induction a; simpl; congruence. Qed.

Lemma length_app_string a b :
  String.length (a +:+ b) = (String.length a + String.length b)%nat.
Proof. induction a; simpl; congruence. Qed.

Lemma app_string_inj a a' b b' :
  String.length a = String.length a' → a +:+ b = a' +:+ b' → a = a' ∧ b = b'.
Proof.
  revert a'. induction a as [|c a IH]; intros [|c' a'] Hl H; simpl in *; try lia; [done|].
  injection H as -> H. destruct (IH a') as [-> ->]; [lia|done|done].
Qed.

Lemma app_string_inj_r a a' b b' :
  String.length b = String.length b' → a +:+ b = a' +:+ b' → a = a' ∧ b = b'.
Proof.
  intros Hl H. apply app_string_inj; [|done].
  apply (f_equal String.length) in H. rewrite !length_app_string in H. lia.
Qed.

#[export] Instance app_string_inj_l a : Inj (=) (=) (String.append a).
Proof. intros b b' H. by destruct (app_string_inj a a b b'). Qed.

Lemma drop_bytes_app a b : drop_bytes (String.length a) (a +:+ b) = b.
Proof. induction a; simpl; done. Qed.

Lemma take_bytes_app a b : take_bytes (String.length a) (a +:+ b) = a.
Proof. induction a; simpl; [by destruct b|congruence]. Qed.

Lemma take_drop_bytes n s : take_bytes n s +:+ drop_bytes n s = s.
Proof. revert s. induction n; intros [|c s]; simpl; try done. by rewrite IHn. Qed.

Lemma length_take_bytes n s : String.length (take_bytes n s) = (n `min` String.length s)%nat.
Proof. revert s. induction n as [|n IH]; intros [|c s]; simpl; try done. by rewrite IH. Qed.

Lemma length_drop_bytes n s : String.length (drop_bytes n s) = (String.length s - n)%nat.
Proof. revert s. induction n; intros [|c s]; simpl; auto. Qed.

(** *** Prefixes *)

Lemma has_prefix_app p s : has_prefix (p +:+ s) p = true.
Proof.
  unfold has_prefix. induction p as [|c p IH]; simpl; [by destruct s|].
  destruct (ascii_dec c c); [done|congruence].
Qed.

Lemma has_prefix_spec s p : has_prefix s p = true ↔ ∃ t, s = p +:+ t.
Proof.
  split; [|intros [t ->]; apply has_prefix_app].
  unfold has_prefix. revert s. induction p as [|c p IH]; intros s; simpl; [eauto|].
  destruct s as [|d s]; simpl; [done|]. destruct (ascii_dec c d); [|done].
  intros [t Ht]%IH. subst. eauto.
Qed.

Lemma contains_byte_app c a b :
  contains_byte c (a +:+ b) = contains_byte c a || contains_byte c b.
Proof. induction a; simpl; [done|]. destruct (ascii_dec _ _); auto. Qed.

(** Two strings that agree up to a byte neither prefix contains have the
    same prefix. *)
Lemma split_at_byte c a a' b b' :
  contains_byte c a = false → contains_byte c a' = false →
  a +:+ String c b = a' +:+ String c b' → a = a' ∧ b = b'.
Proof.
  revert a'. induction a as [|x a IH]; intros [|y a'] Ha Ha' H; simpl in *.
  - by injection H.
  - destruct (ascii_dec c y); [done|congruence].
  - destruct (ascii_dec c x); [done|congruence].
  - destruct (ascii_dec c x), (ascii_dec c y); try done.
    injection H as -> H. by destruct (IH a') as [-> ->].
Qed.

(** *** Byte order *)

#[export] Instance bytes_le_refl : Reflexive bytes_le.
Proof.
  intros s. unfold bytes_le. induction s as [|c s IH]; simpl; [done|].
  by rewrite Z.ltb_irrefl, Z.eqb_refl.
Qed.

#[export] Instance bytes_le_trans : Transitive bytes_le.
Proof.
  intros a. unfold bytes_le. induction a as [|x a IH]; intros [|y b] [|z c]; simpl; try done.
  repeat case_match; bool_facts; try done; try lia. intros ??. eauto.
Qed.

#[export] Instance bytes_le_antisymm : AntiSymm (=) bytes_le.
Proof.
  intros a. unfold bytes_le. induction a as [|x a IH]; intros [|y b]; simpl; try done.
  repeat case_match; bool_facts; try done; try lia. intros ??.
  f_equal; [by apply (inj Z_of_byte)|auto].
Qed.

#[export] Instance bytes_le_total : Total bytes_le.
Proof.
  intros a. unfold bytes_le. induction a as [|x a IH]; intros [|y b]; simpl; auto.
  repeat case_match; bool_facts; try lia; auto.
Qed.

Lemma bytes_ltb_spec a b : bytes_ltb a b = true ↔ bytes_le a b ∧ a ≠ b.
Proof.
  unfold bytes_ltb. rewrite negb_true_iff. split.
  - intros Hn. destruct (total bytes_le a b) as [H|H].
    + split; [done|]. intros ->. unfold bytes_le in H. congruence.
    + unfold bytes_le in H. congruence.
  - intros [H Hne]. destruct (bytes_leb b a) eqn:E; [|done].
    destruct Hne. by apply (anti_symm bytes_le).
Qed.

Lemma bytes_ltb_false a b : bytes_ltb a b = false ↔ bytes_le b a.
Proof. unfold bytes_ltb, bytes_le. by rewrite negb_false_iff. Qed.

(** A common prefix does not matter for the order. *)
Lemma bytes_leb_app p a b : bytes_leb (p +:+ a) (p +:+ b) = bytes_leb a b.
Proof. induction p; simpl; [done|]. by rewrite Z.ltb_irrefl, Z.eqb_refl. Qed.

(** A prefix sorts before its extensions. *)
Lemma bytes_le_prefix p s : bytes_le p (p +:+ s).
Proof.
  unfold bytes_le. rewrite <- (app_string_nil_r p) at 1. by rewrite bytes_leb_app.
Qed.

(** *** Big-endian integers *)

Lemma length_be n z : String.length (be n z) = n.
Proof. induction n; simpl; auto. Qed.

Lemma pow256_pos n : 0 < 256 ^ Z.of_nat n.
Proof. apply Z.pow_pos_nonneg; lia. Qed.

Lemma pow256_S n : 256 ^ Z.of_nat (S n) = 256 * 256 ^ Z.of_nat n.
Proof. rewrite Nat2Z.inj_succ, Z.pow_succ_r; lia. Qed.

(** The last [n] digits only depend on the value modulo [256^n]. *)
Lemma be_mod n m z : (m ≤ n)%nat → be m (z mod 256 ^ Z.of_nat n) = be m z.
Proof.
  revert z. induction m as [|m IH]; intros z Hm; simpl; [done|]. f_equal; [|apply IH; lia].
  apply (inj Z_of_byte). rewrite !Z_of_byte_of_Z.
  pose proof (pow256_pos m). pose proof (pow256_pos (n - m)).
  replace (256 ^ Z.of_nat n) with (256 ^ Z.of_nat m * 256 ^ Z.of_nat (n - m))
    by (rewrite <- Z.pow_add_r; [f_equal|..]; lia).
  rewrite Z.rem_mul_r by lia. rewrite Z.add_comm, (Z.mul_comm (256 ^ _)), Z.div_add_l by lia.
  rewrite (Z.div_small (z mod _)) by (apply Z.mod_pos_bound; lia). rewrite Z.add_0_r.
  replace (n - m)%nat with (S (n - m - 1)) by lia. rewrite pow256_S.
  pose proof (pow256_pos (n - m - 1)).
  rewrite Z.rem_mul_r by lia. by rewrite Z.add_mod, Z.mul_comm, Z.mod_mul, Z.add_0_r, !Z.mod_mod by lia.
Qed.

(** Encodings compare like the numbers they encode. *)
Lemma be_leb n x y a b :
  0 ≤ x < 256 ^ Z.of_nat n → 0 ≤ y < 256 ^ Z.of_nat n →
  bytes_leb (be n x +:+ a) (be n y +:+ b)
  = if x <? y then true else if x =? y then bytes_leb a b else false.
Proof.
  revert x y. induction n as [|n IH]; intros x y Hx Hy.
  { change (256 ^ Z.of_nat 0) with 1 in *. assert (x = 0) as -> by lia. by assert (y = 0) as -> by lia. }
  rewrite pow256_S in Hx, Hy. pose proof (pow256_pos n) as Hp. set (p := 256 ^ Z.of_nat n) in *.
  cbn [be String.append bytes_leb]. fold p. rewrite !Z_of_byte_of_Z.
  assert (0 ≤ x / p < 256) as Hqx by (split; [apply Z.div_pos; lia|apply Z.div_lt_upper_bound; lia]).
  assert (0 ≤ y / p < 256) as Hqy by (split; [apply Z.div_pos; lia|apply Z.div_lt_upper_bound; lia]).
  rewrite (Z.mod_small (x / p)), (Z.mod_small (y / p)) by lia.
  pose proof (Z.div_mod x p ltac:(lia)) as Ex. pose proof (Z.div_mod y p ltac:(lia)) as Ey.
  pose proof (Z.mod_pos_bound x p Hp) as Rx. pose proof (Z.mod_pos_bound y p Hp) as Ry.
  rewrite <- (be_mod n n x), <- (be_mod n n y) by lia. fold p. rewrite IH by done.
  destruct (Z.ltb_spec (x / p) (y / p)) as [H|H].
  { destruct (Z.ltb_spec x y) as [|H']; [done|nia]. }
  destruct (Z.eqb_spec (x / p) (y / p)) as [H'|H'].
  - destruct (Z.ltb_spec (x mod p) (y mod p)), (Z.ltb_spec x y),
      (Z.eqb_spec (x mod p) (y mod p)), (Z.eqb_spec x y); try done; nia.
  - destruct (Z.ltb_spec x y), (Z.eqb_spec x y); try done; nia.
Qed.

Lemma be64_leb x y a b :
  0 ≤ x < two64 → 0 ≤ y < two64 →
  bytes_leb (be64 x +:+ a) (be64 y +:+ b)
  = if x <? y then true else if x =? y then bytes_leb a b else false.
Proof. apply (be_leb 8). Qed.

Lemma be_decode_aux_app acc a b :
  be_decode_aux acc (a +:+ b) = be_decode_aux (be_decode_aux acc a) b.
Proof. revert acc. induction a; intros acc; simpl; auto. Qed.

Lemma be_decode_aux_be n acc z :
  be_decode_aux acc (be n z) = acc * 256 ^ Z.of_nat n + z mod 256 ^ Z.of_nat n.
Proof.
  revert acc. induction n as [|n IH]; intros acc.
  { simpl. change (256 ^ Z.of_nat 0) with 1. rewrite Z.mod_1_r. lia. }
  cbn [be be_decode_aux]. rewrite IH, Z_of_byte_of_Z, pow256_S.
  pose proof (pow256_pos n). set (p := 256 ^ Z.of_nat n) in *.
  rewrite (Z.mul_comm 256 p), (Z.rem_mul_r z p 256) by lia. lia.
Qed.

(** Decoding an encoded uint64 gives it back. *)
Lemma be_decode_be64 z : be_decode (be64 z) = to_u64 z.
Proof. unfold be_decode, be64. by rewrite be_decode_aux_be. Qed.

Lemma be64_inj x y : 0 ≤ x < two64 → 0 ≤ y < two64 → be64 x = be64 y → x = y.
Proof.
  intros Hx Hy H. apply (f_equal be_decode) in H.
  rewrite !be_decode_be64, !to_u64_small in H; done.
Qed.

(** *** Hex *)

Lemma unhex_hex_digit z : 0 ≤ z < 16 → unhex_digit (hex_digit z) = Some z.
Proof.
  intros Hz. unfold unhex_digit, hex_digit. destruct (Z.ltb_spec z 10); rewrite Z_of_byte_of_Z, Z.mod_small by lia.
  - replace (48 <=? 48 + z) with true by (symmetry; lia).
    replace (48 + z <=? 57) with true by (symmetry; lia). simpl. f_equal; lia.
  - replace (87 + z <=? 57) with false by (symmetry; lia). rewrite andb_false_r.
    replace (97 <=? 87 + z) with true by (symmetry; lia).
    replace (87 + z <=? 102) with true by (symmetry; lia). simpl. f_equal; lia.
Qed.

Lemma unhex_hex s : unhex (hex s) = Some s.
Proof.
  induction s as [|c s IH]; simpl; [done|].
  pose proof (Z_of_byte_range c).
  rewrite !unhex_hex_digit, IH;
    [|apply Z.mod_pos_bound; lia|split; [apply Z.div_pos; lia|apply Z.div_lt_upper_bound; lia]].
  by rewrite <- Z.div_mod, byte_of_Z_of_byte by lia.
Qed.

Lemma length_hex s : String.length (hex s) = (2 * String.length s)%nat.
Proof. induction s; simpl; lia. Qed.

#[export] Instance hex_inj : Inj (=) (=) hex.
Proof. intros a b H. apply (f_equal unhex) in H. rewrite !unhex_hex in H. congruence. Qed.

(** The round trip of event ids through their hex form. *)
Lemma id_from_hex_hex id : String.length id = 32%nat → id_from_hex (hex id) = Some id.
Proof. intros H. unfold id_from_hex. rewrite length_hex, H. simpl. apply unhex_hex. Qed.

#[global] Arguments drop_bytes n s : simpl never.
#[global] Arguments take_bytes n s : simpl never.
#[global] Arguments be64 z : simpl never.
#[global] Arguments be32 z : simpl never.

(** * Decimal numbers

    What the sources use of Go's [strconv]: printing and parsing integers in
    base ten. *)

(** ** strconv.AppendInt and AppendUint in base ten *)

Definition digit (z : Z) : string := String (byte_of_Z (48 + z)) "".

(** Twenty digits hold every 64-bit value. *)
Fixpoint decimal (fuel : nat) (z : Z) : string :=
  match fuel with
  | O => ""
  | S fuel' => if z <? 10 then digit z else decimal fuel' (z / 10) +:+ digit (z mod 10)
  end.

Definition AppendUint (dst : string) (z : Z) : string := dst +:+ decimal 20 z.
Definition AppendInt (dst : string) (z : Z) : string :=
  if z <? 0 then dst +:+ string_of_bytes [45] +:+ decimal 20 (- z) else dst +:+ decimal 20 z.

(** ** strconv.ParseInt(s, 10, 64) *)

Definition digit_value (c : ascii) : option Z :=
  let z := Z_of_byte c in if (48 <=? z) && (z <=? 57) then Some (z - 48) else None.

Fixpoint parse_digits (s : string) (acc : Z) : option Z :=
  match s with
  | EmptyString => Some acc
  | String c s' => match digit_value c with Some d => parse_digits s' (acc * 10 + d) | None => None end
  end.

Definition parse_int64 (s : string) : option Z :=
  let '(neg, digits) :=
    match s with
    | String c s' =>
        if Z_of_byte c =? 45 then (true, s') else if Z_of_byte c =? 43 then (false, s') else (false, s)
    | EmptyString => (false, s)
    end in
  match digits with
  | EmptyString => None
  | String _ _ =>
      match parse_digits digits 0 with
      | Some n =>
          let v := if (neg : bool) then - n else n in
          if (min_i64 <=? v) && (v <=? max_i64) then Some v else None
      | None => None
      end
  end.

(** ** Round trip *)

Lemma parse_digits_app a b acc :
  parse_digits (a +:+ b) acc = match parse_digits a acc with Some n => parse_digits b n | None => None end.
Proof. revert acc. induction a as [|c a IH]; intros acc; simpl; [done|]. by case_match. Qed.

Lemma digit_value_digit z : 0 ≤ z < 10 → digit_value (byte_of_Z (48 + z)) = Some z.
Proof.
  intros Hz. unfold digit_value. rewrite Z_of_byte_of_Z, Z.mod_small by lia.
  rewrite (proj2 (Z.leb_le _ _)), (proj2 (Z.leb_le _ _)) by lia. simpl. f_equal. lia.
Qed.

Lemma parse_digits_decimal fuel : ∀ z acc, 0 ≤ z < 10 ^ Z.of_nat fuel →
  ∃ n, 0 ≤ n ∧ parse_digits (decimal fuel z) acc = Some (acc * 10 ^ n + z).
Proof.
  induction fuel as [|fuel IH]; intros z acc Hz.
  { exists 0. simpl in *. split; [done|]. f_equal. lia. }
  replace (10 ^ Z.of_nat (S fuel)) with (10 * 10 ^ Z.of_nat fuel) in Hz
    by (rewrite Nat2Z.inj_succ, Z.pow_succ_r; lia).
  simpl. destruct (Z.ltb_spec z 10) as [Hlt|Hge].
  { exists 1. split; [done|]. simpl. rewrite digit_value_digit by lia. f_equal; lia. }
  destruct (IH (z / 10) acc) as (n & Hn & Hp); [split; [apply Z.div_pos; lia|apply Z.div_lt_upper_bound; lia]|].
  exists (n + 1). split; [lia|]. rewrite parse_digits_app, Hp. simpl.
  rewrite digit_value_digit by (apply Z.mod_pos_bound; lia). f_equal.
  rewrite Z.pow_add_r by lia. pose proof (Z.div_mod z 10). lia.
Qed.

Lemma decimal_parse z : 0 ≤ z < two64 → parse_digits (decimal 20 z) 0 = Some z.
Proof.
  intros Hz. destruct (parse_digits_decimal 20 z 0) as (n & _ & ->); [unfold two64 in Hz; lia|done].
Qed.

Lemma decimal_digits fuel : ∀ z, 0 ≤ z → ∀ c, (c < 48 ∨ 57 < c) → 0 ≤ c < 256 →
  contains_byte (byte_of_Z c) (decimal fuel z) = false.
Proof.
  induction fuel as [|fuel IH]; intros z Hz c Hc Hr; simpl; [done|].
  assert (∀ d, 0 ≤ d < 10 → contains_byte (byte_of_Z c) (digit d) = false) as Hd.
  { intros d Hd. simpl. case_match; [|done].
    destruct H. apply (f_equal Z_of_byte) in e. rewrite !Z_of_byte_of_Z, !Z.mod_small in e by lia. lia. }
  destruct (Z.ltb_spec z 10); [apply Hd; lia|].
  rewrite contains_byte_app, IH, Hd; [done|apply Z.mod_pos_bound; lia|apply Z.div_pos; lia|done..].
Qed.

Lemma decimal_nonempty fuel z : (0 < fuel)%nat → decimal fuel z ≠ "".
Proof.
  destruct fuel; [lia|]. intros _. simpl. case_match; [done|]. intros Hl%(f_equal String.length).
  rewrite length_app_string in Hl. simpl in Hl. lia.
Qed.

(** Reading back a printed int64. *)
Lemma parse_int64_AppendInt z : min_i64 ≤ z ≤ max_i64 → parse_int64 (AppendInt "" z) = Some z.
Proof.
  intros Hz. unfold AppendInt.
  assert (parse_digits (decimal 20 (Z.abs z)) 0 = Some (Z.abs z)) as Hp
    by (apply decimal_parse; unfold min_i64, max_i64, two63, two64 in *; lia).
  assert (decimal 20 (Z.abs z) ≠ "") as Hne by (apply decimal_nonempty; lia).
  assert (∀ b, (b = 45 ∨ b = 43) → contains_byte (byte_of_Z b) (decimal 20 (Z.abs z)) = false) as Hsign
    by (intros b Hb; apply decimal_digits; lia).
  destruct (Z.ltb_spec z 0) as [Hneg|Hpos].
  - replace (- z) with (Z.abs z) by lia. revert Hp Hne Hsign. generalize (decimal 20 (Z.abs z)). intros d Hp Hne _.
    unfold parse_int64. simpl. destruct d; [done|]. rewrite Hp.
    replace (- Z.abs z) with z by lia. by rewrite (proj2 (Z.leb_le _ _)), (proj2 (Z.leb_le _ _)) by lia.
  - replace (Z.abs z) with z in * by lia. revert Hp Hne Hsign. generalize (decimal 20 z). intros d Hp Hne Hsign.
    unfold parse_int64. simpl. destruct d as [|c s]; [done|].
    assert (∀ b, b = 45 ∨ b = 43 → (Z_of_byte c =? b) = false) as Hc.
    { intros b Hb. apply Z.eqb_neq. intros <-. specialize (Hsign _ Hb). rewrite byte_of_Z_of_byte in Hsign.
      simpl in Hsign. by destruct (ascii_dec c c). }
    rewrite (Hc 45), (Hc 43), Hp by auto. by rewrite (proj2 (Z.leb_le _ _)), (proj2 (Z.leb_le _ _)) by lia.
Qed.

#[global] Arguments decimal fuel z : simpl never.
