(* ===== verification/Nostr.v ===== *)
(** * Nostr events

    The event type the outbox stores ([src/third_party/nostr/event.go]), its
    tag accessors, and the status contents the outbox decodes. *)

From Stdlib Require Import ZArith Lia Bool.
From stdpp Require Import base tactics decidable option list numbers strings.
From S2P Require Import Prelude Bytes.

(** [nostr.Event].  [ID] and [PubKey] are 32-byte arrays and [Sig] a 64-byte
    array; [CreatedAt] is an int64 count of seconds and [Kind] a uint16. *)
Record Event := mkEvent {
  ev_ID : string;
  ev_PubKey : string;
  ev_CreatedAt : Z;
  ev_Kind : Z;
  ev_Tags : list (list string);
  ev_Content : string;
  ev_Sig : string;
}.

#[export] Instance Event_eq_dec : EqDecision Event.
Proof. solve_decision. Defined.

Definition two32 : Z := 4294967296.

(** The sizes Go's types give an event, and tag values below 4 GiB (the width
    of the length fields of the coordinate keys). *)
Record wf_event (ev : Event) : Prop := {
  wf_id : String.length (ev_ID ev) = 32%nat;
  wf_pubkey : String.length (ev_PubKey ev) = 32%nat;
  wf_kind : 0 ≤ ev_Kind ev < 65536;
  wf_createdAt : min_i64 ≤ ev_CreatedAt ev ≤ max_i64;
  wf_tags : ∀ t v, t ∈ ev_Tags ev → v ∈ t → slen v < two32;
}.

(** [nostr.ZeroID]. *)
Definition ZeroID : string := string_of_bytes (replicate 32 0).

(** [nostr.Event{ID, PubKey, Sig}] with every other field zero. *)
Definition compact_event (ev : Event) : Event :=
  mkEvent (ev_ID ev) (ev_PubKey ev) 0 0 [] "" (ev_Sig ev).

(** [Kind.IsAddressable]. *)
Definition IsAddressable (kind : Z) : bool := (30000 <=? kind) && (kind <? 40000).

(** The first value of tag [key], or the empty string. *)
Fixpoint outboxTag (tags : list (list string)) (key : string) : string :=
  match tags with
  | [] => ""
  | (k :: v :: _) :: tags' => if String.eqb k key then v else outboxTag tags' key
  | _ :: tags' => outboxTag tags' key
  end.

(** Whether [key] occurs exactly once (among tags with a value), with value
    [want]; the loop returns false at the first other value. *)
Fixpoint count_matching_tags (tags : list (list string)) (key want : string) (count : nat) : option nat :=
  match tags with
  | [] => Some count
  | (k :: v :: _) :: tags' =>
      if String.eqb k key then
        if String.eqb v want then count_matching_tags tags' key want (S count) else None
      else count_matching_tags tags' key want count
  | _ :: tags' => count_matching_tags tags' key want count
  end.

Definition oneBackupRunTag (tags : list (list string)) (key want : string) : bool :=
  match count_matching_tags tags key want 0 with
  | Some n => Nat.eqb n 1
  | None => false
  end.

Definition hasBackupRunTag (tags : list (list string)) (key : string) : bool :=
  existsb (λ tag, match tag with k :: _ => String.eqb k key | [] => false end) tags.

(** The JSON contents the outbox reads from status events: the fields of the
    anonymous structs the sources decode into (a field a struct lacks is
    empty), plus whether the decoded object has a member named coordinate. *)
Record StatusContent := mkStatusContent {
  sc_IntentID : string;
  sc_Coordinate : string;
  sc_Result : string;
  sc_Reason : string;
  sc_RunID : string;
  sc_StateEventID : string;
  sc_Execution : string;
  sc_has_coordinate : bool;
}.

(** ** Facts *)

Lemma count_matching_tags_spec tags key want n m :
  count_matching_tags tags key want n = Some m →
  (∀ v rest, (key :: v :: rest) ∈ tags → v = want) ∧ (n ≤ m)%nat.
Proof.
  revert n. induction tags as [|tag tags IH]; intros n; simpl.
  { intros [= ->]. split; [|lia]. intros v rest H. by apply not_elem_of_nil in H. }
  destruct tag as [|k [|v rest]].
  - intros [H1 H2]%IH. split; [|done]. intros v rest [H|H]%elem_of_cons; [done|eauto].
  - intros [H1 H2]%IH. split; [|done]. intros v rest [H|H]%elem_of_cons; [done|eauto].
  - destruct (String.eqb_spec k key) as [->|Hk]; [destruct (String.eqb_spec v want) as [->|]; [|done]|];
      intros [H1 H2]%IH; (split; [|lia]); intros v' rest' [H|H]%elem_of_cons; eauto; congruence.
Qed.

Lemma outboxTag_elem tags key : outboxTag tags key ≠ "" →
  ∃ rest, (key :: outboxTag tags key :: rest) ∈ tags.
Proof.
  induction tags as [|tag tags IH]; simpl; [done|].
  destruct tag as [|k [|v rest]]; [intros []%IH; eexists; by right..|].
  destruct (String.eqb_spec k key) as [->|]; [intros _; eexists; by left|].
  intros []%IH. eexists. by right.
Qed.

(** A tag that occurs exactly once with a value is the one the accessor
    returns. *)
Lemma oneBackupRunTag_outboxTag tags key want :
  oneBackupRunTag tags key want = true → outboxTag tags key = want.
Proof.
  unfold oneBackupRunTag.
  assert (∀ n m, count_matching_tags tags key want n = Some m → n ≠ m → outboxTag tags key = want) as H.
  { induction tags as [|tag tags IH]; intros n m; simpl; [congruence|].
    destruct tag as [|k [|v rest]]; [apply IH..|].
    destruct (String.eqb_spec k key) as [->|]; [|apply IH].
    by destruct (String.eqb_spec v want). }
  destruct (count_matching_tags _ _ _ _) as [n|] eqn:E; [|done].
  intros ->%Nat.eqb_eq. by eapply H.
Qed.
