(* ===== verification/EventID.v ===== *)
(** * Event identity

    The NIP-01 serialization an event's id hashes
    ([src/third_party/nostr/event.go]): the word-at-a-time JSON escaper, the
    buffer and the streaming serializers, and the id and signature checks
    ([CheckID], [VerifySignature] of [signature.go]). *)

From Stdlib Require Import ZArith Lia Bool Ascii.
From stdpp Require Import base tactics decidable option list numbers strings.
From S2P Require Import Prelude Bytes Nostr.

(** ** Escaping *)

Definition quote : string := string_of_bytes [34].

(** [escTable] and [escSeq]: quote, backslash, newline, carriage return and
    tab, each with the letter that follows the backslash. *)
Definition escape_letters : list (Z * Z) := [(34, 34); (92, 92); (10, 110); (13, 114); (9, 116)].

Fixpoint find_letter (letters : list (Z * Z)) (b : Z) : option Z :=
  match letters with
  | [] => None
  | (b', l) :: letters' => if b' =? b then Some l else find_letter letters' b
  end.

Definition escTable (c : ascii) : bool := if find_letter escape_letters (Z_of_byte c) then true else false.
Definition escSeq (c : ascii) : string :=
  match find_letter escape_letters (Z_of_byte c) with
  | Some l => string_of_bytes [92; l]
  | None => ""
  end.

(** *** The test of eight bytes at a time *)

(** A machine word from its bytes, least significant first. *)
Fixpoint word_of (bytes : list Z) : Z :=
  match bytes with
  | [] => 0
  | b :: bytes' => b + 256 * word_of bytes'
  end.

(** [match]: non-zero iff some byte of [w] equals [v]. *)
Definition has_byte (w v : Z) : Z :=
  let x := Z.lxor w ((72340172838076673 * v) mod two64) in
  Z.land (Z.land (to_u64 (x - 72340172838076673)) (Z.lxor x (two64 - 1))) 9259542123273814144.

Definition hasSpecial (w : Z) : bool :=
  negb (Z.lor (Z.lor (Z.lor (Z.lor (has_byte w 9) (has_byte w 10)) (has_byte w 13)) (has_byte w 34)) (has_byte w 92) =? 0).

Fixpoint bytes_of (n : nat) (s : string) : list Z :=
  match n, s with
  | S n', String c s' => Z_of_byte c :: bytes_of n' s'
  | _, _ => []
  end.

(** *** The buffer escaper, [appendJSONString]

    The loops' state is the output [dst], the bytes [s[start:i]] since the
    last checkpoint ([chunk]) and the bytes [s[i:]] still to read ([rest]). *)

Fixpoint append_bytes (k : nat) (dst chunk rest : string) : string * string * string :=
  match k, rest with
  | S k', String c rest' =>
      if escTable c then append_bytes k' (dst +:+ chunk +:+ escSeq c) "" rest'
      else append_bytes k' dst (chunk +:+ String c "") rest'
  | _, _ => (dst, chunk, rest)
  end.

(** The loop over words; each turn reads eight bytes, so the length of the
    input is enough fuel. *)
Fixpoint append_words (fuel : nat) (dst chunk rest : string) : string * string * string :=
  match fuel with
  | O => (dst, chunk, rest)
  | S fuel' =>
      if Nat.leb 8 (String.length rest) then
        if hasSpecial (word_of (bytes_of 8 rest)) then
          let '(dst, chunk, rest) := append_bytes 8 dst chunk rest in append_words fuel' dst chunk rest
        else append_words fuel' dst (chunk +:+ take_bytes 8 rest) (drop_bytes 8 rest)
      else (dst, chunk, rest)
  end.

Definition appendJSONString (dst s : string) : string :=
  let dst := dst +:+ quote in
  match s with
  | EmptyString => dst +:+ quote
  | _ =>
      let '(dst, chunk, rest) := append_words (String.length s) dst "" s in
      let '(dst, chunk, _) := append_bytes (String.length rest) dst chunk rest in
      dst +:+ chunk +:+ quote
  end.

(** *** The streaming escaper, [writeJSONString]

    [h] is what has been written to the hash. *)

Definition write_chunk (h chunk : string) : string := if String.eqb chunk "" then h else h +:+ chunk.

Fixpoint write_bytes (k : nat) (h chunk rest : string) : string * string * string :=
  match k, rest with
  | S k', String c rest' =>
      if escTable c then write_bytes k' (write_chunk h chunk +:+ escSeq c) "" rest'
      else write_bytes k' h (chunk +:+ String c "") rest'
  | _, _ => (h, chunk, rest)
  end.

Fixpoint write_words (fuel : nat) (h chunk rest : string) : string * string * string :=
  match fuel with
  | O => (h, chunk, rest)
  | S fuel' =>
      if Nat.leb 8 (String.length rest) then
        if hasSpecial (word_of (bytes_of 8 rest)) then
          let '(h, chunk, rest) := write_bytes 8 h chunk rest in write_words fuel' h chunk rest
        else write_words fuel' h (chunk +:+ take_bytes 8 rest) (drop_bytes 8 rest)
      else (h, chunk, rest)
  end.

Definition writeJSONString (h s : string) : string :=
  let h := h +:+ quote in
  match s with
  | EmptyString => h +:+ quote
  | _ =>
      let '(h, chunk, rest) := write_words (String.length s) h "" s in
      let '(h, chunk, _) := write_bytes (String.length rest) h chunk rest in
      write_chunk h chunk +:+ quote
  end.

(** ** Serialization *)

Definition comma : string := string_of_bytes [44].
Definition open_bracket : string := string_of_bytes [91].
Definition close_bracket : string := string_of_bytes [93].
(** The bytes that open the array: bracket, zero, comma, quote. *)
Definition serializedStart : string := string_of_bytes [91; 48; 44; 34].
Definition serializedPubkeyEnd : string := string_of_bytes [34; 44].
Definition serializedTagsEnd : string := string_of_bytes [93; 44].

(** A loop that writes [one] for each element, with commas between. *)
Fixpoint append_list {A} (one : string → A → string) (dst : string) (first : bool) (l : list A) : string :=
  match l with
  | [] => dst
  | x :: l' => append_list one (one (if first then dst else dst +:+ comma) x) false l'
  end.

Definition appendTag (str : string → string → string) (dst : string) (tag : list string) : string :=
  append_list str (dst +:+ open_bracket) true tag +:+ close_bracket.

Definition appendSerialized (dst : string) (evt : Event) : string :=
  let dst := dst +:+ serializedStart +:+ hex (ev_PubKey evt) +:+ serializedPubkeyEnd in
  let dst := AppendInt dst (ev_CreatedAt evt) +:+ comma in
  let dst := AppendUint dst (ev_Kind evt) +:+ comma in
  let dst := append_list (appendTag appendJSONString) (dst +:+ open_bracket) true (ev_Tags evt) in
  let dst := dst +:+ serializedTagsEnd in
  appendJSONString dst (ev_Content evt) +:+ close_bracket.

Definition Serialize (evt : Event) : string := appendSerialized "" evt.

(** The bytes [serializedHash] writes to the hash. *)
Definition serializedHash_bytes (evt : Event) : string :=
  let h := serializedStart +:+ hex (ev_PubKey evt) +:+ serializedPubkeyEnd in
  let h := AppendInt h (ev_CreatedAt evt) +:+ comma in
  let h := AppendUint h (ev_Kind evt) +:+ comma in
  let h := append_list (appendTag writeJSONString) (h +:+ open_bracket) true (ev_Tags evt) in
  let h := h +:+ serializedTagsEnd in
  writeJSONString h (ev_Content evt) +:+ close_bracket.

(** ** Code outside the repository *)

(** SHA-256, BIP-340 verification and key parsing (btcec), and JSON decoding
    of event content.  Nothing below depends on how they are implemented. *)
Class NostrPrims := {
  sha256 : string → string;
  (** [VerifySignature] after the id is recomputed: the key lifts to the curve
      and the signature verifies over the id.  Id, key, signature. *)
  verify_bip340 : string → string → string → bool;
  ParsePubKey : string → bool;
  (** [schnorr.ParseSignature] succeeds and [Verify] accepts: id, key, signature. *)
  SchnorrVerify : string → string → string → bool;
  (** [json.Unmarshal] of a status content into the struct of
      [validUnadmittedBackupRunStatus], [StageBackupRunAcceptedStatus] and
      [StageBackupRunRefusedStatus]; [None] where it fails. *)
  decode_unadmitted : string → option StatusContent;
  decode_accepted : string → option StatusContent;
  decode_refused : string → option StatusContent;
}.

(** What the code relies on of them: SHA-256 digests that are 32 bytes long do
    not collide, and a signature the event check accepts is one the btcec
    parsers accept too. *)
Class NostrLaws `{NostrPrims} : Prop := {
  sha256_collision_free a b : String.length (sha256 a) = 32%nat → sha256 a = sha256 b → a = b;
  verify_bip340_parses id pk sig :
    verify_bip340 id pk sig = true → ParsePubKey pk = true ∧ SchnorrVerify id pk sig = true;
}.

Section identity.
Context `{NostrPrims}.

Definition GetID (evt : Event) : string := sha256 (serializedHash_bytes evt).
Definition CheckID (evt : Event) : bool := String.eqb (GetID evt) (ev_ID evt).
Definition VerifySignature (evt : Event) : bool := verify_bip340 (GetID evt) (ev_PubKey evt) (ev_Sig evt).

(** [nostr.PubKeyFromHex]. *)
Definition PubKeyFromHex (s : string) : option string :=
  match id_from_hex s with
  | Some pk => if ParsePubKey pk then Some pk else None
  | None => None
  end.
End identity.
