(* ===== verification/EventIDFacts.v ===== *)
(** * Event identity: correctness

    The word-at-a-time escaper computes the byte-wise escape, the buffer and
    the streaming serializers write the same bytes, and the serialization
    determines the event's signed fields. *)

From Stdlib Require Import ZArith Lia Bool Ascii.
From stdpp Require Import base tactics decidable option list numbers strings sets.
From S2P Require Import Prelude Bytes Nostr EventID.

(** ** The eight-byte test *)

Definition is_byte (b : Z) : Prop := 0 ≤ b < 256.

Lemma testbit_byte a x n : is_byte a → 0 ≤ n →
  Z.testbit (a + 256 * x) n = if n <? 8 then Z.testbit a n else Z.testbit x (n - 8).
Proof.
  intros Ha Hn. unfold is_byte in Ha. change 256 with (2 ^ 8) in *. destruct (Z.ltb_spec n 8).
  - rewrite <-(Z.mod_pow2_bits_low _ 8) by lia. f_equal.
    rewrite Z.mul_comm, Z.mod_add by lia. by apply Z.mod_small.
  - rewrite <-(Z.add_simpl_r n 8) at 1. replace (n + 8 - 8) with (n - 8 + 8) by lia.
    rewrite <-Z.div_pow2_bits by lia. f_equal.
    rewrite Z.mul_comm, Z.div_add by lia. rewrite Z.div_small; lia.
Qed.

(** Bitwise operations work byte by byte. *)
Lemma land_byte a b x y : is_byte a → is_byte b →
  Z.land (a + 256 * x) (b + 256 * y) = Z.land a b + 256 * Z.land x y ∧ is_byte (Z.land a b).
Proof.
  intros Ha Hb. assert (is_byte (Z.land a b)).
  { split; [apply Z.land_nonneg; left; apply Ha|].
    destruct (Z.le_gt_cases (Z.land a b) 0) as [|Hpos]; [lia|].
    apply (Z.log2_lt_pow2 _ 8); [lia|]. eapply Z.le_lt_trans; [apply Z.log2_land; [apply Ha|apply Hb]|].
    destruct (decide (a = 0)) as [->|]; [by rewrite Z.land_0_l in Hpos|].
    eapply Z.le_lt_trans; [apply Z.le_min_l|]. apply Z.log2_lt_pow2; unfold is_byte in Ha; lia. }
  split; [|done]. apply Z.bits_inj'. intros n Hn.
  rewrite Z.land_spec, !testbit_byte by done. by case_match; rewrite Z.land_spec.
Qed.

Lemma lxor_byte a b x y : is_byte a → is_byte b →
  Z.lxor (a + 256 * x) (b + 256 * y) = Z.lxor a b + 256 * Z.lxor x y ∧ is_byte (Z.lxor a b).
Proof.
  intros Ha Hb. assert (is_byte (Z.lxor a b)) as Hx.
  { split; [apply Z.lxor_nonneg; split; intros; [apply Hb|apply Ha]|].
    destruct (Z.le_gt_cases (Z.lxor a b) 0) as [|Hpos]; [lia|].
    apply (Z.log2_lt_pow2 _ 8); [lia|]. eapply Z.le_lt_trans; [apply Z.log2_lxor; [apply Ha|apply Hb]|].
    assert (∀ c, is_byte c → Z.log2 c < 8) as Hl.
    { intros c Hc. destruct (decide (c = 0)) as [->|]; [done|]. apply Z.log2_lt_pow2; unfold is_byte in Hc; lia. }
    apply Z.max_lub_lt; auto. }
  split; [|done]. apply Z.bits_inj'. intros n Hn.
  rewrite Z.lxor_spec, !testbit_byte by done. by case_match; rewrite Z.lxor_spec.
Qed.

(** [n] bytes equal to [b]. *)
Definition fill (n : nat) (b : Z) : Z := word_of (replicate n b).

Lemma word_of_range bs : Forall is_byte bs → 0 ≤ word_of bs < 256 ^ Z.of_nat (length bs).
Proof.
  induction 1 as [|b bs Hb _ IH]; [done|]. cbn [word_of length].
  rewrite Nat2Z.inj_succ, Z.pow_succ_r by lia. unfold is_byte in Hb. lia.
Qed.

Lemma lxor_word bs v : Forall is_byte bs → is_byte v →
  Z.lxor (word_of bs) (fill (length bs) v) = word_of (map (λ b, Z.lxor b v) bs) ∧
  Forall is_byte (map (λ b, Z.lxor b v) bs).
Proof.
  intros Hbs Hv. unfold fill. induction Hbs as [|b bs Hb _ [IH1 IH2]]; [done|]. cbn [word_of length replicate map].
  destruct (lxor_byte b v (word_of bs) (word_of (replicate (length bs) v))) as [-> ?]; [done..|].
  by rewrite IH1, Forall_cons.
Qed.

(** The classic test for a zero byte, on words of any number of bytes. *)
Definition zero_test (bs : list Z) : Z :=
  let n := length bs in
  Z.land (Z.land ((word_of bs - fill n 1) mod 256 ^ Z.of_nat n) (Z.lxor (word_of bs) (256 ^ Z.of_nat n - 1))) (fill n 128).

Lemma fill_255 n : 256 ^ Z.of_nat n - 1 = fill n 255.
Proof.
  unfold fill. induction n as [|n IH]; [done|]. rewrite Nat2Z.inj_succ, Z.pow_succ_r by lia. simpl. lia.
Qed.

Lemma byte_cases (f : Z → bool) : forallb f (map Z.of_nat (seq 0 256)) = true → ∀ b, is_byte b → f b = true.
Proof.
  intros Hf b Hb. rewrite forallb_forall in Hf. apply Hf. apply in_map_iff. exists (Z.to_nat b).
  unfold is_byte in Hb. split; [lia|]. apply in_seq. lia.
Qed.

(** A subtraction without borrow leaves bit 7 set only where it was. *)
Lemma byte_no_borrow b : is_byte b → b ≠ 0 → Z.land (Z.land (b - 1) (Z.lxor b 255)) 128 = 0.
Proof.
  intros Hb Hne. pose proof (byte_cases (λ b, (b =? 0) || (Z.land (Z.land (b - 1) (Z.lxor b 255)) 128 =? 0)) eq_refl b Hb) as H.
  apply orb_true_iff in H as [?|?]; lia.
Qed.

Lemma sub_byte b x n : is_byte b → b ≠ 0 → 0 ≤ x < 256 ^ Z.of_nat n →
  (b + 256 * x - (1 + 256 * fill n 1)) mod 256 ^ Z.of_nat (S n) = (b - 1) + 256 * ((x - fill n 1) mod 256 ^ Z.of_nat n).
Proof.
  intros Hb Hne Hx. rewrite Nat2Z.inj_succ, Z.pow_succ_r by lia. set (p := 256 ^ Z.of_nat n) in *.
  assert (0 < p) by (unfold p; apply Z.pow_pos_nonneg; lia).
  symmetry. apply (Z.mod_unique_pos _ _ ((x - fill n 1) / p)).
  - pose proof (Z.mod_pos_bound (x - fill n 1) p). unfold is_byte in Hb. lia.
  - pose proof (Z.div_mod (x - fill n 1) p). lia.
Qed.

Lemma zero_test_spec bs : Forall is_byte bs → zero_test bs = 0 ↔ 0 ∉ bs.
Proof.
  induction 1 as [|b bs Hb Hbs IH]; [split; [by intros _ ?%not_elem_of_nil|done]|]. pose proof (word_of_range bs Hbs) as Hr.
  unfold zero_test in *. rewrite fill_255 in *. cbn [word_of length] in *. unfold fill at 1 3. cbn [replicate word_of].
  fold (fill (length bs) 1) (fill (length bs) 255) (fill (length bs) 128).
  unfold fill at 2. cbn [replicate word_of]. fold (fill (length bs) 255).
  destruct (lxor_byte b 255 (word_of bs) (fill (length bs) 255)) as [-> Hx]; [done..|].
  destruct (decide (b = 0)) as [->|Hne].
  - split; [|by intros []; left]. intros H. exfalso. revert H.
    assert (∃ y, (0 + 256 * word_of bs - (1 + 256 * fill (length bs) 1)) mod 256 ^ Z.of_nat (S (length bs)) = 255 + 256 * y) as [y ->].
    { rewrite Nat2Z.inj_succ, Z.pow_succ_r by lia. set (p := 256 ^ Z.of_nat (length bs)) in *.
      exists ((word_of bs - fill (length bs) 1 - 1) mod p).
      symmetry. apply (Z.mod_unique_pos _ _ ((word_of bs - fill (length bs) 1 - 1) / p)).
      - pose proof (Z.mod_pos_bound (word_of bs - fill (length bs) 1 - 1) p). lia.
      - pose proof (Z.div_mod (word_of bs - fill (length bs) 1 - 1) p). lia. }
    rewrite (proj1 (land_byte 255 _ _ _ ltac:(done) Hx)), (proj1 (land_byte _ 128 _ _ ltac:(done) ltac:(done))).
    change (Z.land (Z.lxor 0 255) 128) with 128. lia.
  - rewrite sub_byte by done.
    destruct (land_byte (b - 1) (Z.lxor b 255) ((word_of bs - fill (length bs) 1) mod 256 ^ Z.of_nat (length bs))
      (Z.lxor (word_of bs) (fill (length bs) 255))) as [-> Hl]; [unfold is_byte in *; lia|done|].
    rewrite (proj1 (land_byte _ 128 _ _ Hl ltac:(done))).
    rewrite byte_no_borrow by done. rewrite not_elem_of_cons, <-IH. lia.
Qed.

Lemma has_byte_spec bs v : Forall is_byte bs → length bs = 8%nat → is_byte v → has_byte (word_of bs) v = 0 ↔ v ∉ bs.
Proof.
  intros Hbs Hl Hv. unfold has_byte.
  replace ((72340172838076673 * v) mod two64) with (fill 8 v)
    by (rewrite Z.mod_small; unfold fill, is_byte, two64 in *; simpl; lia).
  destruct (lxor_word bs v Hbs Hv) as [Hx Hxs]. rewrite Hl in Hx. rewrite Hx.
  set (xs := map (λ b, Z.lxor b v) bs) in *.
  assert (length xs = 8%nat) as Hl' by (unfold xs; by rewrite length_map).
  pose proof (zero_test_spec xs Hxs) as Hz. unfold zero_test in Hz. rewrite Hl' in Hz.
  change (256 ^ Z.of_nat 8) with two64 in Hz. change (fill 8 1) with 72340172838076673 in Hz.
  change (fill 8 128) with 9259542123273814144 in Hz. unfold to_u64. rewrite Hz.
  unfold xs. rewrite list_elem_of_fmap. split.
  - intros H Hin. apply H. exists v. by rewrite Z.lxor_nilpotent.
  - intros H (b & Hb%eq_sym%Z.lxor_eq & Hin). by subst.
Qed.

Definition special_byte (b : Z) : bool := (b =? 9) || (b =? 10) || (b =? 13) || (b =? 34) || (b =? 92).

(** The word test finds a byte to escape exactly when there is one. *)
Lemma hasSpecial_bytes bs : Forall is_byte bs → length bs = 8%nat → hasSpecial (word_of bs) = existsb special_byte bs.
Proof.
  intros Hbs Hl. apply eq_true_iff_eq. unfold hasSpecial. rewrite negb_true_iff, Z.eqb_neq, !Z.lor_eq_0_iff.
  rewrite !has_byte_spec by (done || unfold is_byte; lia). rewrite existsb_exists. split.
  - intros H. assert (∃ v, v ∈ bs ∧ special_byte v = true) as (v & Hv & Hs); [|exists v; by rewrite <-list_elem_of_In].
    destruct (decide (9 ∈ bs)); [by exists 9|]. destruct (decide (10 ∈ bs)); [by exists 10|].
    destruct (decide (13 ∈ bs)); [by exists 13|]. destruct (decide (34 ∈ bs)); [by exists 34|].
    destruct (decide (92 ∈ bs)); [by exists 92|]. naive_solver.
  - intros (v & Hin%list_elem_of_In & Hs) ((((H9 & H10) & H13) & H34) & H92). unfold special_byte in Hs.
    repeat (apply orb_true_iff in Hs as [Hs|Hs]); apply Z.eqb_eq in Hs; by subst.
Qed.

(** ** Escaping *)

(** One byte's escape, and the byte-wise escape of a string. *)
Definition escape_byte (c : ascii) : string := if escTable c then escSeq c else String c "".

Fixpoint escape (s : string) : string :=
  match s with
  | EmptyString => ""
  | String c s' => escape_byte c +:+ escape s'
  end.

Lemma escTable_special c : escTable c = special_byte (Z_of_byte c).
Proof.
  unfold escTable, special_byte, escape_letters. generalize (Z_of_byte c). intros b. cbn [find_letter].
  rewrite (Z.eqb_sym 34), (Z.eqb_sym 92), (Z.eqb_sym 10), (Z.eqb_sym 13), (Z.eqb_sym 9).
  by destruct (b =? 34), (b =? 92), (b =? 10), (b =? 13), (b =? 9).
Qed.

Lemma escape_app a b : escape (a +:+ b) = escape a +:+ escape b.
Proof. induction a as [|c a IH]; simpl; [done|]. by rewrite IH, app_string_assoc. Qed.

Lemma escape_clean s : (∀ n, existsb special_byte (bytes_of n s) = false) → escape s = s.
Proof.
  induction s as [|c s IH]; intros Hs; simpl; [done|].
  assert (escTable c = false) as Hc.
  { rewrite escTable_special. specialize (Hs 1%nat). simpl in Hs. by rewrite orb_false_r in Hs. }
  unfold escape_byte. rewrite Hc. simpl. f_equal. apply IH. intros n. specialize (Hs (S n)). simpl in Hs.
  by apply orb_false_iff in Hs as [_ ?].
Qed.

Lemma bytes_of_bytes n s : Forall is_byte (bytes_of n s).
Proof.
  revert s. induction n as [|n IH]; intros [|c s]; simpl; constructor; [apply Z_of_byte_range|apply IH].
Qed.

Lemma length_bytes_of n s : (n ≤ String.length s)%nat → length (bytes_of n s) = n.
Proof. revert s. induction n as [|n IH]; intros [|c s]; simpl; [done..|lia|]. intros. rewrite IH; lia. Qed.

Lemma clean_take n : ∀ s, existsb special_byte (bytes_of n s) = false → escape (take_bytes n s) = take_bytes n s.
Proof.
  induction n as [|n IH]; intros [|c s]; cbn; try done. intros [Hc Hs]%orb_false_iff.
  change (take_bytes (S n) (String c s)) with (String c (take_bytes n s)). cbn. unfold escape_byte. rewrite escTable_special, Hc. simpl. f_equal. by apply IH.
Qed.

(** ** The escapers *)

(** What is written so far, the pending chunk and the escape of what is left
    make up the escape of the whole. *)
Lemma append_bytes_spec k : ∀ dst chunk rest dst' chunk' rest',
  append_bytes k dst chunk rest = (dst', chunk', rest') →
  dst' +:+ chunk' +:+ escape rest' = dst +:+ chunk +:+ escape rest ∧
  String.length rest' = (String.length rest - k)%nat.
Proof.
  induction k as [|k IH]; intros dst chunk [|c rest] dst' chunk' rest'; cbn; intros Ha; simplify_eq; try (split; [done|cbn; lia]).
  unfold escape_byte. case_match; apply IH in Ha as [-> ->]; (split; [|done]);
    rewrite <-?app_string_assoc; simpl; rewrite <-?app_string_assoc; done.
Qed.

Lemma append_words_spec fuel : ∀ dst chunk rest dst' chunk' rest',
  append_words fuel dst chunk rest = (dst', chunk', rest') →
  dst' +:+ chunk' +:+ escape rest' = dst +:+ chunk +:+ escape rest ∧
  ((String.length rest ≤ fuel)%nat → (String.length rest' < 8)%nat).
Proof.
  induction fuel as [|fuel IH]; intros dst chunk rest dst' chunk' rest'; cbn [append_words];
    [intros; simplify_eq; split; [done|lia]|].
  destruct (Nat.leb_spec 8 (String.length rest)) as [Hl|Hl]; [|intros; simplify_eq; split; [done|lia]].
  destruct (hasSpecial _) eqn:Es.
  - destruct (append_bytes 8 dst chunk rest) as [[dst1 chunk1] rest1] eqn:Ea.
    apply append_bytes_spec in Ea as [<- Hl1]. intros [-> Hl']%IH. split; [done|lia].
  - rewrite hasSpecial_bytes in Es by eauto using bytes_of_bytes, length_bytes_of.
    intros [-> Hl']%IH. rewrite length_drop_bytes in Hl'. split; [|lia].
    rewrite <-(clean_take _ _ Es), <-app_string_assoc, <-escape_app, take_drop_bytes. done.
Qed.

(** The escaper writes the quoted byte-wise escape. *)
Lemma appendJSONString_escape dst s : appendJSONString dst s = dst +:+ quote +:+ escape s +:+ quote.
Proof.
  unfold appendJSONString. destruct s as [|c s]; [by rewrite <-!app_string_assoc|].
  destruct (append_words _ _ _ _) as [[dst1 chunk1] rest1] eqn:Ew.
  destruct (append_bytes _ _ _ _) as [[dst2 chunk2] rest2] eqn:Eb.
  apply append_words_spec in Ew as [Ew _]. apply append_bytes_spec in Eb as [Eb Hl].
  destruct rest2; [|simpl in Hl; lia]. rewrite Ew in Eb. simpl in Eb. rewrite app_string_nil_r in Eb.
  rewrite app_string_assoc, Eb. cbn [escape]. by rewrite <-!app_string_assoc.
Qed.

Lemma write_chunk_app h chunk : write_chunk h chunk = h +:+ chunk.
Proof. unfold write_chunk. destruct (String.eqb_spec chunk "") as [->|]; [by rewrite app_string_nil_r|done]. Qed.

Lemma write_bytes_append k : ∀ h chunk rest, write_bytes k h chunk rest = append_bytes k h chunk rest.
Proof.
  induction k as [|k IH]; intros h chunk [|c rest]; cbn; [done..|].
  by rewrite !IH, write_chunk_app, app_string_assoc.
Qed.

Lemma write_words_append fuel : ∀ h chunk rest, write_words fuel h chunk rest = append_words fuel h chunk rest.
Proof.
  induction fuel as [|fuel IH]; intros h chunk rest; cbn [write_words append_words]; [done|].
  rewrite write_bytes_append.
  by destruct (append_bytes 8 h chunk rest) as [[??]?]; rewrite !IH.
Qed.

Lemma writeJSONString_append h s : writeJSONString h s = appendJSONString h s.
Proof.
  unfold writeJSONString, appendJSONString. destruct s as [|c s]; [done|]. rewrite write_words_append.
  destruct (append_words _ _ _ _) as [[??]?]. rewrite write_bytes_append.
  destruct (append_bytes _ _ _ _) as [[??]?]. by rewrite write_chunk_app, app_string_assoc.
Qed.

Lemma append_list_ext {A} (f g : string → A → string) l : (∀ dst x, f dst x = g dst x) →
  ∀ dst first, append_list f dst first l = append_list g dst first l.
Proof. intros Hfg. induction l as [|x l IH]; intros dst first; cbn; [done|]. by rewrite IH, Hfg. Qed.

(** The id hashes the bytes [Serialize] returns. *)
Lemma serializedHash_Serialize evt : serializedHash_bytes evt = Serialize evt.
Proof.
  unfold serializedHash_bytes, Serialize, appendSerialized. cbn zeta. rewrite writeJSONString_append.
  do 3 f_equal. apply append_list_ext. intros dst tag. unfold appendTag. f_equal.
  apply append_list_ext. intros. apply writeJSONString_append.
Qed.

(** ** The serialization determines the event *)

(** [f x] can be cut off the front of a string in one way only. *)
Definition prefix_free {A} (f : A → string) : Prop :=
  ∀ x y r r', f x +:+ r = f y +:+ r' → x = y ∧ r = r'.

Lemma escape_byte_prefix_free : prefix_free escape_byte.
Proof.
  intros c c' r r'. unfold escape_byte.
  assert (∀ c, escTable c = true → ∃ l, escSeq c = string_of_bytes [92; l] ∧
            (c = byte_of_Z 34 ∧ l = 34 ∨ c = byte_of_Z 92 ∧ l = 92 ∨ c = byte_of_Z 10 ∧ l = 110 ∨
             c = byte_of_Z 13 ∧ l = 114 ∨ c = byte_of_Z 9 ∧ l = 116)) as Hseq.
  { intros d Hd. rewrite escTable_special in Hd. unfold special_byte in Hd.
    repeat (apply orb_true_iff in Hd as [Hd|Hd]); apply Z.eqb_eq in Hd;
      rewrite <-(byte_of_Z_of_byte d), Hd; eexists; (split; [reflexivity|]); auto 10. }
  assert (∀ c, escTable c = false → c ≠ byte_of_Z 92) as Hplain by (by intros d Hd ->).
  destruct (escTable c) eqn:E, (escTable c') eqn:E'.
  - destruct (Hseq _ E) as (l & -> & Hl), (Hseq _ E') as (l' & -> & Hl'). simpl. intros [= Hb ->]. split; [|done].
    apply (f_equal Z_of_byte) in Hb. rewrite !Z_of_byte_of_Z in Hb.
    destruct Hl as [[-> ->]|[[-> ->]|[[-> ->]|[[-> ->]|[-> ->]]]]],
      Hl' as [[-> ->]|[[-> ->]|[[-> ->]|[[-> ->]|[-> ->]]]]]; (done || by vm_compute in Hb).
  - destruct (Hseq _ E) as (l & -> & _). simpl. intros [= H _]. by apply Hplain in E'.
  - destruct (Hseq _ E') as (l & -> & _). simpl. intros [= H _]. by apply Hplain in E.
  - simpl. by intros [= -> ->].
Qed.

Lemma escape_byte_not_quote c r r' : escape_byte c +:+ r ≠ quote +:+ r'.
Proof.
  unfold escape_byte. destruct (escTable c) eqn:E.
  - unfold escTable, escSeq in *. destruct (find_letter _ _); [|done]. simpl. intros [=].
  - simpl. intros [= -> _]. done.
Qed.

Definition quoted (s : string) : string := quote +:+ escape s +:+ quote.

Lemma quoted_prefix_free : prefix_free quoted.
Proof.
  intros s s' r r'. unfold quoted. rewrite <-!app_string_assoc. intros H%(inj _). revert s' H.
  induction s as [|c s IH]; intros [|c' s']; cbn [escape]; rewrite <-?app_string_assoc; intros H.
  - by injection H.
  - by apply eq_sym, escape_byte_not_quote in H.
  - by apply escape_byte_not_quote in H.
  - apply escape_byte_prefix_free in H as [-> H]. apply IH in H as [-> ->]. done.
Qed.

(** A comma-separated list. *)
Fixpoint separated {A} (f : A → string) (first : bool) (l : list A) : string :=
  match l with
  | [] => ""
  | x :: l' => (if first then "" else comma) +:+ f x +:+ separated f false l'
  end.

Lemma append_list_separated {A} (one : string → A → string) (f : A → string) l :
  (∀ dst x, one dst x = dst +:+ f x) → ∀ dst first, append_list one dst first l = dst +:+ separated f first l.
Proof.
  intros Hf. induction l as [|x l IH]; intros dst first; cbn; [by rewrite app_string_nil_r|].
  rewrite IH, Hf. destruct first; rewrite <-!app_string_assoc; done.
Qed.

(** An array: the brackets end it, since no element starts with one. *)
Lemma separated_prefix_free {A} (f : A → string) :
  prefix_free f → (∀ x r r', f x +:+ r ≠ close_bracket +:+ r') →
  ∀ first, prefix_free (λ l, separated f first l +:+ close_bracket).
Proof.
  intros Hf Hend first l l' r r'. rewrite <-!app_string_assoc. revert first l'.
  induction l as [|x l IH]; intros first [|x' l']; cbn [separated]; rewrite <-?app_string_assoc; intros H.
  - by injection H.
  - destruct first; [by apply eq_sym, Hend in H|done].
  - destruct first; [by apply Hend in H|done].
  - apply (inj _), Hf in H as [-> H]. by apply IH in H as [-> ->].
Qed.

Definition tag_string (tag : list string) : string := open_bracket +:+ separated quoted true tag +:+ close_bracket.

Lemma appendTag_string dst tag : appendTag appendJSONString dst tag = dst +:+ tag_string tag.
Proof.
  unfold appendTag, tag_string. rewrite (append_list_separated _ quoted) by apply appendJSONString_escape.
  by rewrite <-!app_string_assoc.
Qed.

Lemma tag_string_prefix_free : prefix_free tag_string.
Proof.
  intros t t' r r'. unfold tag_string. rewrite <-(app_string_assoc open_bracket), <-(app_string_assoc open_bracket).
  intros H%(inj _). by apply (separated_prefix_free quoted quoted_prefix_free) in H; [|].
Qed.

(** The serialization as a sequence of fields. *)
Lemma Serialize_fields evt :
  Serialize evt =
    serializedStart +:+ hex (ev_PubKey evt) +:+ serializedPubkeyEnd +:+ AppendInt "" (ev_CreatedAt evt) +:+ comma +:+
    decimal 20 (ev_Kind evt) +:+ comma +:+ open_bracket +:+ separated tag_string true (ev_Tags evt) +:+
    serializedTagsEnd +:+ quoted (ev_Content evt) +:+ close_bracket.
Proof.
  unfold Serialize, appendSerialized. cbn zeta. rewrite appendJSONString_escape.
  rewrite (append_list_separated _ tag_string) by apply appendTag_string.
  unfold AppendInt, AppendUint, quoted. case_match; rewrite <-!app_string_assoc; done.
Qed.

Lemma AppendInt_no_comma z : contains_byte (byte_of_Z 44) (AppendInt "" z) = false.
Proof.
  unfold AppendInt. destruct (Z.ltb_spec z 0); simpl; [|apply decimal_digits; lia].
  apply decimal_digits; lia.
Qed.

Lemma Serialize_injective e1 e2 : wf_event e1 → wf_event e2 → Serialize e1 = Serialize e2 →
  ev_PubKey e1 = ev_PubKey e2 ∧ ev_CreatedAt e1 = ev_CreatedAt e2 ∧ ev_Kind e1 = ev_Kind e2 ∧
  ev_Tags e1 = ev_Tags e2 ∧ ev_Content e1 = ev_Content e2.
Proof.
  intros [_ Hp1 Hk1 Hc1 _] [_ Hp2 Hk2 Hc2 _]. rewrite !Serialize_fields. intros H%(inj _).
  apply app_string_inj in H as [Hpk H]; [|by rewrite !length_hex, Hp1, Hp2]. apply (inj hex) in Hpk.
  apply (inj _) in H. apply split_at_byte in H as [Hcr H]; [|apply AppendInt_no_comma..].
  apply split_at_byte in H as [Hkind H]; [|apply decimal_digits; lia..].
  apply (inj _) in H. unfold serializedTagsEnd in H. change (string_of_bytes [93; 44]) with (close_bracket +:+ comma) in H.
  rewrite <-!(app_string_assoc close_bracket), !(app_string_assoc _ close_bracket) in H.
  apply (separated_prefix_free tag_string tag_string_prefix_free) in H as [Htags H]; [|done].
  apply (inj _), quoted_prefix_free in H as [Hcontent _].
  split_and!; [done| |  |done..].
  - apply (f_equal parse_int64) in Hcr. rewrite !parse_int64_AppendInt in Hcr by done. by simplify_eq.
  - apply (f_equal (λ s, parse_digits s 0)) in Hkind. rewrite !decimal_parse in Hkind by (unfold two64; lia). by simplify_eq.
Qed.

(** Two events that pass the id check under one id agree on every signed
    field. *)
Lemma CheckID_same `{NostrLaws} e1 e2 : wf_event e1 → wf_event e2 → CheckID e1 = true → CheckID e2 = true →
  ev_ID e1 = ev_ID e2 →
  ev_PubKey e1 = ev_PubKey e2 ∧ ev_CreatedAt e1 = ev_CreatedAt e2 ∧ ev_Kind e1 = ev_Kind e2 ∧
  ev_Tags e1 = ev_Tags e2 ∧ ev_Content e1 = ev_Content e2.
Proof.
  unfold CheckID, GetID. intros Hw1 Hw2 H1%String.eqb_eq H2%String.eqb_eq Hid. apply Serialize_injective; [done..|].
  rewrite !serializedHash_Serialize in *. apply sha256_collision_free; [|congruence]. rewrite H1. apply Hw1.
Qed.
