(* ===== verification/Bolt.v ===== *)
(** * Buckets

    A bbolt bucket is a finite map from byte strings to values.  Buckets that
    are used as indexes store no value, so they are sets of keys.  A cursor
    visits the keys in byte order; [Seek(k)] starts at the first key that is
    not below [k]. *)

From Stdlib Require Import ZArith Lia Bool.
From stdpp Require Import base tactics decidable option list numbers strings gmap sorting fin_maps.
From S2P Require Import Prelude Bytes.

(** The keys a cursor visits, from [First] on. *)
Definition index_keys (ix : gset string) : list string := merge_sort bytes_le (elements ix).

Definition bucket_keys {A} (b : gmap string A) : list string := index_keys (dom b).

(** The keys a cursor visits from [Seek(k)] on. *)
Definition seek (k : string) (keys : list string) : list string :=
  filter (λ x, bytes_le k x) keys.

(** The elements of a list before the first one that fails [f]: a cursor loop
    whose condition is [f]. *)
Fixpoint take_while {A} (f : A → bool) (l : list A) : list A :=
  match l with
  | [] => []
  | x :: l' => if f x then x :: take_while f l' else []
  end.

(** The keys with prefix [p] a cursor visits, as in
    [for Seek(p); HasPrefix(key, p); Next]. *)
Definition prefix_keys (p : string) (keys : list string) : list string :=
  take_while (λ k, has_prefix k p) (seek p keys).

(** ** Facts *)

Lemma elem_of_index_keys k ix : k ∈ index_keys ix ↔ k ∈ ix.
Proof. unfold index_keys. by rewrite merge_sort_Permutation, elem_of_elements. Qed.

Lemma NoDup_index_keys ix : NoDup (index_keys ix).
Proof. unfold index_keys. rewrite merge_sort_Permutation. apply NoDup_elements. Qed.

Lemma index_keys_sorted ix : StronglySorted bytes_le (index_keys ix).
Proof. apply (StronglySorted_merge_sort bytes_le). Qed.

Lemma elem_of_bucket_keys {A} k (b : gmap string A) : k ∈ bucket_keys b ↔ is_Some (b !! k).
Proof. unfold bucket_keys. by rewrite elem_of_index_keys, elem_of_dom. Qed.

Lemma NoDup_bucket_keys {A} (b : gmap string A) : NoDup (bucket_keys b).
Proof. apply NoDup_index_keys. Qed.

Lemma length_index_keys ix : length (index_keys ix) = size ix.
Proof. unfold index_keys. by rewrite merge_sort_Permutation. Qed.

Lemma elem_of_seek k x keys : x ∈ seek k keys ↔ bytes_le k x ∧ x ∈ keys.
Proof. unfold seek. apply list_elem_of_filter. Qed.

Lemma StronglySorted_filter {A} (R : relation A) (P : A → Prop) `{∀ x, Decision (P x)} l :
  StronglySorted R l → StronglySorted R (filter P l).
Proof.
  induction 1 as [|x l Hl IH Hx]; [constructor|]. rewrite filter_cons.
  case_decide; [|done]. constructor; [done|]. rewrite Forall_forall in *.
  intros y [_ Hy]%list_elem_of_filter. auto.
Qed.

(** Two sorted duplicate-free lists with the same elements are equal, so a
    cursor's order is determined by the bucket's contents. *)
Lemma sorted_keys_unique l1 l2 :
  StronglySorted bytes_le l1 → StronglySorted bytes_le l2 → NoDup l1 → NoDup l2 →
  (∀ k, k ∈ l1 ↔ k ∈ l2) → l1 = l2.
Proof.
  intros ???? Hk. apply (StronglySorted_unique bytes_le); [done..|]. by apply NoDup_Permutation.
Qed.

(** In a sorted list, what lies after an element is what is above it. *)
Lemma sorted_split_above l1 k l2 :
  StronglySorted bytes_le (l1 ++ k :: l2) → NoDup (l1 ++ k :: l2) →
  filter (λ x, bytes_le k x ∧ x ≠ k) (l1 ++ k :: l2) = l2.
Proof.
  intros Hs Hn. rewrite filter_app, filter_cons.
  apply NoDup_app in Hn as (_ & Hd & [Hk _]%NoDup_cons).
  rewrite decide_False by naive_solver.
  replace (filter _ l1) with (@nil string).
  - simpl. apply filter_all. intros x Hx.
    apply StronglySorted_app_1_r in Hs. inv Hs.
    assert (Forall (bytes_le k) l2) as Hall by done. rewrite Forall_forall in Hall.
    split; [auto|]. by intros ->.
  - symmetry. apply filter_none. intros x Hx [Hle Hne].
    destruct Hne. apply (anti_symm bytes_le); [|done].
    eapply (StronglySorted_app_1_elem_of bytes_le); [done|done|by left].
Qed.

(** *** Prefix scans *)

(** The keys that extend [p] are contiguous from [p] on. *)
Lemma prefix_convex p : ∀ x y, bytes_le p x → bytes_le x y → has_prefix y p = true → has_prefix x p = true.
Proof.
  unfold bytes_le. induction p as [|c p IH]; intros x y; [by destruct x|].
  intros Hpx Hxy [t ->]%has_prefix_spec. destruct x as [|d x]; [done|]. simpl in *.
  assert (Z_of_byte c = Z_of_byte d) as E.
  { destruct (Z.ltb_spec (Z_of_byte c) (Z_of_byte d)), (Z.eqb_spec (Z_of_byte c) (Z_of_byte d)),
      (Z.ltb_spec (Z_of_byte d) (Z_of_byte c)), (Z.eqb_spec (Z_of_byte d) (Z_of_byte c)); (done || lia). }
  apply (inj Z_of_byte) in E as ->. rewrite Z.ltb_irrefl, Z.eqb_refl in *.
  destruct (Ascii.ascii_dec d d); [|done]. eapply IH; [done..|]. apply has_prefix_app.
Qed.

Lemma take_while_filter {A} (R : relation A) (f : A → bool) l :
  StronglySorted R l → (∀ a b, a ∈ l → b ∈ l → R a b → f b = true → f a = true) → take_while f l = filter f l.
Proof.
  intros Hs. induction Hs as [|x l Hl IH Hx]; intros Hf; simpl; [done|]. rewrite filter_cons. rewrite Forall_forall in Hx.
  case_decide as Hd; destruct (f x) eqn:E; try done.
  - rewrite IH; [done|]. intros a b Ha Hb. apply Hf; by right.
  - symmetry. apply filter_none. intros y Hy Hfy%Is_true_true. rewrite (Hf x y) in E; [done|by left|by right|by apply Hx|done].
Qed.

(** A prefix scan visits exactly the keys with the prefix, in order. *)
Lemma prefix_keys_filter p keys : StronglySorted bytes_le keys →
  prefix_keys p keys = filter (λ k, has_prefix k p) keys.
Proof.
  intros Hs. unfold prefix_keys, seek.
  rewrite (take_while_filter bytes_le) by first
    [by apply StronglySorted_filter
    |intros a b [Ha _]%list_elem_of_filter _ Hab Hb; by apply (prefix_convex p a b)].
  rewrite list_filter_filter. apply list_filter_iff. intros k. rewrite Is_true_true.
  split; [by intros []|]. intros Hk. split; [done|].
  apply has_prefix_spec in Hk as [t ->]. apply bytes_le_prefix.
Qed.
