(* ===== verification/OutboxData.v ===== *)
(** * Outbox data

    The records, bucket keys and event predicates of the durable publish
    outbox, [src/internal/adapters/nostr/localstore/outbox.go], and of the
    backup-run ledger that shares its file ([backup_run_admission.go],
    [backup_run_pending.go] in the same directory). *)

From Stdlib Require Import ZArith Lia Bool.
From stdpp Require Import base tactics decidable option list numbers strings gmap.
From S2P Require Import Prelude Bytes Nostr EventID Bolt.

(** ** Entry states *)

Definition OutboxPending : string := "pending".
Definition OutboxPublished : string := "published".
Definition OutboxFailed : string := "failed".

Definition BackupRunPendingState : string := "pending".
Definition BackupRunAcceptedState : string := "accepted".
Definition BackupRunRefusedState : string := "refused".

(** ** Records *)

Record DeliveryPolicy := mkPolicy {
  dp_WriteRelays : list string;
  dp_Required : Z;
}.

Record DeliveryProof := mkProof {
  pr_Event : Event;
  pr_Target : string;
  pr_Policy : DeliveryPolicy;
  pr_RelayOK : gmap string bool;
  pr_AcceptedAt : Z;
}.

Record RelayDelivery := mkRelay {
  rd_Accepted : bool;
  rd_Rejected : string;
  rd_LastError : string;
  rd_SeenDialFailure : Z;
}.

Definition no_relay : RelayDelivery := mkRelay false "" "" zero_time.
Definition no_policy : DeliveryPolicy := mkPolicy [] 0.

Record OutboxEntry := mkEntry {
  oe_Event : Event;
  oe_Target : string;
  oe_EntityType : string;
  oe_EntityID : string;
  oe_EnqueuedAt : Z;
  oe_State : string;
  oe_Rounds : Z;
  oe_Delivered : bool;
  oe_Policy : DeliveryPolicy;
  oe_LastError : string;
  oe_SettledAt : Z;
  oe_Relays : gmap string RelayDelivery;
}.

Record OutboxCursor := mkCursor {
  cu_EnqueuedAt : Z;
  cu_ID : string;
}.

Record OutboxRound := mkRound {
  ro_Target : string;
  ro_Rounds : Z;
  ro_Relays : gmap string RelayDelivery;
  ro_Delivered : bool;
  ro_Policy : DeliveryPolicy;
  ro_State : string;
  ro_Detail : string;
  ro_At : Z;
}.

Record BackupRunAdmission := mkAdmission {
  ba_IntentID : string;
  ba_Coordinate : string;
  ba_RequestEventID : string;
  ba_StateEventID : string;
  ba_Target : string;
  ba_Actor : string;
  ba_ServicePubkey : string;
  ba_Delivered : bool;
  ba_StatusEventID : string;
  ba_StatusTarget : string;
  ba_StatusOutcome : string;
  ba_StatusDelivered : bool;
}.

Record BackupRunPending := mkPending {
  bp_IntentID : string;
  bp_Coordinate : string;
  bp_RequestEvent : Event;
  bp_Actor : string;
  bp_ServicePubkey : string;
  bp_ReceivedAt : Z;
  bp_ExpiresAt : Z;
  bp_NextAttemptAt : Z;
  bp_Attempts : Z;
  bp_LastFailure : string;
  bp_State : string;
  bp_StatusEventID : string;
  bp_StatusTarget : string;
  bp_StatusDelivered : bool;
}.

#[export] Instance DeliveryPolicy_eq_dec : EqDecision DeliveryPolicy.
Proof. solve_decision. Defined.
#[export] Instance RelayDelivery_eq_dec : EqDecision RelayDelivery.
Proof. solve_decision. Defined.
#[export] Instance DeliveryProof_eq_dec : EqDecision DeliveryProof.
Proof. solve_decision. Defined.
#[export] Instance OutboxEntry_eq_dec : EqDecision OutboxEntry.
Proof. solve_decision. Defined.

(** ** Bucket keys *)

(** One target's pending entries by enqueue time, then id. *)
Definition pendingKey (target : string) (enqueuedAt : Z) (id : string) : string :=
  target +:+ String nul (be64 (to_u64 (unix_nano enqueuedAt)) +:+ id).

(** Settled entries by settle time, then id. *)
Definition settledKey (at_ : Z) (id : string) : string :=
  be64 (to_u64 (unix_nano at_)) +:+ id.

Definition outboxCoordinatePrefix (target : string) (kind : Z) (author d : string) : string :=
  be32 (slen target) +:+ target +:+ be32 kind +:+ author +:+ be32 (slen d) +:+ d.

(** [^uint64(createdAt)]: newest first. *)
Definition newest_first (createdAt : Z) : Z := two64 - 1 - to_u64 createdAt.

(** The index key of a package event, or [None] (Go's nil key) for an event
    the coordinate index does not cover. *)
Definition outboxCoordinateKey (target : string) (ev : Event) : option string :=
  if negb (IsAddressable (ev_Kind ev)) then None
  else
    let d := outboxTag (ev_Tags ev) "d" in
    if negb (has_prefix d "artifact:sbom-package:") then None
    else Some (outboxCoordinatePrefix target (ev_Kind ev) (ev_PubKey ev) d
                 +:+ be64 (newest_first (ev_CreatedAt ev)) +:+ ev_ID ev).

Definition outboxCoordinatesReady : string := "index-ready".

(** The id that ends a pending or coordinate key: its last 32 bytes. *)
Definition id_suffix (key : string) : string := drop_bytes (String.length key - 32) key.

(** ** Event predicates *)

Definition kindCPState : Z := 30900.
Definition kindStatus : Z := 30315.

Definition tag (ev : Event) (key : string) : string := outboxTag (ev_Tags ev) key.
Definition tag_is (ev : Event) (key want : string) : bool := String.eqb (tag ev key) want.
Definition is_id_hex (s : string) : bool := bool_decide (is_Some (id_from_hex s)).

Definition isBackupConfigEvent (ev : Event) : bool :=
  (ev_Kind ev =? kindCPState) && tag_is ev "domain" "backup" &&
  (tag_is ev "t" "backup-recipe" || tag_is ev "t" "backup-repository" ||
   tag_is ev "t" "backup-policy" || tag_is ev "t" "backup-definition").

Definition isBackupRunStateEvent (ev : Event) : bool :=
  (ev_Kind ev =? kindCPState) && tag_is ev "domain" "backup" && tag_is ev "t" "backup-run" &&
  tag_is ev "legacy_kind" "31996" && tag_is ev "deleted" "false".

Definition isDeploymentPolicyEvent (ev : Event) : bool :=
  (ev_Kind ev =? kindCPState) && tag_is ev "domain" "policy" && tag_is ev "t" "policy-registry" &&
  negb (tag_is ev "d" "").

(** The families of virtualization records: legacy kind, topic and d prefix. *)
Definition virtualizationFamilies : list (string * string * string) :=
  [("32045", "virtualization-host", "virtualization-host:");
   ("32046", "virtualization-image", "vm-image:");
   ("32047", "virtualization-vm", "persistent-vm:");
   ("32048", "virtualization-operation", "vm-operation:")]%string.

Fixpoint matchesVirtualizationFamily (families : list (string * string * string)) (ev : Event) : bool :=
  match families with
  | [] => false
  | (kind, topic, prefix) :: families' =>
      if tag_is ev "legacy_kind" kind && tag_is ev "t" topic && has_prefix (tag ev "d") prefix
      then tag_is ev "deleted" "true" || tag_is ev "deleted" "false"
      else matchesVirtualizationFamily families' ev
  end.

Definition isVirtualizationStateEvent (ev : Event) : bool :=
  (ev_Kind ev =? kindCPState) && tag_is ev "domain" "virtualization" &&
  tag_is ev "schema" "bahia.cp-state.v1" && matchesVirtualizationFamily virtualizationFamilies ev.

Definition isToolAcceptedStatusEvent (ev : Event) : bool :=
  if negb ((ev_Kind ev =? kindStatus) && tag_is ev "domain" "intent" && tag_is ev "t" "intent-status" &&
           tag_is ev "status" "accepted" && negb (tag_is ev "intent_id" "") && negb (tag_is ev "p" ""))
  then false
  else
    let (coordinate, ok) := cut_prefix (tag ev "d") ("intent-status:" +:+ tag ev "p" +:+ ":") in
    if negb ok || (negb (has_prefix coordinate "tool-request:") && negb (has_prefix coordinate "tool-approval:"))
    then false
    else is_id_hex (tag ev "e").

Definition isLLMAcceptedStatusEvent (ev : Event) : bool :=
  (ev_Kind ev =? kindStatus) && tag_is ev "workflow" "llm" && tag_is ev "domain" "intent" &&
  tag_is ev "t" "intent-status" && tag_is ev "status" "accepted" && negb (tag_is ev "p" "") &&
  negb (tag_is ev "intent_id" "") && is_id_hex (tag ev "e").

Definition isLLMReleaseEvent (ev : Event) : bool :=
  (ev_Kind ev =? kindCPState) && tag_is ev "domain" "llm" && tag_is ev "t" "llm-release" &&
  tag_is ev "legacy_kind" "32015" && has_prefix (tag ev "d") "llm:release:" && tag_is ev "deleted" "false".

Definition isBackupRunLifecycleStatusEvent (ev : Event) : bool :=
  (ev_Kind ev =? kindStatus) && tag_is ev "domain" "intent" && tag_is ev "t" "intent-status" &&
  negb (tag_is ev "intent_id" "") && negb (tag_is ev "p" "") && negb (tag_is ev "e" "") &&
  is_id_hex (tag ev "e") &&
  has_prefix (tag ev "d") ("intent-status:" +:+ tag ev "p" +:+ ":backup-run:") &&
  (tag_is ev "status" "pending" || tag_is ev "status" "success" || tag_is ev "status" "error").

Definition isProofEligibleEvent (ev : Event) : bool :=
  isBackupConfigEvent ev || isBackupRunStateEvent ev || isDeploymentPolicyEvent ev ||
  isVirtualizationStateEvent ev || isToolAcceptedStatusEvent ev || isLLMAcceptedStatusEvent ev ||
  isLLMReleaseEvent ev || isBackupRunLifecycleStatusEvent ev.

Definition isBackupRunAcceptedStatusEvent (ev : Event) : bool :=
  (ev_Kind ev =? kindStatus) && tag_is ev "domain" "intent" && tag_is ev "t" "intent-status" &&
  tag_is ev "status" "accepted" && has_prefix (tag ev "d") "intent-status:".

Definition isBackupRunRefusedStatusEvent (ev : Event) : bool :=
  (ev_Kind ev =? kindStatus) && tag_is ev "domain" "intent" && tag_is ev "t" "intent-status" &&
  tag_is ev "status" "rejected" && has_prefix (tag ev "d") "intent-status:".

Definition isBackupRunTerminalStatusEvent (ev : Event) : bool :=
  isBackupRunAcceptedStatusEvent ev || isBackupRunRefusedStatusEvent ev.

Definition IntentStatusCoordinate (actor coordinate : string) : string :=
  "intent-status:" +:+ actor +:+ ":" +:+ coordinate.

Definition IntentPrivateStatusCoordinate (actor domain correlation : string) : string :=
  "intent-status:" +:+ actor +:+ ":" +:+ domain +:+ ":" +:+ correlation.
