(* ===== verification/OutboxStore.v ===== *)
(** * The outbox file

    The buckets of the outbox's bbolt file and the functions that run inside
    its transactions: the publisher's quorum proof, the status clock and the
    delivery bookkeeping of the backup-run ledger.

    A transaction is a function from the buckets to a result: an error rolls
    the whole transaction back ([db.Update]), so an [Err] carries no state. *)

From Stdlib Require Import ZArith Lia Bool.
From stdpp Require Import base tactics decidable option list numbers strings gmap.
From S2P Require Import Prelude Bytes Nostr EventID Bolt OutboxData.

(** ** Buckets *)

(** The outbox proper. *)
Record Tables := mkTables {
  tb_entries : gmap string (row OutboxEntry);
  tb_pending : gset string;
  tb_published : gset string;
  tb_failed : gset string;
  tb_coordinates : gset string;
  tb_proofs : gmap string (row DeliveryProof);
}.

(** The backup-run ledger and the status clock. *)
Record Ledger := mkLedger {
  lg_intents : gmap string (row BackupRunAdmission);
  lg_coords : gmap string string;
  lg_events : gmap string string;
  lg_statusEvents : gmap string string;
  lg_statusClock : gmap string string;
  lg_pending : gmap string (row BackupRunPending);
  lg_pendingCoords : gmap string string;
  lg_pendingEvents : gmap string string;
  lg_due : gset string;
  lg_refusals : gset string;
}.

Record DB := mkDB {
  db_tables : Tables;
  db_ledger : Ledger;
}.

Definition empty_tables : Tables := mkTables ∅ ∅ ∅ ∅ {[outboxCoordinatesReady]} ∅.
Definition empty_ledger : Ledger := mkLedger ∅ ∅ ∅ ∅ {["index-ready" := String (byte_of_Z 1) ""]} ∅ ∅ ∅ ∅ ∅.
(** A file [openOutboxDB] has just created. *)
Definition empty_db : DB := mkDB empty_tables empty_ledger.

Definition entries (db : DB) := tb_entries (db_tables db).
Definition proofs (db : DB) := tb_proofs (db_tables db).
Definition intents (db : DB) := lg_intents (db_ledger db).

(** *** Bucket updates ([Put] and [Delete]) *)

Definition upd_tables (f : Tables → Tables) (db : DB) : DB := mkDB (f (db_tables db)) (db_ledger db).
Definition upd_ledger (f : Ledger → Ledger) (db : DB) : DB := mkDB (db_tables db) (f (db_ledger db)).

Definition set_entries m (t : Tables) : Tables :=
  mkTables m (tb_pending t) (tb_published t) (tb_failed t) (tb_coordinates t) (tb_proofs t).
Definition set_pending m (t : Tables) : Tables :=
  mkTables (tb_entries t) m (tb_published t) (tb_failed t) (tb_coordinates t) (tb_proofs t).
Definition set_coordinates m (t : Tables) : Tables :=
  mkTables (tb_entries t) (tb_pending t) (tb_published t) (tb_failed t) m (tb_proofs t).
Definition set_proofs m (t : Tables) : Tables :=
  mkTables (tb_entries t) (tb_pending t) (tb_published t) (tb_failed t) (tb_coordinates t) m.

(** [settledBucket(state)]: the failed bucket for [failed], else published. *)
Definition settledBucket (state : string) (t : Tables) : gset string :=
  if String.eqb state OutboxFailed then tb_failed t else tb_published t.
Definition set_settledBucket (state : string) m (t : Tables) : Tables :=
  if String.eqb state OutboxFailed
  then mkTables (tb_entries t) (tb_pending t) (tb_published t) m (tb_coordinates t) (tb_proofs t)
  else mkTables (tb_entries t) (tb_pending t) m (tb_failed t) (tb_coordinates t) (tb_proofs t).

Definition set_intents m (l : Ledger) : Ledger :=
  mkLedger m (lg_coords l) (lg_events l) (lg_statusEvents l) (lg_statusClock l) (lg_pending l)
    (lg_pendingCoords l) (lg_pendingEvents l) (lg_due l) (lg_refusals l).
Definition set_coords m (l : Ledger) : Ledger :=
  mkLedger (lg_intents l) m (lg_events l) (lg_statusEvents l) (lg_statusClock l) (lg_pending l)
    (lg_pendingCoords l) (lg_pendingEvents l) (lg_due l) (lg_refusals l).
Definition set_events m (l : Ledger) : Ledger :=
  mkLedger (lg_intents l) (lg_coords l) m (lg_statusEvents l) (lg_statusClock l) (lg_pending l)
    (lg_pendingCoords l) (lg_pendingEvents l) (lg_due l) (lg_refusals l).
Definition set_statusEvents m (l : Ledger) : Ledger :=
  mkLedger (lg_intents l) (lg_coords l) (lg_events l) m (lg_statusClock l) (lg_pending l)
    (lg_pendingCoords l) (lg_pendingEvents l) (lg_due l) (lg_refusals l).
Definition set_statusClock m (l : Ledger) : Ledger :=
  mkLedger (lg_intents l) (lg_coords l) (lg_events l) (lg_statusEvents l) m (lg_pending l)
    (lg_pendingCoords l) (lg_pendingEvents l) (lg_due l) (lg_refusals l).
Definition set_lpending m (l : Ledger) : Ledger :=
  mkLedger (lg_intents l) (lg_coords l) (lg_events l) (lg_statusEvents l) (lg_statusClock l) m
    (lg_pendingCoords l) (lg_pendingEvents l) (lg_due l) (lg_refusals l).
Definition set_pendingCoords m (l : Ledger) : Ledger :=
  mkLedger (lg_intents l) (lg_coords l) (lg_events l) (lg_statusEvents l) (lg_statusClock l)
    (lg_pending l) m (lg_pendingEvents l) (lg_due l) (lg_refusals l).
Definition set_pendingEvents m (l : Ledger) : Ledger :=
  mkLedger (lg_intents l) (lg_coords l) (lg_events l) (lg_statusEvents l) (lg_statusClock l)
    (lg_pending l) (lg_pendingCoords l) m (lg_due l) (lg_refusals l).
Definition set_due m (l : Ledger) : Ledger :=
  mkLedger (lg_intents l) (lg_coords l) (lg_events l) (lg_statusEvents l) (lg_statusClock l)
    (lg_pending l) (lg_pendingCoords l) (lg_pendingEvents l) m (lg_refusals l).
Definition set_refusals m (l : Ledger) : Ledger :=
  mkLedger (lg_intents l) (lg_coords l) (lg_events l) (lg_statusEvents l) (lg_statusClock l)
    (lg_pending l) (lg_pendingCoords l) (lg_pendingEvents l) (lg_due l) m.

Definition put_entry (id : string) (e : OutboxEntry) : DB → DB :=
  upd_tables (λ t, set_entries (<[id := Row e]> (tb_entries t)) t).
Definition del_entry (id : string) : DB → DB :=
  upd_tables (λ t, set_entries (delete id (tb_entries t)) t).
Definition put_pending (k : string) : DB → DB :=
  upd_tables (λ t, set_pending ({[k]} ∪ tb_pending t) t).
Definition del_pending (k : string) : DB → DB :=
  upd_tables (λ t, set_pending (tb_pending t ∖ {[k]}) t).
Definition put_settled (state k : string) : DB → DB :=
  upd_tables (λ t, set_settledBucket state ({[k]} ∪ settledBucket state t) t).
Definition del_settled (state k : string) : DB → DB :=
  upd_tables (λ t, set_settledBucket state (settledBucket state t ∖ {[k]}) t).
(** Index updates keyed by [outboxCoordinateKey]: a nil key is skipped. *)
Definition put_coordinate (k : option string) : DB → DB :=
  upd_tables (λ t, match k with Some k => set_coordinates ({[k]} ∪ tb_coordinates t) t | None => t end).
Definition del_coordinate (k : option string) : DB → DB :=
  upd_tables (λ t, match k with Some k => set_coordinates (tb_coordinates t ∖ {[k]}) t | None => t end).
Definition put_proof (id : string) (p : DeliveryProof) : DB → DB :=
  upd_tables (λ t, set_proofs (<[id := Row p]> (tb_proofs t)) t).
Definition put_intent (id : string) (r : BackupRunAdmission) : DB → DB :=
  upd_ledger (λ l, set_intents (<[id := Row r]> (lg_intents l)) l).
Definition put_lpending (id : string) (r : BackupRunPending) : DB → DB :=
  upd_ledger (λ l, set_lpending (<[id := Row r]> (lg_pending l)) l).
Definition put_clock (k v : string) : DB → DB :=
  upd_ledger (λ l, set_statusClock (<[k := v]> (lg_statusClock l)) l).

(** ** Errors *)

Inductive OutboxError :=
| ErrReadOnly
| ErrUnverifiedDeliveryState
| ErrQuorumRequired
| ErrEventIDRequired
| ErrTargetNUL
| ErrNotFound
| ErrDecode
| ErrPublisherPathRequired
| ErrTargetMismatch
| ErrUnknownState
| ErrProofQuorum
| ErrCoordinateMissing
| ErrCoordinateMismatch
| ErrNotFailed
| ErrPinned
| ErrHoldsProof
| ErrClockMalformed
| ErrClockCoordinate
| ErrClockNotNewer
| ErrLedgerUnavailable
| ErrLedgerInconsistent
| ErrLedgerProof
| ErrLedgerConflict
| ErrLedgerRequest
| ErrStatusCorrelation
| ErrStatusContent
| ErrEventHeld
| ErrPublish.

Definition tx (A : Type) : Type := DB → result OutboxError (A * DB).

(** ** Quorum proofs *)

Section prims.
Context `{NostrPrims}.

(** The loop of [ValidFor]: the acceptances among the write relays, or
    [None] where it returns false. *)
Fixpoint count_accepted (relayOK : gmap string bool) (seen : gset string)
    (relays : list string) (accepted : Z) : option Z :=
  match relays with
  | [] => Some accepted
  | relay :: relays' =>
      if String.eqb relay "" then None
      else if bool_decide (relay ∈ seen) then None
      else match relayOK !! relay with
      | None => None
      | Some ok =>
          count_accepted relayOK ({[relay]} ∪ seen) relays' (if (ok : bool) then accepted + 1 else accepted)
      end
  end.

Definition ValidFor (p : DeliveryProof) (event : Event) (target : string) : bool :=
  if negb (String.eqb (pr_Target p) target) || negb (String.eqb (ev_ID (pr_Event p)) (ev_ID event)) ||
     negb (String.eqb (ev_PubKey (pr_Event p)) (ev_PubKey event)) ||
     negb (String.eqb (ev_Sig (pr_Event p)) (ev_Sig event)) ||
     negb (CheckID event) || negb (VerifySignature event) ||
     negb (CheckID (pr_Event p)) || negb (VerifySignature (pr_Event p)) ||
     time_is_zero (pr_AcceptedAt p) || (dp_Required (pr_Policy p) <? 1) ||
     (Z.of_nat (length (dp_WriteRelays (pr_Policy p))) <? dp_Required (pr_Policy p)) ||
     negb (Nat.eqb (size (pr_RelayOK p)) (length (dp_WriteRelays (pr_Policy p))))
  then false
  else match count_accepted (pr_RelayOK p) ∅ (dp_WriteRelays (pr_Policy p)) 0 with
  | None => false
  | Some accepted => dp_Required (pr_Policy p) <=? accepted
  end.

Definition relay_accepted (relays : gmap string RelayDelivery) (url : string) : bool :=
  rd_Accepted (default no_relay (relays !! url)).

(** [relayOK[relay] = entry.Relays[relay].Accepted] for each write relay. *)
Definition relayOK_of (relays : gmap string RelayDelivery) (writeRelays : list string) : gmap string bool :=
  foldl (λ m relay, <[relay := relay_accepted relays relay]> m) ∅ writeRelays.

Definition canonicalDeliveryProof (entry : OutboxEntry) (policy : DeliveryPolicy) (at_ : Z) : option DeliveryProof :=
  let ev := oe_Event entry in
  if (negb (isProofEligibleEvent ev) && negb (isBackupRunTerminalStatusEvent ev)) ||
     negb (CheckID ev) || negb (VerifySignature ev) || String.eqb (outboxTag (ev_Tags ev) "d") ""
  then None
  else
    let proof := mkProof ev (oe_Target entry) policy (relayOK_of (oe_Relays entry) (dp_WriteRelays policy)) at_ in
    if ValidFor proof ev (oe_Target entry) then Some proof else None.

Definition isProofEligibleForRound (db : DB) (ev : Event) : bool :=
  isProofEligibleEvent ev ||
  (isBackupRunTerminalStatusEvent ev &&
   bool_decide (is_Some (lg_statusEvents (db_ledger db) !! hex (ev_ID ev)))).

Definition with_relays (e : OutboxEntry) (relays : gmap string RelayDelivery) : OutboxEntry :=
  mkEntry (oe_Event e) (oe_Target e) (oe_EntityType e) (oe_EntityID e) (oe_EnqueuedAt e) (oe_State e)
    (oe_Rounds e) (oe_Delivered e) (oe_Policy e) (oe_LastError e) (oe_SettledAt e) relays.

Definition recordPublisherProof (entry : OutboxEntry) (round : OutboxRound) (at_ : Z) (publisherRound : bool)
    (db : DB) : result OutboxError DB :=
  let ev := oe_Event entry in
  if negb publisherRound || negb (ro_Delivered round) || negb (isProofEligibleForRound db ev) then Ok db
  else if bool_decide (is_Some (proofs db !! ev_ID ev)) then Ok db
  else
    match canonicalDeliveryProof (with_relays entry (ro_Relays round)) (ro_Policy round) at_ with
    | None => Err ErrProofQuorum
    | Some proof => Ok (put_proof (ev_ID ev) proof db)
    end.

(** A stored proof of exactly this event on this target, as the ledger
    re-checks it. *)
Definition proof_valid (db : DB) (ev : Event) (target : string) : bool :=
  match proofs db !! ev_ID ev with
  | Some raw =>
      match unmarshal raw with
      | Some proof => ValidFor proof ev target
      | None => false
      end
  | None => false
  end.

(** ** The status clock *)

Definition backupRunStatusClockKey (pubkey actor coordinate : string) : string :=
  pubkey +:+ "intent-status:" +:+ actor +:+ ":" +:+ coordinate.

Definition backupRunStatusEventClockKey (ev : Event) : option string :=
  if negb (ev_Kind ev =? kindStatus) || negb (tag_is ev "domain" "intent") ||
     negb (tag_is ev "t" "intent-status") || negb (CheckID ev) || negb (VerifySignature ev)
  then None
  else
    let actor := tag ev "p" in
    let (coordinate, ok) := cut_prefix (tag ev "d") ("intent-status:" +:+ actor +:+ ":") in
    if String.eqb actor "" || negb ok then None
    else if has_prefix coordinate "backup-run:" then
      Some (backupRunStatusClockKey (ev_PubKey ev) actor coordinate)
    else if (tag_is ev "status" "rejected" || tag_is ev "status" "conflict") &&
            negb (tag_is ev "intent_id" "") && negb (tag_is ev "e" "") &&
            tag_is ev "d" (IntentPrivateStatusCoordinate actor "backup" (tag ev "intent_id"))
    then if is_id_hex (tag ev "e") then Some (backupRunStatusClockKey (ev_PubKey ev) actor coordinate) else None
    else None.

Definition backupRunStatusTimestampFloor (key : string) (db : DB) : result OutboxError Z :=
  match lg_statusClock (db_ledger db) !! key with
  | None => Ok 0
  | Some raw =>
      if negb (Nat.eqb (String.length raw) 8) then Err ErrClockMalformed
      else Ok (to_i64 (be_decode raw))
  end.

(** Raises the floor at [key] to the event's timestamp; a lower timestamp
    leaves it. *)
Definition raise_clock (key : string) (ev : Event) (db : DB) : result OutboxError DB :=
  let! prior := backupRunStatusTimestampFloor key db in
  if ev_CreatedAt ev <=? prior then Ok db
  else Ok (put_clock key (be64 (to_u64 (ev_CreatedAt ev))) db).

Definition recordBackupRunStatusTimestamp (ev : Event) (db : DB) : result OutboxError DB :=
  match backupRunStatusEventClockKey ev with
  | None => Ok db
  | Some key => raise_clock key ev db
  end.

Definition recordBackupRunCoordinateStatusTimestamp (ev : Event) (coordinate : string) (db : DB) :
    result OutboxError DB :=
  if negb (has_prefix coordinate "backup-run:") then Err ErrClockCoordinate
  else raise_clock (backupRunStatusClockKey (ev_PubKey ev) (tag ev "p") coordinate) ev db.

(** ** Delivery bookkeeping of the backup-run ledger *)

Definition set_delivered (r : BackupRunAdmission) : BackupRunAdmission :=
  mkAdmission (ba_IntentID r) (ba_Coordinate r) (ba_RequestEventID r) (ba_StateEventID r) (ba_Target r)
    (ba_Actor r) (ba_ServicePubkey r) true (ba_StatusEventID r) (ba_StatusTarget r) (ba_StatusOutcome r)
    (ba_StatusDelivered r).

Definition set_statusDelivered (r : BackupRunAdmission) : BackupRunAdmission :=
  mkAdmission (ba_IntentID r) (ba_Coordinate r) (ba_RequestEventID r) (ba_StateEventID r) (ba_Target r)
    (ba_Actor r) (ba_ServicePubkey r) (ba_Delivered r) (ba_StatusEventID r) (ba_StatusTarget r)
    (ba_StatusOutcome r) true.

Definition set_refusalDelivered (r : BackupRunPending) : BackupRunPending :=
  mkPending (bp_IntentID r) (bp_Coordinate r) (bp_RequestEvent r) (bp_Actor r) (bp_ServicePubkey r)
    (bp_ReceivedAt r) (bp_ExpiresAt r) (bp_NextAttemptAt r) (bp_Attempts r) (bp_LastFailure r) (bp_State r)
    (bp_StatusEventID r) (bp_StatusTarget r) true.

Definition updateBackupRunAdmissionDelivery (entry : OutboxEntry) (db : DB) : result OutboxError DB :=
  match lg_events (db_ledger db) !! hex (ev_ID (oe_Event entry)) with
  | None => Ok db
  | Some intentID =>
      let! record := of_option ErrDecode (intents db !! intentID ≫= unmarshal) in
      check! String.eqb (ba_StateEventID record) (hex (ev_ID (oe_Event entry))) else ErrLedgerInconsistent in
      if ba_Delivered record then Ok db
      else if oe_Delivered entry then
        check! proof_valid db (oe_Event entry) (oe_Target entry) else ErrLedgerProof in
        Ok (put_intent intentID (set_delivered record) db)
      else Ok db
  end.

Definition updateBackupRunRefusalDelivery (entry : OutboxEntry) (intentID : string) (db : DB) :
    result OutboxError DB :=
  if negb (oe_Delivered entry) then Ok db
  else
    let! record := of_option ErrLedgerInconsistent (lg_pending (db_ledger db) !! intentID ≫= unmarshal) in
    check! String.eqb (bp_State record) BackupRunRefusedState &&
           String.eqb (bp_StatusEventID record) (hex (ev_ID (oe_Event entry))) &&
           String.eqb (bp_StatusTarget record) (oe_Target entry) else ErrLedgerInconsistent in
    if bp_StatusDelivered record then Ok db
    else
      check! proof_valid db (oe_Event entry) (oe_Target entry) else ErrLedgerProof in
      Ok (put_lpending intentID (set_refusalDelivered record) db).

Definition updateBackupRunStatusDelivery (entry : OutboxEntry) (db : DB) : result OutboxError DB :=
  match lg_statusEvents (db_ledger db) !! hex (ev_ID (oe_Event entry)) with
  | None => Ok db
  | Some intentID =>
      if negb (oe_Delivered entry) then Ok db
      else
        match intents db !! intentID with
        | None => updateBackupRunRefusalDelivery entry intentID db
        | Some raw =>
            let! record := of_option ErrDecode (unmarshal raw) in
            check! String.eqb (ba_StatusEventID record) (hex (ev_ID (oe_Event entry))) &&
                   String.eqb (ba_StatusTarget record) (oe_Target entry) &&
                   ba_Delivered record && String.eqb (ba_StatusOutcome record) "accepted"
              else ErrLedgerInconsistent in
            if ba_StatusDelivered record then Ok db
            else
              check! proof_valid db (oe_Event entry) (oe_Target entry) else ErrLedgerProof in
              Ok (put_intent intentID (set_statusDelivered record) db)
        end
  end.

(** Whether a staged run, or the status it waits for, pins this event. *)
Definition backupRunAdmissionUnresolved (eventID : string) (db : DB) : result OutboxError bool :=
  let intentID :=
    match lg_events (db_ledger db) !! hex eventID with
    | Some i => Some i
    | None => lg_statusEvents (db_ledger db) !! hex eventID
    end in
  match intentID with
  | None => Ok false
  | Some intentID =>
      match intents db !! intentID with
      | None =>
          let! pending := of_option ErrLedgerUnavailable (lg_pending (db_ledger db) !! intentID ≫= unmarshal) in
          check! String.eqb (bp_StatusEventID pending) (hex eventID) else ErrLedgerUnavailable in
          Ok (negb (bp_StatusDelivered pending))
      | Some raw =>
          let! record := of_option ErrDecode (unmarshal raw) in
          Ok (negb (ba_StatusDelivered record))
      end
  end.
End prims.
