(* ===== verification/Quorum.v ===== *)
(** * Quorum proofs

    [DeliveryProof.ValidFor] decides a declarative quorum: the write relays
    are distinct and named, each has a recorded answer, and at least the
    required number of them accepted the signed event. *)

From Stdlib Require Import ZArith Lia Bool.
From stdpp Require Import base tactics decidable option list numbers strings gmap.
From S2P Require Import Prelude Bytes Nostr EventID Bolt OutboxData OutboxStore.

(** The relays of [policy] whose recorded answer is an acceptance. *)
Definition acceptances (relayOK : gmap string bool) (relays : list string) : list string :=
  filter (λ r, relayOK !! r = Some true) relays.

Record quorum (p : DeliveryProof) : Prop := {
  q_distinct : NoDup (dp_WriteRelays (pr_Policy p));
  q_named : ""%string ∉ dp_WriteRelays (pr_Policy p);
  q_answers : dom (pr_RelayOK p) = list_to_set (dp_WriteRelays (pr_Policy p));
  q_positive : 1 ≤ dp_Required (pr_Policy p);
  q_accepted : dp_Required (pr_Policy p) ≤ Z.of_nat (length (acceptances (pr_RelayOK p) (dp_WriteRelays (pr_Policy p))));
}.

(** ** The counting loop *)

Lemma count_accepted_spec relayOK relays : ∀ seen n m,
  count_accepted relayOK seen relays n = Some m ↔
    NoDup relays ∧ ""%string ∉ relays ∧ (∀ r, r ∈ relays → r ∉ seen ∧ r ∈ dom relayOK) ∧
    m = n + Z.of_nat (length (acceptances relayOK relays)).
Proof.
  unfold acceptances. induction relays as [|r relays IH]; intros seen n m; simpl.
  { split; [intros [= ->]|intros (_ & _ & _ & ->)]; [|f_equal; lia].
    split_and!; [constructor|apply not_elem_of_nil|by intros ? ?%not_elem_of_nil|lia]. }
  rewrite filter_cons, NoDup_cons, not_elem_of_cons.
  destruct (String.eqb_spec r "") as [->|Hr]; [split; [done|tauto]|].
  case_bool_decide as Hseen; [split; [done|intros (_ & _ & Hs & _); by destruct (Hs r (list_elem_of_here _ _))]|].
  destruct (relayOK !! r) as [ok|] eqn:E.
  - rewrite IH. assert (r ∈ dom relayOK) as Hdom by by apply elem_of_dom_2 in E.
    assert (length (filter (λ r0, relayOK !! r0 = Some true) relays) + (if ok then 1 else 0) =
            length (if decide (Some ok = Some true) then r :: filter (λ r0, relayOK !! r0 = Some true) relays
                    else filter (λ r0, relayOK !! r0 = Some true) relays))%nat as Hlen
      by (destruct ok; [rewrite decide_True by done; simpl; lia|rewrite decide_False by done; lia]).
    rewrite <-Hlen. split.
    + intros (Hn & He & Hs & ->). split_and!; try done.
      * intros Hin. destruct (Hs r Hin) as [Hs1 _]. set_solver.
      * intros r' [->|Hin]%elem_of_cons; [done|]. destruct (Hs r' Hin). set_solver.
      * destruct ok; lia.
    + intros ([Hnin Hn] & [_ He] & Hs & ->). split_and!; try done; [|destruct ok; lia].
      intros r' Hin. destruct (Hs r' (list_elem_of_further _ _ _ Hin)). set_solver.
  - split; [done|]. intros (_ & _ & Hs & _). destruct (Hs r (list_elem_of_here _ _)) as [_ Hd].
    by apply not_elem_of_dom in E.
Qed.

(** As many answers as distinct relays that all answered: nobody else did. *)
Lemma answers_exact (relayOK : gmap string bool) relays :
  NoDup relays → (∀ r, r ∈ relays → r ∈ dom relayOK) → size relayOK = length relays → dom relayOK = list_to_set relays.
Proof.
  intros Hn Hin Hsize. symmetry. apply (set_subseteq_size_eq (C := gset string)).
  - intros r Hr%elem_of_list_to_set. auto.
  - rewrite size_dom, size_list_to_set by done. lia.
Qed.

Section quorum.
Context `{NostrPrims}.

Lemma ValidFor_quorum p ev target : ValidFor p ev target = true → quorum p ∧ pr_AcceptedAt p ≠ zero_time.
Proof.
  unfold ValidFor. case_match eqn:E; [done|]. bool_facts. case_match eqn:Ec; [|done]. intros Hq. bool_facts.
  apply count_accepted_spec in Ec as (Hn & He & Hs & ->). simpl in *.
  rename select (Nat.eqb _ _ = true) into Hsize. apply Nat.eqb_eq in Hsize.
  split; [|unfold time_is_zero in *; by bool_facts].
  split; [done|done| |lia|lia]. apply answers_exact; [done| |done]. intros r Hr. by apply Hs.
Qed.

Lemma quorum_counted p : quorum p → ∃ n, count_accepted (pr_RelayOK p) ∅ (dp_WriteRelays (pr_Policy p)) 0 = Some n ∧
  dp_Required (pr_Policy p) ≤ n ≤ Z.of_nat (length (dp_WriteRelays (pr_Policy p))) ∧
  size (pr_RelayOK p) = length (dp_WriteRelays (pr_Policy p)).
Proof.
  intros [Hn He Ha Hp Hq]. eexists. rewrite count_accepted_spec. split; [split_and!; [done|done| |done]|split].
  - intros r Hr. rewrite Ha, elem_of_list_to_set. split; [apply not_elem_of_empty|done].
  - pose proof (length_filter (λ r, pr_RelayOK p !! r = Some true) (dp_WriteRelays (pr_Policy p))). unfold acceptances in *. lia.
  - rewrite <-size_dom, Ha. by apply size_list_to_set.
Qed.

(** [ValidFor] accepts a proof exactly when it is of this signed event on
    this target, both copies of the event carry a correct id and signature,
    the acceptance is dated, and the recorded answers form a quorum of the
    policy's distinct write relays. *)
Theorem ValidFor_spec p ev target :
  ValidFor p ev target = true ↔
    pr_Target p = target ∧ ev_ID (pr_Event p) = ev_ID ev ∧ ev_PubKey (pr_Event p) = ev_PubKey ev ∧
    ev_Sig (pr_Event p) = ev_Sig ev ∧ CheckID ev = true ∧ VerifySignature ev = true ∧
    CheckID (pr_Event p) = true ∧ VerifySignature (pr_Event p) = true ∧ pr_AcceptedAt p ≠ zero_time ∧ quorum p.
Proof.
  split.
  - intros Hv. destruct (ValidFor_quorum _ _ _ Hv). unfold ValidFor in Hv. case_match eqn:E; [done|]. bool_facts.
    split_and!; try (by apply String.eqb_eq); done.
  - intros (Ht & Hi & Hk & Hs & Hc & Hv & Hpc & Hpv & Hz & Hq). destruct (quorum_counted p Hq) as (n & Hn & Hle & Hsize).
    unfold ValidFor, time_is_zero. rewrite Ht, Hi, Hk, Hs, !String.eqb_refl, Hc, Hv, Hpc, Hpv, Hn, Hsize, Nat.eqb_refl.
    rewrite (proj2 (Z.eqb_neq _ _) Hz), (proj2 (Z.ltb_ge _ 1) (q_positive _ Hq)), (proj2 (Z.ltb_ge _ _)) by lia.
    simpl. apply Z.leb_le. lia.
Qed.
End quorum.
