(* ===== verification/Outbox.v ===== *)
(** * Outbox operations

    The methods of [Outbox] in
    [src/internal/adapters/nostr/localstore/outbox.go].  Each takes the
    handle, whose file it reads or updates in one transaction, and returns
    the method's results with the new handle.  [now] stands for
    [time.Now()]. *)

From Stdlib Require Import ZArith Lia Bool.
From stdpp Require Import base tactics decidable option list numbers strings gmap.
From S2P Require Import Prelude Bytes Nostr EventID Bolt OutboxData OutboxStore.

(** [sharedOutbox]: the file and the flags its handles share. *)
Record Outbox := mkOutbox {
  ob_db : DB;
  ob_readOnly : bool;
  ob_movedFrom : string;
}.

Definition set_db (o : Outbox) (db : DB) : Outbox := mkOutbox db (ob_readOnly o) (ob_movedFrom o).

(** ** Entry updates *)

Definition fresh_entry (e : OutboxEntry) (enqueuedAt : Z) : OutboxEntry :=
  mkEntry (oe_Event e) (oe_Target e) (oe_EntityType e) (oe_EntityID e) enqueuedAt OutboxPending
    (oe_Rounds e) (oe_Delivered e) (oe_Policy e) (oe_LastError e) zero_time (oe_Relays e).

(** One relay of [mergeRelayDeliveries]: [previous] from the stored entry,
    [state] from the round. *)
Definition merge_relay (previous state : RelayDelivery) : RelayDelivery :=
  let seen := if time_after (rd_SeenDialFailure previous) (rd_SeenDialFailure state)
              then rd_SeenDialFailure previous else rd_SeenDialFailure state in
  if rd_Accepted previous then mkRelay true "" "" seen
  else if negb (String.eqb (rd_Rejected previous) "") && negb (rd_Accepted state)
  then mkRelay (rd_Accepted state) (rd_Rejected previous) (rd_LastError state) seen
  else mkRelay (rd_Accepted state) (rd_Rejected state) (rd_LastError state) seen.

Definition mergeRelayDeliveries (stored incoming : gmap string RelayDelivery) : gmap string RelayDelivery :=
  union_with (λ previous state, Some (merge_relay previous state)) stored incoming.

(** The stored entry after a round's outcome is merged into it. *)
Definition merge_round (stored : OutboxEntry) (round : OutboxRound) : OutboxEntry :=
  mkEntry (oe_Event stored) (oe_Target stored) (oe_EntityType stored) (oe_EntityID stored)
    (oe_EnqueuedAt stored) (oe_State stored)
    (Z.max (oe_Rounds stored) (ro_Rounds round))
    (oe_Delivered stored || ro_Delivered round)
    (if ro_Delivered round && negb (Nat.eqb (length (dp_WriteRelays (ro_Policy round))) 0)
     then ro_Policy round else oe_Policy stored)
    (ro_Detail round) (oe_SettledAt stored)
    (mergeRelayDeliveries (oe_Relays stored) (ro_Relays round)).

Definition settle (e : OutboxEntry) (state : string) (at_ : Z) : OutboxEntry :=
  mkEntry (oe_Event e) (oe_Target e) (oe_EntityType e) (oe_EntityID e) (oe_EnqueuedAt e) state
    (oe_Rounds e) (oe_Delivered e) (oe_Policy e) (oe_LastError e) at_ (oe_Relays e).

(** The reset of [Retry]; the delivery policy is kept. *)
Definition reset_entry (e : OutboxEntry) : OutboxEntry :=
  mkEntry (oe_Event e) (oe_Target e) (oe_EntityType e) (oe_EntityID e) (oe_EnqueuedAt e) OutboxPending
    0 false (oe_Policy e) "" zero_time ∅.

Section operations.
Context `{NostrPrims}.

(** ** Enqueue *)

Definition enqueue_tx (entry : OutboxEntry) : tx bool := λ db,
  let id := ev_ID (oe_Event entry) in
  match entries db !! id with
  | Some _ => Ok (false, db)
  | None =>
      let db := put_entry id entry db in
      let! db := recordBackupRunStatusTimestamp (oe_Event entry) db in
      let db := put_pending (pendingKey (oe_Target entry) (oe_EnqueuedAt entry) id) db in
      Ok (true, put_coordinate (outboxCoordinateKey (oe_Target entry) (oe_Event entry)) db)
  end.

Definition enqueue (now : Z) (entry : OutboxEntry) (o : Outbox) : result OutboxError (bool * Outbox) :=
  check! negb (ob_readOnly o) else ErrReadOnly in
  check! negb (String.eqb (ev_ID (oe_Event entry)) ZeroID) else ErrEventIDRequired in
  check! negb (contains_nul (oe_Target entry)) else ErrTargetNUL in
  let enqueuedAt := if time_is_zero (oe_EnqueuedAt entry) then now else oe_EnqueuedAt entry in
  let! r := enqueue_tx (fresh_entry entry enqueuedAt) (ob_db o) in
  Ok (r.1, set_db o r.2).

Definition has_delivery_state (entry : OutboxEntry) : bool :=
  oe_Delivered entry || negb (oe_Rounds entry =? 0) || negb (Nat.eqb (size (oe_Relays entry)) 0) ||
  negb (Nat.eqb (length (dp_WriteRelays (oe_Policy entry))) 0) || negb (dp_Required (oe_Policy entry) =? 0).

Definition Enqueue (now : Z) (entry : OutboxEntry) (o : Outbox) : result OutboxError (bool * Outbox) :=
  check! negb (has_delivery_state entry) else ErrUnverifiedDeliveryState in
  enqueue now entry o.

Definition EnqueuePublisherDelivery (now : Z) (entry : OutboxEntry) (o : Outbox) :
    result OutboxError (bool * Outbox) :=
  check! oe_Delivered entry else ErrQuorumRequired in
  enqueue now entry o.

(** ** Reads *)

Definition Get (id : string) (o : Outbox) : result OutboxError (option OutboxEntry) :=
  match entries (ob_db o) !! id with
  | None => Ok None
  | Some raw => let! e := of_option ErrDecode (unmarshal raw) in Ok (Some e)
  end.

Definition GetDeliveryProof (id : string) (o : Outbox) : result OutboxError (option DeliveryProof) :=
  match proofs (ob_db o) !! id with
  | None => Ok None
  | Some raw => let! p := of_option ErrDecode (unmarshal raw) in Ok (Some p)
  end.

(** The loop of [ListPending] and [ListFailed]: the entries the index keys
    name, until [limit] entries are collected.  A key equal to [skip] and a
    key whose entry is gone are passed over. *)
Fixpoint list_loop (ents : gmap string (row OutboxEntry)) (id_of : string → string)
    (skip : option string) (limit : nat) (keys : list string) : result OutboxError (list OutboxEntry) :=
  match keys, limit with
  | [], _ => Ok []
  | _, O => Ok []
  | key :: keys', S limit' =>
      if bool_decide (skip = Some key) then list_loop ents id_of skip limit keys'
      else match ents !! id_of key with
      | None => list_loop ents id_of skip limit keys'
      | Some raw =>
          let! e := of_option ErrDecode (unmarshal raw) in
          let! rest := list_loop ents id_of skip limit' keys' in
          Ok (e :: rest)
      end
  end.

Definition effective_limit (limit : Z) : nat := Z.to_nat (if limit <=? 0 then 100 else limit).

Definition ListPending (target : string) (after : option OutboxCursor) (limit : Z) (o : Outbox) :
    result OutboxError (list OutboxEntry) :=
  let prefix := target +:+ String nul "" in
  let skip := (λ c, pendingKey target (cu_EnqueuedAt c) (cu_ID c)) <$> after in
  let start := default prefix skip in
  let keys := take_while (λ k, has_prefix k prefix)
                (seek start (index_keys (tb_pending (db_tables (ob_db o))))) in
  list_loop (entries (ob_db o)) id_suffix skip (effective_limit limit) keys.

Definition ListFailed (limit : Z) (o : Outbox) : result OutboxError (list OutboxEntry) :=
  list_loop (entries (ob_db o)) (drop_bytes 8) None (effective_limit limit)
    (index_keys (tb_failed (db_tables (ob_db o)))).

(** Pending and retained failed entries, counted by their index keys. *)
Definition Counts (o : Outbox) : Z * Z :=
  (Z.of_nat (size (tb_pending (db_tables (ob_db o)))), Z.of_nat (size (tb_failed (db_tables (ob_db o))))).

Definition LatestByCoordinate (target : string) (kind : Z) (author d : string) (o : Outbox) :
    result OutboxError (option OutboxEntry) :=
  let prefix := outboxCoordinatePrefix target kind author d in
  match seek prefix (index_keys (tb_coordinates (db_tables (ob_db o)))) with
  | [] => Ok None
  | key :: _ =>
      if negb (has_prefix key prefix) then Ok None
      else
        match entries (ob_db o) !! id_suffix key with
        | None => Err ErrCoordinateMissing
        | Some raw =>
            let! entry := of_option ErrDecode (unmarshal raw) in
            check! bool_decide (outboxCoordinateKey (oe_Target entry) (oe_Event entry) = Some key)
              else ErrCoordinateMismatch in
            Ok (Some entry)
        end
  end.

(** ** Delivery rounds *)

Definition commitRound_tx (now : Z) (id : string) (round : OutboxRound) (recordProof : bool) : tx OutboxEntry :=
  λ db,
  match entries db !! id with
  | None => Err ErrNotFound
  | Some raw =>
      let! stored := of_option ErrDecode (unmarshal raw) in
      check! negb (negb recordProof && isProofEligibleForRound db (oe_Event stored))
        else ErrPublisherPathRequired in
      check! negb (recordProof && negb (String.eqb (ro_Target round) (oe_Target stored))) else ErrTargetMismatch in
      let at_ := if time_is_zero (ro_At round) then now else ro_At round in
      if negb (String.eqb (oe_State stored) OutboxPending) then
        let! db := recordPublisherProof stored round at_ recordProof db in
        let! db := updateBackupRunStatusDelivery stored db in
        Ok (stored, db)
      else
        let merged := merge_round stored round in
        let! r :=
          if String.eqb (ro_State round) "" || String.eqb (ro_State round) OutboxPending then Ok (merged, db)
          else if String.eqb (ro_State round) OutboxPublished || String.eqb (ro_State round) OutboxFailed then
            let db := del_pending (pendingKey (oe_Target stored) (oe_EnqueuedAt stored) id) db in
            Ok (settle merged (ro_State round) at_, put_settled (ro_State round) (settledKey at_ id) db)
          else Err ErrUnknownState in
        let stored := r.1 in
        let db := put_entry id stored r.2 in
        let! db := recordPublisherProof stored round at_ recordProof db in
        let! db := updateBackupRunAdmissionDelivery stored db in
        let! db := updateBackupRunStatusDelivery stored db in
        Ok (stored, db)
  end.

Definition commitRound (now : Z) (id : string) (round : OutboxRound) (recordProof : bool) (o : Outbox) :
    result OutboxError (OutboxEntry * Outbox) :=
  check! negb (ob_readOnly o) else ErrReadOnly in
  let! r := commitRound_tx now id round recordProof (ob_db o) in
  Ok (r.1, set_db o r.2).

Definition CommitRound (now : Z) (id : string) (round : OutboxRound) (o : Outbox) :=
  commitRound now id round false o.

Definition CommitPublisherRound (now : Z) (id : string) (round : OutboxRound) (o : Outbox) :=
  commitRound now id round true o.

(** ** Retention *)

(** Removes one settled entry named by an index key of [state]. *)
Definition prune_key (state key : string) (db : DB) : result OutboxError DB :=
  let id := drop_bytes 8 key in
  let db := del_settled state key db in
  let! db :=
    match entries db !! id with
    | None => Ok db
    | Some raw =>
        let! e := of_option ErrDecode (unmarshal raw) in
        Ok (del_coordinate (outboxCoordinateKey (oe_Target e) (oe_Event e)) db)
    end in
  Ok (del_entry id db).

(** The loop over the expired keys of one state.  [hold n] is the [n]th
    load of the evidence-hold flag, which another goroutine may set; a load
    that sees it ends the transaction with what was removed so far.  The
    result is whether that happened, the number of loads, the number of
    entries removed and the buckets. *)
Fixpoint prune_keys (hold : nat → bool) (state : string) (keys : list string) (n : nat) (removed : Z) (db : DB) :
    result OutboxError (bool * nat * Z * DB) :=
  match keys with
  | [] => Ok (false, n, removed, db)
  | key :: keys' =>
      if hold n then Ok (true, S n, removed, db)
      else
        let! pinned := backupRunAdmissionUnresolved (drop_bytes 8 key) db in
        if pinned then prune_keys hold state keys' (S n) removed db
        else
          let! db := prune_key state key db in
          prune_keys hold state keys' (S n) (removed + 1) db
  end.

Definition expired_keys (state : string) (before : Z) (db : DB) : list string :=
  take_while (λ k, bytes_ltb k (settledKey before ZeroID)) (index_keys (settledBucket state (db_tables db))).

(** The range over the two-element map of states, in the order Go happens
    to visit it. *)
Fixpoint prune_states (hold : nat → bool) (states : list (string * Z)) (n : nat) (removed : Z) (db : DB) :
    result OutboxError (Z * DB) :=
  match states with
  | [] => Ok (removed, db)
  | (state, before) :: states' =>
      let! r := prune_keys hold state (expired_keys state before db) n removed db in
      match r with
      | (stopped, n', removed', db') =>
          if (stopped : bool) then Ok (removed', db') else prune_states hold states' n' removed' db'
      end
  end.

Definition Prune (hold : nat → bool) (published_first : bool) (publishedBefore failedBefore : Z) (o : Outbox) :
    result OutboxError (Z * Outbox) :=
  if hold 0%nat then Ok (0, o)
  else
    check! negb (ob_readOnly o) else ErrReadOnly in
    if hold 1%nat then Ok (0, o)
    else
      let p := (OutboxPublished, publishedBefore) in
      let f := (OutboxFailed, failedBefore) in
      let! r := prune_states hold (if published_first then [p; f] else [f; p]) 2 0 (ob_db o) in
      Ok (r.1, set_db o r.2).

(** *** PurgeEvents *)

Fixpoint purge_victims (matches : Event → bool) (ents : gmap string (row OutboxEntry)) (keys : list string) :
    result OutboxError (list OutboxEntry) :=
  match keys with
  | [] => Ok []
  | key :: keys' =>
      match ents !! key with
      | None => purge_victims matches ents keys'
      | Some raw =>
          let! e := of_option ErrDecode (unmarshal raw) in
          let! rest := purge_victims matches ents keys' in
          Ok (if matches (oe_Event e) then e :: rest else rest)
      end
  end.

Definition purge_entry (e : OutboxEntry) (db : DB) : result OutboxError DB :=
  let id := ev_ID (oe_Event e) in
  let! pinned := backupRunAdmissionUnresolved id db in
  check! negb pinned else ErrPinned in
  check! negb (bool_decide (is_Some (proofs db !! id))) else ErrHoldsProof in
  let db :=
    if String.eqb (oe_State e) OutboxPending
    then del_pending (pendingKey (oe_Target e) (oe_EnqueuedAt e) id) db
    else del_settled (oe_State e) (settledKey (oe_SettledAt e) id) db in
  let db := del_coordinate (outboxCoordinateKey (oe_Target e) (oe_Event e)) db in
  Ok (del_entry id db).

Fixpoint purge_loop (victims : list OutboxEntry) (db : DB) : result OutboxError DB :=
  match victims with
  | [] => Ok db
  | e :: victims' => let! db := purge_entry e db in purge_loop victims' db
  end.

Definition PurgeEvents (matches : Event → bool) (o : Outbox) : result OutboxError (list string * Outbox) :=
  check! negb (ob_readOnly o) else ErrReadOnly in
  let! victims := purge_victims matches (entries (ob_db o)) (bucket_keys (entries (ob_db o))) in
  let! db := purge_loop victims (ob_db o) in
  Ok (map (λ e, ev_ID (oe_Event e)) victims, set_db o db).

(** ** Retry *)

(** Moves a decoded entry from the failed index key [key] back to pending. *)
Definition retry_entry (id key : string) (e : OutboxEntry) (db : DB) : DB :=
  let db := del_settled OutboxFailed key db in
  let db := put_entry id (reset_entry e) db in
  put_pending (pendingKey (oe_Target e) (oe_EnqueuedAt e) id) db.

Definition Retry (id : string) (o : Outbox) : result OutboxError (OutboxEntry * Outbox) :=
  check! negb (ob_readOnly o) else ErrReadOnly in
  let! raw := of_option ErrNotFound (entries (ob_db o) !! id) in
  let! e := of_option ErrDecode (unmarshal raw) in
  check! String.eqb (oe_State e) OutboxFailed else ErrNotFailed in
  Ok (reset_entry e, set_db o (retry_entry id (settledKey (oe_SettledAt e) id) e (ob_db o))).

Fixpoint retry_loop (keys : list string) (retried : Z) (db : DB) : result OutboxError (Z * DB) :=
  match keys with
  | [] => Ok (retried, db)
  | key :: keys' =>
      let id := drop_bytes 8 key in
      match entries db !! id with
      | None => retry_loop keys' retried db
      | Some raw =>
          let! e := of_option ErrDecode (unmarshal raw) in
          retry_loop keys' (retried + 1) (retry_entry id key e db)
      end
  end.

Definition RetryAllFailed (o : Outbox) : result OutboxError (Z * Outbox) :=
  check! negb (ob_readOnly o) else ErrReadOnly in
  let! r := retry_loop (index_keys (tb_failed (db_tables (ob_db o)))) 0 (ob_db o) in
  Ok (r.1, set_db o r.2).
End operations.
