(* ===== verification/BackupRun.v ===== *)
(** * The backup-run ledger

    The admission and pending ledgers of backup runs, which live in the
    outbox file so that a staged run, its keys and its signed events commit
    together: [src/internal/adapters/nostr/localstore/backup_run_admission.go]
    and [backup_run_pending.go]. *)

From Stdlib Require Import ZArith Lia Bool.
From stdpp Require Import base tactics decidable option list numbers strings gmap.
From S2P Require Import Prelude Bytes Nostr EventID Bolt OutboxData OutboxStore Outbox.

(** ** Record updates *)

Definition set_status (r : BackupRunAdmission) (id target : string) : BackupRunAdmission :=
  mkAdmission (ba_IntentID r) (ba_Coordinate r) (ba_RequestEventID r) (ba_StateEventID r) (ba_Target r)
    (ba_Actor r) (ba_ServicePubkey r) (ba_Delivered r) id target "accepted" (ba_StatusDelivered r).

Definition pending_with (r : BackupRunPending) (ev : Event) (next attempts : Z) (failure state : string)
    (statusID statusTarget : string) : BackupRunPending :=
  mkPending (bp_IntentID r) (bp_Coordinate r) ev (bp_Actor r) (bp_ServicePubkey r) (bp_ReceivedAt r)
    (bp_ExpiresAt r) next attempts failure state statusID statusTarget (bp_StatusDelivered r).

Definition set_pendingState (r : BackupRunPending) (state : string) : BackupRunPending :=
  pending_with r (bp_RequestEvent r) (bp_NextAttemptAt r) (bp_Attempts r) (bp_LastFailure r) state
    (bp_StatusEventID r) (bp_StatusTarget r).

(** Keeps the request's id, author and signature. *)
Definition compactBackupRunPending (r : BackupRunPending) : BackupRunPending :=
  pending_with r (compact_event (bp_RequestEvent r)) zero_time 0
    (if String.eqb (bp_State r) BackupRunAcceptedState then "" else bp_LastFailure r) (bp_State r)
    (bp_StatusEventID r) (bp_StatusTarget r).

(** ** The due index *)

(** Flipping the sign bit makes signed instants sort as unsigned keys. *)
Definition backupRunDueKey (r : BackupRunPending) : string :=
  let at_ := if time_is_zero (bp_NextAttemptAt r) then bp_ReceivedAt r else bp_NextAttemptAt r in
  be64 (Z.lxor (to_u64 (unix_nano at_)) two63) +:+ bp_IntentID r.

Definition backupRunDueAt (key : string) : Z :=
  to_i64 (Z.lxor (be_decode (take_bytes 8 key)) two63).

Definition put_due (k : string) : DB → DB := upd_ledger (λ l, set_due ({[k]} ∪ lg_due l) l).
Definition del_due (k : string) : DB → DB := upd_ledger (λ l, set_due (lg_due l ∖ {[k]}) l).
Definition put_refusal (k : string) : DB → DB := upd_ledger (λ l, set_refusals ({[k]} ∪ lg_refusals l) l).
Definition del_refusal (k : string) : DB → DB := upd_ledger (λ l, set_refusals (lg_refusals l ∖ {[k]}) l).
Definition put_coord (k v : string) : DB → DB := upd_ledger (λ l, set_coords (<[k := v]> (lg_coords l)) l).
Definition put_event (k v : string) : DB → DB := upd_ledger (λ l, set_events (<[k := v]> (lg_events l)) l).
Definition put_statusEvent (k v : string) : DB → DB :=
  upd_ledger (λ l, set_statusEvents (<[k := v]> (lg_statusEvents l)) l).
Definition put_pendingCoord (k v : string) : DB → DB :=
  upd_ledger (λ l, set_pendingCoords (<[k := v]> (lg_pendingCoords l)) l).
Definition put_pendingEvent (k v : string) : DB → DB :=
  upd_ledger (λ l, set_pendingEvents (<[k := v]> (lg_pendingEvents l)) l).

(** [string(bucket.Get(k)) == v]: a missing key reads as the empty string. *)
Definition bound_to (m : gmap string string) (k v : string) : bool := String.eqb (default ""%string (m !! k)) v.

Section ledger.
Context `{NostrPrims}.

(** ** Request identities *)

(** The loop over the expiration tags: the signed expiration, or [None]
    where the function returns false; [Some None] when there is none. *)
Fixpoint signed_expiration (tags : list (list string)) (seen : option Z) : option (option Z) :=
  match tags with
  | [] => Some seen
  | (k :: rest) :: tags' =>
      if negb (String.eqb k "expiration") then signed_expiration tags' seen
      else match seen, rest with
      | None, [v] =>
          match parse_int64 v with
          | Some z => signed_expiration tags' (Some z)
          | None => None
          end
      | _, _ => None
      end
  | [] :: tags' => signed_expiration tags' seen
  end.

Definition validBackupRunPendingIdentity (r : BackupRunPending) : bool :=
  let ev := bp_RequestEvent r in
  if String.eqb (bp_IntentID r) "" || negb (has_prefix (bp_Coordinate r) "backup-run:") ||
     negb (ev_Kind ev =? kindCPState) || negb (CheckID ev) || negb (VerifySignature ev) ||
     negb (String.eqb (hex (ev_PubKey ev)) (bp_Actor r)) ||
     negb (oneBackupRunTag (ev_Tags ev) "d" (bp_Coordinate r)) ||
     negb (oneBackupRunTag (ev_Tags ev) "intent_id" (bp_IntentID r)) ||
     time_is_zero (bp_ExpiresAt r) || negb (time_after (bp_ExpiresAt r) (bp_ReceivedAt r)) ||
     String.eqb (bp_ServicePubkey r) ""
  then false
  else match signed_expiration (ev_Tags ev) None with
  | Some (Some exp) =>
      (exp =? unix_sec (bp_ExpiresAt r)) &&
      negb (time_after (bp_ExpiresAt r) (ev_CreatedAt ev * second + 15 * minute))
  | _ => false
  end.

Definition validRetainedBackupRunIdentity (r : BackupRunPending) : bool :=
  let ev := bp_RequestEvent r in
  if String.eqb (bp_State r) BackupRunPendingState ||
     (String.eqb (bp_StatusEventID r) "" && String.eqb (bp_State r) BackupRunRefusedState)
  then validBackupRunPendingIdentity r
  else if negb (String.eqb (bp_State r) BackupRunAcceptedState) && negb (String.eqb (bp_State r) BackupRunRefusedState)
  then false
  else if negb (ev_Kind ev =? 0) then validBackupRunPendingIdentity r
  else if String.eqb (bp_IntentID r) "" || negb (has_prefix (bp_Coordinate r) "backup-run:") ||
          String.eqb (ev_ID ev) ZeroID || negb (String.eqb (hex (ev_PubKey ev)) (bp_Actor r)) ||
          negb (ev_CreatedAt ev =? 0) || negb (Nat.eqb (length (ev_Tags ev)) 0) ||
          negb (String.eqb (ev_Content ev) "") || String.eqb (bp_ServicePubkey r) "" ||
          time_is_zero (bp_ExpiresAt r) || negb (time_after (bp_ExpiresAt r) (bp_ReceivedAt r))
  then false
  else ParsePubKey (ev_PubKey ev) && SchnorrVerify (ev_ID ev) (ev_PubKey ev) (ev_Sig ev).

(** ** Admission reads *)

(** A stored proof, decoded; [None] when absent or undecodable. *)
Definition read_proof (db : DB) (idHex : string) : option (string * DeliveryProof) :=
  match id_from_hex idHex with
  | None => None
  | Some id => match proofs db !! id ≫= unmarshal with Some p => Some (id, p) | None => None end
  end.

Definition GetBackupRunAdmission (intentID coordinate requestEventID : string) (o : Outbox) :
    result OutboxError (option BackupRunAdmission) :=
  check! negb (String.eqb intentID "") && negb (String.eqb coordinate "") && negb (String.eqb requestEventID "")
    else ErrLedgerRequest in
  let db := ob_db o in
  let l := db_ledger db in
  match lg_intents l !! intentID with
  | Some raw =>
      let! r := of_option ErrDecode (unmarshal raw) in
      check! String.eqb (ba_IntentID r) intentID && String.eqb (ba_Coordinate r) coordinate &&
             String.eqb (ba_RequestEventID r) requestEventID else ErrLedgerConflict in
      check! bound_to (lg_coords l) coordinate intentID else ErrLedgerInconsistent in
      check! bound_to (lg_events l) (ba_StateEventID r) intentID else ErrLedgerInconsistent in
      check! negb (ba_Delivered r) ||
        match read_proof db (ba_StateEventID r) with
        | Some (id, p) =>
            String.eqb (ev_ID (pr_Event p)) id && String.eqb (hex (ev_PubKey (pr_Event p))) (ba_ServicePubkey r) &&
            String.eqb (pr_Target p) (ba_Target r) && ValidFor p (pr_Event p) (ba_Target r) &&
            isBackupRunStateEvent (pr_Event p) && tag_is (pr_Event p) "d" (ba_Coordinate r)
        | None => false
        end else ErrLedgerProof in
      check! negb (ba_StatusDelivered r) ||
        (ba_Delivered r && String.eqb (ba_StatusOutcome r) "accepted" &&
         match read_proof db (ba_StatusEventID r) with
         | Some (id, p) =>
             ValidFor p (pr_Event p) (ba_StatusTarget r) && String.eqb (ev_ID (pr_Event p)) id &&
             String.eqb (hex (ev_PubKey (pr_Event p))) (ba_ServicePubkey r) &&
             isBackupRunAcceptedStatusEvent (pr_Event p) &&
             tag_is (pr_Event p) "d" (IntentStatusCoordinate (ba_Actor r) (ba_Coordinate r)) &&
             bound_to (lg_statusEvents l) (ba_StatusEventID r) intentID
         | None => false
         end) else ErrLedgerProof in
      Ok (Some r)
  | None =>
      check! negb (bool_decide (is_Some (lg_coords l !! coordinate))) else ErrLedgerConflict in
      Ok None
  end.

Definition BackupRunStatusTimestampFloor (servicePubkey actor coordinate : string) (o : Outbox) :
    result OutboxError Z :=
  check! has_prefix coordinate "backup-run:" else ErrClockCoordinate in
  let! pubkey := of_option ErrLedgerRequest (PubKeyFromHex servicePubkey) in
  let! _ := of_option ErrLedgerRequest (PubKeyFromHex actor) in
  backupRunStatusTimestampFloor (backupRunStatusClockKey pubkey actor coordinate) (ob_db o).

(** ** Unadmitted statuses *)

Definition validUnadmittedBackupRunStatus (ev : Event) (coordinate requestEventID : string) : bool :=
  let actor := tag ev "p" in
  let intentID := tag ev "intent_id" in
  let requestID := tag ev "e" in
  if String.eqb actor "" || String.eqb intentID "" || String.eqb requestID "" ||
     negb (String.eqb requestID requestEventID) || negb (oneBackupRunTag (ev_Tags ev) "p" actor) ||
     negb (oneBackupRunTag (ev_Tags ev) "intent_id" intentID) || negb (oneBackupRunTag (ev_Tags ev) "e" requestID) ||
     negb (oneBackupRunTag (ev_Tags ev) "domain" "intent") || negb (oneBackupRunTag (ev_Tags ev) "t" "intent-status") ||
     negb (oneBackupRunTag (ev_Tags ev) "status" (tag ev "status"))
  then false
  else if negb (bool_decide (is_Some (PubKeyFromHex actor))) || negb (is_id_hex requestID) then false
  else match decode_unadmitted (ev_Content ev) with
  | None => false
  | Some body =>
      if negb (String.eqb (sc_IntentID body) intentID) then false
      else if tag_is ev "status" "rejected" || tag_is ev "status" "conflict" then
        if sc_has_coordinate body then false
        else if negb (String.eqb (sc_Reason body) "") &&
                ((tag_is ev "status" "rejected" && negb (String.eqb (sc_Reason body) "access_denied")) ||
                 (tag_is ev "status" "conflict" && negb (String.eqb (sc_Reason body) "revision_conflict")))
        then false
        else oneBackupRunTag (ev_Tags ev) "d" (IntentPrivateStatusCoordinate actor "backup" intentID)
      else if tag_is ev "status" "accepted" then
        oneBackupRunTag (ev_Tags ev) "d" (IntentStatusCoordinate actor coordinate) &&
        String.eqb (sc_Coordinate body) coordinate
      else false
  end.

Definition unadmitted_tx (coordinate : string) (key : string) (ev : Event) (db : DB) : result OutboxError DB :=
  let l := db_ledger db in
  check! negb (bool_decide (is_Some (lg_coords l !! coordinate))) else ErrLedgerConflict in
  let! _ :=
    match lg_pendingCoords l !! coordinate with
    | None => Ok tt
    | Some owner =>
        let! p := of_option ErrLedgerUnavailable (lg_pending l !! owner ≫= unmarshal) in
        check! String.eqb (bp_Coordinate p) coordinate && String.eqb (bp_Actor p) (tag ev "p") &&
               String.eqb (bp_IntentID p) (tag ev "intent_id") &&
               String.eqb (hex (ev_ID (bp_RequestEvent p))) (tag ev "e") else ErrLedgerConflict in
        require (negb (String.eqb (bp_State p) BackupRunRefusedState) && String.eqb (bp_StatusEventID p) "")
          ErrLedgerConflict
    end in
  let! floor := backupRunStatusTimestampFloor key db in
  let! coordinateFloor :=
    backupRunStatusTimestampFloor (backupRunStatusClockKey (ev_PubKey ev) (tag ev "p") coordinate) db in
  check! Z.max floor coordinateFloor <? ev_CreatedAt ev else ErrClockNotNewer in
  let! db := recordBackupRunStatusTimestamp ev db in
  recordBackupRunCoordinateStatusTimestamp ev coordinate db.

(** [publish] is the caller's relay round, which runs after the transaction
    that reserves the timestamp has committed. *)
Definition PublishUnadmittedBackupRunStatus (coordinate requestEventID : string) (ev : Event)
    (publish : Outbox → result OutboxError unit * Outbox) (o : Outbox) : result OutboxError unit * Outbox :=
  if ob_readOnly o || negb (has_prefix coordinate "backup-run:") then (Err ErrLedgerRequest, o)
  else match backupRunStatusEventClockKey ev with
  | None => (Err ErrStatusCorrelation, o)
  | Some key =>
      if negb (validUnadmittedBackupRunStatus ev coordinate requestEventID) then (Err ErrStatusCorrelation, o)
      else match unadmitted_tx coordinate key ev (ob_db o) with
      | Err e => (Err e, o)
      | Ok db => publish (set_db o db)
      end
  end.
(** ** Staging the run *)

(** The run-state entry [EnqueueBackupRun] accepts: signed, undelivered and
    tagged as the state of exactly this coordinate. *)
Definition canonical_run_entry (entry : OutboxEntry) (coordinate : string) : bool :=
  let ev := oe_Event entry in
  negb (String.eqb (oe_Target entry) "") && CheckID ev && VerifySignature ev &&
  negb (has_delivery_state entry) && (ev_Kind ev =? kindCPState) &&
  oneBackupRunTag (ev_Tags ev) "d" coordinate && oneBackupRunTag (ev_Tags ev) "t" "backup-run" &&
  oneBackupRunTag (ev_Tags ev) "legacy_kind" "31996" && oneBackupRunTag (ev_Tags ev) "deleted" "false".

Definition new_admission (entry : OutboxEntry) (intentID coordinate requestEventID actor : string) : BackupRunAdmission :=
  mkAdmission intentID coordinate requestEventID (hex (ev_ID (oe_Event entry))) (oe_Target entry) actor
    (hex (ev_PubKey (oe_Event entry))) false "" "" "" false.

(** A pending request that owns the coordinate must be this one, undecided. *)
Definition pending_owner_ok (db : DB) (intentID coordinate requestEventID : string) : bool :=
  match lg_pendingCoords (db_ledger db) !! coordinate with
  | None => true
  | Some owner =>
      match lg_pending (db_ledger db) !! owner ≫= unmarshal with
      | None => false
      | Some p =>
          String.eqb (bp_IntentID p) intentID && String.eqb (hex (ev_ID (bp_RequestEvent p))) requestEventID &&
          String.eqb (bp_State p) BackupRunPendingState && String.eqb (bp_StatusEventID p) ""
      end
  end.

Definition enqueueBackupRun_tx (entry : OutboxEntry) (intentID coordinate requestEventID actor : string) :
    tx (BackupRunAdmission * bool) := λ db,
  let l := db_ledger db in
  let id := ev_ID (oe_Event entry) in
  let record := new_admission entry intentID coordinate requestEventID actor in
  match lg_intents l !! intentID with
  | Some raw =>
      let! prior := of_option ErrDecode (unmarshal raw) in
      check! String.eqb (ba_IntentID prior) intentID && String.eqb (ba_Coordinate prior) coordinate &&
             String.eqb (ba_RequestEventID prior) requestEventID && String.eqb (ba_Target prior) (oe_Target entry) &&
             String.eqb (ba_Actor prior) actor && bound_to (lg_coords l) coordinate intentID &&
             bound_to (lg_events l) (ba_StateEventID prior) intentID else ErrLedgerConflict in
      Ok (prior, false, db)
  | None =>
      check! negb (bool_decide (is_Some (lg_coords l !! coordinate))) else ErrLedgerConflict in
      check! pending_owner_ok db intentID coordinate requestEventID else ErrLedgerConflict in
      check! negb (bool_decide (is_Some (entries db !! id))) else ErrEventHeld in
      let db := put_entry id entry db in
      let db := put_pending (pendingKey (oe_Target entry) (oe_EnqueuedAt entry) id) db in
      let db := put_intent intentID record db in
      let db := put_coord coordinate intentID db in
      Ok (record, true, put_event (hex id) intentID db)
  end.

Definition EnqueueBackupRun (now : Z) (entry : OutboxEntry) (intentID coordinate requestEventID actor : string)
    (o : Outbox) : result OutboxError (BackupRunAdmission * bool * Outbox) :=
  check! negb (ob_readOnly o) else ErrReadOnly in
  check! negb (String.eqb intentID "") && negb (String.eqb coordinate "") && negb (String.eqb requestEventID "") &&
         negb (contains_nul intentID) && negb (contains_nul coordinate) else ErrLedgerRequest in
  check! is_id_hex requestEventID else ErrLedgerRequest in
  let! _ := of_option ErrLedgerRequest (PubKeyFromHex actor) in
  check! canonical_run_entry entry coordinate else ErrLedgerRequest in
  let enqueuedAt := if time_is_zero (oe_EnqueuedAt entry) then now else oe_EnqueuedAt entry in
  let! ' (record, inserted, db) :=
    enqueueBackupRun_tx (fresh_entry entry enqueuedAt) intentID coordinate requestEventID actor (ob_db o) in
  Ok (record, inserted, set_db o db).

(** ** Admission scans *)

(** The cursor position strictly after [after]; the empty cursor starts at
    the first key. *)
Definition seek_after (after : string) (keys : list string) : list string :=
  if String.eqb after "" then keys
  else match seek after keys with
  | k :: rest => if String.eqb k after then rest else k :: rest
  | [] => []
  end.

Definition scan_limit (limit : Z) : nat := Z.to_nat (if (limit <=? 0) || (500 <? limit) then 100 else limit).

(** The key a scan returns to resume after: the last one visited, or empty
    when the bucket is exhausted. *)
Definition scan_next (limit : nat) (keys : list string) : string :=
  match drop limit keys with
  | [] => ""
  | _ :: _ => default ""%string (last (take limit keys))
  end.

(** The rows of a page, with whether one of them did not decode. *)
Fixpoint scan_admissions (keep : BackupRunAdmission → bool) (m : gmap string (row BackupRunAdmission))
    (keys : list string) : list BackupRunAdmission * bool :=
  match keys with
  | [] => ([], false)
  | key :: keys' =>
      let (records, bad) := scan_admissions keep m keys' in
      match m !! key ≫= unmarshal with
      | None => (records, true)
      | Some r => (if keep r then r :: records else records, bad)
      end
  end.

Definition needs_status (r : BackupRunAdmission) : bool := ba_Delivered r && String.eqb (ba_StatusEventID r) "".
Definition ready_for_execution (r : BackupRunAdmission) : bool :=
  ba_Delivered r && ba_StatusDelivered r && String.eqb (ba_StatusOutcome r) "accepted".

(** Skips undecodable rows and reports them beside the page. *)
Definition ListBackupRunAdmissionsNeedingStatus (after : string) (limit : Z) (o : Outbox) :
    list BackupRunAdmission * string * result OutboxError unit :=
  let m := intents (ob_db o) in
  let keys := seek_after after (bucket_keys m) in
  let n := scan_limit limit in
  let (records, bad) := scan_admissions needs_status m (take n keys) in
  (records, scan_next n keys, require (negb bad) ErrDecode).

(** Fails at the first undecodable row. *)
Definition ListBackupRunAdmissionsReadyForExecution (after : string) (limit : Z) (o : Outbox) :
    result OutboxError (list BackupRunAdmission * string) :=
  let m := intents (ob_db o) in
  let keys := seek_after after (bucket_keys m) in
  let n := scan_limit limit in
  let (records, bad) := scan_admissions ready_for_execution m (take n keys) in
  check! negb bad else ErrDecode in
  Ok (records, scan_next n keys).

(** ** The accepted status *)

Definition status_entry (now : Z) (ev : Event) (target : string) : OutboxEntry :=
  mkEntry ev target "backup_run.status" "" now OutboxPending 0 false no_policy "" zero_time ∅.

Definition accepted_status_event (r : BackupRunAdmission) (ev : Event) : bool :=
  CheckID ev && VerifySignature ev && (ev_Kind ev =? kindStatus) &&
  String.eqb (hex (ev_PubKey ev)) (ba_ServicePubkey r) &&
  oneBackupRunTag (ev_Tags ev) "d" (IntentStatusCoordinate (ba_Actor r) (ba_Coordinate r)) &&
  oneBackupRunTag (ev_Tags ev) "domain" "intent" && oneBackupRunTag (ev_Tags ev) "t" "intent-status" &&
  oneBackupRunTag (ev_Tags ev) "status" "accepted" && oneBackupRunTag (ev_Tags ev) "intent_id" (ba_IntentID r) &&
  oneBackupRunTag (ev_Tags ev) "p" (ba_Actor r) && oneBackupRunTag (ev_Tags ev) "e" (ba_RequestEventID r) &&
  negb (hasBackupRunTag (ev_Tags ev) "expiration").

Definition accepted_status_content (r : BackupRunAdmission) (ev : Event) : bool :=
  match decode_accepted (ev_Content ev) with
  | None => false
  | Some c =>
      String.eqb (sc_IntentID c) (ba_IntentID r) && String.eqb (sc_Coordinate c) (ba_Coordinate r) &&
      String.eqb (sc_Result c) "applied" &&
      String.eqb (sc_RunID c) (trim_prefix (ba_Coordinate r) "backup-run:") &&
      String.eqb (sc_StateEventID c) (ba_StateEventID r) && String.eqb (sc_Execution c) "queued"
  end.

(** The pending request of an accepted run leaves the due index. *)
Definition accept_pending (current : BackupRunAdmission) (db : DB) : result OutboxError DB :=
  match lg_pending (db_ledger db) !! ba_IntentID current with
  | None => Ok db
  | Some raw =>
      let! p := of_option ErrLedgerInconsistent (unmarshal raw) in
      check! String.eqb (bp_Coordinate p) (ba_Coordinate current) &&
             String.eqb (hex (ev_ID (bp_RequestEvent p))) (ba_RequestEventID current) &&
             String.eqb (bp_State p) BackupRunPendingState else ErrLedgerInconsistent in
      let p := set_pendingState p BackupRunAcceptedState in
      Ok (del_due (backupRunDueKey p) (put_lpending (ba_IntentID current) p db))
  end.

Definition stageAccepted_tx (now : Z) (record : BackupRunAdmission) (ev : Event) (target : string) :
    tx (string * bool) := λ db,
  let! current := of_option ErrLedgerUnavailable (intents db !! ba_IntentID record ≫= unmarshal) in
  check! String.eqb (ba_IntentID current) (ba_IntentID record) &&
         String.eqb (ba_Coordinate current) (ba_Coordinate record) &&
         String.eqb (ba_RequestEventID current) (ba_RequestEventID record) &&
         String.eqb (ba_StateEventID current) (ba_StateEventID record) &&
         String.eqb (ba_Actor current) (ba_Actor record) &&
         String.eqb (ba_ServicePubkey current) (ba_ServicePubkey record) else ErrLedgerConflict in
  if negb (String.eqb (ba_StatusEventID current) "") then
    check! String.eqb (ba_StatusOutcome current) "accepted" else ErrLedgerConflict in
    Ok (ba_StatusEventID current, false, db)
  else
    check! ba_Delivered current else ErrLedgerProof in
    let! floor := backupRunStatusTimestampFloor
                    (backupRunStatusClockKey (ev_PubKey ev) (ba_Actor current) (ba_Coordinate current)) db in
    check! floor <? ev_CreatedAt ev else ErrClockNotNewer in
    check! negb (bool_decide (is_Some (entries db !! ev_ID ev))) else ErrEventHeld in
    let db := put_entry (ev_ID ev) (status_entry now ev target) db in
    let db := put_pending (pendingKey target now (ev_ID ev)) db in
    let db := put_coordinate (outboxCoordinateKey target ev) db in
    let db := put_statusEvent (hex (ev_ID ev)) (ba_IntentID current) db in
    let! db := recordBackupRunStatusTimestamp ev db in
    let current := set_status current (hex (ev_ID ev)) target in
    let db := put_intent (ba_IntentID current) current db in
    let! db := accept_pending current db in
    Ok (ba_StatusEventID current, true, db).

Definition StageBackupRunAcceptedStatus (now : Z) (record : BackupRunAdmission) (ev : Event) (target : string)
    (o : Outbox) : result OutboxError (string * bool * Outbox) :=
  check! negb (ob_readOnly o) else ErrReadOnly in
  check! accepted_status_event record ev else ErrStatusCorrelation in
  check! accepted_status_content record ev else ErrStatusContent in
  let! ' (statusID, inserted, db) := stageAccepted_tx now record ev target (ob_db o) in
  Ok (statusID, inserted, set_db o db).
End ledger.
