(* ===== verification/BackupRunPending.v ===== *)
(** * The pending backup-run requests

    The operator requests a backup run is admitted from: intake, retry
    bookkeeping, refusal and compaction
    ([src/internal/adapters/nostr/localstore/backup_run_pending.go]), and the
    upgrade of an existing file when it is opened ([openOutboxDB] of
    [outbox.go]). *)

From Stdlib Require Import ZArith Lia Bool.
From stdpp Require Import base tactics decidable option list numbers strings gmap.
From S2P Require Import Prelude Bytes Nostr EventID Bolt OutboxData OutboxStore Outbox BackupRun.

Section pending.
Context `{NostrPrims}.

(** ** Intake *)

(** The record [PutBackupRunPending] stores for a request. *)
Definition fresh_pending (r : BackupRunPending) : BackupRunPending :=
  pending_with r (bp_RequestEvent r) (bp_ReceivedAt r) (bp_Attempts r) "" BackupRunPendingState
    (bp_StatusEventID r) (bp_StatusTarget r).

Definition putPending_tx (record : BackupRunPending) : tx (BackupRunPending * bool) := λ db,
  let l := db_ledger db in
  let requestID := hex (ev_ID (bp_RequestEvent record)) in
  match lg_pending l !! bp_IntentID record with
  | Some raw =>
      let! prior := of_option ErrDecode (unmarshal raw) in
      check! validRetainedBackupRunIdentity prior && String.eqb (bp_Coordinate prior) (bp_Coordinate record) &&
             String.eqb (ev_ID (bp_RequestEvent prior)) (ev_ID (bp_RequestEvent record)) &&
             String.eqb (bp_Actor prior) (bp_Actor record) &&
             String.eqb (bp_ServicePubkey prior) (bp_ServicePubkey record) &&
             bound_to (lg_pendingCoords l) (bp_Coordinate record) (bp_IntentID record) &&
             bound_to (lg_pendingEvents l) requestID (bp_IntentID record) else ErrLedgerConflict in
      Ok (prior, false, db)
  | None =>
      check! negb (bool_decide (is_Some (lg_pendingCoords l !! bp_Coordinate record))) &&
             negb (bool_decide (is_Some (lg_pendingEvents l !! requestID))) &&
             negb (bool_decide (is_Some (lg_coords l !! bp_Coordinate record))) &&
             negb (bool_decide (is_Some (lg_intents l !! bp_IntentID record))) else ErrLedgerConflict in
      let db := put_lpending (bp_IntentID record) record db in
      let db := put_pendingCoord (bp_Coordinate record) (bp_IntentID record) db in
      let db := put_pendingEvent requestID (bp_IntentID record) db in
      Ok (record, true, put_due (backupRunDueKey record) db)
  end.

Definition PutBackupRunPending (record : BackupRunPending) (o : Outbox) :
    result OutboxError (BackupRunPending * bool * Outbox) :=
  check! negb (ob_readOnly o) && String.eqb (ob_movedFrom o) "" else ErrLedgerUnavailable in
  check! validBackupRunPendingIdentity record else ErrLedgerRequest in
  let! _ := of_option ErrLedgerRequest (PubKeyFromHex (bp_ServicePubkey record)) in
  let! ' (r, inserted, db) := putPending_tx (fresh_pending record) (ob_db o) in
  Ok (r, inserted, set_db o db).

(** ** Reads *)

(** The tags that bind a refusal to its request. *)
Definition refusal_bound (r : BackupRunPending) (ev : Event) : bool :=
  oneBackupRunTag (ev_Tags ev) "p" (bp_Actor r) &&
  oneBackupRunTag (ev_Tags ev) "intent_id" (bp_IntentID r) &&
  oneBackupRunTag (ev_Tags ev) "e" (hex (ev_ID (bp_RequestEvent r))).

Definition private_coordinate (r : BackupRunPending) : string :=
  IntentPrivateStatusCoordinate (bp_Actor r) "backup" (bp_IntentID r).

(** A delivered refusal has its quorum proof. *)
Definition delivered_refusal_ok (db : DB) (r : BackupRunPending) : bool :=
  String.eqb (bp_State r) BackupRunRefusedState &&
  match read_proof db (bp_StatusEventID r) with
  | None => false
  | Some (id, p) =>
      let ev := pr_Event p in
      ValidFor p ev (bp_StatusTarget r) && String.eqb (ev_ID ev) id &&
      String.eqb (hex (ev_PubKey ev)) (bp_ServicePubkey r) && isBackupRunRefusedStatusEvent ev &&
      tag_is ev "d" (private_coordinate r) && refusal_bound r ev &&
      bound_to (lg_statusEvents (db_ledger db)) (bp_StatusEventID r) (bp_IntentID r)
  end.

(** A staged refusal has its signed outbox entry. *)
Definition staged_refusal_ok (db : DB) (r : BackupRunPending) : bool :=
  match id_from_hex (bp_StatusEventID r) with
  | None => false
  | Some id =>
      String.eqb (bp_State r) BackupRunRefusedState &&
      match entries db !! id ≫= unmarshal with
      | None => false
      | Some e =>
          let ev := oe_Event e in
          String.eqb (ev_ID ev) id && String.eqb (oe_Target e) (bp_StatusTarget r) &&
          String.eqb (hex (ev_PubKey ev)) (bp_ServicePubkey r) && CheckID ev && VerifySignature ev &&
          oneBackupRunTag (ev_Tags ev) "d" (private_coordinate r) && refusal_bound r ev &&
          bound_to (lg_statusEvents (db_ledger db)) (bp_StatusEventID r) (bp_IntentID r)
      end
  end.

Definition GetBackupRunPending (intentID coordinate requestEventID : string) (o : Outbox) :
    result OutboxError (option BackupRunPending) :=
  check! negb (String.eqb intentID "") && negb (String.eqb coordinate "") && negb (String.eqb requestEventID "")
    else ErrLedgerRequest in
  let db := ob_db o in
  let l := db_ledger db in
  match lg_pending l !! intentID with
  | Some raw =>
      let! r := of_option ErrDecode (unmarshal raw) in
      check! validRetainedBackupRunIdentity r && String.eqb (bp_IntentID r) intentID &&
             String.eqb (bp_Coordinate r) coordinate && String.eqb (hex (ev_ID (bp_RequestEvent r))) requestEventID &&
             bound_to (lg_pendingCoords l) coordinate intentID && bound_to (lg_pendingEvents l) requestEventID intentID
        else ErrLedgerConflict in
      check! (if bp_StatusDelivered r then delivered_refusal_ok db r
              else String.eqb (bp_StatusEventID r) "" || staged_refusal_ok db r) else ErrLedgerProof in
      Ok (Some r)
  | None =>
      check! negb (bool_decide (is_Some (lg_pendingCoords l !! coordinate))) &&
             negb (bool_decide (is_Some (lg_pendingEvents l !! requestEventID))) else ErrLedgerConflict in
      Ok None
  end.

(** The loop of [ListBackupRunPendingDue]: the due records, the key of the
    last one, the first future deadline met, and the keys left. *)
Fixpoint due_loop (m : gmap string (row BackupRunPending)) (now : Z) (limit : nat) (keys : list string)
    (records : list BackupRunPending) (next : string) :
    result OutboxError (list BackupRunPending * string * option Z * list string) :=
  match keys, limit with
  | [], _ | _, O => Ok (records, next, None, keys)
  | key :: keys', S limit' =>
      check! Nat.leb 9 (String.length key) else ErrLedgerInconsistent in
      let at_ := backupRunDueAt key in
      if time_after at_ now then Ok (records, next, Some at_, keys)
      else
        let intentID := drop_bytes 8 key in
        let! r := of_option ErrLedgerInconsistent (m !! intentID ≫= unmarshal) in
        check! String.eqb (bp_State r) BackupRunPendingState && String.eqb (bp_IntentID r) intentID &&
               String.eqb (backupRunDueKey r) key else ErrLedgerInconsistent in
        due_loop m now limit' keys' (records ++ [r]) key
  end.

Definition ListBackupRunPendingDue (after : string) (now : Z) (limit : Z) (o : Outbox) :
    result OutboxError (list BackupRunPending * string * Z) :=
  let l := db_ledger (ob_db o) in
  let keys := seek_after after (index_keys (lg_due l)) in
  let! ' (records, next, wake, rest) := due_loop (lg_pending l) now (scan_limit limit) keys [] "" in
  match wake with
  | Some at_ => Ok (records, next, at_)
  | None =>
      match rest with
      | [] => Ok (records, ""%string, zero_time)
      | key :: _ =>
          check! Nat.leb 9 (String.length key) else ErrLedgerInconsistent in
          if time_after (backupRunDueAt key) now then Ok (records, ""%string, backupRunDueAt key)
          else Ok (records, next, zero_time)
      end
  end.

(** The rows of a page of refusals, with whether one was inconsistent. *)
Fixpoint scan_refusals (m : gmap string (row BackupRunPending)) (keys : list string) : list BackupRunPending * bool :=
  match keys with
  | [] => ([], false)
  | key :: keys' =>
      let (records, bad) := scan_refusals m keys' in
      match m !! key ≫= unmarshal with
      | None => (records, true)
      | Some r =>
          if negb (String.eqb (bp_State r) BackupRunRefusedState) || negb (String.eqb (bp_StatusEventID r) "")
          then (records, true) else (r :: records, bad)
      end
  end.

Definition ListBackupRunRefusalsNeedingStatus (after : string) (limit : Z) (o : Outbox) :
    list BackupRunPending * string * result OutboxError unit :=
  let l := db_ledger (ob_db o) in
  let keys := seek_after after (index_keys (lg_refusals l)) in
  let n := scan_limit limit in
  let (records, bad) := scan_refusals (lg_pending l) (take n keys) in
  (records, scan_next n keys, require (negb bad) ErrDecode).

(** ** Attempts and refusal *)

(** The record of request [requestEventID], as both writers load it. *)
Definition load_pending (intentID requestEventID : string) (db : DB) : result OutboxError BackupRunPending :=
  let! r := of_option ErrLedgerUnavailable (lg_pending (db_ledger db) !! intentID ≫= unmarshal) in
  check! String.eqb (hex (ev_ID (bp_RequestEvent r))) requestEventID else ErrLedgerUnavailable in
  Ok r.

(** Still undecided: pending, and its coordinate not admitted. *)
Definition undecided (r : BackupRunPending) (db : DB) : bool :=
  String.eqb (bp_State r) BackupRunPendingState &&
  negb (bool_decide (is_Some (lg_coords (db_ledger db) !! bp_Coordinate r))).

(** The record after one more attempt at [now], to be retried at [next]. *)
Definition attempted (r : BackupRunPending) (now next : Z) (reason : string) : BackupRunPending :=
  let attempts := to_i64 (bp_Attempts r + 1) in
  let with_ next state := pending_with r (bp_RequestEvent r) next attempts reason state
                            (bp_StatusEventID r) (bp_StatusTarget r) in
  if negb (time_before now (bp_ExpiresAt r)) then with_ zero_time BackupRunRefusedState
  else if time_is_zero next || time_after next (bp_ExpiresAt r) then with_ (bp_ExpiresAt r) (bp_State r)
  else with_ next (bp_State r).

Definition recordAttempt_tx (intentID requestEventID : string) (now next : Z) (reason : string) (db : DB) :
    result OutboxError DB :=
  let! r := load_pending intentID requestEventID db in
  if negb (undecided r db) then Ok db
  else
    let oldDue := backupRunDueKey r in
    let r := attempted r now next reason in
    let db := del_due oldDue (put_lpending intentID r db) in
    if String.eqb (bp_State r) BackupRunRefusedState then Ok (put_refusal intentID db)
    else Ok (put_due (backupRunDueKey r) db).

Definition RecordBackupRunPendingAttempt (intentID requestEventID : string) (now next : Z) (reason : string)
    (o : Outbox) : result OutboxError Outbox :=
  check! negb (ob_readOnly o) else ErrReadOnly in
  let! db := recordAttempt_tx intentID requestEventID now next reason (ob_db o) in
  Ok (set_db o db).

Definition refused (r : BackupRunPending) (reason : string) : BackupRunPending :=
  pending_with r (bp_RequestEvent r) zero_time (bp_Attempts r) reason BackupRunRefusedState
    (bp_StatusEventID r) (bp_StatusTarget r).

Definition refuse_tx (intentID requestEventID reason : string) (db : DB) : result OutboxError DB :=
  let! r := load_pending intentID requestEventID db in
  if negb (undecided r db) then Ok db
  else
    let db := del_due (backupRunDueKey r) (put_lpending intentID (refused r reason) db) in
    Ok (put_refusal intentID db).

Definition RefuseBackupRunPending (intentID requestEventID reason : string) (o : Outbox) :
    result OutboxError Outbox :=
  check! negb (ob_readOnly o) else ErrReadOnly in
  let! db := refuse_tx intentID requestEventID reason (ob_db o) in
  Ok (set_db o db).

(** ** The refused status *)

Definition refused_status_event (r : BackupRunPending) (ev : Event) : bool :=
  String.eqb (bp_State r) BackupRunRefusedState && validBackupRunPendingIdentity r &&
  CheckID ev && VerifySignature ev && String.eqb (hex (ev_PubKey ev)) (bp_ServicePubkey r) &&
  isBackupRunRefusedStatusEvent ev && oneBackupRunTag (ev_Tags ev) "d" (private_coordinate r) &&
  oneBackupRunTag (ev_Tags ev) "status" "rejected" && oneBackupRunTag (ev_Tags ev) "domain" "intent" &&
  oneBackupRunTag (ev_Tags ev) "t" "intent-status" && oneBackupRunTag (ev_Tags ev) "intent_id" (bp_IntentID r) &&
  oneBackupRunTag (ev_Tags ev) "p" (bp_Actor r) &&
  oneBackupRunTag (ev_Tags ev) "e" (hex (ev_ID (bp_RequestEvent r))) &&
  negb (hasBackupRunTag (ev_Tags ev) "expiration").

Definition refused_status_content (r : BackupRunPending) (ev : Event) : bool :=
  match decode_refused (ev_Content ev) with
  | None => false
  | Some c =>
      String.eqb (sc_IntentID c) (bp_IntentID r) && String.eqb (sc_Coordinate c) "" &&
      String.eqb (sc_Result c) "rejected" && String.eqb (sc_Reason c) "access_denied" && negb (sc_has_coordinate c)
  end.

Definition stageRefused_tx (now : Z) (record : BackupRunPending) (ev : Event) (target : string) :
    tx (string * bool) := λ db,
  let! current := of_option ErrLedgerUnavailable (lg_pending (db_ledger db) !! bp_IntentID record ≫= unmarshal) in
  check! String.eqb (bp_State current) BackupRunRefusedState &&
         String.eqb (bp_Coordinate current) (bp_Coordinate record) &&
         String.eqb (ev_ID (bp_RequestEvent current)) (ev_ID (bp_RequestEvent record)) &&
         String.eqb (bp_Actor current) (bp_Actor record) &&
         String.eqb (bp_ServicePubkey current) (bp_ServicePubkey record) &&
         String.eqb (bp_LastFailure current) (bp_LastFailure record) &&
         negb (bool_decide (is_Some (lg_coords (db_ledger db) !! bp_Coordinate record))) else ErrLedgerConflict in
  if negb (String.eqb (bp_StatusEventID current) "") then Ok (bp_StatusEventID current, false, db)
  else
    let! floor := backupRunStatusTimestampFloor
                    (backupRunStatusClockKey (ev_PubKey ev) (bp_Actor current) (bp_Coordinate current)) db in
    let! privateFloor := backupRunStatusTimestampFloor (default ""%string (backupRunStatusEventClockKey ev)) db in
    check! Z.max floor privateFloor <? ev_CreatedAt ev else ErrClockNotNewer in
    check! negb (bool_decide (is_Some (entries db !! ev_ID ev))) else ErrEventHeld in
    let db := put_entry (ev_ID ev) (status_entry now ev target) db in
    let db := put_pending (pendingKey target now (ev_ID ev)) db in
    let db := put_coordinate (outboxCoordinateKey target ev) db in
    let db := put_statusEvent (hex (ev_ID ev)) (bp_IntentID current) db in
    let! db := recordBackupRunStatusTimestamp ev db in
    let! db := recordBackupRunCoordinateStatusTimestamp ev (bp_Coordinate current) db in
    let staged := compactBackupRunPending
                    (pending_with current (bp_RequestEvent current) (bp_NextAttemptAt current) (bp_Attempts current)
                       (bp_LastFailure current) (bp_State current) (hex (ev_ID ev)) target) in
    let db := put_lpending (bp_IntentID staged) staged db in
    Ok (bp_StatusEventID staged, true, del_refusal (bp_IntentID staged) db).

Definition StageBackupRunRefusedStatus (now : Z) (record : BackupRunPending) (ev : Event) (target : string)
    (o : Outbox) : result OutboxError (string * bool * Outbox) :=
  check! negb (ob_readOnly o) else ErrReadOnly in
  check! refused_status_event record ev else ErrStatusCorrelation in
  check! refused_status_content record ev else ErrStatusContent in
  let! ' (statusID, inserted, db) := stageRefused_tx now record ev target (ob_db o) in
  Ok (statusID, inserted, set_db o db).
(** ** Compaction *)

(** The terminal status of this run, proved delivered. *)
Definition terminal_status_ok (db : DB) (r : BackupRunPending) (intentID coordinate requestEventID : string)
    (terminal : Event) (target : string) : bool :=
  proof_valid db terminal target && (ev_Kind terminal =? kindStatus) &&
  String.eqb (hex (ev_PubKey terminal)) (bp_ServicePubkey r) &&
  oneBackupRunTag (ev_Tags terminal) "d" (IntentStatusCoordinate (bp_Actor r) coordinate) &&
  oneBackupRunTag (ev_Tags terminal) "e" requestEventID &&
  oneBackupRunTag (ev_Tags terminal) "intent_id" intentID && oneBackupRunTag (ev_Tags terminal) "p" (bp_Actor r) &&
  (oneBackupRunTag (ev_Tags terminal) "status" "success" || oneBackupRunTag (ev_Tags terminal) "status" "error").

Definition compact_tx (intentID coordinate requestEventID : string) (terminal : Event) (target : string) (db : DB) :
    result OutboxError DB :=
  let l := db_ledger db in
  let! r := of_option ErrLedgerUnavailable (lg_pending l !! intentID ≫= unmarshal) in
  check! validRetainedBackupRunIdentity r && String.eqb (bp_State r) BackupRunAcceptedState &&
         String.eqb (bp_Coordinate r) coordinate && String.eqb (hex (ev_ID (bp_RequestEvent r))) requestEventID &&
         bound_to (lg_pendingCoords l) coordinate intentID && bound_to (lg_pendingEvents l) requestEventID intentID
    else ErrLedgerUnavailable in
  let! a := of_option ErrLedgerProof (lg_intents l !! intentID ≫= unmarshal) in
  check! String.eqb (ba_Coordinate a) coordinate && String.eqb (ba_RequestEventID a) requestEventID &&
         ba_StatusDelivered a && String.eqb (ba_StatusOutcome a) "accepted" else ErrLedgerProof in
  check! terminal_status_ok db r intentID coordinate requestEventID terminal target else ErrLedgerProof in
  if ev_Kind (bp_RequestEvent r) =? 0 then Ok db
  else
    let r := compactBackupRunPending r in
    Ok (put_lpending (bp_IntentID r) r db).

(** [hold n] is the [n]th load of the evidence-hold flag. *)
Definition CompactBackupRunAccepted (hold : nat → bool) (intentID coordinate requestEventID : string)
    (terminal : Event) (target : string) (o : Outbox) : result OutboxError Outbox :=
  if hold 0%nat then Ok o
  else
    check! negb (ob_readOnly o) && negb (String.eqb (ev_ID terminal) ZeroID) && negb (String.eqb target "")
      else ErrReadOnly in
    if hold 1%nat then Ok o
    else
      let! db := compact_tx intentID coordinate requestEventID terminal target (ob_db o) in
      Ok (set_db o db).

(** ** Opening an existing file *)

(** One row of the pending bucket as the upgrade indexes it. *)
Definition index_pending_row (key : string) (raw : row BackupRunPending) (db : DB) : result OutboxError DB :=
  let! r := of_option ErrDecode (unmarshal raw) in
  check! String.eqb (bp_IntentID r) key else ErrLedgerInconsistent in
  if String.eqb (bp_State r) BackupRunPendingState then Ok (put_due (backupRunDueKey r) db)
  else if String.eqb (bp_State r) BackupRunRefusedState then
    if String.eqb (bp_StatusEventID r) "" then Ok (put_refusal key db)
    else
      let r := compactBackupRunPending r in
      Ok (put_lpending (bp_IntentID r) r db)
  else if String.eqb (bp_State r) BackupRunAcceptedState then Ok db
  else Err ErrUnknownState.

(** A cursor walk over the rows present when it starts. *)
Fixpoint index_pending_rows (m : gmap string (row BackupRunPending)) (keys : list string) (db : DB) :
    result OutboxError DB :=
  match keys with
  | [] => Ok db
  | key :: keys' =>
      match m !! key with
      | None => index_pending_rows m keys' db
      | Some raw => let! db := index_pending_row key raw db in index_pending_rows m keys' db
      end
  end.

(** [indexed]: both index buckets carry the sequence number 1 an earlier
    upgrade left. *)
Definition indexBackupRunPending (indexed : bool) (db : DB) : result OutboxError DB :=
  if indexed then Ok db
  else
    let m := lg_pending (db_ledger db) in
    index_pending_rows m (bucket_keys m) db.

Fixpoint index_entries (f : OutboxEntry → DB → result OutboxError DB) (m : gmap string (row OutboxEntry))
    (keys : list string) (db : DB) : result OutboxError DB :=
  match keys with
  | [] => Ok db
  | key :: keys' =>
      match m !! key with
      | None => index_entries f m keys' db
      | Some raw =>
          let! e := of_option ErrDecode (unmarshal raw) in
          let! db := f e db in
          index_entries f m keys' db
      end
  end.

Definition backupRunStatusClockReady : string := "index-ready".

(** The transaction of [openOutboxDB], on a file whose missing buckets have
    been created empty. *)
Definition openOutboxDB_tx (indexed : bool) (db : DB) : result OutboxError DB :=
  let! db := indexBackupRunPending indexed db in
  let! db :=
    match lg_statusClock (db_ledger db) !! backupRunStatusClockReady with
    | Some _ => Ok db
    | None =>
        let! db := index_entries (λ e, recordBackupRunStatusTimestamp (oe_Event e))
                     (entries db) (bucket_keys (entries db)) db in
        Ok (put_clock backupRunStatusClockReady (String (byte_of_Z 1) "") db)
    end in
  if bool_decide (outboxCoordinatesReady ∈ tb_coordinates (db_tables db)) then Ok db
  else
    let! db := index_entries (λ e db, Ok (put_coordinate (outboxCoordinateKey (oe_Target e) (oe_Event e)) db))
                 (entries db) (bucket_keys (entries db)) db in
    Ok (put_coordinate (Some outboxCoordinatesReady) db).
End pending.
