(* ===== verification/OutboxInv.v ===== *)
(** * The invariant of the outbox tables

    What the buckets of the outbox satisfy between transactions: every row of
    the entries bucket decodes and is filed under its event's id, and each
    index bucket holds exactly the keys its entries induce.  The writes of the
    operations are two: replacing the row of an id ([tables_inv_put]) and
    removing it ([tables_inv_del]), each with the index updates they call
    for. *)

From Stdlib Require Import ZArith Lia Bool.
From stdpp Require Import base tactics decidable option list numbers strings gmap.
From S2P Require Import Prelude Bytes Nostr EventID Bolt OutboxData OutboxStore Outbox.

(** ** Well-formed values *)

(** Instants whose [UnixNano] is non-negative, 1970 to 2262: the range in which
    the big-endian nanoseconds of the keys sort as the instants do. *)
Definition instant_ok (t : Z) : Prop := 0 ≤ t < two63.

(** An entry filed under [id]. *)
Record entry_ok (id : string) (e : OutboxEntry) : Prop := {
  eo_id : ev_ID (oe_Event e) = id;
  eo_event : wf_event (oe_Event e);
  eo_nul : contains_nul (oe_Target e) = false;
  eo_target : slen (oe_Target e) < two32;
  eo_enqueued : instant_ok (oe_EnqueuedAt e);
  eo_state : (oe_State e = OutboxPending ∧ oe_SettledAt e = zero_time) ∨
             ((oe_State e = OutboxPublished ∨ oe_State e = OutboxFailed) ∧ instant_ok (oe_SettledAt e));
}.

(** ** Indexes *)

Definition pending_index (id : string) (e : OutboxEntry) : option string :=
  if String.eqb (oe_State e) OutboxPending then Some (pendingKey (oe_Target e) (oe_EnqueuedAt e) id) else None.

Definition settled_index (state id : string) (e : OutboxEntry) : option string :=
  if String.eqb (oe_State e) state then Some (settledKey (oe_SettledAt e) id) else None.

Definition coordinate_index (id : string) (e : OutboxEntry) : option string :=
  outboxCoordinateKey (oe_Target e) (oe_Event e).

(** [ix] holds the keys in [extra] and those [key] gives the rows. *)
Definition index_of (extra : gset string) (key : string → OutboxEntry → option string)
    (ents : gmap string (row OutboxEntry)) (ix : gset string) : Prop :=
  ∀ k, k ∈ ix ↔ k ∈ extra ∨ ∃ id e, ents !! id = Some (Row e) ∧ key id e = Some k.

Record tables_inv (t : Tables) : Prop := {
  ti_rows : ∀ id r, tb_entries t !! id = Some r → ∃ e, r = Row e ∧ entry_ok id e;
  ti_pending : index_of ∅ pending_index (tb_entries t) (tb_pending t);
  ti_published : index_of ∅ (settled_index OutboxPublished) (tb_entries t) (tb_published t);
  ti_failed : index_of ∅ (settled_index OutboxFailed) (tb_entries t) (tb_failed t);
  ti_coordinates : index_of {[outboxCoordinatesReady]} coordinate_index (tb_entries t) (tb_coordinates t);
}.

(** ** Keys *)

Lemma id_suffix_app a id : String.length id = 32%nat → id_suffix (a +:+ id) = id.
Proof.
  intros Hid. unfold id_suffix. rewrite length_app_string, Hid.
  replace (String.length a + 32 - 32)%nat with (String.length a) by lia. apply drop_bytes_app.
Qed.

Lemma pendingKey_app target at_ id :
  pendingKey target at_ id = (target +:+ String nul (be64 (to_u64 (unix_nano at_)))) +:+ id.
Proof. unfold pendingKey. by rewrite <-app_string_assoc. Qed.

Lemma id_suffix_pendingKey target at_ id : String.length id = 32%nat → id_suffix (pendingKey target at_ id) = id.
Proof. intros. rewrite pendingKey_app. by apply id_suffix_app. Qed.

Lemma drop_settledKey at_ id : drop_bytes 8 (settledKey at_ id) = id.
Proof. apply (drop_bytes_app (be64 (to_u64 (unix_nano at_)))). Qed.

Lemma outboxCoordinateKey_Some target ev k :
  outboxCoordinateKey target ev = Some k ↔
    IsAddressable (ev_Kind ev) = true ∧ has_prefix (outboxTag (ev_Tags ev) "d") "artifact:sbom-package:" = true ∧
    k = outboxCoordinatePrefix target (ev_Kind ev) (ev_PubKey ev) (outboxTag (ev_Tags ev) "d")
          +:+ be64 (newest_first (ev_CreatedAt ev)) +:+ ev_ID ev.
Proof.
  unfold outboxCoordinateKey. destruct (IsAddressable _), (has_prefix _ _); simpl; naive_solver.
Qed.

Lemma id_suffix_coordinateKey target ev k :
  String.length (ev_ID ev) = 32%nat → outboxCoordinateKey target ev = Some k → id_suffix k = ev_ID ev.
Proof.
  intros Hid (_ & _ & ->)%outboxCoordinateKey_Some. rewrite app_string_assoc. by apply id_suffix_app.
Qed.

(** The marker of the coordinate index is shorter than every key in it. *)
Lemma coordinateKey_not_ready target ev k : outboxCoordinateKey target ev = Some k → k ≠ outboxCoordinatesReady.
Proof.
  intros (_ & Hd%has_prefix_spec & ->)%outboxCoordinateKey_Some. destruct Hd as [d Hd].
  intros H%(f_equal String.length). revert H. unfold outboxCoordinatePrefix. rewrite Hd, !length_app_string.
  unfold be32, be64. rewrite !length_be. simpl. lia.
Qed.

(** What recovers the id from the keys of an index. *)
Definition id_key (key : string → OutboxEntry → option string) (id_of : string → string) : Prop :=
  ∀ id e k, entry_ok id e → key id e = Some k → id_of k = id.

Lemma pending_index_id : id_key pending_index id_suffix.
Proof.
  intros id e k He. unfold pending_index. case_match; intros [= <-].
  apply id_suffix_pendingKey. destruct He as [<- [] ? ? ?]. done.
Qed.

Lemma settled_index_id state : id_key (settled_index state) (drop_bytes 8).
Proof. intros id e k He. unfold settled_index. case_match; intros [= <-]. apply drop_settledKey. Qed.

Lemma coordinate_index_id : id_key coordinate_index id_suffix.
Proof.
  intros id e k He Hk. destruct He as [<- [] ? ? ? ?]. by eapply id_suffix_coordinateKey.
Qed.

#[export] Hint Resolve pending_index_id settled_index_id coordinate_index_id : outbox.

(** ** Index updates *)

Definition row_key (key : string → OutboxEntry → option string) (id : string) (r : option (row OutboxEntry)) :
    option string :=
  match r with Some (Row e) => key id e | _ => None end.

Section index.
Context (key : string → OutboxEntry → option string) (id_of : string → string) (Hid : id_key key id_of).
Context (ents : gmap string (row OutboxEntry)).
Context (Hrows : ∀ id r, ents !! id = Some r → ∃ e, r = Row e ∧ entry_ok id e).

Context (extra ix : gset string) (Hix : index_of extra key ents ix).
Context (Hextra : ∀ id e k, ents !! id = Some (Row e) → key id e = Some k → k ∉ extra).

(** Dropping the old key of [id] leaves the keys of the other rows. *)
Lemma index_of_minus id k :
  (k ∈ ix ∧ row_key key id (ents !! id) ≠ Some k) ↔
  k ∈ extra ∨ ∃ id' e, id' ≠ id ∧ ents !! id' = Some (Row e) ∧ key id' e = Some k.
Proof.
  split.
  - intros [[Hk|(id' & e & He & Hk)]%Hix Hne]; [by left|right].
    exists id', e. split_and!; [|done..]. intros ->. by rewrite He in Hne.
  - intros Hk. split.
    { apply Hix. destruct Hk as [|(id' & e & _ & ? & ?)]; [by left|right; eauto]. }
    destruct (ents !! id) as [[e'|]|] eqn:E; simpl; [|done..]. intros Hk'.
    destruct Hk as [Hk|(id' & e & Hne & He & Hk)]; [by eapply Hextra|]. apply Hne.
    apply Hrows in E as (e'' & [= <-] & Ho'). apply Hrows in He as (e'' & [= <-] & Ho).
    by rewrite <-(Hid _ _ _ Ho Hk), <-(Hid _ _ _ Ho' Hk').
Qed.

Lemma index_of_put id e ix' :
  (∀ k, k ∈ ix' ↔ (k ∈ ix ∧ row_key key id (ents !! id) ≠ Some k) ∨ key id e = Some k) →
  index_of extra key (<[id := Row e]> ents) ix'.
Proof.
  intros Hix' k. rewrite Hix', index_of_minus. split.
  - intros [[Hk|(id' & e' & Hne & He & Hk)]|Hk]; [by left|right; exists id', e'|right; exists id, e].
    + by rewrite lookup_insert_ne.
    + by rewrite lookup_insert_eq.
  - intros [Hk|(id' & e' & He & Hk)]; [by left; left|].
    apply lookup_insert_Some in He as [[<- [= <-]]|[Hne He]]; [by right|left; right; eauto 10].
Qed.

Lemma index_of_del id ix' :
  (∀ k, k ∈ ix' ↔ k ∈ ix ∧ row_key key id (ents !! id) ≠ Some k) →
  index_of extra key (delete id ents) ix'.
Proof.
  intros Hix' k. rewrite Hix', index_of_minus. f_equiv. split.
  - intros (id' & e' & Hne & He & Hk). exists id', e'. by rewrite lookup_delete_ne.
  - intros (id' & e' & He & Hk). apply lookup_delete_Some in He as [Hne He]. eauto 10.
Qed.
End index.

Lemma coordinate_index_extra t : tables_inv t → ∀ id e k,
  tb_entries t !! id = Some (Row e) → coordinate_index id e = Some k → k ∉ ({[outboxCoordinatesReady]} : gset string).
Proof. intros _ id e k _ Hk%coordinateKey_not_ready. set_solver. Qed.

(** Replacing (or adding) the row of [id]. *)
Lemma tables_inv_put t t' id e :
  tables_inv t → entry_ok id e → tb_entries t' = <[id := Row e]> (tb_entries t) →
  (∀ k, k ∈ tb_pending t' ↔
     (k ∈ tb_pending t ∧ row_key pending_index id (tb_entries t !! id) ≠ Some k) ∨ pending_index id e = Some k) →
  (∀ k, k ∈ tb_published t' ↔
     (k ∈ tb_published t ∧ row_key (settled_index OutboxPublished) id (tb_entries t !! id) ≠ Some k) ∨
     settled_index OutboxPublished id e = Some k) →
  (∀ k, k ∈ tb_failed t' ↔
     (k ∈ tb_failed t ∧ row_key (settled_index OutboxFailed) id (tb_entries t !! id) ≠ Some k) ∨
     settled_index OutboxFailed id e = Some k) →
  (∀ k, k ∈ tb_coordinates t' ↔
     (k ∈ tb_coordinates t ∧ row_key coordinate_index id (tb_entries t !! id) ≠ Some k) ∨
     coordinate_index id e = Some k) →
  tables_inv t'.
Proof.
  intros Ht He Hent Hp Hpub Hf Hc. pose proof (coordinate_index_extra t Ht). destruct Ht as [Hr Hip Hipub Hif Hic].
  split; rewrite Hent; [|eapply index_of_put; eauto with outbox; set_solver..].
  intros id' r [[<- <-]|[_ Hr']]%lookup_insert_Some; eauto.
Qed.

(** Removing the row of [id]. *)
Lemma tables_inv_del t t' id :
  tables_inv t → tb_entries t' = delete id (tb_entries t) →
  (∀ k, k ∈ tb_pending t' ↔ k ∈ tb_pending t ∧ row_key pending_index id (tb_entries t !! id) ≠ Some k) →
  (∀ k, k ∈ tb_published t' ↔
     k ∈ tb_published t ∧ row_key (settled_index OutboxPublished) id (tb_entries t !! id) ≠ Some k) →
  (∀ k, k ∈ tb_failed t' ↔
     k ∈ tb_failed t ∧ row_key (settled_index OutboxFailed) id (tb_entries t !! id) ≠ Some k) →
  (∀ k, k ∈ tb_coordinates t' ↔
     k ∈ tb_coordinates t ∧ row_key coordinate_index id (tb_entries t !! id) ≠ Some k) →
  tables_inv t'.
Proof.
  intros Ht Hent Hp Hpub Hf Hc. pose proof (coordinate_index_extra t Ht). destruct Ht as [Hr Hip Hipub Hif Hic].
  split; rewrite Hent; [|eapply index_of_del; eauto with outbox; set_solver..].
  intros id' r [_ Hr']%lookup_delete_Some; eauto.
Qed.

Lemma tables_inv_empty : tables_inv empty_tables.
Proof.
  split; simpl; [done|intros k; split; [set_solver|]..].
  all: intros [?|(id & e & He & _)]; [done|by rewrite lookup_empty in He].
Qed.

(** * Outbox operations preserve the table invariant

    One lemma per transaction of [Outbox.v]. *)

(** ** Writes that leave the tables alone *)

(** The two files have the same entries and indexes. *)
Definition same_tables (db db' : DB) : Prop :=
  ∃ m, db_tables db' = set_proofs m (db_tables db).

#[export] Instance same_tables_refl : Reflexive same_tables.
Proof. intros [[] ?]. by eexists. Qed.
#[export] Instance same_tables_trans : Transitive same_tables.
Proof. intros [[] ?] [[] ?] [[] ?] [m1 [= -> -> -> -> -> ->]] [m2 [= -> -> -> -> -> ->]]. by eexists. Qed.

Lemma same_tables_entries db db' : same_tables db db' → entries db' = entries db.
Proof. destruct db as [[] ?], db' as [[] ?]. by intros [m [=]]. Qed.

Lemma same_tables_inv db db' : same_tables db db' → tables_inv (db_tables db) → tables_inv (db_tables db').
Proof. intros [m ->] []. by split. Qed.

Lemma same_tables_ledger f db : same_tables db (upd_ledger f db).
Proof. destruct db as [[] ?]. by eexists. Qed.

Lemma same_tables_proof id p db : same_tables db (put_proof id p db).
Proof. by eexists. Qed.

#[export] Hint Extern 0 (same_tables _ _) => reflexivity : outbox.
#[export] Hint Extern 1 (same_tables _ _) => apply same_tables_ledger : outbox.
#[export] Hint Extern 1 (same_tables _ _) => apply same_tables_proof : outbox.

(** Decides a computation one branch at a time. *)
Ltac step_branches :=
  repeat (case_match; inv_ok; simplify_eq/=; try done).

Section facts.
Context `{NostrPrims}.

Lemma raise_clock_tables key ev db db' : raise_clock key ev db = Ok db' → same_tables db db'.
Proof. unfold raise_clock. intros. inv_ok. case_match; inv_ok; subst; eauto with outbox. Qed.

Lemma recordStatus_tables ev db db' : recordBackupRunStatusTimestamp ev db = Ok db' → same_tables db db'.
Proof.
  unfold recordBackupRunStatusTimestamp. case_match; [apply raise_clock_tables|intros; inv_ok; subst; eauto with outbox].
Qed.

Lemma recordCoordinate_tables ev c db db' :
  recordBackupRunCoordinateStatusTimestamp ev c db = Ok db' → same_tables db db'.
Proof. unfold recordBackupRunCoordinateStatusTimestamp. case_match; [done|apply raise_clock_tables]. Qed.

Lemma recordPublisherProof_tables e round at_ b db db' :
  recordPublisherProof e round at_ b db = Ok db' → same_tables db db'.
Proof. unfold recordPublisherProof. intros. step_branches; eauto with outbox. Qed.

Lemma updateAdmission_tables e db db' : updateBackupRunAdmissionDelivery e db = Ok db' → same_tables db db'.
Proof.
  unfold updateBackupRunAdmissionDelivery. intros. case_match; inv_ok; subst; [|eauto with outbox].
  step_branches; eauto with outbox.
Qed.

Lemma updateStatus_tables e db db' : updateBackupRunStatusDelivery e db = Ok db' → same_tables db db'.
Proof.
  unfold updateBackupRunStatusDelivery, updateBackupRunRefusalDelivery. intros.
  step_branches; eauto with outbox.
Qed.

(** ** Index membership after a write *)

(** An update that does not change the key of [id] leaves the index. *)
Lemma index_same extra key ents ix id e e' :
  index_of extra key ents ix → ents !! id = Some (Row e) → key id e = key id e' →
  ∀ k, k ∈ ix ↔ (k ∈ ix ∧ row_key key id (ents !! id) ≠ Some k) ∨ key id e' = Some k.
Proof.
  intros Hix He Hk k. rewrite He. simpl. rewrite Hk. split.
  - intros Hin. destruct (decide (key id e' = Some k)); eauto.
  - intros [[]|Hk']; [done|]. apply Hix. right. exists id, e. by rewrite Hk.
Qed.

Lemma in_settled state k k' t :
  (k ∈ settledBucket state (set_settledBucket state ({[k']} ∪ settledBucket state t) t) ↔
   k = k' ∨ k ∈ settledBucket state t).
Proof. unfold settledBucket, set_settledBucket. case_match; simpl; set_solver. Qed.

Lemma OutboxPublished_not_failed : String.eqb OutboxPublished OutboxFailed = false.
Proof. done. Qed.

(** ** Enqueue *)

Lemma insert_entry_inv db id e k c :
  tables_inv (db_tables db) → entries db !! id = None → entry_ok id e → oe_State e = OutboxPending →
  k = pendingKey (oe_Target e) (oe_EnqueuedAt e) id → c = outboxCoordinateKey (oe_Target e) (oe_Event e) →
  tables_inv (db_tables (put_coordinate c (put_pending k (put_entry id e db)))).
Proof.
  intros Ht Hno He Hs -> Hc. unfold entries in Hno.
  apply (tables_inv_put _ _ id e Ht He); unfold row_key; rewrite ?Hno.
  - by destruct c.
  - intros k. unfold pending_index. rewrite Hs. simpl. destruct c; simpl; set_solver.
  - intros k. unfold settled_index. rewrite Hs. simpl. destruct c; simpl; naive_solver.
  - intros k. unfold settled_index. rewrite Hs. simpl. destruct c; simpl; naive_solver.
  - intros k. unfold coordinate_index. rewrite <-Hc. destruct c; simpl; set_solver.
Qed.

(** Ledger writes commute with table writes. *)
Lemma tables_upd f db db' : same_tables db db' →
  tables_inv (f (db_tables db)) → (∀ m t, f (set_proofs m t) = set_proofs m (f t)) → tables_inv (f (db_tables db')).
Proof. intros [m ->] Ht Hf. rewrite Hf. destruct Ht. by split. Qed.

Lemma enqueue_tx_inv e db b db' :
  tables_inv (db_tables db) → entry_ok (ev_ID (oe_Event e)) e → oe_State e = OutboxPending →
  enqueue_tx e db = Ok (b, db') → tables_inv (db_tables db').
Proof.
  intros Ht He Hs. unfold enqueue_tx. case_match eqn:E; intros; inv_ok; simplify_eq; [done|].
  apply recordStatus_tables in Hok.
  refine (tables_upd (λ t, db_tables (put_coordinate _ (put_pending _ (mkDB t (db_ledger db))))) _ _ Hok _ _).
  - by apply (insert_entry_inv db).
  - intros m t. destruct (outboxCoordinateKey _ _); by destruct t.
Qed.

(** ** Delivery rounds *)

Lemma merge_round_ok id e round : entry_ok id e → entry_ok id (merge_round e round).
Proof. intros []. by split. Qed.

Lemma update_entry_inv db id e e' :
  tables_inv (db_tables db) → entries db !! id = Some (Row e) → entry_ok id e' →
  oe_Event e' = oe_Event e → oe_Target e' = oe_Target e → oe_EnqueuedAt e' = oe_EnqueuedAt e →
  oe_State e' = oe_State e → oe_SettledAt e' = oe_SettledAt e →
  tables_inv (db_tables (put_entry id e' db)).
Proof.
  intros Ht He Hok Hev Htg Hat Hst Hset. unfold entries in He.
  apply (tables_inv_put _ _ id e' Ht Hok); [done|..]; destruct Ht; simpl; eapply index_same; try done;
    unfold pending_index, settled_index, coordinate_index; by rewrite ?Hst, ?Hset, ?Hat, ?Htg, ?Hev.
Qed.

(** Moves a pending entry to the bucket of a terminal state. *)
Lemma settle_entry_inv db id e e' state at_ :
  tables_inv (db_tables db) → entries db !! id = Some (Row e) → oe_State e = OutboxPending →
  state = OutboxPublished ∨ state = OutboxFailed → entry_ok id e' →
  oe_Event e' = oe_Event e → oe_Target e' = oe_Target e → oe_State e' = state → oe_SettledAt e' = at_ →
  tables_inv (db_tables (put_entry id e' (put_settled state (settledKey at_ id)
    (del_pending (pendingKey (oe_Target e) (oe_EnqueuedAt e) id) db)))).
Proof.
  intros Ht He Hp Hstate Hok Hev Htg Hst Hset. unfold entries in He.
  apply (tables_inv_put _ _ id e' Ht Hok); unfold row_key; rewrite ?He.
  - by destruct Hstate as [-> | ->].
  - intros k. unfold pending_index. rewrite Hp, Hst. destruct Hstate as [-> | ->]; simpl; set_solver.
  - intros k. unfold settled_index. rewrite Hp, Hst, Hset. destruct Hstate as [-> | ->]; simpl; set_solver.
  - intros k. unfold settled_index. rewrite Hp, Hst, Hset. destruct Hstate as [-> | ->]; simpl; set_solver.
  - intros k. pose proof (index_same _ _ _ _ _ _ e' (ti_coordinates _ Ht) He) as Hi. rewrite He in Hi.
    unfold coordinate_index in *. rewrite Hev, Htg in *. specialize (Hi eq_refl k).
    by destruct Hstate as [-> | ->].
Qed.

(** The terminal states a round can end in. *)
Lemma round_states state :
  String.eqb state OutboxPublished || String.eqb state OutboxFailed = true →
  state = OutboxPublished ∨ state = OutboxFailed.
Proof. intros [H1|H1]%orb_true_iff; apply String.eqb_eq in H1; auto. Qed.

Lemma settle_ok id e state at_ :
  entry_ok id e → instant_ok at_ → state = OutboxPublished ∨ state = OutboxFailed → entry_ok id (settle e state at_).
Proof. intros [] Hat Hs. split; simpl; auto. Qed.

(** The instant a round is committed at. *)
Definition round_at (now : Z) (round : OutboxRound) : Z :=
  if time_is_zero (ro_At round) then now else ro_At round.

(** A round on a pending entry: the entry it writes and the file with it. *)
Inductive round_writes (now : Z) (id : string) (round : OutboxRound) (stored : OutboxEntry) (db : DB) :
    OutboxEntry → DB → Prop :=
| round_keeps :
    ro_State round = "" ∨ ro_State round = OutboxPending →
    round_writes now id round stored db (merge_round stored round) (put_entry id (merge_round stored round) db)
| round_settles :
    ro_State round = OutboxPublished ∨ ro_State round = OutboxFailed →
    round_writes now id round stored db (settle (merge_round stored round) (ro_State round) (round_at now round))
      (put_entry id (settle (merge_round stored round) (ro_State round) (round_at now round))
         (put_settled (ro_State round) (settledKey (round_at now round) id)
            (del_pending (pendingKey (oe_Target stored) (oe_EnqueuedAt stored) id) db))).

(** The outcomes of [commitRound]: a settled entry is returned as it is, a
    pending one is merged; the proof and the ledger follow. *)
Lemma commitRound_tx_ok now id round b db e db' :
  commitRound_tx now id round b db = Ok (e, db') →
  ∃ stored, entries db !! id = Some (Row stored) ∧
    (b = false → isProofEligibleForRound db (oe_Event stored) = false) ∧
    (b = true → ro_Target round = oe_Target stored) ∧
    ((oe_State stored ≠ OutboxPending ∧ e = stored ∧
      ∃ db1, recordPublisherProof stored round (round_at now round) b db = Ok db1 ∧
             updateBackupRunStatusDelivery stored db1 = Ok db') ∨
     (oe_State stored = OutboxPending ∧
      ∃ db1 db2 db3, round_writes now id round stored db e db1 ∧
        recordPublisherProof e round (round_at now round) b db1 = Ok db2 ∧
        updateBackupRunAdmissionDelivery e db2 = Ok db3 ∧ updateBackupRunStatusDelivery e db3 = Ok db')).
Proof.
  unfold commitRound_tx. fold (round_at now round). case_match; intros; inv_ok. apply unmarshal_Some in Hok as ->.
  exists v. split; [done|]. split; [by intros ->; destruct (isProofEligibleForRound _ _)|].
  split; [intros ->; bool_facts; simpl in *; by apply String.eqb_eq, negb_false_iff|].
  case_match eqn:Es; inv_ok; simplify_eq; bool_facts.
  { left. split; [by apply String.eqb_neq|]. split; [done|eauto]. }
  right. split; [by apply String.eqb_eq|]. destruct v0 as [e1 db1]. simpl in *. inv_ok. simplify_eq.
  eexists _, _, _. split_and!; [|done..].
  case_match eqn:E1; inv_ok; [simplify_eq|case_match eqn:E2; inv_ok; simplify_eq].
  - constructor. apply orb_true_iff in E1 as [?%String.eqb_eq|?%String.eqb_eq]; auto.
  - constructor. by apply round_states.
Qed.

Lemma round_writes_inv now id round stored db e db' :
  tables_inv (db_tables db) → entries db !! id = Some (Row stored) → oe_State stored = OutboxPending →
  instant_ok (round_at now round) → round_writes now id round stored db e db' → tables_inv (db_tables db').
Proof.
  intros Ht Hid Hp Hat Hw. destruct (ti_rows _ Ht _ _ Hid) as (? & [= <-] & Hok).
  destruct Hw as [Hs|Hs].
  - apply (update_entry_inv _ _ _ _ Ht Hid); [by apply merge_round_ok|done..].
  - apply settle_entry_inv; auto. apply settle_ok; auto using merge_round_ok.
Qed.

Lemma commitRound_tx_inv now id round b db e db' :
  tables_inv (db_tables db) → instant_ok (round_at now round) →
  commitRound_tx now id round b db = Ok (e, db') → tables_inv (db_tables db').
Proof.
  intros Ht Hat (stored & Hid & _ & _ & Hcase)%commitRound_tx_ok.
  destruct Hcase as [(_ & -> & db1 & H1 & H2)|(Hp & db1 & db2 & db3 & Hw & H1 & H2 & H3)].
  - apply recordPublisherProof_tables in H1. apply updateStatus_tables in H2.
    by eapply same_tables_inv, Ht; etrans.
  - apply recordPublisherProof_tables in H1. apply updateAdmission_tables in H2. apply updateStatus_tables in H3.
    eapply same_tables_inv, round_writes_inv, Hw; [|done..]. by repeat (etrans; [done|]).
Qed.

(** ** Retry *)

Lemma reset_ok id e : entry_ok id e → entry_ok id (reset_entry e).
Proof. intros []. split; simpl; auto. Qed.

Lemma retry_entry_inv db id e :
  tables_inv (db_tables db) → entries db !! id = Some (Row e) → oe_State e = OutboxFailed →
  tables_inv (db_tables (retry_entry id (settledKey (oe_SettledAt e) id) e db)).
Proof.
  intros Ht He Hf. unfold entries in He. destruct (ti_rows _ Ht _ _ He) as (? & [= <-] & Hok).
  apply (tables_inv_put _ _ id (reset_entry e) Ht (reset_ok _ _ Hok)); unfold row_key; rewrite ?He; [done|..];
    intros k; unfold pending_index, settled_index; rewrite ?Hf; simpl; [set_solver..|].
  rewrite (index_same _ _ _ _ _ _ (reset_entry e) (ti_coordinates _ Ht) He eq_refl k) at 1. by rewrite He.
Qed.

Lemma failed_key db k :
  tables_inv (db_tables db) → k ∈ tb_failed (db_tables db) →
  ∃ e, entries db !! drop_bytes 8 k = Some (Row e) ∧ oe_State e = OutboxFailed ∧
       k = settledKey (oe_SettledAt e) (drop_bytes 8 k) ∧ entry_ok (drop_bytes 8 k) e.
Proof.
  intros Ht Hk. apply (ti_failed _ Ht) in Hk as [?|(id & e & He & Hk)]; [set_solver|].
  destruct (ti_rows _ Ht _ _ He) as (? & [= <-] & Hok). rewrite (settled_index_id _ _ _ _ Hok Hk).
  unfold settled_index in Hk. case_match eqn:Es; [|done]. apply String.eqb_eq in Es. naive_solver.
Qed.

(** A retry of every failed entry: what becomes of a row. *)
Definition retried_row (keys : list string) (id : string) (r : row OutboxEntry) : row OutboxEntry :=
  match r with
  | Row e => if bool_decide (settledKey (oe_SettledAt e) id ∈ keys) && String.eqb (oe_State e) OutboxFailed
             then Row (reset_entry e) else r
  | Corrupt => Corrupt
  end.

Lemma retry_loop_ok keys : ∀ n db,
  tables_inv (db_tables db) → NoDup keys → (∀ k, k ∈ keys → k ∈ tb_failed (db_tables db)) →
  ∃ db', retry_loop keys n db = Ok (n + Z.of_nat (length keys), db') ∧ tables_inv (db_tables db') ∧
    db_ledger db' = db_ledger db ∧ proofs db' = proofs db ∧
    (∀ id, entries db' !! id = retried_row keys id <$> entries db !! id).
Proof.
  induction keys as [|k keys IH]; intros n db Ht Hn Hk; simpl.
  { exists db. rewrite Z.add_0_r. split_and!; [done..|]. intros id.
    by destruct (entries db !! id) as [[e|]|]. }
  apply NoDup_cons in Hn as [Hnk Hn].
  destruct (failed_key _ _ Ht (Hk k ltac:(by left))) as (e & He & Hf & Hkey & Hok). rewrite He. simpl.
  set (id := drop_bytes 8 k) in *.
  pose proof (retry_entry_inv _ _ _ Ht He Hf) as Ht'. rewrite <-Hkey in Ht'.
  destruct (IH (n + 1) _ Ht' Hn) as (db' & Hloop & Hdb' & Hl & Hp & Hent).
  { intros k' Hk'. unfold retry_entry. simpl. assert (k' ∈ tb_failed (db_tables db)) by (apply Hk; by right).
    set_solver. }
  exists db'. split_and!; [rewrite Hloop; do 2 f_equal; lia|done..|].
  intros id'. rewrite Hent. destruct (decide (id' = id)) as [->|Hne].
  - replace (entries (retry_entry id k e db) !! id) with (Some (Row (reset_entry e)))
      by (symmetry; apply lookup_insert_eq).
    rewrite He. simpl. rewrite andb_false_r. rewrite bool_decide_eq_true_2 by (rewrite <-Hkey; set_solver).
    by rewrite Hf.
  - replace (entries (retry_entry id k e db) !! id') with (entries db !! id')
      by (symmetry; by apply lookup_insert_ne).
    destruct (entries db !! id') as [[e'|]|] eqn:E; simpl; [|done..]. f_equal.
    assert (settledKey (oe_SettledAt e') id' ≠ k) by (intros <-; apply Hne; by rewrite <-(drop_settledKey (oe_SettledAt e') id')).
    by rewrite (bool_decide_ext (_ ∈ keys) (settledKey (oe_SettledAt e') id' ∈ k :: keys)) by set_solver.
Qed.

(** ** Removal *)

(** The index key of an entry's state is removed. *)
Definition del_index (e : OutboxEntry) (id : string) (db : DB) : DB :=
  if String.eqb (oe_State e) OutboxPending
  then del_pending (pendingKey (oe_Target e) (oe_EnqueuedAt e) id) db
  else del_settled (oe_State e) (settledKey (oe_SettledAt e) id) db.

Lemma remove_entry_inv db id e :
  tables_inv (db_tables db) → entries db !! id = Some (Row e) →
  tables_inv (db_tables (del_entry id
    (del_coordinate (outboxCoordinateKey (oe_Target e) (oe_Event e)) (del_index e id db)))).
Proof.
  intros Ht He. unfold entries in He. destruct (ti_rows _ Ht _ _ He) as (? & [= <-] & Hok).
  apply (tables_inv_del _ _ id Ht); unfold row_key; rewrite ?He; unfold del_index, pending_index, settled_index, coordinate_index;
    destruct (eo_state _ _ Hok) as [[-> _]|[[-> | ->] _]]; destruct (outboxCoordinateKey _ _); simpl;
    (done || (intros k; simpl; set_solver)).
Qed.

End facts.
