(* ===== verification/OutboxRetention.v ===== *)
(** * Retention

    What [Prune] and [PurgeEvents] remove: lemmas on the loops of
    [Outbox.v]. *)

From Stdlib Require Import ZArith Lia Bool.
From stdpp Require Import base tactics decidable option list numbers strings gmap sorting.
From S2P Require Import Prelude Bytes Nostr EventID Bolt OutboxData OutboxStore Outbox OutboxInv.

(** ** Settled keys in time order *)

Lemma zeros_le n : ∀ s, String.length s = n → bytes_le (string_of_bytes (replicate n 0)) s.
Proof.
  induction n as [|n IH]; intros [|c s] Hl; simplify_eq/=; [reflexivity|].
  unfold bytes_le. simpl. pose proof (Z_of_byte_range c). change (Z_of_byte (byte_of_Z 0)) with 0.
  destruct (Z.ltb_spec 0 (Z_of_byte c)); [done|].
  replace (Z_of_byte c) with 0 by lia. simpl. by apply IH.
Qed.

Lemma ZeroID_le id : String.length id = 32%nat → bytes_le ZeroID id.
Proof. apply zeros_le. Qed.

Lemma instant_u64 t : instant_ok t → to_u64 (unix_nano t) = t.
Proof.
  intros Ht. unfold instant_ok, unix_nano in *. rewrite to_i64_small by (unfold min_i64, max_i64; lia).
  apply to_u64_small. unfold two63, two64 in *. lia.
Qed.

(** A key is below the limit key of [before] iff it was settled before it. *)
Lemma settledKey_before at_ before id :
  instant_ok at_ → instant_ok before → String.length id = 32%nat →
  bytes_ltb (settledKey at_ id) (settledKey before ZeroID) = true ↔ at_ < before.
Proof.
  intros Ha Hb Hid. unfold settledKey. rewrite !instant_u64 by done. unfold bytes_ltb.
  rewrite be64_leb by (unfold instant_ok, two63, two64 in *; lia).
  pose proof (ZeroID_le _ Hid) as Hz. unfold bytes_le in Hz. rewrite Hz.
  destruct (Z.ltb_spec before at_), (Z.eqb_spec before at_); simpl; split; (done || lia).
Qed.

Lemma elem_of_take_while_sorted (f : string → bool) keys :
  StronglySorted bytes_le keys → (∀ a b, bytes_le a b → f b = true → f a = true) →
  ∀ k, k ∈ take_while f keys ↔ k ∈ keys ∧ f k = true.
Proof.
  intros Hs Hf. induction Hs as [|x l Hl IH Hx]; intros k; simpl; [set_solver|].
  destruct (f x) eqn:E.
  - rewrite !elem_of_cons, IH. naive_solver.
  - split; [set_solver|]. intros [[->|Hk]%elem_of_cons Hfk]; [congruence|].
    rewrite Forall_forall in Hx. by rewrite (Hf x k) in E by auto.
Qed.

Lemma bytes_ltb_mono a b c : bytes_le a b → bytes_ltb b c = true → bytes_ltb a c = true.
Proof.
  rewrite !bytes_ltb_spec. intros Hab [Hbc Hne]. split; [by etrans|]. intros ->. by apply Hne, (anti_symm bytes_le).
Qed.

Lemma elem_of_expired_keys state before db k :
  k ∈ expired_keys state before db ↔
  k ∈ settledBucket state (db_tables db) ∧ bytes_ltb k (settledKey before ZeroID) = true.
Proof.
  unfold expired_keys. rewrite elem_of_take_while_sorted, elem_of_index_keys; [done|apply index_keys_sorted|].
  intros a b. apply bytes_ltb_mono.
Qed.

Lemma sublist_take_while {A} (f : A → bool) l : take_while f l `sublist_of` l.
Proof. induction l; simpl; [done|]. case_match; [by apply sublist_skip|apply sublist_nil_l]. Qed.

Lemma NoDup_expired_keys state before db : NoDup (expired_keys state before db).
Proof. eapply sublist_NoDup; [apply NoDup_index_keys|apply sublist_take_while]. Qed.

(** ** Removing a set of ids *)

(** [db'] is [db] without the entries in [rm]: same proofs and ledger, and the
    table invariant holds again. *)
Record removes (rm : gset string) (db db' : DB) : Prop := {
  rm_inv : tables_inv (db_tables db');
  rm_ledger : db_ledger db' = db_ledger db;
  rm_proofs : proofs db' = proofs db;
  rm_entries : ∀ id, entries db' !! id = if bool_decide (id ∈ rm) then None else entries db !! id;
}.

Lemma removes_nil db : tables_inv (db_tables db) → removes ∅ db db.
Proof. intros. by split. Qed.

Lemma removes_trans rm1 rm2 db1 db2 db3 :
  removes rm1 db1 db2 → removes rm2 db2 db3 → removes (rm1 ∪ rm2) db1 db3.
Proof.
  intros [? Hl1 Hp1 He1] [Ht Hl2 Hp2 He2]. split; [done|congruence..|].
  intros id. rewrite He2, He1. repeat case_bool_decide; (done || set_solver).
Qed.

Section retention.
Context `{NostrPrims}.

Lemma remove_entry_removes db id e :
  tables_inv (db_tables db) → entries db !! id = Some (Row e) →
  removes {[id]} db (del_entry id (del_coordinate (outboxCoordinateKey (oe_Target e) (oe_Event e)) (del_index e id db))).
Proof.
  intros Ht He. split; [by apply remove_entry_inv|..].
  - unfold del_index. by case_match.
  - unfold del_index, del_coordinate, proofs. destruct (outboxCoordinateKey _ _); case_match; try done;
      unfold del_settled, set_settledBucket; simpl; by case_match.
  - intros id'. transitivity (delete id (entries db) !! id').
    + unfold del_index, del_coordinate, entries. f_equal.
      destruct (outboxCoordinateKey _ _); case_match; try done;
        unfold del_settled, set_settledBucket; simpl; by case_match.
    + case_bool_decide as Hid; [rewrite elem_of_singleton in Hid; subst; apply lookup_delete_eq|
        apply lookup_delete_ne; set_solver].
Qed.

Lemma settled_key db state k :
  tables_inv (db_tables db) → state = OutboxPublished ∨ state = OutboxFailed →
  k ∈ settledBucket state (db_tables db) →
  ∃ e, entries db !! drop_bytes 8 k = Some (Row e) ∧ oe_State e = state ∧
       k = settledKey (oe_SettledAt e) (drop_bytes 8 k) ∧ entry_ok (drop_bytes 8 k) e.
Proof.
  intros Ht Hs Hk.
  assert (∃ id e, entries db !! id = Some (Row e) ∧ settled_index state id e = Some k) as (id & e & He & Hi).
  { destruct Hs as [-> | ->]; [apply (ti_published _ Ht) in Hk|apply (ti_failed _ Ht) in Hk]; set_solver. }
  destruct (ti_rows _ Ht _ _ He) as (? & [= <-] & Hok). rewrite (settled_index_id _ _ _ _ Hok Hi).
  unfold settled_index in Hi. case_match eqn:Es; [|done]. apply String.eqb_eq in Es. naive_solver.
Qed.

Lemma prune_key_ok state k db :
  tables_inv (db_tables db) → state = OutboxPublished ∨ state = OutboxFailed →
  k ∈ settledBucket state (db_tables db) →
  ∃ db', prune_key state k db = Ok db' ∧ removes {[drop_bytes 8 k]} db db' ∧
    ∀ st k', st = OutboxPublished ∨ st = OutboxFailed → k' ≠ k ∨ st ≠ state →
      (k' ∈ settledBucket st (db_tables db') ↔ k' ∈ settledBucket st (db_tables db)).
Proof.
  intros Ht Hs Hk. destruct (settled_key _ _ _ Ht Hs Hk) as (e & He & Hst & Hkey & _).
  pose proof (remove_entry_removes _ _ _ Ht He) as Hr. revert Hr. unfold del_index, prune_key.
  set (id := drop_bytes 8 k) in *. rewrite Hst, <-Hkey.
  replace (entries (del_settled state k db) !! id) with (Some (Row e)) by (destruct Hs as [-> | ->]; done).
  replace (String.eqb state OutboxPending) with false by (destruct Hs as [-> | ->]; done).
  intros Hr. eexists. split; [done|]. split; [done|]. intros st k' Hst' Hne. simpl.
  unfold settledBucket, set_settledBucket.
  destruct (outboxCoordinateKey _ _), Hs as [-> | ->], Hst' as [-> | ->]; simpl in *; destruct Hne; (done || set_solver).
Qed.

(** ** Prune *)

Lemma unresolved_ledger id db db' :
  db_ledger db' = db_ledger db → backupRunAdmissionUnresolved id db' = backupRunAdmissionUnresolved id db.
Proof. unfold backupRunAdmissionUnresolved, intents. by intros ->. Qed.

(** The ids a pass over [keys] removes, [all] when it was not cut short. *)
Definition pruned (all : bool) (keys : list string) (db : DB) (rm : gset string) : Prop :=
  (∀ id, id ∈ rm → backupRunAdmissionUnresolved id db = Ok false ∧ ∃ k, k ∈ keys ∧ id = drop_bytes 8 k) ∧
  (all = true → ∀ k, k ∈ keys → drop_bytes 8 k ∈ rm ∨ backupRunAdmissionUnresolved (drop_bytes 8 k) db = Ok true).

Lemma prune_keys_ok hold state keys : ∀ n removed db stopped n' removed' db',
  tables_inv (db_tables db) → state = OutboxPublished ∨ state = OutboxFailed →
  NoDup keys → (∀ k, k ∈ keys → k ∈ settledBucket state (db_tables db)) →
  prune_keys hold state keys n removed db = Ok (stopped, n', removed', db') →
  (stopped = true → ∃ m, hold m = true) ∧
  ∃ rm, removes rm db db' ∧ removed' = removed + Z.of_nat (size rm) ∧ pruned (negb stopped) keys db rm ∧
    (∀ id, id ∈ rm → is_Some (entries db !! id)) ∧
    (∀ st k, st = OutboxPublished ∨ st = OutboxFailed → k ∉ keys ∨ st ≠ state →
       (k ∈ settledBucket st (db_tables db') ↔ k ∈ settledBucket st (db_tables db))).
Proof.
  induction keys as [|k keys IH]; intros n removed db stopped n' removed' db' Ht Hs Hn Hin; simpl; intros Hp.
  { inv_ok; simplify_eq. split; [done|]. exists ∅. rewrite size_empty. split_and!; [by apply removes_nil|lia|..|done];
      [split; set_solver|set_solver]. }
  destruct (hold n) eqn:Eh.
  { inv_ok; simplify_eq. split; [eauto|]. exists ∅. rewrite size_empty.
    split_and!; [by apply removes_nil|lia|..|done]; [split; [set_solver|done]|set_solver]. }
  apply NoDup_cons in Hn as [Hnk Hn]. inv_ok. destruct v.
  - destruct (IH _ _ _ _ _ _ _ Ht Hs Hn ltac:(set_solver) Hok0) as (Hst & rm & Hr & Hc & [Hp1 Hp2] & Hsome & Hix).
    split; [done|]. exists rm. split_and!; [done..| |done|].
    + split; [intros id [? (k' & ? & ->)]%Hp1; split; [done|]; exists k'; split; [by right|done]|].
      intros Hall k' [->|Hk']%elem_of_cons; auto.
    + intros st k' ? Hk'. apply Hix; set_solver.
  - inv_ok. destruct (prune_key_ok state k db Ht Hs) as (db1 & Hk1 & Hr1 & Hix1); [set_solver|].
    rewrite Hok1 in Hk1. injection Hk1 as ->.
    destruct (settled_key _ _ k Ht Hs ltac:(set_solver)) as (e & He & _).
    assert (∀ k', k' ∈ keys → k' ∈ settledBucket state (db_tables db1)) as Hin1.
    { intros k' Hk'. apply Hix1; [done|left; set_solver|set_solver]. }
    destruct (IH _ _ _ _ _ _ _ (rm_inv _ _ _ Hr1) Hs Hn Hin1 Hok2) as (Hst & rm & Hr & Hc & [Hp1 Hp2] & Hsome & Hix).
    assert (drop_bytes 8 k ∉ rm) as Hkrm.
    { intros Hk%Hsome. rewrite (rm_entries _ _ _ Hr1), bool_decide_eq_true_2 in Hk by set_solver. by destruct Hk. }
    split; [done|]. exists ({[drop_bytes 8 k]} ∪ rm). split_and!.
    + by eapply removes_trans.
    + rewrite size_union, size_singleton by set_solver. lia.
    + split.
      * intros id [->%elem_of_singleton|Hid]%elem_of_union; [split; [done|set_solver]|].
        destruct (Hp1 _ Hid) as [Hu ?]. rewrite (unresolved_ledger _ db) in Hu by apply Hr1. set_solver.
      * intros Hall k' [->|Hk']%elem_of_cons; [set_solver|]. destruct (Hp2 Hall k' Hk'); [set_solver|right].
        by rewrite <-(unresolved_ledger _ db db1) by apply Hr1.
    + intros id [->%elem_of_singleton|Hid%Hsome]%elem_of_union; [by rewrite He|].
      rewrite (rm_entries _ _ _ Hr1) in Hid. case_bool_decide; [by destruct Hid|done].
    + intros st k' Hst' Hk'. rewrite Hix by set_solver. apply Hix1; set_solver.
Qed.

(** Settled before the cutoff of its state. *)
Definition expired (states : list (string * Z)) (e : OutboxEntry) : Prop :=
  ∃ before, (oe_State e, before) ∈ states ∧ oe_SettledAt e < before.

(** The keys of one state's pass name the expired entries in it. *)
Lemma expired_keys_entries state before db :
  tables_inv (db_tables db) → state = OutboxPublished ∨ state = OutboxFailed → instant_ok before →
  ∀ id, (∃ k, k ∈ expired_keys state before db ∧ id = drop_bytes 8 k) ↔
        ∃ e, entries db !! id = Some (Row e) ∧ expired [(state, before)] e.
Proof.
  intros Ht Hs Hb id. split.
  - intros (k & [Hk Hlt]%elem_of_expired_keys & ->).
    destruct (settled_key _ _ _ Ht Hs Hk) as (e & He & Hst & Hkey & Hok). exists e. split; [done|].
    exists before. rewrite Hst. split; [set_solver|].
    destruct (eo_state _ _ Hok) as [[Hp _]|[_ Hat]]; [rewrite Hp in Hst; by destruct Hs; subst|].
    rewrite Hkey in Hlt. apply settledKey_before in Hlt; [done..|]. destruct Hok as [<- []]. done.
  - intros (e & He & before' & Hin & Hlt). apply list_elem_of_singleton in Hin as [= Hst <-].
    destruct (ti_rows _ Ht _ _ He) as (? & [= <-] & Hok).
    exists (settledKey (oe_SettledAt e) id). rewrite drop_settledKey. split; [|done].
    apply elem_of_expired_keys. split.
    + assert (settled_index state id e = Some (settledKey (oe_SettledAt e) id)) as Hi
        by (unfold settled_index; by rewrite Hst, String.eqb_refl).
      destruct Hs as [-> | ->]; [apply (ti_published _ Ht)|apply (ti_failed _ Ht)]; right; eauto.
    + destruct (eo_state _ _ Hok) as [[Hp _]|[_ Hat]]; [rewrite Hp in Hst; by destruct Hs; subst|].
      apply settledKey_before; [done..| |done]. destruct Hok as [<- []]. done.
Qed.

Lemma prune_states_ok hold states : ∀ n removed db removed' db',
  tables_inv (db_tables db) →
  (∀ st b, (st, b) ∈ states → (st = OutboxPublished ∨ st = OutboxFailed) ∧ instant_ok b) →
  prune_states hold states n removed db = Ok (removed', db') →
  ∃ rm, removes rm db db' ∧ removed' = removed + Z.of_nat (size rm) ∧
    (∀ id, id ∈ rm → ∃ e, entries db !! id = Some (Row e) ∧ expired states e ∧
                          backupRunAdmissionUnresolved id db = Ok false) ∧
    ((∀ m, hold m = false) → ∀ id e, entries db !! id = Some (Row e) → expired states e →
       id ∈ rm ∨ backupRunAdmissionUnresolved id db = Ok true).
Proof.
  induction states as [|[st b] states IH]; intros n removed db removed' db' Ht Hst; simpl; intros Hp; inv_ok; simplify_eq.
  { exists ∅. rewrite size_empty. split_and!; [by apply removes_nil|lia|set_solver|].
    intros _ id e _ (b & Hb & _). by apply not_elem_of_nil in Hb. }
  destruct (Hst st b) as [Hs Hb]; [by left|]. destruct v as [[[stopped n1] removed1] db1].
  apply prune_keys_ok in Hok as (Hstop & rm1 & Hr1 & -> & [Hp1 Hp2] & _);
    [|done..|apply NoDup_expired_keys|by intros k [? _]%elem_of_expired_keys].
  pose proof (expired_keys_entries st b db Ht Hs Hb) as Hexp.
  assert (∀ id, id ∈ rm1 → ∃ e, entries db !! id = Some (Row e) ∧ expired ((st, b) :: states) e ∧
            backupRunAdmissionUnresolved id db = Ok false) as Hrm1.
  { intros id [? (e & ? & b' & Hb' & ?)%Hexp]%Hp1. exists e. split_and!; [done| |done].
    exists b'. split; [|done]. apply list_elem_of_singleton in Hb'. rewrite Hb'. by left. }
  destruct stopped.
  { inv_ok; simplify_eq. exists rm1. split_and!; [done..|]. intros Hh. destruct (Hstop eq_refl) as [m Hm]. congruence. }
  apply IH in Hok0 as (rm2 & Hr2 & -> & Hin2 & Hall2); [|apply Hr1|intros ???; apply Hst; by right].
  assert (∀ id e, entries db1 !! id = Some (Row e) ↔ id ∉ rm1 ∧ entries db !! id = Some (Row e)) as He1.
  { intros id e. rewrite (rm_entries _ _ _ Hr1). case_bool_decide; split; [done|by intros []|done|by intros []]. }
  exists (rm1 ∪ rm2). split_and!.
  - by eapply removes_trans.
  - rewrite size_union; [lia|]. intros id Hid (e & [Hid' _]%He1 & _)%Hin2. done.
  - intros id [Hid%Hrm1|(e & [_ He]%He1 & (b' & Hb' & Hlt) & Hu)%Hin2]%elem_of_union; [done|]. exists e.
    rewrite (unresolved_ledger _ db) in Hu by apply Hr1. split_and!; [done| |done]. exists b'. split; [by right|done].
  - intros Hh id e He (b' & Hb' & Hlt). destruct (decide (id ∈ rm1)) as [Hid|Hid]; [set_solver|].
    apply elem_of_cons in Hb' as [[= <- <-]|Hb'].
    + destruct (proj2 (Hexp id)) as (k & Hk & ->); [exists e; split; [done|]; exists b'; split; [by left|done]|].
      destruct (Hp2 eq_refl k Hk); [set_solver|by right].
    + rewrite <-(unresolved_ledger id db db1) by apply Hr1.
      destruct (Hall2 Hh id e); [by apply He1|by exists b'|set_solver|by right].
Qed.

(** ** PurgeEvents *)

(** The victims are the matching rows, in key order. *)
Lemma purge_victims_ok matches ents keys :
  (∀ id r, ents !! id = Some r → ∃ e, r = Row e ∧ entry_ok id e) →
  ∃ victims, purge_victims matches ents keys = Ok victims ∧
    (∀ e, e ∈ victims ↔ ∃ id, id ∈ keys ∧ ents !! id = Some (Row e) ∧ matches (oe_Event e) = true) ∧
    map (λ e, ev_ID (oe_Event e)) victims `sublist_of` keys.
Proof.
  intros Hrows. induction keys as [|k keys IH]; simpl.
  { exists []. split_and!; [done| |done]. intros e. split; [by intros ?%not_elem_of_nil|].
    by intros (id & ?%not_elem_of_nil & _). }
  destruct IH as (victims & -> & Hv & Hsub). destruct (ents !! k) as [r|] eqn:E.
  - apply Hrows in E as He. destruct He as (e & -> & Hok). simpl. eexists. split; [done|].
    destruct (matches (oe_Event e)) eqn:Em.
    + split.
      * intros e'. rewrite elem_of_cons, Hv. setoid_rewrite elem_of_cons. split.
        { intros [->|(id & ? & ?)]; [exists k|exists id]; auto. }
        intros (id & [->|?] & He' & ?); [left; congruence|right; eauto].
      * simpl. rewrite (eo_id _ _ Hok). by apply sublist_skip.
    + split; [|by apply sublist_cons]. intros e'. rewrite Hv. setoid_rewrite elem_of_cons. split.
      * intros (id & ? & ?). eauto.
      * intros (id & [->|?] & He' & Hm); [|eauto]. rewrite E in He'. simplify_eq. congruence.
  - exists victims. split; [done|]. split; [|by apply sublist_cons]. intros e'. rewrite Hv. setoid_rewrite elem_of_cons.
    split; intros (id & Hid & He' & Hm); [eauto|]. destruct Hid as [->|?]; [congruence|eauto].
Qed.

Lemma purge_entry_ok e db db' :
  tables_inv (db_tables db) → entries db !! ev_ID (oe_Event e) = Some (Row e) → purge_entry e db = Ok db' →
  removes {[ev_ID (oe_Event e)]} db db' ∧ backupRunAdmissionUnresolved (ev_ID (oe_Event e)) db = Ok false ∧
  proofs db !! ev_ID (oe_Event e) = None.
Proof.
  intros Ht He Hp. unfold purge_entry in Hp. inv_ok. bool_facts. subst. split_and!.
  - by apply remove_entry_removes.
  - done.
  - by apply eq_None_not_Some.
Qed.

Lemma purge_loop_ok victims : ∀ db db',
  tables_inv (db_tables db) → NoDup (map (λ e, ev_ID (oe_Event e)) victims) →
  (∀ e, e ∈ victims → entries db !! ev_ID (oe_Event e) = Some (Row e)) → purge_loop victims db = Ok db' →
  removes (list_to_set (map (λ e, ev_ID (oe_Event e)) victims)) db db' ∧
  (∀ e, e ∈ victims → backupRunAdmissionUnresolved (ev_ID (oe_Event e)) db = Ok false ∧
                      proofs db !! ev_ID (oe_Event e) = None).
Proof.
  induction victims as [|e victims IH]; intros db db' Ht Hn Hv; simpl; intros Hp; inv_ok; subst.
  { split; [by apply removes_nil|]. by intros e ?%not_elem_of_nil. }
  simpl in Hn. apply NoDup_cons in Hn as [Hne Hn].
  apply purge_entry_ok in Hok as (Hr & Hu & Hpr); [|done|apply Hv; by left].
  destruct (IH v db' (rm_inv _ _ _ Hr) Hn) as [Hr' Hall]; [|done|].
  { intros e' He'. rewrite (rm_entries _ _ _ Hr). rewrite bool_decide_eq_false_2; [apply Hv; by right|].
    intros Heq%elem_of_singleton. apply Hne. rewrite <-Heq. by apply (list_elem_of_fmap_2 (λ e, ev_ID (oe_Event e))). }
  split; [by eapply removes_trans|]. intros e' [->|He']%elem_of_cons; [done|].
  destruct (Hall e' He') as [Hu' Hp']. rewrite (unresolved_ledger _ db) in Hu' by apply Hr.
  by rewrite (rm_proofs _ _ _ Hr) in Hp'.
Qed.

End retention.
