(* ===== verification/LedgerInv.v ===== *)
(** * The invariant of proofs and of the backup-run ledger

    Every stored delivery proof is valid for the event it is filed under; the
    admission and pending records agree with their key indexes; a delivered
    run or status has its quorum proof; the signed copy of an undelivered run
    or status is still held by the outbox; and a run is never both admitted
    and refused. *)

From Stdlib Require Import ZArith Lia Bool.
From stdpp Require Import base tactics decidable option list numbers strings gmap.
From S2P Require Import Prelude Bytes Nostr EventID EventIDFacts Bolt OutboxData OutboxStore Outbox BackupRun BackupRunPending OutboxInv.

Section ledger_inv.
Context `{NostrPrims}.

(** ** Proofs *)

Record proof_ok (id : string) (p : DeliveryProof) : Prop := {
  pk_event : wf_event (pr_Event p);
  pk_id : ev_ID (pr_Event p) = id;
  pk_valid : ValidFor p (pr_Event p) (pr_Target p) = true;
  pk_eligible : isProofEligibleEvent (pr_Event p) || isBackupRunTerminalStatusEvent (pr_Event p) = true;
}.

Definition proofs_inv (db : DB) : Prop :=
  ∀ id r, proofs db !! id = Some r → ∃ p, r = Row p ∧ proof_ok id p.

(** ** What the ledger relies on *)

(** The outbox holds this signed event for this target. *)
Definition held (db : DB) (ev : Event) (target : string) : Prop :=
  ∃ e, entries db !! ev_ID ev = Some (Row e) ∧ oe_Event e = ev ∧ oe_Target e = target.

(** A quorum proof for this event id and target is stored. *)
Definition proved (db : DB) (idHex target : string) : Prop :=
  ∃ id p, id_from_hex idHex = Some id ∧ proofs db !! id = Some (Row p) ∧ pr_Target p = target.

(** ** Admissions *)

(** The service-signed state event of a run. *)
Record run_state (a : BackupRunAdmission) (ev : Event) : Prop := {
  rs_wf : wf_event ev;
  rs_check : CheckID ev = true;
  rs_id : hex (ev_ID ev) = ba_StateEventID a;
  rs_pubkey : hex (ev_PubKey ev) = ba_ServicePubkey a;
  rs_kind : ev_Kind ev = kindCPState;
  rs_d : oneBackupRunTag (ev_Tags ev) "d" (ba_Coordinate a) = true;
  rs_t : oneBackupRunTag (ev_Tags ev) "t" "backup-run" = true;
  rs_legacy : oneBackupRunTag (ev_Tags ev) "legacy_kind" "31996" = true;
  rs_deleted : oneBackupRunTag (ev_Tags ev) "deleted" "false" = true;
}.

(** The accepted status staged for a run. *)
Record run_status (db : DB) (i : string) (a : BackupRunAdmission) : Prop := {
  st_delivered : ba_Delivered a = true;
  st_outcome : ba_StatusOutcome a = "accepted";
  st_index : lg_statusEvents (db_ledger db) !! ba_StatusEventID a = Some i;
  st_event : ∃ ev, wf_event ev ∧ hex (ev_ID ev) = ba_StatusEventID a ∧ accepted_status_event a ev = true ∧
               (ba_StatusDelivered a = false → held db ev (ba_StatusTarget a));
  st_proved : ba_StatusDelivered a = true → proved db (ba_StatusEventID a) (ba_StatusTarget a);
}.

Record admission_ok (db : DB) (i : string) (a : BackupRunAdmission) : Prop := {
  ao_intent : ba_IntentID a = i;
  ao_coord : lg_coords (db_ledger db) !! ba_Coordinate a = Some i;
  ao_event : lg_events (db_ledger db) !! ba_StateEventID a = Some i;
  ao_state : ∃ ev, run_state a ev ∧ (ba_StatusDelivered a = false → held db ev (ba_Target a));
  ao_proved : ba_Delivered a = true → proved db (ba_StateEventID a) (ba_Target a);
  ao_status : ba_StatusEventID a = "" ∧ ba_StatusDelivered a = false ∨
              ba_StatusEventID a ≠ "" ∧ run_status db i a;
}.

(** ** Pending requests *)

(** The service-signed refusal of a request. *)
Record refusal_event (p : BackupRunPending) (ev : Event) : Prop := {
  re_wf : wf_event ev;
  re_check : CheckID ev = true;
  re_sig : VerifySignature ev = true;
  re_id : hex (ev_ID ev) = bp_StatusEventID p;
  re_pubkey : hex (ev_PubKey ev) = bp_ServicePubkey p;
  re_kind : isBackupRunRefusedStatusEvent ev = true;
  re_d : oneBackupRunTag (ev_Tags ev) "d" (private_coordinate p) = true;
  re_bound : refusal_bound p ev = true;
}.

Record refusal_staged (db : DB) (i : string) (p : BackupRunPending) : Prop := {
  rf_index : lg_statusEvents (db_ledger db) !! bp_StatusEventID p = Some i;
  rf_event : ∃ ev, refusal_event p ev ∧ (bp_StatusDelivered p = false → held db ev (bp_StatusTarget p));
  rf_proved : bp_StatusDelivered p = true → proved db (bp_StatusEventID p) (bp_StatusTarget p);
}.

Inductive pending_state (db : DB) (i : string) (p : BackupRunPending) : Prop :=
| ps_pending :
    bp_State p = BackupRunPendingState → bp_StatusEventID p = "" → bp_StatusDelivered p = false →
    pending_state db i p
| ps_accepted a :
    bp_State p = BackupRunAcceptedState → bp_StatusEventID p = "" → bp_StatusDelivered p = false →
    intents db !! i = Some (Row a) → ba_StatusEventID a ≠ "" → pending_state db i p
| ps_refused :
    bp_State p = BackupRunRefusedState → intents db !! i = None →
    lg_coords (db_ledger db) !! bp_Coordinate p = None →
    (bp_StatusEventID p = "" ∧ bp_StatusDelivered p = false ∨ bp_StatusEventID p ≠ "" ∧ refusal_staged db i p) →
    pending_state db i p.

Record pending_ok (db : DB) (i : string) (p : BackupRunPending) : Prop := {
  po_intent : bp_IntentID p = i;
  po_coord : lg_pendingCoords (db_ledger db) !! bp_Coordinate p = Some i;
  po_event : lg_pendingEvents (db_ledger db) !! hex (ev_ID (bp_RequestEvent p)) = Some i;
  po_valid : validRetainedBackupRunIdentity p = true;
  po_nonzero : ev_ID (bp_RequestEvent p) ≠ ZeroID;
  po_state : pending_state db i p;
}.

(** ** The ledger *)

Record ledger_inv (db : DB) : Prop := {
  li_intents : ∀ i r, intents db !! i = Some r → ∃ a, r = Row a ∧ admission_ok db i a;
  li_coords : ∀ c i, lg_coords (db_ledger db) !! c = Some i →
    ∃ a, intents db !! i = Some (Row a) ∧ ba_Coordinate a = c;
  li_events : ∀ h i, lg_events (db_ledger db) !! h = Some i →
    ∃ a, intents db !! i = Some (Row a) ∧ ba_StateEventID a = h;
  li_status : ∀ h i, lg_statusEvents (db_ledger db) !! h = Some i → h ≠ ""%string ∧
    ((∃ a, intents db !! i = Some (Row a) ∧ ba_StatusEventID a = h) ∨
     (∃ p, lg_pending (db_ledger db) !! i = Some (Row p) ∧ bp_State p = BackupRunRefusedState ∧ bp_StatusEventID p = h));
  li_pending : ∀ i r, lg_pending (db_ledger db) !! i = Some r → ∃ p, r = Row p ∧ pending_ok db i p;
  li_pcoords : ∀ c i, lg_pendingCoords (db_ledger db) !! c = Some i →
    ∃ p, lg_pending (db_ledger db) !! i = Some (Row p) ∧ bp_Coordinate p = c;
  li_pevents : ∀ h i, lg_pendingEvents (db_ledger db) !! h = Some i →
    ∃ p, lg_pending (db_ledger db) !! i = Some (Row p) ∧ hex (ev_ID (bp_RequestEvent p)) = h;
  li_link : ∀ i a p, intents db !! i = Some (Row a) → lg_pending (db_ledger db) !! i = Some (Row p) →
    bp_Coordinate p = ba_Coordinate a ∧ hex (ev_ID (bp_RequestEvent p)) = ba_RequestEventID a;
  li_request : ∀ i r, intents db !! i = Some r → is_Some (lg_pending (db_ledger db) !! i);
  li_due : ∀ k, k ∈ lg_due (db_ledger db) ↔
    ∃ i p, lg_pending (db_ledger db) !! i = Some (Row p) ∧ bp_State p = BackupRunPendingState ∧ k = backupRunDueKey p;
  li_refusals : ∀ i, i ∈ lg_refusals (db_ledger db) ↔
    ∃ p, lg_pending (db_ledger db) !! i = Some (Row p) ∧ bp_State p = BackupRunRefusedState ∧ bp_StatusEventID p = "";
}.

(** The invariant of the whole file. *)
Record db_inv (db : DB) : Prop := {
  inv_tables : tables_inv (db_tables db);
  inv_proofs : proofs_inv db;
  inv_ledger : ledger_inv db;
}.

Lemma db_inv_empty : db_inv empty_db.
Proof.
  split; [apply tables_inv_empty|unfold proofs_inv, proofs; simpl; by intros id r ?%lookup_empty_Some|].
  split; unfold intents; simpl; try (by intros * ?%lookup_empty_Some).
  - intros k. split; [set_solver|]. by intros (i & p & ?%lookup_empty_Some & _).
  - intros i. split; [set_solver|]. by intros (p & ?%lookup_empty_Some & _).
Qed.
End ledger_inv.

(** * Ledger lemmas

    Which events the ledger pins, how its records survive the other
    transactions, and what its readers can rely on. *)

Section ledger_facts.
Context `{NostrLaws}.

(** ** Signed events under one id *)

Lemma tag_one ev key want : oneBackupRunTag (ev_Tags ev) key want = true → tag ev key = want.
Proof. apply oneBackupRunTag_outboxTag. Qed.

Lemma tag_is_one ev key want : oneBackupRunTag (ev_Tags ev) key want = true → tag_is ev key want = true.
Proof. intros H1%tag_one. unfold tag_is. by rewrite H1, String.eqb_refl. Qed.

Lemma hex_id ev id : wf_event ev → id_from_hex (hex (ev_ID ev)) = Some id → id = ev_ID ev.
Proof. intros Hw. rewrite id_from_hex_hex by apply Hw. by intros [= ->]. Qed.

Lemma accepted_event_facts a ev : accepted_status_event a ev = true →
  CheckID ev = true ∧ ev_Kind ev = kindStatus ∧ hex (ev_PubKey ev) = ba_ServicePubkey a ∧
  tag ev "d" = IntentStatusCoordinate (ba_Actor a) (ba_Coordinate a) ∧
  oneBackupRunTag (ev_Tags ev) "intent_id" (ba_IntentID a) = true ∧ isBackupRunAcceptedStatusEvent ev = true.
Proof.
  unfold accepted_status_event. intros Hev. bool_facts.
  assert (tag ev "d" = IntentStatusCoordinate (ba_Actor a) (ba_Coordinate a)) as Hd by by apply tag_one.
  split_and!; [done|done|by apply String.eqb_eq|done|done|]. unfold isBackupRunAcceptedStatusEvent.
  rewrite (tag_is_one _ "domain" "intent"), (tag_is_one _ "t" "intent-status"), (tag_is_one _ "status" "accepted") by done.
  rewrite Hd, (proj2 (Z.eqb_eq _ _)) by done. apply (has_prefix_app "intent-status:").
Qed.

Lemma refused_event_kind ev : isBackupRunRefusedStatusEvent ev = true → ev_Kind ev = kindStatus.
Proof. unfold isBackupRunRefusedStatusEvent. intros Hev. bool_facts. done. Qed.

(** ** Pinned events *)

Section pinned.
Context (db : DB) (Hl : ledger_inv db).

Lemma unresolved_state i a ev :
  intents db !! i = Some (Row a) → run_state a ev → ba_StatusDelivered a = false →
  backupRunAdmissionUnresolved (ev_ID ev) db = Ok true.
Proof.
  intros Hi Hs Hd. destruct (li_intents _ Hl _ _ Hi) as (? & [= <-] & Ha).
  unfold backupRunAdmissionUnresolved. rewrite (rs_id _ _ Hs), (ao_event _ _ _ Ha), Hi. simpl. by rewrite Hd.
Qed.

(** No status event is a run's state event: their kinds differ. *)
Lemma status_not_state ev : wf_event ev → CheckID ev = true → ev_Kind ev = kindStatus →
  lg_events (db_ledger db) !! hex (ev_ID ev) = None.
Proof.
  intros Hw Hc Hk. destruct (lg_events _ !! _) as [j|] eqn:E; [|done]. exfalso.
  destruct (li_events _ Hl _ _ E) as (a & Hj & Hid).
  destruct (li_intents _ Hl _ _ Hj) as (? & [= <-] & Ha). destruct (ao_state _ _ _ Ha) as (ev' & Hs & _).
  rewrite <-(rs_id _ _ Hs) in Hid. apply (inj hex) in Hid.
  destruct (CheckID_same ev' ev) as (_ & _ & Hkind & _); [apply Hs|done|apply Hs|done..|].
  rewrite (rs_kind _ _ Hs), Hk in Hkind. done.
Qed.

Lemma unresolved_status i a ev :
  intents db !! i = Some (Row a) → run_status db i a → wf_event ev → hex (ev_ID ev) = ba_StatusEventID a →
  accepted_status_event a ev = true → ba_StatusDelivered a = false →
  backupRunAdmissionUnresolved (ev_ID ev) db = Ok true.
Proof.
  intros Hi Hs Hw Hid (Hc & Hk & _)%accepted_event_facts Hd. unfold backupRunAdmissionUnresolved.
  rewrite status_not_state by done. rewrite Hid, (st_index _ _ _ Hs), Hi. simpl. by rewrite Hd.
Qed.

Lemma unresolved_refusal i p ev :
  lg_pending (db_ledger db) !! i = Some (Row p) → intents db !! i = None → refusal_staged db i p →
  refusal_event p ev → bp_StatusDelivered p = false →
  backupRunAdmissionUnresolved (ev_ID ev) db = Ok true.
Proof.
  intros Hp Hi Hs He Hd. unfold backupRunAdmissionUnresolved.
  rewrite status_not_state; [|apply He|apply He|by apply refused_event_kind, He].
  rewrite (re_id _ _ He), (rf_index _ _ _ Hs), Hi, Hp. simpl. by rewrite String.eqb_refl, Hd.
Qed.
End pinned.

(** ** Survival of the records *)

(** Every pinned event stays held. *)
Definition keeps_pinned (db db' : DB) : Prop :=
  ∀ ev target, held db ev target → backupRunAdmissionUnresolved (ev_ID ev) db = Ok true → held db' ev target.

Definition keeps_proved (db db' : DB) : Prop := ∀ h target, proved db h target → proved db' h target.

(** The index buckets only grow. *)
Definition keeps_keys (l l' : Ledger) : Prop :=
  lg_coords l ⊆ lg_coords l' ∧ lg_events l ⊆ lg_events l' ∧ lg_statusEvents l ⊆ lg_statusEvents l' ∧
  lg_pendingCoords l ⊆ lg_pendingCoords l' ∧ lg_pendingEvents l ⊆ lg_pendingEvents l'.

Section survive.
Context (db db' : DB) (Hl : ledger_inv db).
Context (Hpin : keeps_pinned db db') (Hprf : keeps_proved db db') (Hkeys : keeps_keys (db_ledger db) (db_ledger db')).

Lemma run_status_survives i a : intents db !! i = Some (Row a) → run_status db i a → run_status db' i a.
Proof.
  intros Hi Hs. destruct Hkeys as (_ & _ & Hst & _). destruct (st_event _ _ _ Hs) as (ev & Hw & Hid & Hev & Hh).
  split; [apply Hs..|by eapply lookup_weaken, Hst; apply Hs| |by intros ?%(st_proved _ _ _ Hs)%Hprf].
  exists ev. split_and!; [done..|]. intros Hd. apply Hpin; [by apply Hh|]. by eapply unresolved_status.
Qed.

Lemma admission_survives i a : intents db !! i = Some (Row a) → admission_ok db i a → admission_ok db' i a.
Proof.
  intros Hi Ha. destruct Hkeys as (Hc & He & _). destruct (ao_state _ _ _ Ha) as (ev & Hs & Hh).
  split; [apply Ha|by eapply lookup_weaken, Hc; apply Ha|by eapply lookup_weaken, He; apply Ha| | |].
  - exists ev. split; [done|]. intros Hd. apply Hpin; [by apply Hh|]. by eapply unresolved_state.
  - by intros ?%(ao_proved _ _ _ Ha)%Hprf.
  - destruct (ao_status _ _ _ Ha) as [?|[? ?]]; [by left|right]. split; [done|]. by apply run_status_survives.
Qed.

Lemma refusal_survives i p :
  lg_pending (db_ledger db) !! i = Some (Row p) → intents db !! i = None → refusal_staged db i p →
  refusal_staged db' i p.
Proof.
  intros Hp Hi Hs. destruct Hkeys as (_ & _ & Hst & _). destruct (rf_event _ _ _ Hs) as (ev & He & Hh).
  split; [by eapply lookup_weaken, Hst; apply Hs| |by intros ?%(rf_proved _ _ _ Hs)%Hprf].
  exists ev. split; [done|]. intros Hd. apply Hpin; [by apply Hh|]. by eapply unresolved_refusal.
Qed.

(** A pending record survives while its admission keeps a status and a refused
    one stays unadmitted. *)
Lemma pending_survives i p :
  (∀ a, intents db !! i = Some (Row a) → ba_StatusEventID a ≠ "" →
     ∃ a', intents db' !! i = Some (Row a') ∧ ba_StatusEventID a' ≠ "") →
  (bp_State p = BackupRunRefusedState → intents db !! i = None → lg_coords (db_ledger db) !! bp_Coordinate p = None →
     intents db' !! i = None ∧ lg_coords (db_ledger db') !! bp_Coordinate p = None) →
  lg_pending (db_ledger db) !! i = Some (Row p) → pending_ok db i p → pending_ok db' i p.
Proof.
  intros Hacc Href Hp Ho. destruct Hkeys as (_ & _ & _ & Hpc & Hpe).
  split; [apply Ho|by eapply lookup_weaken, Hpc; apply Ho|by eapply lookup_weaken, Hpe; apply Ho|apply Ho..|].
  destruct (po_state _ _ _ Ho) as [???|a ? ? ? Ha Hst|Hs Hi Hc Hst].
  - by apply ps_pending.
  - destruct (Hacc a Ha Hst) as (a' & ? & ?). by eapply ps_accepted.
  - destruct (Href Hs Hi Hc). apply ps_refused; [done..|].
    destruct Hst as [?|[? ?]]; [by left|right]. split; [done|]. by apply refusal_survives.
Qed.
End survive.

(** A transaction that leaves the ledger alone, apart from the clock. *)
Lemma ledger_frame db db' c :
  db_ledger db' = set_statusClock c (db_ledger db) → keeps_pinned db db' → keeps_proved db db' →
  ledger_inv db → ledger_inv db'.
Proof.
  intros Hlg Hpin Hprf Hl.
  assert (keeps_keys (db_ledger db) (db_ledger db')) as Hk by (rewrite Hlg; done).
  assert (intents db' = intents db) as Hint by (unfold intents; by rewrite Hlg).
  split; rewrite ?Hint; rewrite ?Hlg; simpl; try apply Hl.
  - intros i r Hr. destruct (li_intents _ Hl _ _ Hr) as (a & -> & Ha). exists a. split; [done|].
    by eapply admission_survives.
  - intros i r Hr. destruct (li_pending _ Hl _ _ Hr) as (p & -> & Hp). exists p. split; [done|].
    eapply pending_survives; eauto; rewrite ?Hint, ?Hlg; eauto.
Qed.
End ledger_facts.

(** * The ledger invariant under updates of its records

    Replacing an admission or a pending record in place, as the delivery
    rounds, the retry bookkeeping and the compaction do. *)

(** ** Events the outbox holds *)

Lemma held_insert db db' id e :
  entries db !! id = None → entries db' = <[id := Row e]> (entries db) →
  ∀ ev target, held db ev target → held db' ev target.
Proof.
  intros Hno Hent ev target (e' & He & Hev & Ht). exists e'. rewrite Hent, lookup_insert_ne by congruence. done.
Qed.

Lemma held_update db db' id e e' :
  entries db !! id = Some (Row e) → oe_Event e' = oe_Event e → oe_Target e' = oe_Target e →
  entries db' = <[id := Row e']> (entries db) →
  ∀ ev target, held db ev target → held db' ev target.
Proof.
  intros He Hev Ht Hent ev target (e0 & He0 & Hev0 & Ht0). destruct (decide (ev_ID ev = id)) as [Hid|Hne].
  - exists e'. rewrite Hent, Hid, lookup_insert_eq. rewrite Hid, He in He0. simplify_eq. by rewrite Hev, Ht.
  - exists e0. by rewrite Hent, lookup_insert_ne.
Qed.

Lemma held_same db db' : entries db' = entries db → ∀ ev target, held db ev target → held db' ev target.
Proof. unfold held. by intros ->. Qed.

Lemma proved_same db db' : proofs db' = proofs db → ∀ h target, proved db h target → proved db' h target.
Proof. unfold proved. by intros ->. Qed.

Lemma drop_dueKey p : drop_bytes 8 (backupRunDueKey p) = bp_IntentID p.
Proof. unfold backupRunDueKey. apply (drop_bytes_app (be64 _)). Qed.

Section ledger_steps.
Context `{NostrLaws}.

Lemma keeps_pinned_held db db' : (∀ ev target, held db ev target → held db' ev target) → keeps_pinned db db'.
Proof. intros Hh ev target Hd _. by apply Hh. Qed.

(** ** One admission record *)

(** [st] is the status index after the update: it may gain the event of [a']. *)
Lemma update_admission_inv db db' c st i a a' :
  ledger_inv db → intents db !! i = Some (Row a) →
  db_ledger db' = set_statusClock c (set_statusEvents st (set_intents (<[i := Row a']> (intents db)) (db_ledger db))) →
  lg_statusEvents (db_ledger db) ⊆ st →
  (∀ h j, st !! h = Some j → lg_statusEvents (db_ledger db) !! h = Some j ∨
                             h ≠ ""%string ∧ j = i ∧ ba_StatusEventID a' = h) →
  keeps_pinned db db' → keeps_proved db db' →
  ba_Coordinate a' = ba_Coordinate a → ba_StateEventID a' = ba_StateEventID a →
  ba_RequestEventID a' = ba_RequestEventID a →
  (ba_StatusEventID a ≠ "" → ba_StatusEventID a' = ba_StatusEventID a) →
  admission_ok db' i a' → ledger_inv db'.
Proof.
  intros Hl Hi Hlg Hst1 Hst2 Hpin Hprf Hc Hs Hr Hst Ha'.
  assert (keeps_keys (db_ledger db) (db_ledger db')) as Hk by (rewrite Hlg; done).
  assert (intents db' = <[i := Row a']> (intents db)) as Hint by (unfold intents; by rewrite Hlg).
  assert (∀ j b, intents db !! j = Some (Row b) → ∃ b', intents db' !! j = Some (Row b') ∧
    ba_Coordinate b' = ba_Coordinate b ∧ ba_StateEventID b' = ba_StateEventID b ∧
    (ba_StatusEventID b ≠ "" → ba_StatusEventID b' = ba_StatusEventID b)) as Hrow.
  { intros j b Hb. rewrite Hint. destruct (decide (j = i)) as [->|Hne];
      [exists a'; rewrite lookup_insert_eq; rewrite Hi in Hb; by simplify_eq|exists b; by rewrite lookup_insert_ne]. }
  split; rewrite ?Hlg; simpl.
  - intros j r Hj. rewrite Hint in Hj. apply lookup_insert_Some in Hj as [[<- <-]|[Hne Hj]]; [by exists a'|].
    destruct (li_intents _ Hl _ _ Hj) as (b & -> & Hb). exists b. split; [done|]. by eapply admission_survives.
  - intros c' j (b & Hb & Hbc)%(li_coords _ Hl). destruct (Hrow _ _ Hb) as (b' & ? & ? & _). exists b'. split; congruence.
  - intros h j (b & Hb & Hbc)%(li_events _ Hl). destruct (Hrow _ _ Hb) as (b' & ? & _ & ? & _). exists b'. split; congruence.
  - intros h j [[Hne [(b & Hb & Hbc)|Hp]]%(li_status _ Hl)|(Hne & -> & Hh)]%Hst2; (split; [done|]).
    + left. destruct (Hrow _ _ Hb) as (b' & ? & _ & _ & Heq). exists b'. split; [done|]. rewrite <-Hbc in *. by apply Heq.
    + by right.
    + left. exists a'. by rewrite Hint, lookup_insert_eq.
  - intros j r Hj. destruct (li_pending _ Hl _ _ Hj) as (p & -> & Hp). exists p. split; [done|].
    eapply pending_survives; eauto.
    + intros b Hb Hne. destruct (Hrow _ _ Hb) as (b' & ? & _ & _ & Heq). exists b'. split; [done|]. by rewrite Heq.
    + intros _ Hn Hco. split; [|by rewrite Hlg]. rewrite Hint. rewrite lookup_insert_ne; [done|congruence].
  - apply Hl.
  - apply Hl.
  - intros j b p Hb Hp. rewrite Hint in Hb. apply lookup_insert_Some in Hb as [[<- [= <-]]|[Hne Hb]];
      [rewrite Hc, Hr|]; by eapply (li_link _ Hl).
  - intros j r Hj. rewrite Hint in Hj. apply lookup_insert_Some in Hj as [[<- _]|[_ Hj]]; by eapply (li_request _ Hl).
  - apply Hl.
  - apply Hl.
Qed.

(** ** One pending record *)

Lemma update_pending_inv db db' c st due refusals i p p' :
  ledger_inv db → lg_pending (db_ledger db) !! i = Some (Row p) →
  db_ledger db' = set_statusClock c (set_statusEvents st (set_due due (set_refusals refusals
    (set_lpending (<[i := Row p']> (lg_pending (db_ledger db))) (db_ledger db))))) →
  lg_statusEvents (db_ledger db) ⊆ st →
  (∀ h j, st !! h = Some j → lg_statusEvents (db_ledger db) !! h = Some j ∨
     h ≠ ""%string ∧ j = i ∧ bp_State p' = BackupRunRefusedState ∧ bp_StatusEventID p' = h) →
  keeps_pinned db db' → keeps_proved db db' →
  bp_Coordinate p' = bp_Coordinate p → ev_ID (bp_RequestEvent p') = ev_ID (bp_RequestEvent p) →
  (bp_State p = BackupRunRefusedState → bp_StatusEventID p ≠ "" →
     bp_State p' = BackupRunRefusedState ∧ bp_StatusEventID p' = bp_StatusEventID p) →
  (∀ k, k ∈ due ↔ (k ∈ lg_due (db_ledger db) ∧ k ≠ backupRunDueKey p) ∨
                  (bp_State p' = BackupRunPendingState ∧ k = backupRunDueKey p')) →
  (∀ j, j ∈ refusals ↔ (j ∈ lg_refusals (db_ledger db) ∧ j ≠ i) ∨
                       (j = i ∧ bp_State p' = BackupRunRefusedState ∧ bp_StatusEventID p' = "")) →
  pending_ok db' i p' → ledger_inv db'.
Proof.
  intros Hl Hp Hlg Hst1 Hst2 Hpin Hprf Hc Hev Hst Hdue Href Hp'.
  assert (keeps_keys (db_ledger db) (db_ledger db')) as Hk by (rewrite Hlg; done).
  assert (intents db' = intents db) as Hint by (unfold intents; by rewrite Hlg).
  destruct (li_pending _ Hl _ _ Hp) as (? & [= <-] & Ho).
  split; rewrite ?Hint; rewrite ?Hlg; simpl; try apply Hl.
  - intros j r Hj. destruct (li_intents _ Hl _ _ Hj) as (b & -> & Hb). exists b. split; [done|]. by eapply admission_survives.
  - intros h j [[Hne [?|(q & Hq & Hs & Hh)]]%(li_status _ Hl)|(Hne & -> & Hs & Hh)]%Hst2; (split; [done|]);
      [by left|right|right; exists p'; by rewrite lookup_insert_eq].
    destruct (decide (j = i)) as [->|Hji]; [exists p'; rewrite lookup_insert_eq|exists q; by rewrite lookup_insert_ne].
    rewrite Hp in Hq. simplify_eq. destruct (Hst Hs Hne). done.
  - intros j r Hj. apply lookup_insert_Some in Hj as [[<- <-]|[Hne Hj]]; [by exists p'|].
    destruct (li_pending _ Hl _ _ Hj) as (q & -> & Hq). exists q. split; [done|].
    eapply pending_survives; eauto; rewrite ?Hint, ?Hlg; eauto.
  - intros c' j (q & Hq & Hqc)%(li_pcoords _ Hl). destruct (decide (j = i)) as [->|Hji];
      [exists p'; rewrite lookup_insert_eq|exists q; by rewrite lookup_insert_ne]. rewrite Hp in Hq. simplify_eq. done.
  - intros h j (q & Hq & Hqc)%(li_pevents _ Hl). destruct (decide (j = i)) as [->|Hji];
      [exists p'; rewrite lookup_insert_eq|exists q; by rewrite lookup_insert_ne]. rewrite Hp in Hq. simplify_eq. by rewrite Hev.
  - intros j a q Ha Hq. apply lookup_insert_Some in Hq as [[<- [= <-]]|[Hne Hq]];
      [rewrite Hc, Hev; by apply (li_link _ Hl i)|by apply (li_link _ Hl j)].
  - intros j r Hj. apply lookup_insert_is_Some'. right. by eapply (li_request _ Hl).
  - intros k. rewrite Hdue, (li_due _ Hl). split.
    + intros [[(j & q & Hq & Hs & ->) Hne]|[Hs ->]]; [exists j, q|exists i, p'; by rewrite lookup_insert_eq].
      rewrite lookup_insert_ne; [done|]. intros <-. rewrite Hp in Hq. by simplify_eq.
    + intros (j & q & Hq & Hs & ->). apply lookup_insert_Some in Hq as [[<- [= <-]]|[Hne Hq]]; [by right|left].
      split; [eauto|]. intros Heq%(f_equal (drop_bytes 8)). rewrite !drop_dueKey in Heq.
      destruct (li_pending _ Hl _ _ Hq) as (? & [= <-] & Hoq). rewrite (po_intent _ _ _ Hoq), (po_intent _ _ _ Ho) in Heq. done.
  - intros j. rewrite Href, (li_refusals _ Hl). split.
    + intros [[(q & Hq & Hs) Hne]|(-> & ? & ?)]; [exists q; by rewrite lookup_insert_ne|exists p'; by rewrite lookup_insert_eq].
    + intros (q & Hq & Hs). apply lookup_insert_Some in Hq as [[<- [= <-]]|[Hne Hq]]; [by right|left]. eauto.
Qed.
End ledger_steps.

(** * Ledger transactions preserve the invariant

    Intake, admission, refusal, status staging and compaction of backup runs
    ([BackupRun.v], [BackupRunPending.v]). *)

Section ledger_ops.
Context `{NostrLaws}.

(** ** New records *)

(** A state event is filed once: its d tag names the run. *)
Lemma state_event_fresh db a ev :
  ledger_inv db → run_state a ev → lg_coords (db_ledger db) !! ba_Coordinate a = None →
  lg_events (db_ledger db) !! ba_StateEventID a = None.
Proof.
  intros Hl Hs Hc. destruct (lg_events _ !! _) as [j|] eqn:E; [|done]. exfalso.
  destruct (li_events _ Hl _ _ E) as (b & Hb & Hid). destruct (li_intents _ Hl _ _ Hb) as (? & [= <-] & Hok).
  destruct (ao_state _ _ _ Hok) as (ev' & Hs' & _).
  rewrite <-(rs_id _ _ Hs), <-(rs_id _ _ Hs') in Hid. apply (inj hex) in Hid.
  destruct (CheckID_same ev' ev) as (_ & _ & _ & Htags & _); [apply Hs'|apply Hs|apply Hs'|apply Hs|done|].
  pose proof (tag_one _ _ _ (rs_d _ _ Hs)) as Hd. pose proof (tag_one _ _ _ (rs_d _ _ Hs')) as Hd'.
  unfold tag in *. rewrite Htags, Hd in Hd'. rewrite Hd', (ao_coord _ _ _ Hok) in Hc. done.
Qed.

Lemma admit_inv db db' c i a p :
  ledger_inv db → intents db !! i = None → lg_coords (db_ledger db) !! ba_Coordinate a = None →
  lg_events (db_ledger db) !! ba_StateEventID a = None →
  lg_pending (db_ledger db) !! i = Some (Row p) → bp_State p = BackupRunPendingState →
  bp_Coordinate p = ba_Coordinate a → hex (ev_ID (bp_RequestEvent p)) = ba_RequestEventID a →
  db_ledger db' = set_statusClock c (set_events (<[ba_StateEventID a := i]> (lg_events (db_ledger db)))
    (set_coords (<[ba_Coordinate a := i]> (lg_coords (db_ledger db)))
      (set_intents (<[i := Row a]> (intents db)) (db_ledger db)))) →
  keeps_pinned db db' → keeps_proved db db' → admission_ok db' i a → ledger_inv db'.
Proof.
  intros Hl Hi Hc He Hp Hps Hpc Hpr Hlg Hpin Hprf Ha.
  assert (keeps_keys (db_ledger db) (db_ledger db')) as Hk.
  { rewrite Hlg. split_and!; simpl; try done; by apply insert_subseteq. }
  assert (intents db' = <[i := Row a]> (intents db)) as Hint by (unfold intents; by rewrite Hlg).
  assert (∀ j b, intents db !! j = Some (Row b) → intents db' !! j = Some (Row b)) as Hrow.
  { intros j b Hb. rewrite Hint, lookup_insert_ne; congruence. }
  destruct (li_pending _ Hl _ _ Hp) as (? & [= <-] & Ho).
  split; rewrite ?Hlg; simpl; try apply Hl.
  - intros j r Hj. rewrite Hint in Hj. apply lookup_insert_Some in Hj as [[<- <-]|[Hne Hj]]; [by exists a|].
    destruct (li_intents _ Hl _ _ Hj) as (b & -> & Hb). exists b. split; [done|]. by eapply admission_survives.
  - intros c' j [[<- <-]|[_ (b & ? & ?)%(li_coords _ Hl)]]%lookup_insert_Some; [|by eauto].
    exists a. by rewrite Hint, lookup_insert_eq.
  - intros h j [[<- <-]|[_ (b & ? & ?)%(li_events _ Hl)]]%lookup_insert_Some; [|by eauto].
    exists a. by rewrite Hint, lookup_insert_eq.
  - intros h j [Hne [(b & ? & ?)|?]]%(li_status _ Hl); (split; [done|]); [left; eauto|by right].
  - intros j r Hj. destruct (li_pending _ Hl _ _ Hj) as (q & -> & Hq). exists q. split; [done|].
    eapply pending_survives; eauto. intros Hs Hn Hco.
    assert (j ≠ i) as Hji by (intros ->; rewrite Hp in Hj; simplify_eq; by rewrite Hps in Hs).
    split; [by rewrite Hint, lookup_insert_ne|]. rewrite Hlg. simpl. rewrite lookup_insert_ne; [done|].
    intros Heq. pose proof (po_coord _ _ _ Hq) as Hqc. rewrite <-Heq, <-Hpc, (po_coord _ _ _ Ho) in Hqc. congruence.
  - intros j b q Hb Hq. rewrite Hint in Hb. apply lookup_insert_Some in Hb as [[<- [= <-]]|[Hne Hb]];
      [rewrite Hp in Hq; by simplify_eq|by eapply (li_link _ Hl)].
  - intros j r Hj. rewrite Hint in Hj. apply lookup_insert_Some in Hj as [[<- _]|[_ Hj]]; [by rewrite Hp|by eapply (li_request _ Hl)].
Qed.

Lemma intake_inv db db' c p :
  let i := bp_IntentID p in
  ledger_inv db → lg_pending (db_ledger db) !! i = None → intents db !! i = None →
  lg_pendingCoords (db_ledger db) !! bp_Coordinate p = None →
  lg_pendingEvents (db_ledger db) !! hex (ev_ID (bp_RequestEvent p)) = None →
  bp_State p = BackupRunPendingState →
  db_ledger db' = set_statusClock c (set_due ({[backupRunDueKey p]} ∪ lg_due (db_ledger db))
    (set_pendingEvents (<[hex (ev_ID (bp_RequestEvent p)) := i]> (lg_pendingEvents (db_ledger db)))
      (set_pendingCoords (<[bp_Coordinate p := i]> (lg_pendingCoords (db_ledger db)))
        (set_lpending (<[i := Row p]> (lg_pending (db_ledger db))) (db_ledger db))))) →
  keeps_pinned db db' → keeps_proved db db' → pending_ok db' i p → ledger_inv db'.
Proof.
  intros i Hl Hp Hi Hc He Hs Hlg Hpin Hprf Ho.
  assert (keeps_keys (db_ledger db) (db_ledger db')) as Hk.
  { rewrite Hlg. split_and!; simpl; try done; by apply insert_subseteq. }
  assert (intents db' = intents db) as Hint by (unfold intents; by rewrite Hlg).
  assert (∀ j q, lg_pending (db_ledger db) !! j = Some (Row q) →
                 <[i := Row p]> (lg_pending (db_ledger db)) !! j = Some (Row q)) as Hrow.
  { intros j q Hq. rewrite lookup_insert_ne; congruence. }
  split; rewrite ?Hint; rewrite ?Hlg; simpl; try apply Hl.
  - intros j r Hj. destruct (li_intents _ Hl _ _ Hj) as (b & -> & Hb). exists b. split; [done|]. by eapply admission_survives.
  - intros h j [Hne [?|(q & ? & ?)]]%(li_status _ Hl); (split; [done|]); [by left|right; eauto].
  - intros j r [[<- <-]|[Hne Hj]]%lookup_insert_Some; [by exists p|].
    destruct (li_pending _ Hl _ _ Hj) as (q & -> & Hq). exists q. split; [done|].
    eapply pending_survives; eauto; rewrite ?Hint, ?Hlg; eauto.
  - intros c' j [[<- <-]|[_ (q & ? & ?)%(li_pcoords _ Hl)]]%lookup_insert_Some; [|by eauto].
    exists p. by rewrite lookup_insert_eq.
  - intros h j [[<- <-]|[_ (q & ? & ?)%(li_pevents _ Hl)]]%lookup_insert_Some; [|by eauto].
    exists p. by rewrite lookup_insert_eq.
  - intros j a q Ha [[<- [= <-]]|[_ Hq]]%lookup_insert_Some; [congruence|by eapply (li_link _ Hl)].
  - intros j r Hj. apply lookup_insert_is_Some'. right. by eapply (li_request _ Hl).
  - intros k. rewrite elem_of_union, elem_of_singleton, (li_due _ Hl). split.
    + intros [->|(j & q & ? & ? & ->)]; [exists i, p; by rewrite lookup_insert_eq|eauto 10].
    + intros (j & q & [[<- [= <-]]|[_ Hq]]%lookup_insert_Some & ? & ->); [by left|right; eauto 10].
  - intros j. rewrite (li_refusals _ Hl). split; [intros (q & ? & ?); eauto|].
    intros (q & [[<- [= <-]]|[_ Hq]]%lookup_insert_Some & Hq' & ?); [by rewrite Hs in Hq'|eauto].
Qed.
End ledger_ops.
