(* ===== verification/OpsInv.v ===== *)
(** * Every operation preserves the invariant of the file

    One lemma per mutating method of the outbox and of the backup-run
    ledger. *)

From Stdlib Require Import ZArith Lia Bool.
From stdpp Require Import base tactics decidable option list numbers strings gmap.
From S2P Require Import Prelude Bytes Nostr EventID EventIDFacts Bolt OutboxData OutboxStore Outbox.
From S2P Require Import BackupRun BackupRunPending OutboxInv OutboxRetention.
From S2P Require Import LedgerInv.

(** ** Transactions that only move the status clock *)

Definition clocked (db db' : DB) : Prop := ∃ c, db' = upd_ledger (set_statusClock c) db.

#[export] Instance clocked_refl : Reflexive clocked.
Proof. intros [t l]. exists (lg_statusClock l). by destruct l. Qed.
#[export] Instance clocked_trans : Transitive clocked.
Proof. intros db1 db2 db3 [c1 ->] [c2 ->]. by exists c2. Qed.

Section ops_inv.
Context `{NostrLaws}.

Lemma raise_clock_clocked key ev db db' : raise_clock key ev db = Ok db' → clocked db db'.
Proof. unfold raise_clock. intros. inv_ok. case_match; inv_ok; subst; [reflexivity|by eexists]. Qed.

Lemma recordStatus_clocked ev db db' : recordBackupRunStatusTimestamp ev db = Ok db' → clocked db db'.
Proof.
  unfold recordBackupRunStatusTimestamp. case_match; [apply raise_clock_clocked|intros; inv_ok; subst; reflexivity].
Qed.

Lemma recordCoordinate_clocked ev c db db' :
  recordBackupRunCoordinateStatusTimestamp ev c db = Ok db' → clocked db db'.
Proof. unfold recordBackupRunCoordinateStatusTimestamp. case_match; [done|apply raise_clock_clocked]. Qed.

(** Table writes with the proofs and the ledger (but its clock) unchanged,
    every pinned event still held. *)
Lemma db_inv_tables db db' c :
  db_inv db → tables_inv (db_tables db') → proofs db' = proofs db →
  db_ledger db' = set_statusClock c (db_ledger db) → keeps_pinned db db' → db_inv db'.
Proof.
  intros [Ht Hp Hl] Ht' Hp' Hl' Hk. split; [done|unfold proofs_inv; by rewrite Hp'|].
  eapply ledger_frame; [done|done| |done]. intros ??. by apply proved_same.
Qed.

Lemma clocked_inv db db' : clocked db db' → db_inv db → db_inv db'.
Proof.
  intros [c ->] Hi. eapply db_inv_tables; [done|apply Hi|done..|]. apply keeps_pinned_held, held_same. done.
Qed.

(** ** Enqueue *)

(** What the types and the callers give of an entry. *)
Record entry_input (e : OutboxEntry) : Prop := {
  ei_event : wf_event (oe_Event e);
  ei_target : slen (oe_Target e) < two32;
  ei_enqueued : time_is_zero (oe_EnqueuedAt e) = true ∨ instant_ok (oe_EnqueuedAt e);
}.

Definition enqueue_at (now : Z) (e : OutboxEntry) : Z := if time_is_zero (oe_EnqueuedAt e) then now else oe_EnqueuedAt e.

Lemma fresh_entry_ok now e : instant_ok now → entry_input e → contains_nul (oe_Target e) = false →
  entry_ok (ev_ID (oe_Event e)) (fresh_entry e (enqueue_at now e)).
Proof.
  intros Hn [Hw Ht He] Hnul. split; simpl; [done..| |by left]. unfold enqueue_at.
  destruct He as [-> |He]; [done|]. by case_match.
Qed.

(** A new entry, filed with its pending and coordinate keys. *)
Lemma insert_db_inv db db' c id e k :
  db_inv db → entries db !! id = None → entry_ok id e → oe_State e = OutboxPending →
  k = pendingKey (oe_Target e) (oe_EnqueuedAt e) id →
  db' = put_coordinate (outboxCoordinateKey (oe_Target e) (oe_Event e)) (put_pending k
    (upd_ledger (set_statusClock c) (put_entry id e db))) →
  db_inv db'.
Proof.
  intros Hi Hno Hok Hs -> ->.
  eapply (db_inv_tables db _ c); [done| |by destruct (outboxCoordinateKey _ _)..|].
  - by apply (insert_entry_inv db id e _ _ (inv_tables _ Hi)).
  - apply keeps_pinned_held, (held_insert _ _ id e Hno). by destruct (outboxCoordinateKey _ _).
Qed.

Lemma enqueue_ok now e o b o' :
  enqueue now e o = Ok (b, o') →
  ob_readOnly o = false ∧ contains_nul (oe_Target e) = false ∧ ev_ID (oe_Event e) ≠ ZeroID ∧
  ∃ db', enqueue_tx (fresh_entry e (enqueue_at now e)) (ob_db o) = Ok (b, db') ∧ o' = set_db o db'.
Proof.
  unfold enqueue. fold (enqueue_at now e). intros. inv_ok. bool_facts. simplify_eq.
  split_and!; [done..|by apply String.eqb_neq|]. destruct v2. eauto.
Qed.

Lemma enqueue_db_inv now e o b o' :
  instant_ok now → entry_input e → enqueue now e o = Ok (b, o') → db_inv (ob_db o) → db_inv (ob_db o').
Proof.
  intros Hn He (_ & Hnul & _ & db' & Hq & ->)%enqueue_ok Hi. simpl.
  pose proof (fresh_entry_ok now e Hn He Hnul) as Hok.
  unfold enqueue_tx in Hq. case_match eqn:E; inv_ok; simplify_eq; [done|].
  apply recordStatus_clocked in Hok0 as [c ->]. by eapply insert_db_inv.
Qed.

(** ** Delivery rounds *)

Lemma ValidFor_facts p ev target : ValidFor p ev target = true →
  pr_Target p = target ∧ ev_ID (pr_Event p) = ev_ID ev ∧ CheckID (pr_Event p) = true ∧ VerifySignature (pr_Event p) = true.
Proof.
  unfold ValidFor. case_match eqn:E; [done|]. intros _. bool_facts. split_and!; [by apply String.eqb_eq..|done|done].
Qed.

(** Recording a proof: none, or one for this entry where none was stored. *)
Lemma recordPublisherProof_ok e round at_ b db db' :
  recordPublisherProof e round at_ b db = Ok db' →
  db' = db ∨ b = true ∧ ro_Delivered round = true ∧ isProofEligibleForRound db (oe_Event e) = true ∧
    proofs db !! ev_ID (oe_Event e) = None ∧
    ∃ p, canonicalDeliveryProof (with_relays e (ro_Relays round)) (ro_Policy round) at_ = Some p ∧
         db' = put_proof (ev_ID (oe_Event e)) p db.
Proof.
  unfold recordPublisherProof. intros. case_match eqn:E1; inv_ok; subst; [by left|].
  case_match eqn:E2; inv_ok; subst; [by left|right]. bool_facts.
  case_match; inv_ok; subst. split_and!; [done..|by apply eq_None_not_Some|eauto].
Qed.

Lemma canonicalDeliveryProof_ok e policy at_ p :
  canonicalDeliveryProof e policy at_ = Some p →
  p = mkProof (oe_Event e) (oe_Target e) policy (relayOK_of (oe_Relays e) (dp_WriteRelays policy)) at_ ∧
  ValidFor p (oe_Event e) (oe_Target e) = true ∧
  isProofEligibleEvent (oe_Event e) || isBackupRunTerminalStatusEvent (oe_Event e) = true.
Proof.
  unfold canonicalDeliveryProof. case_match eqn:E1; [done|]. case_match eqn:E2; [|done]. intros [= <-].
  split; [done|]. split; [done|]. bool_facts.
  by destruct (isProofEligibleEvent _), (isBackupRunTerminalStatusEvent _).
Qed.

Lemma recordPublisherProof_inv e round at_ b db db' :
  wf_event (oe_Event e) → recordPublisherProof e round at_ b db = Ok db' → db_inv db →
  db_inv db' ∧ entries db' = entries db ∧ db_ledger db' = db_ledger db ∧ proofs db ⊆ proofs db'.
Proof.
  intros Hw [->|(_ & _ & _ & Hno & p & (-> & Hv & Hel)%canonicalDeliveryProof_ok & ->)]%recordPublisherProof_ok Hi; [done|].
  simpl in *. split_and!; [|done..|by apply insert_subseteq]. split.
  - eapply same_tables_inv, Hi. eauto with outbox.
  - intros id r Hr. unfold proofs in Hr. simpl in Hr. apply lookup_insert_Some in Hr as [[<- <-]|[_ Hr]];
      [|by apply (inv_proofs _ Hi)]. by eexists.
  - eapply (ledger_frame db _ (lg_statusClock (db_ledger db))); [by destruct db as [? []]| | |apply Hi].
    + by apply keeps_pinned_held, held_same.
    + intros h t (id & q & Hid & Hq & Ht). exists id, q. split_and!; [done| |done].
      eapply lookup_weaken; [apply Hq|]. by apply insert_subseteq.
Qed.

Lemma run_state_ext a a' ev :
  ba_StateEventID a' = ba_StateEventID a → ba_ServicePubkey a' = ba_ServicePubkey a →
  ba_Coordinate a' = ba_Coordinate a → run_state a ev → run_state a' ev.
Proof. intros Hs Hk Hc []. split; congruence. Qed.

(** The delivered state event is the admission's, on its target. *)
Lemma admission_entry db i a e :
  ledger_inv db → intents db !! i = Some (Row a) → ba_StatusDelivered a = false →
  entries db !! ev_ID (oe_Event e) = Some (Row e) → ba_StateEventID a = hex (ev_ID (oe_Event e)) →
  run_state a (oe_Event e) ∧ oe_Target e = ba_Target a.
Proof.
  intros Hl Hi Hd He Hid. destruct (li_intents _ Hl _ _ Hi) as (? & [= <-] & Ha).
  destruct (ao_state _ _ _ Ha) as (ev & Hs & Hh). destruct (Hh Hd) as (e' & He' & <- & Ht).
  rewrite <-(rs_id _ _ Hs) in Hid. apply (inj hex) in Hid. rewrite Hid, He in He'. by simplify_eq.
Qed.

Lemma proof_valid_proved db ev target :
  wf_event ev → proof_valid db ev target = true → proved db (hex (ev_ID ev)) target.
Proof.
  unfold proof_valid. intros Hw. case_match; [|done]. case_match eqn:E; [|done]. apply unmarshal_Some in E as ->.
  intros (Ht & _)%ValidFor_facts. eexists _, _. split; [by apply id_from_hex_hex, Hw|done].
Qed.

Lemma set_intents_same l : set_statusClock (lg_statusClock l) (set_statusEvents (lg_statusEvents l) l) = l.
Proof. by destruct l. Qed.

(** A ledger write keeps the tables. *)
Lemma db_inv_ledger db db' : db_tables db' = db_tables db → db_inv db → ledger_inv db' → db_inv db'.
Proof. intros Ht [? Hp ?] ?. split; [by rewrite Ht| |done]. unfold proofs_inv, proofs in *. by rewrite Ht. Qed.

Lemma updateAdmission_inv e db db' :
  db_inv db → entries db !! ev_ID (oe_Event e) = Some (Row e) →
  updateBackupRunAdmissionDelivery e db = Ok db' → db_inv db' ∧ entries db' = entries db.
Proof.
  intros Hi He Hu. unfold updateBackupRunAdmissionDelivery in Hu. case_match eqn:Ee; inv_ok; subst; [|done].
  case_match eqn:Ed; inv_ok; subst; [done|]. case_match eqn:Ede; inv_ok; subst; [|done].
  split; [|done]. apply (db_inv_ledger db); [done..|]. rename v into a. bool_facts.
  destruct (intents db !! _) as [raw|] eqn:Hr; [|done]. apply unmarshal_Some in Hok as ->. apply String.eqb_eq in Hreq.
  destruct (li_intents _ (inv_ledger _ Hi) _ _ Hr) as (? & [= <-] & Ha).
  assert (ba_StatusDelivered a = false) as Hsd.
  { destruct (ao_status _ _ _ Ha) as [[_ ?]|[_ Hs]]; [done|]. rewrite (st_delivered _ _ _ Hs) in Ed. done. }
  destruct (admission_entry _ _ _ _ (inv_ledger _ Hi) Hr Hsd He Hreq) as [Hs Ht].
  eapply (update_admission_inv db _ (lg_statusClock (db_ledger db)) (lg_statusEvents (db_ledger db)) _ a (set_delivered a));
    try done; [apply Hi|by left|by apply keeps_pinned_held, held_same|by intros ??; apply proved_same|].
  destruct Ha as [? ? ? (ev & Hev & Hh) ? Hss]. split; try done.
  - exists ev. split; [by apply (run_state_ext a)|done].
  - intros _. apply (proved_same db); [done|]. simpl. rewrite Hreq, <-Ht. apply proof_valid_proved; [apply Hs|done].
  - destruct Hss as [?|[? Hss]]; [by left|right]. split; [done|]. destruct Hss. by split.
Qed.

Lemma refusal_event_ext p p' ev :
  bp_StatusEventID p' = bp_StatusEventID p → bp_ServicePubkey p' = bp_ServicePubkey p →
  bp_Actor p' = bp_Actor p → bp_IntentID p' = bp_IntentID p →
  ev_ID (bp_RequestEvent p') = ev_ID (bp_RequestEvent p) → refusal_event p ev → refusal_event p' ev.
Proof.
  intros Hs Hk Ha Hi He []. split; try congruence; unfold private_coordinate, refusal_bound in *;
    by rewrite ?Ha, ?Hi, ?He.
Qed.

(** The due key of a record that is not pending is not indexed. *)
Lemma dueKey_absent db i p : ledger_inv db → lg_pending (db_ledger db) !! i = Some (Row p) →
  bp_State p ≠ BackupRunPendingState → backupRunDueKey p ∉ lg_due (db_ledger db).
Proof.
  intros Hl Hp Hs Hk. destruct (li_pending _ Hl _ _ Hp) as (? & [= <-] & Ho).
  apply (li_due _ Hl) in Hk as (j & q & Hq & Hqs & Heq).
  apply (f_equal (drop_bytes 8)) in Heq. rewrite !drop_dueKey, (po_intent _ _ _ Ho) in Heq.
  destruct (li_pending _ Hl _ _ Hq) as (? & [= <-] & Hoq). rewrite (po_intent _ _ _ Hoq) in Heq. subst.
  rewrite Hp in Hq. by simplify_eq.
Qed.

(** An update that leaves a record outside both work lists. *)
Lemma update_settled_pending db db' c i p p' :
  ledger_inv db → lg_pending (db_ledger db) !! i = Some (Row p) →
  db_ledger db' = set_statusClock c (set_lpending (<[i := Row p']> (lg_pending (db_ledger db))) (db_ledger db)) →
  keeps_pinned db db' → keeps_proved db db' →
  bp_Coordinate p' = bp_Coordinate p → ev_ID (bp_RequestEvent p') = ev_ID (bp_RequestEvent p) →
  bp_State p' = bp_State p → bp_StatusEventID p' = bp_StatusEventID p →
  bp_State p ≠ BackupRunPendingState → (bp_State p = BackupRunRefusedState → bp_StatusEventID p ≠ "") →
  pending_ok db' i p' → ledger_inv db'.
Proof.
  intros Hl Hp Hlg Hpin Hprf Hc Hev Hs Hst Hnp Href Ho'.
  eapply (update_pending_inv db db' c (lg_statusEvents (db_ledger db)) (lg_due (db_ledger db)) (lg_refusals (db_ledger db)) i p p');
    try done.
  - by left.
  - rewrite Hs, Hst. by intros -> _.
  - intros k. rewrite Hs. split; [|by intros [[]|[]]]. intros Hk. left. split; [done|]. intros ->. by eapply dueKey_absent.
  - intros j. rewrite Hs, Hst. split; [|intros [[]|(-> & ? & ?)]; [done|]; by destruct Href]. intros Hj. left. split; [done|].
    intros ->. apply (li_refusals _ Hl) in Hj as (q & Hq & Hqs & Hqe). rewrite Hp in Hq. simplify_eq. by apply Href.
Qed.

Lemma hex_id_nonempty db id e : tables_inv (db_tables db) → entries db !! id = Some (Row e) →
  hex (ev_ID (oe_Event e)) ≠ "".
Proof.
  intros Ht He Hh%(f_equal String.length). destruct (ti_rows _ Ht _ _ He) as (? & [= <-] & Hok).
  rewrite length_hex, (wf_id _ (eo_event _ _ Hok)) in Hh. done.
Qed.

Lemma updateRefusal_inv e i db db' :
  db_inv db → entries db !! ev_ID (oe_Event e) = Some (Row e) →
  updateBackupRunRefusalDelivery e i db = Ok db' → db_inv db' ∧ entries db' = entries db.
Proof.
  intros Hi He Hu. unfold updateBackupRunRefusalDelivery in Hu. case_match; inv_ok; subst; [done|].
  case_match eqn:Ed; inv_ok; subst; [done|]. split; [|done]. apply (db_inv_ledger db); [done..|]. rename v into p.
  destruct (lg_pending _ !! _) as [raw|] eqn:Hp; [|done]. apply unmarshal_Some in Hok as ->.
  bool_facts. apply String.eqb_eq in H3, H4, H2.
  destruct (li_pending _ (inv_ledger _ Hi) _ _ Hp) as (? & [= <-] & Ho).
  destruct (ti_rows _ (inv_tables _ Hi) _ _ He) as (? & [= <-] & Hok).
  destruct (po_state _ _ _ Ho) as [Hs _ _|? Hs _ _ _ _|Hs Hno Hc Hst]; [by rewrite Hs in *..|].
  destruct Hst as [[Hst _]|[Hne Hst]]; [by apply (hex_id_nonempty _ _ _ (inv_tables _ Hi)) in He; congruence|].
  eapply (update_settled_pending db _ (lg_statusClock (db_ledger db)) i p (set_refusalDelivered p)); try done;
    [apply Hi|by apply keeps_pinned_held, held_same|by intros ??; apply proved_same|by rewrite Hs|].
  destruct Ho. split; try done. apply ps_refused; [done..|]. right. split; [done|].
  destruct Hst as [? (ev & Hev & _) _]. split; [done|exists ev; split; [by apply (refusal_event_ext p)|done]|].
  intros _. apply (proved_same db); [done|]. simpl. rewrite H4, H3. apply proof_valid_proved; [apply Hok|done].
Qed.

Lemma updateStatus_inv e db db' :
  db_inv db → entries db !! ev_ID (oe_Event e) = Some (Row e) →
  updateBackupRunStatusDelivery e db = Ok db' → db_inv db' ∧ entries db' = entries db.
Proof.
  intros Hi He Hu. unfold updateBackupRunStatusDelivery in Hu. case_match eqn:Ee; inv_ok; subst; [|done].
  case_match; inv_ok; subst; [done|]. case_match eqn:Hr; [|by eapply updateRefusal_inv]. inv_ok.
  case_match eqn:Ed; inv_ok; subst; [done|]. split; [|done]. apply (db_inv_ledger db); [done..|]. rename v into a.
  apply unmarshal_Some in Hok as ->. bool_facts. apply String.eqb_eq in H2, H5.
  destruct (li_intents _ (inv_ledger _ Hi) _ _ Hr) as (? & [= <-] & Ha).
  destruct (ti_rows _ (inv_tables _ Hi) _ _ He) as (? & [= <-] & Hok).
  eapply (update_admission_inv db _ (lg_statusClock (db_ledger db)) (lg_statusEvents (db_ledger db)) _ a
    (set_statusDelivered a)); try done;
    [apply Hi|by left|by apply keeps_pinned_held, held_same|by intros ??; apply proved_same|].
  destruct Ha as [? ? ? (ev & Hev & _) ? Hss]. split; try done.
  - exists ev. split; [by apply (run_state_ext a)|done].
  - destruct Hss as [[Hno _]|[Hne Hss]]; [by apply (hex_id_nonempty _ _ _ (inv_tables _ Hi)) in He; congruence|].
    right. split; [done|]. destruct Hss as [? ? ? (ev' & ? & ? & ? & _) _]. split; try done; [by exists ev'|].
    intros _. apply (proved_same db); [done|]. simpl. rewrite H2, H5. apply proof_valid_proved; [apply Hok|done].
Qed.

Lemma round_writes_facts now id round stored db e db' : round_writes now id round stored db e db' →
  entries db' = <[id := Row e]> (entries db) ∧ proofs db' = proofs db ∧ db_ledger db' = db_ledger db ∧
  oe_Event e = oe_Event stored ∧ oe_Target e = oe_Target stored.
Proof. destruct 1 as [Hs|[Hs|Hs]]; [done|by rewrite Hs..]. Qed.

Lemma same_clock db l : l = db_ledger db → l = set_statusClock (lg_statusClock (db_ledger db)) (db_ledger db).
Proof. intros ->. by destruct (db_ledger db). Qed.

Lemma round_writes_db_inv now id round stored db e db' :
  db_inv db → entries db !! id = Some (Row stored) → oe_State stored = OutboxPending →
  instant_ok (round_at now round) → round_writes now id round stored db e db' → db_inv db'.
Proof.
  intros Hi Hid Hp Hat Hw. destruct (round_writes_facts _ _ _ _ _ _ _ Hw) as (He & Hpr & Hl & Hev & Ht).
  eapply db_inv_tables; [done|by eapply round_writes_inv; [apply Hi|..]|done|by apply same_clock|].
  by eapply keeps_pinned_held, held_update.
Qed.

Lemma commitRound_tx_db_inv now id round b db e db' :
  instant_ok (round_at now round) → commitRound_tx now id round b db = Ok (e, db') → db_inv db → db_inv db'.
Proof.
  intros Hat (stored & Hid & _ & _ & Hcase)%commitRound_tx_ok Hi.
  destruct (ti_rows _ (inv_tables _ Hi) _ _ Hid) as (? & [= <-] & Hok).
  destruct Hcase as [(_ & -> & db1 & H1 & H2)|(Hp & db1 & db2 & db3 & Hw & H1 & H2 & H3)].
  - apply recordPublisherProof_inv in H1 as (Hi1 & He1 & _); [|apply Hok|done].
    apply updateStatus_inv in H2 as [? _]; [done|done|]. by rewrite He1, (eo_id _ _ Hok).
  - pose proof (round_writes_db_inv _ _ _ _ _ _ _ Hi Hid Hp Hat Hw) as Hi1.
    apply round_writes_facts in Hw as (He & _ & _ & Hev & _).
    assert (entries db1 !! ev_ID (oe_Event e) = Some (Row e)) as Hrow
      by (rewrite He, Hev, (eo_id _ _ Hok); apply lookup_insert_eq).
    apply recordPublisherProof_inv in H1 as (Hi2 & He2 & _); [|rewrite Hev; apply Hok|done]. rewrite <-He2 in Hrow.
    apply updateAdmission_inv in H2 as [Hi3 He3]; [|done..]. rewrite <-He3 in Hrow.
    by apply updateStatus_inv in H3 as [? _].
Qed.

(** ** Retention and retry *)

Lemma removes_db_inv rm db db' :
  db_inv db → removes rm db db' → (∀ id, id ∈ rm → backupRunAdmissionUnresolved id db = Ok false) → db_inv db'.
Proof.
  intros Hi [Ht Hl Hp He] Hrm. eapply db_inv_tables; [done|done|done|by apply same_clock|].
  intros ev target (e & Hev & ? & ?) Hpin. exists e. rewrite He. rewrite bool_decide_eq_false_2; [done|].
  intros Hin%Hrm. congruence.
Qed.

Lemma Prune_db_inv hold pf pb fb o n o' :
  instant_ok pb → instant_ok fb → Prune hold pf pb fb o = Ok (n, o') → db_inv (ob_db o) → db_inv (ob_db o').
Proof.
  intros Hpb Hfb Hp Hi. unfold Prune in Hp. case_match; inv_ok; simplify_eq; [done|].
  case_match; inv_ok; simplify_eq; [done|]. destruct v as [n' db']. simpl.
  apply prune_states_ok in Hok as (rm & Hr & _ & Hrm & _); [|apply Hi|].
  - eapply removes_db_inv; [done..|]. intros id (e & _ & _ & Hu)%Hrm. done.
  - intros st b Hst. destruct pf; repeat (apply elem_of_cons in Hst as [[= -> ->]|Hst]; [by auto|]); by apply not_elem_of_nil in Hst.
Qed.

Lemma purge_ok matches o ids o' :
  tables_inv (db_tables (ob_db o)) → PurgeEvents matches o = Ok (ids, o') →
  ob_readOnly o = false ∧ ids `sublist_of` bucket_keys (entries (ob_db o)) ∧
  removes (list_to_set ids) (ob_db o) (ob_db o') ∧
  (∀ id, id ∈ ids ↔ ∃ e, entries (ob_db o) !! id = Some (Row e) ∧ matches (oe_Event e) = true) ∧
  (∀ id, id ∈ ids → backupRunAdmissionUnresolved id (ob_db o) = Ok false ∧ proofs (ob_db o) !! id = None).
Proof.
  intros Ht Hp. unfold PurgeEvents in Hp.
  destruct (purge_victims_ok matches (entries (ob_db o)) (bucket_keys (entries (ob_db o))) (ti_rows _ Ht))
    as (victims & Hv & Hvs & Hsub). rewrite Hv in Hp. simpl in Hp. inv_ok. simplify_eq. simpl.
  assert (∀ e, e ∈ victims → entries (ob_db o) !! ev_ID (oe_Event e) = Some (Row e)) as Hrow.
  { intros e (id & _ & He & _)%Hvs. destruct (ti_rows _ Ht _ _ He) as (? & [= <-] & Hok). by rewrite (eo_id _ _ Hok). }
  rename select (purge_loop _ _ = _) into Hloop. apply purge_loop_ok in Hloop as [Hr Hall]; [|done|by eapply sublist_NoDup, Hsub; apply NoDup_bucket_keys|done].
  bool_facts. split_and!; [done|done|done| |].
  - intros id. rewrite list_elem_of_fmap. split.
    + intros (e & -> & Hv'). exists e. split; [by apply Hrow|]. by apply Hvs in Hv' as (? & _ & _ & ?).
    + intros (e & He & Hm). destruct (ti_rows _ Ht _ _ He) as (? & [= <-] & Hok). exists e. split; [by rewrite (eo_id _ _ Hok)|].
      apply Hvs. exists id. split; [by apply elem_of_bucket_keys|done].
  - intros id (e & -> & He)%list_elem_of_fmap. by apply Hall.
Qed.

Lemma PurgeEvents_db_inv matches o ids o' :
  PurgeEvents matches o = Ok (ids, o') → db_inv (ob_db o) → db_inv (ob_db o').
Proof.
  intros Hp Hi. apply purge_ok in Hp as (_ & _ & Hr & _ & Hall); [|apply Hi].
  eapply removes_db_inv; [done..|]. intros id Hid%elem_of_list_to_set. by apply Hall.
Qed.

Lemma Retry_ok id o e o' : Retry id o = Ok (e, o') →
  ob_readOnly o = false ∧ ∃ stored, entries (ob_db o) !! id = Some (Row stored) ∧ oe_State stored = OutboxFailed ∧
    e = reset_entry stored ∧ o' = set_db o (retry_entry id (settledKey (oe_SettledAt stored) id) stored (ob_db o)).
Proof.
  unfold Retry. intros. inv_ok. bool_facts. simplify_eq. split; [done|].
  rename select (unmarshal _ = _) into Hu. apply unmarshal_Some in Hu as ->. eexists. split_and!; [done|by apply String.eqb_eq|done..].
Qed.

Lemma Retry_db_inv id o e o' : Retry id o = Ok (e, o') → db_inv (ob_db o) → db_inv (ob_db o').
Proof.
  intros (_ & stored & Hid & Hf & -> & ->)%Retry_ok Hi. simpl.
  eapply db_inv_tables; [done|by apply retry_entry_inv; [apply Hi|..]|done|by apply same_clock|].
  by eapply keeps_pinned_held, (held_update _ _ id stored (reset_entry stored)).
Qed.

Lemma RetryAllFailed_ok o : ob_readOnly o = false → tables_inv (db_tables (ob_db o)) →
  ∃ db', RetryAllFailed o = Ok (Z.of_nat (size (tb_failed (db_tables (ob_db o)))), set_db o db') ∧
    tables_inv (db_tables db') ∧ db_ledger db' = db_ledger (ob_db o) ∧ proofs db' = proofs (ob_db o) ∧
    (∀ id, entries db' !! id =
       retried_row (index_keys (tb_failed (db_tables (ob_db o)))) id <$> entries (ob_db o) !! id).
Proof.
  intros Hro Ht. unfold RetryAllFailed. rewrite Hro. simpl.
  destruct (retry_loop_ok (index_keys (tb_failed (db_tables (ob_db o)))) 0 _ Ht) as (db' & -> & Hrest);
    [apply NoDup_index_keys|by intros k ?%elem_of_index_keys|].
  exists db'. simpl. by rewrite length_index_keys.
Qed.

Lemma RetryAllFailed_db_inv o n o' : RetryAllFailed o = Ok (n, o') → db_inv (ob_db o) → db_inv (ob_db o').
Proof.
  intros Hr Hi. destruct (ob_readOnly o) eqn:Hro; [by unfold RetryAllFailed in Hr; rewrite Hro in Hr|].
  destruct (RetryAllFailed_ok o Hro (inv_tables _ Hi)) as (db' & Heq & Ht & Hl & Hp & He).
  rewrite Heq in Hr. simplify_eq. simpl. eapply db_inv_tables; [done|done|done|by apply same_clock|].
  apply keeps_pinned_held. intros ev target (e & Hev & <- & <-). unfold held. rewrite He, Hev. simpl.
  case_match; [by exists (reset_entry e)|by exists e].
Qed.
End ops_inv.
