(* ===== verification/LedgerOpsInv.v ===== *)
(** * Ledger operations preserve the invariant of the file

    Intake, retry, refusal, admission, status staging and compaction of backup
    runs, with what the types and the callers give of their arguments. *)

From Stdlib Require Import ZArith Lia Bool.
From stdpp Require Import base tactics decidable option list numbers strings gmap.
From S2P Require Import Prelude Bytes Nostr EventID EventIDFacts Bolt OutboxData OutboxStore Outbox.
From S2P Require Import BackupRun BackupRunPending OutboxInv OutboxRetention.
From S2P Require Import LedgerInv OpsInv.

Section ledger_ops_inv.
Context `{NostrLaws}.

(** ** Intake *)

(** A request as [StagePendingRun] builds it: no status yet. *)
Record pending_input (r : BackupRunPending) : Prop := {
  pi_status : bp_StatusEventID r = "";
  pi_delivered : bp_StatusDelivered r = false;
  pi_nonzero : ev_ID (bp_RequestEvent r) ≠ ZeroID;
}.

Lemma bool_decide_none {A} (x : option A) : negb (bool_decide (is_Some x)) = true → x = None.
Proof. intros. bool_facts. by apply eq_None_not_Some. Qed.

Lemma putPending_tx_db_inv r r' b db db' :
  pending_input r → validBackupRunPendingIdentity r = true → putPending_tx (fresh_pending r) db = Ok (r', b, db') →
  db_inv db → db_inv db'.
Proof.
  intros [Hst Hd Hz] Hv Hp Hi. unfold putPending_tx in Hp. case_match eqn:E; inv_ok; simplify_eq; [done|].
  rename select (_ && _ = true) into Hg. apply andb_true_iff in Hg as [Hg Hg4%bool_decide_none].
  apply andb_true_iff in Hg as [Hg Hg3%bool_decide_none]. apply andb_true_iff in Hg as [Hg1%bool_decide_none Hg2%bool_decide_none].
  apply (db_inv_ledger db); [done..|].
  eapply (intake_inv db _ (lg_statusClock (db_ledger db)) (fresh_pending r)); try done; [apply Hi|..].
  - by apply keeps_pinned_held, held_same.
  - intros ??. by apply proved_same.
  - split; simpl; [done|by rewrite lookup_insert_eq..|done|done|by apply ps_pending].
Qed.

(** ** Attempts and refusal *)

Lemma load_pending_ok i h db r : load_pending i h db = Ok r →
  lg_pending (db_ledger db) !! i = Some (Row r) ∧ hex (ev_ID (bp_RequestEvent r)) = h.
Proof.
  unfold load_pending. intros. inv_ok. subst. rename select (_ ≫= unmarshal = _) into Hr.
  destruct (lg_pending _ !! _); [|done]. apply unmarshal_Some in Hr as ->. split; [done|]. by apply String.eqb_eq.
Qed.

Lemma undecided_ok r db : undecided r db = true →
  bp_State r = BackupRunPendingState ∧ lg_coords (db_ledger db) !! bp_Coordinate r = None.
Proof. unfold undecided. intros [Hs%String.eqb_eq Hc%bool_decide_none]%andb_true_iff. done. Qed.

(** A pending record moves to its next state. *)
Lemma decide_pending_inv db db' due refusals i r r' :
  db_inv db → lg_pending (db_ledger db) !! i = Some (Row r) → bp_State r = BackupRunPendingState →
  lg_coords (db_ledger db) !! bp_Coordinate r = None →
  (∃ next n reason st, r' = pending_with r (bp_RequestEvent r) next n reason st (bp_StatusEventID r) (bp_StatusTarget r) ∧
     (st = BackupRunPendingState ∨ st = BackupRunRefusedState)) →
  db' = upd_ledger (λ l, set_due due (set_refusals refusals (set_lpending (<[i := Row r']> (lg_pending l)) l))) db →
  (∀ k, k ∈ due ↔ (k ∈ lg_due (db_ledger db) ∧ k ≠ backupRunDueKey r) ∨
                  (bp_State r' = BackupRunPendingState ∧ k = backupRunDueKey r')) →
  (∀ j, j ∈ refusals ↔ j ∈ lg_refusals (db_ledger db) ∨ (j = i ∧ bp_State r' = BackupRunRefusedState)) →
  db_inv db'.
Proof.
  intros Hi Hr Hs Hc (next & n & reason & st & -> & Hst) -> Hdue Href.
  destruct (li_pending _ (inv_ledger _ Hi) _ _ Hr) as (? & [= <-] & Ho).
  destruct (po_state _ _ _ Ho) as [_ Hse Hsd|? Hs' _ _ _ _|Hs' _ _ _]; [|by rewrite Hs in Hs'..].
  assert (intents db !! i = None) as Hno.
  { destruct (intents db !! i) as [raw|] eqn:E; [|done]. destruct (li_intents _ (inv_ledger _ Hi) _ _ E) as (a & -> & Ha).
    destruct (li_link _ (inv_ledger _ Hi) _ _ _ E Hr) as [Hco _]. rewrite Hco, (ao_coord _ _ _ Ha) in Hc. done. }
  apply (db_inv_ledger db); [done..|].
  eapply (update_pending_inv db _ (lg_statusClock (db_ledger db)) (lg_statusEvents (db_ledger db)) due refusals i r); try done;
    [apply Hi|by left|by apply keeps_pinned_held, held_same|by intros ??; apply proved_same| |].
  - intros j. rewrite Href. simpl. rewrite Hse. split.
    + intros [Hj|[-> Hj]]; [left; split; [done|]|by right]. intros ->.
      apply (li_refusals _ (inv_ledger _ Hi)) in Hj as (q & Hq & Hqs & _). rewrite Hr in Hq. simplify_eq. by rewrite Hs in Hqs.
    + intros [[Hj _]|(-> & Hj & _)]; auto.
  - assert (validBackupRunPendingIdentity r = true) as Hv.
    { pose proof (po_valid _ _ _ Ho) as Hv. unfold validRetainedBackupRunIdentity in Hv. by rewrite Hs in Hv. }
    destruct Ho. split; try done.
    + unfold validRetainedBackupRunIdentity. simpl. rewrite Hse. by destruct Hst as [-> | ->].
    + destruct Hst as [-> | ->]; [by apply ps_pending|]. apply ps_refused; [done..|]. by left.
Qed.

Lemma recordAttempt_tx_db_inv i h now next reason db db' :
  recordAttempt_tx i h now next reason db = Ok db' → db_inv db → db_inv db'.
Proof.
  intros Ha Hi. unfold recordAttempt_tx in Ha. inv_ok. rename select (load_pending _ _ _ = _) into Hr.
  apply load_pending_ok in Hr as [Hr _]. case_match eqn:Eu; inv_ok; subst; [done|].
  apply negb_false_iff, undecided_ok in Eu as [Hs Hc].
  assert (∃ nx n rs st, attempted v now next reason = pending_with v (bp_RequestEvent v) nx n rs st
            (bp_StatusEventID v) (bp_StatusTarget v) ∧ (st = BackupRunPendingState ∨ st = BackupRunRefusedState)) as Hat.
  { unfold attempted. rewrite Hs. repeat case_match; eauto 10. }
  assert (∀ st, bp_State (attempted v now next reason) = st → st = BackupRunPendingState ∨ st = BackupRunRefusedState) as Hst
    by (destruct Hat as (? & ? & ? & ? & -> & ?); by intros ? <-).
  case_match eqn:Er; inv_ok; subst.
  - apply String.eqb_eq in Er. eapply (decide_pending_inv db _ (lg_due (db_ledger db) ∖ {[backupRunDueKey v]})
      ({[i]} ∪ lg_refusals (db_ledger db)) i v); try done; rewrite Er; set_solver.
  - apply String.eqb_neq in Er. destruct (Hst _ eq_refl) as [Hp|]; [|done].
    eapply (decide_pending_inv db _ ({[backupRunDueKey (attempted v now next reason)]} ∪ (lg_due (db_ledger db) ∖ {[backupRunDueKey v]}))
      (lg_refusals (db_ledger db)) i v); try done; rewrite Hp; set_solver.
Qed.

Lemma refuse_tx_db_inv i h reason db db' : refuse_tx i h reason db = Ok db' → db_inv db → db_inv db'.
Proof.
  intros Ha Hi. unfold refuse_tx in Ha. inv_ok. rename select (load_pending _ _ _ = _) into Hr.
  apply load_pending_ok in Hr as [Hr _]. case_match eqn:Eu; inv_ok; subst; [done|].
  apply negb_false_iff, undecided_ok in Eu as [Hs Hc].
  eapply (decide_pending_inv db _ (lg_due (db_ledger db) ∖ {[backupRunDueKey v]})
    ({[i]} ∪ lg_refusals (db_ledger db)) i v (refused v reason)); try done; [unfold refused; eauto 10|simpl; set_solver..].
Qed.

(** ** Admission *)

(** The pending request [StageRunAdmissionWithHistory] has read before it
    stages the run. *)
Definition has_request (db : DB) (intentID coordinate requestEventID : string) : Prop :=
  ∃ p, lg_pending (db_ledger db) !! intentID = Some (Row p) ∧ bp_Coordinate p = coordinate ∧
       hex (ev_ID (bp_RequestEvent p)) = requestEventID.

Lemma canonical_run_state e i c h actor : wf_event (oe_Event e) → canonical_run_entry e c = true →
  run_state (new_admission e i c h actor) (oe_Event e).
Proof.
  unfold canonical_run_entry. intros Hw Hc. bool_facts. split; simpl; done.
Qed.

Lemma retained_prefix p : validRetainedBackupRunIdentity p = true → has_prefix (bp_Coordinate p) "backup-run:" = true.
Proof.
  assert (validBackupRunPendingIdentity p = true → has_prefix (bp_Coordinate p) "backup-run:" = true) as Hv.
  { unfold validBackupRunPendingIdentity. case_match eqn:E; [done|]. intros _. by bool_facts. }
  unfold validRetainedBackupRunIdentity. case_match; [done|]. case_match; [done|]. case_match; [done|].
  case_match eqn:E; [done|]. intros _. by bool_facts.
Qed.

(** Run coordinates are outside the package index. *)
Lemma run_coordinateKey target ev c : oneBackupRunTag (ev_Tags ev) "d" c = true → has_prefix c "backup-run:" = true →
  outboxCoordinateKey target ev = None.
Proof.
  intros Hd%tag_one [s Hs]%has_prefix_spec. unfold outboxCoordinateKey. unfold tag in Hd. rewrite Hd, Hs.
  by destruct (IsAddressable _).
Qed.

Lemma enqueueBackupRun_tx_db_inv e i c h actor r b db db' :
  entry_ok (ev_ID (oe_Event e)) e → oe_State e = OutboxPending → canonical_run_entry e c = true →
  has_request db i c h → enqueueBackupRun_tx e i c h actor db = Ok (r, b, db') → db_inv db → db_inv db'.
Proof.
  intros Hok Hs Hcan (p & Hp & Hpc & Hpr) Hq Hi. unfold enqueueBackupRun_tx in Hq.
  case_match eqn:Ei; inv_ok; simplify_eq; [done|]. rename select (pending_owner_ok _ _ _ _ = true) into Hown.
  rename select (negb (bool_decide (is_Some (lg_coords _ !! _))) = true) into Hc. apply bool_decide_none in Hc.
  rename select (negb (bool_decide (is_Some (entries _ !! _))) = true) into He. apply bool_decide_none in He.
  destruct (li_pending _ (inv_ledger _ Hi) _ _ Hp) as (? & [= <-] & Ho).
  assert (bp_State p = BackupRunPendingState) as Hps.
  { unfold pending_owner_ok in Hown. rewrite (po_coord _ _ _ Ho), Hp in Hown. simpl in Hown. bool_facts. by apply String.eqb_eq. }
  set (a := new_admission e i (bp_Coordinate p) (hex (ev_ID (bp_RequestEvent p))) actor) in *.
  pose proof (canonical_run_state e i _ (hex (ev_ID (bp_RequestEvent p))) actor (eo_event _ _ Hok) Hcan) as Hrs. fold a in Hrs.
  set (db1 := put_pending (pendingKey (oe_Target e) (oe_EnqueuedAt e) (ev_ID (oe_Event e))) (put_entry (ev_ID (oe_Event e)) e db)).
  assert (db_inv db1) as Hi1.
  { eapply (insert_db_inv db db1 (lg_statusClock (db_ledger db))); try done.
    rewrite (run_coordinateKey _ _ (bp_Coordinate p)); [by destruct db as [? []]|apply Hrs|by eapply retained_prefix, Ho]. }
  apply (db_inv_ledger db1); [done..|].
  eapply (admit_inv db1 _ (lg_statusClock (db_ledger db)) i a p); try done; [apply Hi1|..].
  - by apply (state_event_fresh db a (oe_Event e) (inv_ledger _ Hi) Hrs).
  - by apply keeps_pinned_held, held_same.
  - intros ??. by apply proved_same.
  - split; simpl; [done|by rewrite lookup_insert_eq..| |done|by left].
    exists (oe_Event e). split; [done|]. intros _. exists e. split; [|done]. apply lookup_insert_eq.
Qed.

(** ** Status staging *)

(** What the types and the callers give of a status and its target. *)
Record status_input (now : Z) (ev : Event) (target : string) : Prop := {
  si_event : wf_event ev;
  si_now : instant_ok now;
  si_nul : contains_nul target = false;
  si_target : slen target < two32;
}.

Lemma status_entry_ok now ev target : status_input now ev target → entry_ok (ev_ID ev) (status_entry now ev target).
Proof. intros []. split; simpl; auto. Qed.

(** The status's outbox row, before the ledger is written. *)
Definition staged (now : Z) (ev : Event) (target : string) (c : gmap string string) (db : DB) : DB :=
  put_coordinate (outboxCoordinateKey target ev) (put_pending (pendingKey target now (ev_ID ev))
    (upd_ledger (set_statusClock c) (put_entry (ev_ID ev) (status_entry now ev target) db))).

Lemma staged_db_inv now ev target c db : status_input now ev target → entries db !! ev_ID ev = None → db_inv db →
  db_inv (staged now ev target c db) ∧ held (staged now ev target c db) ev target.
Proof.
  intros Hin Hno Hi. split.
  - by apply (insert_db_inv db _ c (ev_ID ev) (status_entry now ev target) (pendingKey target now (ev_ID ev)) Hi Hno
      (status_entry_ok _ _ _ Hin)).
  - exists (status_entry now ev target). split; [|done]. unfold staged. destruct (outboxCoordinateKey target ev); apply lookup_insert_eq.
Qed.

(** A terminal status event is filed once: its tags name the intent and the
    outcome. *)
Lemma status_event_fresh db i ev outcome :
  ledger_inv db → wf_event ev → CheckID ev = true → oneBackupRunTag (ev_Tags ev) "intent_id" i = true →
  tag ev "status" = outcome →
  (∀ a, intents db !! i = Some (Row a) → outcome = "accepted" → ba_StatusEventID a = "") →
  (∀ p, lg_pending (db_ledger db) !! i = Some (Row p) → outcome = "rejected" → bp_StatusEventID p = "") →
  outcome = "accepted" ∨ outcome = "rejected" →
  lg_statusEvents (db_ledger db) !! hex (ev_ID ev) = None.
Proof.
  intros Hl Hw Hc Hint Hout Ha Hp Ho. destruct (lg_statusEvents _ !! _) as [j|] eqn:E; [|done]. exfalso.
  destruct (li_status _ Hl _ _ E) as [Hne [(a & Hj & Hid)|(p & Hj & Hs & Hid)]].
  - destruct (li_intents _ Hl _ _ Hj) as (? & [= <-] & Hok). destruct (ao_status _ _ _ Hok) as [[Hno _]|[_ Hst]]; [congruence|].
    destruct (st_event _ _ _ Hst) as (ev' & Hw' & Hid' & Hev' & _). rewrite Hid in Hid'. apply (inj hex) in Hid'.
    destruct (accepted_event_facts _ _ Hev') as (Hc' & _ & _ & _ & Hint' & Hacc').
    destruct (CheckID_same ev' ev) as (_ & _ & _ & Htags & _); [done..|].
    rewrite Htags in Hint'. apply tag_one in Hint, Hint'. rewrite Hint, (ao_intent _ _ _ Hok) in Hint'. subst j.
    assert (tag ev "status" = "accepted") as Hs.
    { unfold isBackupRunAcceptedStatusEvent in Hacc'. bool_facts. unfold tag. rewrite <-Htags. by apply String.eqb_eq. }
    rewrite Hout in Hs. rewrite (Ha _ Hj Hs) in Hid. congruence.
  - destruct (li_pending _ Hl _ _ Hj) as (? & [= <-] & Hok).
    destruct (po_state _ _ _ Hok) as [Hs' _ _|? Hs' _ _ _ _|_ _ _ Hst]; [by rewrite Hs' in Hs..|].
    destruct Hst as [[Hno _]|[_ Hst]]; [congruence|]. destruct (rf_event _ _ _ Hst) as (ev' & Hev' & _).
    pose proof (re_id _ _ Hev') as Hid'. rewrite Hid in Hid'. apply (inj hex) in Hid'.
    destruct (CheckID_same ev' ev) as (_ & _ & _ & Htags & _); [apply Hev'|done|apply Hev'|done..|].
    pose proof (re_bound _ _ Hev') as Hb. unfold refusal_bound in Hb. bool_facts.
    rename select (oneBackupRunTag _ "intent_id" (bp_IntentID p) = true) into Hint'.
    rewrite Htags in Hint'. apply tag_one in Hint, Hint'. rewrite Hint, (po_intent _ _ _ Hok) in Hint'. subst j.
    assert (tag ev "status" = "rejected") as Hs'.
    { pose proof (re_kind _ _ Hev') as Hk. unfold isBackupRunRefusedStatusEvent in Hk. bool_facts.
      unfold tag. rewrite <-Htags. by apply String.eqb_eq. }
    rewrite Hout in Hs'. rewrite (Hp _ Hj Hs') in Hid. congruence.
Qed.

(** The admission fields that identify a run. *)
Definition same_run (a b : BackupRunAdmission) : Prop :=
  ba_IntentID a = ba_IntentID b ∧ ba_Coordinate a = ba_Coordinate b ∧ ba_RequestEventID a = ba_RequestEventID b ∧
  ba_StateEventID a = ba_StateEventID b ∧ ba_Actor a = ba_Actor b ∧ ba_ServicePubkey a = ba_ServicePubkey b.

Lemma accepted_status_same_run a b ev : same_run a b → accepted_status_event a ev = accepted_status_event b ev.
Proof. intros (Hi & Hc & Hr & _ & Ha & Hk). unfold accepted_status_event. by rewrite Hi, Hc, Hr, Ha, Hk. Qed.

(** Filing an accepted status and its event. *)
Lemma stage_accepted_inv db db1 db2 c a ev target :
  let a' := set_status a (hex (ev_ID ev)) target in
  db_inv db → db_inv db1 → intents db !! ba_IntentID a = Some (Row a) → ba_StatusEventID a = "" → ba_Delivered a = true →
  accepted_status_event a ev = true → wf_event ev → held db1 ev target →
  db_ledger db1 = set_statusClock c (db_ledger db) → db_tables db2 = db_tables db1 →
  db_ledger db2 = set_intents (<[ba_IntentID a := Row a']> (intents db1))
    (set_statusEvents (<[hex (ev_ID ev) := ba_IntentID a]> (lg_statusEvents (db_ledger db1))) (db_ledger db1)) →
  db_inv db2.
Proof.
  intros a' Hi Hi1 Ha Hno Hd Hev Hw Hheld Hl1 Ht2 Hl2. apply (db_inv_ledger db1); [done..|].
  assert (entries db2 = entries db1 ∧ proofs db2 = proofs db1) as [He2 Hp2] by (unfold entries, proofs; by rewrite Ht2).
  assert (intents db1 = intents db) as Hint by (unfold intents; by rewrite Hl1). rewrite <-Hint in Ha.
  destruct (accepted_event_facts _ _ Hev) as (Hc & _ & _ & _ & Hid & Hacc).
  assert (tag ev "status" = "accepted") as Hst.
  { unfold isBackupRunAcceptedStatusEvent in Hacc. bool_facts. by apply String.eqb_eq. }
  assert (lg_statusEvents (db_ledger db1) !! hex (ev_ID ev) = None) as Hfresh.
  { apply (status_event_fresh db1 (ba_IntentID a) ev "accepted" (inv_ledger _ Hi1)); try done; [|by left].
    intros b Hb _. by simplify_eq. }
  destruct (li_intents _ (inv_ledger _ Hi1) _ _ Ha) as (? & [= <-] & Hok).
  destruct (ao_status _ _ _ Hok) as [[_ Hsd]|[]]; [|done]. destruct (ao_state _ _ _ Hok) as (sev & Hs & Hh).
  eapply (update_admission_inv db1 db2 (lg_statusClock (db_ledger db1))
    (<[hex (ev_ID ev) := ba_IntentID a]> (lg_statusEvents (db_ledger db1))) (ba_IntentID a) a a'); try done; [apply Hi1|..].
  - by apply insert_subseteq.
  - intros h j [[<- <-]|[_ ?]]%lookup_insert_Some; [right|by left]. split_and!; [|done..].
    intros Hh'%(f_equal String.length). rewrite length_hex, (wf_id _ Hw) in Hh'. done.
  - by apply keeps_pinned_held, held_same.
  - intros ??. by apply proved_same.
  - split; rewrite ?Hl2; simpl; [apply Hok..| | |].
    + exists sev. split; [by apply (run_state_ext a)|]. intros _. apply (held_same db1); [done|]. by apply Hh.
    + intros _. apply (proved_same db1); [done|]. by apply (ao_proved _ _ _ Hok).
    + right. split; [intros Hh'%(f_equal String.length); rewrite length_hex, (wf_id _ Hw) in Hh'; done|].
      split; rewrite ?Hl2; simpl; [done|done|apply lookup_insert_eq| |by rewrite Hsd].
      exists ev. split_and!; [done..|]. intros _. by apply (held_same db1).
Qed.

(** The pending request of an accepted run leaves the work lists. *)
Lemma accept_pending_db_inv db db' a :
  db_inv db → intents db !! ba_IntentID a = Some (Row a) → ba_StatusEventID a ≠ "" → accept_pending a db = Ok db' → db_inv db'.
Proof.
  intros Hi Ha Hne Hp. unfold accept_pending in Hp. case_match eqn:Er; inv_ok; subst; [|done].
  rename select (unmarshal _ = _) into Hu. apply unmarshal_Some in Hu as ->. bool_facts.
  rename select (String.eqb (bp_State _) _ = true) into Hs. apply String.eqb_eq in Hs. rename v into p.
  destruct (li_pending _ (inv_ledger _ Hi) _ _ Er) as (? & [= <-] & Ho).
  destruct (po_state _ _ _ Ho) as [_ Hse Hsd|? Hs' _ _ _ _|Hs' _ _ _]; [|by rewrite Hs in Hs'..].
  apply (db_inv_ledger db); [done..|].
  eapply (update_pending_inv db _ (lg_statusClock (db_ledger db)) (lg_statusEvents (db_ledger db))
    (lg_due (db_ledger db) ∖ {[backupRunDueKey p]}) (lg_refusals (db_ledger db)) _ p); try done; [apply Hi|by left|..].
  - by apply keeps_pinned_held, held_same.
  - intros ??. by apply proved_same.
  - intros k. simpl. rewrite elem_of_difference, elem_of_singleton. naive_solver.
  - intros j. simpl. split; [|by intros [[]|(_ & ? & _)]]. intros Hj. left. split; [done|]. intros ->.
    apply (li_refusals _ (inv_ledger _ Hi)) in Hj as (q & Hq & Hqs & _). rewrite Er in Hq. simplify_eq. by rewrite Hs in Hqs.
  - pose proof (po_valid _ _ _ Ho) as Hv. unfold validRetainedBackupRunIdentity in Hv. rewrite Hs in Hv. simpl in Hv.
    destruct Ho. split; try done; [|by eapply (ps_accepted _ _ _ a)].
    unfold validRetainedBackupRunIdentity. simpl. rewrite Hse. simpl.
    assert (ev_Kind (bp_RequestEvent p) = kindCPState) as ->; [|done].
    unfold validBackupRunPendingIdentity in Hv. case_match eqn:E; [done|]. by bool_facts.
Qed.

Lemma stageAccepted_tx_db_inv now r ev target id b db db' :
  status_input now ev target → accepted_status_event r ev = true →
  stageAccepted_tx now r ev target db = Ok (id, b, db') → db_inv db → db_inv db'.
Proof.
  intros Hin Hev Hq Hi. unfold stageAccepted_tx in Hq. inv_ok. rename v into a.
  rename select (_ && _ = true) into Hsame. rename select (intents db !! _ ≫= unmarshal = _) into Ha.
  destruct (intents db !! _) as [raw|] eqn:Er; [|done]. apply unmarshal_Some in Ha as ->.
  assert (same_run a r) as Hrun by (bool_facts; split_and!; by apply String.eqb_eq).
  rewrite <-(proj1 Hrun) in Er. rewrite <-(accepted_status_same_run a r) in Hev by done.
  case_match eqn:Est; inv_ok; simplify_eq; [done|]. apply negb_false_iff, String.eqb_eq in Est.
  rename select (negb (bool_decide _) = true) into He. apply bool_decide_none in He.
  rename select (recordBackupRunStatusTimestamp _ _ = _) into Hclk. apply recordStatus_clocked in Hclk as [c ->].
  rename select (accept_pending _ _ = _) into Hacc.
  destruct (staged_db_inv now ev target c db Hin He Hi) as [Hi1 Hheld]. eapply accept_pending_db_inv, Hacc.
  - apply (stage_accepted_inv db (staged now ev target c db) _ c a ev target); try done. apply Hin.
  - apply lookup_insert_eq.
  - simpl. intros Hh%(f_equal String.length). rewrite length_hex, (wf_id _ (si_event _ _ _ Hin)) in Hh. done.
Qed.

(** A compacted request still carries its proof of identity. *)
Lemma compact_valid p : validBackupRunPendingIdentity p = true → ev_ID (bp_RequestEvent p) ≠ ZeroID →
  (bp_State p = BackupRunRefusedState ∧ bp_StatusEventID p ≠ "" ∨ bp_State p = BackupRunAcceptedState) →
  validRetainedBackupRunIdentity (compactBackupRunPending p) = true.
Proof.
  intros Hv Hz Hs. unfold validBackupRunPendingIdentity in Hv. case_match eqn:E; [done|]. clear Hv. bool_facts.
  unfold CheckID, VerifySignature in *. rename select (String.eqb (GetID _) _ = true) into Hid. apply String.eqb_eq in Hid.
  rename select (verify_bip340 _ _ _ = true) into Hsig. rewrite Hid in Hsig.
  apply verify_bip340_parses in Hsig as [Hpk Hsig]. apply String.eqb_neq in Hz.
  unfold validRetainedBackupRunIdentity. simpl. rewrite Hpk, Hsig, Hz.
  repeat match goal with Hb : _ = false |- _ => rewrite Hb | Hb : _ = true |- _ => rewrite Hb end.
  destruct Hs as [[-> Hne%String.eqb_neq] | ->]; simpl; by rewrite ?Hne, ?andb_false_r.
Qed.

(** Filing a refusal and its event. *)
Lemma stage_refused_inv db1 db2 c p p' ev target i :
  db_inv db1 → lg_pending (db_ledger db1) !! i = Some (Row p) → bp_State p = BackupRunRefusedState → bp_StatusEventID p = "" →
  p' = compactBackupRunPending (pending_with p (bp_RequestEvent p) (bp_NextAttemptAt p) (bp_Attempts p)
         (bp_LastFailure p) (bp_State p) (hex (ev_ID ev)) target) →
  refusal_event p' ev → held db1 ev target → db_tables db2 = db_tables db1 →
  db_ledger db2 = set_statusClock c (set_refusals (lg_refusals (db_ledger db1) ∖ {[i]})
    (set_lpending (<[i := Row p']> (lg_pending (db_ledger db1)))
      (set_statusEvents (<[hex (ev_ID ev) := i]> (lg_statusEvents (db_ledger db1))) (db_ledger db1)))) →
  db_inv db2.
Proof.
  intros Hi1 Hp Hs Hno Hp' Hev Hheld Ht2 Hl2. apply (db_inv_ledger db1); [done..|].
  assert (entries db2 = entries db1 ∧ proofs db2 = proofs db1) as [He2 Hp2] by (unfold entries, proofs; by rewrite Ht2).
  destruct (li_pending _ (inv_ledger _ Hi1) _ _ Hp) as (? & [= <-] & Ho).
  destruct (po_state _ _ _ Ho) as [Hs' _ _|? Hs' _ _ _ _|_ Hint Hco Hst]; [by rewrite Hs' in Hs..|].
  destruct Hst as [[_ Hsd]|[]]; [|done]. assert (hex (ev_ID ev) ≠ "") as Hhex.
  { intros Hh%(f_equal String.length). rewrite length_hex, (wf_id _ (re_wf _ _ Hev)) in Hh. done. }
  assert (lg_statusEvents (db_ledger db1) !! hex (ev_ID ev) = None) as Hfresh.
  { pose proof (re_bound _ _ Hev) as Hb. pose proof (re_kind _ _ Hev) as Hk. unfold refusal_bound in Hb.
    unfold isBackupRunRefusedStatusEvent in Hk. bool_facts.
    rename select (tag_is ev "status" "rejected" = true) into Hrej. apply String.eqb_eq in Hrej.
    rename select (oneBackupRunTag _ "intent_id" _ = true) into Hid. rewrite Hp' in Hid. simpl in Hid.
    rewrite (po_intent _ _ _ Ho) in Hid.
    apply (status_event_fresh db1 i ev "rejected" (inv_ledger _ Hi1)); try done; [apply Hev|apply Hev| |by right].
    intros q Hq _. rewrite Hp in Hq. by simplify_eq. }
  eapply (update_pending_inv db1 db2 c (<[hex (ev_ID ev) := i]> (lg_statusEvents (db_ledger db1)))
    (lg_due (db_ledger db1)) (lg_refusals (db_ledger db1) ∖ {[i]}) i p p'); try done; try (by subst p'); [apply Hi1|..]; subst p'.
  - by apply insert_subseteq.
  - intros h j [[<- <-]|[_ ?]]%lookup_insert_Some; [by right|by left].
  - by apply keeps_pinned_held, held_same.
  - intros ??. by apply proved_same.
  - intros k. simpl. rewrite Hs. split; [|by intros [[]|[]]]. intros Hk. left. split; [done|]. intros ->.
    by eapply dueKey_absent; [apply Hi1|..]; [|by rewrite Hs|].
  - intros j. simpl. rewrite elem_of_difference, elem_of_singleton. naive_solver.
  - pose proof (po_valid _ _ _ Ho) as Hv. unfold validRetainedBackupRunIdentity in Hv. rewrite Hs, Hno in Hv. simpl in Hv.
    destruct Ho as [? ? ? _ ? _]. split; rewrite ?Hl2; try done; [apply compact_valid; auto|].
    apply ps_refused; rewrite ?Hl2; [done|unfold intents; by rewrite Hl2|done|]. right. split; [done|].
    split; rewrite ?Hl2; simpl; [apply lookup_insert_eq| |by rewrite Hsd].
    exists ev. split; [done|]. intros _. by apply (held_same db1).
Qed.

Lemma stageRefused_tx_db_inv now r ev target id b db db' :
  status_input now ev target → refused_status_event r ev = true →
  stageRefused_tx now r ev target db = Ok (id, b, db') → db_inv db → db_inv db'.
Proof.
  intros Hin Hev Hq Hi. unfold stageRefused_tx in Hq. inv_ok. rename v into p.
  rename select (_ && _ = true) into Hsame. rename select (lg_pending _ !! _ ≫= unmarshal = _) into Hp.
  destruct (lg_pending _ !! _) as [raw|] eqn:Er; [|done]. apply unmarshal_Some in Hp as ->.
  destruct (li_pending _ (inv_ledger _ Hi) _ _ Er) as (? & [= <-] & Ho).
  case_match eqn:Est; inv_ok; simplify_eq; [done|]. apply negb_false_iff, String.eqb_eq in Est.
  rename select (negb (bool_decide (is_Some (entries _ !! _))) = true) into He. apply bool_decide_none in He.
  rename select (recordBackupRunStatusTimestamp _ _ = _) into Hclk. apply recordStatus_clocked in Hclk as [c1 ->].
  rename select (recordBackupRunCoordinateStatusTimestamp _ _ _ = _) into Hclk. apply recordCoordinate_clocked in Hclk as [c ->].
  bool_facts. repeat match goal with Hb : String.eqb _ _ = true |- _ => apply String.eqb_eq in Hb end.
  destruct (staged_db_inv now ev target c db Hin He Hi) as [Hi1 Hheld].
  rewrite <-(po_intent _ _ _ Ho) in Er.
  eapply (stage_refused_inv (staged now ev target c db) _ c p _ ev target (bp_IntentID p)); try done.
  unfold refused_status_event in Hev. bool_facts.
  repeat match goal with Hb : String.eqb _ _ = true |- _ => apply String.eqb_eq in Hb end.
  split; simpl; try done; try congruence; [apply Hin|..]; unfold private_coordinate, refusal_bound in *; simpl.
  - by rewrite (po_intent _ _ _ Ho); congruence.
  - rewrite (po_intent _ _ _ Ho). rewrite !andb_true_iff. split_and!; congruence.
Qed.

(** ** Compaction *)

Lemma compact_tx_db_inv i c h terminal target db db' :
  compact_tx i c h terminal target db = Ok db' → db_inv db → db_inv db'.
Proof.
  intros Hq Hi. unfold compact_tx in Hq. inv_ok. rename v into p.
  rename select (lg_pending _ !! _ ≫= unmarshal = _) into Hp.
  destruct (lg_pending _ !! _) as [raw|] eqn:Er; [|done]. apply unmarshal_Some in Hp as ->.
  case_match eqn:Ek; inv_ok; subst; [done|]. destruct (li_pending _ (inv_ledger _ Hi) _ _ Er) as (? & [= <-] & Ho).
  rename select (validRetainedBackupRunIdentity p && _ && _ && _ && _ && _ = true) into Hg. bool_facts.
  rename select (String.eqb (bp_State p) _ = true) into Hs. apply String.eqb_eq in Hs.
  destruct (po_state _ _ _ Ho) as [Hs' _ _|a _ Hse Hsd Ha Hne|Hs' _ _ _]; [by rewrite Hs' in Hs| |by rewrite Hs' in Hs].
  rename select (validRetainedBackupRunIdentity p = true) into Hv. unfold validRetainedBackupRunIdentity in Hv.
  rewrite Hs, Hse, (proj2 (Z.eqb_neq _ _) Ek) in Hv. simpl in Hv.
  apply (db_inv_ledger db); [done..|]. change (bp_IntentID (compactBackupRunPending p)) with (bp_IntentID p).
  rewrite (po_intent _ _ _ Ho).
  eapply (update_settled_pending db _ (lg_statusClock (db_ledger db)) i p (compactBackupRunPending p)); try done;
    [apply Hi|by apply keeps_pinned_held, held_same|by intros ??; apply proved_same|by rewrite Hs..|].
  destruct Ho. split; try done; [apply compact_valid; auto|by apply (ps_accepted _ _ _ a)].
Qed.

(** ** Unadmitted statuses *)

Lemma unadmitted_tx_clocked c k ev db db' : unadmitted_tx c k ev db = Ok db' → clocked db db'.
Proof.
  unfold unadmitted_tx. intros. inv_ok.
  rename select (recordBackupRunStatusTimestamp _ _ = _) into H1. rename select (recordBackupRunCoordinateStatusTimestamp _ _ _ = _) into H2.
  apply recordStatus_clocked in H1. apply recordCoordinate_clocked in H2. by etrans.
Qed.
End ledger_ops_inv.
