(* ===== verification/LedgerReads.v ===== *)
(** * Reads of the backup-run ledger

    On a file that satisfies the invariant the ledger's readers never report
    an inconsistency: each returns the stored record, or the conflict its
    arguments deserve. *)

From Stdlib Require Import ZArith Lia Bool.
From stdpp Require Import base tactics decidable option list numbers strings gmap sorting.
From S2P Require Import Prelude Bytes Nostr EventID EventIDFacts Bolt OutboxData OutboxStore Quorum Outbox BackupRun BackupRunPending OutboxInv LedgerInv OpsInv.

Section reads.
Context `{NostrLaws}.
Context (db : DB) (Hinv : db_inv db).

(** A proof filed for a signed event is of that event. *)
Lemma proved_event ev target : wf_event ev → CheckID ev = true → proved db (hex (ev_ID ev)) target →
  ∃ p, read_proof db (hex (ev_ID ev)) = Some (ev_ID ev, p) ∧ proof_ok (ev_ID ev) p ∧ pr_Target p = target ∧
    ev_PubKey (pr_Event p) = ev_PubKey ev ∧ ev_Kind (pr_Event p) = ev_Kind ev ∧ ev_Tags (pr_Event p) = ev_Tags ev.
Proof.
  intros Hw Hc (id & p & Hid & Hp & Ht). rewrite id_from_hex_hex in Hid by apply Hw. simplify_eq.
  destruct (inv_proofs _ Hinv _ _ Hp) as (? & [= <-] & Hok). exists p.
  destruct (ValidFor_facts _ _ _ (pk_valid _ _ Hok)) as (_ & _ & Hcp & _).
  destruct (CheckID_same (pr_Event p) ev) as (? & _ & ? & ? & _); [apply Hok|done|done|done|apply Hok|].
  unfold read_proof. rewrite id_from_hex_hex by apply Hw. by rewrite Hp.
Qed.

(** Among the proof-eligible events, one tagged as a run's state is one. *)
Lemma eligible_run_state ev : ev_Kind ev = kindCPState → tag ev "t" = "backup-run" →
  isProofEligibleEvent ev || isBackupRunTerminalStatusEvent ev = true → isBackupRunStateEvent ev = true.
Proof.
  intros Hk Ht. unfold isProofEligibleEvent, isBackupRunTerminalStatusEvent, isBackupConfigEvent, isDeploymentPolicyEvent,
    isVirtualizationStateEvent, isToolAcceptedStatusEvent, isLLMAcceptedStatusEvent, isLLMReleaseEvent,
    isBackupRunLifecycleStatusEvent, isBackupRunAcceptedStatusEvent, isBackupRunRefusedStatusEvent, virtualizationFamilies.
  unfold matchesVirtualizationFamily, tag_is in *. rewrite Hk, Ht. simpl. rewrite ?andb_false_r, ?orb_false_r. simpl.
  by rewrite ?andb_false_r, ?orb_false_r.
Qed.

(** ** Admissions *)

Lemma delivered_check i a : intents db !! i = Some (Row a) → ba_Delivered a = true →
  match read_proof db (ba_StateEventID a) with
  | Some (id, p) =>
      String.eqb (ev_ID (pr_Event p)) id && String.eqb (hex (ev_PubKey (pr_Event p))) (ba_ServicePubkey a) &&
      String.eqb (pr_Target p) (ba_Target a) && ValidFor p (pr_Event p) (ba_Target a) &&
      isBackupRunStateEvent (pr_Event p) && tag_is (pr_Event p) "d" (ba_Coordinate a)
  | None => false
  end = true.
Proof.
  intros Hi Hd. destruct (li_intents _ (inv_ledger _ Hinv) _ _ Hi) as (? & [= <-] & Ha).
  destruct (ao_state _ _ _ Ha) as (ev & Hs & _). pose proof (ao_proved _ _ _ Ha Hd) as Hp. rewrite <-(rs_id _ _ Hs) in Hp |- *.
  destruct (proved_event ev (ba_Target a)) as (p & -> & Hok & Ht & Hpk & Hk & Htags); [apply Hs|apply Hs|done|].
  rewrite (pk_id _ _ Hok), Hpk, (rs_pubkey _ _ Hs), <-Ht, (pk_valid _ _ Hok), !String.eqb_refl. simpl.
  rewrite eligible_run_state; [|by rewrite Hk; apply Hs|unfold tag; rewrite Htags; by apply tag_one, Hs|apply Hok].
  unfold tag_is, tag. rewrite Htags. apply tag_is_one, Hs.
Qed.

Lemma status_delivered_check i a : intents db !! i = Some (Row a) → ba_StatusDelivered a = true →
  ba_Delivered a && String.eqb (ba_StatusOutcome a) "accepted" &&
  match read_proof db (ba_StatusEventID a) with
  | Some (id, p) =>
      ValidFor p (pr_Event p) (ba_StatusTarget a) && String.eqb (ev_ID (pr_Event p)) id &&
      String.eqb (hex (ev_PubKey (pr_Event p))) (ba_ServicePubkey a) &&
      isBackupRunAcceptedStatusEvent (pr_Event p) &&
      tag_is (pr_Event p) "d" (IntentStatusCoordinate (ba_Actor a) (ba_Coordinate a)) &&
      bound_to (lg_statusEvents (db_ledger db)) (ba_StatusEventID a) i
  | None => false
  end = true.
Proof.
  intros Hi Hd. destruct (li_intents _ (inv_ledger _ Hinv) _ _ Hi) as (? & [= <-] & Ha).
  destruct (ao_status _ _ _ Ha) as [[_ Hf]|[_ Hst]]; [by rewrite Hf in Hd|].
  destruct (st_event _ _ _ Hst) as (ev & Hw & Hid & Hev & _). pose proof (st_proved _ _ _ Hst Hd) as Hp.
  rewrite (st_delivered _ _ _ Hst), (st_outcome _ _ _ Hst). unfold bound_to. rewrite (st_index _ _ _ Hst). simpl.
  apply accepted_event_facts in Hev as (Hc & _ & Hpk' & Hdt & _ & Hacc). rewrite <-Hid in Hp |- *.
  destruct (proved_event ev (ba_StatusTarget a)) as (p & -> & Hok & Ht & Hpk & Hk & Htags); [done..|].
  rewrite (pk_id _ _ Hok), Hpk, Hpk', <-Ht, (pk_valid _ _ Hok), !String.eqb_refl. simpl.
  unfold isBackupRunAcceptedStatusEvent, tag_is, tag in Hacc, Hdt |- *. rewrite Hk, Htags, Hacc, Hdt, String.eqb_refl. done.
Qed.

(** What [GetBackupRunAdmission] returns for non-empty arguments. *)
Definition admission_answer (i c h : string) : result OutboxError (option BackupRunAdmission) :=
  match intents db !! i with
  | Some (Row a) =>
      if bool_decide (ba_Coordinate a = c ∧ ba_RequestEventID a = h) then Ok (Some a) else Err ErrLedgerConflict
  | _ => if bool_decide (is_Some (lg_coords (db_ledger db) !! c)) then Err ErrLedgerConflict else Ok None
  end.

Lemma eqb_pair_decide a b c d :
  String.eqb a b && String.eqb c d = bool_decide (a = b ∧ c = d).
Proof. destruct (String.eqb_spec a b), (String.eqb_spec c d); case_bool_decide; naive_solver. Qed.

Lemma GetBackupRunAdmission_answer i c h o :
  ob_db o = db → i ≠ "" → c ≠ "" → h ≠ "" → GetBackupRunAdmission i c h o = admission_answer i c h.
Proof.
  intros Hdb Hi%String.eqb_neq Hc%String.eqb_neq Hh%String.eqb_neq.
  unfold GetBackupRunAdmission, admission_answer. rewrite Hdb, Hi, Hc, Hh. simpl. unfold intents.
  destruct (lg_intents (db_ledger db) !! i) as [r|] eqn:E; [|by case_bool_decide].
  destruct (li_intents _ (inv_ledger _ Hinv) _ _ E) as (a & -> & Ha). simpl.
  rewrite (ao_intent _ _ _ Ha), String.eqb_refl, andb_true_l, eqb_pair_decide.
  case_bool_decide as Heq; [|done]. destruct Heq as [<- <-]. simpl. unfold bound_to.
  rewrite (ao_coord _ _ _ Ha), (ao_event _ _ _ Ha). simpl. rewrite !String.eqb_refl. simpl.
  destruct (ba_Delivered a) eqn:Ed; [pose proof (delivered_check i a E Ed) as Hd; rewrite Hd|]; simpl;
    (destruct (ba_StatusDelivered a) eqn:Es; [|done]); pose proof (status_delivered_check i a E Es) as Hs;
    rewrite Ed in Hs; simpl in Hs; [|done].
  unfold bound_to in Hs. by rewrite Hs.
Qed.

(** ** Pending requests *)

Lemma refusal_tags p ev : refusal_event p ev → tag_is ev "d" (private_coordinate p) = true.
Proof. intros He. apply tag_is_one, He. Qed.

Lemma delivered_refusal_check i p : lg_pending (db_ledger db) !! i = Some (Row p) → bp_StatusDelivered p = true →
  delivered_refusal_ok db p = true.
Proof.
  intros Hi Hd. destruct (li_pending _ (inv_ledger _ Hinv) _ _ Hi) as (? & [= <-] & Ho).
  destruct (po_state _ _ _ Ho) as [_ _ Hf|? _ _ Hf _ _|Hs _ _ [[_ Hf]|[_ Hst]]]; [by rewrite Hf in Hd..|].
  destruct (rf_event _ _ _ Hst) as (ev & He & _). pose proof (rf_proved _ _ _ Hst Hd) as Hp.
  unfold delivered_refusal_ok, bound_to. rewrite Hs, (rf_index _ _ _ Hst), (po_intent _ _ _ Ho), <-(re_id _ _ He) in *. simpl.
  destruct (proved_event ev (bp_StatusTarget p)) as (q & -> & Hok & Ht & Hpk & Hk & Htags); [apply He|apply He|done|].
  rewrite (pk_id _ _ Hok), Hpk, (re_pubkey _ _ He), <-Ht, (pk_valid _ _ Hok), !String.eqb_refl. simpl.
  pose proof (re_kind _ _ He) as Hkind. pose proof (re_bound _ _ He) as Hb. pose proof (refusal_tags _ _ He) as Hdt.
  unfold isBackupRunRefusedStatusEvent, refusal_bound, tag_is, tag in Hkind, Hb, Hdt |- *.
  by rewrite Hk, Htags, Hkind, Hdt, (po_intent _ _ _ Ho) in *; rewrite Hb.
Qed.

Lemma staged_refusal_check i p : lg_pending (db_ledger db) !! i = Some (Row p) → bp_StatusDelivered p = false →
  bp_StatusEventID p ≠ "" → staged_refusal_ok db p = true.
Proof.
  intros Hi Hd Hne. destruct (li_pending _ (inv_ledger _ Hinv) _ _ Hi) as (? & [= <-] & Ho).
  destruct (po_state _ _ _ Ho) as [_ Hf _|? _ Hf _ _ _|Hs _ _ [[Hf _]|[_ Hst]]]; [done..|].
  destruct (rf_event _ _ _ Hst) as (ev & He & Hh). destruct (Hh Hd) as (e & Hent & Hoe & Hot).
  unfold staged_refusal_ok, bound_to. rewrite (rf_index _ _ _ Hst), <-(re_id _ _ He), id_from_hex_hex by apply He.
  rewrite Hs, Hent, (po_intent _ _ _ Ho). simpl. rewrite Hoe, Hot.
  by rewrite (re_pubkey _ _ He), (re_check _ _ He), (re_sig _ _ He), (re_d _ _ He), (re_bound _ _ He), !String.eqb_refl.
Qed.

(** What [GetBackupRunPending] returns for non-empty arguments. *)
Definition pending_answer (i c h : string) : result OutboxError (option BackupRunPending) :=
  match lg_pending (db_ledger db) !! i with
  | Some (Row p) =>
      if bool_decide (bp_Coordinate p = c ∧ hex (ev_ID (bp_RequestEvent p)) = h) then Ok (Some p)
      else Err ErrLedgerConflict
  | _ =>
      if bool_decide (is_Some (lg_pendingCoords (db_ledger db) !! c) ∨ is_Some (lg_pendingEvents (db_ledger db) !! h))
      then Err ErrLedgerConflict else Ok None
  end.

Lemma GetBackupRunPending_answer i c h o :
  ob_db o = db → i ≠ "" → c ≠ "" → h ≠ "" → GetBackupRunPending i c h o = pending_answer i c h.
Proof.
  intros Hdb Hi%String.eqb_neq Hc%String.eqb_neq Hh%String.eqb_neq.
  unfold GetBackupRunPending, pending_answer. rewrite Hdb, Hi, Hc, Hh. simpl.
  destruct (lg_pending (db_ledger db) !! i) as [r|] eqn:E.
  2:{ repeat case_bool_decide; simpl; naive_solver. }
  destruct (li_pending _ (inv_ledger _ Hinv) _ _ E) as (p & -> & Ho). simpl.
  rewrite (po_valid _ _ _ Ho), (po_intent _ _ _ Ho), String.eqb_refl, !andb_true_l, eqb_pair_decide.
  case_bool_decide as Heq; [|done]. destruct Heq as [<- <-]. unfold bound_to.
  rewrite (po_coord _ _ _ Ho), (po_event _ _ _ Ho). simpl. rewrite !String.eqb_refl. simpl.
  destruct (bp_StatusDelivered p) eqn:Ed; [by rewrite (delivered_refusal_check i)|].
  destruct (String.eqb_spec (bp_StatusEventID p) ""); [done|]. by rewrite (staged_refusal_check i).
Qed.
End reads.

(** * Scans of the backup-run ledger

    The page scans ([ListBackupRunAdmissionsReadyForExecution] and its
    siblings) visit every key once when they are resumed from the key they
    return, and the due list returns the requests whose retry time has
    come. *)

(** The decoded rows the keys name. *)
Definition rows {A} (m : gmap string (row A)) (keys : list string) : list A :=
  omap (λ k, m !! k ≫= unmarshal) keys.

Lemma elem_of_rows {A} (m : gmap string (row A)) keys a :
  a ∈ rows m keys ↔ ∃ k, k ∈ keys ∧ m !! k = Some (Row a).
Proof.
  unfold rows. rewrite list_elem_of_omap. split; intros (k & Hk & Ha); exists k; (split; [done|]).
  - destruct (m !! k) as [[]|]; naive_solver.
  - by rewrite Ha.
Qed.

(** ** Pages *)

Section pages.
Context (keys : list string) (Hs : StronglySorted bytes_le keys) (Hn : NoDup keys) (Hne : ""%string ∉ keys).

(** Resuming at a visited key continues right after it. *)
Lemma seek_after_app l1 k l2 : keys = l1 ++ k :: l2 → seek_after k keys = l2.
Proof using Hs Hn Hne.
  intros E. unfold seek_after. destruct (String.eqb_spec k "") as [->|Hk]; [destruct Hne; rewrite E; set_solver|].
  assert (seek k keys = k :: l2) as ->; [|by rewrite String.eqb_refl].
  rewrite E in Hs, Hn |- *. unfold seek. rewrite filter_app, filter_cons, decide_True by reflexivity.
  rewrite filter_none; [simpl; f_equal|].
  - apply filter_all. intros x Hx. apply StronglySorted_app_1_r in Hs. inv Hs.
    rename select (Forall (bytes_le k) l2) into Hall. rewrite Forall_forall in Hall. auto.
  - intros x Hx Hle. assert (bytes_le x k) as Hxk by (eapply (StronglySorted_app_1_elem_of bytes_le); [done|done|by left]).
    assert (x = k) as -> by by apply (anti_symm bytes_le). apply NoDup_app in Hn as (_ & Hd & _). apply (Hd k Hx). by left.
Qed.

(** The pages of [n] keys a client reads by passing each returned key back,
    until it is empty. *)
Fixpoint pages (fuel n : nat) (after : string) : list (list string) :=
  match fuel with
  | O => []
  | S fuel' =>
      let rest := seek_after after keys in
      take n rest :: (if String.eqb (scan_next n rest) "" then [] else pages fuel' n (scan_next n rest))
  end.

Lemma pages_from n fuel : (0 < n)%nat → ∀ l1 l2 after, keys = l1 ++ l2 → seek_after after keys = l2 →
  (length l2 < fuel)%nat → concat (pages fuel n after) = l2.
Proof using Hs Hn Hne.
  intros Hpos. induction fuel as [|fuel IH]; intros l1 l2 after E Hafter Hlen; [lia|]. simpl. rewrite Hafter.
  unfold scan_next. destruct (drop n l2) as [|x rest] eqn:Ed.
  { simpl. rewrite app_nil_r. apply take_ge. apply (f_equal length) in Ed. rewrite length_drop in Ed. simpl in Ed. lia. }
  assert (n < length l2)%nat as Hlt by (apply (f_equal length) in Ed; rewrite length_drop in Ed; simpl in Ed; lia).
  destruct (take n l2) as [|k p _] eqn:Et using rev_ind.
  { apply (f_equal length) in Et. rewrite length_take in Et. simpl in Et. lia. }
  rewrite last_snoc. simpl. assert (l2 = p ++ k :: drop n l2) as E2 by (rewrite <-(take_drop n l2) at 1; rewrite Et, <-app_assoc; done).
  assert (k ≠ "") as Hk by (intros ->; apply Hne; rewrite E, E2; set_solver).
  destruct (String.eqb_spec k ""); [done|]. rewrite (IH (l1 ++ p ++ [k]) (drop n l2)).
  - rewrite E2 at 2. by rewrite <-app_assoc.
  - rewrite E, E2 at 1. by rewrite <-!app_assoc.
  - apply (seek_after_app (l1 ++ p)). rewrite E, E2 at 1. by rewrite <-app_assoc.
  - rewrite length_drop. lia.
Qed.

(** Reading the pages from the start visits the keys in order, once each. *)
Lemma pages_complete n fuel : (0 < n)%nat → (length keys < fuel)%nat → concat (pages fuel n "") = keys.
Proof using Hs Hn Hne. intros. by apply (pages_from n fuel ltac:(lia) []). Qed.
End pages.

Lemma scan_limit_pos limit : (0 < scan_limit limit)%nat.
Proof. unfold scan_limit. destruct (Z.leb_spec limit 0), (Z.ltb_spec 500 limit); simpl; lia. Qed.

(** ** Admissions *)

Lemma scan_admissions_ok keep m keys :
  (∀ k, k ∈ keys → ∃ a, m !! k = Some (Row a)) →
  scan_admissions keep m keys = (filter keep (rows m keys), false).
Proof.
  unfold rows. induction keys as [|k keys IH]; intros Hk; simpl; [done|].
  destruct (Hk k) as [a Ha]; [by left|]. rewrite IH by (intros; apply Hk; by right). rewrite Ha. simpl.
  rewrite filter_cons. case_decide as E; destruct (keep a); done.
Qed.

Section ready.
Context `{NostrPrims}.

(** A client that reads the runs ready for execution page by page. *)
Fixpoint collect_ready (fuel : nat) (after : string) (limit : Z) (o : Outbox) : result OutboxError (list BackupRunAdmission) :=
  match fuel with
  | O => Ok []
  | S fuel' =>
      let! r := ListBackupRunAdmissionsReadyForExecution after limit o in
      if String.eqb r.2 "" then Ok r.1
      else let! rest := collect_ready fuel' r.2 limit o in Ok (r.1 ++ rest)
  end.

Lemma list_ready_ok after limit o : db_inv (ob_db o) →
  let keys := seek_after after (bucket_keys (intents (ob_db o))) in
  ListBackupRunAdmissionsReadyForExecution after limit o =
    Ok (filter ready_for_execution (rows (intents (ob_db o)) (take (scan_limit limit) keys)), scan_next (scan_limit limit) keys).
Proof.
  intros Hi keys. unfold ListBackupRunAdmissionsReadyForExecution. fold keys. rewrite scan_admissions_ok; [done|].
  intros k (j & Hk%list_elem_of_lookup_2 & _)%elem_of_take. assert (k ∈ bucket_keys (intents (ob_db o))) as Hb.
  { unfold keys, seek_after in Hk. case_match; [done|].
    assert (k ∈ seek after (bucket_keys (intents (ob_db o)))) as [_ ?]%elem_of_seek; [|done].
    destruct (seek after _) as [|x l]; [done|]. case_match; [by right|done]. }
  apply elem_of_bucket_keys in Hb as [r Hr]. destruct (li_intents _ (inv_ledger _ Hi) _ _ Hr) as (a & -> & _). eauto.
Qed.
End ready.

Section complete.
Context `{NostrLaws}.

Lemma valid_intent p : validRetainedBackupRunIdentity p = true → bp_IntentID p ≠ "".
Proof.
  assert (validBackupRunPendingIdentity p = true → bp_IntentID p ≠ "") as Hv.
  { unfold validBackupRunPendingIdentity. case_match eqn:E; [done|]. intros _. bool_facts. by apply String.eqb_neq. }
  unfold validRetainedBackupRunIdentity. repeat (case_match; [done|]). intros _. bool_facts.
  by apply String.eqb_neq.
Qed.

Lemma intents_named db : db_inv db → ""%string ∉ bucket_keys (intents db).
Proof.
  intros Hi [r Hr]%elem_of_bucket_keys. destruct (li_request _ (inv_ledger _ Hi) _ _ Hr) as [q Hq].
  destruct (li_pending _ (inv_ledger _ Hi) _ _ Hq) as (p & -> & Ho). by apply (valid_intent p); [apply Ho|apply (po_intent _ _ _ Ho)].
Qed.

Lemma rows_app {A} (m : gmap string (row A)) l1 l2 : rows m (l1 ++ l2) = rows m l1 ++ rows m l2.
Proof. apply omap_app. Qed.

Lemma collect_ready_pages fuel limit o : db_inv (ob_db o) → ∀ after,
  collect_ready fuel after limit o = Ok (filter ready_for_execution (rows (intents (ob_db o))
    (concat (pages (bucket_keys (intents (ob_db o))) fuel (scan_limit limit) after)))).
Proof.
  intros Hi. induction fuel as [|fuel IH]; intros after; [done|]. simpl. rewrite list_ready_ok by done. simpl.
  destruct (String.eqb _ ""); simpl; [by rewrite app_nil_r|]. rewrite IH. simpl. by rewrite rows_app, filter_app.
Qed.

Lemma collect_ready_all limit o : db_inv (ob_db o) →
  collect_ready (S (size (intents (ob_db o)))) "" limit o =
    Ok (filter ready_for_execution (rows (intents (ob_db o)) (bucket_keys (intents (ob_db o))))).
Proof.
  intros Hi. rewrite collect_ready_pages by done. rewrite pages_complete; [done|apply index_keys_sorted|apply NoDup_bucket_keys|
    by apply intents_named|apply scan_limit_pos|]. unfold bucket_keys. rewrite length_index_keys, size_dom. lia.
Qed.

(** ** The due list *)

Definition due_now (now : Z) (key : string) : bool := negb (time_after (backupRunDueAt key) now).

(** The requests a list of due keys names. *)
Definition due_rows (m : gmap string (row BackupRunPending)) (keys : list string) : list BackupRunPending :=
  rows m (drop_bytes 8 <$> keys).

Lemma default_last_cons {A} (d x : A) l : default d (last (x :: l)) = default x (last l).
Proof. rewrite last_cons. by destruct (last l). Qed.

(** A key of the due index: its request is pending and due at it. *)
Definition due_key_ok (m : gmap string (row BackupRunPending)) (key : string) : Prop :=
  ∃ p, m !! drop_bytes 8 key = Some (Row p) ∧ bp_State p = BackupRunPendingState ∧
       bp_IntentID p = drop_bytes 8 key ∧ backupRunDueKey p = key ∧ (9 ≤ String.length key)%nat.

(** The keys [ListBackupRunPendingDue] returns, of those after its cursor. *)
Definition due_page (now : Z) (limit : nat) (keys : list string) : list string :=
  take_while (due_now now) (take limit keys).

Lemma due_loop_ok m now limit keys : Forall (due_key_ok m) keys → ∀ records next,
  let page := due_page now limit keys in
  due_loop m now limit keys records next =
    Ok (records ++ due_rows m page, default next (last page),
        (if (length page <? limit)%nat then backupRunDueAt <$> head (drop (length page) keys) else None),
        drop (length page) keys).
Proof.
  unfold due_page. revert limit. induction keys as [|key keys IH]; intros limit Hk records next.
  { destruct limit; simpl; by rewrite app_nil_r. }
  destruct limit as [|limit]; [simpl; by rewrite app_nil_r|]. apply Forall_cons in Hk as [(p & Hp & Hs & Hi & Hkey & Hlen) Hk].
  assert (time_after (backupRunDueAt key) now = negb (due_now now key)) as Ht by (unfold due_now; by rewrite negb_involutive).
  cbn [due_loop take take_while]. rewrite (proj2 (Nat.leb_le _ _) Hlen), Ht.
  destruct (due_now now key); cbn -[String.eqb]; [|by rewrite app_nil_r].
  rewrite Hp. cbn -[String.eqb]. rewrite Hs, Hi, Hkey, !String.eqb_refl. cbn -[String.eqb]. rewrite IH by done. cbn -[String.eqb].
  by rewrite <-app_assoc, default_last_cons.
Qed.

Lemma seek_after_elem after keys k : k ∈ seek_after after keys → k ∈ keys.
Proof.
  unfold seek_after. case_match; [done|]. intros Hk. assert (k ∈ seek after keys) as [_ ?]%elem_of_seek; [|done].
  destruct (seek after keys) as [|x l]; [done|]. case_match; [by right|done].
Qed.

Lemma due_keys_ok db : db_inv db → ∀ k, k ∈ lg_due (db_ledger db) → due_key_ok (lg_pending (db_ledger db)) k.
Proof.
  intros Hi k (i & p & Hp & Hs & ->)%(li_due _ (inv_ledger _ Hi)). exists p. rewrite drop_dueKey.
  destruct (li_pending _ (inv_ledger _ Hi) _ _ Hp) as (? & [= <-] & Ho). rewrite (po_intent _ _ _ Ho).
  split_and!; [done..|]. unfold backupRunDueKey. rewrite length_app_string. unfold be64. rewrite length_be.
  pose proof (valid_intent p (po_valid _ _ _ Ho)) as Hne. destruct (bp_IntentID p); simpl; [done|lia].
Qed.

(** What [ListBackupRunPendingDue] answers: the page, where to resume, and
    when to wake up for the first request that is not due yet. *)
Definition due_answer (after : string) (now : Z) (limit : Z) (db : DB) : list BackupRunPending * string * Z :=
  let keys := seek_after after (index_keys (lg_due (db_ledger db))) in
  let page := due_page now (scan_limit limit) keys in
  let resume := default ""%string (last page) in
  let full := Nat.eqb (length page) (scan_limit limit) in
  (due_rows (lg_pending (db_ledger db)) page,
   match drop (length page) keys with
   | [] => ""%string
   | key :: _ => if due_now now key then resume else if full then ""%string else resume
   end,
   match drop (length page) keys with
   | [] => zero_time
   | key :: _ => if due_now now key then zero_time else backupRunDueAt key
   end).

Lemma due_page_length now limit keys : (length (due_page now limit keys) ≤ limit)%nat.
Proof.
  unfold due_page. assert (∀ l, length (take_while (due_now now) l) ≤ length l)%nat as Hl.
  { induction l as [|x l IH]; simpl; [lia|]. case_match; simpl; lia. }
  etrans; [apply Hl|]. rewrite length_take. lia.
Qed.

(** A page that stops early stops at a request that is not due. *)
Lemma due_page_stop now limit keys key rest :
  (length (due_page now limit keys) < limit)%nat → drop (length (due_page now limit keys)) keys = key :: rest →
  due_now now key = false.
Proof.
  unfold due_page. revert limit. induction keys as [|k keys IH]; intros limit; [by rewrite drop_nil|].
  destruct limit as [|limit]; simpl; [lia|]. destruct (due_now now k) eqn:E; simpl; [|by intros _ [= <- _]].
  intros Hlt. apply IH. lia.
Qed.

Lemma ListBackupRunPendingDue_answer after now limit o : db_inv (ob_db o) →
  ListBackupRunPendingDue after now limit o = Ok (due_answer after now limit (ob_db o)).
Proof.
  intros Hi. unfold ListBackupRunPendingDue, due_answer. set (keys := seek_after after _).
  assert (Forall (due_key_ok (lg_pending (db_ledger (ob_db o)))) keys) as Hk.
  { apply Forall_forall. intros k Hk%seek_after_elem%elem_of_index_keys. by apply due_keys_ok. }
  rewrite (due_loop_ok _ now (scan_limit limit) keys Hk). cbn -[Nat.leb Nat.ltb]. set (page := due_page now (scan_limit limit) keys).
  pose proof (due_page_length now (scan_limit limit) keys) as Hle. fold page in Hle.
  destruct (drop (length page) keys) as [|key rest] eqn:Ed; cbn -[Nat.leb Nat.ltb]; [by destruct (length page <? scan_limit limit)%nat|].
  assert (due_key_ok (lg_pending (db_ledger (ob_db o))) key) as (_ & _ & _ & _ & _ & Hlen).
  { rewrite Forall_forall in Hk. apply Hk. rewrite <-(take_drop (length page) keys), Ed. set_solver. }
  destruct (Nat.ltb_spec (length page) (scan_limit limit)) as [Hlt|Hge].
  - rewrite (due_page_stop now (scan_limit limit) keys key rest) by done.
    by rewrite (proj2 (Nat.eqb_neq _ _)) by lia.
  - rewrite (proj2 (Nat.leb_le _ _) Hlen), (proj2 (Nat.eqb_eq (length page) _)) by lia. simpl. unfold due_now. by case_match.
Qed.
End complete.
