(* ===== verification/OutboxReads.v ===== *)
(** * Retention never fails

    On a consistent file [Prune] returns, and [PurgeEvents] fails only when a
    matching event is pinned by the ledger or holds a delivery proof. *)

From Stdlib Require Import ZArith Lia Bool.
From stdpp Require Import base tactics decidable option list numbers strings gmap sorting.
From S2P Require Import Prelude Bytes Nostr EventID Bolt OutboxData OutboxStore Outbox BackupRun BackupRunPending OutboxInv OutboxRetention LedgerInv LedgerReads.

(** The call returned without an error. *)
Definition is_Ok {E A} (r : result E A) : Prop := ∃ a, r = Ok a.

Section total.
Context `{NostrPrims}.

(** The ledger can always say whether it pins an event. *)
Lemma unresolved_total db id : ledger_inv db → ∃ b, backupRunAdmissionUnresolved id db = Ok b.
Proof.
  intros Hl. unfold backupRunAdmissionUnresolved. destruct (lg_events (db_ledger db) !! hex id) as [i|] eqn:E.
  - destruct (li_events _ Hl _ _ E) as (a & -> & _). by eexists.
  - destruct (lg_statusEvents (db_ledger db) !! hex id) as [i|] eqn:Es; [|by eexists].
    destruct (li_status _ Hl _ _ Es) as [_ [(a & -> & _)|(p & Hp & Hs & Hid)]]; [by eexists|].
    destruct (li_pending _ Hl _ _ Hp) as (? & [= <-] & Ho).
    destruct (po_state _ _ _ Ho) as [Hx _ _|? Hx _ _ _ _|_ -> _ _]; [by rewrite Hx in Hs..|].
    rewrite Hp. simpl. rewrite Hid, String.eqb_refl. by eexists.
Qed.

Definition rows_decode (db : DB) : Prop := ∀ id r, entries db !! id = Some r → ∃ e, r = Row e.

Lemma prune_key_total state k db : rows_decode db →
  ∃ db', prune_key state k db = Ok db' ∧ rows_decode db' ∧ db_ledger db' = db_ledger db.
Proof.
  intros Hd. unfold prune_key. set (db1 := del_settled state k db).
  assert (entries db1 = entries db) as He by (subst db1; unfold del_settled, set_settledBucket, entries; simpl; by case_match).
  assert (db_ledger db1 = db_ledger db) as Hl by done. rewrite He.
  assert (∀ db2, entries db2 = entries db → rows_decode (del_entry (drop_bytes 8 k) db2)) as Hdel.
  { intros db2 E id r Hr. unfold entries in Hr. simpl in Hr. change (tb_entries (db_tables db2)) with (entries db2) in Hr.
    rewrite E in Hr. apply lookup_delete_Some in Hr as [_ Hr]. by apply Hd in Hr. }
  destruct (entries db !! drop_bytes 8 k) as [r|] eqn:E; simpl; [|eauto].
  destruct (Hd _ _ E) as [e ->]. simpl. eexists. split; [done|]. split; [|done]. apply Hdel.
  by destruct (outboxCoordinateKey _ _).
Qed.

(** It depends on the ledger alone. *)
Definition pins_decided (db : DB) : Prop := ∀ id, ∃ b, backupRunAdmissionUnresolved id db = Ok b.

Lemma pins_decided_ledger db db' : db_ledger db' = db_ledger db → pins_decided db → pins_decided db'.
Proof. intros Hl Hp id. rewrite (unresolved_ledger id db db' Hl). apply Hp. Qed.

Lemma prune_keys_total hold state keys : ∀ n removed db, rows_decode db → pins_decided db →
  ∃ r, prune_keys hold state keys n removed db = Ok r ∧ rows_decode r.2 ∧ db_ledger r.2 = db_ledger db.
Proof.
  induction keys as [|k keys IH]; intros n removed db Hd Hp; simpl; [by eexists|]. destruct (hold n); [by eexists|].
  destruct (Hp (drop_bytes 8 k)) as [b ->]. simpl. destruct b; [by apply IH|].
  destruct (prune_key_total state k db Hd) as (db1 & -> & Hd1 & Hl1). simpl. rewrite <-Hl1.
  apply IH; [done|by eapply pins_decided_ledger].
Qed.

Lemma prune_states_total hold states : ∀ n removed db, rows_decode db → pins_decided db →
  is_Ok (prune_states hold states n removed db).
Proof.
  induction states as [|[st b] states IH]; intros n removed db Hd Hp; simpl; [by eexists|].
  destruct (prune_keys_total hold st (expired_keys st b db) n removed db Hd Hp) as (r & -> & Hd' & Hl). simpl.
  destruct r as [[[stopped n'] removed'] db']. destruct stopped; [by eexists|]. by apply IH; [|eapply pins_decided_ledger].
Qed.

Lemma Prune_total hold pf pb fb o : ob_readOnly o = false → tables_inv (db_tables (ob_db o)) → ledger_inv (ob_db o) →
  is_Ok (Prune hold pf pb fb o).
Proof.
  intros Hro Ht Hl. unfold Prune. destruct (hold 0%nat); [by eexists|]. rewrite Hro. simpl. destruct (hold 1%nat); [by eexists|].
  destruct (prune_states_total hold (if pf then [(OutboxPublished, pb); (OutboxFailed, fb)]
    else [(OutboxFailed, fb); (OutboxPublished, pb)]) 2 0 (ob_db o)) as [r ->]; [..|by eexists].
  - intros id r (e & -> & _)%(ti_rows _ Ht). by eexists.
  - intros id. by apply unresolved_total.
Qed.

(** ** PurgeEvents *)

Lemma purge_loop_total victims : ∀ db,
  tables_inv (db_tables db) → NoDup (map (λ e, ev_ID (oe_Event e)) victims) →
  (∀ e, e ∈ victims → entries db !! ev_ID (oe_Event e) = Some (Row e) ∧
     backupRunAdmissionUnresolved (ev_ID (oe_Event e)) db = Ok false ∧ proofs db !! ev_ID (oe_Event e) = None) →
  is_Ok (purge_loop victims db).
Proof.
  induction victims as [|e victims IH]; intros db Ht Hn Hv; simpl; [by eexists|]. apply NoDup_cons in Hn as [Hne Hn].
  destruct (Hv e) as (He & Hu & Hp); [by left|].
  assert (∃ db1, purge_entry e db = Ok db1) as [db1 Hdb1] by (unfold purge_entry; rewrite Hu, Hp; by eexists).
  rewrite Hdb1. simpl. apply purge_entry_ok in Hdb1 as (Hr & _); [|done..]. apply IH; [apply Hr|done|].
  intros e' He'. destruct (Hv e') as (? & ? & ?); [by right|].
  rewrite (rm_entries _ _ _ Hr), (unresolved_ledger _ db), (rm_proofs _ _ _ Hr) by apply Hr.
  rewrite bool_decide_eq_false_2; [done|]. intros Heq%elem_of_singleton. apply Hne. rewrite <-Heq.
  by apply (list_elem_of_fmap_2 (λ e, ev_ID (oe_Event e))).
Qed.

Lemma PurgeEvents_total matches o : ob_readOnly o = false → tables_inv (db_tables (ob_db o)) →
  (∀ id e, entries (ob_db o) !! id = Some (Row e) → matches (oe_Event e) = true →
     backupRunAdmissionUnresolved id (ob_db o) = Ok false ∧ proofs (ob_db o) !! id = None) →
  is_Ok (PurgeEvents matches o).
Proof.
  intros Hro Ht Hm. unfold PurgeEvents. rewrite Hro. simpl.
  destruct (purge_victims_ok matches (entries (ob_db o)) (bucket_keys (entries (ob_db o))) (ti_rows _ Ht)) as (victims & -> & Hv & Hsub).
  simpl. destruct (purge_loop_total victims (ob_db o) Ht) as [db' ->]; [| |by eexists].
  - eapply sublist_NoDup; [apply (NoDup_bucket_keys (entries (ob_db o)))|done].
  - intros e (id & _ & He & Hme)%Hv. destruct (ti_rows _ Ht _ _ He) as (? & [= <-] & Hok).
    rewrite (eo_id _ _ Hok). split; [done|]. by eapply Hm.
Qed.
End total.

(** * Reads of the outbox

    The index scans of the outbox: [ListPending] returns one target's pending
    entries in enqueue order from a cursor on, and [LatestByCoordinate] the
    newest package event of a coordinate.  Both walk byte-ordered keys; the
    lemmas relate that order to the order of the entries. *)

(** ** Prefix scans *)

(** The keys that extend [p] are contiguous from [p] on. *)

Lemma list_loop_ok ents id_of skip keys : (∀ k, k ∈ keys → ∃ e, ents !! id_of k = Some (Row e)) → ∀ limit,
  list_loop ents id_of skip limit keys = Ok (take limit (rows ents (id_of <$> filter (λ k, skip ≠ Some k) keys))).
Proof.
  intros Hk. induction keys as [|k keys IH]; intros limit; [by destruct limit|].
  destruct limit as [|limit]; [done|]. destruct (Hk k) as [e He]; [by left|]. cbn [list_loop]. rewrite filter_cons.
  case_bool_decide as Hs; [rewrite decide_False by tauto; apply IH; intros; apply Hk; by right|].
  rewrite decide_True by done. unfold rows. simpl. rewrite He. simpl. rewrite IH by (intros; apply Hk; by right). done.
Qed.

(** ** Pending entries in order *)

(** The order of [ListPending]: enqueue time, then id. *)
Definition position_lt (at1 : Z) (id1 : string) (at2 : Z) (id2 : string) : Prop :=
  at1 < at2 ∨ at1 = at2 ∧ bytes_ltb id1 id2 = true.

Definition enqueued_before (e1 e2 : OutboxEntry) : Prop :=
  position_lt (oe_EnqueuedAt e1) (ev_ID (oe_Event e1)) (oe_EnqueuedAt e2) (ev_ID (oe_Event e2)).

Definition after_cursor (after : option OutboxCursor) (e : OutboxEntry) : Prop :=
  match after with
  | None => True
  | Some c => position_lt (cu_EnqueuedAt c) (cu_ID c) (oe_EnqueuedAt e) (ev_ID (oe_Event e))
  end.

Lemma pendingKey_target t at_ id :
  pendingKey t at_ id = (t +:+ String nul "") +:+ (be64 (to_u64 (unix_nano at_)) +:+ id).
Proof. unfold pendingKey. by rewrite <-app_string_assoc. Qed.

Lemma pendingKey_lt t at1 id1 at2 id2 : instant_ok at1 → instant_ok at2 →
  bytes_ltb (pendingKey t at1 id1) (pendingKey t at2 id2) = true ↔ position_lt at1 id1 at2 id2.
Proof.
  intros H1 H2. unfold position_lt, bytes_ltb. rewrite !pendingKey_target, bytes_leb_app, !instant_u64 by done.
  rewrite be64_leb by (unfold instant_ok, two63, two64 in *; lia).
  destruct (Z.ltb_spec at2 at1), (Z.eqb_spec at2 at1); simpl; naive_solver lia.
Qed.

(** The prefix of a target selects exactly its own keys. *)
Lemma pendingKey_prefix t t' at_ id : contains_nul t = false → contains_nul t' = false →
  has_prefix (pendingKey t' at_ id) (t +:+ String nul "") = true ↔ t' = t.
Proof.
  intros Ht Ht'. unfold pendingKey. split.
  - intros [s Hs]%has_prefix_spec. rewrite <-app_string_assoc in Hs. simpl in Hs. by apply split_at_byte in Hs as [-> _].
  - intros ->. fold (pendingKey t at_ id). rewrite pendingKey_target. apply has_prefix_app.
Qed.

Lemma elem_of_rows_fmap {A} (m : gmap string (row A)) (f : string → string) (keys : list string) a :
  a ∈ rows m (f <$> keys) ↔ ∃ k, k ∈ keys ∧ m !! f k = Some (Row a).
Proof.
  rewrite elem_of_rows. split.
  - intros (i & (k & -> & Hk)%list_elem_of_fmap & Ha). eauto.
  - intros (k & Hk & Ha). exists (f k). split; [by apply list_elem_of_fmap_2|done].
Qed.

Lemma rows_sorted {A} (m : gmap string (row A)) (f : string → string) (R : relation string) (S : relation A) (keys : list string) :
  StronglySorted R keys →
  (∀ k1 k2 a1 a2, k1 ∈ keys → k2 ∈ keys → R k1 k2 → m !! f k1 = Some (Row a1) → m !! f k2 = Some (Row a2) → S a1 a2) →
  StronglySorted S (rows m (f <$> keys)).
Proof.
  intros Hs. induction Hs as [|k l Hl IH Hk]; intros HS; [constructor|]. rewrite Forall_forall in Hk.
  assert (StronglySorted S (rows m (f <$> l))) as Hr.
  { apply IH. intros k1 k2 a1 a2 H1 H2. apply HS; by right. }
  rewrite fmap_cons. unfold rows in *. simpl. destruct (m !! f k) as [[a|]|] eqn:E; simpl; [|done..].
  constructor; [done|]. apply Forall_forall. intros b (k' & Hk' & Hb)%elem_of_rows_fmap.
  apply (HS k k'); [by left|by right|by apply Hk|done..].
Qed.

Lemma StronglySorted_strict l : StronglySorted bytes_le l → NoDup l → StronglySorted (λ a b, bytes_ltb a b = true) l.
Proof.
  induction 1 as [|x l Hl IH Hx]; intros Hn; [constructor|]. apply NoDup_cons in Hn as [Hnx Hn].
  constructor; [auto|]. rewrite Forall_forall in *. intros y Hy. apply bytes_ltb_spec. split; [auto|]. by intros ->.
Qed.

Section pending_list.
Context (db : DB) (Ht : tables_inv (db_tables db)).

Lemma pending_key k : k ∈ tb_pending (db_tables db) → ∃ e, entries db !! id_suffix k = Some (Row e) ∧
  oe_State e = OutboxPending ∧ k = pendingKey (oe_Target e) (oe_EnqueuedAt e) (ev_ID (oe_Event e)) ∧ entry_ok (id_suffix k) e.
Proof.
  intros [Hk|(id & e & He & Hk)]%(ti_pending _ Ht); [set_solver|].
  destruct (ti_rows _ Ht _ _ He) as (? & [= <-] & Hok). pose proof (pending_index_id id e k Hok Hk) as Hid.
  unfold pending_index in Hk. case_match eqn:Es; [|done]. apply String.eqb_eq in Es. injection Hk as Hk.
  exists e. rewrite Hid. split_and!; [done..| |done]. by rewrite (eo_id _ _ Hok).
Qed.

(** The keys [ListPending] visits. *)
Definition pending_keys (target : string) (after : option OutboxCursor) : list string :=
  let skip := (λ c, pendingKey target (cu_EnqueuedAt c) (cu_ID c)) <$> after in
  filter (λ k, skip ≠ Some k) (filter (λ k, has_prefix k (target +:+ String nul ""))
    (seek (default (target +:+ String nul "") skip) (index_keys (tb_pending (db_tables db))))).

Lemma ListPending_rows target after limit o : ob_db o = db →
  ListPending target after limit o =
    Ok (take (effective_limit limit) (rows (entries db) (id_suffix <$> pending_keys target after))).
Proof.
  intros Hdb. unfold ListPending, pending_keys. rewrite Hdb. set (prefix := target +:+ _). set (skip := _ <$> after).
  assert (bytes_le prefix (default prefix skip)) as Hle.
  { destruct after as [c|]; [|reflexivity]. subst skip. cbn [fmap option_fmap option_map default]. rewrite pendingKey_target.
    apply bytes_le_prefix. }
  rewrite (take_while_filter bytes_le) by first
    [apply StronglySorted_filter, index_keys_sorted
    |intros a b [Ha _]%elem_of_seek _ Hab Hb; apply (prefix_convex prefix a b); [by etrans|done..]].
  apply list_loop_ok. intros k [_ [_ Hk%elem_of_index_keys]%elem_of_seek]%list_elem_of_filter.
  destruct (pending_key k Hk) as (e & He & _). eauto.
Qed.

Lemma elem_of_pending_keys target after k e : contains_nul target = false →
  (∀ c, after = Some c → instant_ok (cu_EnqueuedAt c)) →
  oe_State e = OutboxPending → entry_ok (id_suffix k) e → k = pendingKey (oe_Target e) (oe_EnqueuedAt e) (ev_ID (oe_Event e)) →
  entries db !! id_suffix k = Some (Row e) →
  k ∈ pending_keys target after ↔ oe_Target e = target ∧ after_cursor after e.
Proof.
  intros Hnul Hc Hs Hok Hk He. unfold pending_keys.
  rewrite !list_elem_of_filter, elem_of_seek, elem_of_index_keys, Is_true_true.
  assert (k ∈ tb_pending (db_tables db)) as Hin.
  { apply (ti_pending _ Ht). right. exists (id_suffix k), e. split; [done|]. unfold pending_index.
    rewrite Hs, String.eqb_refl, <-(eo_id _ _ Hok). by f_equal. }
  rewrite Hk, pendingKey_prefix, <-Hk by (done || apply Hok). split.
  - intros (Hskip & Htgt & Hle & _). split; [done|]. destruct after as [c|]; [|done]. simpl in *.
    rewrite Hk, Htgt in Hle, Hskip. apply pendingKey_lt with target; [by apply Hc|apply Hok|].
    apply bytes_ltb_spec. split; [done|]. congruence.
  - intros [Htgt Haft]. destruct after as [c|]; simpl in *.
    + apply (pendingKey_lt target) in Haft; [|by apply Hc|apply Hok]. rewrite <-Htgt, <-Hk, Htgt in Haft.
      apply bytes_ltb_spec in Haft as [Hle Hne]. split_and!; [congruence|done..].
    + split_and!; [done|done| |done]. rewrite Hk, Htgt, pendingKey_target. apply bytes_le_prefix.
Qed.

Lemma ListPending_ok target after limit o : ob_db o = db → contains_nul target = false →
  (∀ c, after = Some c → instant_ok (cu_EnqueuedAt c)) →
  ∃ full, ListPending target after limit o = Ok (take (effective_limit limit) full) ∧
    StronglySorted enqueued_before full ∧
    (∀ e, e ∈ full ↔ (∃ id, entries db !! id = Some (Row e)) ∧ oe_State e = OutboxPending ∧ oe_Target e = target ∧
                     after_cursor after e).
Proof.
  intros Hdb Hnul Hc. exists (rows (entries db) (id_suffix <$> pending_keys target after)).
  split; [by apply ListPending_rows|]. split.
  - apply (rows_sorted _ _ (λ a b, bytes_ltb a b = true)).
    { apply StronglySorted_strict; [|by repeat apply NoDup_filter; apply NoDup_index_keys].
      by repeat apply StronglySorted_filter; apply index_keys_sorted. }
    intros k1 k2 e1 e2 H1 H2 Hlt He1 He2.
    assert (∀ k, k ∈ pending_keys target after → k ∈ tb_pending (db_tables db)) as Hin.
    { intros k. unfold pending_keys. rewrite !list_elem_of_filter, elem_of_seek, elem_of_index_keys. tauto. }
    destruct (pending_key k1 (Hin _ H1)) as (? & He1' & Hs1 & Hk1 & Hok1). rewrite He1 in He1'. injection He1' as <-.
    destruct (pending_key k2 (Hin _ H2)) as (? & He2' & Hs2 & Hk2 & Hok2). rewrite He2 in He2'. injection He2' as <-.
    apply elem_of_pending_keys with (e := e1) in H1 as [Ht1 _]; [|done..]. apply elem_of_pending_keys with (e := e2) in H2 as [Ht2 _]; [|done..].
    rewrite Hk1, Hk2, Ht1, Ht2 in Hlt. by apply pendingKey_lt in Hlt; [|apply Hok1|apply Hok2].
  - intros e. rewrite elem_of_rows_fmap. split.
    + intros (k & Hk & He). assert (k ∈ tb_pending (db_tables db)) as Hin.
      { revert Hk. unfold pending_keys. rewrite !list_elem_of_filter, elem_of_seek, elem_of_index_keys. tauto. }
      destruct (pending_key k Hin) as (? & He' & Hs & Hkk & Hok). rewrite He in He'. injection He' as <-.
      apply elem_of_pending_keys with (e := e) in Hk as [??]; [|done..]. eauto.
    + intros ((id & He) & Hs & Htgt & Haft). destruct (ti_rows _ Ht _ _ He) as (? & [= <-] & Hok).
      exists (pendingKey (oe_Target e) (oe_EnqueuedAt e) (ev_ID (oe_Event e))).
      rewrite id_suffix_pendingKey by apply Hok. rewrite (eo_id _ _ Hok). split; [|done].
      apply elem_of_pending_keys with (e := e); rewrite ?id_suffix_pendingKey, ?(eo_id _ _ Hok); try done; destruct Hok as [<- [] ? ? ?]; done.
Qed.
End pending_list.

(** ** The coordinate index *)

(** A package event, which the index covers, on a coordinate. *)
Definition on_coordinate (target : string) (kind : Z) (author d : string) (e : OutboxEntry) : Prop :=
  is_Some (outboxCoordinateKey (oe_Target e) (oe_Event e)) ∧ oe_Target e = target ∧ ev_Kind (oe_Event e) = kind ∧
  ev_PubKey (oe_Event e) = author ∧ outboxTag (ev_Tags (oe_Event e)) "d" = d.

(** NIP-01 replacement: the higher created_at wins, then the lower id. *)
Definition replaces (e e' : OutboxEntry) : Prop :=
  to_u64 (ev_CreatedAt (oe_Event e')) < to_u64 (ev_CreatedAt (oe_Event e)) ∨
  to_u64 (ev_CreatedAt (oe_Event e')) = to_u64 (ev_CreatedAt (oe_Event e)) ∧ bytes_le (ev_ID (oe_Event e)) (ev_ID (oe_Event e')).

Lemma be32_inj x y : 0 ≤ x < two32 → 0 ≤ y < two32 → be32 x = be32 y → x = y.
Proof.
  intros Hx Hy E. apply (f_equal be_decode) in E. unfold be_decode, be32 in E. rewrite !be_decode_aux_be in E.
  unfold two32 in *. change (256 ^ Z.of_nat 4) with 4294967296 in E. rewrite !Z.mod_small in E by lia. lia.
Qed.

(** Reads one length-prefixed string off the front. *)
Lemma sized_inj a a' x x' : slen a < two32 → slen a' < two32 →
  be32 (slen a) +:+ a +:+ x = be32 (slen a') +:+ a' +:+ x' → a = a' ∧ x = x'.
Proof.
  intros Ha Ha' E. apply app_string_inj in E as [El E]; [|by unfold be32; rewrite !length_be].
  apply be32_inj in El; [|unfold slen in *; lia..]. apply app_string_inj in E; [done|]. unfold slen in El. lia.
Qed.

Lemma coordinatePrefix_inj t k a d t' k' a' d' x x' :
  slen t < two32 → slen t' < two32 → 0 ≤ k < 65536 → 0 ≤ k' < 65536 → String.length a = String.length a' →
  slen d < two32 → slen d' < two32 →
  outboxCoordinatePrefix t k a d +:+ x = outboxCoordinatePrefix t' k' a' d' +:+ x' →
  t = t' ∧ k = k' ∧ a = a' ∧ d = d' ∧ x = x'.
Proof.
  intros Ht Ht' Hk Hk' Ha Hd Hd' E. unfold outboxCoordinatePrefix in E. rewrite <-!app_string_assoc in E.
  apply sized_inj in E as [-> E]; [|done..]. apply app_string_inj in E as [Ek E]; [|by unfold be32; rewrite !length_be].
  apply be32_inj in Ek as ->; [|unfold two32; lia..]. apply app_string_inj in E as [-> E]; [|done].
  by apply sized_inj in E as [-> ->].
Qed.

Section latest.
Context (db : DB) (Ht : tables_inv (db_tables db)).
Context (target : string) (kind : Z) (author d : string).
Context (Htarget : slen target < two32) (Hkind : 0 ≤ kind < 65536) (Hauthor : String.length author = 32%nat) (Hd : slen d < two32).

Lemma d_tag_short e id : entry_ok id e → slen (outboxTag (ev_Tags (oe_Event e)) "d") < two32.
Proof.
  intros Hok. destruct (decide (outboxTag (ev_Tags (oe_Event e)) "d" = "")) as [->|Hne]; [by vm_compute|].
  apply outboxTag_elem in Hne as [rest Hin]. eapply (wf_tags _ (eo_event _ _ Hok)); [done|]. set_solver.
Qed.

(** The keys under a coordinate's prefix are those of its entries. *)
Lemma coordinate_key_prefix k : k ∈ tb_coordinates (db_tables db) →
  has_prefix k (outboxCoordinatePrefix target kind author d) = true →
  ∃ e, entries db !! id_suffix k = Some (Row e) ∧ outboxCoordinateKey (oe_Target e) (oe_Event e) = Some k ∧
       on_coordinate target kind author d e.
Proof using Ht Htarget Hkind Hauthor Hd.
  intros [Hk|(id & e & He & Hk)]%(ti_coordinates _ Ht) Hp.
  { apply elem_of_singleton in Hk as ->. apply has_prefix_spec in Hp as [s Hs]. apply (f_equal String.length) in Hs.
    revert Hs. unfold outboxCoordinatePrefix. rewrite !length_app_string, Hauthor. unfold be32. rewrite !length_be. simpl. lia. }
  destruct (ti_rows _ Ht _ _ He) as (? & [= <-] & Hok). unfold coordinate_index in Hk. exists e.
  assert (id_suffix k = id) as ->.
  { rewrite <-(eo_id _ _ Hok). eapply id_suffix_coordinateKey, Hk. apply Hok. }
  split_and!; [done..|]. apply outboxCoordinateKey_Some in Hk as Hk'. destruct Hk' as (_ & _ & ->).
  apply has_prefix_spec in Hp as [s Hs]. symmetry in Hs. apply coordinatePrefix_inj in Hs as (E1 & E2 & E3 & E4 & _); [|try done..].
  - split_and!; [by eexists|done..].
  - apply Hok.
  - apply Hok.
  - rewrite Hauthor. symmetry. apply Hok.
  - by eapply d_tag_short.
Qed.

Lemma on_coordinate_key id e : entries db !! id = Some (Row e) → on_coordinate target kind author d e →
  ∃ k, outboxCoordinateKey (oe_Target e) (oe_Event e) = Some k ∧ k ∈ tb_coordinates (db_tables db) ∧
    k = outboxCoordinatePrefix target kind author d +:+ be64 (newest_first (ev_CreatedAt (oe_Event e))) +:+ ev_ID (oe_Event e).
Proof using Ht Htarget Hkind Hauthor Hd.
  intros He ([k Hk] & <- & <- & <- & <-). exists k. split; [done|]. split.
  - apply (ti_coordinates _ Ht). right. by exists id, e.
  - by apply outboxCoordinateKey_Some in Hk as (_ & _ & ->).
Qed.

(** Keys of one coordinate sort by replacement. *)
Lemma coordinate_order p e e' :
  bytes_le (p +:+ be64 (newest_first (ev_CreatedAt (oe_Event e))) +:+ ev_ID (oe_Event e))
           (p +:+ be64 (newest_first (ev_CreatedAt (oe_Event e'))) +:+ ev_ID (oe_Event e')) → replaces e e'.
Proof.
  unfold bytes_le, replaces, newest_first. pose proof (to_u64_range (ev_CreatedAt (oe_Event e))).
  pose proof (to_u64_range (ev_CreatedAt (oe_Event e'))). rewrite bytes_leb_app, be64_leb by lia.
  destruct (Z.ltb_spec (two64 - 1 - to_u64 (ev_CreatedAt (oe_Event e))) (two64 - 1 - to_u64 (ev_CreatedAt (oe_Event e')))); [lia|].
  destruct (Z.eqb_spec (two64 - 1 - to_u64 (ev_CreatedAt (oe_Event e))) (two64 - 1 - to_u64 (ev_CreatedAt (oe_Event e')))); [|done].
  intros. right. split; [lia|done].
Qed.

Lemma LatestByCoordinate_ok o : ob_db o = db →
  ∃ r, LatestByCoordinate target kind author d o = Ok r ∧
    match r with
    | None => ∀ id e, entries db !! id = Some (Row e) → ¬ on_coordinate target kind author d e
    | Some e => (∃ id, entries db !! id = Some (Row e)) ∧ on_coordinate target kind author d e ∧
        ∀ id' e', entries db !! id' = Some (Row e') → on_coordinate target kind author d e' → replaces e e'
    end.
Proof using Ht Htarget Hkind Hauthor Hd.
  intros Hdb. unfold LatestByCoordinate. rewrite Hdb. set (prefix := outboxCoordinatePrefix target kind author d).
  pose proof (StronglySorted_filter bytes_le (λ x, bytes_le prefix x) _ (index_keys_sorted (tb_coordinates (db_tables db)))) as Hs.
  fold (seek prefix (index_keys (tb_coordinates (db_tables db)))) in Hs.
  assert (∀ k, k ∈ seek prefix (index_keys (tb_coordinates (db_tables db))) ↔ bytes_le prefix k ∧ k ∈ tb_coordinates (db_tables db)) as Hin.
  { intros k. by rewrite elem_of_seek, elem_of_index_keys. }
  assert (∀ id e, entries db !! id = Some (Row e) → on_coordinate target kind author d e → ∃ k,
    k = prefix +:+ be64 (newest_first (ev_CreatedAt (oe_Event e))) +:+ ev_ID (oe_Event e) ∧
    k ∈ seek prefix (index_keys (tb_coordinates (db_tables db)))) as Hkeys.
  { intros id e He Hc. destruct (on_coordinate_key id e He Hc) as (k & _ & Hk & ->). eexists. split; [done|].
    apply Hin. split; [apply bytes_le_prefix|done]. }
  destruct (seek prefix _) as [|key rest] eqn:E.
  { exists None. split; [done|]. intros id e He Hc. by destruct (Hkeys id e He Hc) as (k & _ & ?%not_elem_of_nil). }
  apply StronglySorted_inv in Hs as [_ Hall]. rewrite Forall_forall in Hall.
  assert (∀ k, k ∈ key :: rest → bytes_le key k) as Hmin by (intros k [->|?]%elem_of_cons; [done|auto]).
  destruct (proj1 (Hin key)) as [Hle Hkey]; [by left|]. destruct (has_prefix key prefix) eqn:Ep; simpl.
  - destruct (coordinate_key_prefix key Hkey Ep) as (e & He & Hk & Hc). rewrite He. simpl. rewrite Hk, bool_decide_eq_true_2 by done.
    exists (Some e). split; [done|]. split_and!; [eauto|done|]. intros id' e' He' Hc'.
    destruct (Hkeys id' e' He' Hc') as (k' & -> & Hk'%Hmin). destruct (on_coordinate_key _ e He Hc) as (k & Hk2 & _ & Hk3).
    rewrite Hk in Hk2. injection Hk2 as <-. rewrite Hk3 in Hk'. by apply coordinate_order in Hk'.
  - exists None. split; [done|]. intros id e He Hc. destruct (Hkeys id e He Hc) as (k & -> & Hk%Hmin).
    apply (prefix_convex prefix) in Hk; [congruence|done|apply has_prefix_app].
Qed.
End latest.
