(* ===== verification/OutboxHistory.v ===== *)
(** * The outbox as a transition system

    One step is one committed write of the [Outbox] API, with what Go's types
    and the callers give of its arguments; reads and calls that return an
    error change nothing.  [reachable] is what any sequence of such calls
    makes of the file [OpenOutbox] creates.  [evolves] is the part of the
    state that only grows: proofs, admissions, decisions and clock floors. *)

From Stdlib Require Import ZArith Lia Bool.
From stdpp Require Import base tactics decidable option list numbers strings gmap relations.
From S2P Require Import Prelude Bytes Nostr EventID EventIDFacts Bolt OutboxData OutboxStore Outbox BackupRun BackupRunPending OutboxInv OutboxRetention LedgerInv OpsInv LedgerOpsInv.

Section steps.
Context `{NostrPrims}.

(** The relay round [PublishUnadmittedBackupRunStatus] runs after its own
    transaction is the caller's; what it commits are steps of their own. *)
Definition no_round (o : Outbox) : result OutboxError unit * Outbox := (Ok tt, o).

(** What the conditions say of the arguments: instants and entries as Go's
    types have them; a new pending request in its initial form
    ([pending_input]); and, for an admission, that the pending request of its
    intent is on file ([has_request]), which [StageRunAdmissionWithHistory]
    has read before it stages the run: [EnqueueBackupRun] itself checks only
    who owns the coordinate. *)
Inductive step (o : Outbox) : Outbox → Prop :=
| step_Enqueue now e b o' :
    instant_ok now → entry_input e → Enqueue now e o = Ok (b, o') → step o o'
| step_EnqueuePublisherDelivery now e b o' :
    instant_ok now → entry_input e → EnqueuePublisherDelivery now e o = Ok (b, o') → step o o'
| step_CommitRound now id round e o' :
    instant_ok (round_at now round) → CommitRound now id round o = Ok (e, o') → step o o'
| step_CommitPublisherRound now id round e o' :
    instant_ok (round_at now round) → CommitPublisherRound now id round o = Ok (e, o') → step o o'
| step_Prune hold pf pb fb n o' :
    instant_ok pb → instant_ok fb → Prune hold pf pb fb o = Ok (n, o') → step o o'
| step_PurgeEvents matches ids o' : PurgeEvents matches o = Ok (ids, o') → step o o'
| step_Retry id e o' : Retry id o = Ok (e, o') → step o o'
| step_RetryAllFailed n o' : RetryAllFailed o = Ok (n, o') → step o o'
| step_PutBackupRunPending r r' b o' :
    pending_input r → PutBackupRunPending r o = Ok (r', b, o') → step o o'
| step_RecordBackupRunPendingAttempt i h now next reason o' :
    RecordBackupRunPendingAttempt i h now next reason o = Ok o' → step o o'
| step_RefuseBackupRunPending i h reason o' : RefuseBackupRunPending i h reason o = Ok o' → step o o'
| step_EnqueueBackupRun now e i c h actor r b o' :
    instant_ok now → entry_input e → contains_nul (oe_Target e) = false → has_request (ob_db o) i c h →
    EnqueueBackupRun now e i c h actor o = Ok (r, b, o') → step o o'
| step_StageBackupRunAcceptedStatus now r ev target id b o' :
    status_input now ev target → StageBackupRunAcceptedStatus now r ev target o = Ok (id, b, o') → step o o'
| step_StageBackupRunRefusedStatus now r ev target id b o' :
    status_input now ev target → StageBackupRunRefusedStatus now r ev target o = Ok (id, b, o') → step o o'
| step_CompactBackupRunAccepted hold i c h terminal target o' :
    CompactBackupRunAccepted hold i c h terminal target o = Ok o' → step o o'
| step_PublishUnadmittedBackupRunStatus c h ev o' :
    wf_event ev → PublishUnadmittedBackupRunStatus c h ev no_round o = (Ok tt, o') → step o o'.

(** The handle of a new file. *)
Definition initial : Outbox := mkOutbox empty_db false "".

Definition reachable (o : Outbox) : Prop := rtc step initial o.
End steps.

Section steps_inv.
Context `{NostrLaws}.

Lemma step_db_inv o o' : step o o' → db_inv (ob_db o) → db_inv (ob_db o').
Proof.
  destruct 1 as [? ? ? ? Hn He Hq|? ? ? ? Hn He Hq|? ? ? ? ? Hat Hq|? ? ? ? ? Hat Hq|? ? ? ? ? ? Hp Hf Hq|? ? ? Hq|
    ? ? ? Hq|? ? Hq|? ? ? ? Hin Hq|? ? ? ? ? ? Hq|? ? ? ? Hq|? ? ? ? ? ? ? ? ? Hn He Hnul Hr Hq|
    ? ? ? ? ? ? ? Hin Hq|? ? ? ? ? ? ? Hin Hq|? ? ? ? ? ? ? Hq|? ? ? ? Hw Hq]; intros Hi.
  - unfold Enqueue in Hq. inv_ok. by eapply enqueue_db_inv.
  - unfold EnqueuePublisherDelivery in Hq. inv_ok. by eapply enqueue_db_inv.
  - unfold CommitRound, commitRound in Hq. inv_ok. simplify_eq. destruct v0. by eapply commitRound_tx_db_inv.
  - unfold CommitPublisherRound, commitRound in Hq. inv_ok. simplify_eq. destruct v0. by eapply commitRound_tx_db_inv.
  - by eapply Prune_db_inv in Hq.
  - by eapply PurgeEvents_db_inv in Hq.
  - by eapply Retry_db_inv in Hq.
  - by eapply RetryAllFailed_db_inv in Hq.
  - unfold PutBackupRunPending in Hq. inv_ok. destruct v2 as [[]]. inv_ok. simplify_eq. by eapply putPending_tx_db_inv.
  - unfold RecordBackupRunPendingAttempt in Hq. inv_ok. simplify_eq. by eapply recordAttempt_tx_db_inv.
  - unfold RefuseBackupRunPending in Hq. inv_ok. simplify_eq. by eapply refuse_tx_db_inv.
  - unfold EnqueueBackupRun in Hq. fold (enqueue_at now e) in Hq. inv_ok. destruct v4 as [[]]. inv_ok. simplify_eq.
    eapply (enqueueBackupRun_tx_db_inv (fresh_entry e (enqueue_at now e))); [exact (fresh_entry_ok now e Hn He Hnul)|done..].
  - unfold StageBackupRunAcceptedStatus in Hq. inv_ok. destruct v2 as [[]]. inv_ok. simplify_eq. by eapply stageAccepted_tx_db_inv.
  - unfold StageBackupRunRefusedStatus in Hq. inv_ok. destruct v2 as [[]]. inv_ok. simplify_eq. by eapply stageRefused_tx_db_inv.
  - unfold CompactBackupRunAccepted in Hq. repeat case_match; inv_ok; simplify_eq; try done. by eapply compact_tx_db_inv.
  - unfold PublishUnadmittedBackupRunStatus in Hq. repeat case_match; simplify_eq.
    unfold no_round in Hq. simplify_eq. by eapply clocked_inv; [eapply unadmitted_tx_clocked|].
Qed.

Lemma reachable_db_inv o : reachable o → db_inv (ob_db o).
Proof.
  intros Hr. unfold reachable in Hr. remember initial as o0 eqn:E. assert (db_inv (ob_db o0)) as Hi by (subst; apply db_inv_empty).
  clear E. induction Hr as [|o1 o2 o3 Hs _ IH]; [done|]. by eapply IH, step_db_inv.
Qed.
End steps_inv.

(** * What only grows

    Delivery proofs, admissions, decided requests and the status clock are
    never taken back: [evolves] orders the states of the file by what they
    have promised, and every step of the outbox respects it. *)

(** ** Orders on records *)

(** An admission keeps its identity; delivery and status only advance. *)
Record admission_le (a a' : BackupRunAdmission) : Prop := {
  al_intent : ba_IntentID a' = ba_IntentID a;
  al_coord : ba_Coordinate a' = ba_Coordinate a;
  al_request : ba_RequestEventID a' = ba_RequestEventID a;
  al_event : ba_StateEventID a' = ba_StateEventID a;
  al_target : ba_Target a' = ba_Target a;
  al_actor : ba_Actor a' = ba_Actor a;
  al_service : ba_ServicePubkey a' = ba_ServicePubkey a;
  al_delivered : ba_Delivered a = true → ba_Delivered a' = true;
  al_status : ba_StatusEventID a ≠ "" →
    ba_StatusEventID a' = ba_StatusEventID a ∧ ba_StatusTarget a' = ba_StatusTarget a ∧
    ba_StatusOutcome a' = ba_StatusOutcome a;
  al_statusDelivered : ba_StatusDelivered a = true → ba_StatusDelivered a' = true;
}.

(** A request keeps its identity and, once decided, its decision. *)
Record pending_le (p p' : BackupRunPending) : Prop := {
  pl_intent : bp_IntentID p' = bp_IntentID p;
  pl_coord : bp_Coordinate p' = bp_Coordinate p;
  pl_request : ev_ID (bp_RequestEvent p') = ev_ID (bp_RequestEvent p);
  pl_actor : bp_Actor p' = bp_Actor p;
  pl_service : bp_ServicePubkey p' = bp_ServicePubkey p;
  pl_expires : bp_ExpiresAt p' = bp_ExpiresAt p;
  pl_state : bp_State p ≠ BackupRunPendingState → bp_State p' = bp_State p;
  pl_status : bp_StatusEventID p ≠ "" →
    bp_StatusEventID p' = bp_StatusEventID p ∧ bp_StatusTarget p' = bp_StatusTarget p;
  pl_statusDelivered : bp_StatusDelivered p = true → bp_StatusDelivered p' = true;
}.

#[export] Instance admission_le_refl : Reflexive admission_le.
Proof. by split. Qed.
#[export] Instance admission_le_trans : Transitive admission_le.
Proof.
  intros a b c [] []. split; try congruence; try tauto. intros Hs. destruct (al_status0 Hs) as (E & ? & ?).
  rewrite <-E in Hs. destruct (al_status1 Hs) as (? & ? & ?). split_and!; congruence.
Qed.
#[export] Instance pending_le_refl : Reflexive pending_le.
Proof. by split. Qed.
#[export] Instance pending_le_trans : Transitive pending_le.
Proof.
  intros p q r [] []. split; try congruence; try tauto.
  - intros Hs. rewrite <-(pl_state0 Hs) in Hs |- *. by rewrite pl_state1.
  - intros Hs. destruct (pl_status0 Hs) as [E ?]. rewrite <-E in Hs. destruct (pl_status1 Hs). split; congruence.
Qed.

(** Rows are kept, and advance by [le]. *)
Definition grows {A} (le : A → A → Prop) (m m' : gmap string (row A)) : Prop :=
  ∀ i a, m !! i = Some (Row a) → ∃ a', m' !! i = Some (Row a') ∧ le a a'.

Definition floor_le (db db' : DB) : Prop :=
  ∀ key z, backupRunStatusTimestampFloor key db = Ok z →
    ∃ z', backupRunStatusTimestampFloor key db' = Ok z' ∧ z ≤ z'.

Record evolves (db db' : DB) : Prop := {
  ev_proofs : proofs db ⊆ proofs db';
  ev_admissions : grows admission_le (intents db) (intents db');
  ev_requests : grows pending_le (lg_pending (db_ledger db)) (lg_pending (db_ledger db'));
  ev_clock : ∀ key, is_Some (lg_statusClock (db_ledger db) !! key) → is_Some (lg_statusClock (db_ledger db') !! key);
  ev_floor : floor_le db db';
}.

Section grows.
Context {A : Type} (le : A → A → Prop).
Implicit Types m : gmap string (row A).

#[export] Instance grows_refl `{!Reflexive le} : Reflexive (grows le).
Proof. intros m i a Ha. by exists a. Qed.
#[export] Instance grows_trans `{!Transitive le} : Transitive (grows le).
Proof. intros m1 m2 m3 H1 H2 i a (b & Hb & ?)%H1. destruct (H2 _ _ Hb) as (c & ? & ?). exists c. split; [done|by etrans]. Qed.

Lemma grows_insert `{!Reflexive le} m i a :
  (∀ b, m !! i = Some (Row b) → le b a) → grows le m (<[i := Row a]> m).
Proof.
  intros Ha j b Hb. destruct (decide (i = j)) as [<-|]; [exists a; by rewrite lookup_insert_eq; auto|].
  exists b. by rewrite lookup_insert_ne.
Qed.
End grows.

#[export] Instance evolves_refl : Reflexive evolves.
Proof. intros db. split; [done|reflexivity..|done|]. intros key z Hz. by exists z. Qed.
#[export] Instance evolves_trans : Transitive evolves.
Proof.
  intros db1 db2 db3 [] []. split; [by etrans..|by auto|]. intros key z (z1 & Hz1 & ?)%ev_floor0.
  destruct (ev_floor1 _ _ Hz1) as (z2 & ? & ?). exists z2. split; [done|lia].
Qed.

(** ** Updates *)

(** A write outside the proofs and the ledger. *)
Lemma evolves_tables db db' : db_ledger db' = db_ledger db → proofs db ⊆ proofs db' → evolves db db'.
Proof.
  intros Hl Hp. split; [done|unfold intents; rewrite Hl; reflexivity..|by rewrite Hl|].
  intros key z Hz. exists z. unfold backupRunStatusTimestampFloor in *. by rewrite Hl.
Qed.

Lemma evolves_intent i a db : (∀ b, intents db !! i = Some (Row b) → admission_le b a) → evolves db (put_intent i a db).
Proof. intros Ha. split; [done|by apply (grows_insert admission_le)|reflexivity|done|]. intros key z Hz. by exists z. Qed.

Lemma evolves_request i p db :
  (∀ q, lg_pending (db_ledger db) !! i = Some (Row q) → pending_le q p) → evolves db (put_lpending i p db).
Proof. intros Hp. split; [done|reflexivity|by apply (grows_insert pending_le)|done|]. intros key z Hz. by exists z. Qed.

(** Other ledger buckets are indexes. *)
Lemma evolves_index db db' : proofs db' = proofs db → intents db' = intents db →
  lg_pending (db_ledger db') = lg_pending (db_ledger db) →
  lg_statusClock (db_ledger db') = lg_statusClock (db_ledger db) → evolves db db'.
Proof.
  intros Hp Hi Hl Hc. split; [by rewrite Hp|by rewrite Hi|by rewrite Hl|by rewrite Hc|].
  intros key z Hz. exists z. unfold backupRunStatusTimestampFloor in *. by rewrite Hc.
Qed.

Lemma raise_clock_evolves key ev db db' : wf_event ev → raise_clock key ev db = Ok db' → evolves db db'.
Proof.
  intros Hw. unfold raise_clock. intros Hr. inv_ok. case_match eqn:E; inv_ok; subst; [reflexivity|].
  split; [done|reflexivity..|intros k Hk; by apply lookup_insert_is_Some'; right|]. intros k z Hz. unfold backupRunStatusTimestampFloor in Hz |- *. simpl.
  destruct (decide (key = k)) as [<-|]; [|rewrite lookup_insert_ne by done; by exists z].
  rewrite lookup_insert_eq, (length_be 8). simpl. eexists. split; [done|].
  rewrite be_decode_be64, (to_u64_small (to_u64 _)), to_i64_u64 by (apply Hw || apply to_u64_range).
  change (backupRunStatusTimestampFloor key db = Ok z) in Hz. rewrite Hz in Hok. simplify_eq. bool_facts. lia.
Qed.

Section history.
Context `{NostrPrims}.

Lemma recordStatus_evolves ev db db' : wf_event ev → recordBackupRunStatusTimestamp ev db = Ok db' → evolves db db'.
Proof.
  unfold recordBackupRunStatusTimestamp. intros ?. case_match; [by apply raise_clock_evolves|]. intros. inv_ok. by subst.
Qed.

Lemma recordCoordinate_evolves ev c db db' :
  wf_event ev → recordBackupRunCoordinateStatusTimestamp ev c db = Ok db' → evolves db db'.
Proof. unfold recordBackupRunCoordinateStatusTimestamp. intros ?. case_match; [done|by apply raise_clock_evolves]. Qed.

Lemma recordPublisherProof_evolves e round at_ b db db' :
  recordPublisherProof e round at_ b db = Ok db' → evolves db db'.
Proof.
  intros [->|(_ & _ & _ & Hno & p & _ & ->)]%recordPublisherProof_ok; [reflexivity|].
  apply evolves_tables; [done|]. by apply insert_subseteq.
Qed.

Lemma updateAdmission_evolves e db db' : updateBackupRunAdmissionDelivery e db = Ok db' → evolves db db'.
Proof.
  unfold updateBackupRunAdmissionDelivery. intros Hu. repeat (case_match; inv_ok; subst; try reflexivity).
  rename select (_ ≫= unmarshal = _) into Hr. apply evolves_intent. intros b Hb. rewrite Hb in Hr. simpl in Hr. by simplify_eq.
Qed.

Lemma updateStatus_evolves e db db' : updateBackupRunStatusDelivery e db = Ok db' → evolves db db'.
Proof.
  unfold updateBackupRunStatusDelivery, updateBackupRunRefusalDelivery. intros Hu.
  repeat (case_match; inv_ok; subst; try reflexivity).
  - apply evolves_intent. intros b Hb. simplify_eq. rename select (unmarshal _ = _) into Hr. by simplify_eq/=.
  - rename select (_ ≫= unmarshal = _) into Hr. apply evolves_request. intros b Hb. rewrite Hb in Hr. by simplify_eq/=.
Qed.

Lemma enqueue_tx_evolves e b db db' : wf_event (oe_Event e) → enqueue_tx e db = Ok (b, db') → evolves db db'.
Proof.
  unfold enqueue_tx. intros Hw Hq. case_match; inv_ok; simplify_eq; [reflexivity|].
  rename select (recordBackupRunStatusTimestamp _ _ = _) into Hc. apply recordStatus_evolves in Hc; [|done].
  etrans; [|etrans; [exact Hc|]]; [by apply evolves_tables|].
  by apply evolves_tables; destruct (outboxCoordinateKey (oe_Target e) (oe_Event e)).
Qed.

Lemma commitRound_tx_evolves now id round b db e db' : commitRound_tx now id round b db = Ok (e, db') → evolves db db'.
Proof.
  intros (stored & _ & _ & _ & [(_ & _ & db1 & H1 & H2)|(_ & db1 & db2 & db3 & Hw & H1 & H2 & H3)])%commitRound_tx_ok;
    apply recordPublisherProof_evolves in H1.
  - etrans; [done|by eapply updateStatus_evolves].
  - apply round_writes_facts in Hw as (_ & Hp & Hl & _). trans db1; [apply evolves_tables; by rewrite ?Hp|].
    trans db2; [done|]. trans db3; [by eapply updateAdmission_evolves|by eapply updateStatus_evolves].
Qed.

Lemma putPending_tx_evolves r r' b db db' : putPending_tx r db = Ok (r', b, db') → evolves db db'.
Proof.
  unfold putPending_tx. intros Hp. case_match eqn:E; inv_ok; simplify_eq; [reflexivity|].
  trans (put_lpending (bp_IntentID r') r' db); [|by apply evolves_index]. apply evolves_request. intros q Hq. by rewrite Hq in E.
Qed.

Lemma decide_evolves i r st next n reason db db' :
  lg_pending (db_ledger db) !! i = Some (Row r) → bp_State r = BackupRunPendingState →
  proofs db' = proofs db → intents db' = intents db → lg_statusClock (db_ledger db') = lg_statusClock (db_ledger db) →
  lg_pending (db_ledger db') = <[i := Row (pending_with r (bp_RequestEvent r) next n reason st
    (bp_StatusEventID r) (bp_StatusTarget r))]> (lg_pending (db_ledger db)) → evolves db db'.
Proof.
  intros Hr Hs Hp Hi Hc Hl. etrans; [eapply evolves_request|by apply evolves_index; [..|exact Hl|]].
  intros q Hq. rewrite Hr in Hq. by simplify_eq.
Qed.

Lemma recordAttempt_tx_evolves i h now next reason db db' :
  recordAttempt_tx i h now next reason db = Ok db' → evolves db db'.
Proof.
  unfold recordAttempt_tx. intros Ha. inv_ok. rename select (load_pending _ _ _ = _) into Hr.
  apply load_pending_ok in Hr as [Hr _]. case_match eqn:Eu; inv_ok; subst; [reflexivity|].
  apply negb_false_iff, undecided_ok in Eu as [Hs _]. unfold attempted in *.
  repeat (case_match; inv_ok; subst); by eapply decide_evolves.
Qed.

Lemma refuse_tx_evolves i h reason db db' : refuse_tx i h reason db = Ok db' → evolves db db'.
Proof.
  unfold refuse_tx. intros Ha. inv_ok. rename select (load_pending _ _ _ = _) into Hr.
  apply load_pending_ok in Hr as [Hr _]. case_match eqn:Eu; inv_ok; subst; [reflexivity|].
  apply negb_false_iff, undecided_ok in Eu as [Hs _]. by eapply decide_evolves.
Qed.

Lemma enqueueBackupRun_tx_evolves e i c h actor r b db db' :
  enqueueBackupRun_tx e i c h actor db = Ok (r, b, db') → evolves db db'.
Proof.
  unfold enqueueBackupRun_tx. intros Hq. case_match eqn:E; inv_ok; simplify_eq; [reflexivity|].
  set (db1 := put_pending _ _). trans db1; [by apply evolves_tables|].
  etrans; [apply (evolves_intent i (new_admission e i c h actor))|by apply evolves_index].
  intros a Ha. unfold intents in Ha. simpl in Ha. by rewrite Ha in E.
Qed.

(** The writes both status stagings share: row, keys and index. *)
Lemma staged_evolves now ev target i db :
  evolves db (put_statusEvent (hex (ev_ID ev)) i (put_coordinate (outboxCoordinateKey target ev)
    (put_pending (pendingKey target now (ev_ID ev)) (put_entry (ev_ID ev) (status_entry now ev target) db)))).
Proof. by destruct (outboxCoordinateKey target ev); apply evolves_index. Qed.

Lemma accept_pending_evolves a db db' : accept_pending a db = Ok db' → evolves db db'.
Proof.
  unfold accept_pending. intros Hq. case_match eqn:E; inv_ok; simplify_eq; [|reflexivity]. bool_facts.
  rename select (unmarshal _ = _) into Hu. apply unmarshal_Some in Hu as ->.
  by eapply decide_evolves; [exact E|apply String.eqb_eq|..].
Qed.

Lemma set_status_le a id target : ba_StatusEventID a = "" → admission_le a (set_status a id target).
Proof. intros Hs. by split. Qed.

Lemma stageAccepted_tx_evolves now r ev target id b db db' :
  wf_event ev → stageAccepted_tx now r ev target db = Ok (id, b, db') → evolves db db'.
Proof.
  intros Hw Hq. unfold stageAccepted_tx in Hq. inv_ok. rename v into a. rename select (_ ≫= unmarshal = _) into Ha.
  destruct (intents db !! _) as [raw|] eqn:Er; [|done]. apply unmarshal_Some in Ha as ->.
  case_match eqn:Est; inv_ok; simplify_eq; [reflexivity|]. apply negb_false_iff, String.eqb_eq in Est.
  bool_facts. repeat match goal with Hb : String.eqb _ _ = true |- _ => apply String.eqb_eq in Hb end.
  rename select (recordBackupRunStatusTimestamp _ _ = _) into Hc. pose proof Hc as [c Hcl]%recordStatus_clocked.
  apply recordStatus_evolves in Hc; [|done]. rename select (accept_pending _ _ = _) into Hacc. apply accept_pending_evolves in Hacc.
  etrans; [apply (staged_evolves now ev target (ba_IntentID a))|]. etrans; [exact Hc|]. etrans; [|exact Hacc].
  apply evolves_intent. intros q Hb. assert (intents db !! ba_IntentID a = Some (Row q)) as Hb'.
  { rewrite Hcl in Hb. by destruct (outboxCoordinateKey target ev). }
  assert (q = a) as -> by (simpl in *; congruence). by apply set_status_le.
Qed.

Lemma compact_le p id target : (bp_StatusEventID p ≠ "" → id = bp_StatusEventID p ∧ target = bp_StatusTarget p) →
  pending_le p (compactBackupRunPending (pending_with p (bp_RequestEvent p) (bp_NextAttemptAt p) (bp_Attempts p)
    (bp_LastFailure p) (bp_State p) id target)).
Proof. by split. Qed.

Lemma stageRefused_tx_evolves now r ev target id b db db' :
  wf_event ev → ledger_inv db → stageRefused_tx now r ev target db = Ok (id, b, db') → evolves db db'.
Proof.
  intros Hw Hl Hq. unfold stageRefused_tx in Hq. inv_ok. rename v into p. rename select (_ ≫= unmarshal = _) into Hp.
  destruct (lg_pending _ !! _) as [raw|] eqn:Er; [|done]. apply unmarshal_Some in Hp as ->.
  destruct (li_pending _ Hl _ _ Er) as (? & [= <-] & Ho).
  case_match eqn:Est; inv_ok; simplify_eq; [reflexivity|]. apply negb_false_iff, String.eqb_eq in Est.
  rename select (recordBackupRunStatusTimestamp _ _ = _) into Hc1. pose proof Hc1 as [c1 ->]%recordStatus_clocked.
  apply recordStatus_evolves in Hc1; [|done].
  rename select (recordBackupRunCoordinateStatusTimestamp _ _ _ = _) into Hc2. pose proof Hc2 as [c2 ->]%recordCoordinate_clocked.
  apply recordCoordinate_evolves in Hc2; [|done].
  etrans; [apply (staged_evolves now ev target (bp_IntentID p))|]. etrans; [exact Hc1|]. etrans; [exact Hc2|].
  etrans; [apply (evolves_request (bp_IntentID p))|by apply evolves_index]. intros q Hb.
  assert (lg_pending (db_ledger db) !! bp_IntentID p = Some (Row q)) as Hb' by by destruct (outboxCoordinateKey target ev).
  rewrite (po_intent _ _ _ Ho), Er in Hb'. simplify_eq. by apply compact_le.
Qed.

Lemma compact_tx_evolves i c h terminal target db db' :
  ledger_inv db → compact_tx i c h terminal target db = Ok db' → evolves db db'.
Proof.
  intros Hl Hq. unfold compact_tx in Hq. inv_ok. rename v into p. case_match; inv_ok; subst; [reflexivity|].
  rename select (lg_pending _ !! _ ≫= unmarshal = _) into Hp.
  destruct (lg_pending _ !! _) as [raw|] eqn:Er; [|done]. apply unmarshal_Some in Hp as ->.
  destruct (li_pending _ Hl _ _ Er) as (? & [= <-] & Ho). apply evolves_request. simpl. rewrite (po_intent _ _ _ Ho).
  intros q Hq. rewrite Er in Hq. by simplify_eq.
Qed.

Lemma unadmitted_tx_evolves c k ev db db' : wf_event ev → unadmitted_tx c k ev db = Ok db' → evolves db db'.
Proof.
  unfold unadmitted_tx. intros. inv_ok. etrans; [by eapply recordStatus_evolves|by eapply recordCoordinate_evolves].
Qed.
End history.

Section steps_evolve.
Context `{NostrLaws}.

Lemma Prune_evolves hold pf pb fb o n o' : tables_inv (db_tables (ob_db o)) → instant_ok pb → instant_ok fb →
  Prune hold pf pb fb o = Ok (n, o') → evolves (ob_db o) (ob_db o').
Proof.
  intros Ht Hpb Hfb Hp. unfold Prune in Hp. case_match; inv_ok; simplify_eq; [reflexivity|].
  case_match; inv_ok; simplify_eq; [reflexivity|]. destruct v as [n' db']. simpl.
  apply prune_states_ok in Hok as (rm & [_ Hl Hpr _] & _); [by apply evolves_tables; rewrite ?Hpr|done|].
  intros st b Hst. destruct pf; repeat (apply elem_of_cons in Hst as [[= -> ->]|Hst]; [by auto|]); by apply not_elem_of_nil in Hst.
Qed.

Lemma step_evolves o o' : step o o' → db_inv (ob_db o) → evolves (ob_db o) (ob_db o').
Proof.
  destruct 1 as [? ? ? ? Hn He Hq|? ? ? ? Hn He Hq|? ? ? ? ? Hat Hq|? ? ? ? ? Hat Hq|? ? ? ? ? ? Hp Hf Hq|? ? ? Hq|
    ? ? ? Hq|? ? Hq|? ? ? ? Hin Hq|? ? ? ? ? ? Hq|? ? ? ? Hq|? ? ? ? ? ? ? ? ? Hn He Hnul Hr Hq|
    ? ? ? ? ? ? ? Hin Hq|? ? ? ? ? ? ? Hin Hq|? ? ? ? ? ? ? Hq|? ? ? ? Hw Hq]; intros Hi.
  - unfold Enqueue in Hq. inv_ok. apply enqueue_ok in Hok0 as (_ & _ & _ & db' & Hq & ->).
    eapply enqueue_tx_evolves, Hq. apply He.
  - unfold EnqueuePublisherDelivery in Hq. inv_ok. apply enqueue_ok in Hok0 as (_ & _ & _ & db' & Hq & ->).
    eapply enqueue_tx_evolves, Hq. apply He.
  - unfold CommitRound, commitRound in Hq. inv_ok. simplify_eq. destruct v0. by eapply commitRound_tx_evolves.
  - unfold CommitPublisherRound, commitRound in Hq. inv_ok. simplify_eq. destruct v0. by eapply commitRound_tx_evolves.
  - by eapply Prune_evolves in Hq; [|apply Hi|..].
  - apply purge_ok in Hq as (_ & _ & [_ Hl Hpr _] & _); [|apply Hi]. by apply evolves_tables; rewrite ?Hpr.
  - apply Retry_ok in Hq as (_ & stored & _ & _ & _ & ->). by apply evolves_tables.
  - destruct (ob_readOnly o) eqn:Hro; [by unfold RetryAllFailed in Hq; rewrite Hro in Hq|].
    destruct (RetryAllFailed_ok o Hro (inv_tables _ Hi)) as (db' & Heq & _ & Hl & Hp & _). rewrite Heq in Hq. simplify_eq.
    by apply (evolves_tables (ob_db o) db'); rewrite ?Hp.
  - unfold PutBackupRunPending in Hq. inv_ok. destruct v2 as [[]]. inv_ok. simplify_eq. by eapply putPending_tx_evolves.
  - unfold RecordBackupRunPendingAttempt in Hq. inv_ok. simplify_eq. by eapply recordAttempt_tx_evolves.
  - unfold RefuseBackupRunPending in Hq. inv_ok. simplify_eq. by eapply refuse_tx_evolves.
  - unfold EnqueueBackupRun in Hq. inv_ok. destruct v4 as [[]]. inv_ok. simplify_eq. by eapply enqueueBackupRun_tx_evolves.
  - unfold StageBackupRunAcceptedStatus in Hq. inv_ok. destruct v2 as [[]]. inv_ok. simplify_eq.
    eapply stageAccepted_tx_evolves; [apply Hin|done].
  - unfold StageBackupRunRefusedStatus in Hq. inv_ok. destruct v2 as [[]]. inv_ok. simplify_eq.
    eapply stageRefused_tx_evolves; [apply Hin|apply Hi|done].
  - unfold CompactBackupRunAccepted in Hq. repeat case_match; inv_ok; simplify_eq; try reflexivity.
    eapply compact_tx_evolves; [apply Hi|done].
  - unfold PublishUnadmittedBackupRunStatus in Hq. repeat case_match; simplify_eq.
    unfold no_round in Hq. simplify_eq. by eapply unadmitted_tx_evolves.
Qed.

Lemma steps_evolve o o' : db_inv (ob_db o) → rtc step o o' → evolves (ob_db o) (ob_db o') ∧ db_inv (ob_db o').
Proof.
  intros Hi Hr. induction Hr as [|o1 o2 o3 Hs _ IH]; [done|].
  destruct (IH (step_db_inv _ _ Hs Hi)). split; [|done]. etrans; [by apply step_evolves|done].
Qed.
End steps_evolve.
