(* ===== verification/SampleDigest.v ===== *)
(** * Sample digests

    Concrete stand-ins for the code outside the repository: keys, signatures
    and a digest given by a finite table, which does not collide when the
    table's values are distinct. *)

From Stdlib Require Import ZArith Lia Bool.
From stdpp Require Import base tactics decidable option list numbers strings.
From S2P Require Import Prelude Bytes Nostr.

Definition key_of (n : Z) : string := string_of_bytes (replicate 31 0 ++ [n]).
Definition sig_of : string := string_of_bytes (replicate 64 7).

Fixpoint digest (table : list (string * string)) (bytes : string) : string :=
  match table with
  | [] => ""
  | (s, id) :: table' => if String.eqb s bytes then id else digest table' bytes
  end.

(** A digest whose values are distinct does not collide. *)
Lemma digest_elem table bytes : digest table bytes ≠ "" → (bytes, digest table bytes) ∈ table.
Proof.
  induction table as [|[s id] table IH]; simpl; [done|].
  destruct (String.eqb_spec s bytes) as [->|]; [by left|]. intros. right. auto.
Qed.

Lemma NoDup_snd_inj {A B} (l : list (A * B)) x y z : NoDup l.*2 → (x, z) ∈ l → (y, z) ∈ l → x = y.
Proof.
  intros Hn [i Hi]%list_elem_of_lookup [j Hj]%list_elem_of_lookup.
  assert (i = j) as ->; [|congruence]. by eapply (NoDup_lookup _ _ _ z Hn); rewrite list_lookup_fmap, ?Hi, ?Hj.
Qed.

Lemma digest_collision_free table a b : NoDup table.*2 →
  String.length (digest table a) = 32%nat → digest table a = digest table b → a = b.
Proof.
  intros Hn Ha Hab. assert (digest table a ≠ "") as Hne by (intros E; by rewrite E in Ha).
  apply (NoDup_snd_inj table _ _ (digest table a) Hn); [by apply digest_elem|].
  rewrite Hab in Hne |- *. by apply digest_elem.
Qed.

(** Well-formedness of an event, as a test. *)
Definition wf_eventb (ev : Event) : bool :=
  Nat.eqb (String.length (ev_ID ev)) 32 && Nat.eqb (String.length (ev_PubKey ev)) 32 &&
  (0 <=? ev_Kind ev) && (ev_Kind ev <? 65536) && (min_i64 <=? ev_CreatedAt ev) && (ev_CreatedAt ev <=? max_i64) &&
  forallb (forallb (λ v, slen v <? two32)) (ev_Tags ev).

Lemma wf_eventb_spec ev : wf_eventb ev = true → wf_event ev.
Proof.
  unfold wf_eventb. intros Hb. bool_facts. rename select (forallb _ _ = true) into Ht. rewrite forallb_forall in Ht.
  split; [by apply Nat.eqb_eq..|done|done|]. intros t v Htv Hv. apply list_elem_of_In, Ht in Htv.
  rewrite forallb_forall in Htv. apply list_elem_of_In, Htv in Hv. by bool_facts.
Qed.
