(* ===== verification/Sample.v ===== *)
(** * A sample outbox

    A concrete instance of the code outside the repository (a digest that
    names the sample events, signatures of the right length) and a run of the
    outbox over it: one backup run requested, staged, delivered and accepted,
    a second one refused, and a package event.  The theorems about reachable
    states are evaluated on it. *)

From Stdlib Require Import ZArith Lia Bool.
From stdpp Require Import base tactics decidable option list numbers strings gmap relations.
From S2P Require Import Prelude Bytes Nostr EventID EventIDFacts SampleDigest Bolt OutboxData OutboxStore Outbox.
From S2P Require Import BackupRun BackupRunPending OutboxInv OpsInv LedgerOpsInv OutboxHistory.

(** ** Events *)

Definition service_key : string := key_of 201.
Definition actor_key : string := key_of 202.
Definition actor : string := hex actor_key.

Definition unsigned (n : Z) (pk : string) (at_ kind : Z) (tags : list (list string)) (content : string) : Event :=
  mkEvent (key_of n) pk at_ kind tags content sig_of.

Definition request (n : Z) (intent run : string) : Event :=
  unsigned n actor_key 1000 kindCPState
    [["d"; "backup-run:" +:+ run]; ["intent_id"; intent]; ["expiration"; "1600"]]%string "".

Definition run_state_event : Event :=
  unsigned 2 service_key 1020 kindCPState
    [["d"; "backup-run:r1"]; ["domain"; "backup"]; ["t"; "backup-run"]; ["legacy_kind"; "31996"]; ["deleted"; "false"]]%string "".

Definition status_event (n : Z) (at_ : Z) (d outcome intent : string) (request : Z) (content : string) : Event :=
  unsigned n service_key at_ kindStatus
    [["d"; d]; ["domain"; "intent"]; ["t"; "intent-status"]; ["status"; outcome]; ["intent_id"; intent];
     ["p"; actor]; ["e"; hex (key_of request)]]%string content.

Definition accepted_event : Event :=
  status_event 3 1030 (IntentStatusCoordinate actor "backup-run:r1") "accepted" "i1" 1 "accepted".
Definition refused_event : Event :=
  status_event 6 1040 (IntentPrivateStatusCoordinate actor "backup" "i2") "rejected" "i2" 5 "refused".
Definition success_event : Event :=
  status_event 7 1050 (IntentStatusCoordinate actor "backup-run:r1") "success" "i1" 1 "".
Definition unadmitted_event : Event :=
  status_event 8 1015 (IntentPrivateStatusCoordinate actor "backup" "i9") "rejected" "i9" 9 "unadmitted".
Definition package_event (n at_ : Z) : Event :=
  unsigned n service_key at_ kindCPState [["d"; "artifact:sbom-package:p"]]%string "".

Definition sample_events : list Event :=
  [request 1 "i1" "r1"; run_state_event; accepted_event; package_event 4 1005; request 5 "i2" "r2"; refused_event;
   success_event; unadmitted_event; package_event 10 1006].

(** ** The primitives *)

(** The serialization and the id of each event. *)
Definition sample_table : list (string * string) :=
  Eval vm_compute in ((λ ev, (Serialize ev, ev_ID ev)) <$> sample_events).

Definition sample_content (intent coordinate result reason run state execution : string) (has : bool) : StatusContent :=
  mkStatusContent intent coordinate result reason run state execution has.

#[export] Instance sample_prims : NostrPrims := {|
  sha256 := digest sample_table;
  verify_bip340 := λ _ _ sig, Nat.eqb (String.length sig) 64;
  ParsePubKey := λ _, true;
  SchnorrVerify := λ _ _ sig, Nat.eqb (String.length sig) 64;
  decode_unadmitted := λ s,
    if String.eqb s "unadmitted" then Some (sample_content "i9" "" "rejected" "access_denied" "" "" "" false) else None;
  decode_accepted := λ s,
    if String.eqb s "accepted"
    then Some (sample_content "i1" "backup-run:r1" "applied" "" "r1" (hex (key_of 2)) "queued" true) else None;
  decode_refused := λ s,
    if String.eqb s "refused" then Some (sample_content "i2" "" "rejected" "access_denied" "" "" "" false) else None;
|}.

#[export] Instance sample_laws : NostrLaws.
Proof.
  split; [|by intros]. intros a b. apply (digest_collision_free sample_table). apply (bool_decide_unpack _). by vm_compute.
Qed.

(** ** The run *)

(** The handle a call returns; a failed call returns none. *)
Definition handle {A} (r : result OutboxError (A * Outbox)) : option Outbox :=
  match r with Ok (_, o) => Some o | Err _ => None end.
Definition handle1 (r : result OutboxError Outbox) : option Outbox :=
  match r with Ok o => Some o | Err _ => None end.

Definition at_s (t : Z) : Z := t * second.
Definition relay_urls : list string := ["wss://a"; "wss://b"; "wss://c"]%string.
Definition target : string := "control-plane".

Definition request_record (n : Z) (intent run : string) : BackupRunPending :=
  mkPending intent ("backup-run:" +:+ run) (request n intent run) actor (hex service_key) (at_s 1010) (at_s 1600)
    zero_time 0 "" "" "" "" false.

Definition new_entry (ev : Event) : OutboxEntry :=
  mkEntry ev target "sample" "" zero_time "" 0 false no_policy "" zero_time ∅.

(** Two of three write relays accepted, which is the quorum. *)
Definition quorum_round : OutboxRound :=
  mkRound target 1 {["wss://a" := mkRelay true "" "" zero_time; "wss://b" := mkRelay true "" "" zero_time]} true
    (mkPolicy relay_urls 2) OutboxPublished "" (at_s 1025).
Definition failed_round : OutboxRound := mkRound target 1 ∅ false no_policy OutboxFailed "no relay" (at_s 1026).

Definition admission1 : BackupRunAdmission :=
  mkAdmission "i1" "backup-run:r1" (hex (key_of 1)) (hex (key_of 2)) target actor (hex service_key) true "" "" "" false.
Definition refused2 : BackupRunPending :=
  mkPending "i2" "backup-run:r2" (request 5 "i2" "r2") actor (hex service_key) (at_s 1010) (at_s 1600) zero_time 0
    "denied" BackupRunRefusedState "" "" false.

Definition never (n : nat) : bool := false.

(** The calls, in order. *)
Definition sample_calls : list (Outbox → option Outbox) :=
  [λ o, handle (PutBackupRunPending (request_record 1 "i1" "r1") o);
   λ o, handle (EnqueueBackupRun (at_s 1020) (new_entry run_state_event) "i1" "backup-run:r1" (hex (key_of 1)) actor o);
   λ o, handle (CommitPublisherRound (at_s 1025) (key_of 2) quorum_round o);
   λ o, handle (StageBackupRunAcceptedStatus (at_s 1030) admission1 accepted_event target o);
   λ o, handle (CommitPublisherRound (at_s 1031) (key_of 3) quorum_round o);
   λ o, handle (PutBackupRunPending (request_record 5 "i2" "r2") o);
   λ o, handle1 (RefuseBackupRunPending "i2" (hex (key_of 5)) "denied" o);
   λ o, handle (StageBackupRunRefusedStatus (at_s 1040) refused2 refused_event target o);
   λ o, handle (Enqueue (at_s 1045) (new_entry (package_event 4 1005)) o);
   λ o, handle (Enqueue (at_s 1046) (new_entry (package_event 10 1006)) o);
   λ o, handle (CommitRound (at_s 1047) (key_of 4) failed_round o)].

(** The handle after the first [n] calls. *)
Definition sample (n : nat) : option Outbox :=
  foldl (λ o f, o ≫= f) (Some initial) (take n sample_calls).
Definition sample_at (n : nat) : Outbox := default initial (sample n).

Lemma handle_Some {A} (r : result OutboxError (A * Outbox)) o' : handle r = Some o' → ∃ a, r = Ok (a, o').
Proof. destruct r as [[a o]|]; simpl; intros; simplify_eq. eauto. Qed.

Lemma handle1_Some (r : result OutboxError Outbox) o' : handle1 r = Some o' → r = Ok o'.
Proof. destruct r; simpl; intros; by simplify_eq. Qed.

Ltac decide_now := apply (bool_decide_unpack _); vm_compute; exact I.

Lemma instant_small t : bool_decide (0 ≤ t < two63) = true → instant_ok t.
Proof. apply bool_decide_eq_true. Qed.

(** The sample events have the sizes Go's types give them. *)
Lemma sample_event_wf ev : ev ∈ sample_events → wf_event ev.
Proof.
  intros Hev. apply wf_eventb_spec. assert (forallb wf_eventb sample_events = true) as Hall by by vm_compute.
  rewrite forallb_forall in Hall. by apply Hall, list_elem_of_In.
Qed.

Lemma sample_entry_input ev : ev ∈ sample_events → entry_input (new_entry ev).
Proof. intros. split; [by apply sample_event_wf|by vm_compute|by left]. Qed.

Lemma sample_status_input now ev : ev ∈ sample_events → instant_ok now → status_input now ev target.
Proof. intros. split; [by apply sample_event_wf|done|by vm_compute|by vm_compute]. Qed.

(** Each call is a step of the outbox; the staging call finds its request. *)
Lemma sample_request : has_request (ob_db (sample_at 1)) "i1" "backup-run:r1" (hex (key_of 1)).
Proof. exists (fresh_pending (request_record 1 "i1" "r1")). split_and!; by vm_compute. Qed.

Lemma sample_S n f : sample_calls !! n = Some f → sample (S n) = sample n ≫= f.
Proof. intros Hf. unfold sample. rewrite (take_S_r _ _ _ Hf), foldl_app. done. Qed.

Ltac instant_now := apply instant_small; vm_compute; reflexivity.

Lemma request1_input : pending_input (request_record 1 "i1" "r1").
Proof. split; [done..|by vm_compute]. Qed.

Lemma request5_input : pending_input (request_record 5 "i2" "r2").
Proof. split; [done..|by vm_compute]. Qed.

Lemma sample_call_step n f o o' :
  sample_calls !! n = Some f → o = sample_at n → f o = Some o' → step o o'.
Proof.
  intros Hf Ho Hs. destruct n as [|[|[|[|[|[|[|[|[|[|[|n]]]]]]]]]]]; simpl in Hf; try discriminate Hf; injection Hf as <-; cbv beta in Hs;
    (apply handle_Some in Hs as [a Hs] || apply handle1_Some in Hs); try destruct a as [??].
  - eapply step_PutBackupRunPending, Hs. apply request1_input.
  - eapply step_EnqueueBackupRun, Hs; [instant_now|apply sample_entry_input; decide_now|vm_compute; reflexivity|rewrite Ho; apply sample_request].
  - eapply step_CommitPublisherRound, Hs; instant_now.
  - eapply step_StageBackupRunAcceptedStatus, Hs. apply sample_status_input; [decide_now|instant_now].
  - eapply step_CommitPublisherRound, Hs; instant_now.
  - eapply step_PutBackupRunPending, Hs. apply request5_input.
  - exact (step_RefuseBackupRunPending o _ _ _ _ Hs).
  - eapply step_StageBackupRunRefusedStatus, Hs. apply sample_status_input; [decide_now|instant_now].
  - eapply step_Enqueue, Hs; [instant_now|apply sample_entry_input; decide_now].
  - eapply step_Enqueue, Hs; [instant_now|apply sample_entry_input; decide_now].
  - eapply step_CommitRound, Hs; instant_now.
Qed.

(** No call fails. *)
Lemma sample_runs : bool_decide (is_Some (sample 11)) = true.
Proof. vm_compute. reflexivity. Qed.

Lemma sample_prefix n m : (n ≤ m)%nat → is_Some (sample m) → is_Some (sample n).
Proof.
  induction 1 as [|m _ IH]; [done|]. intros Hs. apply IH. destruct (sample_calls !! m) as [f|] eqn:Hf.
  - rewrite (sample_S _ _ Hf) in Hs. destruct (sample m); [by eexists|by destruct Hs].
  - unfold sample in *. apply lookup_ge_None in Hf. by rewrite take_ge in Hs |- * by lia.
Qed.

Lemma sample_some n : (n ≤ 11)%nat → sample n = Some (sample_at n).
Proof.
  intros Hn. pose proof (proj1 (bool_decide_eq_true _) sample_runs) as Hs. apply (sample_prefix n) in Hs as [o Ho]; [|done].
  unfold sample_at. by rewrite Ho.
Qed.

Lemma sample_call_ok n f : (n < 11)%nat → sample_calls !! n = Some f → f (sample_at n) = Some (sample_at (S n)).
Proof.
  intros Hn Hf. pose proof (sample_some (S n) ltac:(lia)) as Hs. rewrite (sample_S _ _ Hf), (sample_some n) in Hs by lia. done.
Qed.

Lemma sample_step n : (n < 11)%nat → step (sample_at n) (sample_at (S n)).
Proof.
  intros Hn. destruct (lookup_lt_is_Some_2 sample_calls n) as [f Hf]; [simpl; lia|].
  apply (sample_call_step n f); [done..|]. by apply sample_call_ok.
Qed.

Lemma sample_steps n m : (n ≤ m ≤ 11)%nat → rtc step (sample_at n) (sample_at m).
Proof.
  intros [Hn Hm]. induction Hn as [|m Hn IH]; [done|]. eapply rtc_r; [apply IH; lia|]. by apply sample_step.
Qed.

Lemma sample_reachable n : (n ≤ 11)%nat → reachable (sample_at n).
Proof. intros. apply (sample_steps 0 n). lia. Qed.
