(* ===== verification/LedgerProps.v ===== *)
(** * The backup-run ledger: what it guarantees

    Theorems about every reachable state of the outbox: the file is
    consistent, promises are never taken back, a refused run is never
    admitted, and a run is executed only on two stored quorum proofs. *)

From Stdlib Require Import ZArith Lia Bool.
From stdpp Require Import base tactics decidable option list numbers strings gmap relations.
From S2P Require Import Prelude Bytes Nostr EventID EventIDFacts Bolt OutboxData OutboxStore Quorum Outbox.
From S2P Require Import BackupRun BackupRunPending OutboxInv OutboxRetention.
From S2P Require Import LedgerInv OpsInv LedgerOpsInv LedgerReads OutboxHistory SampleDigest Sample.

Section stored.
Context `{NostrPrims}.

(** A quorum proof of the event [idHex] on [target] is stored. *)
Definition quorum_stored (db : DB) (idHex target : string) : Prop :=
  ∃ id p, id_from_hex idHex = Some id ∧ proofs db !! id = Some (Row p) ∧ ev_ID (pr_Event p) = id ∧
    pr_Target p = target ∧ CheckID (pr_Event p) = true ∧ VerifySignature (pr_Event p) = true ∧ quorum p.

End stored.

Section ledger_props.
Context `{NostrLaws}.

(** C1: after any sequence of committed calls on a new file, with arguments as
    the callers give them ([step]: a new pending request is in its initial
    form, an admission is of the request on file for its intent), every row
    decodes and is filed under its event's id, each index bucket holds exactly
    the keys its rows induce, every stored proof is a valid quorum proof of
    the event it is filed under, and the admission and pending records agree
    with their key buckets, their proofs and the signed events the outbox
    holds. *)
Theorem reachable_consistent o : reachable o → db_inv (ob_db o).
Proof. apply reachable_db_inv. Qed.

(** C2: from a reachable state on, no committed call takes anything back:
    stored proofs stay, an admission keeps its identity, its deliveries and
    its status, a decided request keeps its decision, and no status-clock
    floor goes down. *)
Theorem history_monotone o o' : reachable o → rtc step o o' → evolves (ob_db o) (ob_db o').
Proof. intros Hr Hs. by apply steps_evolve; [apply reachable_db_inv|]. Qed.

(** A coordinate whose request is refused is closed to every call, whatever
    intent and request it names. *)
Lemma refused_coordinate_closed o i p now e i' h actor :
  db_inv (ob_db o) → lg_pending (db_ledger (ob_db o)) !! i = Some (Row p) → bp_State p = BackupRunRefusedState →
  ∃ err, EnqueueBackupRun now e i' (bp_Coordinate p) h actor o = Err err.
Proof.
  intros Hi Hp Hs. destruct (EnqueueBackupRun _ _ _ _ _ _ _) as [[[r b] o']|err] eqn:Hq; [exfalso|by eexists].
  destruct (li_pending _ (inv_ledger _ Hi) _ _ Hp) as (? & [= <-] & Ho).
  assert (lg_coords (db_ledger (ob_db o)) !! bp_Coordinate p = None) as Hc.
  { destruct (po_state _ _ _ Ho) as [Hx _ _|? Hx _ _ _ _|_ ? ? _]; [by rewrite Hx in Hs..|done]. }
  unfold EnqueueBackupRun in Hq. inv_ok. rename select (enqueueBackupRun_tx _ _ _ _ _ _ = _) into Ht.
  unfold enqueueBackupRun_tx in Ht. destruct (lg_intents _ !! i'); inv_ok; bool_facts.
  - rename select (bound_to _ (bp_Coordinate p) _ = true) into Hb. unfold bound_to in Hb. rewrite Hc in Hb.
    apply String.eqb_eq in Hb as <-. done.
  - rename select (pending_owner_ok _ _ _ _ = true) into Hown. unfold pending_owner_ok in Hown.
    rewrite (po_coord _ _ _ Ho), Hp in Hown. simpl in Hown. rewrite Hs in Hown. bool_facts. done.
Qed.

(** C3: a refusal is final: once a request is refused, no later sequence of
    steps admits its intent or its coordinate, where a step that admits a run
    names the intent's own retained request, as [StageRunAdmissionWithHistory]
    does; and, without that condition, every call of [EnqueueBackupRun] for the
    refused coordinate fails, whatever intent and request it names.
    [EnqueueBackupRun] checks the owner of the coordinate and not the intent's
    request, so the first part rests on that caller. *)
Theorem refusal_is_final o o' i p :
  reachable o → lg_pending (db_ledger (ob_db o)) !! i = Some (Row p) → bp_State p = BackupRunRefusedState →
  rtc step o o' →
  intents (ob_db o') !! i = None ∧ lg_coords (db_ledger (ob_db o')) !! bp_Coordinate p = None
  ∧ ∀ now e i' h actor, ∃ err, EnqueueBackupRun now e i' (bp_Coordinate p) h actor o' = Err err.
Proof.
  intros Hr Hp Hs Hst. destruct (steps_evolve _ _ (reachable_db_inv _ Hr) Hst) as [[_ _ Hreq _ _] Hi].
  destruct (Hreq _ _ Hp) as (p' & Hp' & Hle). destruct (li_pending _ (inv_ledger _ Hi) _ _ Hp') as (? & [= <-] & Ho).
  assert (bp_State p' = BackupRunRefusedState) as Hs' by (rewrite (pl_state _ _ Hle); [done|by rewrite Hs]).
  rewrite <-(pl_coord _ _ Hle). destruct (po_state _ _ _ Ho) as [Hx _ _|? Hx _ _ _ _|_ ? ? _]; [by rewrite Hx in Hs'..|].
  split_and!; [done..|]. intros now e i' h actor. by apply (refused_coordinate_closed o' i).
Qed.

Lemma proved_quorum db h target : db_inv db → proved db h target → quorum_stored db h target.
Proof.
  intros Hi (id & p & Hid & Hp & Ht). destruct (inv_proofs _ Hi _ _ Hp) as (? & [= <-] & Hok). exists id, p.
  destruct (ValidFor_facts _ _ _ (pk_valid _ _ Hok)) as (_ & _ & ? & ?).
  destruct (ValidFor_quorum _ _ _ (pk_valid _ _ Hok)) as [? _]. by split_and!; try apply Hok.
Qed.

(** C4: a run the executor is given, by [ListBackupRunAdmissionsReadyForExecution]
    on a reachable file, is a stored admission with a stored quorum proof of
    its state event and another of its accepted status, and its request is
    not refused. *)
Theorem execution_needs_two_quorums o after limit records next a :
  reachable o → ListBackupRunAdmissionsReadyForExecution after limit o = Ok (records, next) → a ∈ records →
  intents (ob_db o) !! ba_IntentID a = Some (Row a) ∧ ba_StatusOutcome a = "accepted" ∧
  quorum_stored (ob_db o) (ba_StateEventID a) (ba_Target a) ∧
  quorum_stored (ob_db o) (ba_StatusEventID a) (ba_StatusTarget a) ∧
  (∀ p, lg_pending (db_ledger (ob_db o)) !! ba_IntentID a = Some (Row p) → bp_State p ≠ BackupRunRefusedState).
Proof.
  intros Hr Hl Ha. pose proof (reachable_db_inv _ Hr) as Hi. rewrite list_ready_ok in Hl by done. simplify_eq.
  apply list_elem_of_filter in Ha as [Hready (k & _ & Hk)%elem_of_rows].
  destruct (li_intents _ (inv_ledger _ Hi) _ _ Hk) as (? & [= <-] & Ho). rewrite (ao_intent _ _ _ Ho).
  unfold ready_for_execution in Hready. apply Is_true_true in Hready. bool_facts.
  destruct (ao_status _ _ _ Ho) as [[_ Hf]|[_ Hst]]; [congruence|].
  split_and!; [done|apply Hst|by apply proved_quorum, Ho|by apply proved_quorum, Hst|].
  intros p Hp Hs. destruct (li_pending _ (inv_ledger _ Hi) _ _ Hp) as (? & [= <-] & Hop).
  destruct (po_state _ _ _ Hop) as [Hx _ _|? Hx _ _ _ _|_ Hn _ _]; [by rewrite Hx in Hs..|by rewrite Hk in Hn].
Qed.

(** C9: reading the runs ready for execution page by page, resuming each page
    at the key the one before returned, ends and returns every admission
    whose state and accepted status are both delivered, once each, whatever
    the page size asked for. *)
Theorem ready_runs_complete o limit : reachable o →
  collect_ready (S (size (intents (ob_db o)))) "" limit o =
    Ok (filter ready_for_execution (rows (intents (ob_db o)) (bucket_keys (intents (ob_db o))))).
Proof. intros Hr. by apply collect_ready_all, reachable_db_inv. Qed.

(** On a reachable file [GetBackupRunAdmission] never reports an
    inconsistent ledger or a missing proof: it returns the stored admission
    when coordinate and request agree, a conflict when they do not or when
    another intent owns the coordinate, and nothing otherwise. *)
Theorem GetBackupRunAdmission_total o i c h :
  reachable o → i ≠ "" → c ≠ "" → h ≠ "" → GetBackupRunAdmission i c h o = admission_answer (ob_db o) i c h.
Proof. intros Hr ???. by apply GetBackupRunAdmission_answer; [apply reachable_db_inv|..]. Qed.

(** On a reachable file [GetBackupRunPending] never reports an
    inconsistency: a delivered refusal has its proof, a staged one its signed
    event, and the answer is the stored request, a conflict, or nothing. *)
Theorem GetBackupRunPending_total o i c h :
  reachable o → i ≠ "" → c ≠ "" → h ≠ "" → GetBackupRunPending i c h o = pending_answer (ob_db o) i c h.
Proof. intros Hr ???. by apply GetBackupRunPending_answer; [apply reachable_db_inv|..]. Qed.

(** The signed state event of a run whose accepted status is not yet
    delivered is still held by the outbox, for the target it was staged on:
    neither retention nor a purge loses it. *)
Theorem staged_run_held o i a :
  reachable o → intents (ob_db o) !! i = Some (Row a) → ba_StatusDelivered a = false →
  ∃ ev e, run_state a ev ∧ Get (ev_ID ev) o = Ok (Some e) ∧ oe_Event e = ev ∧ oe_Target e = ba_Target a.
Proof.
  intros Hr Hi Hd. destruct (li_intents _ (inv_ledger _ (reachable_db_inv _ Hr)) _ _ Hi) as (? & [= <-] & Ho).
  destruct (ao_state _ _ _ Ho) as (ev & Hs & Hh). destruct (Hh Hd) as (e & He & ? & ?). exists ev, e.
  split; [done|]. unfold Get. by rewrite He.
Qed.
End ledger_props.

(** ** Witnesses on the sample run *)

Ltac sample_now := apply sample_reachable; lia.

Definition run1 : BackupRunAdmission :=
  mkAdmission "i1" "backup-run:r1" (hex (key_of 1)) (hex (key_of 2)) target actor (hex service_key) true
    (hex (key_of 3)) target "accepted" true.

Lemma reachable_consistent_witness : db_inv (ob_db (sample_at 11)).
Proof. apply reachable_consistent. sample_now. Defined.

Lemma history_monotone_witness : evolves (ob_db (sample_at 4)) (ob_db (sample_at 11)).
Proof. apply history_monotone; [sample_now|apply sample_steps; lia]. Defined.

Lemma refusal_is_final_witness :
  intents (ob_db (sample_at 11)) !! "i2" = None ∧ lg_coords (db_ledger (ob_db (sample_at 11))) !! "backup-run:r2" = None
  ∧ ∀ now e i' h actor, ∃ err, EnqueueBackupRun now e i' "backup-run:r2" h actor (sample_at 11) = Err err.
Proof.
  apply (refusal_is_final (sample_at 7) (sample_at 11) "i2" refused2); [sample_now| |reflexivity|apply sample_steps; lia].
  vm_compute. reflexivity.
Defined.

Lemma execution_needs_two_quorums_witness :
  quorum_stored (ob_db (sample_at 11)) (ba_StateEventID run1) (ba_Target run1) ∧
  quorum_stored (ob_db (sample_at 11)) (ba_StatusEventID run1) (ba_StatusTarget run1).
Proof.
  destruct (execution_needs_two_quorums (sample_at 11) "" 10 [run1] "" run1) as (_ & _ & H1 & H2 & _);
    [sample_now|vm_compute; reflexivity|by left|]. split; [exact H1|exact H2].
Defined.

Lemma ready_runs_complete_witness : collect_ready (S (size (intents (ob_db (sample_at 11))))) "" 1 (sample_at 11) = Ok [run1].
Proof. rewrite ready_runs_complete; [vm_compute; reflexivity|sample_now]. Defined.

Lemma GetBackupRunAdmission_total_witness :
  GetBackupRunAdmission "i1" "backup-run:r1" (hex (key_of 1)) (sample_at 11) = Ok (Some run1).
Proof. rewrite GetBackupRunAdmission_total; [vm_compute; reflexivity|sample_now|done..]. Defined.

Lemma GetBackupRunPending_total_witness :
  GetBackupRunPending "i2" "backup-run:r1" (hex (key_of 5)) (sample_at 11) = Err ErrLedgerConflict.
Proof. rewrite GetBackupRunPending_total; [vm_compute; reflexivity|sample_now|done..]. Defined.

Lemma staged_run_held_witness :
  ∃ ev e, run_state admission1 ev ∧ Get (ev_ID ev) (sample_at 3) = Ok (Some e) ∧ oe_Event e = ev ∧ oe_Target e = target.
Proof. apply (staged_run_held (sample_at 3) "i1" admission1); [sample_now|vm_compute; reflexivity|reflexivity]. Defined.
