(* ===== verification/OutboxProps.v ===== *)
(** * The publish outbox: what it guarantees

    Theorems about the operations of the outbox on every reachable file:
    rounds merge monotonically, proofs are minted only from a publisher's
    quorum, retention and purges remove exactly what they may, and the scans
    are exact. *)

From Stdlib Require Import ZArith Lia Bool.
From stdpp Require Import base tactics decidable option list numbers strings gmap relations sorting.
From S2P Require Import Prelude Bytes Nostr EventID EventIDFacts Bolt OutboxData OutboxStore Quorum Outbox.
From S2P Require Import BackupRun BackupRunPending OutboxInv OutboxRetention.
From S2P Require Import LedgerInv OpsInv LedgerOpsInv OutboxReads LedgerReads OutboxHistory SampleDigest Sample.

Section outbox_props.
Context `{NostrLaws}.

Lemma reachable_tables o : reachable o → tables_inv (db_tables (ob_db o)).
Proof. intros Hr. apply inv_tables, reachable_db_inv, Hr. Qed.

Lemma commitRound_ok now id round b o e o' : commitRound now id round b o = Ok (e, o') →
  ob_readOnly o = false ∧ commitRound_tx now id round b (ob_db o) = Ok (e, ob_db o').
Proof. unfold commitRound. intros. inv_ok. bool_facts. simplify_eq. split; [done|]. by destruct v0. Qed.

(** The ledger's delivery bookkeeping leaves the tables alone. *)
Lemma updateStatus_same_tables e db db' : updateBackupRunStatusDelivery e db = Ok db' → db_tables db' = db_tables db.
Proof.
  unfold updateBackupRunStatusDelivery, updateBackupRunRefusalDelivery. intros. repeat (case_match; inv_ok; subst; try done).
Qed.

Lemma updateAdmission_same_tables e db db' : updateBackupRunAdmissionDelivery e db = Ok db' → db_tables db' = db_tables db.
Proof. unfold updateBackupRunAdmissionDelivery. intros. repeat (case_match; inv_ok; subst; try done). Qed.

(** The rows a committed round leaves. *)
Lemma commitRound_entries now id round b db e db' : tables_inv (db_tables db) →
  commitRound_tx now id round b db = Ok (e, db') → entries db' = <[id := Row e]> (entries db).
Proof.
  intros Ht (stored & Hid & _ & _ & Hcase)%commitRound_tx_ok. destruct (ti_rows _ Ht _ _ Hid) as (? & [= <-] & Hok).
  assert (∀ e db db', recordPublisherProof e round (round_at now round) b db = Ok db' → entries db' = entries db) as Hp
    by (intros ??? [->|(_ & _ & _ & _ & p & _ & ->)]%recordPublisherProof_ok; done).
  destruct Hcase as [(_ & -> & db1 & H1%Hp & H2%updateStatus_same_tables)|
    (_ & db1 & db2 & db3 & Hw & H1%Hp & H2%updateAdmission_same_tables & H3%updateStatus_same_tables)].
  - unfold entries at 1. rewrite H2. change (entries db1 = <[id:=Row stored]> (entries db)). rewrite H1. symmetry. by apply insert_id.
  - apply round_writes_facts in Hw as (Hw & _). unfold entries at 1. rewrite H3, H2. by rewrite <-Hw, <-H1.
Qed.

(** A committed round changes only the row of its entry.  The signed
    event, the target and the enqueue time never change.  A settled entry is
    left as it is.  A pending one takes the larger round count, stays
    delivered once delivered, merges the relay outcomes, and settles with the
    round's time exactly when the round carries a terminal state. *)
Theorem CommitRound_merges now id round b o e o' :
  reachable o → commitRound now id round b o = Ok (e, o') →
  ∃ stored, entries (ob_db o) !! id = Some (Row stored) ∧ entries (ob_db o') = <[id := Row e]> (entries (ob_db o)) ∧
    oe_Event e = oe_Event stored ∧ oe_Target e = oe_Target stored ∧ oe_EnqueuedAt e = oe_EnqueuedAt stored ∧
    (oe_State stored ≠ OutboxPending → e = stored) ∧
    (oe_State stored = OutboxPending →
       oe_Rounds e = Z.max (oe_Rounds stored) (ro_Rounds round) ∧
       oe_Delivered e = oe_Delivered stored || ro_Delivered round ∧
       oe_Relays e = mergeRelayDeliveries (oe_Relays stored) (ro_Relays round) ∧
       ((ro_State round = "" ∨ ro_State round = OutboxPending) ∧ oe_State e = OutboxPending ∨
        (ro_State round = OutboxPublished ∨ ro_State round = OutboxFailed) ∧ oe_State e = ro_State round ∧
        oe_SettledAt e = round_at now round)).
Proof.
  intros Hr [_ Hc]%commitRound_ok. pose proof (commitRound_entries _ _ _ _ _ _ _ (reachable_tables _ Hr) Hc) as He.
  apply commitRound_tx_ok in Hc as (stored & Hid & _ & _ & Hcase). exists stored. split; [done|]. split; [done|].
  destruct Hcase as [(Hs & -> & _)|(Hs & db1 & _ & _ & Hw & _)]; [done|].
  destruct Hw as [Hst|Hst]; simpl; (split_and!; [done..|]); intros _; split_and!; try done; [by left|by right].
Qed.

(** C10: a round that does not come through the publisher never adds a proof
    and is refused for the events that need one; a publisher's round adds at
    most the proof of its own entry, only where none was stored, and that
    proof is a quorum of the round's own relay outcomes under the round's own
    policy. *)
Theorem proofs_need_publisher now id round b o e o' :
  reachable o → commitRound now id round b o = Ok (e, o') →
  proofs (ob_db o') = proofs (ob_db o) ∧ (b = false → isProofEligibleForRound (ob_db o) (oe_Event e) = false) ∨
  b = true ∧ ro_Delivered round = true ∧ ro_Target round = oe_Target e ∧ proofs (ob_db o) !! id = None ∧
  ∃ p, proofs (ob_db o') = <[id := Row p]> (proofs (ob_db o)) ∧ pr_Event p = oe_Event e ∧ pr_Target p = oe_Target e ∧
       pr_Policy p = ro_Policy round ∧ quorum p ∧
       pr_RelayOK p = relayOK_of (ro_Relays round) (dp_WriteRelays (ro_Policy round)).
Proof.
  intros Hr [_ Hc]%commitRound_ok. apply commitRound_tx_ok in Hc as (stored & Hid & Hb & Htgt & Hcase).
  destruct (ti_rows _ (reachable_tables _ Hr) _ _ Hid) as (? & [= <-] & Hok).
  assert (∃ db1 db2, proofs db1 = proofs (ob_db o) ∧ recordPublisherProof e round (round_at now round) b db1 = Ok db2 ∧
            proofs (ob_db o') = proofs db2 ∧ oe_Event e = oe_Event stored ∧ oe_Target e = oe_Target stored) as
    (db1 & db2 & Hp1 & H1 & Hp2 & Hev & Ht).
  { destruct Hcase as [(_ & -> & db1 & H1 & H2%updateStatus_same_tables)|
      (_ & db1 & db2 & db3 & Hw & H1 & H2%updateAdmission_same_tables & H3%updateStatus_same_tables)].
    - exists (ob_db o), db1. unfold proofs at 3. by rewrite H2.
    - apply round_writes_facts in Hw as (_ & Hw & _ & ? & ?). exists db1, db2. unfold proofs at 3. by rewrite H3, H2. }
  rewrite Hp2, Hev, Ht. apply recordPublisherProof_ok in H1 as [->|(-> & Hd & _ & Hno & p & Hcan & ->)]; [by left|right].
  rewrite Hev, (eo_id _ _ Hok), Hp1 in Hno. split_and!; [done|done|by apply Htgt|done|]. exists p.
  apply canonicalDeliveryProof_ok in Hcan as (-> & Hv & _). simpl in *. rewrite <-Hp1.
  split_and!; try done; [by rewrite Hev, (eo_id _ _ Hok)|]. by eapply ValidFor_quorum.
Qed.

(** Merging a round's relay outcomes into the stored ones: a relay has
    accepted exactly when either side says so, a permanent rejection stays
    until the relay accepts, and the latest counted dial failure is kept. *)
Theorem mergeRelayDeliveries_spec stored incoming url s i :
  stored !! url = Some s → incoming !! url = Some i →
  ∃ r, mergeRelayDeliveries stored incoming !! url = Some r ∧
    rd_Accepted r = rd_Accepted s || rd_Accepted i ∧
    (rd_Accepted s = true → rd_Rejected r = "" ∧ rd_LastError r = "") ∧
    (rd_Accepted r = false → rd_Rejected s ≠ "" → rd_Rejected r = rd_Rejected s) ∧
    rd_SeenDialFailure r = Z.max (rd_SeenDialFailure s) (rd_SeenDialFailure i).
Proof.
  intros Hs Hi. exists (merge_relay s i). split; [unfold mergeRelayDeliveries; by rewrite lookup_union_with, Hs, Hi|].
  unfold merge_relay, time_after.
  assert ((if rd_SeenDialFailure i <? rd_SeenDialFailure s then rd_SeenDialFailure s else rd_SeenDialFailure i) =
          Z.max (rd_SeenDialFailure s) (rd_SeenDialFailure i)) as -> by (case_match; bool_facts; lia).
  destruct (rd_Accepted s) eqn:Ea; simpl; [done|]. destruct (String.eqb_spec (rd_Rejected s) "") as [->|Hne]; simpl; [done|].
  destruct (rd_Accepted i); simpl; [done|]. by split_and!.
Qed.

(** Outcomes that already cover [i] absorb it. *)
Lemma merge_relay_fix r i :
  rd_SeenDialFailure i ≤ rd_SeenDialFailure r → (rd_Accepted r = true → rd_Rejected r = "" ∧ rd_LastError r = "") →
  (rd_Accepted r = false → rd_Accepted i = false ∧ rd_LastError r = rd_LastError i ∧ (rd_Rejected r = "" → rd_Rejected i = "")) →
  merge_relay r i = r.
Proof.
  destruct r as [acc rej err seen]. intros Hle Hacc Hrej. unfold merge_relay, time_after. simpl in *.
  assert ((if rd_SeenDialFailure i <? seen then seen else rd_SeenDialFailure i) = seen) as -> by (case_match; bool_facts; lia).
  destruct acc; [by destruct (Hacc eq_refl) as [-> ->]|]. destruct (Hrej eq_refl) as (-> & -> & Hr).
  destruct (String.eqb_spec rej "") as [->|]; simpl; [by rewrite Hr|done].
Qed.

(** Committing the same relay outcomes twice changes nothing more: a
    round replayed after a crash leaves the relays as one commit did. *)
Theorem merge_replay stored incoming :
  (∀ url r, incoming !! url = Some r → rd_Accepted r = true → rd_Rejected r = "" ∧ rd_LastError r = "") →
  mergeRelayDeliveries (mergeRelayDeliveries stored incoming) incoming = mergeRelayDeliveries stored incoming.
Proof.
  intros Hin. unfold mergeRelayDeliveries. apply map_eq. intros url. rewrite !lookup_union_with.
  destruct (incoming !! url) as [i|] eqn:Ei; [|by destruct (stored !! url)]. specialize (Hin url i Ei).
  destruct (stored !! url) as [s|]; simpl; f_equal; apply merge_relay_fix; [..|lia|done|naive_solver];
    unfold merge_relay, time_after; repeat case_match; simpl in *; bool_facts; try lia; try done.
  all: intros Hacc; first [congruence|split_and!; [done..|]; intros E].
  all: rename select (String.eqb _ _ = false) into Hne; by rewrite E in Hne.
Qed.

(** [Enqueue] either finds the event already held and changes nothing, or
    files the entry, pending, under its event's id and leaves every other row
    alone; enqueueing the same entry again then changes nothing. *)
Theorem Enqueue_once now e o b o' :
  Enqueue now e o = Ok (b, o') →
  (b = false ∧ o' = o ∧ is_Some (entries (ob_db o) !! ev_ID (oe_Event e)) ∨
   b = true ∧ entries (ob_db o) !! ev_ID (oe_Event e) = None ∧
   entries (ob_db o') = <[ev_ID (oe_Event e) := Row (fresh_entry e (enqueue_at now e))]> (entries (ob_db o))) ∧
  ∀ now', Enqueue now' e o' = Ok (false, o').
Proof.
  unfold Enqueue. intros Hq. apply bind_ok in Hq as ([] & Hreq%require_ok & Hq). destruct Hreq as [Hreq _]. rewrite Hreq. simpl.
  pose proof Hq as (Hro & Hnul & Hz & db' & Htx & ->)%enqueue_ok. apply String.eqb_neq in Hz.
  assert (∀ now' o1, ob_readOnly o1 = false → is_Some (entries (ob_db o1) !! ev_ID (oe_Event e)) → enqueue now' e o1 = Ok (false, o1)) as Hagain.
  { intros now' o1 Hro1 [r Hr]. unfold enqueue, enqueue_tx. rewrite Hro1, Hnul, Hz. simpl. rewrite Hr. simpl. by destruct o1. }
  unfold enqueue_tx in Htx. simpl in Htx. destruct (entries (ob_db o) !! ev_ID (oe_Event e)) as [r|] eqn:E; inv_ok; simplify_eq.
  - replace (set_db o (ob_db o)) with o by (by destruct o). split; [left; by eauto|].
    intros now'. apply Hagain; [done|by rewrite E].
  - rename select (recordBackupRunStatusTimestamp _ _ = _) into Hc. apply recordStatus_clocked in Hc as [c ->].
    set (db1 := put_coordinate _ _). assert (entries db1 = <[ev_ID (oe_Event e) := Row (fresh_entry e (enqueue_at now e))]> (entries (ob_db o))) as He
      by (subst db1; by destruct (outboxCoordinateKey _ _)).
    split; [right; by split_and!|]. intros now'. apply Hagain; [done|]. simpl. rewrite He, lookup_insert_eq. by eexists.
Qed.

(** [ListPending] returns the first [limit] of exactly the pending entries
    of the target that lie strictly after the cursor, oldest first and by id
    among equals, so that resuming at the last entry read misses nothing and
    repeats nothing. *)
Theorem ListPending_exact target after limit o :
  reachable o → contains_nul target = false → (∀ c, after = Some c → instant_ok (cu_EnqueuedAt c)) →
  ∃ full, ListPending target after limit o = Ok (take (effective_limit limit) full) ∧
    StronglySorted enqueued_before full ∧
    (∀ e, e ∈ full ↔ (∃ id, entries (ob_db o) !! id = Some (Row e)) ∧ oe_State e = OutboxPending ∧
                     oe_Target e = target ∧ after_cursor after e).
Proof. intros Hr Hn Hc. by apply (ListPending_ok (ob_db o) (reachable_tables _ Hr)). Qed.

(** [LatestByCoordinate] never fails on a reachable file: it returns the
    stored package event of the coordinate that replaces all the others there
    (newest created_at, then lowest id), or none when none is stored. *)
Theorem LatestByCoordinate_newest target kind author d o :
  reachable o → slen target < two32 → 0 ≤ kind < 65536 → String.length author = 32%nat → slen d < two32 →
  ∃ r, LatestByCoordinate target kind author d o = Ok r ∧
    match r with
    | None => ∀ id e, entries (ob_db o) !! id = Some (Row e) → ¬ on_coordinate target kind author d e
    | Some e => (∃ id, entries (ob_db o) !! id = Some (Row e)) ∧ on_coordinate target kind author d e ∧
        ∀ id' e', entries (ob_db o) !! id' = Some (Row e') → on_coordinate target kind author d e' → replaces e e'
    end.
Proof. intros Hr ????. by apply (LatestByCoordinate_ok (ob_db o) (reachable_tables _ Hr)). Qed.

(** Without an evidence hold, [Prune] on a reachable writable file returns
    the number of entries it removed, and these are exactly the settled
    entries older than the cutoff of their state that the backup-run ledger
    does not pin; proofs and ledger are untouched. *)
Theorem Prune_exact hold pf pb fb o :
  reachable o → ob_readOnly o = false → instant_ok pb → instant_ok fb → (∀ n, hold n = false) →
  ∃ n rm o', Prune hold pf pb fb o = Ok (n, o') ∧ n = Z.of_nat (size rm) ∧ removes rm (ob_db o) (ob_db o') ∧
    (∀ id, id ∈ rm ↔ ∃ e, entries (ob_db o) !! id = Some (Row e) ∧
                          expired [(OutboxPublished, pb); (OutboxFailed, fb)] e ∧
                          backupRunAdmissionUnresolved id (ob_db o) = Ok false).
Proof.
  intros Hr Hro Hpb Hfb Hh. pose proof (reachable_db_inv _ Hr) as Hi.
  destruct (Prune_total hold pf pb fb o Hro (inv_tables _ Hi) (inv_ledger _ Hi)) as [[n o'] Hp]. exists n.
  rewrite Hp. unfold Prune in Hp. rewrite !Hh, Hro in Hp. simpl in Hp. inv_ok. simplify_eq. destruct v as [n' db'].
  set (states := if pf then _ else _) in *.
  assert (∀ e, expired states e ↔ expired [(OutboxPublished, pb); (OutboxFailed, fb)] e) as Hexp.
  { intros e. unfold expired, states. destruct pf; [done|]. split; intros (b & Hb & ?); exists b; (split; [|done]); rewrite !elem_of_cons in *; tauto. }
  apply prune_states_ok in Hok as (rm & Hrm & -> & H1 & H2); [|apply Hi|].
  - exists rm, (set_db o db'). split; [done|]. split; [simpl; lia|]. split; [done|]. intros id. split.
    + intros (e & ? & ?%Hexp & ?)%H1. eauto.
    + intros (e & He & Hx%Hexp & Hu). destruct (H2 Hh id e He Hx); [done|congruence].
  - intros st b Hst. unfold states in Hst. destruct pf; repeat (apply elem_of_cons in Hst as [[= -> ->]|Hst]; [by auto|]);
      by apply not_elem_of_nil in Hst.
Qed.

(** [PurgeEvents] is all or nothing: on a reachable writable file it
    succeeds exactly when no matching event is pinned by the ledger or holds
    a delivery proof, and then removes exactly the matching events and
    returns their ids in id order. *)
Theorem PurgeEvents_all_or_nothing matches o :
  reachable o → ob_readOnly o = false →
  (∀ id e, entries (ob_db o) !! id = Some (Row e) → matches (oe_Event e) = true →
     backupRunAdmissionUnresolved id (ob_db o) = Ok false ∧ proofs (ob_db o) !! id = None) ↔
  ∃ ids o', PurgeEvents matches o = Ok (ids, o') ∧ removes (list_to_set ids) (ob_db o) (ob_db o') ∧
    ids `sublist_of` bucket_keys (entries (ob_db o)) ∧
    (∀ id, id ∈ ids ↔ ∃ e, entries (ob_db o) !! id = Some (Row e) ∧ matches (oe_Event e) = true).
Proof.
  intros Hr Hro. pose proof (reachable_tables _ Hr) as Ht. split.
  - intros Hm. destruct (PurgeEvents_total matches o Hro Ht Hm) as [[ids o'] Hp]. exists ids, o'.
    apply purge_ok in Hp as Hok; [|done]. destruct Hok as (_ & ? & ? & ? & _). done.
  - intros (ids & o' & Hp & _). apply purge_ok in Hp as (_ & _ & _ & Hids & Hall); [|done].
    intros id e He Hm. apply Hall, Hids. eauto.
Qed.

(** [RetryAllFailed] on a reachable writable file puts every failed entry
    back to pending with a fresh attempt budget, keeps its event, target and
    place in the queue, touches no other row, and returns how many it moved;
    no failed entry is left. *)
Theorem RetryAllFailed_exact o :
  reachable o → ob_readOnly o = false →
  ∃ o', RetryAllFailed o = Ok ((Counts o).2, o') ∧
    (∀ id e, entries (ob_db o) !! id = Some (Row e) →
       entries (ob_db o') !! id = Some (Row (if String.eqb (oe_State e) OutboxFailed then reset_entry e else e))) ∧
    tb_failed (db_tables (ob_db o')) = ∅.
Proof.
  intros Hr Hro. pose proof (reachable_tables _ Hr) as Ht. destruct (RetryAllFailed_ok o Hro Ht) as (db' & Heq & Ht' & _ & _ & He).
  exists (set_db o db'). split; [done|]. assert (∀ id e, entries (ob_db o) !! id = Some (Row e) → entries db' !! id =
    Some (Row (if String.eqb (oe_State e) OutboxFailed then reset_entry e else e))) as Hrow.
  { intros id e Hid. rewrite He, Hid. simpl. destruct (String.eqb_spec (oe_State e) OutboxFailed) as [Hf|]; [|by rewrite andb_false_r].
    rewrite bool_decide_eq_true_2; [done|]. apply elem_of_index_keys, (ti_failed _ Ht). right. exists id, e. split; [done|].
    unfold settled_index. by rewrite Hf. }
  split; [done|]. apply set_eq. intros k. split; [|set_solver]. intros [?|(id & e & Hid & Hk)]%(ti_failed _ Ht'); [set_solver|].
  exfalso. change (tb_entries (db_tables db')) with (entries db') in Hid. rewrite He in Hid.
  destruct (entries (ob_db o) !! id) as [r|] eqn:E; [|done]. destruct (ti_rows _ Ht _ _ E) as (e0 & -> & _).
  rewrite <-E, <-He in Hid. rewrite (Hrow _ _ E) in Hid. simplify_eq. unfold settled_index in Hk.
  destruct (String.eqb_spec (oe_State e0) OutboxFailed) as [Hf|Hf]; [done|]. by apply String.eqb_neq in Hf; rewrite Hf in Hk.
Qed.
End outbox_props.

(** ** Witnesses on the sample run *)

(** The call at [n] of the sample run, with what it returned. *)
Ltac sample_call n e He :=
  let Hc := fresh in pose proof (sample_call_ok n _ ltac:(lia) eq_refl) as Hc; cbv beta in Hc; apply handle_Some in Hc as [e He].

Lemma CommitRound_merges_witness : ∃ stored e, entries (ob_db (sample_at 10)) !! key_of 4 = Some (Row stored) ∧
  oe_Event e = oe_Event stored ∧ entries (ob_db (sample_at 11)) = <[key_of 4 := Row e]> (entries (ob_db (sample_at 10))).
Proof.
  sample_call 10%nat e He. unfold CommitRound in He.
  destruct (CommitRound_merges (at_s 1047) (key_of 4) failed_round false (sample_at 10) e (sample_at 11))
    as (stored & H1 & H2 & H3 & _); [apply sample_reachable; lia|exact He|].
  exists stored, e. exact (conj H1 (conj H3 H2)).
Defined.

Lemma proofs_need_publisher_witness : ∃ p, proofs (ob_db (sample_at 3)) = <[key_of 2 := Row p]> (proofs (ob_db (sample_at 2))) ∧ quorum p.
Proof.
  sample_call 2%nat e He. unfold CommitPublisherRound in He.
  destruct (proofs_need_publisher (at_s 1025) (key_of 2) quorum_round true (sample_at 2) e (sample_at 3))
    as [[H1 _]|(_ & _ & _ & H1 & p & H2 & _ & _ & _ & H3 & _)]; [apply sample_reachable; lia|exact He| |exact (ex_intro _ p (conj H2 H3))].
  exfalso. apply (f_equal size) in H1. revert H1. vm_compute. discriminate.
Defined.

Lemma mergeRelayDeliveries_spec_witness :
  ∃ r, mergeRelayDeliveries {["wss://a" := mkRelay false "blocked" "" 5]} {["wss://a" := mkRelay false "" "timeout" 3]} !! "wss://a" = Some r ∧
    rd_Rejected r = "blocked" ∧ rd_SeenDialFailure r = 5.
Proof.
  destruct (mergeRelayDeliveries_spec {["wss://a" := mkRelay false "blocked" "" 5]} {["wss://a" := mkRelay false "" "timeout" 3]}
    "wss://a" (mkRelay false "blocked" "" 5) (mkRelay false "" "timeout" 3)) as (r & H1 & H2 & _ & H3 & H4); [reflexivity..|].
  exists r. split; [exact H1|]. split; [apply H3; [exact H2|done]|exact H4].
Defined.

Lemma merge_replay_witness :
  mergeRelayDeliveries (mergeRelayDeliveries {["wss://a" := mkRelay false "blocked" "" 5]} (ro_Relays quorum_round)) (ro_Relays quorum_round) =
  mergeRelayDeliveries {["wss://a" := mkRelay false "blocked" "" 5]} (ro_Relays quorum_round).
Proof.
  apply merge_replay. intros url r Hr Ha. simpl in Hr.
  apply lookup_insert_Some in Hr as [[_ <-]|[_ [_ <-]%lookup_singleton_Some]]; split; reflexivity.
Defined.

Lemma Enqueue_once_witness : Enqueue 0 (new_entry (package_event 10 1006)) (sample_at 10) = Ok (false, sample_at 10).
Proof.
  sample_call 9%nat b He. exact (proj2 (Enqueue_once (at_s 1046) (new_entry (package_event 10 1006)) (sample_at 9) b (sample_at 10) He) 0).
Defined.

Lemma ListPending_exact_witness : ∃ full, ListPending target (Some (mkCursor (at_s 1040) (key_of 6))) 1 (sample_at 11) = Ok (take 1 full) ∧
  StronglySorted enqueued_before full.
Proof.
  destruct (ListPending_exact target (Some (mkCursor (at_s 1040) (key_of 6))) 1 (sample_at 11)) as (full & H1 & H2 & _);
    [apply sample_reachable; lia|reflexivity|intros c [= <-]; instant_now|]. exists full. exact (conj H1 H2).
Defined.

Lemma LatestByCoordinate_newest_witness :
  ∃ r, LatestByCoordinate target kindCPState service_key "artifact:sbom-package:p" (sample_at 11) = Ok r ∧
    match r with Some e => on_coordinate target kindCPState service_key "artifact:sbom-package:p" e | None => False end.
Proof.
  destruct (LatestByCoordinate_newest target kindCPState service_key "artifact:sbom-package:p" (sample_at 11)) as (r & H1 & H2);
    [apply sample_reachable; lia|vm_compute; reflexivity|split; [done|vm_compute; reflexivity]|reflexivity|vm_compute; reflexivity|].
  exists r. split; [exact H1|]. destruct r as [e|]; [apply H2|]. vm_compute in H1. discriminate H1.
Defined.

Lemma Prune_exact_witness : ∃ n rm o', Prune never true (at_s 2000) (at_s 2000) (sample_at 11) = Ok (n, o') ∧ n = Z.of_nat (size rm) ∧
  removes rm (ob_db (sample_at 11)) (ob_db o').
Proof.
  destruct (Prune_exact never true (at_s 2000) (at_s 2000) (sample_at 11)) as (n & rm & o' & H1 & H2 & H3 & _);
    [apply sample_reachable; lia|vm_compute; reflexivity|instant_now|instant_now|reflexivity|].
  exists n, rm, o'. exact (conj H1 (conj H2 H3)).
Defined.

Definition is_package (ev : Event) : bool := tag_is ev "d" "artifact:sbom-package:p".

Lemma PurgeEvents_all_or_nothing_witness :
  (∀ id e, entries (ob_db (sample_at 10)) !! id = Some (Row e) → is_package (oe_Event e) = true →
     backupRunAdmissionUnresolved id (ob_db (sample_at 10)) = Ok false ∧ proofs (ob_db (sample_at 10)) !! id = None) ↔
  ∃ ids o', PurgeEvents is_package (sample_at 10) = Ok (ids, o') ∧ removes (list_to_set ids) (ob_db (sample_at 10)) (ob_db o') ∧
    ids `sublist_of` bucket_keys (entries (ob_db (sample_at 10))) ∧
    (∀ id, id ∈ ids ↔ ∃ e, entries (ob_db (sample_at 10)) !! id = Some (Row e) ∧ is_package (oe_Event e) = true).
Proof. apply PurgeEvents_all_or_nothing; [apply sample_reachable; lia|vm_compute; reflexivity]. Defined.

Lemma RetryAllFailed_exact_witness : ∃ o', RetryAllFailed (sample_at 11) = Ok (1, o') ∧ tb_failed (db_tables (ob_db o')) = ∅.
Proof.
  destruct (RetryAllFailed_exact (sample_at 11)) as (o' & H1 & _ & H2); [apply sample_reachable; lia|vm_compute; reflexivity|].
  exists o'. split; [|exact H2]. rewrite H1. vm_compute. reflexivity.
Defined.
