(* ===== verification/OutboxOpen.v ===== *)
(** * Opening an outbox

    [openOutboxDB] upgrades a file in one transaction: it indexes the pending
    requests, the status clock and the package coordinates of a file that
    lacks them.  A new file opens as the empty one, a current file opens
    unchanged, and a file whose indexes were dropped gets the same ones
    back. *)

From Stdlib Require Import ZArith Lia Bool.
From stdpp Require Import base tactics decidable option list numbers strings gmap relations.
From S2P Require Import Prelude Bytes Nostr EventID EventIDFacts Bolt OutboxData OutboxStore Outbox.
From S2P Require Import BackupRun BackupRunPending OutboxInv.
From S2P Require Import LedgerInv OpsInv LedgerOpsInv OutboxHistory SampleDigest Sample.

(** A file with its buckets created and nothing in them. *)
Definition blank_db : DB := mkDB (mkTables ∅ ∅ ∅ ∅ ∅ ∅) (mkLedger ∅ ∅ ∅ ∅ ∅ ∅ ∅ ∅ ∅ ∅).

(** A file without the package index and the request indexes. *)
Definition drop_indexes (db : DB) : DB :=
  upd_ledger (λ l, set_due ∅ (set_refusals ∅ l)) (upd_tables (set_coordinates ∅) db).

(** A staged refusal is compacted by the upgrade. *)
Definition upgraded (p : BackupRunPending) : BackupRunPending :=
  if String.eqb (bp_State p) BackupRunRefusedState && negb (String.eqb (bp_StatusEventID p) "")
  then compactBackupRunPending p else p.

Section open.
Context `{NostrPrims}.

(** ** The package index *)

Lemma index_coordinates_ok m keys : (∀ k r, m !! k = Some r → ∃ e, r = Row e) → ∀ db,
  ∃ X, index_entries (λ e db, Ok (put_coordinate (outboxCoordinateKey (oe_Target e) (oe_Event e)) db)) m keys db =
         Ok (upd_tables (set_coordinates X) db) ∧
    ∀ k, k ∈ X ↔ k ∈ tb_coordinates (db_tables db) ∨
      ∃ id e, id ∈ keys ∧ m !! id = Some (Row e) ∧ outboxCoordinateKey (oe_Target e) (oe_Event e) = Some k.
Proof.
  intros Hm. induction keys as [|id keys IH]; intros db; simpl.
  { exists (tb_coordinates (db_tables db)). split; [by destruct db as [[] ?]|]. intros k. split; [by left|].
    intros [?|(? & ? & ?%not_elem_of_nil & _)]; done. }
  destruct (m !! id) as [r|] eqn:E.
  2:{ destruct (IH db) as (X & -> & HX). exists X. split; [done|]. intros k. rewrite HX. f_equiv.
      split; intros (i & e & Hi & He); exists i, e; (split; [|done]); [by right|].
      apply elem_of_cons in Hi as [->|?]; [|done]. by rewrite E in He; destruct He. }
  destruct (Hm _ _ E) as [e ->]. simpl. destruct (IH (put_coordinate (outboxCoordinateKey (oe_Target e) (oe_Event e)) db)) as (X & -> & HX).
  exists X. split; [by destruct (outboxCoordinateKey _ _)|]. intros k. rewrite HX.
  assert (k ∈ tb_coordinates (db_tables (put_coordinate (outboxCoordinateKey (oe_Target e) (oe_Event e)) db)) ↔
          k ∈ tb_coordinates (db_tables db) ∨ outboxCoordinateKey (oe_Target e) (oe_Event e) = Some k) as ->.
  { destruct (outboxCoordinateKey _ _) as [k'|]; simpl; [|naive_solver].
    rewrite elem_of_union, elem_of_singleton. naive_solver. }
  split.
  - intros [[?|?]|(i & e' & ? & ?)]; [by left|right; exists id, e; split; [by left|done]|right; exists i, e'; split; [by right|done]].
  - intros [?|(i & e' & [->|?]%elem_of_cons & He' & Hk)]; [by left; left| |by right; eauto].
    rewrite E in He'. simplify_eq. by left; right.
Qed.

(** ** The request indexes *)

Definition states_known (m : gmap string (row BackupRunPending)) : Prop :=
  ∀ i r, m !! i = Some r → ∃ p, r = Row p ∧ bp_IntentID p = i ∧
    (bp_State p = BackupRunPendingState ∨ bp_State p = BackupRunAcceptedState ∨ bp_State p = BackupRunRefusedState).

(** The effect of one row on the ledger. *)
Definition index_row (i : string) (p : BackupRunPending) (l : Ledger) : Ledger :=
  set_due (if String.eqb (bp_State p) BackupRunPendingState then {[backupRunDueKey p]} ∪ lg_due l else lg_due l)
    (set_refusals (if String.eqb (bp_State p) BackupRunRefusedState && String.eqb (bp_StatusEventID p) ""
                   then {[i]} ∪ lg_refusals l else lg_refusals l)
      (if String.eqb (bp_State p) BackupRunRefusedState && negb (String.eqb (bp_StatusEventID p) "")
       then set_lpending (<[i := Row (compactBackupRunPending p)]> (lg_pending l)) l else l)).

Lemma index_pending_row_ok i p db : bp_IntentID p = i →
  bp_State p = BackupRunPendingState ∨ bp_State p = BackupRunAcceptedState ∨ bp_State p = BackupRunRefusedState →
  index_pending_row i (Row p) db = Ok (upd_ledger (index_row i p) db).
Proof.
  intros Hi Hs. unfold index_pending_row, index_row. simpl. rewrite Hi, String.eqb_refl. simpl. destruct db as [t []].
  destruct Hs as [-> |[-> | ->]]; simpl; [done..|]. by destruct (String.eqb (bp_StatusEventID p) ""); simpl; rewrite ?Hi.
Qed.

(** The decoded rows of a bucket, in key order. *)
Definition decoded (m : gmap string (row BackupRunPending)) (keys : list string) : list (string * BackupRunPending) :=
  omap (λ i, match m !! i with Some (Row p) => Some (i, p) | _ => None end) keys.

Definition index_all (l : Ledger) (rs : list (string * BackupRunPending)) : Ledger :=
  foldl (λ l r, index_row r.1 r.2 l) l rs.

Lemma elem_of_decoded m keys i p : (i, p) ∈ decoded m keys ↔ i ∈ keys ∧ m !! i = Some (Row p).
Proof.
  unfold decoded. rewrite list_elem_of_omap. split.
  - intros (j & Hj & E). destruct (m !! j) as [[q|]|] eqn:Eq; simplify_eq. done.
  - intros [Hi Hp]. exists i. split; [done|]. by rewrite Hp.
Qed.

Lemma index_pending_rows_ok m keys : states_known m → ∀ db,
  index_pending_rows m keys db = Ok (upd_ledger (λ l, index_all l (decoded m keys)) db).
Proof.
  intros Hm. induction keys as [|i keys IH]; intros db; simpl; [by destruct db|]. unfold decoded. simpl.
  destruct (m !! i) as [r|] eqn:E; [|apply IH]. destruct (Hm _ _ E) as (p & -> & Hi & Hs).
  rewrite index_pending_row_ok by done. simpl. by rewrite IH.
Qed.

Lemma index_row_due i p l k :
  k ∈ lg_due (index_row i p l) ↔ k ∈ lg_due l ∨ bp_State p = BackupRunPendingState ∧ k = backupRunDueKey p.
Proof. unfold index_row. simpl. destruct (String.eqb_spec (bp_State p) BackupRunPendingState); set_solver. Qed.

Lemma index_row_refusals i p l k :
  k ∈ lg_refusals (index_row i p l) ↔
  k ∈ lg_refusals l ∨ k = i ∧ bp_State p = BackupRunRefusedState ∧ bp_StatusEventID p = "".
Proof.
  unfold index_row. simpl. destruct (String.eqb_spec (bp_State p) BackupRunRefusedState),
    (String.eqb_spec (bp_StatusEventID p) ""); simpl; set_solver.
Qed.

Lemma index_all_due rs : ∀ l k, k ∈ lg_due (index_all l rs) ↔
  k ∈ lg_due l ∨ ∃ i p, (i, p) ∈ rs ∧ bp_State p = BackupRunPendingState ∧ k = backupRunDueKey p.
Proof.
  unfold index_all. induction rs as [|[i p] rs IH]; intros l k; simpl.
  - split; [by left|]. intros [?|(? & ? & ?%not_elem_of_nil & _)]; done.
  - rewrite IH, index_row_due. setoid_rewrite elem_of_cons. naive_solver.
Qed.

Lemma index_all_refusals rs : ∀ l k, k ∈ lg_refusals (index_all l rs) ↔
  k ∈ lg_refusals l ∨ ∃ p, (k, p) ∈ rs ∧ bp_State p = BackupRunRefusedState ∧ bp_StatusEventID p = "".
Proof.
  unfold index_all. induction rs as [|[i p] rs IH]; intros l k; simpl.
  - split; [by left|]. intros [?|(? & ?%not_elem_of_nil & _)]; done.
  - rewrite IH, index_row_refusals. setoid_rewrite elem_of_cons. naive_solver.
Qed.

(** Nothing but the request buckets changes. *)
Lemma index_all_frame rs : ∀ l,
  lg_intents (index_all l rs) = lg_intents l ∧ lg_coords (index_all l rs) = lg_coords l ∧
  lg_events (index_all l rs) = lg_events l ∧ lg_statusEvents (index_all l rs) = lg_statusEvents l ∧
  lg_statusClock (index_all l rs) = lg_statusClock l ∧ lg_pendingCoords (index_all l rs) = lg_pendingCoords l ∧
  lg_pendingEvents (index_all l rs) = lg_pendingEvents l.
Proof.
  unfold index_all. induction rs as [|[i p] rs IH]; intros l; simpl; [done|].
  destruct (IH (index_row i p l)) as (-> & -> & -> & -> & -> & -> & ->). unfold index_row.
  by destruct (String.eqb (bp_State p) BackupRunRefusedState && negb (String.eqb (bp_StatusEventID p) "")).
Qed.

Lemma index_row_pending i p l : lg_pending l !! i = Some (Row p) →
  lg_pending (index_row i p l) = <[i := Row (upgraded p)]> (lg_pending l).
Proof.
  intros Hp. unfold index_row, upgraded.
  destruct (String.eqb (bp_State p) BackupRunRefusedState && negb (String.eqb (bp_StatusEventID p) "")); simpl; [done|].
  by rewrite insert_id.
Qed.

Lemma index_all_pending rs : ∀ l, NoDup rs.*1 → (∀ i p, (i, p) ∈ rs → lg_pending l !! i = Some (Row p)) →
  (∀ i p, (i, p) ∈ rs → lg_pending (index_all l rs) !! i = Some (Row (upgraded p))) ∧
  (∀ i, i ∉ rs.*1 → lg_pending (index_all l rs) !! i = lg_pending l !! i).
Proof.
  unfold index_all. induction rs as [|[i p] rs IH]; intros l Hn Hl; simpl.
  { split; [by intros ? ? ?%not_elem_of_nil|done]. }
  simpl in Hn. apply NoDup_cons in Hn as [Hni Hn]. assert (lg_pending l !! i = Some (Row p)) as Hp by (apply Hl; by left).
  destruct (IH (index_row i p l) Hn) as [H1 H2].
  { intros j q Hj. rewrite index_row_pending, lookup_insert_ne; [apply Hl; by right| |done].
    intros <-. apply Hni. by apply (list_elem_of_fmap_2 fst _ (i, q)). }
  split.
  - intros j q [[= -> ->]|Hj]%elem_of_cons; [|by apply H1]. rewrite H2 by done. rewrite index_row_pending by done. apply lookup_insert_eq.
  - intros j [Hj Hjs]%not_elem_of_cons. rewrite H2 by done. rewrite index_row_pending, lookup_insert_ne by done. done.
Qed.
End open.

Lemma decoded_keys m keys : (decoded m keys).*1 `sublist_of` keys.
Proof.
  unfold decoded. induction keys as [|i keys IH]; simpl; [done|].
  destruct (m !! i) as [[p|]|]; simpl; [by apply sublist_skip|by apply sublist_cons..].
Qed.

Section opened.
Context `{NostrLaws}.

Lemma reachable_clock_ready o : reachable o → is_Some (lg_statusClock (db_ledger (ob_db o)) !! backupRunStatusClockReady).
Proof. intros Hr. apply (ev_clock (ob_db initial)); [by apply steps_evolve; [apply db_inv_empty|]|by eexists]. Qed.

Lemma coordinates_ready db : tables_inv (db_tables db) → outboxCoordinatesReady ∈ tb_coordinates (db_tables db).
Proof. intros Ht. apply (ti_coordinates _ Ht). left. set_solver. Qed.

Lemma states_known_inv db : ledger_inv db → states_known (lg_pending (db_ledger db)).
Proof.
  intros Hl i r Hr. destruct (li_pending _ Hl _ _ Hr) as (p & -> & Ho). exists p. split; [done|]. split; [apply Ho|].
  destruct (po_state _ _ _ Ho) as [?|?|?]; auto.
Qed.

(** Opening rebuilds the package index of a file that lacks it. *)
Lemma open_coordinates indexed db db1 :
  indexBackupRunPending indexed db = Ok db1 → is_Some (lg_statusClock (db_ledger db1) !! backupRunStatusClockReady) →
  tb_coordinates (db_tables db1) = ∅ → (∀ k r, entries db1 !! k = Some r → ∃ e, r = Row e) →
  ∃ X, openOutboxDB_tx indexed db = Ok (upd_tables (set_coordinates X) db1) ∧
    ∀ k, k ∈ X ↔ k ∈ ({[outboxCoordinatesReady]} : gset string) ∨ ∃ id e, entries db1 !! id = Some (Row e) ∧ coordinate_index id e = Some k.
Proof.
  intros Hix [v Hv] Hc Hd. unfold openOutboxDB_tx. rewrite Hix. cbn [result_bind]. rewrite Hv. cbn [result_bind].
  rewrite Hc, bool_decide_eq_false_2 by apply not_elem_of_empty.
  destruct (index_coordinates_ok (entries db1) (bucket_keys (entries db1)) Hd db1) as (X & -> & HX). cbn [result_bind].
  exists ({[outboxCoordinatesReady]} ∪ X). split; [done|]. intros k. rewrite elem_of_union, HX, Hc. f_equiv. split.
  - intros [[]%not_elem_of_empty|(id & e & _ & ? & ?)]. by exists id, e.
  - intros (id & e & He & Hk). right. exists id, e. split_and!; [|done..]. apply elem_of_bucket_keys. by rewrite He.
Qed.

(** Opening a file creates the empty outbox, and opening a current one
    (its indexes marked as built) leaves every bucket as it was. *)
Theorem open_unchanged o : reachable o →
  openOutboxDB_tx false blank_db = Ok empty_db ∧ openOutboxDB_tx true (ob_db o) = Ok (ob_db o).
Proof.
  intros Hr. split; [by vm_compute|]. unfold openOutboxDB_tx. simpl.
  destruct (reachable_clock_ready o Hr) as [v ->]. simpl.
  rewrite bool_decide_eq_true_2; [done|]. by apply coordinates_ready, inv_tables, reachable_db_inv.
Qed.

(** A file whose package index and request indexes are missing, as an
    older version left it, gets exactly the indexes the operations would have
    maintained when it is opened; rows, proofs, admissions and clock are kept
    and staged refusals are compacted. *)
Theorem open_rebuilds_indexes o : reachable o →
  ∃ db', openOutboxDB_tx false (drop_indexes (ob_db o)) = Ok db' ∧ db_tables db' = db_tables (ob_db o) ∧
    lg_due (db_ledger db') = lg_due (db_ledger (ob_db o)) ∧
    lg_refusals (db_ledger db') = lg_refusals (db_ledger (ob_db o)) ∧ intents db' = intents (ob_db o) ∧
    lg_statusClock (db_ledger db') = lg_statusClock (db_ledger (ob_db o)) ∧
    (∀ i p, lg_pending (db_ledger (ob_db o)) !! i = Some (Row p) → lg_pending (db_ledger db') !! i = Some (Row (upgraded p))).
Proof.
  intros Hr. pose proof (reachable_db_inv o Hr) as Hi. set (m := lg_pending (db_ledger (ob_db o))).
  set (l := index_all (db_ledger (drop_indexes (ob_db o))) (decoded m (bucket_keys m))).
  destruct (index_all_frame (decoded m (bucket_keys m)) (db_ledger (drop_indexes (ob_db o)))) as (Hfi & _ & _ & _ & Hfc & _).
  fold l in Hfi, Hfc. pose proof (inv_tables _ Hi) as Ht. pose proof (inv_ledger _ Hi) as Hl.
  destruct (open_coordinates false (drop_indexes (ob_db o)) (mkDB (db_tables (drop_indexes (ob_db o))) l)) as (X & -> & HX).
  { apply (index_pending_rows_ok m (bucket_keys m)). by apply states_known_inv, Hi. }
  { simpl. rewrite Hfc. by apply (reachable_clock_ready o). }
  { done. }
  { intros k r (e & -> & _)%(ti_rows _ Ht). by eexists. }
  eexists. split; [done|]. cbn [upd_tables db_tables db_ledger]. split_and!.
  - simpl. replace X with (tb_coordinates (db_tables (ob_db o))); [by destruct (ob_db o) as [[] ?]|].
    apply set_eq. intros k. by rewrite HX, (ti_coordinates _ Ht k).
  - apply set_eq. intros k. unfold l. rewrite index_all_due, (li_due _ Hl). split.
    + intros [?|(i & p & [_ ?]%elem_of_decoded & ? & ?)]; [set_solver|eauto].
    + intros (i & p & Hp & ? & ?). right. exists i, p. rewrite elem_of_decoded, elem_of_bucket_keys. unfold m. by rewrite Hp.
  - apply set_eq. intros k. unfold l. rewrite index_all_refusals, (li_refusals _ Hl). split.
    + intros [?|(p & [_ ?]%elem_of_decoded & ? & ?)]; [set_solver|eauto].
    + intros (p & Hp & ? & ?). right. exists p. rewrite elem_of_decoded, elem_of_bucket_keys. unfold m. by rewrite Hp.
  - unfold intents. simpl. by rewrite Hfi.
  - done.
  - intros i p Hp. unfold l. apply index_all_pending.
    + eapply sublist_NoDup; [apply (NoDup_bucket_keys m)|apply decoded_keys].
    + intros j q [_ ?]%elem_of_decoded. done.
    + apply elem_of_decoded. rewrite elem_of_bucket_keys, Hp. by eauto.
Qed.
End opened.

Lemma open_unchanged_witness : openOutboxDB_tx true (ob_db (sample_at 11)) = Ok (ob_db (sample_at 11)).
Proof. exact (proj2 (open_unchanged (sample_at 11) (sample_reachable 11 ltac:(lia)))). Defined.

Lemma open_rebuilds_indexes_witness :
  ∃ db', openOutboxDB_tx false (drop_indexes (ob_db (sample_at 11))) = Ok db' ∧ db_tables db' = db_tables (ob_db (sample_at 11)).
Proof.
  destruct (open_rebuilds_indexes (sample_at 11)) as (db' & H1 & H2 & _); [apply sample_reachable; lia|].
  exists db'. exact (conj H1 H2).
Defined.
