(* ===== verification/EventIDProps.v ===== *)
(** * Event identity: what it guarantees

    The two escapers compute the byte-wise escape, the id hashes the bytes
    [Serialize] returns, and an id binds every signed field. *)

From Stdlib Require Import ZArith Lia Bool.
From stdpp Require Import base tactics decidable option list numbers strings.
From S2P Require Import Prelude Bytes Nostr EventID EventIDFacts OutboxData SampleDigest Sample.

(** Both JSON escapers, which scan eight bytes at a time and copy clean
    chunks, write exactly the quoted byte-by-byte escape of the string. *)
Theorem escapers_exact dst s :
  appendJSONString dst s = dst +:+ quote +:+ escape s +:+ quote ∧
  writeJSONString dst s = dst +:+ quote +:+ escape s +:+ quote.
Proof. by rewrite writeJSONString_append, appendJSONString_escape. Qed.

(** The word test of the escapers is exact: for any eight bytes it is true
    exactly when one of them needs an escape. *)
Theorem hasSpecial_exact bs :
  Forall is_byte bs → length bs = 8%nat →
  hasSpecial (word_of bs) = existsb (λ b, (b =? 9) || (b =? 10) || (b =? 13) || (b =? 34) || (b =? 92)) bs.
Proof. apply hasSpecial_bytes. Qed.

Lemma hasSpecial_exact_witness : hasSpecial (word_of [97; 0; 255; 128; 33; 91; 34; 97]) = true.
Proof.
  rewrite hasSpecial_exact; [reflexivity| |reflexivity]. repeat (apply Forall_cons; split; [unfold is_byte; lia|]). apply Forall_nil_2.
Defined.

(** The streaming hash of an event covers exactly the bytes [Serialize]
    returns, and these bytes determine the author, the time, the kind, the
    tags and the content of a well-formed event. *)
Theorem serialization_faithful e1 e2 :
  wf_event e1 → wf_event e2 → serializedHash_bytes e1 = Serialize e2 →
  ev_PubKey e1 = ev_PubKey e2 ∧ ev_CreatedAt e1 = ev_CreatedAt e2 ∧ ev_Kind e1 = ev_Kind e2 ∧
  ev_Tags e1 = ev_Tags e2 ∧ ev_Content e1 = ev_Content e2.
Proof. intros Hw1 Hw2. rewrite serializedHash_Serialize. by apply Serialize_injective. Qed.

(** The run state under another id and signature. *)
Definition renamed (ev : Event) : Event :=
  mkEvent (key_of 99) (ev_PubKey ev) (ev_CreatedAt ev) (ev_Kind ev) (ev_Tags ev) (ev_Content ev) "".

Lemma serialization_faithful_witness :
  wf_event run_state_event ∧ wf_event (renamed run_state_event) ∧ ev_Tags run_state_event = ev_Tags (renamed run_state_event).
Proof.
  assert (wf_event run_state_event) as H1 by (apply sample_event_wf; decide_now).
  assert (wf_event (renamed run_state_event)) as H2 by (apply wf_eventb_spec; vm_compute; reflexivity).
  split; [exact H1|]. split; [exact H2|].
  apply (serialization_faithful run_state_event (renamed run_state_event) H1 H2). vm_compute. reflexivity.
Defined.

(** Where SHA-256 does not collide, the id of a checked event binds its
    author, time, kind, tags and content: two events that pass [CheckID] under
    one id agree on all of them. *)
Theorem id_binds_event `{NostrLaws} e1 e2 :
  wf_event e1 → wf_event e2 → CheckID e1 = true → CheckID e2 = true → ev_ID e1 = ev_ID e2 →
  ev_PubKey e1 = ev_PubKey e2 ∧ ev_CreatedAt e1 = ev_CreatedAt e2 ∧ ev_Kind e1 = ev_Kind e2 ∧
  ev_Tags e1 = ev_Tags e2 ∧ ev_Content e1 = ev_Content e2.
Proof. apply CheckID_same. Qed.

(** The accepted status with another signature. *)
Definition resigned (ev : Event) : Event :=
  mkEvent (ev_ID ev) (ev_PubKey ev) (ev_CreatedAt ev) (ev_Kind ev) (ev_Tags ev) (ev_Content ev) "".

Lemma id_binds_event_witness : ev_Content accepted_event = ev_Content (resigned accepted_event).
Proof.
  apply (id_binds_event accepted_event (resigned accepted_event));
    [apply sample_event_wf; decide_now|apply wf_eventb_spec; vm_compute; reflexivity|vm_compute; reflexivity..].
Defined.

(** The signed expiration survives its decimal tag: every int64 that
    [strconv.AppendInt] prints is read back by [strconv.ParseInt]. *)
Theorem decimal_roundtrip z : min_i64 ≤ z ≤ max_i64 → parse_int64 (AppendInt "" z) = Some z.
Proof. apply parse_int64_AppendInt. Qed.

Lemma decimal_roundtrip_witness : parse_int64 (AppendInt "" (-9223372036854775808)) = Some (-9223372036854775808).
Proof. apply decimal_roundtrip. unfold min_i64, max_i64, two63. lia. Defined.
