(* ===== verification/ControlRecords.v ===== *)
(** * Control records

    [src/internal/adapters/nostr/localstore/control_records.go]: the daemon's
    local desired state, kept in one bucket of the outbox file under keys
    family, NUL, id.  The second half states what the store promises, a map
    from (family, id) to values, and proves that every sequence of calls
    answers as that map does. *)

From Stdlib Require Import ZArith Lia Bool.
From stdpp Require Import base tactics decidable option list numbers strings gmap sorting.
From S2P Require Import Prelude Bytes Bolt.

(** ** The store *)

(** The bucket is created by the first write that needs it. *)
Record ControlStore := mkControl {
  cs_bucket : option (gmap string string);
  cs_readOnly : bool;
}.

Inductive ControlError :=
| ErrControlKey
| ErrControlReadOnly
| ErrControlUpdate (e : string)
| ErrControlNoValue.

Definition controlRecordKey (family id : string) : string := family +:+ String nul id.

(** [tx.CreateBucketIfNotExists]. *)
Definition createBucketIfNotExists (b : option (gmap string string)) : gmap string string := default ∅ b.

Definition set_bucket (s : ControlStore) (b : gmap string string) : ControlStore :=
  mkControl (Some b) (cs_readOnly s).

Definition PutControlRecord (family id value : string) (s : ControlStore) : result ControlError ControlStore :=
  check! negb (String.eqb family "" || String.eqb id "") else ErrControlKey in
  check! negb (cs_readOnly s) else ErrControlReadOnly in
  let bucket := createBucketIfNotExists (cs_bucket s) in
  Ok (set_bucket s (<[controlRecordKey family id := value]> bucket)).

Definition GetControlRecord (family id : string) (s : ControlStore) : result ControlError (option string) :=
  check! negb (String.eqb family "" || String.eqb id "") else ErrControlKey in
  match cs_bucket s with
  | Some bucket => Ok (bucket !! controlRecordKey family id)
  | None => Ok None
  end.

Definition family_keys (family : string) (bucket : gmap string string) : list string :=
  let prefix := family +:+ String nul "" in
  prefix_keys prefix (bucket_keys bucket).

Definition ListControlRecords (family : string) (s : ControlStore) : result ControlError (list string) :=
  check! negb (String.eqb family "") else ErrControlKey in
  match cs_bucket s with
  | Some bucket => Ok (omap (λ key, bucket !! key) (family_keys family bucket))
  | None => Ok []
  end.

Definition ControlRecordsByID (family : string) (s : ControlStore) : result ControlError (gmap string string) :=
  check! negb (String.eqb family "") else ErrControlKey in
  match cs_bucket s with
  | Some bucket =>
      let prefix := family +:+ String nul "" in
      Ok (foldl (λ values key,
            match bucket !! key with
            | Some value => <[drop_bytes (String.length prefix) key := value]> values
            | None => values
            end) ∅ (family_keys family bucket))
  | None => Ok ∅
  end.

Definition DeleteControlRecord (family id : string) (s : ControlStore) : result ControlError (bool * ControlStore) :=
  check! negb (String.eqb family "" || String.eqb id "") else ErrControlKey in
  check! negb (cs_readOnly s) else ErrControlReadOnly in
  match cs_bucket s with
  | None => Ok (false, s)
  | Some bucket =>
      let key := controlRecordKey family id in
      match bucket !! key with
      | Some _ => Ok (true, set_bucket s (delete key bucket))
      | None => Ok (false, s)
      end
  end.

Definition DeleteControlRecordWithMarker (family id markerFamily marker : string) (s : ControlStore) :
    result ControlError (bool * ControlStore) :=
  check! negb (String.eqb family "" || String.eqb id "" || String.eqb markerFamily "") else ErrControlKey in
  check! negb (cs_readOnly s) else ErrControlReadOnly in
  let bucket := createBucketIfNotExists (cs_bucket s) in
  let key := controlRecordKey family id in
  match bucket !! key with
  | None => Ok (false, set_bucket s bucket)
  | Some _ => Ok (true, set_bucket s (delete key (<[controlRecordKey markerFamily id := marker]> bucket)))
  end.

(** [update] is the callback: the stored value or nil in, the new value or
    nil, or an error, out. *)
Definition UpdateControlRecord (family id : string) (update : option string → result string (option string))
    (s : ControlStore) : result ControlError (string * ControlStore) :=
  check! negb (String.eqb family "" || String.eqb id "") else ErrControlKey in
  check! negb (cs_readOnly s) else ErrControlReadOnly in
  let bucket := createBucketIfNotExists (cs_bucket s) in
  match update (bucket !! controlRecordKey family id) with
  | Err e => Err (ErrControlUpdate e)
  | Ok None => Err ErrControlNoValue
  | Ok (Some next) => Ok (next, set_bucket s (<[controlRecordKey family id := next]> bucket))
  end.

(** ** Calls on one store *)

Inductive control_call :=
| CPut (family id value : string)
| CGet (family id : string)
| CList (family : string)
| CByID (family : string)
| CDelete (family id : string)
| CRetire (family id markerFamily marker : string)
| CUpdate (family id : string) (update : option string → result string (option string)).

Inductive control_answer :=
| AError (e : ControlError)
| ADone
| AValue (v : option string)
| AValues (vs : list string)
| AByID (m : gmap string string)
| AFound (found : bool).

(** What the caller sees of a call and the state it leaves: an error leaves
    the file as it was. *)
Definition answer_of {A S} (r : result ControlError (A * S)) (f : A → control_answer) (s : S) : control_answer * S :=
  match r with Ok (a, s') => (f a, s') | Err e => (AError e, s) end.

Definition read_of {A S} (r : result ControlError A) (f : A → control_answer) (s : S) : control_answer * S :=
  match r with Ok a => (f a, s) | Err e => (AError e, s) end.

Definition control_run1 (c : control_call) (s : ControlStore) : control_answer * ControlStore :=
  match c with
  | CPut f id v => answer_of (let! s' := PutControlRecord f id v s in Ok (tt, s')) (λ _, ADone) s
  | CGet f id => read_of (GetControlRecord f id s) AValue s
  | CList f => read_of (ListControlRecords f s) AValues s
  | CByID f => read_of (ControlRecordsByID f s) AByID s
  | CDelete f id => answer_of (DeleteControlRecord f id s) AFound s
  | CRetire f id mf m => answer_of (DeleteControlRecordWithMarker f id mf m s) AFound s
  | CUpdate f id u => answer_of (UpdateControlRecord f id u s) (λ v, AValue (Some v)) s
  end.

Fixpoint control_run {S} (run1 : control_call → S → control_answer * S) (cs : list control_call) (s : S) :
    list control_answer * S :=
  match cs with
  | [] => ([], s)
  | c :: cs' =>
      let '(a, s1) := run1 c s in
      let '(l, s2) := control_run run1 cs' s1 in (a :: l, s2)
  end.

(** ** The promise: one map per family *)

Notation records := (gmap (string * string) string).

(** The ids of a family, in byte order. *)
Definition ids_of (family : string) (m : records) : list string :=
  index_keys (set_map snd (filter (λ k : string * string, k.1 = family) (dom m))).

Definition spec_key_ok (family id : string) : bool := negb (String.eqb family "" || String.eqb id "").

Definition spec_run1 (c : control_call) (m : records) : control_answer * records :=
  match c with
  | CPut f id v => if spec_key_ok f id then (ADone, <[(f, id) := v]> m) else (AError ErrControlKey, m)
  | CGet f id => if spec_key_ok f id then (AValue (m !! (f, id)), m) else (AError ErrControlKey, m)
  | CList f =>
      if String.eqb f "" then (AError ErrControlKey, m) else (AValues (omap (λ id, m !! (f, id)) (ids_of f m)), m)
  | CByID f =>
      if String.eqb f "" then (AError ErrControlKey, m)
      else (AByID (list_to_map (omap (λ id, pair id <$> m !! (f, id)) (ids_of f m))), m)
  | CDelete f id =>
      if spec_key_ok f id then (AFound (bool_decide (is_Some (m !! (f, id)))), delete (f, id) m)
      else (AError ErrControlKey, m)
  | CRetire f id mf v =>
      if spec_key_ok f id && negb (String.eqb mf "") then
        match m !! (f, id) with
        | Some _ => (AFound true, delete (f, id) (<[(mf, id) := v]> m))
        | None => (AFound false, m)
        end
      else (AError ErrControlKey, m)
  | CUpdate f id u =>
      if spec_key_ok f id then
        match u (m !! (f, id)) with
        | Err e => (AError (ErrControlUpdate e), m)
        | Ok None => (AError ErrControlNoValue, m)
        | Ok (Some v) => (AValue (Some v), <[(f, id) := v]> m)
        end
      else (AError ErrControlKey, m)
  end.

(** The families a call names, which the callers choose without NUL. *)
Definition call_families (c : control_call) : list string :=
  match c with
  | CPut f _ _ | CGet f _ | CList f | CByID f | CDelete f _ | CUpdate f _ _ => [f]
  | CRetire f _ mf _ => [f; mf]
  end.

Definition plain_families (c : control_call) : bool := forallb (λ f, negb (contains_nul f)) (call_families c).

(** ** Refinement *)

Definition represents (b : gmap string string) (m : records) : Prop :=
  ∀ f id, contains_nul f = false → b !! controlRecordKey f id = m !! (f, id).

Lemma controlRecordKey_prefix f id : controlRecordKey f id = (f +:+ String nul "") +:+ id.
Proof. unfold controlRecordKey. by rewrite <- app_string_assoc. Qed.

Lemma controlRecordKey_inj f f' id id' : contains_nul f = false → contains_nul f' = false →
  controlRecordKey f id = controlRecordKey f' id' → (f, id) = (f', id').
Proof. intros Hf Hf' H. by destruct (split_at_byte nul f f' id id' Hf Hf' H) as [-> ->]. Qed.

Section representation.
Context (b : gmap string string) (m : records) (Hr : represents b m).
Context (f id : string) (Hf : contains_nul f = false).

Lemma represents_insert v : represents (<[controlRecordKey f id := v]> b) (<[(f, id) := v]> m).
Proof using Hr Hf.
  intros f' id' Hf'. destruct (decide ((f, id) = (f', id'))) as [[= <- <-]|Hne].
  - by rewrite lookup_insert_eq, lookup_insert_eq.
  - rewrite lookup_insert_ne, lookup_insert_ne; [by apply Hr|done|]. intros E%controlRecordKey_inj; done.
Qed.

Lemma represents_delete : represents (delete (controlRecordKey f id) b) (delete (f, id) m).
Proof using Hr Hf.
  intros f' id' Hf'. destruct (decide ((f, id) = (f', id'))) as [[= <- <-]|Hne].
  - by rewrite lookup_delete_eq, lookup_delete_eq.
  - rewrite lookup_delete_ne, lookup_delete_ne; [by apply Hr|done|]. intros E%controlRecordKey_inj; done.
Qed.

Lemma elem_of_ids_of i : i ∈ ids_of f m ↔ is_Some (m !! (f, i)).
Proof using.
  unfold ids_of. rewrite elem_of_index_keys, elem_of_map. split.
  - intros ([f' i'] & -> & [Hk Hi]%elem_of_filter). simpl in *. subst f'. by apply elem_of_dom.
  - intros Hi. exists (f, i). split; [done|]. apply elem_of_filter. by rewrite elem_of_dom.
Qed.

(** The keys a family scan visits are those of its ids, in id order. *)
Lemma family_keys_ids : family_keys f b = controlRecordKey f <$> ids_of f m.
Proof using Hr Hf.
  unfold family_keys. rewrite prefix_keys_filter by apply index_keys_sorted.
  apply sorted_keys_unique.
  - apply StronglySorted_filter, index_keys_sorted.
  - apply (StronglySorted_fmap _ bytes_le); [|apply index_keys_sorted].
    intros x y Hxy. rewrite !controlRecordKey_prefix. unfold bytes_le. by rewrite bytes_leb_app.
  - apply NoDup_filter, NoDup_index_keys.
  - apply NoDup_fmap_2; [|apply NoDup_index_keys].
    intros x y Hxy. by injection (controlRecordKey_inj f f x y Hf Hf Hxy).
  - intros k. rewrite list_elem_of_filter, elem_of_bucket_keys, list_elem_of_fmap, Is_true_true. split.
    + intros [[id' ->]%has_prefix_spec Hk]. exists id'. rewrite <- controlRecordKey_prefix in *.
      split; [done|]. by rewrite elem_of_ids_of, <- (Hr f).
    + intros (id' & -> & Hid). rewrite elem_of_ids_of, <- (Hr f) in Hid by done.
      split; [|done]. rewrite controlRecordKey_prefix. apply has_prefix_app.
Qed.
End representation.

(** Collecting the values of a list of ids into a map, by inserting them one
    by one or at once. *)
Lemma lookup_collected (g : string → option string) ids i :
  (list_to_map (omap (λ id, pair id <$> g id) ids) : gmap string string) !! i = if decide (i ∈ ids) then g i else None.
Proof.
  induction ids as [|id ids IH]; [done|]. cbn [omap list_omap].
  destruct (decide (i = id)) as [->|Hne].
  - rewrite decide_True by by left. destruct (g id) as [v|] eqn:E; simpl; [by rewrite lookup_insert_eq|].
    rewrite IH. by case_decide.
  - transitivity ((list_to_map (omap (λ id, pair id <$> g id) ids) : gmap string string) !! i).
    + destruct (g id); simpl; [by rewrite lookup_insert_ne|done].
    + rewrite IH. apply decide_ext. rewrite elem_of_cons. naive_solver.
Qed.

Lemma lookup_collect_loop (g : string → option string) ids acc i :
  foldl (λ values id, match g id with Some v => <[id := v]> values | None => values end) acc ids !! i =
    if decide (i ∈ ids) then from_option Some (acc !! i) (g i) else (acc : gmap string string) !! i.
Proof.
  revert acc. induction ids as [|id ids IH]; intros acc; [done|]. cbn [foldl]. rewrite IH.
  destruct (decide (i = id)) as [->|Hne].
  - rewrite (decide_True (P := id ∈ id :: ids)) by by left. case_decide; destruct (g id); simpl; by rewrite ?lookup_insert_eq.
  - rewrite (decide_ext (i ∈ id :: ids) (i ∈ ids)) by (rewrite elem_of_cons; naive_solver).
    assert (match g id with Some v => <[id:=v]> acc | None => acc end !! i = acc !! i) as -> by
      (destruct (g id); by rewrite ?lookup_insert_ne). done.
Qed.

Lemma omap_fmap {A B C} (f : A → B) (g : B → option C) (l : list A) : omap g (f <$> l) = omap (g ∘ f) l.
Proof. induction l as [|x l IH]; [done|]. cbn. by rewrite IH. Qed.

Lemma omap_ext_elem {A B} (f g : A → option B) (l : list A) : (∀ x, x ∈ l → f x = g x) → omap f l = omap g l.
Proof.
  induction l as [|x l IH]; intros H; [done|]. cbn. rewrite (H x) by by left. rewrite IH; [done|].
  intros y Hy. apply H. by right.
Qed.

Lemma foldl_pointwise {A B} (f g : A → B → A) l acc : (∀ a b, f a b = g a b) → foldl f acc l = foldl g acc l.
Proof. intros H. revert acc. induction l as [|x l IH]; intros acc; simpl; [done|]. by rewrite H, IH. Qed.

Definition file_represents (s : ControlStore) (m : records) : Prop :=
  cs_readOnly s = false ∧ represents (createBucketIfNotExists (cs_bucket s)) m.

Lemma list_answer s m f : file_represents s m → contains_nul f = false → f ≠ "" →
  ListControlRecords f s = Ok (omap (λ id, m !! (f, id)) (ids_of f m)).
Proof.
  intros [_ Hr] Hf Hne. unfold ListControlRecords. rewrite (proj2 (String.eqb_neq f "") Hne). simpl.
  destruct (cs_bucket s) as [b|]; simpl in Hr.
  - rewrite (family_keys_ids b m Hr f Hf), omap_fmap. f_equal. apply omap_ext_elem. intros id _. by apply Hr.
  - f_equal. rewrite (omap_ext_elem _ (λ _, None)); [by induction (ids_of f m)|]. intros id _. by rewrite <- Hr.
Qed.

Lemma by_id_answer s m f : file_represents s m → contains_nul f = false → f ≠ "" →
  ControlRecordsByID f s = Ok (list_to_map (omap (λ id, pair id <$> m !! (f, id)) (ids_of f m))).
Proof.
  intros [_ Hr] Hf Hne. unfold ControlRecordsByID. rewrite (proj2 (String.eqb_neq f "") Hne). simpl.
  destruct (cs_bucket s) as [b|]; simpl in Hr.
  - rewrite (family_keys_ids b m Hr f Hf). f_equal.
    apply map_eq. intros i. rewrite lookup_collected, foldl_fmap.
    rewrite (foldl_pointwise _ (λ values id, match m !! (f, id) with Some v => <[id := v]> values | None => values end)).
    + rewrite lookup_collect_loop. case_decide; [|done]. by destruct (m !! (f, i)).
    + intros values id. by rewrite (Hr f id Hf), controlRecordKey_prefix, drop_bytes_app.
  - f_equal. symmetry. apply map_eq. intros i. rewrite lookup_collected. case_decide; [|done]. by rewrite <- Hr.
Qed.

Lemma get_lookup s m f id : file_represents s m → contains_nul f = false →
  match cs_bucket s with Some b => b !! controlRecordKey f id | None => None end = m !! (f, id).
Proof. intros [_ Hr] Hf. rewrite <- (Hr f id Hf). by destruct (cs_bucket s). Qed.

Lemma control_step c s m : file_represents s m → plain_families c = true →
  (control_run1 c s).1 = (spec_run1 c m).1 ∧ file_represents (control_run1 c s).2 (spec_run1 c m).2.
Proof.
  intros Hs Hc. unfold plain_families in Hc.
  assert (Forall (λ f, contains_nul f = false) (call_families c)) as Hf.
  { apply Forall_forall. intros f Hf. rewrite forallb_forall in Hc. apply negb_true_iff, Hc, list_elem_of_In, Hf. }
  destruct Hs as [Hro Hr]. assert (file_represents s m) as Hs by done.
  destruct c as [f id v|f id|f|f|f id|f id mf v|f id u]; simpl in Hf;
    apply Forall_cons in Hf as [Hf Hmf]; simpl; unfold spec_key_ok.
  - unfold PutControlRecord. destruct (_ || _); simpl; [done|]. rewrite Hro. simpl.
    split; [done|]. split; [done|]. by apply represents_insert.
  - unfold GetControlRecord. destruct (_ || _); simpl; [done|].
    rewrite <- (get_lookup s m f id Hs Hf). by destruct (cs_bucket s).
  - destruct (String.eqb_spec f ""); [subst f; done|]. by rewrite (list_answer s m).
  - destruct (String.eqb_spec f ""); [subst f; done|]. by rewrite (by_id_answer s m).
  - unfold DeleteControlRecord. destruct (_ || _); simpl; [done|]. rewrite Hro. simpl.
    pose proof (get_lookup s m f id Hs Hf) as Hget. destruct (cs_bucket s) as [b|] eqn:Eb.
    + rewrite Hget. destruct (m !! (f, id)) eqn:E; simpl.
      * split; [done|]. split; [done|]. by apply represents_delete.
      * rewrite delete_id by done. split; [done|]. split; [done|]. by rewrite Eb.
    + rewrite <- Hget. rewrite delete_id by done. simpl. split; [done|]. split; [done|]. by rewrite Eb.
  - apply Forall_cons in Hmf as [Hmf _]. unfold DeleteControlRecordWithMarker.
    destruct (String.eqb mf ""), (String.eqb f "" || String.eqb id ""); simpl; [done..|]. rewrite Hro. simpl.
    rewrite (Hr f id Hf). destruct (m !! (f, id)); simpl; (split; [done|]; split; [done|]; simpl); [|done].
    by apply represents_delete; [apply represents_insert|].
  - unfold UpdateControlRecord. destruct (_ || _); simpl; [done|]. rewrite Hro. simpl. rewrite (Hr f id Hf).
    destruct (u _) as [[v|]|e]; simpl; [|done..]. split; [done|]. split; [done|]. by apply represents_insert.
Qed.

Lemma control_runs cs : ∀ s m, file_represents s m → forallb plain_families cs = true →
  (control_run control_run1 cs s).1 = (control_run spec_run1 cs m).1 ∧
  file_represents (control_run control_run1 cs s).2 (control_run spec_run1 cs m).2.
Proof.
  induction cs as [|c cs IH]; intros s m Hs Hcs; simpl in *; [done|]. bool_facts.
  destruct (control_step c s m) as [Ha Hs']; [done..|].
  destruct (control_run1 c s) as [a s1], (spec_run1 c m) as [a' m1]; simpl in *. subst a'.
  destruct (IH s1 m1) as [Hl Hs2]; [done..|].
  destruct (control_run control_run1 cs s1), (control_run spec_run1 cs m1); simpl in *. by subst.
Qed.

Lemma new_file_represents : file_represents (mkControl None false) ∅.
Proof. split; [done|]. intros f id _. by rewrite !lookup_empty. Qed.

Lemma GetControlRecord_bucket f id s :
  GetControlRecord f id s =
    if spec_key_ok f id then Ok (createBucketIfNotExists (cs_bucket s) !! controlRecordKey f id) else Err ErrControlKey.
Proof. unfold GetControlRecord, spec_key_ok. destruct (_ || _), (cs_bucket s); done. Qed.

Section retire.
Context (f id mf marker : string).

Lemma retire_ok s found s' : DeleteControlRecordWithMarker f id mf marker s = Ok (found, s') →
  spec_key_ok f id = true ∧ spec_key_ok mf id = true ∧ cs_readOnly s = false ∧
  let b := createBucketIfNotExists (cs_bucket s) in
  ((∃ v, b !! controlRecordKey f id = Some v ∧ found = true ∧
         s' = set_bucket s (delete (controlRecordKey f id) (<[controlRecordKey mf id := marker]> b))) ∨
   b !! controlRecordKey f id = None ∧ found = false ∧ s' = set_bucket s b).
Proof.
  unfold DeleteControlRecordWithMarker, spec_key_ok. intros H. inv_ok. bool_facts. 
  do 3 (match goal with H : (_ =? _)%string = false |- _ => rewrite H; clear H end). split_and!; [done..|].
  simpl. case_match; simplify_eq; eauto 6.
Qed.

Lemma retire_absent s : spec_key_ok f id = true → spec_key_ok mf id = true → cs_readOnly s = false →
  is_Some (cs_bucket s) → createBucketIfNotExists (cs_bucket s) !! controlRecordKey f id = None →
  DeleteControlRecordWithMarker f id mf marker s = Ok (false, s).
Proof.
  destruct s as [ob ro]. unfold spec_key_ok, DeleteControlRecordWithMarker. simpl. intros ?? -> [b ->]. simpl. intros Hb.
  bool_facts. do 3 (match goal with H : (_ =? _)%string = false |- _ => rewrite H; clear H end). simpl. by rewrite Hb.
Qed.
End retire.

(** ** Properties *)

(** On a new file every sequence of control-record calls answers exactly
    as one map from (family, id) to values would, families being free of NUL
    bytes: families never see each other's records, listings are in id order,
    and a failed call changes nothing. *)
Theorem control_records_refine cs : forallb plain_families cs = true →
  (control_run control_run1 cs (mkControl None false)).1 = (control_run spec_run1 cs ∅).1.
Proof. intros Hcs. by apply control_runs; [apply new_file_represents|]. Qed.

(** Retiring a record with a marker of another family is one step: when
    the record was there it is gone, the marker is there, and no other record
    changed; when it was not, no record changed.  Either way a second call
    finds nothing to retire. *)
Theorem retirement_atomic f id mf marker s found s' :
  contains_nul f = false → contains_nul mf = false → f ≠ mf →
  DeleteControlRecordWithMarker f id mf marker s = Ok (found, s') →
  GetControlRecord f id s' = Ok None ∧
  (if found then GetControlRecord mf id s' = Ok (Some marker)
   else GetControlRecord f id s = Ok None ∧ GetControlRecord mf id s' = GetControlRecord mf id s) ∧
  (∀ f' id', contains_nul f' = false → (f', id') ≠ (f, id) → (f', id') ≠ (mf, id) →
     GetControlRecord f' id' s' = GetControlRecord f' id' s) ∧
  ∀ marker', DeleteControlRecordWithMarker f id mf marker' s' = Ok (false, s').
Proof.
  intros Hf Hmf Hne H. assert (controlRecordKey f id ≠ controlRecordKey mf id) as Hkey
    by (intros E%controlRecordKey_inj; congruence).
  apply retire_ok in H as (Hk & Hmk & Hro & Hcase). rewrite !GetControlRecord_bucket, Hk, Hmk.
  destruct Hcase as [(v & E & -> & ->)|(E & -> & ->)]; simpl.
  - rewrite lookup_delete_eq, lookup_delete_ne, lookup_insert_eq by done. split_and!; [done..| |].
    + intros f' i Hf' H1 H2. rewrite !GetControlRecord_bucket. simpl.
      by rewrite lookup_delete_ne, lookup_insert_ne by (intros X%controlRecordKey_inj; congruence).
    + intros m'. apply retire_absent; [done..|by eexists|]. apply lookup_delete_eq.
  - rewrite E. split_and!; [done..| |].
    + intros. by rewrite !GetControlRecord_bucket.
    + intros m'. by apply retire_absent; [..|eexists|].
Qed.

(** ** Instances *)

Definition sample_control : list control_call :=
  [CPut "nodes" "a" "1"; CPut "node" "s" "2"; CPut "nodes" "b" "3"; CList "nodes"; CByID "node";
   CRetire "nodes" "a" "retired" "gone"; CRetire "nodes" "a" "retired" "again"; CGet "retired" "a";
   CUpdate "nodes" "b" (λ _, Ok None); CUpdate "nodes" "b" (λ v, Ok ((λ s, s +:+ "!") <$> v)); CList "nodes";
   CDelete "node" "s"; CGet "node" "s"; CPut "" "s" "4"].

Lemma control_records_refine_witness :
  (control_run control_run1 sample_control (mkControl None false)).1 =
    [ADone; ADone; ADone; AValues ["1"; "3"]; AByID {["s" := "2"]}; AFound true; AFound false; AValue (Some "gone");
     AError ErrControlNoValue; AValue (Some "3!"); AValues ["3!"]; AFound true; AValue None; AError ErrControlKey].
Proof.
  refine (eq_trans (control_records_refine sample_control _) _); vm_compute; reflexivity.
Defined.

Lemma retirement_atomic_witness :
  GetControlRecord "retired" "a" (control_run control_run1 (take 6 sample_control) (mkControl None false)).2 =
    Ok (Some "gone").
Proof.
  refine (proj1 (proj2 (retirement_atomic "nodes" "a" "retired" "gone"
    (control_run control_run1 (take 5 sample_control) (mkControl None false)).2 true _ _ _ _ _)));
    [vm_compute; reflexivity..|discriminate|vm_compute; reflexivity].
Defined.
