(* ===== verification/TrustEpoch.v ===== *)
(** * Trust epochs

    [src/internal/trustepoch]: operator-authorized changes of the service
    identity.  An epoch is a signed event of the operator root that moves the
    service from an old key to a new one; a verifier accepts epochs in order,
    keeps the last one in a durable record, and judges service events by the
    key that is in force.

    The durable record is an interface ([Persistence], a class below), which
    [BoltPersistence] implements; the source of heads and the inventory
    artifact are arguments.  A context is a function from the number of the
    call that checks it to whether it is cancelled by then. *)

From Stdlib Require Import ZArith Lia Bool.
From stdpp Require Import base tactics decidable option list numbers strings gmap sorting.
From S2P Require Import Prelude Bytes Nostr EventID OutboxData.

(** ** Data *)

(** [Epoch].  The two lists are nil when the content leaves them out. *)
Record Epoch := mkEpoch {
  ep_IncidentID : string;
  ep_Epoch : Z;
  ep_OldPubkey : string;
  ep_NewPubkey : string;
  ep_ControlledRelays : option (list string);
  ep_ActivationBarrier : Z;
  ep_InventoryDigest : string;
  ep_InventoryCount : Z;
  ep_ConsumerRoster : option (list string);
  ep_Activated : bool;
}.

Record Accepted := mkAccepted {
  ac_Epoch : Z;
  ac_EventID : string;
  ac_OldPubkey : string;
  ac_NewPubkey : string;
  ac_Activated : bool;
}.

#[export] Instance Accepted_eq_dec : EqDecision Accepted.
Proof. solve_decision. Defined.

Record Resolution := mkResolution {
  rs_ServiceID : string;
  rs_Pubkey : string;
  rs_Epoch : Z;
  rs_Record : option Epoch;
  rs_EventID : string;
  rs_Inventory : option (gset string);
}.

Inductive Decision :=
| DecAccept
| DecHostile
| DecPreEpochAccepted.

Inductive TrustError :=
| ErrUnverifiable
| ErrRegression
| ErrInventory
| ErrPersistence
| ErrSource
| ErrCancelled.

Record Acknowledgment := mkAck {
  ak_ServiceID : string;
  ak_ConsumerID : string;
  ak_Epoch : Z;
  ak_IncidentID : string;
  ak_EnforcingPubkey : string;
  ak_EpochEventID : string;
  ak_AttestedBy : string;
}.

Record Readiness := mkReadiness {
  ry_ServiceID : string;
  ry_ConsumerID : string;
  ry_Epoch : Z;
  ry_IncidentID : string;
  ry_EnforcingPubkey : string;
  ry_Waived : bool;
  ry_ReasonCode : string;
  ry_EvidenceIDs : list string;
}.

(** The artifact [FileInventory] reads: service id, digest, ids. *)
Record InventoryArtifact := mkArtifact {
  ia_ServiceID : string;
  ia_Digest : string;
  ia_IDs : option (list string);
}.

(** [encoding/json] on these types: a strict decoder returns the value and
    whether the input ends after it. *)
Class TrustJSON := {
  decode_epoch : string → option (Epoch * bool);
  decode_ack : string → option (Acknowledgment * bool);
  encode_ack : Acknowledgment → string;
  decode_readiness : string → option (Readiness * bool);
  encode_readiness : Readiness → string;
  decode_artifact : string → option (InventoryArtifact * bool);
}.

(** ** The roster *)

Record Consumer := mkConsumer {
  cn_ID : string;
  cn_Enforcement : string;
  cn_Reason : string;
}.

Definition roster : list Consumer :=
  [mkConsumer "daemon" "enforced" ""; mkConsumer "sidecar" "enforced" ""; mkConsumer "web" "enforced" "";
   mkConsumer "cli" "enforced" ""; mkConsumer "dns" "enforced" ""; mkConsumer "loom" "enforced" "";
   mkConsumer "soulfactory" "pending" "cli_nostr_client_has_no_live_operator_epoch_subscription_or_inventory_seam";
   mkConsumer "hiveci" "enforced" "";
   mkConsumer "pinned-runtimes" "pending" "edge_image_admission_has_no_signed_epoch_source_or_durable_high_water_mark"].

Definition ConsumerIDs : list string := cn_ID <$> roster.

Definition Registered (id : string) : bool := existsb (λ c, String.eqb (cn_ID c) id) roster.

Definition MissingAcknowledgments (acknowledged : string → bool) : list string :=
  omap (λ c, if String.eqb (cn_Enforcement c) "pending" || negb (acknowledged (cn_ID c)) then Some (cn_ID c) else None)
    roster.

(** ** Envelopes *)

Definition Topic : string := "trust-epoch".
Definition Schema : string := "bahia.trust-epoch.v1".
Definition AckTopic : string := "identity-recovery-receipt".
Definition AckSchema : string := "bahia.trust-epoch-ack.v1".
Definition ReadinessSchema : string := "bahia.trust-epoch-readiness.v1".
Definition Domain : string := "identity".

Definition validHex64 (value : string) : bool :=
  Nat.eqb (String.length value) 64 && String.eqb (to_lower value) value && bool_decide (is_Some (unhex value)).

(** [strings.ContainsAny(s, " \t\r\n:")]. *)
Fixpoint contains_separator (s : string) : bool :=
  match s with
  | EmptyString => false
  | String c s' =>
      let z := Z_of_byte c in
      (z =? 32) || (z =? 9) || (z =? 13) || (z =? 10) || (z =? 58) || contains_separator s'
  end.

Definition exactly (tags : list (list string)) (name want : string) : bool :=
  match count_matching_tags tags name want 0 with
  | Some count => Nat.eqb count 1
  | None => false
  end.

(** [strconv.FormatUint(n, 10)]. *)
Definition FormatUint (n : Z) : string := AppendUint "" n.

(** The roster of an epoch: registered and without repetition. *)
Fixpoint roster_ok (ids seen : list string) : bool :=
  match ids with
  | [] => true
  | id :: ids' => Registered id && negb (bool_decide (id ∈ seen)) && roster_ok ids' (id :: seen)
  end.

Section parse.
Context `{NostrPrims} `{TrustJSON}.

Definition Parse (ev : Event) (serviceID operatorRoot : string) : result TrustError Epoch :=
  check! negb (String.eqb serviceID "" || contains_separator serviceID || negb (validHex64 operatorRoot) ||
               negb (String.eqb (hex (ev_PubKey ev)) operatorRoot)) else ErrUnverifiable in
  check! (ev_Kind ev =? kindCPState) && CheckID ev && VerifySignature ev else ErrUnverifiable in
  check! exactly (ev_Tags ev) "d" ("trust-epoch:" +:+ serviceID) && exactly (ev_Tags ev) "t" Topic &&
         exactly (ev_Tags ev) "domain" Domain && exactly (ev_Tags ev) "schema" Schema &&
         exactly (ev_Tags ev) "legacy_kind" "32052" && exactly (ev_Tags ev) "deleted" "false" else ErrUnverifiable in
  let! ' (body, at_end) := of_option ErrUnverifiable (decode_epoch (ev_Content ev)) in
  check! at_end else ErrUnverifiable in
  check! negb (String.eqb (ep_IncidentID body) "" || (ep_Epoch body =? 0) || negb (validHex64 (ep_OldPubkey body)) ||
               negb (validHex64 (ep_NewPubkey body)) || String.eqb (ep_OldPubkey body) (ep_NewPubkey body) ||
               String.eqb (ep_OldPubkey body) operatorRoot || String.eqb (ep_NewPubkey body) operatorRoot ||
               (ep_ActivationBarrier body <=? 0) || negb (validHex64 (ep_InventoryDigest body)) ||
               (ep_InventoryCount body <? 0) || bool_decide (ep_ControlledRelays body = None) ||
               bool_decide (ep_ConsumerRoster body = None) ||
               negb (exactly (ev_Tags ev) "epoch" (FormatUint (ep_Epoch body)))) else ErrUnverifiable in
  let ids := default [] (ep_ConsumerRoster body) in
  check! roster_ok ids [] else ErrUnverifiable in
  check! forallb (λ id, bool_decide (id ∈ ids)) ConsumerIDs else ErrUnverifiable in
  Ok body.

(** ** The inventory *)

Fixpoint join (sep : string) (l : list string) : string :=
  match l with
  | [] => ""
  | [s] => s
  | s :: l' => s +:+ sep +:+ join sep l'
  end.

Definition newline : string := string_of_bytes [10].

(** The loop over the sorted ids: [previous] is the id before. *)
Fixpoint distinct_ids (previous : option string) (ids : list string) : bool :=
  match ids with
  | [] => true
  | id :: ids' => validHex64 id && negb (bool_decide (previous = Some id)) && distinct_ids (Some id) ids'
  end.

Definition CheckInventory (ids : option (list string)) (digest : string) (count : Z) : result TrustError (gset string) :=
  let! ids := of_option ErrInventory ids in
  check! negb ((count <? 0) || negb (Z.of_nat (length ids) =? count) || negb (validHex64 digest)) else ErrInventory in
  let copyIDs := merge_sort bytes_le ids in
  check! distinct_ids None copyIDs else ErrInventory in
  check! String.eqb (hex (sha256 (join newline copyIDs))) digest else ErrInventory in
  Ok (list_to_set copyIDs).

(** [FileInventory.IDs] on the bytes of the artifact file. *)
Definition FileInventory_IDs (ctx : bool) (file : option string) (serviceID digest : string) :
    result TrustError (option (list string)) :=
  check! negb ctx else ErrCancelled in
  let! raw := of_option ErrInventory file in
  let! ' (artifact, at_end) := of_option ErrInventory (decode_artifact raw) in
  check! at_end else ErrInventory in
  check! String.eqb (ia_ServiceID artifact) serviceID && String.eqb (ia_Digest artifact) digest &&
         negb (bool_decide (ia_IDs artifact = None)) else ErrInventory in
  Ok (ia_IDs artifact).

(** ** Acknowledgments and readiness *)

Definition receipt_tags (prefix serviceID consumerID schema : string) (epoch : Z) : list (list string) :=
  [["d"; prefix +:+ serviceID +:+ ":" +:+ consumerID]; ["t"; AckTopic]; ["domain"; Domain]; ["schema"; schema];
   ["legacy_kind"; "32053"]; ["epoch"; FormatUint epoch]; ["deleted"; "false"]].

(** The tag checks both receipts share. *)
Definition receipt_tags_ok (tags : list (list string)) (prefix serviceID consumerID schema : string) (epoch : Z) : bool :=
  exactly tags "d" (prefix +:+ serviceID +:+ ":" +:+ consumerID) && exactly tags "t" AckTopic &&
  exactly tags "domain" Domain && exactly tags "schema" schema && exactly tags "legacy_kind" "32053" &&
  exactly tags "epoch" (FormatUint epoch) && exactly tags "deleted" "false".

(** An unsigned event: id, author and signature are still zero. *)
Definition unsigned_event (kind createdAt : Z) (tags : list (list string)) (content : string) : Event :=
  mkEvent ZeroID ZeroID createdAt kind tags content (string_of_bytes (replicate 64 0)).

Definition activated (r : Resolution) : option Epoch :=
  match rs_Record r with
  | Some record => if ep_Activated record then Some record else None
  | None => None
  end.

Definition ack_of (r : Resolution) (record : Epoch) (consumerID attestedBy : string) : Acknowledgment :=
  mkAck (rs_ServiceID r) consumerID (rs_Epoch r) (ep_IncidentID record) (rs_Pubkey r) (rs_EventID r) attestedBy.

Definition NewAcknowledgmentForAuthority (r : Resolution) (consumerID : string) (createdAt : Z) (attestedBy : string) :
    option Event :=
  match activated r with
  | Some record =>
      if Registered consumerID && validHex64 (rs_EventID r) && validHex64 (rs_Pubkey r) &&
         (String.eqb attestedBy "" || validHex64 attestedBy)
      then Some (unsigned_event kindCPState createdAt
                   (receipt_tags "trust-epoch-ack:" (rs_ServiceID r) consumerID AckSchema (rs_Epoch r))
                   (encode_ack (ack_of r record consumerID attestedBy)))
      else None
  | None => None
  end.

Definition VerifyAcknowledgmentAuthority (ev : Event) (r : Resolution) (consumerID authority : string)
    (operatorAttested : bool) : bool :=
  match activated r with
  | Some record =>
      Registered consumerID && validHex64 authority && validHex64 (rs_Pubkey r) &&
      (ev_Kind ev =? kindCPState) && String.eqb (hex (ev_PubKey ev)) authority && CheckID ev && VerifySignature ev &&
      receipt_tags_ok (ev_Tags ev) "trust-epoch-ack:" (rs_ServiceID r) consumerID AckSchema (rs_Epoch r) &&
      match decode_ack (ev_Content ev) with
      | Some (body, at_end) =>
          at_end && String.eqb (ak_ServiceID body) (rs_ServiceID r) && String.eqb (ak_ConsumerID body) consumerID &&
          (ak_Epoch body =? rs_Epoch r) && String.eqb (ak_EpochEventID body) (rs_EventID r) &&
          String.eqb (ak_IncidentID body) (ep_IncidentID record) && String.eqb (ak_EnforcingPubkey body) (rs_Pubkey r) &&
          String.eqb (ak_AttestedBy body) (if operatorAttested then authority else "")
      | None => false
      end
  | None => false
  end.

Definition ValidWaiverReason (reason : string) : bool :=
  String.eqb reason "consumer_disabled" || String.eqb reason "consumer_isolated" ||
  String.eqb reason "consumer_decommissioned".

Fixpoint evidence_ok (ids seen : list string) : bool :=
  match ids with
  | [] => true
  | id :: ids' => validHex64 id && negb (bool_decide (id ∈ seen)) && evidence_ok ids' (id :: seen)
  end.

Definition validReadiness (value : Readiness) : bool :=
  negb (String.eqb (ry_ServiceID value) "" || contains_separator (ry_ServiceID value) ||
        negb (Registered (ry_ConsumerID value)) || (ry_Epoch value =? 0) || String.eqb (ry_IncidentID value) "" ||
        negb (validHex64 (ry_EnforcingPubkey value))) &&
  (if ry_Waived value then ValidWaiverReason (ry_ReasonCode value) && negb (Nat.eqb (length (ry_EvidenceIDs value)) 0)
   else String.eqb (ry_ReasonCode value) "" && negb (Nat.eqb (length (ry_EvidenceIDs value)) 0)) &&
  evidence_ok (ry_EvidenceIDs value) [].

Definition NewReadiness (value : Readiness) (createdAt : Z) : option Event :=
  if validReadiness value
  then Some (unsigned_event kindCPState createdAt
               (receipt_tags "trust-epoch-readiness:" (ry_ServiceID value) (ry_ConsumerID value) ReadinessSchema
                  (ry_Epoch value)) (encode_readiness value))
  else None.

Definition VerifyReadiness (ev : Event) (want : Readiness) (operatorRoot : string) : bool :=
  negb (String.eqb (ry_ServiceID want) "") && Registered (ry_ConsumerID want) && negb (ry_Epoch want =? 0) &&
  negb (String.eqb (ry_IncidentID want) "") && validHex64 (ry_EnforcingPubkey want) && validHex64 operatorRoot &&
  negb (String.eqb operatorRoot (ry_EnforcingPubkey want)) && (ev_Kind ev =? kindCPState) &&
  String.eqb (hex (ev_PubKey ev)) operatorRoot && CheckID ev && VerifySignature ev &&
  receipt_tags_ok (ev_Tags ev) "trust-epoch-readiness:" (ry_ServiceID want) (ry_ConsumerID want) ReadinessSchema
    (ry_Epoch want) &&
  match decode_readiness (ev_Content ev) with
  | Some (actual, at_end) =>
      at_end && validReadiness actual && String.eqb (ry_ServiceID actual) (ry_ServiceID want) &&
      String.eqb (ry_ConsumerID actual) (ry_ConsumerID want) && (ry_Epoch actual =? ry_Epoch want) &&
      String.eqb (ry_IncidentID actual) (ry_IncidentID want) &&
      String.eqb (ry_EnforcingPubkey actual) (ry_EnforcingPubkey want)
  | None => false
  end.
End parse.

(** ** The durable record *)

(** [Persistence]: [Last] reads the accepted head of a service, [Accept]
    replaces it.  The first argument says whether the context is cancelled. *)
Class Persistence (S : Type) := {
  Last : bool → string → S → result TrustError (option Accepted);
  Accept : bool → string → Accepted → S → result TrustError S;
}.

(** What the interface promises its clients: a head that was accepted is the
    one read back, other services keep theirs, and a head is only replaced by
    one of a later epoch (accepting it again changes nothing). *)
Class PersistenceLaws (S : Type) `{Persistence S} : Prop := {
  accept_last ctx svc a s s' : Accept ctx svc a s = Ok s' → Last false svc s' = Ok (Some a);
  accept_other ctx svc a s s' svc' : Accept ctx svc a s = Ok s' → svc' ≠ svc → Last false svc' s' = Last false svc' s;
  accept_later ctx svc a s s' p :
    Accept ctx svc a s = Ok s' → Last false svc s = Ok (Some p) → ac_Epoch p < ac_Epoch a ∨ p = a ∧ s' = s;
  last_uncancelled ctx svc s r : Last ctx svc s = Ok r → Last false svc s = Ok r;
}.

(** [BoltPersistence]: one bucket of JSON rows. *)
Record BoltPersistence := mkBolt { bo_accepted : gmap string (row Accepted) }.

Definition valid_accepted (a : Accepted) : bool :=
  negb ((ac_Epoch a =? 0) || negb (validHex64 (ac_EventID a)) || negb (validHex64 (ac_OldPubkey a)) ||
        negb (validHex64 (ac_NewPubkey a))).

Definition BoltPersistence_Last (ctx : bool) (serviceID : string) (b : BoltPersistence) :
    result TrustError (option Accepted) :=
  check! negb ctx else ErrCancelled in
  match bo_accepted b !! serviceID with
  | None => Ok None
  | Some raw =>
      let! head := of_option ErrPersistence (unmarshal raw) in
      check! valid_accepted head else ErrPersistence in
      Ok (Some head)
  end.

Definition BoltPersistence_Accept (ctx : bool) (serviceID : string) (head : Accepted) (b : BoltPersistence) :
    result TrustError BoltPersistence :=
  check! negb (String.eqb serviceID "") && valid_accepted head else ErrPersistence in
  check! negb ctx else ErrCancelled in
  match bo_accepted b !! serviceID with
  | None => Ok (mkBolt (<[serviceID := Row head]> (bo_accepted b)))
  | Some raw =>
      let! prior := of_option ErrPersistence (unmarshal raw) in
      check! valid_accepted prior else ErrPersistence in
      check! negb ((ac_Epoch head <? ac_Epoch prior) ||
                   (ac_Epoch head =? ac_Epoch prior) && negb (String.eqb (ac_EventID head) (ac_EventID prior)))
        else ErrRegression in
      if ac_Epoch head =? ac_Epoch prior then
        check! bool_decide (head = prior) else ErrUnverifiable in Ok b
      else Ok (mkBolt (<[serviceID := Row head]> (bo_accepted b)))
  end.

#[export] Instance bolt_persistence : Persistence BoltPersistence := {|
  Last := BoltPersistence_Last;
  Accept := BoltPersistence_Accept;
|}.

(** ** The verifier *)

(** [Source.Head] returns an event pointer, a presence flag and an error;
    [VerifiedInventory.IDs] a slice, nil included. *)
Record Verifier := mkVerifier {
  vf_OperatorRoot : string;
  vf_LegacyPubkey : string;
  vf_Source : option (bool → string → string → result TrustError (option Event * bool));
  vf_Inventory : option (bool → string → string → result TrustError (option (list string)));
}.

Section source.
Context `{NostrPrims}.

(** The loop of [LocalSource.Head]: the newest event, the lowest hex id among
    equals. *)
Fixpoint newest (head : option Event) (events : list Event) : option Event :=
  match events with
  | [] => head
  | ev :: events' =>
      match head with
      | None => newest (Some ev) events'
      | Some h =>
          if (ev_CreatedAt h <? ev_CreatedAt ev) ||
             (ev_CreatedAt ev =? ev_CreatedAt h) && bytes_ltb (hex (ev_ID ev)) (hex (ev_ID h))
          then newest (Some ev) events' else newest head events'
      end
  end.

(** [LocalSource.Head] over the store's query, which is asked for the kind,
    the author and the d tag; the context is checked per event. *)
Definition LocalSource_Head (query : Z → string → string → list Event) (ctx : bool) (serviceID operatorRoot : string) :
    result TrustError (option Event * bool) :=
  check! validHex64 operatorRoot else ErrSource in
  let! root := of_option ErrSource (PubKeyFromHex operatorRoot) in
  let events := query kindCPState root ("trust-epoch:" +:+ serviceID) in
  check! negb (ctx && negb (Nat.eqb (length events) 0)) else ErrCancelled in
  let head := newest None events in
  Ok (head, bool_decide (is_Some head)).
End source.

Section verifier.
Context `{NostrPrims} `{TrustJSON} {S : Type} `{Persistence S}.

Definition config_ok (v : Verifier) : bool :=
  validHex64 (vf_OperatorRoot v) && validHex64 (vf_LegacyPubkey v) &&
  negb (String.eqb (vf_OperatorRoot v) (vf_LegacyPubkey v)).

(** The key in force after an accepted head. *)
Definition key_in_force (a : Accepted) : string := if ac_Activated a then ac_NewPubkey a else ac_OldPubkey a.

(** The checks of [AcceptHead] between the read of the last head and the
    write of the new one. *)
Definition check_head (v : Verifier) (last : option Accepted) (serviceID : string) (ev : Event) : result TrustError Epoch :=
  let! body := Parse ev serviceID (vf_OperatorRoot v) in
  match last with
  | Some last =>
      check! negb (ep_Epoch body <? ac_Epoch last) else ErrRegression in
      check! negb ((ep_Epoch body =? ac_Epoch last) && negb (String.eqb (hex (ev_ID ev)) (ac_EventID last)))
        else ErrRegression in
      check! negb ((ep_Epoch body =? ac_Epoch last) &&
                   (negb (String.eqb (ep_OldPubkey body) (ac_OldPubkey last)) ||
                    negb (String.eqb (ep_NewPubkey body) (ac_NewPubkey last)) ||
                    negb (Bool.eqb (ep_Activated body) (ac_Activated last)))) else ErrUnverifiable in
      check! negb ((ac_Epoch last <? ep_Epoch body) && negb (String.eqb (ep_OldPubkey body) (key_in_force last)))
        else ErrUnverifiable in
      Ok body
  | None =>
      check! String.eqb (ep_OldPubkey body) (vf_LegacyPubkey v) else ErrUnverifiable in
      Ok body
  end.

Definition accepted_of (body : Epoch) (ev : Event) : Accepted :=
  mkAccepted (ep_Epoch body) (hex (ev_ID ev)) (ep_OldPubkey body) (ep_NewPubkey body) (ep_Activated body).

(** The inventory of an activated epoch, when it is configured, read and
    verified. *)
Definition inventory_of (v : Verifier) (ctx : bool) (serviceID : string) (body : Epoch) : option (gset string) :=
  match vf_Inventory v with
  | None => None
  | Some ids =>
      match ids ctx serviceID (ep_InventoryDigest body) with
      | Ok ids =>
          match CheckInventory ids (ep_InventoryDigest body) (ep_InventoryCount body) with
          | Ok verified => Some verified
          | Err _ => None
          end
      | Err _ => None
      end
  end.

Definition AcceptHead (v : Verifier) (ctx : nat → bool) (serviceID : string) (ev : Event) (s : S) :
    result TrustError (Resolution * S) :=
  check! config_ok v else ErrUnverifiable in
  let! last := Last (ctx 0%nat) serviceID s in
  let! body := check_head v last serviceID ev in
  let! s' := Accept (ctx 1%nat) serviceID (accepted_of body ev) s in
  Ok (if ep_Activated body
      then mkResolution serviceID (ep_NewPubkey body) (ep_Epoch body) (Some body) (hex (ev_ID ev))
             (inventory_of v (ctx 2%nat) serviceID body)
      else mkResolution serviceID (ep_OldPubkey body) (ep_Epoch body) (Some body) (hex (ev_ID ev)) None, s').

Definition ServiceIdentity (v : Verifier) (ctx : nat → bool) (serviceID : string) (s : S) :
    result TrustError (Resolution * S) :=
  let! head := of_option ErrUnverifiable (vf_Source v) in
  check! negb (String.eqb serviceID "") && config_ok v else ErrUnverifiable in
  let! hadLast := Last (ctx 0%nat) serviceID s in
  let! ' (ev, present) := head (ctx 1%nat) serviceID (vf_OperatorRoot v) in
  if negb present then
    match hadLast with
    | Some _ => Err ErrRegression
    | None => Ok (mkResolution serviceID (vf_LegacyPubkey v) 0 None "" None, s)
    end
  else
    let! ev := of_option ErrUnverifiable ev in
    AcceptHead v (λ n, ctx (2 + n)%nat) serviceID ev s.

Definition Resolution_JudgeEvent (r : Resolution) (ev : Event) : Decision :=
  if negb (CheckID ev) || negb (VerifySignature ev) then DecHostile
  else if String.eqb (hex (ev_PubKey ev)) (rs_Pubkey r) then DecAccept
  else match rs_Record r, rs_Inventory r with
       | Some record, Some inventory =>
           if ep_Activated record && String.eqb (hex (ev_PubKey ev)) (ep_OldPubkey record) &&
              (ev_CreatedAt ev <=? ep_ActivationBarrier record) && bool_decide (hex (ev_ID ev) ∈ inventory)
           then DecPreEpochAccepted else DecHostile
       | _, _ => DecHostile
       end.

(** [JudgeEvent] and [JudgeServiceEvent] return a decision beside the error;
    the state is the one [ServiceIdentity] leaves. *)
Definition Verifier_JudgeEvent (v : Verifier) (ctx : nat → bool) (serviceID : string) (ev : Event) (s : S) :
    Decision * option TrustError * S :=
  match ServiceIdentity v ctx serviceID s with
  | Err e => (DecHostile, Some e, s)
  | Ok (r, s') => (Resolution_JudgeEvent r ev, None, s')
  end.

Definition JudgeServiceEvent (v : Verifier) (ctx : nat → bool) (serviceID : string) (ev : Event) (s : S) :
    Decision * bool * option TrustError * S :=
  match ServiceIdentity v ctx serviceID s with
  | Err e => (DecHostile, true, Some e, s)
  | Ok (r, s') =>
      let author := hex (ev_PubKey ev) in
      let old := match rs_Record r with Some record => ep_OldPubkey record | None => vf_LegacyPubkey v end in
      if negb (String.eqb author old) && negb (String.eqb author (vf_LegacyPubkey v)) &&
         negb (String.eqb author (rs_Pubkey r))
      then (DecAccept, false, None, s')
      else (Resolution_JudgeEvent r ev, true, None, s')
  end.
End verifier.

(** ** Bolt keeps the promise *)

(** What a successful [Accept] did. *)
Lemma bolt_accept_ok ctx svc a b b' : BoltPersistence_Accept ctx svc a b = Ok b' →
  valid_accepted a = true ∧
  (b' = mkBolt (<[svc := Row a]> (bo_accepted b)) ∧
   (∀ p, bo_accepted b !! svc = Some (Row p) → ac_Epoch p < ac_Epoch a) ∨
   b' = b ∧ bo_accepted b !! svc = Some (Row a)).
Proof.
  unfold BoltPersistence_Accept. intros H. inv_ok. bool_facts. split; [done|].
  destruct (bo_accepted b !! svc) as [raw|] eqn:E; inv_ok; [|by left].
  rename select (unmarshal raw = _) into Hraw. apply unmarshal_Some in Hraw as ->.
  destruct (ac_Epoch a =? _) eqn:Ee; inv_ok; bool_facts; subst; [by right|left].
  split; [done|]. intros p [= ->]. lia.
Qed.

Lemma bolt_last_ok ctx svc b r : BoltPersistence_Last ctx svc b = Ok r → ∀ p, r = Some p → bo_accepted b !! svc = Some (Row p).
Proof.
  unfold BoltPersistence_Last. intros H p ->. inv_ok.
  destruct (bo_accepted b !! svc) as [raw|]; inv_ok; [|done].
  rename select (unmarshal raw = _) into Hraw. apply unmarshal_Some in Hraw as ->. congruence.
Qed.

#[export] Instance bolt_laws : PersistenceLaws BoltPersistence.
Proof.
  split; simpl.
  - intros ctx svc a s s' [Ha [[-> _]|[-> Hs]]]%bolt_accept_ok; unfold BoltPersistence_Last; simpl;
      rewrite ?lookup_insert_eq, ?Hs; simpl; by rewrite Ha.
  - intros ctx svc a s s' svc' [_ [[-> _]|[-> _]]]%bolt_accept_ok Hne; [|done].
    unfold BoltPersistence_Last. simpl. by rewrite lookup_insert_ne.
  - intros ctx svc a s s' p [_ Hc]%bolt_accept_ok Hl. pose proof (bolt_last_ok _ _ _ _ Hl p eq_refl) as Hp.
    destruct Hc as [[_ Hlt]|[-> Hs]]; [left; auto|right]. by rewrite Hp in Hs; simplify_eq.
  - intros ctx svc s r H. unfold BoltPersistence_Last in *. inv_ok. bool_facts. by subst.
Qed.
