(* ===== verification/TrustEpochFacts.v ===== *)
(** * Trust epochs: lemmas

    The branches of the verifier of [TrustEpoch], the invariant its steps
    keep, and the exactness of the inventory check.  Everything about the
    durable record is proved from the laws of the [Persistence] interface. *)

From Stdlib Require Import ZArith Lia Bool.
From stdpp Require Import base tactics decidable option list numbers strings gmap sorting relations.
From S2P Require Import Prelude Bytes Nostr EventID OutboxData TrustEpoch.

(** ** Envelopes *)

Section envelopes.
Context `{NostrPrims} `{TrustJSON}.

(** What a parsed epoch is known to be. *)
Record epoch_event (root svc : string) (ev : Event) (body : Epoch) : Prop := {
  ee_author : hex (ev_PubKey ev) = root;
  ee_id : CheckID ev = true;
  ee_signature : VerifySignature ev = true;
  ee_content : decode_epoch (ev_Content ev) = Some (body, true);
  ee_service : exactly (ev_Tags ev) "d" ("trust-epoch:" +:+ svc) = true;
  ee_epoch : ep_Epoch body ≠ 0;
  ee_keys : ep_OldPubkey body ≠ ep_NewPubkey body ∧ ep_OldPubkey body ≠ root ∧ ep_NewPubkey body ≠ root;
  ee_roster : ∀ id, id ∈ ConsumerIDs → ∃ ids, ep_ConsumerRoster body = Some ids ∧ id ∈ ids;
}.

Lemma Parse_ok ev svc root body : Parse ev svc root = Ok body → epoch_event root svc ev body.
Proof.
  unfold Parse. destruct (decode_epoch (ev_Content ev)) as [[b at_end]|] eqn:Ed; intros Hp; inv_ok; [|done].
  simplify_eq/=. inv_ok. subst. bool_facts.
  repeat match goal with H : String.eqb _ _ = true |- _ => apply String.eqb_eq in H
                    | H : String.eqb _ _ = false |- _ => apply String.eqb_neq in H end.
  split; try done.
  intros id Hid. destruct (ep_ConsumerRoster body) as [ids|] eqn:E; [|done]. exists ids. split; [done|].
  simpl in *. unfold ConsumerIDs in Hid. simpl in Hid. rewrite !elem_of_cons, elem_of_nil in Hid.
  destruct_or?; by subst.
Qed.
End envelopes.

(** ** Heads *)

Section heads.
Context `{NostrPrims} `{TrustJSON} {S : Type} `{!Persistence S} `{!PersistenceLaws S}.
Implicit Types (v : Verifier) (s : S).

Lemma check_head_ok v last svc ev body : check_head v last svc ev = Ok body →
  epoch_event (vf_OperatorRoot v) svc ev body ∧
  match last with
  | None => ep_OldPubkey body = vf_LegacyPubkey v
  | Some last => last = accepted_of body ev ∨ ac_Epoch last < ep_Epoch body ∧ ep_OldPubkey body = key_in_force last
  end.
Proof.
  unfold check_head. intros Hc. inv_ok. rename select (Parse _ _ _ = _) into Hp. apply Parse_ok in Hp.
  destruct last as [last|]; inv_ok; subst; [|split; [done|by apply String.eqb_eq]].
  split; [done|]. destruct (Z.eqb_spec (ep_Epoch body) (ac_Epoch last)) as [E|E]; simpl in *; bool_facts.
  - left. repeat match goal with H : String.eqb _ _ = true |- _ => apply String.eqb_eq in H end.
    rename select (Bool.eqb _ _ = true) into Ha. apply eqb_prop in Ha.
    destruct last. unfold accepted_of. simpl in *. congruence.
  - right. rename select (_ && _ = false) into Hk. rewrite (proj2 (Z.ltb_lt _ _)) in Hk by lia. simpl in Hk.
    bool_facts. apply String.eqb_eq in Hk. split; [lia|done].
Qed.

Lemma AcceptHead_ok v ctx svc ev s r s' : AcceptHead v ctx svc ev s = Ok (r, s') →
  ∃ last body, Last false svc s = Ok last ∧ check_head v last svc ev = Ok body ∧
    Accept (ctx 1%nat) svc (accepted_of body ev) s = Ok s' ∧
    rs_ServiceID r = svc ∧ rs_Epoch r = ep_Epoch body ∧ rs_Record r = Some body ∧ rs_EventID r = hex (ev_ID ev) ∧
    rs_Pubkey r = (if ep_Activated body then ep_NewPubkey body else ep_OldPubkey body) ∧
    rs_Inventory r = (if ep_Activated body then inventory_of v (ctx 2%nat) svc body else None).
Proof.
  unfold AcceptHead. intros Ha. inv_ok. rename select (Last _ _ _ = _) into Hl. apply last_uncancelled in Hl.
  subst. eexists _, _. split; [done|]. split; [done|]. split; [done|]. by destruct (ep_Activated _).
Qed.

Lemma ServiceIdentity_ok v ctx svc s r s' : ServiceIdentity v ctx svc s = Ok (r, s') →
  (Last false svc s = Ok None ∧ s' = s ∧ r = mkResolution svc (vf_LegacyPubkey v) 0 None "" None) ∨
  ∃ ctx' ev, AcceptHead v ctx' svc ev s = Ok (r, s').
Proof.
  unfold ServiceIdentity. intros Ha. inv_ok. rename select (option Event * bool)%type into head.
  destruct head as [ev present]. rename select (Last _ _ _ = _) into Hl. apply last_uncancelled in Hl.
  destruct present; simpl in *; inv_ok; [right; eauto|]. case_match; inv_ok. left. by simplify_eq.
Qed.

(** *** Steps of the record *)

(** Any caller, any service, any interleaving of verifiers: one write. *)
Inductive record_step : relation S :=
| step_accept ctx svc a s s' : Accept ctx svc a s = Ok s' → record_step s s'.

(** One verifier at work: every call it makes runs to its end before the next
    begins. *)
Inductive verifier_step (v : Verifier) : relation S :=
| step_head ctx svc ev s r s' : AcceptHead v ctx svc ev s = Ok (r, s') → verifier_step v s s'
| step_identity ctx svc s r s' : ServiceIdentity v ctx svc s = Ok (r, s') → verifier_step v s s'.

Definition advances (a a' : Accepted) : Prop := ac_Epoch a < ac_Epoch a' ∨ a' = a.

Lemma accept_advances ctx svc a s s' svc' p : Accept ctx svc a s = Ok s' → Last false svc' s = Ok (Some p) →
  ∃ p', Last false svc' s' = Ok (Some p') ∧ advances p p'.
Proof.
  intros Ha Hl. destruct (decide (svc' = svc)) as [->|Hne].
  - exists a. split; [by eapply accept_last|]. destruct (accept_later _ _ _ _ _ _ Ha Hl) as [|[-> _]]; [by left|by right].
  - exists p. split; [|by right]. by rewrite (accept_other _ _ _ _ _ _ Ha Hne).
Qed.

Lemma record_advances s s' svc p : rtc record_step s s' → Last false svc s = Ok (Some p) →
  ∃ p', Last false svc s' = Ok (Some p') ∧ advances p p'.
Proof.
  intros Hs. revert p. induction Hs as [s|s s1 s' Hstep _ IH]; intros p Hl; [exists p; by split; [|right]|].
  destruct Hstep as [ctx svc' a s s1 Ha].
  destruct (accept_advances _ _ _ _ _ _ _ Ha Hl) as (p1 & Hl1 & Hle). destruct (IH p1 Hl1) as (p' & Hl' & Hle').
  exists p'. split; [done|]. unfold advances in *. destruct Hle as [? | ->], Hle' as [? | ->]; (by right) || (left; lia).
Qed.

(** *** The key chain *)

(** A key is certified at an epoch when operator-root-signed transitions of
    increasing epochs lead to it from the configured legacy key. *)
Inductive certified (v : Verifier) (svc : string) : Z → string → Prop :=
| certified_legacy : certified v svc 0 (vf_LegacyPubkey v)
| certified_later n m k : certified v svc n k → n ≤ m → certified v svc m k
| certified_epoch n ev body :
    certified v svc n (ep_OldPubkey body) → n < ep_Epoch body → epoch_event (vf_OperatorRoot v) svc ev body →
    ep_Activated body = true → certified v svc (ep_Epoch body) (ep_NewPubkey body).

(** The stored head leads from a certified key, and its own event certifies
    the key it puts in force. *)
Definition chain_inv (v : Verifier) (svc : string) (s : S) : Prop :=
  ∀ a, Last false svc s = Ok (Some a) → certified v svc (ac_Epoch a) (key_in_force a).

Lemma check_head_certified v last svc ev body : check_head v last svc ev = Ok body → 0 ≤ ep_Epoch body →
  (∀ a, last = Some a → certified v svc (ac_Epoch a) (key_in_force a)) →
  certified v svc (ep_Epoch body) (key_in_force (accepted_of body ev)).
Proof.
  intros Hc Hpos Hl. apply check_head_ok in Hc as [Hev Hc].
  assert ((∃ n, n < ep_Epoch body ∧ certified v svc n (ep_OldPubkey body)) ∨
          ∃ a, last = Some a ∧ a = accepted_of body ev) as [(n & Hn & Ho)|(a & -> & ->)].
  - destruct last as [a|].
    + destruct Hc as [->|[Hlt Ho]]; [right; eauto|left]. exists (ac_Epoch a). rewrite Ho. auto.
    + left. exists 0. rewrite Hc. split; [pose proof (ee_epoch _ _ _ _ Hev); lia|constructor].
  - unfold key_in_force. simpl. destruct (ep_Activated body) eqn:E.
    + by eapply certified_epoch.
    + eapply certified_later; [done|lia].
  - by apply (Hl _ eq_refl).
Qed.

(** JSON gives the epoch field its unsigned type. *)
Definition epochs_unsigned : Prop := ∀ c body e, decode_epoch c = Some (body, e) → 0 ≤ ep_Epoch body < two64.

Lemma AcceptHead_chain v ctx svc ev s r s' svc' : epochs_unsigned →
  AcceptHead v ctx svc ev s = Ok (r, s') → chain_inv v svc' s →
  chain_inv v svc' s' ∧ (svc' = svc → certified v svc (rs_Epoch r) (rs_Pubkey r)).
Proof.
  intros Hu Ha Hs. apply AcceptHead_ok in Ha as (last & body & Hl & Hc & Ha & _ & Hre & _ & _ & Hrp & _).
  pose proof (check_head_ok _ _ _ _ _ Hc) as [Hev _].
  assert (0 ≤ ep_Epoch body) as Hpos by by destruct (Hu _ _ _ (ee_content _ _ _ _ Hev)).
  destruct (decide (svc' = svc)) as [->|Hne].
  - assert (certified v svc (ep_Epoch body) (key_in_force (accepted_of body ev))) as Hk.
    { eapply check_head_certified; [done..|]. intros a ->. by apply Hs. }
    split; [|intros _; by rewrite Hre, Hrp].
    intros a. rewrite (accept_last _ _ _ _ _ Ha). by intros [= <-].
  - split; [|done]. intros a. rewrite (accept_other _ _ _ _ _ _ Ha Hne). apply Hs.
Qed.

Lemma verifier_steps_chain v s s' svc : epochs_unsigned → rtc (verifier_step v) s s' → chain_inv v svc s → chain_inv v svc s'.
Proof.
  intros Hu. induction 1 as [|s s1 s' Hstep _ IH]; [done|]. intros Hs. apply IH.
  destruct Hstep as [ctx svc' ev s r s1 Ha|ctx svc' s r s1 Ha]; [by eapply AcceptHead_chain|].
  apply ServiceIdentity_ok in Ha as [(_ & -> & _)|(ctx' & ev & Ha)]; [done|by eapply AcceptHead_chain].
Qed.
End heads.

(** ** The inventory *)

Section inventory.
Context `{NostrPrims} `{TrustJSON}.

(** On a sorted list, comparing neighbours finds every repetition. *)
Lemma distinct_ids_spec ids previous : StronglySorted bytes_le ids →
  (∀ x, previous = Some x → Forall (bytes_le x) ids) →
  distinct_ids previous ids = true ↔
    Forall (λ id, validHex64 id = true) ids ∧ NoDup ids ∧ (∀ x, previous = Some x → x ∉ ids).
Proof.
  intros Hs. revert previous. induction Hs as [|id ids Hs IH Hid]; intros previous Hp; simpl.
  { split; [|done]. intros _. split_and!; [done|constructor|]. intros x _. apply not_elem_of_nil. }
  rewrite !andb_true_iff, negb_true_iff, bool_decide_eq_false, IH, Forall_cons, NoDup_cons by naive_solver.
  split.
  - intros ((Hv & Hne) & Hvs & Hn & Hnot). split_and!; try done; [by apply Hnot|].
    intros x -> [->|Hx]%elem_of_cons; [done|]. rewrite Forall_forall in Hid.
    assert (x = id) as ->; [|done]. apply (anti_symm bytes_le); [|by apply Hid].
    specialize (Hp x eq_refl). by apply Forall_cons in Hp as [Hp _].
  - intros ((Hv & Hvs) & (Hnot & Hn) & Hp'). split_and!; try done; [|by intros x [= <-]].
    intros ->. destruct (Hp' id eq_refl). by left.
Qed.

Lemma validHex64_length s : validHex64 s = true → String.length s = 64%nat.
Proof. unfold validHex64. intros. bool_facts. by apply Nat.eqb_eq. Qed.

Lemma length_join_cons sep s l : l ≠ [] →
  String.length (join sep (s :: l)) = (String.length s + (String.length sep + String.length (join sep l)))%nat.
Proof. destruct l as [|t l]; [done|]. intros _. cbn [join]. by rewrite !length_app_string. Qed.

(** Joined ids can be told apart again, since they have one length. *)
Lemma join_inj l1 l2 : Forall (λ s, String.length s = 64%nat) l1 → Forall (λ s, String.length s = 64%nat) l2 →
  join newline l1 = join newline l2 → l1 = l2.
Proof.
  intros Hf1. revert l2. induction Hf1 as [|s l1 Hs1 Hf1 IH]; intros l2 Hf2 E.
  { destruct Hf2 as [|t l2 Ht _]; [done|]. destruct l2; [simpl in E; by subst|].
    apply (f_equal String.length) in E. rewrite length_join_cons in E by done. simpl in E. lia. }
  destruct Hf2 as [|t l2 Ht Hf2].
  { destruct l1; [simpl in E; by subst|]. apply (f_equal String.length) in E.
    rewrite length_join_cons in E by done. simpl in E. lia. }
  destruct l1 as [|s' l1], l2 as [|t' l2].
  - simpl in E. by subst.
  - apply (f_equal String.length) in E. rewrite (length_join_cons _ t) in E by done. simpl in E. lia.
  - apply (f_equal String.length) in E. rewrite (length_join_cons _ s) in E by done. simpl in E. lia.
  - cbn [join] in E. apply app_string_inj in E as [-> E]; [|lia]. f_equal. apply IH; [done|].
    by apply app_string_inj in E as [_ E].
Qed.

Definition sorted_ids (l : list string) : list string := merge_sort bytes_le l.

Lemma sorted_ids_sorted l : StronglySorted bytes_le (sorted_ids l).
Proof. apply (StronglySorted_merge_sort bytes_le). Qed.

Lemma sorted_ids_perm l : sorted_ids l ≡ₚ l.
Proof. apply merge_sort_Permutation. Qed.

Lemma CheckInventory_iff ids digest count set :
  CheckInventory ids digest count = Ok set ↔
  ∃ l, ids = Some l ∧ Z.of_nat (length l) = count ∧ Forall (λ id, validHex64 id = true) l ∧ NoDup l ∧
       validHex64 digest = true ∧ hex (sha256 (join newline (sorted_ids l))) = digest ∧ set = list_to_set l.
Proof.
  assert (∀ l, distinct_ids None (sorted_ids l) = true ↔ Forall (λ id, validHex64 id = true) l ∧ NoDup l) as Hd.
  { intros l. rewrite distinct_ids_spec by first [apply sorted_ids_sorted|done]. rewrite sorted_ids_perm. naive_solver. }
  assert (∀ l, list_to_set (sorted_ids l) =@{gset string} list_to_set l) as Hset.
  { intros l. apply set_eq. intros x. by rewrite !elem_of_list_to_set, sorted_ids_perm. }
  unfold CheckInventory. change (merge_sort bytes_le) with sorted_ids. split.
  - intros Hc. inv_ok. bool_facts. rename select (distinct_ids _ _ = true) into Hdis. apply Hd in Hdis as [??].
    eexists. split_and!; [done|done|done|done|done|by apply String.eqb_eq|]. by rewrite <- Hset.
  - intros (l & -> & <- & Hv & Hn & Hdig & <- & ->). simpl. rewrite (proj2 (Z.ltb_ge _ _)), Z.eqb_refl, Hdig by lia. simpl.
    rewrite (proj2 (Hd l)) by done. simpl. rewrite String.eqb_refl. simpl. by rewrite Hset.
Qed.
End inventory.

(** ** Receipts *)

Section receipts.
Context `{NostrPrims} `{TrustJSON}.

Lemma receipt_tags_checked prefix svc consumer schema epoch :
  receipt_tags_ok (receipt_tags prefix svc consumer schema epoch) prefix svc consumer schema epoch = true.
Proof. unfold receipt_tags_ok, exactly, receipt_tags. cbn -[FormatUint]. by rewrite !String.eqb_refl. Qed.

Lemma ack_verified ev r consumer authority attested :
  VerifyAcknowledgmentAuthority ev r consumer authority attested = true →
  ∃ body, decode_ack (ev_Content ev) = Some (body, true) ∧ validHex64 authority = true ∧
    consumer = ak_ConsumerID body ∧ authority = hex (ev_PubKey ev) ∧ rs_ServiceID r = ak_ServiceID body ∧
    rs_Epoch r = ak_Epoch body ∧ rs_EventID r = ak_EpochEventID body ∧ rs_Pubkey r = ak_EnforcingPubkey body ∧
    ak_AttestedBy body = (if attested then hex (ev_PubKey ev) else "") ∧ hex (ev_PubKey ev) ≠ "" ∧ is_Some (activated r).
Proof.
  unfold VerifyAcknowledgmentAuthority. destruct (activated r) as [record|]; [|done].
  destruct (decode_ack (ev_Content ev)) as [[body at_end]|]; [|by rewrite andb_false_r]. intros Hv. bool_facts.
  repeat match goal with Heq : String.eqb _ _ = true |- _ => apply String.eqb_eq in Heq end. subst.
  eexists. split_and!; try done. intros E. rename select (validHex64 (hex _) = true) into Hx. by rewrite E in Hx.
Qed.
End receipts.

(** ** The local source *)

(** [s] is the hex form of [pk], in either letter case. *)
Definition hex_of (s pk : string) : Prop := unhex s = Some pk.

Lemma PubKeyFromHex_hex `{NostrPrims} s pk : PubKeyFromHex s = Some pk → hex_of s pk.
Proof. unfold PubKeyFromHex, id_from_hex. intros. repeat case_match; simplify_eq; done. Qed.

(** [a] is the head that wins over [b]: newer, or as new with a lower id. *)
Definition heads_over (a b : Event) : Prop :=
  ev_CreatedAt b < ev_CreatedAt a ∨ ev_CreatedAt a = ev_CreatedAt b ∧ bytes_le (hex (ev_ID a)) (hex (ev_ID b)).

#[export] Instance heads_over_preorder : PreOrder heads_over.
Proof.
  split; [intros a; right; by split|]. intros a b c [Hab|[Hab Iab]] [Hbc|[Hbc Ibc]]; [left; lia..|].
  right. split; [lia|]. by transitivity (hex (ev_ID b)).
Qed.

Lemma newest_spec events head :
  match newest head events with
  | None => head = None ∧ events = []
  | Some h => (head = Some h ∨ h ∈ events) ∧ (∀ h0, head = Some h0 → heads_over h h0) ∧ ∀ ev, ev ∈ events → heads_over h ev
  end.
Proof.
  revert head. induction events as [|ev events IH]; intros head; simpl.
  { destruct head as [h|]; [|done]. split; [by left|]. split; [by intros ? [= <-]|]. intros ev Hev. by apply not_elem_of_nil in Hev. }
  assert (∀ h, (∀ h0, head = Some h0 → heads_over h h0) → (head = Some h ∨ h = ev) → heads_over h ev →
            match newest (Some h) events with
            | None => head = None ∧ ev :: events = []
            | Some r => (head = Some r ∨ r ∈ ev :: events) ∧ (∀ h0, head = Some h0 → heads_over r h0) ∧
                        ∀ e, e ∈ ev :: events → heads_over r e end) as Hstep.
  { intros h Hh Hin Hev. specialize (IH (Some h)). destruct (newest (Some h) events) as [r|]; [|naive_solver].
    destruct IH as (Hr & Hover & Hall). specialize (Hover h eq_refl). split_and!.
    - rewrite elem_of_cons. destruct Hr as [[= <-]|]; [|auto]. destruct Hin as [? | ->]; auto.
    - intros h0 E. transitivity h; auto.
    - intros e [->|He]%elem_of_cons; [by transitivity h|auto]. }
  destruct head as [h|]; [|apply Hstep; naive_solver].
  destruct (Z.ltb_spec (ev_CreatedAt h) (ev_CreatedAt ev)); simpl.
  { apply Hstep; [intros h0 [= <-]; by left|by right|done]. }
  destruct (Z.eqb_spec (ev_CreatedAt ev) (ev_CreatedAt h)); simpl.
  - destruct (bytes_ltb _ _) eqn:E.
    + apply bytes_ltb_spec in E as [E _]. apply Hstep; [intros h0 [= <-]; by right|by right|done].
    + apply bytes_ltb_false in E. apply Hstep; [by intros h0 [= <-]|by left|]. by right.
  - apply Hstep; [by intros h0 [= <-]|by left|]. left. lia.
Qed.

(** ** Decisions *)

Section decisions.
Context `{NostrPrims}.
Implicit Types (r : Resolution) (ev : Event).

Lemma judge_accept r ev : Resolution_JudgeEvent r ev = DecAccept ↔
  CheckID ev = true ∧ VerifySignature ev = true ∧ hex (ev_PubKey ev) = rs_Pubkey r.
Proof.
  unfold Resolution_JudgeEvent. destruct (CheckID ev), (VerifySignature ev); simpl; try naive_solver.
  destruct (String.eqb_spec (hex (ev_PubKey ev)) (rs_Pubkey r)); [naive_solver|].
  split; [|naive_solver]. repeat case_match; done.
Qed.

Lemma judge_pre_epoch r ev : Resolution_JudgeEvent r ev = DecPreEpochAccepted ↔
  CheckID ev = true ∧ VerifySignature ev = true ∧ hex (ev_PubKey ev) ≠ rs_Pubkey r ∧
  ∃ record inventory, rs_Record r = Some record ∧ rs_Inventory r = Some inventory ∧ ep_Activated record = true ∧
    hex (ev_PubKey ev) = ep_OldPubkey record ∧ ev_CreatedAt ev ≤ ep_ActivationBarrier record ∧ hex (ev_ID ev) ∈ inventory.
Proof.
  unfold Resolution_JudgeEvent. destruct (CheckID ev), (VerifySignature ev); simpl; try naive_solver.
  destruct (String.eqb_spec (hex (ev_PubKey ev)) (rs_Pubkey r)); [naive_solver|].
  destruct (rs_Record r) as [record|], (rs_Inventory r) as [inventory|]; try naive_solver.
  destruct (_ && _) eqn:E.
  - bool_facts. rename select (String.eqb _ _ = true) into Hk. apply String.eqb_eq in Hk. naive_solver.
  - split; [done|]. intros (_ & _ & _ & rec & inv & [= <-] & [= <-] & Ha & Hk & Hb & Hi).
    rewrite Ha, Hk, String.eqb_refl, (proj2 (Z.leb_le _ _)), bool_decide_eq_true_2 in E; done.
Qed.
End decisions.
