(* ===== verification/TrustEpochProps.v ===== *)
(** * Trust epochs: properties

    What the verifier of [TrustEpoch] guarantees: accepted heads only advance
    under any interleaving, a key is only resolved when the operator root's
    signatures lead to it, old-key events need the signed inventory, and
    receipts bind what they acknowledge; and two behaviours its comments do
    not announce.  The sample at the end is one service moved three times. *)

From Stdlib Require Import ZArith Lia Bool.
From stdpp Require Import base tactics decidable option list numbers strings gmap sorting relations.
From S2P Require Import Prelude Bytes Nostr EventID OutboxData SampleDigest TrustEpoch TrustEpochFacts.

(** ** Properties *)

Section properties.
Context `{NostrPrims} `{TrustJSON}.
Implicit Types (v : Verifier) (s : BoltPersistence).

(** C6: whatever calls and verifiers write to the record file, in whatever
    order, the accepted head of a service is never lost and only ever
    replaced by a head of a later epoch. *)
Theorem heads_only_advance s s' svc a :
  rtc record_step s s' → BoltPersistence_Last false svc s = Ok (Some a) →
  ∃ a', BoltPersistence_Last false svc s' = Ok (Some a') ∧ (ac_Epoch a < ac_Epoch a' ∨ a' = a).
Proof. intros Hs Hl. exact (record_advances s s' svc a Hs Hl). Qed.

(** C8: a verifier whose calls run one after the other resolves a service only
    to the legacy key or to a key that activated transitions of increasing
    epochs, each an event signed by the operator root, lead to from it. *)
Theorem resolved_key_certified v s svc ctx r s' :
  epochs_unsigned → rtc (verifier_step v) (mkBolt ∅) s → ServiceIdentity v ctx svc s = Ok (r, s') →
  certified v svc (rs_Epoch r) (rs_Pubkey r).
Proof.
  intros Hu Hs Hr. assert (chain_inv v svc s) as Hinv.
  { eapply verifier_steps_chain; [done..|]. intros a Ha. by apply bolt_last_ok with (p := a) in Ha. }
  apply ServiceIdentity_ok in Hr as [(_ & _ & ->)|(ctx' & ev & Ha)]; [constructor|].
  destruct (AcceptHead_chain v ctx' svc ev s r s' svc Hu Ha Hinv) as [_ Hk]. auto.
Qed.

(** A resolution is durable before it is returned: with an epoch it is
    the head now on record, and without one no head was ever accepted and the
    key is the legacy key.  So a head that disappears after it was accepted
    is an error, never a way back to the legacy key. *)
Theorem identity_durable v ctx svc s r s' :
  ServiceIdentity v ctx svc s = Ok (r, s') →
  match rs_Record r with
  | None => BoltPersistence_Last false svc s = Ok None ∧ s' = s ∧ rs_Pubkey r = vf_LegacyPubkey v
  | Some body =>
      BoltPersistence_Last false svc s' =
        Ok (Some (mkAccepted (ep_Epoch body) (rs_EventID r) (ep_OldPubkey body) (ep_NewPubkey body) (ep_Activated body))) ∧
      rs_Pubkey r = (if ep_Activated body then ep_NewPubkey body else ep_OldPubkey body) ∧
      ∃ ev, epoch_event (vf_OperatorRoot v) svc ev body ∧ rs_EventID r = hex (ev_ID ev)
  end.
Proof.
  intros [(Hl & -> & ->)|(ctx' & ev & Ha)]%ServiceIdentity_ok; [done|].
  apply AcceptHead_ok in Ha as (last & body & _ & Hc & Ha & _ & _ & -> & -> & Hk & _).
  apply check_head_ok in Hc as [Hev _]. split; [exact (accept_last _ _ _ _ _ Ha)|]. split; [done|]. by exists ev.
Qed.

(** An event is accepted exactly when it is correctly signed by the key in
    force, and admitted as older than the epoch exactly when it is correctly
    signed by the old key of an activated epoch, dated up to the barrier and
    listed in the verified inventory; everything else is hostile. *)
Theorem JudgeEvent_exact r ev :
  (Resolution_JudgeEvent r ev = DecAccept ↔
     CheckID ev = true ∧ VerifySignature ev = true ∧ hex (ev_PubKey ev) = rs_Pubkey r) ∧
  (Resolution_JudgeEvent r ev = DecPreEpochAccepted ↔
     CheckID ev = true ∧ VerifySignature ev = true ∧ hex (ev_PubKey ev) ≠ rs_Pubkey r ∧
     ∃ record inventory, rs_Record r = Some record ∧ rs_Inventory r = Some inventory ∧ ep_Activated record = true ∧
       hex (ev_PubKey ev) = ep_OldPubkey record ∧ ev_CreatedAt ev ≤ ep_ActivationBarrier record ∧
       hex (ev_ID ev) ∈ inventory).
Proof. split; [apply judge_accept|apply judge_pre_epoch]. Qed.

(** C34: an event an activated epoch admits by inventory is on a list of event
    ids whose length and digest the operator root signed in that epoch. *)
Theorem admitted_by_signed_inventory v ctx svc head s r s' ev :
  AcceptHead v ctx svc head s = Ok (r, s') → Resolution_JudgeEvent r ev = DecPreEpochAccepted →
  ∃ body l, epoch_event (vf_OperatorRoot v) svc head body ∧ ep_Activated body = true ∧
    NoDup l ∧ Z.of_nat (length l) = ep_InventoryCount body ∧
    hex (sha256 (join newline (sorted_ids l))) = ep_InventoryDigest body ∧
    hex (ev_ID ev) ∈ l ∧ hex (ev_PubKey ev) = ep_OldPubkey body ∧ ev_CreatedAt ev ≤ ep_ActivationBarrier body.
Proof.
  intros Ha Hj. apply AcceptHead_ok in Ha as (last & body & _ & Hc & _ & _ & _ & Hrec & _ & _ & Hinv).
  apply check_head_ok in Hc as [Hev _]. apply judge_pre_epoch in Hj.
  destruct Hj as (_ & _ & _ & record & inventory & Hr & Hi & Hact & Hk & Hb & Hin). rewrite Hrec in Hr. injection Hr as <-.
  rewrite Hi, Hact in Hinv. unfold inventory_of in Hinv. repeat case_match; try done. simplify_eq.
  rename select (CheckInventory _ _ _ = _) into Hci. apply CheckInventory_iff in Hci as (l & -> & Hl & _ & Hn & _ & Hd & ->).
  exists body, l. by rewrite elem_of_list_to_set in Hin.
Qed.

(** An inventory check passes for exactly one set of ids per signed
    digest, where SHA-256 does not collide: order does not matter, and no
    other artifact, whatever its count, passes under the same digest. *)
Theorem inventory_digest_binds `{!NostrLaws} ids1 ids2 digest count1 count2 set1 set2 :
  CheckInventory ids1 digest count1 = Ok set1 → CheckInventory ids2 digest count2 = Ok set2 →
  set1 = set2 ∧ count1 = count2.
Proof.
  intros (l1 & _ & Hc1 & Hv1 & _ & Hd & E1 & ->)%CheckInventory_iff (l2 & _ & Hc2 & Hv2 & _ & _ & E2 & ->)%CheckInventory_iff.
  assert (∀ l : list string, Forall (λ id, validHex64 id = true) l → Forall (λ x, String.length x = 64%nat) (sorted_ids l)) as Hlen.
  { intros l Hl. rewrite sorted_ids_perm. eapply Forall_impl; [done|]. apply validHex64_length. }
  assert (sorted_ids l1 = sorted_ids l2) as E.
  { apply join_inj; auto. apply sha256_collision_free; [|apply (inj hex); congruence].
    apply validHex64_length in Hd. rewrite <- E1, length_hex in Hd. lia. }
  assert (l1 ≡ₚ l2) as Hp by by rewrite <- (sorted_ids_perm l1), E, sorted_ids_perm.
  split; [|rewrite <- Hc1, <- Hc2; by rewrite Hp]. apply set_eq. intros x. by rewrite !elem_of_list_to_set, Hp.
Qed.

(** An acknowledgment that verifies for one consumer of one resolution
    verifies for no other consumer, service, epoch, epoch event, enforced key
    or signing authority, and only for an activated epoch. *)
Theorem acknowledgment_binds ev r r' consumer consumer' authority authority' attested attested' :
  VerifyAcknowledgmentAuthority ev r consumer authority attested = true →
  VerifyAcknowledgmentAuthority ev r' consumer' authority' attested' = true →
  consumer = consumer' ∧ authority = authority' ∧ rs_ServiceID r = rs_ServiceID r' ∧ rs_Epoch r = rs_Epoch r' ∧
  rs_EventID r = rs_EventID r' ∧ rs_Pubkey r = rs_Pubkey r' ∧ is_Some (activated r) ∧ attested = attested'.
Proof.
  intros Hv Hv'. apply ack_verified in Hv as (body & Hd & Ha & -> & -> & -> & -> & -> & -> & Hat & Hne & Hact).
  apply ack_verified in Hv' as (body' & Hd' & Ha' & -> & -> & -> & -> & -> & -> & Hat' & Hne' & _).
  rewrite Hd in Hd'. injection Hd' as <-. split_and!; try done. destruct attested, attested'; congruence.
Qed.

(** The unsigned acknowledgment the code builds verifies once it is
    signed by the authority it names, provided its JSON content decodes to
    what was encoded. *)
Theorem acknowledgment_roundtrip r record consumer createdAt authority attested u ev :
  let attestedBy := if attested : bool then authority else "" in
  activated r = Some record → validHex64 authority = true →
  NewAcknowledgmentForAuthority r consumer createdAt attestedBy = Some u →
  decode_ack (encode_ack (ack_of r record consumer attestedBy)) = Some (ack_of r record consumer attestedBy, true) →
  ev_Kind ev = ev_Kind u → ev_Tags ev = ev_Tags u → ev_Content ev = ev_Content u →
  hex (ev_PubKey ev) = authority → CheckID ev = true → VerifySignature ev = true →
  VerifyAcknowledgmentAuthority ev r consumer authority attested = true.
Proof.
  intros attestedBy Hact Hau Hnew Hj Hk Ht Hc Hpk Hid Hsig. unfold NewAcknowledgmentForAuthority in Hnew.
  rewrite Hact in Hnew. case_match; [|done]. injection Hnew as <-. bool_facts. simpl in Hk, Ht, Hc.
  unfold VerifyAcknowledgmentAuthority. rewrite Hact, Hk, Ht, Hc, Hj, Hid, Hsig, Hpk, Hau, receipt_tags_checked.
  rename select (Registered _ = true) into Hreg. rename select (validHex64 (rs_Pubkey r) = true) into Hp. rewrite Hreg, Hp.
  simpl. by rewrite !String.eqb_refl, Z.eqb_refl, ?String.eqb_refl.
Qed.

(** A readiness record that validates verifies against itself once the
    operator root has signed it, provided its JSON content decodes to what
    was encoded and the root is not the key it enforces. *)
Theorem readiness_roundtrip value createdAt root u ev :
  NewReadiness value createdAt = Some u → decode_readiness (encode_readiness value) = Some (value, true) →
  validHex64 root = true → root ≠ ry_EnforcingPubkey value →
  ev_Kind ev = ev_Kind u → ev_Tags ev = ev_Tags u → ev_Content ev = ev_Content u →
  hex (ev_PubKey ev) = root → CheckID ev = true → VerifySignature ev = true →
  VerifyReadiness ev value root = true.
Proof.
  intros Hnew Hj Hr Hne Hk Ht Hc Hpk Hid Hsig. unfold NewReadiness in Hnew.
  destruct (validReadiness value) eqn:Hv; [|done]. injection Hnew as <-. simpl in Hk, Ht, Hc.
  unfold VerifyReadiness. rewrite Hk, Ht, Hc, Hj, Hid, Hsig, Hpk, Hr, Hv, receipt_tags_checked.
  rewrite (proj2 (String.eqb_neq _ _) Hne), !String.eqb_refl, !Z.eqb_refl.
  unfold validReadiness in Hv. bool_facts.
  repeat match goal with H : ?b = _ |- context [?b] => rewrite H end.
  by rewrite (proj2 (Z.eqb_neq _ _)).
Qed.

(** The local source offers the stored head that wins over every other
    stored epoch of the service: the newest, and the lowest id among equals;
    it offers none only when none is stored. *)
Theorem LocalSource_newest query svc root r :
  LocalSource_Head query false svc root = Ok r →
  ∃ pk, hex_of root pk ∧
    let events := query kindCPState pk ("trust-epoch:" +:+ svc) in
    match r with
    | (Some h, true) => h ∈ events ∧ ∀ ev, ev ∈ events → heads_over h ev
    | (None, false) => events = []
    | _ => False
    end.
Proof.
  unfold LocalSource_Head. intros Hh. inv_ok. rename select (PubKeyFromHex _ = _) into Hpk. simpl in *.
  eexists. split; [exact (PubKeyFromHex_hex _ _ Hpk)|]. subst r.
  match goal with |- context [newest None ?l] => pose proof (newest_spec l None) as Hn end.
  destruct (newest None _) as [h|]; simpl; [|by destruct Hn].
  destruct Hn as ([|Hin] & _ & Hall); [done|]. by split.
Qed.
End properties.

(** ** A service moved three times *)

Module TrustSample.

Definition root_key : string := key_of 210.
Definition old_id : string := key_of 50.

(** The epoch contents, by name. *)
Definition move (n : Z) (old new : Z) : Epoch :=
  mkEpoch "incident" n (hex (key_of old)) (hex (key_of new)) (Some []) 5000 (hex (key_of 60)) 1 (Some ConsumerIDs) true.

Definition contents : list (string * Epoch) :=
  [("one", move 1 211 212); ("two", move 2 212 213); ("three", move 3 213 214); ("fork", move 2 211 215)]%string.

Definition head (id : Z) (epoch content : string) : Event :=
  mkEvent (key_of id) root_key 1000 kindCPState
    [["d"; "trust-epoch:bahia"]; ["t"; Topic]; ["domain"; Domain]; ["schema"; Schema]; ["legacy_kind"; "32052"];
     ["deleted"; "false"]; ["epoch"; epoch]] content sig_of.

Definition one : Event := head 1 "1" "one".
Definition two : Event := head 2 "2" "two".
Definition three : Event := head 3 "3" "three".
Definition fork : Event := head 4 "2" "fork".

(** An event of the second key's generation, and one of the legacy key's. *)
Definition stray : Event := mkEvent (key_of 5) (key_of 212) 2000 1 [] "" sig_of.
Definition listed : Event := mkEvent old_id (key_of 211) 2000 1 [] "" sig_of.

Definition resolution1 : Resolution :=
  mkResolution "bahia" (hex (key_of 212)) 1 (Some (move 1 211 212)) (hex (key_of 1)) None.
Definition ready : Readiness :=
  mkReadiness "bahia" "cli" 1 "incident" (hex (key_of 212)) false "" [hex old_id].

(** Receipts, signed by the new key and by the root. *)
Definition ack_event : Event :=
  mkEvent (key_of 6) (key_of 212) 3000 kindCPState (receipt_tags "trust-epoch-ack:" "bahia" "cli" AckSchema 1) "ack" sig_of.
Definition ready_event : Event :=
  mkEvent (key_of 7) root_key 3000 kindCPState
    (receipt_tags "trust-epoch-readiness:" "bahia" "cli" ReadinessSchema 1) "ready" sig_of.

Definition table : list (string * string) :=
  Eval vm_compute in ((λ ev, (Serialize ev, ev_ID ev)) <$> [one; two; three; fork; stray; listed; ack_event; ready_event]) ++
    [(join newline [hex old_id], key_of 60); (join newline [], key_of 61)].

Fixpoint named {A} (table : list (string * A)) (s : string) : option A :=
  match table with
  | [] => None
  | (n, a) :: table' => if String.eqb n s then Some a else named table' s
  end.

#[local] Instance prims : NostrPrims := {|
  sha256 := digest table;
  verify_bip340 := λ _ _ sig, Nat.eqb (String.length sig) 64;
  ParsePubKey := λ _, true;
  SchnorrVerify := λ _ _ sig, Nat.eqb (String.length sig) 64;
  decode_unadmitted := λ _, None;
  decode_accepted := λ _, None;
  decode_refused := λ _, None;
|}.

#[local] Instance laws : NostrLaws.
Proof. split; [|by intros]. intros a b. apply (digest_collision_free table). apply (bool_decide_unpack _). by vm_compute. Qed.

#[local] Instance json : TrustJSON := {|
  decode_epoch := λ s, (λ e, (e, true)) <$> named contents s;
  decode_ack := λ s, if String.eqb s "ack" then Some (ack_of resolution1 (move 1 211 212) "cli" "", true) else None;
  encode_ack := λ _, "ack";
  decode_readiness := λ s, if String.eqb s "ready" then Some (ready, true) else None;
  encode_readiness := λ _, "ready";
  decode_artifact := λ _, None;
|}.

Lemma named_elem {A} (t : list (string * A)) s a : named t s = Some a → a ∈ t.*2.
Proof.
  induction t as [|[n b] t IH]; simpl; [done|]. case_match; [intros [= ->]; by left|]. intros. right. auto.
Qed.

Lemma json_unsigned : epochs_unsigned.
Proof.
  intros c body e Hd. change (decode_epoch c) with ((λ b, (b, true)) <$> named contents c) in Hd.
  destruct (named contents c) as [b|] eqn:E; [|done]. injection Hd as -> _. apply named_elem in E.
  unfold contents in E. cbn [fmap list_fmap snd] in E. rewrite !elem_of_cons, elem_of_nil in E. destruct_or?; subst; by vm_compute.
Qed.

Definition verifier (stored : list Event) : Verifier :=
  mkVerifier (hex root_key) (hex (key_of 211)) (Some (LocalSource_Head (λ _ _ _, stored)))
    (Some (λ _ _ _, Ok (Some [hex old_id]))).

Definition live (n : nat) : bool := false.

Definition after {A} (r : result TrustError (A * BoltPersistence)) : BoltPersistence :=
  match r with Ok (_, s) => s | Err _ => mkBolt ∅ end.
Definition resolved (r : result TrustError (Resolution * BoltPersistence)) : Resolution :=
  match r with Ok (res, _) => res | Err _ => mkResolution "" "" 0 None "" None end.

Definition s1 : BoltPersistence := Eval vm_compute in after (AcceptHead (verifier []) live "bahia" one (mkBolt ∅)).
Definition s2 : BoltPersistence := Eval vm_compute in after (AcceptHead (verifier []) live "bahia" two s1).
Definition s3 : BoltPersistence := Eval vm_compute in after (AcceptHead (verifier []) live "bahia" three s2).
Definition r1 : Resolution := Eval vm_compute in resolved (AcceptHead (verifier []) live "bahia" one (mkBolt ∅)).

Definition a1 : Accepted := Eval vm_compute in accepted_of (move 1 211 212) one.

Ltac now_compute := vm_compute; reflexivity.

Lemma heads_only_advance_witness :
  ∃ a', BoltPersistence_Last false "bahia" s2 = Ok (Some a') ∧ (1 < ac_Epoch a' ∨ a' = accepted_of (move 1 211 212) one).
Proof.
  refine (heads_only_advance s1 s2 "bahia" (accepted_of (move 1 211 212) one) _ _); [|now_compute].
  apply rtc_once, (step_accept false "bahia" (accepted_of (move 2 212 213) two)). now_compute.
Defined.

Lemma resolved_key_certified_witness : certified (verifier [three]) "bahia" 3 (hex (key_of 214)).
Proof.
  refine (resolved_key_certified (verifier [three]) s2 "bahia" live
    (resolved (ServiceIdentity (verifier [three]) live "bahia" s2)) s3 json_unsigned _ _); [|now_compute].
  apply (rtc_l _ _ s1); [|apply rtc_once].
  - refine (step_head _ live "bahia" one _ r1 _ _). now_compute.
  - refine (step_head _ live "bahia" two _ (resolved (AcceptHead (verifier [three]) live "bahia" two s1)) _ _). now_compute.
Defined.

Lemma identity_durable_witness : BoltPersistence_Last false "bahia" s1 = Ok (Some a1).
Proof.
  assert (ServiceIdentity (verifier [one]) live "bahia" (mkBolt ∅) = Ok (r1, s1)) as H by now_compute.
  exact (proj1 (identity_durable (verifier [one]) live "bahia" (mkBolt ∅) r1 s1 H)).
Defined.

Lemma admitted_by_signed_inventory_witness :
  ∃ body l, epoch_event (hex root_key) "bahia" one body ∧ ep_Activated body = true ∧ NoDup l ∧
    Z.of_nat (length l) = ep_InventoryCount body ∧ hex (sha256 (join newline (sorted_ids l))) = ep_InventoryDigest body ∧
    hex (ev_ID listed) ∈ l ∧ hex (ev_PubKey listed) = ep_OldPubkey body ∧ ev_CreatedAt listed ≤ ep_ActivationBarrier body.
Proof.
  refine (admitted_by_signed_inventory (verifier []) live "bahia" one (mkBolt ∅) r1 s1 listed _ _); now_compute.
Defined.

Lemma inventory_digest_binds_witness : (∅ : gset string) = ∅ ∧ 0 = 0.
Proof.
  refine (inventory_digest_binds (Some []) (Some []) (hex (key_of 61)) 0 0 ∅ ∅ _ _); now_compute.
Defined.

Lemma acknowledgment_binds_witness : "cli"%string = "cli"%string ∧ hex (key_of 212) = hex (key_of 212).
Proof.
  assert (∀ r, r = r1 ∨ r = resolution1 →
            VerifyAcknowledgmentAuthority ack_event r "cli" (hex (key_of 212)) false = true) as Hv
    by (intros r [-> | ->]; now_compute).
  destruct (acknowledgment_binds ack_event r1 resolution1 "cli" "cli" _ _ false false
    (Hv r1 (or_introl eq_refl)) (Hv resolution1 (or_intror eq_refl))) as (Hc & Ha & _). exact (conj Hc Ha).
Defined.

Lemma acknowledgment_roundtrip_witness :
  VerifyAcknowledgmentAuthority ack_event resolution1 "cli" (hex (key_of 212)) false = true.
Proof.
  refine (acknowledgment_roundtrip resolution1 (move 1 211 212) "cli" 3000 (hex (key_of 212)) false
    (unsigned_event kindCPState 3000 (receipt_tags "trust-epoch-ack:" "bahia" "cli" AckSchema 1) "ack") ack_event
    _ _ _ _ _ _ _ _ _ _); now_compute.
Defined.

Lemma readiness_roundtrip_witness : VerifyReadiness ready_event ready (hex root_key) = true.
Proof.
  refine (readiness_roundtrip ready 3000 (hex root_key)
    (unsigned_event kindCPState 3000 (receipt_tags "trust-epoch-readiness:" "bahia" "cli" ReadinessSchema 1) "ready")
    ready_event _ _ _ _ _ _ _ _ _ _); first [now_compute|vm_compute; discriminate].
Defined.

Lemma LocalSource_newest_witness : ∃ pk, hex_of (hex root_key) pk ∧ (two ∈ [one; two] ∧ ∀ ev, ev ∈ [one; two] → heads_over one ev).
Proof.
  assert (LocalSource_Head (λ _ _ _, [one; two]) false "bahia" (hex root_key) = Ok (Some one, true)) as H by now_compute.
  destruct (LocalSource_newest (λ _ _ _, [one; two]) "bahia" (hex root_key) (Some one, true) H) as (pk & Hpk & Hin & Hall).
  exists pk. split; [exact Hpk|]. split; [right; left|exact Hall].
Defined.

(** ** Two behaviours *)

(** The key chain is checked on the head read before the write, not in
    the transaction that writes: when two verifiers read an empty record and
    then write one after the other, both heads are accepted although the
    second does not continue from the key the first put in force, and is
    refused when the same calls run one after the other. *)
Theorem chain_check_races : ∃ b1 b2 t1 t2,
  check_head (verifier []) None "bahia" one = Ok b1 ∧ check_head (verifier []) None "bahia" fork = Ok b2 ∧
  BoltPersistence_Accept false "bahia" (accepted_of b1 one) (mkBolt ∅) = Ok t1 ∧
  BoltPersistence_Accept false "bahia" (accepted_of b2 fork) t1 = Ok t2 ∧
  ep_OldPubkey b2 ≠ key_in_force (accepted_of b1 one) ∧
  AcceptHead (verifier []) live "bahia" fork t1 = Err ErrUnverifiable.
Proof.
  exists (move 1 211 212), (move 2 211 215), s1, (mkBolt {["bahia" := Row (accepted_of (move 2 211 215) fork)]}).
  split_and!; [now_compute..|vm_compute; discriminate|now_compute].
Qed.

(** A retired key that is neither the legacy key nor the one the last
    epoch replaced is not recognised as a generation of the service: after
    three moves an event of the second key is passed on as one of an
    unrelated author, not judged hostile. *)
Theorem middle_generation_unjudged :
  certified (verifier [three]) "bahia" 1 (hex (ev_PubKey stray)) ∧
  JudgeServiceEvent (verifier [three]) live "bahia" stray s3 = (DecAccept, false, None, s3) ∧
  Resolution_JudgeEvent (resolved (ServiceIdentity (verifier [three]) live "bahia" s3)) stray = DecHostile.
Proof.
  split; [|split; now_compute].
  apply (certified_epoch (verifier [three]) "bahia" 0 one (move 1 211 212)).
  - constructor.
  - reflexivity.
  - apply Parse_ok. now_compute.
  - reflexivity.
Qed.
End TrustSample.
