(* ===== verification/Saga.v ===== *)
(** * Provisioning sagas: data

    [src/internal/soulfactory/saga/types.go]: stages, resource lineage, runs
    and their validation.  A saga provisions one agent in a fixed order of
    stages and can be rolled back by compensating what it created. *)

From Stdlib Require Import ZArith Lia Bool.
From stdpp Require Import base tactics decidable option list numbers strings.
From S2P Require Import Prelude Bytes EventID.

(** ** Stages *)

(** [Stage] is a string type; [OtherStage] stands for every string that is not
    one of the constants, the empty one included. *)
Inductive Stage :=
| StageRequested
| StageIdentityReserved
| StageServiceRegistered
| StageReleaseSelected
| StageRuntimeAllocated
| StageSignerEnrolled
| StageNostrConfigured
| StageLLMVerified
| StageDMVerified
| StageRunning
| StageRollbackPending
| StageRolledBack
| StageFailedRecoverable
| StageFailedTerminal
| OtherStage (s : string).

#[export] Instance Stage_eq_dec : EqDecision Stage.
Proof. solve_decision. Defined.

Definition NoStage : Stage := OtherStage "".

Definition stage_name (s : Stage) : string :=
  match s with
  | StageRequested => "requested"
  | StageIdentityReserved => "identity_reserved"
  | StageServiceRegistered => "service_registered"
  | StageReleaseSelected => "release_selected"
  | StageRuntimeAllocated => "runtime_allocated"
  | StageSignerEnrolled => "signer_enrolled"
  | StageNostrConfigured => "nostr_configured"
  | StageLLMVerified => "llm_verified"
  | StageDMVerified => "dm_verified"
  | StageRunning => "running"
  | StageRollbackPending => "rollback_pending"
  | StageRolledBack => "rolled_back"
  | StageFailedRecoverable => "failed_recoverable"
  | StageFailedTerminal => "failed_terminal"
  | OtherStage s => s
  end.

Definition forwardStages : list Stage :=
  [StageIdentityReserved; StageServiceRegistered; StageReleaseSelected; StageRuntimeAllocated; StageSignerEnrolled;
   StageNostrConfigured; StageLLMVerified; StageDMVerified; StageRunning].

Definition isForwardStage (s : Stage) : bool := bool_decide (s ∈ forwardStages).

Definition validStage (s : Stage) : bool :=
  bool_decide (s ∈ [StageRequested; StageRollbackPending; StageRolledBack; StageFailedRecoverable; StageFailedTerminal] ++
                   forwardStages).

Definition terminalProjection (s : Stage) : bool :=
  match s with StageRunning | StageRolledBack | StageFailedTerminal => true | _ => false end.

(** ** Resources *)

Inductive Ownership :=
| OwnershipCreated
| OwnershipAdopted
| OwnershipPreExisting
| OtherOwnership (s : string).

#[export] Instance Ownership_eq_dec : EqDecision Ownership.
Proof. solve_decision. Defined.

Record Resource := mkResource {
  rc_Stage : Stage;
  rc_System : string;
  rc_Kind : string;
  rc_ExternalID : string;
  rc_SpecHash : string;
  rc_Ownership : Ownership;
  rc_OwnerRunID : string;
  rc_IdempotencyKey : string;
  rc_CorrelationID : string;
  rc_AuthoritativeStage : Stage;
  rc_Conflict : bool;
  rc_CompensationOrder : Z;
  rc_RecordedAt : Z;
}.

#[export] Instance Resource_eq_dec : EqDecision Resource.
Proof. solve_decision. Defined.

Definition SystemBahiaProjection : string := "bahia_projection".
Definition ResourceProvisioningResult : string := "provisioning_result_7950".
Definition ResourceAgentSoul : string := "agent_soul_31951".

(** [strings.Join([]string{System, Kind, ExternalID}, "\x00")]. *)
Definition resource_key (r : Resource) : string :=
  rc_System r +:+ String nul (rc_Kind r +:+ String nul (rc_ExternalID r)).

(** [strings.Contains(s, sub)]. *)
Fixpoint contains_sub (s sub : string) : bool :=
  has_prefix s sub || match s with EmptyString => false | String _ s' => contains_sub s' sub end.

Definition secret_markers : list string :=
  ["nsec1"; "secret="; "token="; "api_key="; "private_key="; "bunker://"]%string.

Definition containsSecretMarker (value : string) : bool :=
  let v := to_lower value in existsb (contains_sub v) secret_markers.

Definition blank (s : string) : bool := String.eqb (trim_space s) "".

Definition ref_prefix : string := "ref:sha256:".

(** [Resource.validate]: whether it returns nil. *)
Definition resource_valid (r : Resource) (runID : string) : bool :=
  negb (negb (validStage (rc_Stage r)) || blank (rc_System r) || blank (rc_Kind r) || blank (rc_ExternalID r) ||
        blank (rc_SpecHash r) || blank (rc_IdempotencyKey r) || blank (rc_CorrelationID r)) &&
  negb (containsSecretMarker (rc_System r) || containsSecretMarker (rc_Kind r) || containsSecretMarker (rc_ExternalID r) ||
        containsSecretMarker (rc_SpecHash r) || containsSecretMarker (rc_IdempotencyKey r) ||
        containsSecretMarker (rc_CorrelationID r)) &&
  has_prefix (rc_ExternalID r) ref_prefix && Nat.eqb (String.length (rc_ExternalID r)) (11 + 64) &&
  negb (String.eqb (rc_System r) SystemBahiaProjection &&
        (String.eqb (rc_Kind r) ResourceProvisioningResult || String.eqb (rc_Kind r) ResourceAgentSoul) &&
        negb (terminalProjection (rc_AuthoritativeStage r))) &&
  match rc_Ownership r with
  | OwnershipCreated => String.eqb (rc_OwnerRunID r) runID
  | OwnershipAdopted | OwnershipPreExisting => String.eqb (rc_OwnerRunID r) ""
  | OtherOwnership _ => false
  end.

(** ** Runs *)

Record Failure := mkFailure {
  fl_Stage : Stage;
  fl_Code : string;
  fl_Message : string;
  fl_Retryable : bool;
  fl_At : Z;
}.

#[export] Instance Failure_eq_dec : EqDecision Failure.
Proof. solve_decision. Defined.

Record Transition := mkTransition {
  tr_From : Stage;
  tr_To : Stage;
  tr_At : Z;
}.

#[export] Instance Transition_eq_dec : EqDecision Transition.
Proof. solve_decision. Defined.

Record Compensation := mkCompensation {
  cp_ResourceKey : string;
  cp_IdempotencyKey : string;
  cp_Outcome : string;
  cp_At : Z;
}.

#[export] Instance Compensation_eq_dec : EqDecision Compensation.
Proof. solve_decision. Defined.

Record Run := mkRun {
  rn_RequestID : string;
  rn_RunID : string;
  rn_RootKey : string;
  rn_AgentID : string;
  rn_SpecHash : string;
  rn_Stage : Stage;
  rn_ResumeStage : Stage;
  rn_Version : Z;
  rn_Resources : list Resource;
  rn_Compensations : list Compensation;
  rn_Transitions : list Transition;
  rn_Failures : list Failure;
  rn_Failure : option Failure;
  rn_CreatedAt : Z;
  rn_UpdatedAt : Z;
  rn_RetainUntil : option Z;
}.

(** *** The public failure texts of [engine.go] *)

Definition public_codes : list string :=
  ["ownership_conflict"; "policy_denied"; "postcondition_mismatch"; "response_lost"; "rollback_ownership_conflict";
   "compensation_postcondition_mismatch"; "terminal_projection_conflict"; "terminal_projection_mismatch"]%string.

Definition safePublicCode (code : string) : string := if bool_decide (code ∈ public_codes) then code else "stage_failed".

Definition stage_failed_message : string :=
  "provisioning stage failed; inspect service logs using request and run identifiers".

Definition safePublicMessage (code : string) : string :=
  if String.eqb code "ownership_conflict" then
    "external resource ownership or specification conflicts with this provisioning run"
  else if String.eqb code "policy_denied" then "provisioning policy denied the requested operation"
  else if String.eqb code "postcondition_mismatch" then "external state did not match after mutation"
  else if String.eqb code "response_lost" then "external mutation response was ambiguous and remains uncorrelated"
  else if String.eqb code "rollback_ownership_conflict" then "resource ownership changed; compensation was refused"
  else if String.eqb code "compensation_postcondition_mismatch" then "resource remains after compensation"
  else stage_failed_message.

Definition validatePublicFailure (f : Failure) : bool :=
  isForwardStage (fl_Stage f) && String.eqb (fl_Code f) (safePublicCode (fl_Code f)) &&
  String.eqb (fl_Message f) (safePublicMessage (fl_Code f)) && negb (time_is_zero (fl_At f)).

Section keys.
Context `{NostrPrims}.

(** [PublicResourceRef]: a reference stays, anything else is hashed. *)
Definition PublicResourceRef (system kind externalID : string) : string :=
  if has_prefix externalID ref_prefix && Nat.eqb (String.length externalID) (11 + 64) &&
     bool_decide (is_Some (unhex (trim_prefix externalID ref_prefix)))
  then externalID
  else ref_prefix +:+ hex (sha256 ("bahia-openclaw-resource/v1" +:+ String nul (system +:+ String nul (kind +:+ String nul externalID)))).

Definition DeriveKey (root purpose : string) : string :=
  "ocw-saga:" +:+ hex (sha256 ("bahia-openclaw-saga/v1" +:+ String nul (root +:+ String nul purpose))).

Definition StageKey (r : Run) (stage : Stage) : string := DeriveKey (rn_RootKey r) ("stage/" +:+ stage_name stage).

Definition CompensationKey (r : Run) (resource : Resource) : string :=
  DeriveKey (rn_RootKey r) ("compensate/" +:+ resource_key resource).

Definition NewRun (requestID runID agentID specHash : string) (now : Z) : option Run :=
  let requestID := trim_space requestID in
  let runID := trim_space runID in
  let agentID := trim_space agentID in
  let specHash := trim_space specHash in
  if String.eqb requestID "" || String.eqb runID "" || String.eqb agentID "" || String.eqb specHash "" then None
  else if containsSecretMarker requestID || containsSecretMarker runID || containsSecretMarker agentID ||
          containsSecretMarker specHash then None
  else Some (mkRun requestID runID (DeriveKey (requestID +:+ "/" +:+ runID) "root") agentID specHash StageRequested NoStage 1
               [] [] [] [] None now now None).

(** The lineage check of [Run.validate]: [seen] maps a key to the last
    resource with it. *)
Fixpoint lineage_ok (runID specHash requestID : string) (seen : string → option Resource) (resources : list Resource) : bool :=
  match resources with
  | [] => true
  | r :: resources' =>
      resource_valid r runID &&
      (rc_Conflict r || String.eqb (rc_SpecHash r) specHash) &&
      (rc_Conflict r || String.eqb (rc_CorrelationID r) requestID) &&
      match seen (resource_key r) with
      | Some p =>
          String.eqb (rc_SpecHash p) (rc_SpecHash r) && bool_decide (rc_Ownership p = rc_Ownership r) &&
          String.eqb (rc_OwnerRunID p) (rc_OwnerRunID r)
      | None => true
      end &&
      lineage_ok runID specHash requestID
        (λ k, if String.eqb k (resource_key r) then Some r else seen k) resources'
  end.

Definition run_valid (r : Run) : bool :=
  negb (String.eqb (rn_RequestID r) "" || String.eqb (rn_RunID r) "" || String.eqb (rn_RootKey r) "" ||
        String.eqb (rn_AgentID r) "" || String.eqb (rn_SpecHash r) "" || negb (validStage (rn_Stage r)) || (rn_Version r =? 0)) &&
  String.eqb (rn_RootKey r) (DeriveKey (rn_RequestID r +:+ "/" +:+ rn_RunID r) "root") &&
  lineage_ok (rn_RunID r) (rn_SpecHash r) (rn_RequestID r) (λ _, None) (rn_Resources r) &&
  forallb validatePublicFailure (rn_Failures r) &&
  match rn_Failure r with Some f => validatePublicFailure f | None => true end.
End keys.

(** [hasTerminalProjection]. *)
Definition projects (run : Run) (stage : Stage) (kind : string) (r : Resource) : bool :=
  String.eqb (rc_System r) SystemBahiaProjection && String.eqb (rc_SpecHash r) (rn_SpecHash run) &&
  String.eqb (rc_CorrelationID r) (rn_RequestID run) && bool_decide (rc_AuthoritativeStage r = stage) &&
  String.eqb (rc_Kind r) kind.

Definition hasTerminalProjection (resources : list Resource) (run : Run) (stage : Stage) : bool :=
  let result := existsb (projects run stage ResourceProvisioningResult) resources in
  let soul := existsb (projects run stage ResourceAgentSoul) resources in
  if bool_decide (stage = StageRunning) then soul else result.

(** [sort.SliceStable] with a strict order: insertion after every element that
    is not greater. *)
Section stable_sort.
Context {A : Type} (less : A → A → bool).

Fixpoint stable_insert (x : A) (l : list A) : list A :=
  match l with
  | [] => [x]
  | y :: l' => if less x y then x :: l else y :: stable_insert x l'
  end.

Definition stable_sort (l : list A) : list A := foldl (λ acc x, stable_insert x acc) [] l.
End stable_sort.

Definition order_less (a b : Resource) : bool := rc_CompensationOrder a <? rc_CompensationOrder b.

Definition sortForCompensation (resources : list Resource) : list Resource := stable_sort order_less resources.

Definition compensation_less (a b : Resource) : bool :=
  if negb (rc_CompensationOrder a =? rc_CompensationOrder b) then rc_CompensationOrder a <? rc_CompensationOrder b
  else time_after (rc_RecordedAt a) (rc_RecordedAt b).

(** [compensable]: what this run created, in the order it is taken down. *)
Definition compensable (run : Run) : list Resource :=
  stable_sort compensation_less (sortForCompensation
    (filter (λ r, rc_Ownership r = OwnershipCreated ∧ rc_OwnerRunID r = rn_RunID run) (rn_Resources run))).

Definition compensated (run : Run) (key : string) : bool :=
  existsb (λ c, String.eqb (cp_ResourceKey c) key) (rn_Compensations run).
