(* ===== verification/SagaStore.v ===== *)
(** * Provisioning sagas: the checkpoint store

    [src/internal/soulfactory/saga/store.go]: the [Store] interface with its
    optimistic versioning, the [FileStore] that implements it (one JSON file
    per request, under an exclusive lock), and the retention policy.  The
    directory is a finite map from file names to checkpoints; failures of the
    file system itself are not modelled. *)

From Stdlib Require Import ZArith Lia Bool.
From stdpp Require Import base tactics decidable option list numbers strings gmap.
From S2P Require Import Prelude Bytes EventID Bolt Saga.

Inductive SagaError :=
| ENotFound
| EConflict
| EInvalid
| EDecode
| EStage
| ELineage
| EReality
| EOmitted
| ESafe (code message : string) (retryable : bool).

(** ** The interface *)

Class Store (S : Type) := {
  store_Create : Run → S → result SagaError S;
  store_Load : string → S → result SagaError Run;
  store_Save : Run → Z → S → result SagaError S;
  store_List : S → result SagaError (list Run);
  store_Delete : string → Z → S → result SagaError S;
}.

(** [next] is [current] with nothing of its identity or history rewritten. *)
Record extends (current next : Run) : Prop := {
  ex_request : rn_RequestID next = rn_RequestID current;
  ex_run : rn_RunID next = rn_RunID current;
  ex_root : rn_RootKey next = rn_RootKey current;
  ex_agent : rn_AgentID next = rn_AgentID current;
  ex_spec : rn_SpecHash next = rn_SpecHash current;
  ex_created : rn_CreatedAt next = rn_CreatedAt current;
  ex_resources : rn_Resources current `prefix_of` rn_Resources next;
  ex_transitions : rn_Transitions current `prefix_of` rn_Transitions next;
  ex_compensations : rn_Compensations current `prefix_of` rn_Compensations next;
  ex_failures : rn_Failures current `prefix_of` rn_Failures next;
}.

#[export] Instance extends_preorder : PreOrder extends.
Proof.
  split; [by intros r; split|]. intros a b c [] []. split; congruence || (etransitivity; eassumption).
Qed.

(** What a store promises: requests fall into slots, and a call that succeeds
    did what it says to the slot of its request and to no other; a save
    replaces the version it expected by an extension of it. *)
Class StoreLaws (S : Type) `{NostrPrims} `{Store S} := {
  store_ok : S → Prop;
  slot : string → string;
  load_slot id id' s : slot id = slot id' → store_Load id s = store_Load id' s;
  load_ok id s r : store_ok s → store_Load id s = Ok r → slot (rn_RequestID r) = slot id ∧ run_valid r = true;
  create_ok r s s' : store_ok s → store_Create r s = Ok s' →
    store_ok s' ∧ store_Load (rn_RequestID r) s = Err ENotFound ∧
    ∀ id, store_Load id s' = if decide (slot id = slot (rn_RequestID r)) then Ok r else store_Load id s;
  save_ok r v s s' : store_ok s → store_Save r v s = Ok s' →
    store_ok s' ∧
    (∃ c, store_Load (rn_RequestID r) s = Ok c ∧ rn_Version c = v ∧ rn_Version r = to_u64 (v + 1) ∧ extends c r) ∧
    ∀ id, store_Load id s' = if decide (slot id = slot (rn_RequestID r)) then Ok r else store_Load id s;
  delete_ok id v s s' : store_ok s → store_Delete id v s = Ok s' →
    store_ok s' ∧ (∃ c, store_Load id s = Ok c ∧ rn_Version c = v) ∧
    ∀ id', store_Load id' s' = if decide (slot id' = slot id) then Err ENotFound else store_Load id' s;
}.

(** ** FileStore *)

Record FileStore := mkFileStore { fs_files : gmap string (row Run) }.

Section files.
Context `{NostrPrims}.

Definition FileStore_path (requestID : string) : string := DeriveKey requestID "file" +:+ ".json".

Definition readRun (name : string) (s : FileStore) : result SagaError Run :=
  match fs_files s !! name with
  | None => Err ENotFound
  | Some data =>
      let! run := of_option EDecode (unmarshal data) in
      check! run_valid run else EInvalid in
      Ok run
  end.

Definition writeAtomic (name : string) (run : Run) (s : FileStore) : FileStore :=
  mkFileStore (<[name := Row run]> (fs_files s)).

Definition FileStore_Create (run : Run) (s : FileStore) : result SagaError FileStore :=
  check! run_valid run else EInvalid in
  let path := FileStore_path (rn_RequestID run) in
  check! bool_decide (fs_files s !! path = None) else EConflict in
  Ok (writeAtomic path run s).

Definition FileStore_Load (requestID : string) (s : FileStore) : result SagaError Run :=
  readRun (FileStore_path requestID) s.

(** [validateImmutableUpdate]: identity, then each history against its
    prefix.  Go compares the entries of the histories as structs, times
    included; here a time is its instant, which for entries read from the same
    file is the same comparison. *)
Definition validateImmutableUpdate (current next : Run) : bool :=
  String.eqb (rn_RequestID current) (rn_RequestID next) && String.eqb (rn_RunID current) (rn_RunID next) &&
  String.eqb (rn_RootKey current) (rn_RootKey next) && String.eqb (rn_AgentID current) (rn_AgentID next) &&
  String.eqb (rn_SpecHash current) (rn_SpecHash next) && (rn_CreatedAt current =? rn_CreatedAt next) &&
  bool_decide (rn_Resources current `prefix_of` rn_Resources next) &&
  bool_decide (rn_Transitions current `prefix_of` rn_Transitions next) &&
  bool_decide (rn_Compensations current `prefix_of` rn_Compensations next) &&
  bool_decide (rn_Failures current `prefix_of` rn_Failures next).

Definition FileStore_Save (run : Run) (expectedVersion : Z) (s : FileStore) : result SagaError FileStore :=
  check! run_valid run else EInvalid in
  let! current := readRun (FileStore_path (rn_RequestID run)) s in
  check! (rn_Version current =? expectedVersion) && (rn_Version run =? to_u64 (expectedVersion + 1)) else EConflict in
  check! validateImmutableUpdate current run else EConflict in
  Ok (writeAtomic (FileStore_path (rn_RequestID run)) run s).

(** Entries in name order; the first unreadable one fails the listing. *)
Fixpoint readRuns (names : list string) (s : FileStore) : result SagaError (list Run) :=
  match names with
  | [] => Ok []
  | name :: names' =>
      let! run := readRun name s in
      let! runs := readRuns names' s in
      Ok (run :: runs)
  end.

Definition FileStore_List (s : FileStore) : result SagaError (list Run) := readRuns (bucket_keys (fs_files s)) s.

Definition FileStore_Delete (requestID : string) (expectedVersion : Z) (s : FileStore) : result SagaError FileStore :=
  let! current := readRun (FileStore_path requestID) s in
  check! rn_Version current =? expectedVersion else EConflict in
  Ok (mkFileStore (delete (FileStore_path requestID) (fs_files s))).

#[export] Instance file_store : Store FileStore := {|
  store_Create := FileStore_Create;
  store_Load := FileStore_Load;
  store_Save := FileStore_Save;
  store_List := FileStore_List;
  store_Delete := FileStore_Delete;
|}.
End files.

(** ** Retention *)

Record RetentionPolicy := mkRetention {
  rp_FailedFor : Z;
  rp_RolledBackFor : Z;
}.

Definition set_retain (run : Run) (until : option Z) : Run :=
  mkRun (rn_RequestID run) (rn_RunID run) (rn_RootKey run) (rn_AgentID run) (rn_SpecHash run) (rn_Stage run) (rn_ResumeStage run)
    (rn_Version run) (rn_Resources run) (rn_Compensations run) (rn_Transitions run) (rn_Failures run) (rn_Failure run)
    (rn_CreatedAt run) (rn_UpdatedAt run) until.

Definition Mark (p : RetentionPolicy) (run : Run) (now : Z) : Run :=
  let duration := match rn_Stage run with
                  | StageFailedTerminal => rp_FailedFor p
                  | StageRolledBack => rp_RolledBackFor p
                  | _ => 0
                  end in
  if 0 <? duration then set_retain run (Some (now + duration)) else run.

(** Whether [PurgeExpired] tries to delete a run. *)
Definition expired_run (now : Z) (run : Run) : bool :=
  negb (bool_decide (rn_Stage run = StageFailedRecoverable)) &&
  match rn_RetainUntil run with Some until => negb (time_before now until) | None => false end &&
  (bool_decide (rn_Stage run = StageFailedTerminal) || bool_decide (rn_Stage run = StageRolledBack)).

Section purge.
Context {S : Type} `{Store S}.

Fixpoint purge_runs (now : Z) (runs : list Run) (removed : Z) (errs : list SagaError) (s : S) : Z * list SagaError * S :=
  match runs with
  | [] => (removed, errs, s)
  | run :: runs' =>
      if expired_run now run then
        match store_Delete (rn_RequestID run) (rn_Version run) s with
        | Ok s' => purge_runs now runs' (removed + 1) errs s'
        | Err e => purge_runs now runs' removed (errs ++ [e]) s
        end
      else purge_runs now runs' removed errs s
  end.

(** [PurgeExpired]: the count removed, the joined errors, the store. *)
Definition PurgeExpired (now : Z) (s : S) : Z * list SagaError * S :=
  match store_List s with
  | Err e => (0, [e], s)
  | Ok runs => purge_runs now runs 0 [] s
  end.
End purge.

(** ** The file store keeps the promise *)

Section laws.
Context `{NostrPrims}.

(** Every decodable checkpoint lies under the name of its request. *)
Definition files_ok (s : FileStore) : Prop :=
  ∀ name r, fs_files s !! name = Some (Row r) → name = FileStore_path (rn_RequestID r).

Lemma readRun_ok name s r : readRun name s = Ok r ↔ fs_files s !! name = Some (Row r) ∧ run_valid r = true.
Proof.
  unfold readRun. destruct (fs_files s !! name) as [[a|]|]; cbn [of_option unmarshal result_bind]; [|naive_solver..].
  split; [intros Hr; inv_ok; by simplify_eq|]. intros [[= ->] Hv]. by rewrite Hv.
Qed.

Lemma readRun_write name r s name' : readRun name' (writeAtomic name r s) =
  if decide (name' = name) then (if run_valid r then Ok r else Err EInvalid) else readRun name' s.
Proof.
  unfold readRun, writeAtomic. simpl. case_decide as E; [subst|]; [rewrite lookup_insert_eq|by rewrite lookup_insert_ne].
  simpl. by destruct (run_valid r).
Qed.

Lemma files_ok_write r s : files_ok s → files_ok (writeAtomic (FileStore_path (rn_RequestID r)) r s).
Proof. intros Hs name a. simpl. intros [[<- [= <-]]|[_ Ha]]%lookup_insert_Some; [done|by apply Hs]. Qed.

Lemma validateImmutableUpdate_extends c n : validateImmutableUpdate c n = true ↔ extends c n.
Proof.
  unfold validateImmutableUpdate. rewrite !andb_true_iff, !String.eqb_eq, Z.eqb_eq, !bool_decide_eq_true.
  split; [intros; split; naive_solver|]. intros []. by split_and!.
Qed.

Lemma write_loads r s id : run_valid r = true →
  FileStore_Load id (writeAtomic (FileStore_path (rn_RequestID r)) r s) =
  if decide (FileStore_path id = FileStore_path (rn_RequestID r)) then Ok r else FileStore_Load id s.
Proof. intros Hr. unfold FileStore_Load. rewrite readRun_write. case_decide; by rewrite ?Hr. Qed.

#[export] Instance file_store_laws : StoreLaws FileStore.
Proof.
  refine {| store_ok := files_ok; slot := FileStore_path |}; simpl.
  - intros id id' s E. unfold FileStore_Load. by rewrite E.
  - intros id s r Hs [Hf Hv]%readRun_ok. split; [|done]. symmetry. by apply Hs.
  - intros r s s' Hs Hc. unfold FileStore_Create in Hc. inv_ok. bool_facts. subst s'.
    rename select (fs_files _ !! _ = None) into Hnone.
    split; [by apply files_ok_write|]. split; [unfold FileStore_Load, readRun; by rewrite Hnone|].
    intros id. by apply write_loads.
  - intros r v s s' Hs Hc. unfold FileStore_Save in Hc. inv_ok. bool_facts. subst s'.
    split; [by apply files_ok_write|]. split; [|intros id; by apply write_loads].
    eexists. split_and!; [done..|]. by apply validateImmutableUpdate_extends.
  - intros id v s s' Hs Hd. unfold FileStore_Delete in Hd. inv_ok. bool_facts. subst s'. simpl.
    split; [intros name r; simpl; intros [_ Hn]%lookup_delete_Some; by apply Hs|]. split; [eauto|].
    intros id'. unfold FileStore_Load, readRun. simpl. case_decide as E; [by rewrite E, lookup_delete_eq|].
    by rewrite lookup_delete_ne by congruence.
Defined.
End laws.
