(* ===== verification/SagaEngine.v ===== *)
(** * Provisioning sagas: the engine

    [src/internal/soulfactory/saga/engine.go].  The engine reconciles a stored
    run with what its drivers observe, one checkpoint at a time.  Its methods
    are computations on a world: the external systems the drivers act on, the
    checkpoint store, a clock read by number, and a log of the driver calls
    and saves, which the code does not keep and the theorems are about.
    [NewEngine] makes sure that every forward stage has a driver; here the
    drivers are total and a theorem says which stages they are asked for.
    Contexts are not cancelled. *)

From Stdlib Require Import ZArith Lia Bool.
From stdpp Require Import base tactics decidable option list numbers strings gmap.
From S2P Require Import Prelude Bytes EventID Saga SagaStore.

(** ** Observations, drivers, reports *)

Inductive Reality :=
| RealityAbsent
| RealityMatching
| RealityConflict
| OtherReality (s : string).

#[export] Instance Reality_eq_dec : EqDecision Reality.
Proof. solve_decision. Defined.

Record Observation := mkObservation {
  os_Reality : Reality;
  os_Resources : list Resource;
}.

(** An adapter's error, as far as the engine looks into it: a [*SafeError] in
    its chain, or none. *)
Inductive AdapterError :=
| SafeErr (code message : string) (retryable : bool)
| OpaqueErr.

Record Snapshot := mkSnapshot {
  sn_RequestID : string;
  sn_RunID : string;
  sn_AgentID : string;
  sn_SpecHash : string;
  sn_Stage : Stage;
  sn_Resources : list Resource;
}.

Definition snapshot (run : Run) : Snapshot :=
  mkSnapshot (rn_RequestID run) (rn_RunID run) (rn_AgentID run) (rn_SpecHash run) (rn_Stage run) (rn_Resources run).

Record Action := mkAction {
  an_Stage : Stage;
  an_Operation : string;
  an_ResourceRef : string;
}.

Record Report := mkReport {
  rt_RequestID : string;
  rt_RunID : string;
  rt_Stage : Stage;
  rt_Version : Z;
  rt_DryRun : bool;
  rt_Actions : list Action;
  rt_Failure : option Failure;
}.

Definition reportFor (run : Run) (dry : bool) : Report :=
  mkReport (rn_RequestID run) (rn_RunID run) (rn_Stage run) (rn_Version run) dry [] (rn_Failure run).

Definition add_action (r : Report) (a : Action) : Report :=
  mkReport (rt_RequestID r) (rt_RunID r) (rt_Stage r) (rt_Version r) (rt_DryRun r) (rt_Actions r ++ [a]) (rt_Failure r).

(** What a method returns: a report pointer and an error. *)
Definition outcome : Type := option Report * option SagaError.

(** The interfaces [StageDriver] (one per stage) and [TerminalDriver]. *)
Record Drivers (W : Type) := mkDrivers {
  dr_Inspect : Stage → Snapshot → option Resource → W → result AdapterError Observation * W;
  dr_Apply : Stage → Snapshot → string → W → option AdapterError * W;
  dr_Compensate : Stage → Snapshot → Resource → string → W → option AdapterError * W;
  dr_InspectTerminal : Snapshot → Stage → option Failure → W → result AdapterError Observation * W;
  dr_PublishTerminal : Snapshot → Stage → option Failure → string → W → option AdapterError * W;
}.
Arguments dr_Inspect {W}.
Arguments dr_Apply {W}.
Arguments dr_Compensate {W}.
Arguments dr_InspectTerminal {W}.
Arguments dr_PublishTerminal {W}.

Record Engine (W : Type) := mkEngine {
  en_drivers : Drivers W;
  en_now : nat → Z;
  en_retention : RetentionPolicy;
}.
Arguments en_drivers {W}.
Arguments en_now {W}.
Arguments en_retention {W}.

(** The log. *)
Inductive effect :=
| Inspected (stage : Stage) (target : option Resource) (r : result AdapterError Observation)
| Applied (stage : Stage) (key : string)
| Compensated (stage : Stage) (resource : Resource) (key : string)
| TerminalInspected (stage : Stage)
| TerminalPublished (stage : Stage) (key : string)
| Saved (run : Run).

(** Whether a call acts on the outside or on the store. *)
Definition mutates (e : effect) : bool :=
  match e with Inspected _ _ _ | TerminalInspected _ => false | _ => true end.

Record World (W S : Type) := mkWorld {
  wd_ext : W;
  wd_store : S;
  wd_ticks : nat;
  wd_log : list effect;
}.
Arguments mkWorld {W S}.
Arguments wd_ext {W S}.
Arguments wd_store {W S}.
Arguments wd_ticks {W S}.
Arguments wd_log {W S}.

(** ** Pure steps *)

(** The stage after [stage] in the list, if any, and the one before it. *)
Fixpoint stage_after (stage : Stage) (stages : list Stage) : Stage :=
  match stages with
  | a :: stages' =>
      match stages' with
      | b :: _ => if bool_decide (stage = a) then b else stage_after stage stages'
      | [] => NoStage
      end
  | [] => NoStage
  end.

Fixpoint stage_before (stage previous : Stage) (stages : list Stage) : Stage :=
  match stages with
  | a :: stages' => if bool_decide (a = stage) then previous else stage_before stage a stages'
  | [] => StageRequested
  end.

Definition nextStage (run : Run) : Stage :=
  match rn_Stage run with
  | StageFailedRecoverable => rn_ResumeStage run
  | StageRequested => StageIdentityReserved
  | stage => stage_after stage forwardStages
  end.

Definition previousStage (stage : Stage) : Stage := stage_before stage StageRequested forwardStages.

Definition publicFailure (err : AdapterError) : string * string :=
  match err with
  | SafeErr code _ _ =>
      let code := trim_space code in
      let code := if String.eqb code "" then "stage_failed" else code in
      let code := safePublicCode code in
      (code, safePublicMessage code)
  | OpaqueErr => ("stage_failed", stage_failed_message)
  end.

Definition retryable (err : AdapterError) : bool :=
  match err with SafeErr _ _ r => r | OpaqueErr => false end.

Definition enforceObservation (run : Run) (stage : Stage) (obs : Observation) : Observation :=
  if negb (bool_decide (os_Reality obs = RealityMatching)) then obs
  else if Nat.eqb (length (os_Resources obs)) 0 ||
          existsb (λ r, negb (String.eqb (rc_SpecHash r) (rn_SpecHash run)) ||
                        negb (String.eqb (rc_CorrelationID r) (rn_RequestID run))) (os_Resources obs) ||
          terminalProjection stage && negb (hasTerminalProjection (os_Resources obs) run stage)
  then mkObservation RealityConflict (os_Resources obs)
  else obs.

Definition enforced (run : Run) (stage : Stage) (r : result AdapterError Observation) : result AdapterError Observation :=
  match r with
  | Ok obs => Ok (enforceObservation run stage obs)
  | Err err => Err err
  end.

(** The run with the fields the engine changes replaced. *)
Definition update_run (run : Run) (stage resume : Stage) (transitions : list Transition) (failures : list Failure)
    (failure : option Failure) : Run :=
  mkRun (rn_RequestID run) (rn_RunID run) (rn_RootKey run) (rn_AgentID run) (rn_SpecHash run) stage resume (rn_Version run)
    (rn_Resources run) (rn_Compensations run) transitions failures failure (rn_CreatedAt run) (rn_UpdatedAt run)
    (rn_RetainUntil run).

Definition add_resource (run : Run) (r : Resource) : Run :=
  mkRun (rn_RequestID run) (rn_RunID run) (rn_RootKey run) (rn_AgentID run) (rn_SpecHash run) (rn_Stage run) (rn_ResumeStage run)
    (rn_Version run) (rn_Resources run ++ [r]) (rn_Compensations run) (rn_Transitions run) (rn_Failures run) (rn_Failure run)
    (rn_CreatedAt run) (rn_UpdatedAt run) (rn_RetainUntil run).

Definition add_compensation (run : Run) (c : Compensation) : Run :=
  mkRun (rn_RequestID run) (rn_RunID run) (rn_RootKey run) (rn_AgentID run) (rn_SpecHash run) (rn_Stage run) (rn_ResumeStage run)
    (rn_Version run) (rn_Resources run) (rn_Compensations run ++ [c]) (rn_Transitions run) (rn_Failures run) (rn_Failure run)
    (rn_CreatedAt run) (rn_UpdatedAt run) (rn_RetainUntil run).

Definition next_version (run : Run) (at_ : Z) : Run :=
  mkRun (rn_RequestID run) (rn_RunID run) (rn_RootKey run) (rn_AgentID run) (rn_SpecHash run) (rn_Stage run) (rn_ResumeStage run)
    (to_u64 (rn_Version run + 1)) (rn_Resources run) (rn_Compensations run) (rn_Transitions run) (rn_Failures run)
    (rn_Failure run) (rn_CreatedAt run) at_ (rn_RetainUntil run).

(** The resource a checkpoint records, from an inspected one. *)
Definition lineage (r : Resource) (stage : Stage) (externalID specHash key correlation : string) (conflict : bool) (at_ : Z) : Resource :=
  mkResource stage (rc_System r) (rc_Kind r) externalID specHash (rc_Ownership r) (rc_OwnerRunID r) key correlation
    (rc_AuthoritativeStage r) conflict (rc_CompensationOrder r) at_.

Section pure.
Context `{NostrPrims}.

Definition observationAction (stage : Stage) (obs : Observation) : Action :=
  mkAction stage
    (match os_Reality obs with
     | RealityAbsent => "create"
     | RealityMatching => "adopt_or_confirm"
     | RealityConflict => "reject_conflict"
     | OtherReality _ => ""
     end)
    (match os_Resources obs with
     | r :: _ => PublicResourceRef (rc_System r) (rc_Kind r) (rc_ExternalID r)
     | [] => ""
     end).

(** The key of an observed resource under its public reference. *)
Definition observed_key (r : Resource) : string :=
  rc_System r +:+ String nul (rc_Kind r +:+ String nul (PublicResourceRef (rc_System r) (rc_Kind r) (rc_ExternalID r))).

Definition observedResource (resources : list Resource) (key : string) : option Resource :=
  find (λ r, String.eqb (observed_key r) key) resources.

(** The observed resource is one this run created and still owns. *)
Definition owned_by (run : Run) (r : Resource) : bool :=
  bool_decide (rc_Ownership r = OwnershipCreated) && String.eqb (rc_OwnerRunID r) (rn_RunID run).

(** What a dry-run abort would do to a resource. *)
Definition abort_operation (run : Run) (resource : Resource) (r : result AdapterError Observation) : string :=
  match r with
  | Err _ => "inspect_failed"
  | Ok obs =>
      match observedResource (os_Resources obs) (resource_key resource) with
      | Some observed =>
          if bool_decide (os_Reality obs = RealityMatching) && owned_by run observed &&
             String.eqb (rc_SpecHash observed) (rc_SpecHash resource)
          then "compensate" else "skip_not_owned"
      | None => "skip_not_owned"
      end
  end.
End pure.

(** ** The monad *)

Section engine.
Context `{NostrPrims} {W S : Type} `{Store S} (e : Engine W).

Definition M (A : Type) : Type := World W S → A * World W S.

#[local] Instance M_ret : MRet M := λ A a w, (a, w).
#[local] Instance M_bind : MBind M := λ A B f m w, let '(a, w') := m w in f a w'.
#[local] Instance M_fmap : FMap M := λ A B f m w, let '(a, w') := m w in (f a, w').

Definition log (x : effect) : M unit :=
  λ w, (tt, mkWorld (wd_ext w) (wd_store w) (wd_ticks w) (wd_log w ++ [x])).

Definition now : M Z :=
  λ w, (en_now e (wd_ticks w), mkWorld (wd_ext w) (wd_store w) (Datatypes.S (wd_ticks w)) (wd_log w)).

(** A driver call: it acts on the external systems. *)
Definition external {A} (call : W → A * W) : M A :=
  λ w, let '(a, x) := call (wd_ext w) in (a, mkWorld x (wd_store w) (wd_ticks w) (wd_log w)).

Definition load (requestID : string) : M (result SagaError Run) := λ w, (store_Load requestID (wd_store w), w).

Definition inspect (stage : Stage) (run : Run) (target : option Resource) : M (result AdapterError Observation) :=
  r ← external (dr_Inspect (en_drivers e) stage (snapshot run) target);
  _ ← log (Inspected stage target r);
  mret r.

Definition apply_stage (stage : Stage) (run : Run) (key : string) : M (option AdapterError) :=
  r ← external (dr_Apply (en_drivers e) stage (snapshot run) key);
  _ ← log (Applied stage key);
  mret r.

Definition compensate (stage : Stage) (run : Run) (resource : Resource) (key : string) : M (option AdapterError) :=
  r ← external (dr_Compensate (en_drivers e) stage (snapshot run) resource key);
  _ ← log (Compensated stage resource key);
  mret r.

Definition InspectTerminal (run : Run) : M (result AdapterError Observation) :=
  r ← external (dr_InspectTerminal (en_drivers e) (snapshot run) (rn_Stage run) (rn_Failure run));
  _ ← log (TerminalInspected (rn_Stage run));
  mret r.

Definition PublishTerminal (run : Run) (key : string) : M (option AdapterError) :=
  r ← external (dr_PublishTerminal (en_drivers e) (snapshot run) (rn_Stage run) (rn_Failure run) key);
  _ ← log (TerminalPublished (rn_Stage run) key);
  mret r.

(** ** Checkpoints *)

(** [Store.Save] of [next], made from [run]. *)
Definition store_checkpoint (run next : Run) : M (option SagaError * Run) :=
  λ w, match store_Save next (rn_Version run) (wd_store w) with
       | Ok s => ((None, next), mkWorld (wd_ext w) s (wd_ticks w) (wd_log w ++ [Saved next]))
       | Err err => ((Some err, run), w)
       end.

(** [save]: the version is taken back when the store refuses. *)
Definition save (run : Run) : M (option SagaError * Run) :=
  at_ ← now;
  store_checkpoint run (next_version run at_).

Definition transition (run : Run) (to : Stage) : M (option SagaError * Run) :=
  if validStage to then
    at_ ← now;
    save (update_run run to NoStage (rn_Transitions run ++ [mkTransition (rn_Stage run) to at_]) (rn_Failures run) None)
  else mret (Some EStage, run).

(** The instant a checkpoint records. *)
Definition recorded_at (r : Resource) : M Z := if time_is_zero (rc_RecordedAt r) then now else mret (rc_RecordedAt r).

(** The loop over the recorded resources: [None] when no key matches. *)
Fixpoint same_lineage (r : Resource) (recorded : list Resource) : option bool :=
  match recorded with
  | [] => None
  | c :: recorded' =>
      if String.eqb (resource_key c) (resource_key r)
      then Some (String.eqb (rc_SpecHash c) (rc_SpecHash r) && bool_decide (rc_Ownership c = rc_Ownership r) &&
                 String.eqb (rc_OwnerRunID c) (rc_OwnerRunID r))
      else same_lineage r recorded'
  end.

Definition checkpointResource (run : Run) (stage : Stage) (resource : Resource) : M (option SagaError * Run) :=
  at_ ← recorded_at resource;
  let r := lineage resource stage (PublicResourceRef (rc_System resource) (rc_Kind resource) (rc_ExternalID resource))
             (rc_SpecHash resource) (StageKey run stage) (rc_CorrelationID resource) (rc_Conflict resource) at_ in
  if negb (resource_valid r (rn_RunID run)) then mret (Some EInvalid, run)
  else if negb (String.eqb (rc_SpecHash r) (rn_SpecHash run)) then mret (Some ELineage, run)
  else if negb (String.eqb (rc_CorrelationID r) (rn_RequestID run)) then mret (Some ELineage, run)
  else match same_lineage r (rn_Resources run) with
       | Some true => mret (None, run)
       | Some false => mret (Some EConflict, run)
       | None => save (add_resource run r)
       end.

Fixpoint checkpoint_loop (step : Run → Resource → M (option SagaError * Run)) (run : Run) (resources : list Resource) :
    M (option SagaError * Run) :=
  match resources with
  | [] => mret (None, run)
  | r :: resources' =>
      '(err, run') ← step run r;
      match err with
      | Some err => mret (Some err, run')
      | None => checkpoint_loop step run' resources'
      end
  end.

Definition checkpointResources (run : Run) (stage : Stage) (resources : list Resource) : M (option SagaError * Run) :=
  if terminalProjection stage && negb (hasTerminalProjection resources run stage) then mret (Some EOmitted, run)
  else checkpoint_loop (λ run r, checkpointResource run stage r) run resources.

Definition checkpointConflictResource (run : Run) (stage : Stage) (resource : Resource) : M (option SagaError * Run) :=
  if negb (owned_by run resource) then mret (None, run)
  else
    at_ ← recorded_at resource;
    let r := lineage resource stage (PublicResourceRef (rc_System resource) (rc_Kind resource) (rc_ExternalID resource))
               (DeriveKey (rn_RootKey run) ("conflict-spec/" +:+ rc_SpecHash resource)) (StageKey run stage)
               (DeriveKey (rn_RootKey run) ("conflict-correlation/" +:+ rc_CorrelationID resource)) true at_ in
    if negb (resource_valid r (rn_RunID run)) then mret (Some EInvalid, run)
    else save (add_resource run r).

Definition checkpointConflictResources (run : Run) (stage : Stage) (resources : list Resource) : M (option SagaError * Run) :=
  checkpoint_loop (λ run r, checkpointConflictResource run stage r) run resources.

Definition recordCompensation (run : Run) (resource : Resource) (result : string) : M (option SagaError * Run) :=
  at_ ← now;
  save (add_compensation run (mkCompensation (resource_key resource) (CompensationKey run resource) result at_)).

(** ** Terminal projection *)

Definition projection_mismatch : SagaError := ESafe "terminal_projection_mismatch" "" true.

Definition ensureTerminal (run : Run) : M (option SagaError * Run) :=
  let finish (obs : Observation) :=
    if negb (bool_decide (os_Reality obs = RealityMatching)) || negb (hasTerminalProjection (os_Resources obs) run (rn_Stage run))
    then mret (Some projection_mismatch, run)
    else checkpointResources run (rn_Stage run) (os_Resources obs) in
  r ← InspectTerminal run;
  match r with
  | Err _ => mret (Some projection_mismatch, run)
  | Ok obs =>
      match os_Reality obs with
      | RealityConflict => mret (Some (ESafe "terminal_projection_conflict" "" false), run)
      | RealityAbsent =>
          _ ← PublishTerminal run (DeriveKey (rn_RootKey run) ("terminal/" +:+ stage_name (rn_Stage run)));
          r' ← InspectTerminal run;
          match r' with
          | Err _ => mret (Some projection_mismatch, run)
          | Ok obs' =>
              if negb (bool_decide (os_Reality obs' = RealityMatching)) then mret (Some projection_mismatch, run)
              else finish obs'
          end
      | _ => finish obs
      end
  end.

Definition inspectTerminal (run : Run) : M outcome :=
  r ← InspectTerminal run;
  mret (Some (add_action (reportFor run true)
    match r with
    | Err _ => mkAction (rn_Stage run) "inspect_failed" ""
    | Ok obs => observationAction (rn_Stage run) obs
    end), None).

(** ** Failures *)

Definition public_error (code message : string) (retry : bool) : option SagaError := Some (ESafe code message retry).

(** The end of [fail] and [rollbackFail]: the run is saved, and projected when
    it has become terminal. *)
Definition settle_failure (run : Run) (code message : string) (canRetry : bool) : M outcome :=
  '(err, run') ← save run;
  match err with
  | Some err => mret (None, Some err)
  | None =>
      if bool_decide (rn_Stage run' = StageFailedTerminal) then
        '(terr, run'') ← ensureTerminal run';
        match terr with
        | Some _ => mret (Some (reportFor run'' false), Some projection_mismatch)
        | None => mret (Some (reportFor run'' false), public_error code message canRetry)
        end
      else mret (Some (reportFor run' false), public_error code message canRetry)
  end.

Definition fail (run : Run) (stage : Stage) (cause : AdapterError) (canRetry : bool) : M outcome :=
  let '(code, message) := publicFailure cause in
  let target := if canRetry then StageFailedRecoverable else StageFailedTerminal in
  let resume := if canRetry then stage else rn_ResumeStage run in
  at1 ← now;
  let failure := mkFailure stage code message canRetry at1 in
  at2 ← now;
  let failed := update_run run target resume (rn_Transitions run ++ [mkTransition (rn_Stage run) target at2])
                  (rn_Failures run ++ [failure]) (Some failure) in
  at3 ← now;
  settle_failure (Mark (en_retention e) failed at3) code message canRetry.

Definition rollbackFail (run : Run) (stage : Stage) (cause : AdapterError) (canRetry : bool) : M outcome :=
  let '(code, message) := publicFailure cause in
  at1 ← now;
  let failure := mkFailure stage code message canRetry at1 in
  if canRetry then
    settle_failure (update_run run StageRollbackPending (rn_ResumeStage run) (rn_Transitions run)
                      (rn_Failures run ++ [failure]) (Some failure)) code message canRetry
  else
    at2 ← now;
    at3 ← now;
    settle_failure (Mark (en_retention e)
      (update_run run StageFailedTerminal (rn_ResumeStage run)
         (rn_Transitions run ++ [mkTransition (rn_Stage run) StageFailedTerminal at2]) (rn_Failures run ++ [failure])
         (Some failure)) at3) code message canRetry.

(** ** Abort *)

(** The dry run of [SafeAbort]. *)
Fixpoint abort_plan (run : Run) (resources : list Resource) (report : Report) : M Report :=
  match resources with
  | [] => mret report
  | resource :: resources' =>
      r ← inspect (rc_Stage resource) run (Some resource);
      abort_plan run resources'
        (add_action report (mkAction (rc_Stage resource) (abort_operation run resource r) (rc_ExternalID resource)))
  end.

(** One resource of the compensation loop: either the loop goes on with the
    run, or the method returns. *)
Definition compensate_one (run : Run) (resource : Resource) : M (Run + outcome) :=
  let stage := rc_Stage resource in
  let record (result : string) :=
    '(err, run') ← recordCompensation run resource result;
    mret (match err with Some err => inr (None, Some err) | None => inl run' end) in
  if compensated run (resource_key resource) then mret (inl run)
  else
    r ← inspect stage run (Some resource);
    match r with
    | Err cause => o ← rollbackFail run stage cause true; mret (inr o)
    | Ok obs =>
        if bool_decide (os_Reality obs = RealityAbsent) then record "already_absent"
        else
          let refused := bool_decide (os_Reality obs ≠ RealityMatching) ||
            match observedResource (os_Resources obs) (resource_key resource) with
            | None => true
            | Some observed =>
                negb (owned_by run observed) ||
                negb (rc_Conflict resource) && negb (String.eqb (rc_SpecHash observed) (rc_SpecHash resource))
            end in
          if refused then
            o ← rollbackFail run stage
                  (SafeErr "rollback_ownership_conflict" "resource ownership changed; compensation refused" false) false;
            mret (inr o)
          else
            cerr ← compensate stage run resource (CompensationKey run resource);
            match cerr with
            | Some err => o ← rollbackFail run stage err (retryable err); mret (inr o)
            | None =>
                post ← inspect stage run (Some resource);
                match post with
                | Err cause => o ← rollbackFail run stage cause true; mret (inr o)
                | Ok post =>
                    let preserved := bool_decide (os_Reality post = RealityMatching) &&
                      match observedResource (os_Resources post) (resource_key resource) with
                      | Some observed =>
                          (bool_decide (rc_Ownership observed = OwnershipAdopted) ||
                           bool_decide (rc_Ownership observed = OwnershipPreExisting)) &&
                          String.eqb (rc_OwnerRunID observed) ""
                      | None => false
                      end in
                    if preserved then record "preserved"
                    else if bool_decide (os_Reality post ≠ RealityAbsent) then
                      o ← rollbackFail run stage
                            (SafeErr "compensation_postcondition_mismatch" "resource remains after compensation" true) true;
                      mret (inr o)
                    else record "removed"
                end
            end
    end.

Fixpoint compensate_all (run : Run) (resources : list Resource) : M (Run + outcome) :=
  match resources with
  | [] => mret (inl run)
  | resource :: resources' =>
      r ← compensate_one run resource;
      match r with
      | inl run' => compensate_all run' resources'
      | inr o => mret (inr o)
      end
  end.

(** The end of [SafeAbort]: rolled back, retained, projected. *)
Definition finish_abort (run : Run) : M outcome :=
  '(err, run1) ← transition run StageRolledBack;
  match err with
  | Some err => mret (None, Some err)
  | None =>
      at_ ← now;
      let marked := Mark (en_retention e) run1 at_ in
      '(err, run2) ← (if bool_decide (is_Some (rn_RetainUntil marked)) then save marked else mret (None, marked));
      match err with
      | Some err => mret (None, Some err)
      | None =>
          '(terr, run3) ← ensureTerminal run2;
          mret (Some (reportFor run3 false), terr)
      end
  end.

Definition SafeAbort (requestID : string) (dryRun : bool) : M outcome :=
  r ← load requestID;
  match r with
  | Err err => mret (None, Some err)
  | Ok run =>
      if terminalProjection (rn_Stage run) then mret (Some (reportFor run dryRun), None)
      else if dryRun then
        report ← abort_plan run (compensable run) (reportFor run true);
        mret (Some report, None)
      else
        '(err, run1) ← (if bool_decide (rn_Stage run ≠ StageRollbackPending) then transition run StageRollbackPending
                        else mret (None, run));
        match err with
        | Some err => mret (None, Some err)
        | None =>
            r ← compensate_all run1 (compensable run1);
            match r with
            | inl run2 => finish_abort run2
            | inr o => mret o
            end
        end
  end.

Definition failAndRollback (run : Run) (stage : Stage) (cause : AdapterError) : M outcome :=
  let '(code, message) := publicFailure cause in
  at1 ← now;
  let failure := mkFailure stage code message false at1 in
  at2 ← now;
  '(err, run') ← save (update_run run StageRollbackPending (rn_ResumeStage run)
                         (rn_Transitions run ++ [mkTransition (rn_Stage run) StageRollbackPending at2])
                         (rn_Failures run ++ [failure]) (Some failure));
  match err with
  | Some err => mret (None, Some err)
  | None =>
      '(report, abortErr) ← SafeAbort (rn_RequestID run') false;
      mret (report, match abortErr with
                    | Some _ => Some (ESafe "stage_failed" "" false)
                    | None => public_error code message false
                    end)
  end.

(** ** Reconciliation *)

(** A matched stage: its lineage and then the stage itself are checkpointed. *)
Definition reach_stage (run : Run) (stage : Stage) (resources : list Resource) : M (option SagaError * Run) :=
  '(err, run1) ← checkpointResources run stage resources;
  match err with
  | Some err => mret (Some err, run1)
  | None => transition run1 stage
  end.

Definition dry_report (run : Run) (stage : Stage) (r : result AdapterError Observation) : outcome :=
  (Some (add_action (reportFor run true)
     match r with
     | Err _ => mkAction stage "inspect_failed" ""
     | Ok obs => observationAction stage obs
     end), None).

(** The resources found are recorded as conflicting and the run rolls back. *)
Definition reject_stage (run : Run) (stage : Stage) (resources : list Resource) (message : string) : M outcome :=
  '(err, run1) ← checkpointConflictResources run stage resources;
  match err with
  | Some err => mret (None, Some err)
  | None => failAndRollback run1 stage (SafeErr "ownership_conflict" message false)
  end.

(** A matched stage in the loop [loop]: the method returns at the last one. *)
Definition go_on (loop : Run → M (option outcome)) (run : Run) (stage : Stage) (resources : list Resource) : M (option outcome) :=
  '(err, run1) ← reach_stage run stage resources;
  match err with
  | Some err => mret (Some (None, Some err))
  | None => if bool_decide (stage = StageRunning) then mret (Some (Some (reportFor run1 false), None)) else loop run1
  end.

(** An apply whose effect the second inspection does not confirm. *)
Definition unverified (run : Run) (stage : Stage) (applyErr : option AdapterError) (verified : result AdapterError Observation) :
    M outcome :=
  match applyErr, verified with
  | Some err, _ => if retryable err then fail run stage err true else failAndRollback run stage err
  | None, Err cause => fail run stage cause true
  | None, Ok _ => fail run stage (SafeErr "postcondition_mismatch" "external state did not match after mutation" true) true
  end.

(** The loop of [Reconcile]; [None] when the fuel runs out. *)
Fixpoint reconcile_loop (fuel : nat) (run : Run) (dryRun : bool) : M (option outcome) :=
  match fuel with
  | O => mret None
  | Datatypes.S fuel' =>
      let stage := nextStage run in
      let loop (run1 : Run) := reconcile_loop fuel' run1 dryRun in
      if bool_decide (stage = NoStage) then mret (Some (Some (reportFor run dryRun), None))
      else
        r ← inspect stage run None;
        let r := enforced run stage r in
        match r with
        | Err cause => if dryRun then mret (Some (dry_report run stage r)) else Some <$> fail run stage cause true
        | Ok obs =>
            match os_Reality obs with
            | RealityConflict =>
                if dryRun then mret (Some (dry_report run stage r))
                else Some <$> reject_stage run stage (os_Resources obs)
                       "external resource ownership or spec conflicts with requested saga"
            | RealityMatching =>
                if Nat.eqb (length (os_Resources obs)) 0 then mret (Some (None, Some EOmitted))
                else if dryRun then mret (Some (dry_report run stage r))
                else go_on loop run stage (os_Resources obs)
            | OtherReality _ => mret (Some (None, Some EReality))
            | RealityAbsent =>
                if dryRun then mret (Some (dry_report run stage r))
                else
                  applyErr ← apply_stage stage run (StageKey run stage);
                  v ← inspect stage run None;
                  let verified := enforced run stage v in
                  match verified with
                  | Ok obs' =>
                      match os_Reality obs' with
                      | RealityMatching =>
                          if Nat.eqb (length (os_Resources obs')) 0 then Some <$> unverified run stage applyErr verified
                          else go_on loop run stage (os_Resources obs')
                      | RealityConflict => Some <$> reject_stage run stage (os_Resources obs') ""
                      | _ => Some <$> unverified run stage applyErr verified
                      end
                  | Err _ => Some <$> unverified run stage applyErr verified
                  end
            end
        end
  end.

(** Ten rounds are enough for the nine forward stages. *)
Definition reconcile_fuel : nat := 10.

Definition Reconcile (requestID : string) (dryRun : bool) : M (option outcome) :=
  r ← load requestID;
  match r with
  | Err err => mret (Some (None, Some err))
  | Ok run =>
      if bool_decide (rn_Stage run = StageRollbackPending) then Some <$> SafeAbort requestID dryRun
      else if terminalProjection (rn_Stage run) then
        if dryRun then Some <$> inspectTerminal run
        else
          '(terr, run') ← ensureTerminal run;
          mret (Some (Some (reportFor run' false), terr))
      else if bool_decide (rn_Stage run = StageFailedRecoverable) then
        if dryRun then
          r ← inspect (rn_ResumeStage run) run None;
          mret (Some (dry_report run (rn_ResumeStage run) (enforced run (rn_ResumeStage run) r)))
        else
          '(err, run1) ← transition run (previousStage (rn_ResumeStage run));
          match err with
          | Some err => mret (Some (None, Some err))
          | None => reconcile_loop reconcile_fuel run1 dryRun
          end
      else reconcile_loop reconcile_fuel run dryRun
  end.

(** ** Start and inspection *)

(** [Store.Create], and the run already there when it conflicts. *)
Definition create_run (run : Run) (requestID runID agentID specHash : string) : M (option Run * option SagaError) :=
  λ w, match store_Create run (wd_store w) with
       | Ok s => ((Some run, None), mkWorld (wd_ext w) s (wd_ticks w) (wd_log w ++ [Saved run]))
       | Err EConflict =>
           match store_Load requestID (wd_store w) with
           | Err err => ((None, Some err), w)
           | Ok existing =>
               if String.eqb (rn_RunID existing) runID && String.eqb (rn_AgentID existing) agentID &&
                  String.eqb (rn_SpecHash existing) specHash
               then ((Some existing, None), w)
               else ((None, Some EConflict), w)
           end
       | Err err => ((None, Some err), w)
       end.

Definition Start (requestID runID agentID specHash : string) : M (option Run * option SagaError) :=
  at_ ← now;
  match NewRun requestID runID agentID specHash at_ with
  | None => mret (None, Some EInvalid)
  | Some run => create_run run requestID runID agentID specHash
  end.

Definition Inspect (requestID : string) : M outcome :=
  r ← load requestID;
  match r with
  | Err err => mret (None, Some err)
  | Ok run =>
      let stage := nextStage run in
      if bool_decide (stage = NoStage) then mret (Some (reportFor run true), None)
      else
        r ← inspect stage run None;
        mret (dry_report run stage (enforced run stage r))
  end.
End engine.
