(* ===== verification/SagaLogic.v ===== *)
(** * Provisioning sagas: the program logic

    The invariant of a stored run ([good]), the discipline the log of driver
    calls keeps, and rules that reduce a statement about an engine method to
    statements about the calls it makes.  [safe m Q] says that [m], started
    with good runs in the store, leaves good runs, only extends them, only
    adds disciplined calls to the log, and returns a value that satisfies
    [Q]. *)

From Stdlib Require Import ZArith Lia Bool.
From stdpp Require Import base tactics decidable option list numbers strings gmap.
From S2P Require Import Prelude Bytes EventID Saga SagaStore SagaEngine.

Create HintDb saga.

(** ** The stage machine *)

(** A stage from which provisioning goes on. *)
Definition active (s : Stage) : Prop := s = StageRequested ∨ s ∈ forwardStages ∧ s ≠ StageRunning.

Definition next_of (s : Stage) : Stage :=
  match s with StageRequested => StageIdentityReserved | s => stage_after s forwardStages end.

Inductive edge : Stage → Stage → Prop :=
| edge_forward s : active s → edge s (next_of s)
| edge_fail s : active s → edge s StageFailedRecoverable
| edge_resume s : active s → edge StageFailedRecoverable s
| edge_abort s : active s ∨ s = StageFailedRecoverable → edge s StageRollbackPending
| edge_rolled_back : edge StageRollbackPending StageRolledBack
| edge_refused : edge StageRollbackPending StageFailedTerminal.

(** A history that starts at [s] and ends at [t]. *)
Fixpoint walk (s : Stage) (l : list Transition) (t : Stage) : Prop :=
  match l with
  | [] => s = t
  | tr :: l' => tr_From tr = s ∧ edge s (tr_To tr) ∧ walk (tr_To tr) l' t
  end.

(** The forward stages up to [s]. *)
Fixpoint upto (s : Stage) (l : list Stage) : list Stage :=
  match l with
  | [] => []
  | a :: l' => if bool_decide (a = s) then [a] else a :: upto s l'
  end.

Definition passed (s : Stage) : list Stage := if isForwardStage s then upto s forwardStages else [].

(** The forward stage a run stands at; a failed run stands before the stage it
    resumes with. *)
Definition standing (r : Run) : Stage :=
  if bool_decide (rn_Stage r = StageFailedRecoverable) then previousStage (rn_ResumeStage r) else rn_Stage r.

Record good (r : Run) : Prop := {
  g_walk : walk StageRequested (rn_Transitions r) (rn_Stage r);
  g_progress : passed (standing r) `sublist_of` (tr_To <$> rn_Transitions r);
  g_resume : rn_Stage r = StageFailedRecoverable → isForwardStage (rn_ResumeStage r) = true;
  g_lineage : rn_Stage r ≠ StageRolledBack → rn_Stage r ≠ StageFailedTerminal →
    Forall (λ x, isForwardStage (rc_Stage x) = true) (rn_Resources r);
}.

(** *** Facts about stages *)

Lemma active_cases s : active s ↔
  s ∈ [StageRequested; StageIdentityReserved; StageServiceRegistered; StageReleaseSelected; StageRuntimeAllocated;
       StageSignerEnrolled; StageNostrConfigured; StageLLMVerified; StageDMVerified].
Proof. unfold active, forwardStages. rewrite !elem_of_cons, !elem_of_nil. destruct s; naive_solver. Qed.

Ltac stage_cases H :=
  rewrite active_cases, !elem_of_cons, elem_of_nil in H; repeat destruct H as [H|H]; try contradiction; subst.

Lemma next_forward s : active s → isForwardStage (next_of s) = true.
Proof. intros H. stage_cases H; by vm_compute. Qed.

Lemma next_passed s : active s → passed (next_of s) = passed s ++ [next_of s].
Proof. intros H. stage_cases H; by vm_compute. Qed.

Lemma previous_next s : active s → previousStage (next_of s) = s.
Proof. intros H. stage_cases H; by vm_compute. Qed.

Lemma previous_active s : isForwardStage s = true → active (previousStage s) ∧ next_of (previousStage s) = s.
Proof.
  unfold isForwardStage, forwardStages. rewrite bool_decide_eq_true, !elem_of_cons, elem_of_nil.
  intros Hs. rewrite active_cases. repeat destruct Hs as [Hs|Hs]; try contradiction; subst; vm_compute; (split; [set_solver|done]).
Qed.

Lemma nextStage_active r : active (rn_Stage r) → nextStage r = next_of (rn_Stage r).
Proof. unfold nextStage. intros H. by stage_cases H; rewrite H. Qed.

Lemma forward_valid s : isForwardStage s = true → validStage s = true.
Proof. unfold isForwardStage, validStage. rewrite !bool_decide_eq_true. rewrite elem_of_app. auto. Qed.

Lemma active_valid s : active s → validStage s = true.
Proof. intros H. stage_cases H; by vm_compute. Qed.

Lemma edge_target s t : edge s t →
  active t ∨ t = StageFailedRecoverable ∨ t = StageRollbackPending ∨ terminalProjection t = true.
Proof.
  destruct 1 as [s H|s H|s H|s H| |]; auto 10. stage_cases H; [left; rewrite active_cases; set_solver..|]. auto.
Qed.

Lemma walk_app s l1 l2 t : walk s (l1 ++ l2) t ↔ ∃ m, walk s l1 m ∧ walk m l2 t.
Proof.
  revert s. induction l1 as [|tr l1 IH]; intros s; simpl; [naive_solver|]. rewrite IH. naive_solver.
Qed.

Lemma walk_snoc s l t at_ to : walk s l t → edge t to → walk s (l ++ [mkTransition t to at_]) to.
Proof. intros. apply walk_app. by exists t. Qed.

Lemma walk_end s l t : active s → walk s l t →
  active t ∨ t = StageFailedRecoverable ∨ t = StageRollbackPending ∨ terminalProjection t = true.
Proof.
  revert s. induction l as [|tr l IH] using rev_ind; intros s Hs Hw; [simpl in Hw; subst; auto|].
  apply walk_app in Hw as (m & _ & _ & He & <-). by apply edge_target in He.
Qed.

(** Nothing leaves a terminal stage. *)
Lemma terminal_stuck s t : terminalProjection s = true → ¬ edge s t.
Proof.
  intros Hs He. inversion He; subst; try done; rename select (active _) into Ha || rename select (active _ ∨ _) into Ha.
  - stage_cases Ha; done.
  - stage_cases Ha; done.
  - destruct Ha as [Ha| ->]; [stage_cases Ha; done|done].
Qed.

Lemma active_not_failed : ¬ active StageFailedRecoverable.
Proof. intros H. stage_cases H; done. Qed.

Lemma edge_recoverable s : edge s StageFailedRecoverable → active s.
Proof.
  intros He. inversion He as [s' Ha E1 E2| | | | |]; subst; done.
Qed.

Lemma good_stage r : good r →
  active (rn_Stage r) ∨ rn_Stage r = StageFailedRecoverable ∨ rn_Stage r = StageRollbackPending ∨
  terminalProjection (rn_Stage r) = true.
Proof. intros Hg. eapply walk_end; [|apply Hg]. by left. Qed.

Lemma good_terminal_final r r' : good r → good r' → extends r r' → terminalProjection (rn_Stage r) = true →
  rn_Stage r' = rn_Stage r.
Proof.
  intros [Hw _ _ _] [Hw' _ _ _] [_ _ _ _ _ _ _ [l E] _ _] Ht. rewrite E in Hw'.
  apply walk_app in Hw' as (m & Hm & Hl). assert (m = rn_Stage r) as ->.
  { clear -Hm Hw. revert Hm Hw. generalize StageRequested (rn_Transitions r) (rn_Stage r). intros s l.
    revert s. induction l; simpl; [congruence|]. intros s t (_ & _ & ?) (_ & _ & ?). eauto. }
  destruct l as [|tr l]; [done|]. simpl in Hl. destruct Hl as (_ & He & _). by apply terminal_stuck in He.
Qed.

(** ** The log *)

Section discipline.
Context `{NostrPrims}.

(** The bursts of calls the engine makes.  An apply comes right after an
    inspection of the same stage that found nothing and is itself followed by
    one.  A compensation comes right after an inspection of that resource
    that found it there, created and owned by the run. *)
Inductive burst : list effect → Prop :=
| burst_inspect stage target r : isForwardStage stage = true → burst [Inspected stage target r]
| burst_apply stage obs key r :
    isForwardStage stage = true → os_Reality obs = RealityAbsent →
    burst [Inspected stage None (Ok obs); Applied stage key; Inspected stage None r]
| burst_compensate stage resource obs found key :
    isForwardStage stage = true → rc_Stage resource = stage → rc_Ownership resource = OwnershipCreated →
    os_Reality obs = RealityMatching → observedResource (os_Resources obs) (resource_key resource) = Some found →
    rc_Ownership found = OwnershipCreated → rc_OwnerRunID found = rc_OwnerRunID resource →
    (rc_Conflict resource = false → rc_SpecHash found = rc_SpecHash resource) →
    burst [Inspected stage (Some resource) (Ok obs); Compensated stage resource key]
| burst_terminal stage : burst [TerminalInspected stage]
| burst_publish stage key : burst [TerminalInspected stage; TerminalPublished stage key; TerminalInspected stage]
| burst_save r : good r → burst [Saved r].

Definition discipline (l : list effect) : Prop := ∃ bursts, l = concat bursts ∧ Forall burst bursts.

Lemma discipline_nil : discipline [].
Proof. by exists []. Qed.

Lemma discipline_burst l : burst l → discipline l.
Proof. intros Hl. exists [l]. simpl. rewrite app_nil_r. auto. Qed.

Lemma discipline_app l1 l2 : discipline l1 → discipline l2 → discipline (l1 ++ l2).
Proof.
  intros (b1 & -> & H1) (b2 & -> & H2). exists (b1 ++ b2). rewrite concat_app. split; [done|]. by apply Forall_app.
Qed.
End discipline.

#[export] Hint Resolve discipline_nil discipline_burst discipline_app : saga.
#[export] Hint Constructors burst : saga.

(** ** Safety *)

Section safety.
Context `{NostrPrims} {W S : Type} `{!Store S} `{!StoreLaws S} (e : Engine W).
Implicit Types (w : World W S) (run : Run).

Definition inv (w : World W S) : Prop :=
  store_ok (wd_store w) ∧ ∀ id r, store_Load id (wd_store w) = Ok r → good r.

(** Stored runs stay and are only extended. *)
Definition kept (s s' : S) : Prop :=
  ∀ id r, store_Load id s = Ok r → ∃ r', store_Load id s' = Ok r' ∧ extends r r'.

Record grows (w w' : World W S) : Prop := {
  gr_log : ∃ l, wd_log w' = wd_log w ++ l ∧ discipline l;
  gr_store : kept (wd_store w) (wd_store w');
}.

#[export] Instance kept_preorder : PreOrder kept.
Proof.
  split; [intros s id r Hr; by exists r|]. intros s1 s2 s3 H12 H23 id r Hr.
  destruct (H12 id r Hr) as (r2 & Hr2 & E2). destruct (H23 id r2 Hr2) as (r3 & Hr3 & E3).
  exists r3. split; [done|]. by transitivity r2.
Qed.

#[export] Instance grows_preorder : PreOrder grows.
Proof.
  split; [intros w; split; [exists []; rewrite app_nil_r; auto with saga|done]|].
  intros w1 w2 w3 [(l1 & E1 & D1) S1] [(l2 & E2 & D2) S2]. split; [|by transitivity (wd_store w2)].
  exists (l1 ++ l2). rewrite E2, E1, app_assoc. auto with saga.
Qed.

(** [m], run after the calls [pre] that are already on the log of [w]. *)
Definition safe_after {A} (pre : list effect) (m : M (W := W) (S := S) A) (Q : A → Prop) : Prop :=
  ∀ w, inv w → ∀ l, wd_log w = l ++ pre →
    inv (m w).2 ∧ (∃ l', wd_log (m w).2 = l ++ l' ∧ discipline l') ∧ kept (wd_store w) (wd_store (m w).2) ∧ Q (m w).1.

Definition safe {A} (m : M (W := W) (S := S) A) (Q : A → Prop) : Prop := safe_after [] m Q.

Lemma safe_grows {A} (m : M A) Q w : safe m Q → inv w → inv (m w).2 ∧ grows w (m w).2 ∧ Q (m w).1.
Proof.
  intros Hm Hw. destruct (Hm w Hw (wd_log w)) as (Hi & Hl & Hk & HQ); [by rewrite app_nil_r|].
  split; [done|]. by split.
Qed.

Lemma safe_after_of {A} pre (m : M A) Q : discipline pre → safe m Q → safe_after pre m Q.
Proof.
  intros Hp Hm w Hw l El. destruct (Hm w Hw (wd_log w)) as (Hi & (l' & E & D) & Hk & HQ); [by rewrite app_nil_r|].
  split; [done|]. split; [|done]. exists (pre ++ l'). rewrite E, El, app_assoc. auto with saga.
Qed.

Lemma safe_ret {A} (a : A) Q : Q a → safe (M_ret _ a) Q.
Proof. intros Ha w Hw l El. split; [done|]. split; [exists []; split; [exact El|apply discipline_nil]|]. by split. Qed.

Lemma safe_bind {A B} pre (m : M A) (f : A → M B) P Q :
  safe_after pre m P → (∀ a, P a → safe (f a) Q) → safe_after pre (M_bind _ _ f m) Q.
Proof.
  intros Hm Hf w Hw l El. destruct (Hm w Hw l El) as (Hi & (l1 & E1 & D1) & Hk & HP).
  unfold M_bind. destruct (m w) as [a w1]. simpl in *.
  destruct (Hf a HP w1 Hi (wd_log w1)) as (Hi2 & (l2 & E2 & D2) & Hk2 & HQ); [by rewrite app_nil_r|].
  split; [done|]. split; [exists (l1 ++ l2); rewrite E2, E1, app_assoc; auto with saga|]. split; [by etrans|done].
Qed.

Lemma safe_fmap {A B} (f : A → B) (m : M A) Q : safe m (λ a, Q (f a)) → safe (M_fmap _ _ f m) Q.
Proof.
  intros Hm w Hw l El. destruct (Hm w Hw l El) as (Hi & Hl & Hk & HQ). unfold M_fmap. by destruct (m w).
Qed.

Lemma safe_weaken {A} pre (m : M A) (P Q : A → Prop) : safe_after pre m P → (∀ a, P a → Q a) → safe_after pre m Q.
Proof. intros Hm HPQ w Hw l El. destruct (Hm w Hw l El) as (? & ? & ? & ?). auto. Qed.

Lemma safe_now : safe (now e) (λ _, True).
Proof. intros w Hw l El. split; [done|]. split; [exists []; split; [exact El|apply discipline_nil]|]. by split. Qed.

Lemma safe_load id : safe (load id) (λ res, ∀ r, res = Ok r → good r).
Proof.
  intros w [Hok Hg] l El. split; [done|]. split; [exists []; split; [exact El|apply discipline_nil]|]. split; [done|].
  simpl. intros r Hr. by eapply Hg.
Qed.

(** A logged driver call appends its record. *)
Lemma safe_call {A B} pre (call : W → A * W) (rec : A → effect) (f : A → M B) Q :
  (∀ a, safe_after (pre ++ [rec a]) (f a) Q) →
  safe_after pre (M_bind _ _ f (M_bind _ _ (λ r, M_bind _ _ (λ _, M_ret _ r) (log (rec r))) (external call))) Q.
Proof.
  intros Hf w Hw l El. unfold M_bind, M_ret, external, log. destruct (call (wd_ext w)) as [a x]. simpl.
  destruct (Hf a (mkWorld x (wd_store w) (wd_ticks w) (wd_log w ++ [rec a])) Hw l) as (? & ? & ? & ?); [|by split_and!].
  simpl. by rewrite El, app_assoc.
Qed.

Lemma safe_inspect {B} pre stage run target (f : result AdapterError Observation → M B) Q :
  (∀ r, safe_after (pre ++ [Inspected stage target r]) (f r) Q) →
  safe_after pre (M_bind _ _ f (inspect e stage run target)) Q.
Proof. apply safe_call. Qed.

Lemma safe_look {B} stage run target (f : result AdapterError Observation → M B) Q : isForwardStage stage = true →
  (∀ r, safe (f r) Q) → safe (M_bind _ _ f (inspect e stage run target)) Q.
Proof. intros Hs Hf. apply safe_inspect. intros r. apply safe_after_of; auto with saga. Qed.

(** An apply between two inspections of its stage. *)
Lemma safe_apply {B} stage run run' key obs (f : option AdapterError → result AdapterError Observation → M B) Q :
  isForwardStage stage = true → os_Reality obs = RealityAbsent → (∀ a r, safe (f a r) Q) →
  safe_after [Inspected stage None (Ok obs)]
    (M_bind _ _ (λ a, M_bind _ _ (f a) (inspect e stage run' None)) (apply_stage e stage run key)) Q.
Proof.
  intros Hs Ho Hf. unfold apply_stage. apply (safe_call _ _ (λ _, Applied stage key)). intros a. apply safe_inspect.
  intros r. apply safe_after_of; simpl; auto with saga.
Qed.

Lemma safe_compensate {B} run resource key obs found (f : option AdapterError → M B) Q :
  isForwardStage (rc_Stage resource) = true → rc_Ownership resource = OwnershipCreated →
  os_Reality obs = RealityMatching → observedResource (os_Resources obs) (resource_key resource) = Some found →
  rc_Ownership found = OwnershipCreated → rc_OwnerRunID found = rc_OwnerRunID resource →
  (rc_Conflict resource = false → rc_SpecHash found = rc_SpecHash resource) →
  (∀ a, safe (f a) Q) →
  safe_after [Inspected (rc_Stage resource) (Some resource) (Ok obs)]
    (M_bind _ _ f (compensate e (rc_Stage resource) run resource key)) Q.
Proof.
  intros. unfold compensate. apply (safe_call _ _ (λ _, Compensated (rc_Stage resource) resource key)). intros a.
  apply safe_after_of; simpl; eauto with saga.
Qed.
End safety.
