(* ===== verification/SagaMethods.v ===== *)
(** * Provisioning sagas: the methods are safe

    For every method of the engine, from the checkpoint primitives up to
    [Reconcile] and [SafeAbort], the [safe] statement of [SagaLogic]. *)

From Stdlib Require Import ZArith Lia Bool.
From stdpp Require Import base tactics decidable option list numbers strings gmap.
From S2P Require Import Prelude Bytes EventID Saga SagaStore SagaEngine SagaLogic.

(** ** Sorting *)

Lemma stable_insert_perm {A} (less : A → A → bool) x l : stable_insert less x l ≡ₚ x :: l.
Proof. induction l as [|y l IH]; simpl; [done|]. case_match; [done|]. rewrite IH. by constructor. Qed.

Lemma stable_sort_perm {A} (less : A → A → bool) l : stable_sort less l ≡ₚ l.
Proof.
  unfold stable_sort. change l with ([] ++ l) at 2. generalize (@nil A). induction l as [|x l IH]; intros acc; simpl.
  - by rewrite app_nil_r.
  - rewrite IH, stable_insert_perm. apply Permutation_middle.
Qed.

Lemma compensable_perm run : compensable run ≡ₚ
  filter (λ r, rc_Ownership r = OwnershipCreated ∧ rc_OwnerRunID r = rn_RunID run) (rn_Resources run).
Proof. unfold compensable, sortForCompensation. by rewrite !stable_sort_perm. Qed.

Section methods.
Context `{NostrPrims} {W S : Type} `{!Store S} `{!StoreLaws S} (e : Engine W).
Implicit Types (w : World W S) (run : Run).

(** ** Checkpoints *)

(** [run'] is [run] but for version, times and histories the invariant does
    not constrain. *)
Record same_place (run run' : Run) : Prop := {
  sp_stage : rn_Stage run' = rn_Stage run;
  sp_resume : rn_ResumeStage run' = rn_ResumeStage run;
  sp_run : rn_RunID run' = rn_RunID run;
  sp_request : rn_RequestID run' = rn_RequestID run;
  sp_transitions : rn_Transitions run' = rn_Transitions run;
}.

#[local] Instance same_place_preorder : PreOrder same_place.
Proof. split; [by intros r|]. intros a b c [] []. split; congruence. Qed.

Lemma good_same run run' : same_place run run' →
  (rn_Stage run ≠ StageRolledBack → rn_Stage run ≠ StageFailedTerminal →
     Forall (λ x, isForwardStage (rc_Stage x) = true) (rn_Resources run')) →
  good run → good run'.
Proof.
  intros [Hs Hr _ _ Ht] Hres []. split; unfold standing in *; rewrite ?Hs, ?Hr, ?Ht; auto.
Qed.

Lemma next_version_same run at_ : same_place run (next_version run at_).
Proof. done. Qed.

Lemma good_next run at_ : good run → good (next_version run at_).
Proof. intros Hg. apply (good_same run); [apply next_version_same|apply Hg|done]. Qed.

Lemma safe_checkpoint run next : good next →
  safe (store_checkpoint (W := W) (S := S) run next) (λ p, p.1 = None → p.2 = next).
Proof.
  intros Hn w [Hok Hg] l El. unfold store_checkpoint.
  destruct (store_Save next (rn_Version run) (wd_store w)) as [s|err] eqn:E; simpl.
  - destruct (save_ok _ _ _ _ Hok E) as (Hok' & (c & Hc & _ & _ & Hext) & Hload). split.
    { split; [done|]. intros id r. simpl. rewrite Hload. case_decide; [by intros [= <-]|apply Hg]. }
    split; [exists [Saved next]; rewrite El, app_nil_r; auto with saga|]. split; [|done].
    intros id r Hr. rewrite Hload. case_decide as Es; [|by exists r].
    exists next. split; [done|]. rewrite (load_slot _ _ _ Es) in Hr. congruence.
  - split; [done|]. split; [exists []; auto with saga|]. done.
Qed.

Lemma safe_save run : good run → safe (save e run) (λ p, p.1 = None → ∃ at_, p.2 = next_version run at_).
Proof.
  intros Hg. unfold save. eapply safe_bind; [apply safe_now|]. intros at_ _.
  eapply safe_weaken; [by apply safe_checkpoint, good_next|]. intros [err r]. simpl. eauto.
Qed.

Lemma safe_save_good run : good run → safe (save e run) (λ p, p.1 = None → good p.2 ∧ same_place run p.2).
Proof.
  intros Hg. eapply safe_weaken; [by apply safe_save|]. intros [err r]. simpl. intros Hr Hn.
  destruct (Hr Hn) as [at_ ->]. split; [by apply good_next|done].
Qed.

(** A move along an edge, with the progress it must not lose. *)
Lemma good_move run to resume at_ failures failure : good run → edge (rn_Stage run) to →
  (to = StageFailedRecoverable → isForwardStage resume = true ∧ previousStage resume = rn_Stage run) →
  (to ≠ StageFailedRecoverable → to ≠ StageRolledBack → to ≠ StageFailedTerminal → to ≠ StageRollbackPending →
     passed to `sublist_of` ((tr_To <$> rn_Transitions run) ++ [to])) →
  good (update_run run to resume (rn_Transitions run ++ [mkTransition (rn_Stage run) to at_]) failures failure).
Proof.
  intros [Hw Hp Hr Hl] He Hres Hpass. split; simpl.
  - by apply walk_snoc.
  - unfold standing. simpl. rewrite fmap_app. simpl. case_bool_decide as E.
    + destruct (Hres E) as [_ ->]. apply sublist_inserts_r. revert Hp. unfold standing.
      rewrite bool_decide_eq_false_2; [done|].
      intros E'. subst to. apply edge_recoverable in He. rewrite E' in He. by apply active_not_failed in He.
    + destruct (isForwardStage to) eqn:Ef; [|unfold passed; rewrite Ef; apply sublist_nil_l].
      apply Hpass; [done|intros ->; by vm_compute in Ef..].
  - intros E. by apply Hres.
  - intros H1 H2. apply Hl; intros E; rewrite E in He; by apply terminal_stuck in He.
Qed.

(** The run after a successful move to [to]. *)
Definition moved (run : Run) (to : Stage) (p : option SagaError * Run) : Prop :=
  p.1 = None → good p.2 ∧ rn_Stage p.2 = to ∧ rn_RunID p.2 = rn_RunID run.

Lemma safe_transition run to : good run → edge (rn_Stage run) to → to ≠ StageFailedRecoverable →
  (to ≠ StageRolledBack → to ≠ StageRollbackPending → passed to `sublist_of` ((tr_To <$> rn_Transitions run) ++ [to])) →
  safe (transition e run to) (moved run to).
Proof.
  intros Hg He Hne Hpass. unfold transition. destruct (validStage to); [|by apply safe_ret].
  eapply safe_bind; [apply safe_now|]. intros at_ _.
  eapply safe_weaken; [apply safe_save_good, good_move; auto; done|].
  intros [err r] Hr Hn. destruct (Hr Hn) as [Hgr [Hs _ Hrun _ _]]. by split_and!.
Qed.

Lemma safe_forward run : good run → active (rn_Stage run) →
  safe (transition e run (next_of (rn_Stage run))) (moved run (next_of (rn_Stage run))).
Proof.
  intros Hg Ha. apply safe_transition; [done|by constructor| |].
  - intros E. apply next_forward in Ha. rewrite E in Ha. by vm_compute in Ha.
  - intros _ _. rewrite next_passed by done. apply sublist_app; [|done].
    pose proof (g_progress _ Hg) as Hp. unfold standing in Hp. rewrite bool_decide_eq_false_2 in Hp; [done|].
    intros E. rewrite E in Ha. by apply active_not_failed in Ha.
Qed.

Lemma safe_resume run : good run → rn_Stage run = StageFailedRecoverable →
  safe (transition e run (previousStage (rn_ResumeStage run))) (moved run (previousStage (rn_ResumeStage run))).
Proof.
  intros Hg E. destruct (previous_active _ (g_resume _ Hg E)) as [Ha _]. apply safe_transition; [done| | |].
  - rewrite E. by constructor.
  - intros E'. rewrite E' in Ha. by apply active_not_failed in Ha.
  - intros _ _. apply sublist_inserts_r. pose proof (g_progress _ Hg) as Hp. unfold standing in Hp.
    by rewrite bool_decide_eq_true_2 in Hp.
Qed.

Lemma safe_abort_move run : good run → active (rn_Stage run) ∨ rn_Stage run = StageFailedRecoverable →
  safe (transition e run StageRollbackPending) (moved run StageRollbackPending).
Proof. intros Hg Ha. apply safe_transition; [done|by constructor|done..]. Qed.

Lemma safe_rolled_back run : good run → rn_Stage run = StageRollbackPending →
  safe (transition e run StageRolledBack) (moved run StageRolledBack).
Proof. intros Hg E. apply safe_transition; [done|rewrite E; constructor|done..]. Qed.

(** *** Resources *)

(** Where the engine records resources: forward stages, and terminal ones of a
    run that has ended. *)
Definition records_at (run : Run) (stage : Stage) : Prop :=
  isForwardStage stage = true ∨ rn_Stage run = StageRolledBack ∨ rn_Stage run = StageFailedTerminal.

(** The run after a successful checkpoint. *)
Definition stays (run : Run) (p : option SagaError * Run) : Prop := p.1 = None → good p.2 ∧ same_place run p.2.

Lemma stays_same run err : good run → stays run (err, run).
Proof. by intros Hg _. Qed.

Lemma safe_recorded_at (x : Resource) : safe (recorded_at (W := W) (S := S) e x) (λ _, True).
Proof. unfold recorded_at. case_match; [apply safe_now|by apply safe_ret]. Qed.

Lemma safe_add_resource run x : good run → records_at run (rc_Stage x) → safe (save e (add_resource run x)) (stays run).
Proof.
  intros Hg Hx. eapply safe_weaken; [apply safe_save_good|].
  - apply (good_same run); [done| |done]. intros H1 H2. simpl. apply Forall_app. split; [by apply Hg|].
    constructor; [|done]. by destruct Hx as [|[]].
  - intros p Hp Hn. destruct (Hp Hn) as [Hgp Hs]. split; [done|]. etransitivity; [|exact Hs]. done.
Qed.

Lemma safe_checkpointResource run stage x : good run → records_at run stage →
  safe (checkpointResource e run stage x) (stays run).
Proof.
  intros Hg Hx. unfold checkpointResource. eapply safe_bind; [apply safe_recorded_at|]. intros at_ _.
  repeat (case_match; try by apply safe_ret, stays_same). by apply safe_add_resource.
Qed.

Lemma safe_checkpointConflictResource run stage x : good run → records_at run stage →
  safe (checkpointConflictResource e run stage x) (stays run).
Proof.
  intros Hg Hx. unfold checkpointConflictResource. case_match; [by apply safe_ret, stays_same|].
  eapply safe_bind; [apply safe_recorded_at|]. intros at_ _.
  case_match; [by apply safe_ret, stays_same|]. by apply safe_add_resource.
Qed.

Lemma safe_checkpoint_loop step stage : (∀ run x, good run → records_at run stage → safe (step run x) (stays run)) →
  ∀ resources run, good run → records_at run stage →
  safe (checkpoint_loop (W := W) (S := S) step run resources) (stays run).
Proof.
  intros Hstep resources. induction resources as [|x resources IH]; intros run Hg Hx; simpl; [by apply safe_ret|].
  eapply safe_bind; [by apply Hstep|]. intros [err run'] Hp. destruct err as [err|]; [by apply safe_ret|].
  destruct (Hp eq_refl) as [Hg' Hs]. simpl in *. eapply safe_weaken.
  - apply IH; [done|]. destruct Hx as [|[]]; [by left|right; rewrite (sp_stage _ _ Hs); auto..].
  - intros p Hp' Hn. destruct (Hp' Hn). split; [done|]. by etransitivity.
Qed.

Lemma safe_checkpointResources run stage resources : good run → records_at run stage →
  safe (checkpointResources e run stage resources) (stays run).
Proof.
  intros Hg Hx. unfold checkpointResources. case_match; [by apply safe_ret, stays_same|].
  apply (safe_checkpoint_loop _ stage); [|done..]. intros. by apply safe_checkpointResource.
Qed.

Lemma safe_checkpointConflictResources run stage resources : good run → records_at run stage →
  safe (checkpointConflictResources e run stage resources) (stays run).
Proof.
  intros Hg Hx. apply (safe_checkpoint_loop _ stage); [|done..]. intros. by apply safe_checkpointConflictResource.
Qed.

Lemma safe_recordCompensation run x result : good run → safe (recordCompensation e run x result) (stays run).
Proof.
  intros Hg. unfold recordCompensation. eapply safe_bind; [apply safe_now|]. intros at_ _.
  eapply safe_weaken; [apply safe_save_good|].
  - apply (good_same run); [done|apply Hg|done].
  - intros p Hp Hn. destruct (Hp Hn) as [Hgp Hs]. split; [done|]. etransitivity; [|exact Hs]. done.
Qed.

(** ** Terminal projection *)

Lemma terminal_records run : terminalProjection (rn_Stage run) = true → records_at run (rn_Stage run).
Proof. unfold terminalProjection, records_at. destruct (rn_Stage run); auto; done. Qed.

Lemma safe_terminal {B} run (f : result AdapterError Observation → M (W := W) (S := S) B) Q :
  (∀ r, safe_after [TerminalInspected (rn_Stage run)] (f r) Q) → safe (M_bind _ _ f (InspectTerminal e run)) Q.
Proof. intros Hf. unfold InspectTerminal. apply (safe_call _ _ (λ _, TerminalInspected (rn_Stage run))). done. Qed.

Lemma safe_publish {B} run key (f : option AdapterError → result AdapterError Observation → M (W := W) (S := S) B) Q :
  (∀ a r, safe (f a r) Q) →
  safe_after [TerminalInspected (rn_Stage run)]
    (M_bind _ _ (λ a, M_bind _ _ (f a) (InspectTerminal e run)) (PublishTerminal e run key)) Q.
Proof.
  intros Hf. unfold PublishTerminal. apply (safe_call _ _ (λ _, TerminalPublished (rn_Stage run) key)). intros a.
  unfold InspectTerminal. apply (safe_call _ _ (λ _, TerminalInspected (rn_Stage run))). intros r.
  apply safe_after_of; simpl; auto with saga.
Qed.

Lemma safe_ensureTerminal run : good run → terminalProjection (rn_Stage run) = true → safe (ensureTerminal e run) (stays run).
Proof.
  intros Hg Ht. unfold ensureTerminal. apply safe_terminal. intros r.
  assert (∀ obs, safe (if negb (bool_decide (os_Reality obs = RealityMatching)) ||
                          negb (hasTerminalProjection (os_Resources obs) run (rn_Stage run))
                       then M_ret _ (Some projection_mismatch, run)
                       else checkpointResources e run (rn_Stage run) (os_Resources obs)) (stays run)) as Hfin.
  { intros obs. case_match; [by apply safe_ret|]. by apply safe_checkpointResources, terminal_records. }
  assert (discipline [TerminalInspected (rn_Stage run)]) as Hd by auto with saga.
  destruct r as [obs|err]; [|by apply safe_after_of, safe_ret].
  generalize (Hfin obs). destruct (os_Reality obs); intros Hobs;
    [|by apply safe_after_of|by apply safe_after_of, safe_ret|by apply safe_after_of].
  apply (safe_publish run _ (λ _ r', _)). intros _ [obs'|err]; [|by apply safe_ret].
  generalize (Hfin obs'). by destruct (bool_decide (os_Reality obs' = _)); [|intros _; apply safe_ret].
Qed.

Lemma safe_inspectTerminal run : safe (inspectTerminal e run) (λ _, True).
Proof. apply safe_terminal. intros r. apply safe_after_of; [auto with saga|by apply safe_ret]. Qed.

(** ** Failures *)

Lemma safe_settle_failure run code message canRetry : good run →
  safe (settle_failure e run code message canRetry) (λ _, True).
Proof.
  intros Hg. unfold settle_failure. eapply safe_bind; [by apply safe_save_good|].
  intros [[err|] run'] Hp; [by apply safe_ret|]. destruct (Hp eq_refl) as [Hg' _]. simpl in *.
  case_bool_decide as E; [|by apply safe_ret]. eapply safe_bind.
  - apply safe_ensureTerminal; [done|]. by rewrite E.
  - intros [[err|] run''] _; by apply safe_ret.
Qed.

Lemma Mark_same policy run at_ : same_place run (Mark policy run at_) ∧ rn_Resources (Mark policy run at_) = rn_Resources run.
Proof. unfold Mark. repeat case_match; done. Qed.

Lemma good_mark policy run at_ : good run → good (Mark policy run at_).
Proof.
  intros Hg. destruct (Mark_same policy run at_) as [Hs Hr]. apply (good_same run); [done| |done].
  rewrite Hr. apply Hg.
Qed.

Lemma safe_fail run cause : good run → active (rn_Stage run) → safe (fail e run (nextStage run) cause true) (λ _, True).
Proof.
  intros Hg Ha. unfold fail. destruct (publicFailure cause) as [code message].
  do 3 (eapply safe_bind; [apply safe_now|]; intros ? _). apply safe_settle_failure, good_mark, good_move; [done|by constructor| |done].
  rewrite (nextStage_active _ Ha). intros _. split; [by apply next_forward|by apply previous_next].
Qed.

Lemma safe_rollbackFail run stage cause canRetry : good run → rn_Stage run = StageRollbackPending →
  safe (rollbackFail e run stage cause canRetry) (λ _, True).
Proof.
  intros Hg E. unfold rollbackFail. destruct (publicFailure cause) as [code message].
  eapply safe_bind; [apply safe_now|]. intros at1 _. destruct canRetry.
  - apply safe_settle_failure. apply (good_same run); [by split|apply Hg|done].
  - do 2 (eapply safe_bind; [apply safe_now|]; intros ? _).
    apply safe_settle_failure, good_mark, good_move; [done|rewrite E; constructor|done..].
Qed.

(** ** Abort *)

Lemma safe_abort_plan run resources report : Forall (λ x, isForwardStage (rc_Stage x) = true) resources →
  safe (abort_plan e run resources report) (λ _, True).
Proof.
  intros Hr. revert report. induction Hr as [|x resources Hx Hr IH]; intros report; [by apply safe_ret|].
  apply safe_look; [done|]. intros r. apply IH.
Qed.

(** A resource [run] may compensate. *)
Definition may_compensate (run : Run) (x : Resource) : Prop :=
  isForwardStage (rc_Stage x) = true ∧ rc_Ownership x = OwnershipCreated ∧ rc_OwnerRunID x = rn_RunID run.

Definition still_pending (run : Run) (r : Run + outcome) : Prop :=
  ∀ run', r = inl run' → good run' ∧ rn_Stage run' = StageRollbackPending ∧ rn_RunID run' = rn_RunID run.

Lemma safe_compensation run x result : good run → rn_Stage run = StageRollbackPending →
  safe (M_bind _ _ (λ '(err, run'), M_ret _ (match err with Some err => inr (None, Some err) | None => inl run' end))
         (recordCompensation e run x result)) (still_pending run).
Proof.
  intros Hg E. eapply safe_bind; [by apply safe_recordCompensation|]. intros [[err|] run'] Hp; apply safe_ret; [done|].
  destruct (Hp eq_refl) as [Hg' [Hs _ Hr _ _]]. simpl in *. intros ? [= <-]. by rewrite Hs.
Qed.

Lemma safe_give_up run stage cause canRetry : good run → rn_Stage run = StageRollbackPending →
  safe (M_bind _ _ (λ o, M_ret _ (inr o)) (rollbackFail e run stage cause canRetry)) (still_pending run).
Proof. intros Hg E. eapply safe_bind; [by apply safe_rollbackFail|]. intros o _. by apply safe_ret. Qed.

Lemma not_refused run x found :
  negb (owned_by run found) || negb (rc_Conflict x) && negb (String.eqb (rc_SpecHash found) (rc_SpecHash x)) = false →
  rc_Ownership found = OwnershipCreated ∧ rc_OwnerRunID found = rn_RunID run ∧
  (rc_Conflict x = false → rc_SpecHash found = rc_SpecHash x).
Proof.
  unfold owned_by. rewrite orb_false_iff, negb_false_iff, andb_true_iff, bool_decide_eq_true, String.eqb_eq.
  intros [[Hc Ho] Hs]. split_and!; [done..|]. intros E. rewrite E in Hs. simpl in Hs.
  by rewrite negb_false_iff, String.eqb_eq in Hs.
Qed.

Lemma safe_compensate_one run x : good run → rn_Stage run = StageRollbackPending → may_compensate run x →
  safe (compensate_one e run x) (still_pending run).
Proof.
  intros Hg E (Hf & Hc & Ho). unfold compensate_one. case_match; [apply safe_ret; intros ? [= <-]; done|].
  apply safe_inspect. simpl. intros r. assert (discipline [Inspected (rc_Stage x) (Some x) r]) by auto with saga.
  destruct r as [obs|cause]; [|apply safe_after_of; [done|by apply safe_give_up]].
  case_bool_decide; [apply safe_after_of; [done|by apply safe_compensation]|].
  case_bool_decide as Em; simpl; [apply safe_after_of; [done|by apply safe_give_up]|].
  destruct (observedResource (os_Resources obs) (resource_key x)) as [found|] eqn:Efound; simpl;
    [|apply safe_after_of; [done|by apply safe_give_up]].
  destruct (negb (owned_by run found) || _) eqn:Eown; [apply safe_after_of; [done|by apply safe_give_up]|].
  destruct (not_refused _ _ _ Eown) as (Hc' & Ho' & Hs').
  eapply safe_compensate; try done; [congruence|]. intros [err|]; [by apply safe_give_up|].
  apply safe_look; [done|]. intros [post|cause]; [|by apply safe_give_up].
  case_match; [by apply safe_compensation|]. destruct (bool_decide (os_Reality post ≠ _)); [by apply safe_give_up|by apply safe_compensation].
Qed.

Lemma safe_compensate_all resources run : good run → rn_Stage run = StageRollbackPending →
  Forall (may_compensate run) resources → safe (compensate_all e run resources) (still_pending run).
Proof.
  revert run. induction resources as [|x resources IH]; intros run Hg E Hx; [apply safe_ret; by intros ? [= <-]|].
  apply Forall_cons in Hx as [Hx Hr]. eapply safe_bind; [by apply safe_compensate_one|].
  intros [run'|o] Hp; [|by apply safe_ret]. destruct (Hp run' eq_refl) as (Hg' & E' & Er).
  eapply safe_weaken; [apply IH; [done..|]|].
  - eapply Forall_impl; [exact Hr|]. intros y. unfold may_compensate. by rewrite Er.
  - intros [run2|o] Hp2; [|done]. intros ? [= <-]. rewrite <- Er. by apply Hp2.
Qed.

Lemma compensable_may run : good run → rn_Stage run = StageRollbackPending → Forall (may_compensate run) (compensable run).
Proof.
  intros Hg E. rewrite compensable_perm. apply Forall_forall. intros x [[Hc Ho] Hx]%list_elem_of_filter.
  split; [|done]. assert (Forall (λ x, isForwardStage (rc_Stage x) = true) (rn_Resources run)) as Hf by (apply Hg; by rewrite E).
  by eapply Forall_forall in Hf.
Qed.

Lemma compensable_forward run : good run → terminalProjection (rn_Stage run) = false →
  Forall (λ x, isForwardStage (rc_Stage x) = true) (compensable run).
Proof.
  intros Hg E. rewrite compensable_perm. apply Forall_forall. intros x [_ Hx]%list_elem_of_filter.
  revert x Hx. apply Forall_forall, Hg; intros E'; by rewrite E' in E.
Qed.

Lemma safe_finish_abort run : good run → rn_Stage run = StageRollbackPending → safe (finish_abort e run) (λ _, True).
Proof.
  intros Hg E. unfold finish_abort. eapply safe_bind; [by apply safe_rolled_back|].
  intros [[err|] run1] Hp; [by apply safe_ret|]. destruct (Hp eq_refl) as (Hg1 & E1 & _). simpl in *.
  eapply safe_bind; [apply safe_now|]. intros at_ _.
  apply (safe_bind _ _ _ (λ p, p.1 = None → good p.2 ∧ rn_Stage p.2 = StageRolledBack)).
  - destruct (Mark_same (en_retention e) run1 at_) as [[Hs _ _ _ _] _]. rewrite E1 in Hs.
    case_bool_decide; [|apply safe_ret; intros _; split; [by apply good_mark|done]].
    eapply safe_weaken; [by apply safe_save_good, good_mark|]. intros p Hp' Hn. destruct (Hp' Hn) as [? [Hs' _ _ _ _]].
    split; [done|congruence].
  - intros [[err|] run2] Hp2; [by apply safe_ret|]. destruct (Hp2 eq_refl) as [Hg2 E2]. simpl in *.
    eapply safe_bind; [apply safe_ensureTerminal; [done|by rewrite E2]|]. intros [err run3] _. by apply safe_ret.
Qed.

Lemma safe_SafeAbort requestID dryRun : safe (SafeAbort e requestID dryRun) (λ _, True).
Proof.
  unfold SafeAbort. eapply safe_bind; [apply safe_load|]. intros [run|err] Hrun; [|by apply safe_ret].
  pose proof (Hrun _ eq_refl) as Hg. destruct (terminalProjection (rn_Stage run)) eqn:Et; [by apply safe_ret|].
  destruct dryRun.
  { eapply safe_bind; [by apply safe_abort_plan, compensable_forward|]. intros report _. by apply safe_ret. }
  apply (safe_bind _ _ _ (λ p, p.1 = None → good p.2 ∧ rn_Stage p.2 = StageRollbackPending)).
  - case_bool_decide as E; [|by apply safe_ret].
    eapply safe_weaken; [apply safe_abort_move; [done|]|intros p Hp Hn; by destruct (Hp Hn) as (? & ? & _)].
    destruct (good_stage _ Hg) as [|[|[|]]]; auto; congruence.
  - intros [[err|] run1] Hp; [by apply safe_ret|]. destruct (Hp eq_refl) as [Hg1 E1]. simpl in *.
    eapply safe_bind; [by apply safe_compensate_all, compensable_may|]. intros [run2|o] Hp2; [|by apply safe_ret].
    destruct (Hp2 _ eq_refl) as (Hg2 & E2 & _). by apply safe_finish_abort.
Qed.

Lemma safe_failAndRollback run stage cause : good run → active (rn_Stage run) →
  safe (failAndRollback e run stage cause) (λ _, True).
Proof.
  intros Hg Ha. unfold failAndRollback. destruct (publicFailure cause) as [code message].
  do 2 (eapply safe_bind; [apply safe_now|]; intros ? _).
  eapply safe_bind; [apply safe_save_good, good_move; [done|by constructor; left|done..]|].
  intros [[err|] run'] _; [by apply safe_ret|]. eapply safe_bind; [apply safe_SafeAbort|].
  intros [report abortErr] _. by apply safe_ret.
Qed.

(** ** Reconciliation *)

Lemma safe_reach_stage run resources : good run → active (rn_Stage run) →
  safe (reach_stage e run (nextStage run) resources) (moved run (nextStage run)).
Proof.
  intros Hg Ha. unfold reach_stage. rewrite (nextStage_active _ Ha).
  eapply safe_bind; [apply safe_checkpointResources; [done|by left; apply next_forward]|].
  intros [[err|] run1] Hp; [by apply safe_ret|]. destruct (Hp eq_refl) as [Hg1 [Hs _ Hr _ _]]. simpl in *.
  eapply safe_weaken; [rewrite <- Hs in *; by apply safe_forward|]. intros p Hp' Hn. destruct (Hp' Hn) as (? & ? & ?).
  split_and!; congruence || done.
Qed.

Lemma safe_reject_stage run resources message : good run → active (rn_Stage run) →
  safe (reject_stage e run (nextStage run) resources message) (λ _, True).
Proof.
  intros Hg Ha. unfold reject_stage. rewrite (nextStage_active _ Ha).
  eapply safe_bind; [apply safe_checkpointConflictResources; [done|by left; apply next_forward]|].
  intros [[err|] run1] Hp; [by apply safe_ret|]. destruct (Hp eq_refl) as [Hg1 [Hs _ Hr _ _]]. simpl in *.
  apply safe_failAndRollback; [done|by rewrite Hs].
Qed.

Lemma enforced_absent run stage r obs : enforced run stage r = Ok obs → os_Reality obs = RealityAbsent →
  r = Ok obs.
Proof.
  destruct r as [o|]; [|done]. simpl. unfold enforceObservation. intros [= <-]. by repeat case_match.
Qed.

Lemma active_passed s : active s → (length (passed s) < 9)%nat.
Proof. intros Ha. stage_cases Ha; vm_compute; lia. Qed.

Lemma next_active s : active s → next_of s = StageRunning ∨ active (next_of s).
Proof. intros Ha. rewrite active_cases. stage_cases Ha; vm_compute; set_solver. Qed.

(** The loop's result: one there is when the fuel covers the stages left. *)
Definition answers (fuel : nat) (run : Run) (o : option outcome) : Prop :=
  (9 ≤ fuel + length (passed (rn_Stage run)))%nat → is_Some o.

Lemma safe_answer {A} (m : M (W := W) (S := S) A) (Q : option A → Prop) : safe m (λ _, True) → (∀ a, Q (Some a)) →
  safe (M_fmap _ _ Some m) Q.
Proof. intros Hm HQ. apply safe_fmap. eapply safe_weaken; [exact Hm|]. auto. Qed.

Lemma safe_go_on loop fuel run resources : good run → active (rn_Stage run) →
  (∀ run1, good run1 → active (rn_Stage run1) → safe (loop run1) (answers fuel run1)) →
  safe (go_on e loop run (nextStage run) resources) (answers (Datatypes.S fuel) run).
Proof.
  intros Hg Ha Hloop. pose proof (nextStage_active _ Ha) as En.
  unfold go_on. eapply safe_bind; [by apply safe_reach_stage|].
  intros [[err|] run1] Hp; [apply safe_ret; by eexists|]. destruct (Hp eq_refl) as (Hg1 & E1 & _). simpl in *.
  case_bool_decide as Er; [apply safe_ret; by eexists|]. eapply safe_weaken; [apply Hloop; [done|]|].
  - rewrite E1, En in *. by destruct (next_active _ Ha).
  - intros o Ho Hl. apply Ho. rewrite E1, En, next_passed, length_app by done. simpl. lia.
Qed.

Lemma safe_unverified run applyErr verified : good run → active (rn_Stage run) →
  safe (unverified e run (nextStage run) applyErr verified) (λ _, True).
Proof.
  intros Hg Ha. unfold unverified. destruct applyErr as [err|]; [destruct (retryable err)|destruct verified].
  2: exact (safe_failAndRollback _ _ _ Hg Ha).
  all: exact (safe_fail _ _ Hg Ha).
Qed.

Lemma safe_reconcile_loop fuel run dryRun : good run → active (rn_Stage run) →
  safe (reconcile_loop e fuel run dryRun) (answers fuel run).
Proof.
  revert run. induction fuel as [|fuel IH]; intros run Hg Ha.
  { apply safe_ret. intros Hl. apply active_passed in Ha. lia. }
  assert (∀ o, answers (Datatypes.S fuel) run (Some o)) as Hans by (intros o _; by eexists).
  pose proof (next_forward _ Ha) as Hf. rewrite <- (nextStage_active _ Ha) in Hf.
  cbn [reconcile_loop]. case_bool_decide as Eno; [by rewrite Eno in Hf|].
  apply safe_inspect. intros r. simpl app.
  assert (discipline [Inspected (nextStage run) None r]) as Hd by auto with saga.
  destruct (enforced run (nextStage run) r) as [obs|cause] eqn:Eobs.
  2: { apply safe_after_of; [done|]. destruct dryRun; [by apply safe_ret|]. by apply safe_answer; [apply safe_fail|]. }
  destruct (os_Reality obs) eqn:Eo.
  - destruct dryRun; [by apply safe_after_of, safe_ret|]. apply enforced_absent in Eobs as ->; [|done].
    apply (safe_apply e _ _ _ _ _ (λ applyErr v, _)); [done..|]. intros applyErr v.
    pose proof (λ verified, safe_answer _ _ (safe_unverified run applyErr verified Hg Ha) Hans) as Hun.
    destruct (enforced run (nextStage run) v) as [obs'|]; [|apply Hun]. destruct (os_Reality obs'); try apply Hun.
    + case_match; [apply Hun|]. by apply safe_go_on.
    + by apply safe_answer; [apply safe_reject_stage|].
  - apply safe_after_of; [done|]. case_match; [by apply safe_ret|]. destruct dryRun; [by apply safe_ret|by apply safe_go_on].
  - apply safe_after_of; [done|]. destruct dryRun; [by apply safe_ret|]. by apply safe_answer; [apply safe_reject_stage|].
  - by apply safe_after_of, safe_ret.
Qed.

Lemma safe_Reconcile requestID dryRun : safe (Reconcile e requestID dryRun) is_Some.
Proof.
  unfold Reconcile. eapply safe_bind; [apply safe_load|]. intros [run|err] Hrun; [|by apply safe_ret; eexists].
  pose proof (Hrun _ eq_refl) as Hg. case_bool_decide as E1; [apply safe_answer; [apply safe_SafeAbort|by eexists]|].
  assert (∀ run1, good run1 → active (rn_Stage run1) → safe (reconcile_loop e reconcile_fuel run1 dryRun) is_Some) as Hloop.
  { intros run1 Hg1 Ha1. eapply safe_weaken; [by apply safe_reconcile_loop|]. intros o Ho. apply Ho. unfold reconcile_fuel. lia. }
  destruct (terminalProjection (rn_Stage run)) eqn:E2.
  { destruct dryRun; [apply safe_answer; [apply safe_inspectTerminal|by eexists]|].
    eapply safe_bind; [by apply safe_ensureTerminal|]. intros [terr run'] _. apply safe_ret. by eexists. }
  case_bool_decide as E3.
  - pose proof (g_resume _ Hg E3) as Hf. destruct dryRun.
    { apply safe_look; [done|]. intros r. apply safe_ret. by eexists. }
    eapply safe_bind; [by apply safe_resume|]. intros [[err|] run1] Hp; [by apply safe_ret; eexists|].
    destruct (Hp eq_refl) as (Hg1 & Es & _). simpl in Es. apply Hloop; [done|]. rewrite Es. by apply previous_active.
  - apply Hloop; [done|]. destruct (good_stage _ Hg) as [|[|[|]]]; done || congruence.
Qed.

(** ** Start and inspection *)

Lemma NewRun_good requestID runID agentID specHash at_ run : NewRun requestID runID agentID specHash at_ = Some run → good run.
Proof.
  unfold NewRun. do 2 (case_match; [done|]). intros [= <-]. by split.
Qed.

Lemma safe_create_run run requestID runID agentID specHash : good run →
  safe (create_run (W := W) (S := S) run requestID runID agentID specHash) (λ _, True).
Proof.
  intros Hn w [Hok Hg] l El. rewrite app_nil_r in El. unfold create_run.
  destruct (store_Create run (wd_store w)) as [s|err] eqn:E.
  - destruct (create_ok _ _ _ Hok E) as (Hok' & Hnone & Hload). simpl.
    split; [split; [done|]|].
    { intros id r. simpl. rewrite Hload. case_decide; [by intros [= <-]|apply Hg]. }
    split; [exists [Saved run]; rewrite El; auto with saga|]. split; [|done].
    intros id r Hr. exists r. rewrite Hload. case_decide as Es; [|done]. rewrite (load_slot _ _ _ Es) in Hr. congruence.
  - assert (∀ a : option Run * option SagaError,
      inv (a, w).2 ∧ (∃ l', wd_log (a, w).2 = l ++ l' ∧ discipline l') ∧ kept (wd_store w) (wd_store (a, w).2) ∧ True) as Hsame.
    { intros a. split; [done|]. split; [exists []; rewrite app_nil_r; auto with saga|done]. }
    repeat case_match; apply Hsame.
Qed.

Lemma safe_Start requestID runID agentID specHash : safe (Start e requestID runID agentID specHash) (λ _, True).
Proof.
  unfold Start. eapply safe_bind; [apply safe_now|]. intros at_ _. case_match; [|by apply safe_ret].
  eapply safe_create_run, NewRun_good. done.
Qed.

Lemma nextStage_forward run : good run → nextStage run ≠ NoStage → isForwardStage (nextStage run) = true.
Proof.
  intros Hg Hn. destruct (good_stage _ Hg) as [Ha|[E|[E|E]]].
  - rewrite (nextStage_active _ Ha). by apply next_forward.
  - unfold nextStage. rewrite E. by apply Hg.
  - exfalso. apply Hn. unfold nextStage. by rewrite E.
  - exfalso. apply Hn. unfold nextStage, terminalProjection in *. by destruct (rn_Stage run).
Qed.

Lemma safe_Inspect requestID : safe (Inspect e requestID) (λ _, True).
Proof.
  unfold Inspect. eapply safe_bind; [apply safe_load|]. intros [run|err] Hrun; [|by apply safe_ret].
  pose proof (Hrun _ eq_refl) as Hg. case_bool_decide; [by apply safe_ret|].
  apply safe_look; [by apply nextStage_forward|]. intros r. by apply safe_ret.
Qed.
End methods.
