(* ===== verification/SagaProps.v ===== *)
(** * Provisioning sagas: properties

    Executions are sequences of engine calls and purges over any store that
    keeps [StoreLaws].  Stored runs follow the stage machine and are only
    extended, drivers are only called in the disciplined bursts of
    [SagaLogic], dry runs only observe, [Reconcile] always returns, and purges
    remove exactly the expired runs.  The sample at the end is an engine with
    a driver that creates one resource per stage. *)

From Stdlib Require Import ZArith Lia Bool.
From stdpp Require Import base tactics decidable option list numbers strings gmap relations sorting.
From S2P Require Import Prelude Bytes EventID Bolt Saga SagaStore SagaEngine SagaLogic SagaMethods.

(** ** Executions *)

(** The calls of the service and of the retention job. *)
Inductive saga_call :=
| CallStart (requestID runID agentID specHash : string)
| CallReconcile (requestID : string) (dryRun : bool)
| CallSafeAbort (requestID : string) (dryRun : bool)
| CallInspect (requestID : string)
| CallPurge (now : Z).

Section executions.
Context `{NostrPrims} {W S : Type} `{!Store S} `{!StoreLaws S} (e : Engine W).
Implicit Types (w : World W S) (run : Run).

Definition saga_step (c : saga_call) (w : World W S) : World W S :=
  match c with
  | CallStart requestID runID agentID specHash => (Start e requestID runID agentID specHash w).2
  | CallReconcile requestID dryRun => (Reconcile e requestID dryRun w).2
  | CallSafeAbort requestID dryRun => (SafeAbort e requestID dryRun w).2
  | CallInspect requestID => (Inspect e requestID w).2
  | CallPurge now => mkWorld (wd_ext w) (PurgeExpired now (wd_store w)).2 (wd_ticks w) (wd_log w)
  end.

Definition execute (calls : list saga_call) (w : World W S) : World W S := foldl (λ w c, saga_step c w) w calls.

Definition is_purge (c : saga_call) : bool := match c with CallPurge _ => true | _ => false end.

Lemma engine_step c w : is_purge c = false → inv w → inv (saga_step c w) ∧ grows w (saga_step c w).
Proof.
  intros Hc Hw. destruct c; [| | | |done]; simpl.
  - destruct (safe_grows _ _ w (safe_Start e requestID runID agentID specHash) Hw) as (? & ? & _). done.
  - destruct (safe_grows _ _ w (safe_Reconcile e requestID dryRun) Hw) as (? & ? & _). done.
  - destruct (safe_grows _ _ w (safe_SafeAbort e requestID dryRun) Hw) as (? & ? & _). done.
  - destruct (safe_grows _ _ w (safe_Inspect e requestID) Hw) as (? & ? & _). done.
Qed.

Lemma purge_runs_inv now runs n errs (s : S) :
  store_ok s ∧ (∀ id r, store_Load id s = Ok r → good r) →
  let s' := (purge_runs now runs n errs s).2 in store_ok s' ∧ ∀ id r, store_Load id s' = Ok r → good r.
Proof.
  revert n errs s. induction runs as [|run runs IH]; intros n errs s Hs; simpl; [done|].
  case_match; [|by apply IH]. destruct (store_Delete _ _ s) as [s'|] eqn:E; apply IH; [|done].
  destruct Hs as [Hok Hg]. destruct (delete_ok _ _ _ _ Hok E) as (Hok' & _ & Hl). split; [done|].
  intros id r. rewrite Hl. case_decide; [done|]. apply Hg.
Qed.

Lemma purge_inv now w : inv w → inv (saga_step (CallPurge now) w).
Proof. intros Hw. unfold inv. simpl. unfold PurgeExpired. destruct (store_List _); [by apply purge_runs_inv|done]. Qed.

Lemma saga_step_inv c w : inv w → inv (saga_step c w).
Proof. destruct (is_purge c) eqn:Ec; [|by apply engine_step]. destruct c; try done. apply purge_inv. Qed.

Lemma saga_step_log c w : inv w → ∃ l, wd_log (saga_step c w) = wd_log w ++ l ∧ discipline l.
Proof.
  intros Hw. destruct (is_purge c) eqn:Ec; [|by apply engine_step].
  destruct c; try done. exists []. rewrite app_nil_r. auto with saga.
Qed.

Lemma execute_inv calls w : inv w → inv (execute calls w).
Proof. revert w. induction calls as [|c calls IH]; intros w Hw; [done|]. by apply IH, saga_step_inv. Qed.

Lemma execute_log calls w : inv w → ∃ l, wd_log (execute calls w) = wd_log w ++ l ∧ discipline l.
Proof.
  revert w. induction calls as [|c calls IH]; intros w Hw; [exists []; rewrite app_nil_r; auto with saga|].
  destruct (saga_step_log c w Hw) as (l1 & E1 & D1). destruct (IH _ (saga_step_inv c w Hw)) as (l2 & E2 & D2).
  exists (l1 ++ l2). simpl. rewrite E2, E1, app_assoc. auto with saga.
Qed.

Lemma execute_kept calls w : inv w → Forall (λ c, is_purge c = false) calls → kept (wd_store w) (wd_store (execute calls w)).
Proof.
  intros Hw Hc. revert w Hw. induction Hc as [|c calls Hc _ IH]; intros w Hw; [done|].
  destruct (engine_step c w Hc Hw) as [Hi [_ Hk]]. etransitivity; [exact Hk|]. by apply IH.
Qed.
End executions.

(** ** Observing only *)

(** From [w] to [w'] nothing was written: the store is the same, and the calls
    made are inspections. *)
Definition observes {W S} (w w' : World W S) : Prop :=
  wd_store w' = wd_store w ∧ ∃ l, wd_log w' = wd_log w ++ l ∧ Forall (λ x, mutates x = false) l.

Section observing.
Context `{NostrPrims} {W S : Type} `{!Store S} (e : Engine W).

#[local] Instance observes_preorder : PreOrder (observes (W := W) (S := S)).
Proof.
  split; [intros w; split; [done|exists []; by rewrite app_nil_r]|].
  intros w1 w2 w3 [E1 (l1 & L1 & F1)] [E2 (l2 & L2 & F2)]. split; [congruence|].
  exists (l1 ++ l2). rewrite L2, L1, app_assoc. split; [done|]. by apply Forall_app.
Qed.

Definition quiet {A} (m : M (W := W) (S := S) A) : Prop := ∀ w, observes w (m w).2.

Lemma quiet_ret {A} (a : A) : quiet (M_ret _ a).
Proof. by intros w. Qed.

Lemma quiet_bind {A B} (m : M A) (f : A → M B) : quiet m → (∀ a, quiet (f a)) → quiet (M_bind _ _ f m).
Proof.
  intros Hm Hf w. unfold M_bind. specialize (Hm w). destruct (m w) as [a w1]. etransitivity; [exact Hm|]. apply Hf.
Qed.

Lemma quiet_fmap {A B} (f : A → B) (m : M A) : quiet m → quiet (M_fmap _ _ f m).
Proof. intros Hm w. unfold M_fmap. specialize (Hm w). by destruct (m w). Qed.

Lemma quiet_load id : quiet (load id).
Proof. by intros w. Qed.

Lemma quiet_call {A} (call : W → A * W) (rec : A → effect) : (∀ a, mutates (rec a) = false) →
  quiet (M_bind _ _ (λ r, M_bind _ _ (λ _, M_ret _ r) (log (rec r))) (external call)).
Proof.
  intros Hr w. unfold M_bind, M_ret, external, log. destruct (call (wd_ext w)) as [a x]. simpl.
  split; [done|]. exists [rec a]. by rewrite Forall_singleton.
Qed.

Lemma quiet_inspect stage run target : quiet (inspect e stage run target).
Proof. by apply (quiet_call _ (Inspected stage target)). Qed.

Lemma quiet_inspectTerminal run : quiet (inspectTerminal e run).
Proof.
  apply quiet_bind; [by apply (quiet_call _ (λ _, TerminalInspected (rn_Stage run)))|]. intros r. apply quiet_ret.
Qed.

Lemma quiet_abort_plan run resources report : quiet (abort_plan e run resources report).
Proof.
  revert report. induction resources as [|x resources IH]; intros report; [apply quiet_ret|].
  apply quiet_bind; [apply quiet_inspect|]. intros r. apply IH.
Qed.

Lemma quiet_SafeAbort id : quiet (SafeAbort e id true).
Proof.
  apply quiet_bind; [apply quiet_load|]. intros [run|]; [|apply quiet_ret]. case_match; [apply quiet_ret|].
  apply quiet_bind; [apply quiet_abort_plan|]. intros report. apply quiet_ret.
Qed.

Lemma quiet_reconcile_loop fuel run : quiet (reconcile_loop e fuel run true).
Proof.
  destruct fuel; [apply quiet_ret|]. cbn [reconcile_loop]. case_bool_decide; [apply quiet_ret|].
  apply quiet_bind; [apply quiet_inspect|]. intros r. repeat case_match; apply quiet_ret.
Qed.

Lemma quiet_Reconcile id : quiet (Reconcile e id true).
Proof.
  apply quiet_bind; [apply quiet_load|]. intros [run|]; [|apply quiet_ret].
  case_bool_decide; [apply quiet_fmap, quiet_SafeAbort|]. case_match; [apply quiet_fmap, quiet_inspectTerminal|].
  case_bool_decide; [|apply quiet_reconcile_loop]. apply quiet_bind; [apply quiet_inspect|]. intros r. apply quiet_ret.
Qed.

Lemma quiet_Inspect id : quiet (Inspect e id).
Proof.
  apply quiet_bind; [apply quiet_load|]. intros [run|]; [|apply quiet_ret]. cbv zeta. case_bool_decide; [apply quiet_ret|].
  apply quiet_bind; [apply quiet_inspect|]. intros r. apply quiet_ret.
Qed.
End observing.

(** ** Stable sorting *)

Section sorted.
Context {A : Type} (less : A → A → bool).

(** [a] may stand before [b]. *)
Definition may_precede (a b : A) : Prop := less b a = false.

Context (less_asym : ∀ a b, less a b = true → less b a = false).
Context (less_trans : ∀ a b c, may_precede a b → may_precede b c → may_precede a c).

Lemma stable_insert_sorted x l : StronglySorted may_precede l → StronglySorted may_precede (stable_insert less x l).
Proof using less_asym less_trans.
  induction 1 as [|y l Hl IH Hy]; simpl; [by repeat constructor|]. case_match eqn:E.
  - constructor; [by constructor|]. constructor; [by apply less_asym|].
    eapply Forall_impl; [exact Hy|]. intros z. apply less_trans. by apply less_asym.
  - constructor; [done|]. rewrite stable_insert_perm. by constructor.
Qed.

Lemma stable_sort_sorted l : StronglySorted may_precede (stable_sort less l).
Proof using less_asym less_trans.
  unfold stable_sort. assert (StronglySorted may_precede []) as Hnil by constructor. revert Hnil.
  generalize (@nil A). induction l as [|x l IH]; intros acc Hacc; simpl; [done|]. by apply IH, stable_insert_sorted.
Qed.
End sorted.

(** [a] is undone no later than [b]: a smaller compensation order, or the same
    and recorded no earlier. *)
Definition undone_before (a b : Resource) : Prop :=
  rc_CompensationOrder a < rc_CompensationOrder b ∨
  rc_CompensationOrder a = rc_CompensationOrder b ∧ rc_RecordedAt b ≤ rc_RecordedAt a.

Lemma compensation_less_spec a b : may_precede compensation_less a b ↔ undone_before a b.
Proof.
  unfold may_precede, compensation_less, undone_before, time_after. case_match; bool_facts.
  - rewrite Z.ltb_ge. lia.
  - rewrite Z.ltb_ge. lia.
Qed.

Lemma compensable_sorted run : StronglySorted undone_before (compensable run).
Proof.
  eapply StronglySorted_ind with (P := λ l, StronglySorted undone_before l); [constructor| |].
  - intros a l _ IH Ha. constructor; [done|]. eapply Forall_impl; [exact Ha|]. intros b. apply compensation_less_spec.
  - apply stable_sort_sorted.
    + intros a b. unfold compensation_less, time_after. repeat case_match; bool_facts; rewrite ?Z.ltb_lt, ?Z.ltb_ge; lia.
    + intros a b c. rewrite !compensation_less_spec. unfold undone_before. lia.
Qed.

(** ** Purging *)

Section purging.
Context `{NostrPrims}.

(** What [PurgeExpired] should leave of a lookup. *)
Definition unless_expired (now : Z) (r : result SagaError Run) : result SagaError Run :=
  match r with
  | Ok run => if expired_run now run then Err ENotFound else Ok run
  | Err err => Err err
  end.

Lemma FileStore_Delete_ok run s : FileStore_Load (rn_RequestID run) s = Ok run → ∃ s',
  FileStore_Delete (rn_RequestID run) (rn_Version run) s = Ok s' ∧
  fs_files s' = delete (FileStore_path (rn_RequestID run)) (fs_files s).
Proof.
  unfold FileStore_Load, FileStore_Delete. intros ->. simpl. rewrite Z.eqb_refl. simpl. eauto.
Qed.

Definition run_path (run : Run) : string := FileStore_path (rn_RequestID run).

Lemma readRun_delete name s name' : readRun name' (mkFileStore (delete name (fs_files s))) =
  if decide (name' = name) then Err ENotFound else readRun name' s.
Proof. unfold readRun. simpl. case_decide; [subst; by rewrite lookup_delete_eq|by rewrite lookup_delete_ne]. Qed.

Lemma purge_runs_exact now runs n errs s :
  Forall (λ r, readRun (run_path r) s = Ok r) runs → NoDup (run_path <$> runs) →
  ∃ s', purge_runs now runs n errs s = (n + Z.of_nat (length (filter (λ r, expired_run now r = true) runs)), errs, s') ∧
    ∀ name, readRun name s' =
      if decide (name ∈ run_path <$> filter (λ r, expired_run now r = true) runs) then Err ENotFound else readRun name s.
Proof.
  revert n s. induction runs as [|r runs IH]; intros n s Hr Hn; simpl.
  - exists s. rewrite Z.add_0_r. done.
  - apply Forall_cons in Hr as [Hr Hrs]. rewrite fmap_cons in Hn. apply NoDup_cons in Hn as [Hni Hn].
    destruct (expired_run now r) eqn:E; [|rewrite filter_cons_False by congruence; by apply IH].
    rewrite filter_cons_True by done. destruct (FileStore_Delete_ok r s Hr) as (s1 & -> & E1).
    destruct s1 as [files1]. simpl in E1. subst files1.
    change (FileStore_path (rn_RequestID r)) with (run_path r).
    destruct (IH (n + 1) (mkFileStore (delete (run_path r) (fs_files s)))) as (s' & -> & Hl); [|done|].
    { apply Forall_forall. intros x Hx. rewrite readRun_delete, decide_False; [by eapply Forall_forall in Hrs|].
      intros E'. apply Hni. rewrite <- E'. by apply list_elem_of_fmap_2. }
    exists s'. split; [f_equal; f_equal; simpl; lia|]. intros name. rewrite Hl, readRun_delete, fmap_cons.
    repeat case_decide; set_solver.
Qed.

Lemma readRuns_ok names s runs : readRuns names s = Ok runs → Forall2 (λ name r, readRun name s = Ok r) names runs.
Proof.
  revert runs. induction names as [|name names IH]; intros runs Hr; simpl in Hr; inv_ok; [by simplify_eq|].
  subst. constructor; auto.
Qed.

Lemma FileStore_List_ok s runs : files_ok s → FileStore_List s = Ok runs →
  bucket_keys (fs_files s) = run_path <$> runs ∧ Forall (λ r, readRun (run_path r) s = Ok r) runs.
Proof.
  intros Hs Hr%readRuns_ok. induction Hr as [|name r names runs Hr _ [IH1 IH2]]; [done|].
  assert (name = run_path r) as -> by (apply readRun_ok in Hr as [Hf _]; by apply Hs).
  rewrite IH1. split; [done|]. by constructor.
Qed.
End purging.

(** ** Properties *)

Section properties.
Context `{NostrPrims} {W : Type} (e : Engine W).
Implicit Types (s : FileStore) (run : Run).

(** A service that starts with an empty checkpoint directory. *)
Definition fresh (ext : W) (ticks : nat) : World W FileStore := mkWorld ext (mkFileStore ∅) ticks [].

Lemma fresh_inv ext ticks : inv (fresh ext ticks).
Proof. by split. Qed.

(** C5: whatever calls are made, the engine asks its drivers only for forward
    stages, applies a stage only right after an inspection found nothing and
    inspects again right after, undoes a resource only right after an
    inspection found it there, created and owned by the run, and saves only
    runs that follow the stage machine. *)
Theorem calls_disciplined ext ticks calls : discipline (wd_log (execute e calls (fresh ext ticks))).
Proof. by destruct (execute_log e calls (fresh ext ticks) (fresh_inv ext ticks)) as (l & -> & Hl). Qed.

(** C7: the history of every stored run is an unbroken walk of allowed moves
    from [requested] to the stage it is at; a run that is running entered
    every forward stage in order, and a failed run resumes with a forward
    stage all of whose predecessors it entered in order. *)
Theorem runs_follow_stages ext ticks calls id run :
  FileStore_Load id (wd_store (execute e calls (fresh ext ticks))) = Ok run →
  walk StageRequested (rn_Transitions run) (rn_Stage run) ∧
  (rn_Stage run = StageRunning → forwardStages `sublist_of` (tr_To <$> rn_Transitions run)) ∧
  (rn_Stage run = StageFailedRecoverable → isForwardStage (rn_ResumeStage run) = true ∧
     passed (previousStage (rn_ResumeStage run)) `sublist_of` (tr_To <$> rn_Transitions run)).
Proof.
  intros Hl. destruct (execute_inv e calls _ (fresh_inv ext ticks)) as [_ Hg]. destruct (Hg id run Hl) as [Hw Hp Hr _].
  unfold standing in Hp. split; [done|]. split.
  - intros E. rewrite E in Hp. exact Hp.
  - intros E. rewrite bool_decide_eq_true_2 in Hp by done. auto.
Qed.

(** C33: as long as nothing is purged a stored run stays: its identity is
    unchanged, resources, transitions, compensations and failures are only
    appended to, and a terminal stage is never left. *)
Theorem runs_only_extended ext ticks calls calls' id run :
  FileStore_Load id (wd_store (execute e calls (fresh ext ticks))) = Ok run →
  Forall (λ c, is_purge c = false) calls' →
  ∃ run', FileStore_Load id (wd_store (execute e (calls ++ calls') (fresh ext ticks))) = Ok run' ∧ extends run run' ∧
    (terminalProjection (rn_Stage run) = true → rn_Stage run' = rn_Stage run).
Proof.
  intros Hl Hp. unfold execute at 1. rewrite foldl_app. fold (execute e calls (fresh ext ticks)).
  set (w := execute e calls (fresh ext ticks)) in *. assert (inv w) as Hw by apply execute_inv, fresh_inv.
  destruct (execute_kept e calls' w Hw Hp id run Hl) as (run' & Hl' & He). exists run'. split; [done|]. split; [done|].
  apply good_terminal_final; [by eapply Hw|by eapply (execute_inv e calls' w Hw)|done].
Qed.

(** A dry run of [Reconcile] or [SafeAbort] and an [Inspect] write
    nothing, whatever the store holds: every driver call is an inspection. *)
Theorem dry_run_observes {S} `{!Store S} id (w : World W S) :
  observes w (Reconcile e id true w).2 ∧ observes w (SafeAbort e id true w).2 ∧ observes w (Inspect e id w).2.
Proof. split_and!; [apply quiet_Reconcile|apply quiet_SafeAbort|apply quiet_Inspect]. Qed.

(** C35: the loop of [Reconcile] ends: whatever the drivers answer, ten rounds
    are enough for every stored run. *)
Theorem Reconcile_returns ext ticks calls id dryRun :
  is_Some (Reconcile e id dryRun (execute e calls (fresh ext ticks))).1.
Proof.
  destruct (safe_grows _ _ _ (safe_Reconcile e id dryRun) (execute_inv e calls _ (fresh_inv ext ticks))) as (_ & _ & Hs). done.
Qed.

(** Two writers that read the same version cannot both save: after one
    save, a second one that expects the same version of that request is
    refused and changes nothing. *)
Theorem one_save_per_version run run' version s s' :
  FileStore_Save run version s = Ok s' → rn_RequestID run' = rn_RequestID run → run_valid run' = true →
  FileStore_Save run' version s' = Err EConflict.
Proof.
  intros Hs Hr Hv. unfold FileStore_Save in Hs. inv_ok. bool_facts. subst s'. unfold FileStore_Save.
  rewrite Hv, Hr. simpl. rewrite readRun_write, decide_True by done. rename select (run_valid run = true) into Hvr.
  rewrite Hvr. simpl. rename select (rn_Version run = _) into Ever. rewrite Ever.
  replace (to_u64 (version + 1) =? version) with false; [done|]. symmetry. apply Z.eqb_neq. intros E.
  pose proof (to_u64_range (version + 1)) as Hrange. rewrite E in Hrange. unfold to_u64 in E.
  pose proof (Z.div_mod (version + 1) two64). unfold two64 in *. lia.
Qed.

(** An abort takes down exactly the resources the run created, those with
    the smaller compensation order first and the latest recorded first among
    equals. *)
Theorem compensation_order run :
  compensable run ≡ₚ filter (λ r, rc_Ownership r = OwnershipCreated ∧ rc_OwnerRunID r = rn_RunID run) (rn_Resources run) ∧
  StronglySorted undone_before (compensable run).
Proof. split; [apply compensable_perm|apply compensable_sorted]. Qed.

(** In a directory that can be listed, [PurgeExpired] removes exactly the
    failed and rolled-back runs whose retention has passed, counts them, and
    leaves every other run as it was. *)
Theorem purge_exact now s runs :
  files_ok s → FileStore_List s = Ok runs →
  ∃ s', PurgeExpired now s = (Z.of_nat (length (filter (λ r, expired_run now r = true) runs)), [], s') ∧
    ∀ id, FileStore_Load id s' = unless_expired now (FileStore_Load id s).
Proof.
  intros Hs Hl. destruct (FileStore_List_ok s runs Hs Hl) as [Hk Hr].
  pose proof (NoDup_bucket_keys (fs_files s)) as Hn. rewrite Hk in Hn.
  destruct (purge_runs_exact now runs 0 [] s Hr Hn) as (s' & Hp & Hread). exists s'.
  split; [unfold PurgeExpired; simpl; by rewrite Hl, Hp|]. intros id. unfold FileStore_Load. rewrite Hread.
  destruct (decide _) as [Hin|Hin].
  - apply list_elem_of_fmap in Hin as (r & -> & [He Hin]%list_elem_of_filter).
    eapply Forall_forall in Hr; [|exact Hin]. rewrite Hr. simpl. by rewrite He.
  - destruct (readRun (FileStore_path id) s) as [r|err] eqn:E; [|done]. simpl. destruct (expired_run now r) eqn:He; [|done].
    exfalso. apply Hin. assert (FileStore_path id ∈ bucket_keys (fs_files s)) as Hb.
    { apply elem_of_bucket_keys. apply readRun_ok in E as [-> _]. by eexists. }
    rewrite Hk in Hb. apply list_elem_of_fmap in Hb as (r' & Er & Hr'). eapply Forall_forall in Hr; [|exact Hr'].
    rewrite Er in *. assert (r' = r) as -> by congruence. apply list_elem_of_fmap_2, list_elem_of_filter. done.
Qed.

(** Whatever error an adapter returns, the failure the engine derives from
    it is one a checkpoint accepts: its code is a public one and its message
    is fixed by the code, so nothing of the adapter's own text is stored. *)
Theorem failure_recordable cause stage canRetry at_ code message :
  publicFailure cause = (code, message) → isForwardStage stage = true → time_is_zero at_ = false →
  validatePublicFailure (mkFailure stage code message canRetry at_) = true ∧ code ∈ "stage_failed"%string :: public_codes.
Proof.
  intros Hp Hs Ht.
  assert (code = safePublicCode code ∧ message = safePublicMessage code ∧ code ∈ "stage_failed"%string :: public_codes)
    as (Hc & Hm & Hin).
  { destruct cause as [c m b|]; simpl in Hp; injection Hp as <- <-; [|split_and!; [by vm_compute..|left]].
    generalize (if String.eqb (trim_space c) "" then "stage_failed"%string else trim_space c). intros c'.
    unfold safePublicCode. destruct (bool_decide (c' ∈ public_codes)) eqn:E.
    - rewrite E. apply bool_decide_eq_true in E. split_and!; [done..|by right].
    - split_and!; [by vm_compute|done|left]. }
  split; [|done]. unfold validatePublicFailure. simpl. rewrite Hs, Ht, <- Hc, <- Hm, !String.eqb_refl. done.
Qed.
End properties.

(** ** A sample engine *)

Module SagaSample.

(** A checksum in place of SHA-256. *)
Fixpoint checksum (acc : Z) (s : string) : Z :=
  match s with
  | EmptyString => acc
  | String c s' => checksum ((acc * 1099511628211 + Z_of_byte c + 1) mod two64) s'
  end.

Fixpoint le_bytes (n : nat) (x : Z) : list Z :=
  match n with O => [] | S n' => x mod 256 :: le_bytes n' (x / 256) end.

#[local] Instance sample_prims : NostrPrims := {|
  sha256 := λ s, string_of_bytes (replicate 24 0 ++ le_bytes 8 (checksum 14695981039346656037 s));
  verify_bip340 := λ _ _ _, true;
  ParsePubKey := λ _, true;
  SchnorrVerify := λ _ _ _, true;
  decode_unadmitted := λ _, None;
  decode_accepted := λ _, None;
  decode_refused := λ _, None;
|}.

(** The external systems: the stages whose resource exists.  With [drift] the
    identity made by the first stage turns up as a conflict of the second. *)
Definition resource_of (stage : Stage) (sn : Snapshot) : Resource :=
  mkResource stage SystemBahiaProjection (if bool_decide (stage = StageRunning) then ResourceAgentSoul else
      if bool_decide (stage = StageRolledBack) then ResourceProvisioningResult else stage_name stage)
    (stage_name stage) (sn_SpecHash sn) OwnershipCreated (sn_RunID sn) "" (sn_RequestID sn) stage false 0 0.

Definition look (drift : bool) (stage : Stage) (sn : Snapshot) (world : list Stage) : result AdapterError Observation :=
  Ok (if bool_decide (stage ∈ world) then mkObservation RealityMatching [resource_of stage sn]
      else if drift && bool_decide (stage = StageServiceRegistered)
      then mkObservation RealityConflict [resource_of StageIdentityReserved sn]
      else mkObservation RealityAbsent []).

Definition sample_drivers (drift : bool) : Drivers (list Stage) := {|
  dr_Inspect stage sn target world := (look drift stage sn world, world);
  dr_Apply stage sn key world := (None, stage :: world);
  dr_Compensate stage sn resource key world := (None, filter (λ x, x ≠ stage) world);
  dr_InspectTerminal sn stage failure world := (look drift stage sn world, world);
  dr_PublishTerminal sn stage failure key world := (None, stage :: world);
|}.

Definition sample_engine (drift : bool) : Engine (list Stage) :=
  mkEngine _ (sample_drivers drift) (λ n, 1000 + Z.of_nat n) (mkRetention 10 10).

Definition start : saga_call := CallStart "request" "run" "agent" "spec".
Definition reconciled : list saga_call := [start; CallReconcile "request" false].
Definition aborted : list saga_call := [start; CallSafeAbort "request" false].

Definition world_of (drift : bool) (calls : list saga_call) : World (list Stage) FileStore :=
  execute (sample_engine drift) calls (fresh [] 0).

Definition run_of (w : World (list Stage) FileStore) : result SagaError Run := FileStore_Load "request" (wd_store w).

Definition no_run : Run := mkRun "" "" "" "" "" NoStage NoStage 0 [] [] [] [] None 0 0 None.
Definition or_none (r : result SagaError Run) : Run := match r with Ok run => run | Err _ => no_run end.

(** The run after the first stage, and one that was aborted at once. *)
Definition reserved : Run := Eval vm_compute in or_none (run_of (world_of true reconciled)).
Definition rolled_back : Run := Eval vm_compute in or_none (run_of (world_of false aborted)).

Lemma runs_follow_stages_witness :
  rn_Stage reserved = StageIdentityReserved ∧ walk StageRequested (rn_Transitions reserved) (rn_Stage reserved).
Proof.
  split; [reflexivity|]. apply (runs_follow_stages (sample_engine true) [] 0 reconciled "request" reserved).
  vm_compute. reflexivity.
Defined.

Lemma runs_only_extended_witness : ∃ run',
  run_of (world_of false (aborted ++ [CallReconcile "request" true])) = Ok run' ∧ extends rolled_back run' ∧
  rn_Stage run' = StageRolledBack.
Proof.
  destruct (runs_only_extended (sample_engine false) [] 0 aborted [CallReconcile "request" true] "request" rolled_back)
    as (run' & Hl & He & Ht).
  - vm_compute. reflexivity.
  - by constructor.
  - exists run'. split; [exact Hl|]. split; [exact He|]. apply Ht. reflexivity.
Defined.

Definition requested : Run := Eval vm_compute in
  match NewRun "request" "run" "agent" "spec" 1000 with Some run => run | None => no_run end.
Definition requested_store : FileStore := writeAtomic (FileStore_path "request") requested (mkFileStore ∅).

Lemma one_save_per_version_witness :
  ∃ s', FileStore_Save (next_version requested 2000) 1 requested_store = Ok s' ∧
    FileStore_Save (next_version requested 3000) 1 s' = Err EConflict.
Proof.
  exists (writeAtomic (FileStore_path "request") (next_version requested 2000) requested_store).
  assert (FileStore_Save (next_version requested 2000) 1 requested_store =
    Ok (writeAtomic (FileStore_path "request") (next_version requested 2000) requested_store)) as Hs
    by (vm_compute; reflexivity).
  split; [exact Hs|]. apply (one_save_per_version _ _ _ _ _ Hs); [reflexivity|vm_compute; reflexivity].
Defined.

Definition ended_store : FileStore := writeAtomic (FileStore_path "request") rolled_back (mkFileStore ∅).

Lemma purge_exact_witness : ∃ s', PurgeExpired 5000 ended_store = (1, [], s') ∧
  FileStore_Load "request" s' = Err ENotFound.
Proof.
  destruct (purge_exact 5000 ended_store [rolled_back]) as (s' & Hp & Hl).
  - intros name r Hr. unfold ended_store, writeAtomic in Hr. simpl in Hr.
    apply lookup_insert_Some in Hr as [[<- Hr]|[_ Hr]]; [injection Hr as <-; reflexivity|].
    rewrite lookup_empty in Hr. discriminate.
  - vm_compute. reflexivity.
  - exists s'. split; [rewrite Hp; f_equal; f_equal; vm_compute; reflexivity|]. rewrite Hl. vm_compute. reflexivity.
Defined.

Lemma failure_recordable_witness :
  validatePublicFailure (mkFailure StageLLMVerified "policy_denied" "provisioning policy denied the requested operation" false 1)
  = true.
Proof.
  apply (failure_recordable (SafeErr " policy_denied " "bunker://host" false) StageLLMVerified false 1); vm_compute; reflexivity.
Defined.

(** A conflict over a resource the run has already checkpointed blocks
    [Reconcile]: recording the conflict contradicts the recorded lineage, the
    save is refused, and neither a failure nor a rollback is stored, on the
    first call and on the next. *)
Theorem conflict_over_lineage_stuck :
  let w := world_of true reconciled in
  let '(answer, w') := Reconcile (sample_engine true) "request" false w in
  run_of w = Ok reserved ∧ rn_Failures reserved = [] ∧ answer = Some (None, Some EInvalid) ∧
  wd_store w' = wd_store w.
Proof. vm_compute. split_and!; reflexivity. Qed.

(** A request id with a space around it starts a run that the same call does
    not find again: the run is stored under the trimmed id and looked up under
    the given one. *)
Lemma padded_start_not_found :
  let w := execute (sample_engine false) [CallStart " request" "run" "agent" "spec"] (fresh [] 0) in
  run_of w = Ok requested ∧ (Start (sample_engine false) " request" "run" "agent" "spec" w).1 = (None, Some ENotFound).
Proof. vm_compute. split; reflexivity. Qed.
End SagaSample.
