(* ===== verification/BoltCoord.v ===== *)
(** * Coordinates and the deletion index

    [src/internal/boltcoord/boltcoord.go]: addresses of replaceable and
    addressable events, the coordinates a NIP-09 deletion request names, the
    index of deleted coordinates beside the event store, and the batched
    backfill that builds it.  A bucket of keys without values is a set; a
    [Scan] is a function from a filter and a limit to the events it yields. *)

From Stdlib Require Import ZArith Lia Bool Ascii.
From stdpp Require Import base tactics decidable option list numbers strings gmap sorting.
From S2P Require Import Prelude Bytes Nostr EventID Bolt.

(** ** Go's library and the Nostr package *)

(** [strconv.ParseUint(s, 10, bits)]. *)
Definition ParseUint (bits : Z) (s : string) : option Z :=
  match s with
  | EmptyString => None
  | String _ _ =>
      match parse_digits s 0 with
      | Some n => if n <? 2 ^ bits then Some n else None
      | None => None
      end
  end.

(** [Kind.IsReplaceable]. *)
Definition IsReplaceable (kind : Z) : bool := (kind =? 0) || (kind =? 3) || (10000 <=? kind) && (kind <? 20000).

(** [Tags.GetD]. *)
Definition GetD (tags : list (list string)) : string := outboxTag tags "d".

(** [nostr.IsOlder]. *)
Definition IsOlder (previous next : Event) : bool :=
  (ev_CreatedAt previous <? ev_CreatedAt next) ||
  (ev_CreatedAt previous =? ev_CreatedAt next) && bytes_ltb (ev_ID next) (ev_ID previous).

(** [nostr.Filter]; a slice the code compares with nil is [None] when nil. *)
Record Filter := mkFilter {
  fi_IDs : option (list string);
  fi_Kinds : option (list Z);
  fi_Authors : option (list string);
  fi_Tags : gmap string (list string);
  fi_Since : Z;
  fi_Until : Z;
  fi_Limit : Z;
  fi_Search : string;
  fi_LimitZero : bool;
}.

(** ** Coordinates *)

Definition TagIndexMaxValue : nat := 100.

(** [unbounded] is [math.MaxInt32]. *)
Definition unbounded : Z := 2147483647.

Definition tagIndexable (value : string) : bool :=
  negb (String.eqb value "") && Nat.leb (String.length value) TagIndexMaxValue.

Record Coordinate := mkCoordinate {
  co_Kind : Z;
  co_Author : string;
  co_D : string;
}.

#[export] Instance Coordinate_eq_dec : EqDecision Coordinate.
Proof. solve_decision. Defined.

Definition NewCoordinate (kind : Z) (author d : string) : Coordinate :=
  mkCoordinate kind author (if IsAddressable kind then d else "").

Definition CoordinateOf (event : Event) : Coordinate := NewCoordinate (ev_Kind event) (ev_PubKey event) (GetD (ev_Tags event)).

Definition dIndexed (c : Coordinate) : bool := negb (IsAddressable (co_Kind c)) || tagIndexable (co_D c).

Definition colon : ascii := byte_of_Z 58.

Definition Address (kind : Z) (author d : string) : string :=
  AppendInt "" kind +:+ String colon (hex author +:+ String colon d).

Definition Coordinate_String (c : Coordinate) : string := Address (co_Kind c) (co_Author c) (co_D c).

Section coordinates.
Context `{NostrPrims}.

Definition ParseAddress (address : string) : option (Z * string * string) :=
  match cut_byte colon address with
  | Some (kind, rest) =>
      match cut_byte colon rest with
      | Some (author, d) =>
          match ParseUint 16 kind, PubKeyFromHex author with
          | Some kind, Some author => Some (kind, author, d)
          | _, _ => None
          end
      | None => None
      end
  | None => None
  end.

(** One [a] tag of a deletion request. *)
Definition deleted_coordinate (request : Event) (tag : list string) : option Coordinate :=
  match tag with
  | name :: value :: _ =>
      if negb (String.eqb name "a") then None
      else match ParseAddress value with
      | Some (kind, author, d) =>
          if negb (String.eqb author (ev_PubKey request)) || negb (IsReplaceable kind) && negb (IsAddressable kind) then None
          else Some (NewCoordinate kind author d)
      | None => None
      end
  | _ => None
  end.

Fixpoint deleted_loop (request : Event) (tags : list (list string)) (coordinates : list Coordinate) : list Coordinate :=
  match tags with
  | [] => coordinates
  | tag :: tags' =>
      deleted_loop request tags'
        match deleted_coordinate request tag with
        | Some c => if bool_decide (c ∈ coordinates) then coordinates else coordinates ++ [c]
        | None => coordinates
        end
  end.

Definition DeletedCoordinates (request : Event) : list Coordinate := deleted_loop request (ev_Tags request) [].
End coordinates.

(** ** Versions *)

Definition Scan (E : Type) : Type := Filter → Z → result E (list Event).

(** The sequence a consumer that takes everything sees. *)
Fixpoint versions_loop (d : string) (limit : Z) (emitted : Z) (events : list Event) : list Event :=
  match events with
  | [] => []
  | event :: events' =>
      if negb (String.eqb (GetD (ev_Tags event)) d) then versions_loop d limit emitted events'
      else event :: (if limit <=? emitted + 1 then [] else versions_loop d limit (emitted + 1) events')
  end.

Definition versions_filter (c : Coordinate) (tags : gmap string (list string)) (until : Z) : Filter :=
  mkFilter None (Some [co_Kind c]) (Some [co_Author c]) tags 0 until 0 "" false.

Definition Versions {E} (scan : Scan E) (c : Coordinate) (until limit : Z) : result E (list Event) :=
  if dIndexed c then scan (versions_filter c (if IsAddressable (co_Kind c) then {[ "d"%string := [co_D c] ]} else ∅) until) limit
  else let! events := scan (versions_filter c ∅ until) unbounded in Ok (versions_loop (co_D c) limit 0 events).

Definition LatestVersion {E} (scan : Scan E) (c : Coordinate) : result E (option Event) :=
  let! versions := Versions scan c 0 1 in Ok (head versions).

(** ** The deletion index *)

Section deletions.
Context `{NostrPrims}.

Definition deletionKeyPrefix (c : Coordinate) : string := sha256 (Coordinate_String c).

Definition deletionKey (c : Coordinate) (request : Event) : string :=
  deletionKeyPrefix c +:+ be64 (to_u64 (ev_CreatedAt request)) +:+ ev_ID request.

Definition deletionKeys (request : Event) : list string := (λ c, deletionKey c request) <$> DeletedCoordinates request.

(** [DeletionIndex.update]: the whole loop is one transaction. *)
Definition DeletionIndex_update (apply : string → gset string → gset string) (request : Event) (ix : gset string) : gset string :=
  foldl (λ ix key, apply key ix) ix (deletionKeys request).

Definition DeletionIndex_Index (request : Event) (ix : gset string) : gset string :=
  DeletionIndex_update (λ key ix, {[ key ]} ∪ ix) request ix.

Definition DeletionIndex_Unindex (request : Event) (ix : gset string) : gset string :=
  DeletionIndex_update (λ key ix, ix ∖ {[ key ]}) request ix.

Definition DeletionIndex_Deleted (c : Coordinate) (since : Z) (ix : gset string) : bool :=
  let prefix := deletionKeyPrefix c in
  match seek (prefix +:+ be64 (to_u64 since)) (index_keys ix) with
  | key :: _ => has_prefix key prefix
  | [] => false
  end.
End deletions.

(** ** Batched writes *)

Inductive CoordError :=
| CoordCancelled
| CoordFinish.

Section batches.
Context {S : Type} (put : string → S → S) (finish : option (S → result CoordError S)).

(** [flush]: one transaction; an error of [finish] rolls it back. *)
Definition flush (done : bool) (pending : list string) (db : S) : option CoordError * S :=
  let db' := foldl (λ db key, put key db) db pending in
  match done, finish with
  | true, Some f => match f db' with Ok db'' => (None, db'') | Err err => (Some err, db) end
  | _, _ => (None, db')
  end.

(** [ctx n] is whether the context is cancelled at its [n]-th look. *)
Fixpoint put_loop (ctx : nat → bool) (batch : Z) (look : nat) (pending keys : list string) (db : S) : option CoordError * S :=
  match keys with
  | [] => if ctx look then (Some CoordCancelled, db) else flush true pending db
  | key :: keys' =>
      if ctx look then (Some CoordCancelled, db)
      else
        let pending := pending ++ [key] in
        if batch <=? Z.of_nat (length pending) then
          let '(err, db') := flush false pending db in
          match err with
          | Some err => (Some err, db')
          | None => put_loop ctx batch (Datatypes.S look) [] keys' db'
          end
        else put_loop ctx batch (Datatypes.S look) pending keys' db
  end.

Definition putBatched (ctx : nat → bool) (keys : list string) (batch : Z) (db : S) : option CoordError * S :=
  put_loop ctx batch 0 [] keys db.
End batches.

(** A marker of a one-time step: a bucket of settings, the key and the
    version. *)
Record Marker := mkMarker {
  mk_Key : string;
  mk_Version : string;
}.

Definition Marker_Done (m : Marker) (settings : gmap string string) : bool :=
  String.eqb (default "" (settings !! mk_Key m)) (mk_Version m).

Definition Marker_Set (m : Marker) (settings : gmap string string) : gmap string string :=
  <[mk_Key m := mk_Version m]> settings.

(** The two buckets a backfill writes. *)
Record IndexFile := mkIndexFile {
  if_index : gset string;
  if_settings : gmap string string;
}.

Definition put_index (key : string) (f : IndexFile) : IndexFile := mkIndexFile ({[ key ]} ∪ if_index f) (if_settings f).

Definition set_marker (m : Marker) (f : IndexFile) : result CoordError IndexFile :=
  Ok (mkIndexFile (if_index f) (Marker_Set m (if_settings f))).

Definition DeletionIndex_Backfill `{NostrPrims} (ctx : nat → bool) (requests : list Event) (batch : Z)
    (finish : option (IndexFile → result CoordError IndexFile)) (f : IndexFile) : option CoordError * IndexFile :=
  putBatched put_index finish ctx (requests ≫= deletionKeys) batch f.
