(* ===== verification/BoltCoordFacts.v ===== *)
(** * Coordinates and the deletion index: lemmas

    Addresses parse back, the coordinates of a request are the ones its tags
    name, and the keys of the deletion index sort by coordinate and time. *)

From Stdlib Require Import ZArith Lia Bool Ascii.
From stdpp Require Import base tactics decidable option list numbers strings gmap sorting.
From S2P Require Import Prelude Bytes Nostr EventID Bolt BoltCoord.

(** ** Addresses *)

Lemma cut_byte_app c a b : contains_byte c a = false → cut_byte c (a +:+ String c b) = Some (a, b).
Proof.
  induction a as [|d a IH]; simpl; intros Ha; [by destruct (ascii_dec c c)|].
  destruct (ascii_dec c d); [done|]. by rewrite IH.
Qed.

Lemma ParseUint_decimal bits z : 0 ≤ z < two64 → z < 2 ^ bits → ParseUint bits (decimal 20 z) = Some z.
Proof.
  intros Hz Hb. pose proof (decimal_parse z Hz) as Hp. pose proof (decimal_nonempty 20 z ltac:(lia)) as Hne.
  unfold ParseUint. destruct (decimal 20 z) as [|c s]; [done|]. rewrite Hp. by rewrite (proj2 (Z.ltb_lt _ _)).
Qed.

Lemma hex_no_colon s : contains_byte colon (hex s) = false.
Proof.
  assert (∀ z, 0 ≤ z < 16 → colon ≠ hex_digit z) as Hd.
  { intros z Hz E. symmetry in E. apply (f_equal Z_of_byte) in E. unfold hex_digit, colon in E.
    repeat case_match; rewrite ?Z_of_byte_of_Z in E; bool_facts; rewrite !Z.mod_small in E by lia; lia. }
  induction s as [|c s IH]; [done|]. pose proof (Z_of_byte_range c) as Hr. cbn [hex contains_byte].
  destruct (ascii_dec _ _) as [E|_]; [by apply (Hd (Z_of_byte c / 16)) in E; [|split; [apply Z.div_pos|apply Z.div_lt_upper_bound]; lia]|].
  destruct (ascii_dec _ _) as [E|_]; [by apply (Hd (Z_of_byte c mod 16)) in E; [|apply Z.mod_pos_bound; lia]|done].
Qed.

Lemma AppendInt_decimal z : 0 ≤ z → AppendInt "" z = decimal 20 z.
Proof. intros Hz. unfold AppendInt. destruct (Z.ltb_spec z 0); [lia|done]. Qed.

Lemma kind_no_colon z : 0 ≤ z → contains_byte colon (decimal 20 z) = false.
Proof. intros Hz. apply decimal_digits; lia. Qed.

(** The sizes Go's types give a coordinate. *)
Definition wf_coordinate (c : Coordinate) : Prop := 0 ≤ co_Kind c < 65536 ∧ String.length (co_Author c) = 32%nat.

Lemma ParseAddress_Address `{NostrPrims} kind author d :
  0 ≤ kind < 65536 → String.length author = 32%nat → ParsePubKey author = true →
  ParseAddress (Address kind author d) = Some (kind, author, d).
Proof.
  intros Hk Ha Hp. unfold ParseAddress, Address. rewrite AppendInt_decimal by lia.
  rewrite cut_byte_app by (apply kind_no_colon; lia). rewrite cut_byte_app by apply hex_no_colon.
  rewrite ParseUint_decimal by (unfold two64; lia). unfold PubKeyFromHex. rewrite id_from_hex_hex by done. by rewrite Hp.
Qed.

Lemma Address_inj kind author d kind' author' d' : 0 ≤ kind < 65536 → 0 ≤ kind' < 65536 →
  Address kind author d = Address kind' author' d' → kind = kind' ∧ author = author' ∧ d = d'.
Proof.
  intros Hk Hk' E. unfold Address in E. rewrite !AppendInt_decimal in E by lia.
  apply split_at_byte in E as [Ek E]; [|apply kind_no_colon; lia..].
  apply split_at_byte in E as [Ea ->]; [|apply hex_no_colon..]. split_and!; [|by apply (inj hex)|done].
  apply (f_equal (λ s, parse_digits s 0)) in Ek. rewrite !decimal_parse in Ek by (unfold two64; lia). congruence.
Qed.

Lemma Coordinate_String_inj c c' : wf_coordinate c → wf_coordinate c' → Coordinate_String c = Coordinate_String c' → c = c'.
Proof.
  intros [Hk _] [Hk' _] E. destruct c, c'. unfold Coordinate_String in E. simpl in *.
  apply Address_inj in E as (-> & -> & ->); done.
Qed.

(** ** The coordinates of a request *)

Section deleted.
Context `{NostrPrims}.

Lemma elem_of_deleted_loop request tags coordinates c :
  c ∈ deleted_loop request tags coordinates ↔
  c ∈ coordinates ∨ ∃ tag, tag ∈ tags ∧ deleted_coordinate request tag = Some c.
Proof.
  revert coordinates. induction tags as [|tag tags IH]; intros coordinates; simpl; [set_solver|]. rewrite IH.
  destruct (deleted_coordinate request tag) as [c'|] eqn:E; [|set_solver].
  case_bool_decide; [|rewrite elem_of_app, list_elem_of_singleton]; set_solver.
Qed.

Lemma elem_of_DeletedCoordinates request c :
  c ∈ DeletedCoordinates request ↔ ∃ tag, tag ∈ ev_Tags request ∧ deleted_coordinate request tag = Some c.
Proof. unfold DeletedCoordinates. rewrite elem_of_deleted_loop. set_solver. Qed.

Lemma ParseUint_range bits s n : ParseUint bits s = Some n → 0 ≤ bits → n < 2 ^ bits.
Proof. unfold ParseUint. repeat case_match; intros; simplify_eq; bool_facts; lia. Qed.

Lemma parse_digits_nonneg s acc n : 0 ≤ acc → parse_digits s acc = Some n → 0 ≤ n.
Proof.
  revert acc. induction s as [|c s IH]; intros acc Ha Hp; simpl in Hp; [by simplify_eq|].
  unfold digit_value in Hp. destruct (_ && _) eqn:E; [|done]. bool_facts. eapply IH; [|exact Hp]. lia.
Qed.

(** A deleted coordinate is the requester's own, replaceable or addressable. *)
Lemma deleted_coordinate_ok request tag c : deleted_coordinate request tag = Some c →
  co_Author c = ev_PubKey request ∧ 0 ≤ co_Kind c < 65536 ∧ (IsReplaceable (co_Kind c) = true ∨ IsAddressable (co_Kind c) = true).
Proof.
  unfold deleted_coordinate. intros Hc. destruct tag as [|name [|value tag]]; [done..|].
  destruct (negb (String.eqb name "a")); [done|]. destruct (ParseAddress value) as [[[kind author] d]|] eqn:Ep; [|done].
  destruct (_ || _) eqn:E in Hc; [done|]. simplify_eq/=. apply orb_false_iff in E as [Ea Ek].
  apply negb_false_iff, String.eqb_eq in Ea. split; [done|]. split.
  - unfold ParseAddress in Ep. destruct (cut_byte colon value) as [[k rest]|]; [|done].
    destruct (cut_byte colon rest) as [[pk d']|]; [|done]. destruct (ParseUint 16 k) as [n|] eqn:En; [|done].
    destruct (PubKeyFromHex pk); [|done]. simplify_eq. split; [|by apply (ParseUint_range 16) in En].
    unfold ParseUint in En. destruct k; [done|]. destruct (parse_digits _ 0) eqn:Ed; [|done].
    apply parse_digits_nonneg in Ed; [|done]. case_match; by simplify_eq.
  - apply andb_false_iff in Ek. rewrite !negb_false_iff in Ek. done.
Qed.

Lemma DeletedCoordinates_wf request c : String.length (ev_PubKey request) = 32%nat → c ∈ DeletedCoordinates request → wf_coordinate c.
Proof.
  intros Hl (tag & _ & Hc)%elem_of_DeletedCoordinates. apply deleted_coordinate_ok in Hc as (Ha & Hk & _).
  split; [done|congruence].
Qed.

(** A tag with the address of a replaceable or addressable event of the
    requester deletes that event's coordinate. *)
Lemma deleted_coordinate_address request kind d : wf_event request → ParsePubKey (ev_PubKey request) = true →
  0 ≤ kind < 65536 → IsReplaceable kind || IsAddressable kind = true →
  deleted_coordinate request ["a"%string; Address kind (ev_PubKey request) d] = Some (NewCoordinate kind (ev_PubKey request) d).
Proof.
  intros Hw Hp Hk Hr. simpl. rewrite ParseAddress_Address by (done || apply Hw). rewrite String.eqb_refl. simpl.
  apply orb_true_iff in Hr as [->| ->]; [done|]. by rewrite andb_false_r.
Qed.
End deleted.

(** ** The index *)

Section index.
Context `{NostrPrims}.

Lemma elem_of_Index request ix k : k ∈ DeletionIndex_Index request ix ↔ k ∈ ix ∨ k ∈ deletionKeys request.
Proof.
  unfold DeletionIndex_Index, DeletionIndex_update. revert ix. induction (deletionKeys request) as [|key keys IH]; intros ix; simpl.
  - set_solver.
  - rewrite IH. set_solver.
Qed.

Lemma elem_of_Unindex request ix k : k ∈ DeletionIndex_Unindex request ix ↔ k ∈ ix ∧ k ∉ deletionKeys request.
Proof.
  unfold DeletionIndex_Unindex, DeletionIndex_update. revert ix. induction (deletionKeys request) as [|key keys IH]; intros ix; simpl.
  - set_solver.
  - rewrite IH. set_solver.
Qed.

Lemma elem_of_deletionKeys request k : k ∈ deletionKeys request ↔ ∃ c, c ∈ DeletedCoordinates request ∧ k = deletionKey c request.
Proof. unfold deletionKeys. rewrite list_elem_of_fmap. naive_solver. Qed.

(** [Seek] finds a key with the prefix of [c] exactly when the index has one
    from [since] on. *)
Lemma Deleted_seek c since ix : DeletionIndex_Deleted c since ix = true ↔
  ∃ k, k ∈ ix ∧ has_prefix k (deletionKeyPrefix c) = true ∧ bytes_le (deletionKeyPrefix c +:+ be64 (to_u64 since)) k.
Proof.
  unfold DeletionIndex_Deleted. set (p := deletionKeyPrefix c). set (q := p +:+ be64 (to_u64 since)).
  destruct (seek q (index_keys ix)) as [|key keys] eqn:E.
  - split; [done|]. intros (k & Hk & _ & Hle). assert (k ∈ seek q (index_keys ix)) as Hin
      by (apply elem_of_seek; by rewrite elem_of_index_keys). rewrite E in Hin. by apply elem_of_nil in Hin.
  - assert (key ∈ seek q (index_keys ix)) as [Hle Hin]%elem_of_seek by (rewrite E; left).
    rewrite elem_of_index_keys in Hin. split; [intros Hp; by exists key|].
    intros (k & Hk & Hp & Hlek). apply (prefix_convex p key k); [|..|done].
    + transitivity q; [apply bytes_le_prefix|done].
    + assert (k ∈ seek q (index_keys ix)) as Hin' by (apply elem_of_seek; by rewrite elem_of_index_keys).
      rewrite E in Hin'. apply elem_of_cons in Hin' as [->|Hin']; [done|].
      assert (StronglySorted bytes_le (key :: keys)) as Hs.
      { rewrite <- E. apply StronglySorted_filter, index_keys_sorted. }
      apply StronglySorted_inv in Hs as [_ Hs]. by eapply Forall_forall in Hs.
Qed.

Lemma deletionKey_le c since r : 0 ≤ since < two63 → 0 ≤ ev_CreatedAt r < two63 →
  bytes_le (deletionKeyPrefix c +:+ be64 (to_u64 since)) (deletionKey c r) ↔ since ≤ ev_CreatedAt r.
Proof.
  intros Hs Hr. unfold deletionKey, bytes_le. rewrite bytes_leb_app.
  rewrite <- (app_string_nil_r (be64 (to_u64 since))). unfold two63 in *.
  rewrite be64_leb by (apply to_u64_range). rewrite !to_u64_small by (unfold two64; lia).
  destruct (Z.ltb_spec since (ev_CreatedAt r)), (Z.eqb_spec since (ev_CreatedAt r)); simpl; split; try done; lia.
Qed.
End index.
