(* ===== verification/BoltCoordProps.v ===== *)
(** * Coordinates and the deletion index: properties

    The index answers exactly for the requests stored, whatever was stored and
    removed before; a backfill that is interrupted can be run again; addresses
    parse back to what they were written from. *)

From Stdlib Require Import ZArith Lia Bool Ascii.
From stdpp Require Import base tactics decidable option list numbers strings gmap sorting.
From S2P Require Import Prelude Bytes Nostr EventID Bolt SampleDigest BoltCoord BoltCoordFacts.

(** ** Requests stored and removed *)

Inductive request_step :=
| Stored (r : Event)
| Removed (r : Event).

Definition step_request (s : request_step) : Event := match s with Stored r | Removed r => r end.

Definition requests_after (rs : list Event) (s : request_step) : list Event :=
  match s with
  | Stored r => r :: rs
  | Removed r => filter (λ x, ev_ID x ≠ ev_ID r) rs
  end.

Section deletions.
Context `{NostrPrims} `{!NostrLaws}.

Definition index_after (ix : gset string) (s : request_step) : gset string :=
  match s with
  | Stored r => DeletionIndex_Index r ix
  | Removed r => DeletionIndex_Unindex r ix
  end.

(** The digest of a coordinate has the size of a SHA-256 digest. *)
Definition hashed (c : Coordinate) : Prop := String.length (deletionKeyPrefix c) = 32%nat.

(** A request as Go's types have it, with a time an int64 of seconds since
    1970 can be. *)
Record request_ok (r : Event) : Prop := {
  rq_id : String.length (ev_ID r) = 32%nat;
  rq_pubkey : String.length (ev_PubKey r) = 32%nat;
  rq_time : 0 ≤ ev_CreatedAt r < two63;
  rq_hashed c : c ∈ DeletedCoordinates r → hashed c;
}.

(** Requests that share an id are one request. *)
Definition ids_unique (rs : list Event) : Prop := ∀ r r', r ∈ rs → r' ∈ rs → ev_ID r = ev_ID r' → r = r'.

(** What the index holds for [rs]. *)
Definition indexes (ix : gset string) (rs : list Event) : Prop := ∀ k, k ∈ ix ↔ ∃ r, r ∈ rs ∧ k ∈ deletionKeys r.

Lemma deletionKeys_id r r' k : String.length (ev_ID r) = 32%nat → String.length (ev_ID r') = 32%nat →
  k ∈ deletionKeys r → k ∈ deletionKeys r' → ev_ID r = ev_ID r'.
Proof.
  intros Hr Hr' (c & _ & ->)%elem_of_deletionKeys (c' & _ & E)%elem_of_deletionKeys.
  unfold deletionKey in E. rewrite !app_string_assoc in E. apply app_string_inj_r in E as [_ E]; congruence.
Qed.

Lemma indexes_step ix rs s all : ids_unique all → Forall request_ok all → step_request s ∈ all → (∀ r, r ∈ rs → r ∈ all) →
  indexes ix rs → indexes (index_after ix s) (requests_after rs s).
Proof.
  intros Hu Hok Hs Hrs Hi k. rewrite Forall_forall in Hok. destruct s as [r|r]; simpl in *.
  - rewrite elem_of_Index, (Hi k). setoid_rewrite elem_of_cons. naive_solver.
  - rewrite elem_of_Unindex, (Hi k). setoid_rewrite list_elem_of_filter. split.
    + intros [(x & Hx & Hk) Hn]. exists x. split; [split; [|done]|done]. intros E. apply Hn.
      by rewrite <- (Hu x r) by auto.
    + intros (x & [Hne Hx] & Hk). split; [eauto|]. intros Hk'. apply Hne.
      apply (deletionKeys_id x r k); [apply Hok; auto..|done|done].
Qed.

Lemma indexes_after steps ix rs all : ids_unique all → Forall request_ok all →
  (∀ s, s ∈ steps → step_request s ∈ all) → (∀ r, r ∈ rs → r ∈ all) → indexes ix rs →
  indexes (foldl index_after ix steps) (foldl requests_after rs steps) ∧ ∀ r, r ∈ foldl requests_after rs steps → r ∈ all.
Proof.
  intros Hu Hok. revert ix rs. induction steps as [|s steps IH]; intros ix rs Hs Hrs Hi; simpl; [done|]. apply IH.
  - intros s' Hs'. apply Hs. by right.
  - assert (step_request s ∈ all) by (apply Hs; left). intros r. destruct s; simpl in *;
      [intros [->|Hr]%elem_of_cons|intros [_ Hr]%list_elem_of_filter]; auto.
  - apply (indexes_step _ _ _ all); [done..|apply Hs; left|done|done].
Qed.

Lemma Deleted_indexes ix rs c since : indexes ix rs → Forall request_ok rs → wf_coordinate c → hashed c → 0 ≤ since < two63 →
  DeletionIndex_Deleted c since ix = true ↔ ∃ r, r ∈ rs ∧ c ∈ DeletedCoordinates r ∧ since ≤ ev_CreatedAt r.
Proof.
  intros Hi Hok Hc Hh Hs. rewrite Deleted_seek. rewrite Forall_forall in Hok. split.
  - intros (k & Hk & Hp & Hle). apply Hi in Hk as (r & Hr & (c' & Hc' & ->)%elem_of_deletionKeys).
    destruct (Hok r Hr) as [_ Hpk Ht Hhash]. assert (c' = c) as ->.
    { apply has_prefix_spec in Hp as [t E]. unfold deletionKey in E. pose proof (Hhash c' Hc') as Hh'. unfold hashed in *.
      apply app_string_inj in E as [E _]; [|congruence]. apply sha256_collision_free in E; [|done].
      apply Coordinate_String_inj; [by eapply DeletedCoordinates_wf|done..]. }
    exists r. by rewrite (deletionKey_le c since r) in Hle.
  - intros (r & Hr & Hc' & Hle). exists (deletionKey c r). split; [apply Hi; exists r; split; [done|]; apply elem_of_deletionKeys; eauto|].
    split; [apply has_prefix_app|]. apply deletionKey_le; [done|by apply Hok|done].
Qed.

(** Whatever deletion requests were stored and removed, in whatever order,
    a coordinate is reported deleted from a time on exactly when a request
    still stored names it and was made at that time or later. *)
Theorem deletion_index_exact steps c since :
  Forall (λ s, request_ok (step_request s)) steps → ids_unique (step_request <$> steps) →
  wf_coordinate c → hashed c → 0 ≤ since < two63 →
  DeletionIndex_Deleted c since (foldl index_after ∅ steps) = true ↔
  ∃ r, r ∈ foldl requests_after [] steps ∧ c ∈ DeletedCoordinates r ∧ since ≤ ev_CreatedAt r.
Proof.
  intros Hok Hu Hc Hh Hs. assert (Forall request_ok (step_request <$> steps)) as Hok' by by apply Forall_fmap.
  destruct (indexes_after steps ∅ [] (step_request <$> steps)) as [Hi Hin]; [done..| |set_solver|intros k; set_solver|].
  - intros s Hs'. by apply list_elem_of_fmap_2.
  - apply Deleted_indexes; [done| |done..]. apply Forall_forall. intros r Hr. rewrite Forall_forall in Hok'. auto.
Qed.

(** A request deletes only coordinates of its own author, and naming the
    address of one of the author's replaceable or addressable events deletes
    that event's coordinate. *)
Theorem deletes_own_coordinates request :
  (∀ c, c ∈ DeletedCoordinates request → co_Author c = ev_PubKey request) ∧
  ∀ event rest, wf_event request → ParsePubKey (ev_PubKey request) = true → ev_PubKey event = ev_PubKey request →
    0 ≤ ev_Kind event < 65536 → IsReplaceable (ev_Kind event) || IsAddressable (ev_Kind event) = true →
    ev_Tags request = ["a"%string; Coordinate_String (CoordinateOf event)] :: rest →
    CoordinateOf event ∈ DeletedCoordinates request.
Proof.
  split; [by intros c (tag & _ & (? & _)%deleted_coordinate_ok)%elem_of_DeletedCoordinates|].
  intros event rest Hw Hp Ha Hk Hr Ht. apply elem_of_DeletedCoordinates. eexists. split; [rewrite Ht; left|].
  unfold Coordinate_String, CoordinateOf. simpl co_Kind. simpl co_Author. rewrite Ha.
  rewrite deleted_coordinate_address by done. f_equal. unfold NewCoordinate. simpl. by destruct (IsAddressable _).
Qed.
End deletions.

(** An address written for a kind, a key and a d parses back to them. *)
Theorem address_roundtrip `{NostrPrims} kind author d :
  0 ≤ kind < 65536 → String.length author = 32%nat → ParsePubKey author = true →
  ParseAddress (Address kind author d) = Some (kind, author, d).
Proof. apply ParseAddress_Address. Qed.

(** ** Backfill *)

Section backfill.
Context (m : Marker).

Lemma put_all keys f : foldl (λ db key, put_index key db) f keys = mkIndexFile (list_to_set keys ∪ if_index f) (if_settings f).
Proof.
  revert f. induction keys as [|k keys IH]; intros [ix st]; simpl; [f_equal; set_solver|]. rewrite IH. simpl. f_equal. set_solver.
Qed.

(** What is on disk when the loop stops: the keys of the batches written, and
    the marker only when it ran to the end. *)
Lemma put_loop_spec ctx batch look pending keys f err f1 :
  put_loop put_index (Some (set_marker m)) ctx batch look pending keys f = (err, f1) →
  ∃ written rest, pending ++ keys = written ++ rest ∧ if_index f1 = list_to_set written ∪ if_index f ∧
    match err with
    | None => rest = [] ∧ if_settings f1 = Marker_Set m (if_settings f)
    | Some _ => if_settings f1 = if_settings f ∧ err = Some CoordCancelled ∧ ∃ n, ctx n = true
    end.
Proof.
  revert look pending f. induction keys as [|k keys IH]; intros look pending f; simpl.
  - destruct (ctx look) eqn:E; intros [= <- <-].
    + exists [], (pending ++ []). split_and!; [done|set_solver|done|done|by exists look].
    + exists pending, []. rewrite put_all. simpl. split_and!; done.
  - destruct (ctx look) eqn:E.
    { intros [= <- <-]. exists [], (pending ++ k :: keys). split_and!; [done|set_solver|done|done|by exists look]. }
    destruct (batch <=? _); [|intros (w & r & Ew & Hi & He)%IH; exists w, r; by rewrite <- Ew, <- app_assoc].
    rewrite put_all. intros (w & r & Ew & Hi & He)%IH. simpl in *. exists (pending ++ k :: w), r.
    rewrite <- app_assoc. simpl. rewrite Ew. split; [done|]. split; [rewrite Hi, !list_to_set_app_L; simpl; set_solver|done].
Qed.
End backfill.

(** An interrupted backfill loses nothing and promises nothing: whatever
    the context does, the index afterwards has the old keys and some of the
    requests' keys, the marker is set exactly when all of them are written,
    and running again to the end gives the index an undisturbed run gives. *)
Theorem backfill_resumable `{NostrPrims} ctx requests batch m f err f1 :
  DeletionIndex_Backfill ctx requests batch (Some (set_marker m)) f = (err, f1) →
  if_index f ⊆ if_index f1 ⊆ list_to_set (requests ≫= deletionKeys) ∪ if_index f ∧
  (err = None → if_index f1 = list_to_set (requests ≫= deletionKeys) ∪ if_index f ∧
     if_settings f1 = Marker_Set m (if_settings f)) ∧
  (err ≠ None → if_settings f1 = if_settings f) ∧
  DeletionIndex_Backfill (λ _, false) requests batch (Some (set_marker m)) f1 =
    (None, mkIndexFile (list_to_set (requests ≫= deletionKeys) ∪ if_index f) (Marker_Set m (if_settings f1))).
Proof.
  unfold DeletionIndex_Backfill, putBatched. set (keys := requests ≫= deletionKeys). intros Hb.
  apply put_loop_spec in Hb as (w & r & Ew & Hi & He). simpl in Ew.
  assert (if_index f ⊆ if_index f1 ⊆ list_to_set keys ∪ if_index f) as Hsub
    by (rewrite Ew, Hi, list_to_set_app_L; set_solver).
  split; [done|]. split; [|split].
  - intros ->. destruct He as [-> Hs]. rewrite app_nil_r in Ew. by rewrite Ew, Hi.
  - destruct err; [by intros _; destruct He|done].
  - destruct (put_loop put_index (Some (set_marker m)) (λ _, false) batch 0 [] keys f1) as [err2 f2] eqn:E2.
    apply put_loop_spec in E2 as (w2 & r2 & Ew2 & Hi2 & He2). destruct err2; [by destruct He2 as (_ & _ & ? & ?)|].
    destruct He2 as [-> Hs2]. simpl in Ew2. rewrite app_nil_r in Ew2. destruct f2 as [ix2 st2]. simpl in *. f_equal.
    rewrite Hs2, Hi2, <- Ew2. f_equal. set_solver.
Qed.

(** ** A sample *)

Module CoordSample.

Definition author : string := key_of 21.
Definition long_d : string := "relay-config-of-the-edge-cluster".

Definition config : Coordinate := mkCoordinate 30078 author long_d.
Definition request : Event :=
  mkEvent (key_of 1) author 2000 5 [["a"%string; Coordinate_String config]; ["e"%string; "x"%string]] "" sig_of.
Definition later : Event := mkEvent (key_of 2) author 3000 5 [["a"%string; Coordinate_String config]] "" sig_of.

Definition table : list (string * string) := [(Coordinate_String config, key_of 90)].

#[local] Instance sample_prims : NostrPrims := {|
  sha256 := digest table;
  verify_bip340 := λ _ _ _, true;
  ParsePubKey := λ _, true;
  SchnorrVerify := λ _ _ _, true;
  decode_unadmitted := λ _, None;
  decode_accepted := λ _, None;
  decode_refused := λ _, None;
|}.

#[local] Instance sample_laws : NostrLaws.
Proof.
  split; [|done]. intros a b. apply (digest_collision_free table). vm_compute. repeat constructor; set_solver.
Qed.

Lemma request_ok_one (r : Event) : DeletedCoordinates r = [config] → String.length (ev_ID r) = 32%nat →
  String.length (ev_PubKey r) = 32%nat → 0 ≤ ev_CreatedAt r < two63 → request_ok r.
Proof.
  intros Hd Hi Hp Ht. split; [done..|]. intros c. rewrite Hd. intros ->%list_elem_of_singleton. vm_compute. reflexivity.
Qed.

Lemma deletion_index_exact_witness :
  DeletionIndex_Deleted config 2500 (foldl index_after ∅ [Stored request; Stored later; Removed request]) = true ↔
  ∃ r, r ∈ foldl requests_after [] [Stored request; Stored later; Removed request] ∧
    config ∈ DeletedCoordinates r ∧ 2500 ≤ ev_CreatedAt r.
Proof.
  assert (request_ok request ∧ request_ok later) as [Hr Hl]
    by (split; apply request_ok_one; vm_compute; (reflexivity || (split; congruence))).
  apply (deletion_index_exact [Stored request; Stored later; Removed request] config 2500).
  - apply Forall_cons_2, Forall_cons_2, Forall_cons_2, Forall_nil_2; assumption.
  - intros r r' Hx Hy. simpl in Hx, Hy. rewrite !elem_of_cons, elem_of_nil in Hx, Hy.
    destruct Hx as [->|[->|[->|[]]]], Hy as [->|[->|[->|[]]]]; intros E; first [reflexivity|vm_compute in E; congruence].
  - split; vm_compute; [split; congruence|reflexivity].
  - vm_compute. reflexivity.
  - unfold two63. lia.
Defined.

Definition held : Event := mkEvent (key_of 3) author 1000 30078 [["d"%string; long_d]] "" sig_of.

Lemma deletes_own_coordinates_witness : CoordinateOf held ∈ DeletedCoordinates later.
Proof.
  apply (proj2 (deletes_own_coordinates later) held []); try (vm_compute; reflexivity).
  - apply wf_eventb_spec. vm_compute. reflexivity.
  - simpl. lia.
Defined.

Lemma address_roundtrip_witness : ParseAddress (Address 30078 author long_d) = Some (30078, author, long_d).
Proof. apply address_roundtrip; [lia|vm_compute; reflexivity|reflexivity]. Defined.

Definition marker : Marker := mkMarker "deletions" "1".

Lemma backfill_resumable_witness : ∃ f1,
  DeletionIndex_Backfill (λ n, Nat.eqb n 1) [request; later] 1 (Some (set_marker marker)) (mkIndexFile ∅ ∅) =
    (Some CoordCancelled, f1) ∧
  DeletionIndex_Backfill (λ _, false) [request; later] 1 (Some (set_marker marker)) f1 =
    (None, mkIndexFile (list_to_set ([request; later] ≫= deletionKeys) ∪ ∅) (Marker_Set marker (if_settings f1))).
Proof.
  destruct (DeletionIndex_Backfill (λ n, Nat.eqb n 1) [request; later] 1 (Some (set_marker marker)) (mkIndexFile ∅ ∅))
    as [err f1] eqn:E.
  exists f1. split.
  - f_equal. apply (f_equal fst) in E. vm_compute in E. symmetry. exact E.
  - apply (backfill_resumable _ _ _ _ _ _ _ E).
Defined.
End CoordSample.
