(* ===== verification/BetterBinary.v ===== *)
(** * The binary form of stored events

    [src/third_party/nostr/eventstore/codec/betterbinary]: the encoding the
    event stores keep events in.  [Marshal] writes into a buffer that
    [Measure] sized, field by field at computed offsets; [Unmarshal] reads it
    back, counting how often the 16-bit tag offsets wrapped.  A write or read
    outside a slice panics (the callers' slices have no capacity beyond their
    length); [Unmarshal] recovers its panics as errors. *)

From Stdlib Require Import ZArith Lia Bool Ascii.
From stdpp Require Import base tactics decidable option list numbers strings.
From S2P Require Import Prelude Bytes Nostr.

(** ** Buffers *)

(** [binary.LittleEndian]. *)
Definition le16 (z : Z) : list Z := [z mod 256; z / 256 mod 256].
Definition le32 (z : Z) : list Z := [z mod 256; z / 256 mod 256; z / 65536 mod 256; z / 16777216 mod 256].

Inductive CodecError :=
| ErrTooLarge
| ErrPanic.

(** A write of [bs] at [off], as [PutUint16(buf[off:], …)] and the copies into
    fixed slices do it. *)
Definition put (off : nat) (bs : list Z) (buf : list Z) : result CodecError (list Z) :=
  if Nat.leb (off + length bs) (length buf) then Ok (take off buf ++ bs ++ drop (off + length bs) buf) else Err ErrPanic.

(** [copy(buf[off:], bs)], which stops at the end of the buffer. *)
Definition copy_into (off : nat) (bs : list Z) (buf : list Z) : result CodecError (list Z) :=
  if Nat.leb off (length buf) then put off (take (length buf - off) bs) buf else Err ErrPanic.

(** [binary.LittleEndian.Uint16(data[off:])]. *)
Definition u16_at (data : list Z) (off : nat) : result CodecError Z :=
  match drop off data with
  | a :: b :: _ => Ok (a + 256 * b)
  | _ => Err ErrPanic
  end.

Definition u32_at (data : list Z) (off : nat) : result CodecError Z :=
  match drop off data with
  | a :: b :: c :: d :: _ => Ok (a + 256 * b + 65536 * c + 16777216 * d)
  | _ => Err ErrPanic
  end.

(** [data[a:b]]. *)
Definition slice (data : list Z) (a b : nat) : result CodecError (list Z) :=
  if Nat.leb a b && Nat.leb b (length data) then Ok (take (b - a) (drop a data)) else Err ErrPanic.

Definition byte_at (data : list Z) (off : nat) : result CodecError Z :=
  match data !! off with Some b => Ok b | None => Err ErrPanic end.

(** ** Measure and Marshal *)

Definition MaxKind : Z := 65535.
Definition MaxCreatedAt : Z := 4294967295.
Definition MaxContentSize : Z := 65535.
Definition MaxTagCount : Z := 65535.
Definition MaxTagItemCount : Z := 255.
Definition MaxTagItemSize : Z := 65535.

Definition measure_tag (tag : list string) : nat :=
  length tag * 2 + sum_list_with String.length tag.

Definition Measure (evt : Event) : nat :=
  135 + (2 + 2 + length (ev_Tags evt) * 3) + sum_list_with measure_tag (ev_Tags evt) + (2 + String.length (ev_Content evt)).

Definition tagBase : nat := 135.

(** The loop over the items of one tag: the buffer and the item offset. *)
Fixpoint marshal_items (tagOffset itemOffset : nat) (items : list string) (buf : list Z) : result CodecError (list Z * nat) :=
  match items with
  | [] => Ok (buf, itemOffset)
  | item :: items' =>
      let itemSize := Z.of_nat (String.length item) in
      check! itemSize <=? MaxTagItemSize else ErrTooLarge in
      let! buf := put (tagBase + tagOffset + itemOffset) (le16 itemSize) buf in
      let! buf := copy_into (tagBase + tagOffset + itemOffset + 2) (bytes_of_string item) buf in
      marshal_items tagOffset (itemOffset + (2 + String.length item)) items' buf
  end.

(** The loop over the tags from number [t] on. *)
Fixpoint marshal_tags (t tagOffset : nat) (tags : list (list string)) (buf : list Z) : result CodecError (list Z * nat) :=
  match tags with
  | [] => Ok (buf, tagOffset)
  | tag :: tags' =>
      let! buf := put (tagBase + 2 + 2 + t * 2) (le16 (Z.of_nat tagOffset)) buf in
      let itemCount := Z.of_nat (length tag) in
      check! itemCount <=? MaxTagItemCount else ErrTooLarge in
      let! buf := put (tagBase + tagOffset) [itemCount] buf in
      let! ' (buf, itemOffset) := marshal_items tagOffset 1 tag buf in
      marshal_tags (S t) (tagOffset + itemOffset) tags' buf
  end.

Definition Marshal (evt : Event) (buf : list Z) : result CodecError (list Z) :=
  let! buf := put 0 [0] buf in
  check! ev_Kind evt <=? MaxKind else ErrTooLarge in
  let! buf := put 1 (le16 (ev_Kind evt)) buf in
  check! ev_CreatedAt evt <=? MaxCreatedAt else ErrTooLarge in
  let! buf := put 3 (le32 (ev_CreatedAt evt)) buf in
  let! buf := put 7 (bytes_of_string (ev_ID evt)) buf in
  let! buf := put 39 (bytes_of_string (ev_PubKey evt)) buf in
  let! buf := put 71 (bytes_of_string (ev_Sig evt)) buf in
  let ntags := length (ev_Tags evt) in
  check! Z.of_nat ntags <=? MaxTagCount else ErrTooLarge in
  let! buf := put 137 (le16 (Z.of_nat ntags)) buf in
  let! ' (buf, tagsSectionLength) := marshal_tags 0 (2 + 2 + ntags * 2) (ev_Tags evt) buf in
  let! buf := put tagBase (le16 (Z.of_nat tagsSectionLength)) buf in
  let contentLength := Z.of_nat (String.length (ev_Content evt)) in
  check! contentLength <=? MaxContentSize else ErrTooLarge in
  let! buf := put (tagBase + tagsSectionLength) (le16 contentLength) buf in
  copy_into (tagBase + tagsSectionLength + 2) (bytes_of_string (ev_Content evt)) buf.

(** ** Unmarshal *)

(** [1 << 16]. *)
Definition wrap : nat := Z.to_nat 65536.

(** [n] items from [curr] on. *)
Fixpoint unmarshal_items (data : list Z) (n curr : nat) : result CodecError (list string) :=
  match n with
  | O => Ok []
  | S n' =>
      let! length := u16_at data curr in
      let length := Z.to_nat length in
      let! item := slice data (curr + 2) (curr + 2 + length) in
      let! items := unmarshal_items data n' (curr + (2 + length)) in
      Ok (string_of_bytes item :: items)
  end.

(** [n] tags from number [t] on, with the last offset read and the number of
    wraps seen. *)
Fixpoint unmarshal_tags (data : list Z) (n t prevOffset overflows : nat) : result CodecError (list (list string) * nat) :=
  match n with
  | O => Ok ([], overflows)
  | S n' =>
      let! offset := u16_at data (tagBase + 4 + t * 2) in
      let offset := Z.to_nat offset in
      let overflows := if Nat.ltb offset prevOffset then S overflows else overflows in
      let pos := (offset + wrap * overflows)%nat in
      let! nitems := byte_at data (tagBase + pos) in
      let! tag := unmarshal_items data (Z.to_nat nitems) (tagBase + pos + 1) in
      let! ' (tags, overflows) := unmarshal_tags data n' (S t) offset overflows in
      Ok (tag :: tags, overflows)
  end.

Definition Unmarshal (data : list Z) : result CodecError Event :=
  let! kind := u16_at data 1 in
  let! createdAt := u32_at data 3 in
  let! id := slice data 7 39 in
  let! pubkey := slice data 39 71 in
  let! sig := slice data 71 135 in
  let! tagsSectionLength := u16_at data tagBase in
  let! ntags := u16_at data (tagBase + 2) in
  let! ' (tags, overflows) := unmarshal_tags data (Z.to_nat ntags) 0 0 0 in
  let tagsSectionLength := (Z.to_nat tagsSectionLength + wrap * overflows)%nat in
  let! contentLength := u16_at data (tagBase + tagsSectionLength) in
  let! content := slice data (tagBase + tagsSectionLength + 2) (tagBase + tagsSectionLength + 2 + Z.to_nat contentLength) in
  Ok (mkEvent (string_of_bytes id) (string_of_bytes pubkey) createdAt kind tags (string_of_bytes content) (string_of_bytes sig)).

(** ** Accessors *)

Definition GetKind (data : list Z) : result CodecError Z := u16_at data 1.
Definition GetCreatedAt (data : list Z) : result CodecError Z := u32_at data 3.
Definition GetID (data : list Z) : result CodecError string := let! id := slice data 7 39 in Ok (string_of_bytes id).
Definition GetPubKey (data : list Z) : result CodecError string := let! pubkey := slice data 39 71 in Ok (string_of_bytes pubkey).
