(* ===== verification/BetterBinaryFacts.v ===== *)
(** * The codec against a reference encoding

    [encode] writes the fields of an event one after the other; [Marshal], run
    on any buffer of the measured size, produces exactly that, or refuses the
    event for its size.  The lemmas on [Unmarshal] follow the encoding from
    left to right. *)

From Stdlib Require Import ZArith Lia Bool Ascii.
From stdpp Require Import base tactics decidable option list numbers strings.
From S2P Require Import Prelude Bytes Nostr BetterBinary.

#[global] Arguments tagBase : simpl never.
#[global] Arguments le16 z : simpl never.
#[global] Arguments le32 z : simpl never.
#[global] Arguments measure_tag tag : simpl never.

Lemma wrap_Z : Z.of_nat wrap = 65536.
Proof. unfold wrap. lia. Qed.

#[global] Opaque wrap.

(** ** The reference encoding *)

Definition encode_item (item : string) : list Z :=
  le16 (Z.of_nat (String.length item)) ++ bytes_of_string item.

Definition encode_items (items : list string) : list Z := mbind encode_item items.

Definition encode_tag (tag : list string) : list Z := Z.of_nat (length tag) :: encode_items tag.

Definition tag_size (tag : list string) : nat := S (measure_tag tag).

(** The offset table of [tags] when the first body is at [off]. *)
Fixpoint encode_offsets (off : nat) (tags : list (list string)) : list Z :=
  match tags with
  | [] => []
  | tag :: tags' => le16 (Z.of_nat off) ++ encode_offsets (off + tag_size tag) tags'
  end.

Definition table_size (evt : Event) : nat := 2 + 2 + length (ev_Tags evt) * 2.
Definition section_size (evt : Event) : nat := table_size evt + sum_list_with tag_size (ev_Tags evt).

Definition encode_head (evt : Event) : list Z :=
  [0] ++ le16 (ev_Kind evt) ++ le32 (ev_CreatedAt evt) ++ bytes_of_string (ev_ID evt)
  ++ bytes_of_string (ev_PubKey evt) ++ bytes_of_string (ev_Sig evt).

Definition encode_content (content : string) : list Z :=
  le16 (Z.of_nat (String.length content)) ++ bytes_of_string content.

Definition encode (evt : Event) : list Z :=
  encode_head evt ++ le16 (Z.of_nat (section_size evt)) ++ le16 (Z.of_nat (length (ev_Tags evt)))
  ++ encode_offsets (table_size evt) (ev_Tags evt) ++ mbind encode_tag (ev_Tags evt) ++ encode_content (ev_Content evt).

(** The limits [Marshal] checks. *)
Definition tag_fits (tag : list string) : bool :=
  (Z.of_nat (length tag) <=? MaxTagItemCount) && forallb (λ item, Z.of_nat (String.length item) <=? MaxTagItemSize) tag.

Definition fits (evt : Event) : bool :=
  (ev_Kind evt <=? MaxKind) && (ev_CreatedAt evt <=? MaxCreatedAt) && (Z.of_nat (length (ev_Tags evt)) <=? MaxTagCount)
  && forallb tag_fits (ev_Tags evt) && (Z.of_nat (String.length (ev_Content evt)) <=? MaxContentSize).

(** The array sizes of the Go type. *)
Record sized_event (evt : Event) : Prop := {
  sized_id : String.length (ev_ID evt) = 32%nat;
  sized_pubkey : String.length (ev_PubKey evt) = 32%nat;
  sized_sig : String.length (ev_Sig evt) = 64%nat;
}.

(** ** Lengths *)

Lemma le16_length z : length (le16 z) = 2%nat.
Proof. done. Qed.

Lemma le32_length z : length (le32 z) = 4%nat.
Proof. done. Qed.

Lemma measure_tag_cons item tag : measure_tag (item :: tag) = (2 + String.length item + measure_tag tag)%nat.
Proof. unfold measure_tag. simpl. lia. Qed.

Lemma bytes_of_string_length s : length (bytes_of_string s) = String.length s.
Proof. induction s; simpl; congruence. Qed.

Lemma string_of_bytes_of_string s : string_of_bytes (bytes_of_string s) = s.
Proof.
  induction s as [|c s IH]; [done|]. simpl. rewrite IH. f_equal.
  unfold byte_of_Z, Z_of_byte. pose proof (N_ascii_bounded c).
  rewrite Z.mod_small by lia. by rewrite N2Z.id, ascii_N_embedding.
Qed.

Lemma encode_items_length items : length (encode_items items) = measure_tag items.
Proof.
  unfold encode_items. induction items as [|x items IH]; [done|].
  rewrite bind_cons, length_app, IH, measure_tag_cons. unfold encode_item.
  by rewrite length_app, bytes_of_string_length, le16_length.
Qed.

Lemma encode_tag_length tag : length (encode_tag tag) = tag_size tag.
Proof. unfold encode_tag, tag_size. simpl. by rewrite encode_items_length. Qed.

Lemma encode_tags_length tags : length (mbind encode_tag tags) = sum_list_with tag_size tags.
Proof.
  induction tags as [|tag tags IH]; [done|]. rewrite bind_cons, length_app, encode_tag_length, IH. done.
Qed.

Lemma encode_offsets_length tags : ∀ off, length (encode_offsets off tags) = (length tags * 2)%nat.
Proof. induction tags as [|tag tags IH]; intros off; [done|]. simpl. rewrite IH. lia. Qed.

Lemma encode_head_length evt : sized_event evt → length (encode_head evt) = tagBase.
Proof.
  intros [Hi Hp Hs]. unfold encode_head, tagBase. rewrite !length_app, !bytes_of_string_length, Hi, Hp, Hs. done.
Qed.

Lemma encode_content_length content : length (encode_content content) = (2 + String.length content)%nat.
Proof. unfold encode_content. rewrite length_app, bytes_of_string_length. done. Qed.

Lemma Measure_sections evt : Measure evt = (tagBase + section_size evt + (2 + String.length (ev_Content evt)))%nat.
Proof.
  unfold Measure, section_size, table_size, tagBase, tag_size.
  assert (Hs : ∀ tags : list (list string),
    sum_list_with (λ tag, S (measure_tag tag)) tags = (length tags + sum_list_with measure_tag tags)%nat).
  { intros tags. induction tags as [|t tags IH]; [done|]. simpl. rewrite IH. lia. }
  rewrite Hs. lia.
Qed.

Lemma encode_length evt : sized_event evt → length (encode evt) = Measure evt.
Proof.
  intros He. unfold encode.
  rewrite !length_app, (encode_head_length _ He), encode_offsets_length, encode_tags_length, encode_content_length, Measure_sections.
  unfold section_size, table_size. simpl. lia.
Qed.

(** ** Marshal *)

Lemma split_length {A} (l : list A) n m : length l = (n + m)%nat → ∃ a b, l = a ++ b ∧ length a = n ∧ length b = m.
Proof.
  intros H. exists (take n l), (drop n l). rewrite take_drop, length_take, length_drop. split_and!; [done|lia|lia].
Qed.

Lemma put_at a x b off bs buf :
  buf = a ++ x ++ b → off = length a → length x = length bs → put off bs buf = Ok (a ++ bs ++ b).
Proof.
  intros -> -> Hx. unfold put. rewrite !length_app, Hx, (proj2 (Nat.leb_le _ _)) by lia.
  rewrite take_app_length, drop_app_add, drop_app_length' by done. done.
Qed.

Lemma copy_at a x b off bs buf :
  buf = a ++ x ++ b → off = length a → length x = length bs → copy_into off bs buf = Ok (a ++ bs ++ b).
Proof.
  intros -> -> Hx. unfold copy_into. rewrite (proj2 (Nat.leb_le _ _)) by (rewrite length_app; lia).
  rewrite take_ge by (rewrite !length_app; lia). by apply (put_at a x b).
Qed.

(** Side conditions of the two lemmas above: reassociation and lengths. *)
Ltac step := cbn [marshal_items marshal_tags unmarshal_items unmarshal_tags result_bind require forallb andb].

Ltac solve_at :=
  first [ by rewrite <- ?app_assoc
        | rewrite ?length_app, ?bytes_of_string_length, ?le16_length, ?le32_length; cbn [length]; lia ].

Lemma marshal_items_spec tagOffset items : ∀ itemOffset a x b,
  length a = (tagBase + tagOffset + itemOffset)%nat → length x = measure_tag items →
  marshal_items tagOffset itemOffset items (a ++ x ++ b) =
    if forallb (λ item, Z.of_nat (String.length item) <=? MaxTagItemSize) items
    then Ok (a ++ encode_items items ++ b, itemOffset + measure_tag items)%nat else Err ErrTooLarge.
Proof.
  induction items as [|item items IH]; intros itemOffset a x b Ha Hx.
  { destruct x; [|done]. simpl. by rewrite Nat.add_0_r. }
  step. destruct (_ <=? _); [|done]. step.
  rewrite measure_tag_cons in Hx |- *.
  destruct (split_length x 2 (String.length item + measure_tag items)) as (x1 & x' & -> & H1 & Hx'); [lia|].
  destruct (split_length x' _ _ Hx') as (x2 & x3 & -> & H2 & H3).
  rewrite (put_at a x1 (x2 ++ x3 ++ b)) by solve_at. step.
  rewrite (copy_at (a ++ le16 (Z.of_nat (String.length item))) x2 (x3 ++ b)) by solve_at. step.
  rewrite app_assoc, (IH _ _ x3 b) by solve_at.
  destruct (forallb _ _); [|done]. do 2 f_equal; [|lia].
  unfold encode_items. rewrite bind_cons. unfold encode_item at 2. by rewrite <- !app_assoc.
Qed.

Lemma marshal_tags_spec tags : ∀ t tagOffset a x m y b,
  length a = (tagBase + 4 + t * 2)%nat → length x = (length tags * 2)%nat →
  length (a ++ x ++ m) = (tagBase + tagOffset)%nat → length y = sum_list_with tag_size tags →
  marshal_tags t tagOffset tags (a ++ x ++ m ++ y ++ b) =
    if forallb tag_fits tags
    then Ok (a ++ encode_offsets tagOffset tags ++ m ++ mbind encode_tag tags ++ b, tagOffset + sum_list_with tag_size tags)%nat
    else Err ErrTooLarge.
Proof.
  induction tags as [|tag tags IH]; intros t tagOffset a x m y b Ha Hx Hm Hy.
  { destruct x, y; try done. simpl. by rewrite Nat.add_0_r. }
  destruct (split_length x 2 (length tags * 2)) as (x1 & x2 & -> & Hx1 & Hx2); [simpl in Hx; lia|].
  destruct (split_length y (tag_size tag) (sum_list_with tag_size tags)) as (y' & y3 & -> & Hy' & Hy3); [done|].
  destruct (split_length y' 1 (measure_tag tag)) as (y1 & y2 & -> & Hy1 & Hy2); [done|].
  rewrite !length_app in Hm. step.
  rewrite (put_at a x1 (x2 ++ m ++ y1 ++ y2 ++ y3 ++ b)) by solve_at. step.
  unfold tag_fits at 1. destruct (_ <=? _); [|done]. step.
  set (o := le16 (Z.of_nat tagOffset)). assert (Ho : length o = 2%nat) by done.
  rewrite (put_at (a ++ o ++ x2 ++ m) y1 (y2 ++ y3 ++ b)) by solve_at. step.
  set (c := [Z.of_nat (length tag)]). assert (Hc : length c = 1%nat) by done.
  replace ((a ++ o ++ x2 ++ m) ++ c ++ y2 ++ y3 ++ b) with (((a ++ o ++ x2 ++ m) ++ c) ++ y2 ++ (y3 ++ b)) by solve_at.
  rewrite marshal_items_spec by solve_at. destruct (forallb _ tag); [|done]. step.
  replace ((((a ++ o ++ x2 ++ m) ++ c) ++ encode_items tag ++ y3 ++ b))
    with ((a ++ o) ++ x2 ++ (m ++ c ++ encode_items tag) ++ y3 ++ b) by solve_at.
  rewrite IH by (rewrite ?length_app, ?encode_items_length; solve_at).
  destruct (forallb _ tags); [|done]. rewrite bind_cons. cbn [encode_offsets sum_list_with].
  unfold encode_tag at 2, tag_size. fold c. do 2 f_equal; [|lia].
  change (Z.of_nat (length tag) :: encode_items tag) with (c ++ encode_items tag). by rewrite <- !app_assoc.
Qed.

(** The buffer of [Marshal] cut into its fields. *)
Lemma buffer_fields evt (buf : list Z) :
  length buf = Measure evt → ∃ b0 b1 b3 b7 b39 b71 b135 b137 bt bs bc bd,
    buf = b0 ++ b1 ++ b3 ++ b7 ++ b39 ++ b71 ++ b135 ++ b137 ++ bt ++ bs ++ bc ++ bd
    ∧ (length b0 = 1 ∧ length b1 = 2 ∧ length b3 = 4 ∧ length b7 = 32 ∧ length b39 = 32 ∧ length b71 = 64
    ∧ length b135 = 2 ∧ length b137 = 2 ∧ length bt = length (ev_Tags evt) * 2
    ∧ length bs = sum_list_with tag_size (ev_Tags evt) ∧ length bc = 2 ∧ length bd = String.length (ev_Content evt))%nat.
Proof.
  rewrite Measure_sections. unfold section_size, table_size, tagBase. intros H.
  set (nt := (length (ev_Tags evt) * 2)%nat) in *. set (ns := sum_list_with tag_size (ev_Tags evt)) in *.
  set (nc := String.length (ev_Content evt)) in *.
  destruct (split_length buf 1 (138 + nt + ns + 2 + nc)) as (b0 & r0 & -> & ? & Hr0); [lia|].
  destruct (split_length r0 2 (136 + nt + ns + 2 + nc)) as (b1 & r1 & -> & ? & Hr1); [lia|].
  destruct (split_length r1 4 (132 + nt + ns + 2 + nc)) as (b3 & r3 & -> & ? & Hr3); [lia|].
  destruct (split_length r3 32 (100 + nt + ns + 2 + nc)) as (b7 & r7 & -> & ? & Hr7); [lia|].
  destruct (split_length r7 32 (68 + nt + ns + 2 + nc)) as (b39 & r39 & -> & ? & Hr39); [lia|].
  destruct (split_length r39 64 (4 + nt + ns + 2 + nc)) as (b71 & r71 & -> & ? & Hr71); [lia|].
  destruct (split_length r71 2 (2 + nt + ns + 2 + nc)) as (b135 & r135 & -> & ? & Hr135); [lia|].
  destruct (split_length r135 2 (nt + ns + 2 + nc)) as (b137 & r137 & -> & ? & Hr137); [lia|].
  destruct (split_length r137 nt (ns + 2 + nc)) as (bt & rt & -> & ? & Hrt); [lia|].
  destruct (split_length rt ns (2 + nc)) as (bs & rs & -> & ? & Hrs); [lia|].
  destruct (split_length rs 2 nc) as (bc & bd & -> & ? & ?); [lia|].
  exists b0, b1, b3, b7, b39, b71, b135, b137, bt, bs, bc, bd. done.
Qed.

Lemma Marshal_encode evt buf :
  sized_event evt → length buf = Measure evt →
  Marshal evt buf = if fits evt then Ok (encode evt) else Err ErrTooLarge.
Proof.
  intros He Hbuf. pose proof (encode_head_length _ He) as Hh. destruct He as [Hi Hp Hs].
  destruct (buffer_fields _ _ Hbuf) as (b0 & b1 & b3 & b7 & b39 & b71 & b135 & b137 & bt & bs & bc & bd & -> & Hl).
  destruct_and! Hl. unfold Marshal, fits.
  rewrite (put_at [] b0 (b1 ++ b3 ++ b7 ++ b39 ++ b71 ++ b135 ++ b137 ++ bt ++ bs ++ bc ++ bd)) by solve_at. step.
  destruct (ev_Kind evt <=? _); [|done]. step.
  rewrite (put_at [0] b1 (b3 ++ b7 ++ b39 ++ b71 ++ b135 ++ b137 ++ bt ++ bs ++ bc ++ bd)) by solve_at. step.
  destruct (ev_CreatedAt evt <=? _); [|done]. step.
  set (k := le16 (ev_Kind evt)). assert (length k = 2%nat) by done.
  rewrite (put_at ([0] ++ k) b3 (b7 ++ b39 ++ b71 ++ b135 ++ b137 ++ bt ++ bs ++ bc ++ bd)) by solve_at. step.
  set (c := le32 (ev_CreatedAt evt)). assert (length c = 4%nat) by done.
  rewrite (put_at ([0] ++ k ++ c) b7 (b39 ++ b71 ++ b135 ++ b137 ++ bt ++ bs ++ bc ++ bd)) by solve_at. step.
  set (i := bytes_of_string (ev_ID evt)). assert (length i = 32%nat) by (unfold i; by rewrite bytes_of_string_length).
  rewrite (put_at ([0] ++ k ++ c ++ i) b39 (b71 ++ b135 ++ b137 ++ bt ++ bs ++ bc ++ bd)) by solve_at. step.
  set (p := bytes_of_string (ev_PubKey evt)). assert (length p = 32%nat) by (unfold p; by rewrite bytes_of_string_length).
  rewrite (put_at ([0] ++ k ++ c ++ i ++ p) b71 (b135 ++ b137 ++ bt ++ bs ++ bc ++ bd)) by solve_at. step.
  set (s := bytes_of_string (ev_Sig evt)). replace (([0] ++ k ++ c ++ i ++ p) ++ s ++ b135 ++ b137 ++ bt ++ bs ++ bc ++ bd)
    with (encode_head evt ++ b135 ++ b137 ++ bt ++ bs ++ bc ++ bd) by (unfold encode_head; solve_at).
  clearbody k c i p s. unfold encode. set (h := encode_head evt) in *. unfold tagBase in Hh.
  destruct (Z.of_nat (length (ev_Tags evt)) <=? _); [|done]. step.
  rewrite (put_at (h ++ b135) b137 (bt ++ bs ++ bc ++ bd)) by solve_at. step.
  set (n := le16 (Z.of_nat (length (ev_Tags evt)))). assert (length n = 2%nat) by done.
  replace ((h ++ b135) ++ n ++ bt ++ bs ++ bc ++ bd) with ((h ++ b135 ++ n) ++ bt ++ [] ++ bs ++ (bc ++ bd)) by solve_at.
  rewrite marshal_tags_spec by (unfold tagBase; solve_at). destruct (forallb _ _); [|done]. step.
  fold (table_size evt). fold (section_size evt). cbn [app].
  set (o := encode_offsets _ _). set (g := mbind encode_tag _).
  rewrite (put_at h b135 (n ++ o ++ g ++ bc ++ bd)) by solve_at. step.
  destruct (Z.of_nat (String.length (ev_Content evt)) <=? _); [|done]. step.
  set (l := le16 (Z.of_nat (section_size evt))). assert (length l = 2%nat) by done.
  assert (length (h ++ l ++ n ++ o ++ g) = (tagBase + section_size evt)%nat).
  { unfold o, g, section_size, table_size, tagBase. rewrite !length_app, encode_offsets_length, encode_tags_length. lia. }
  replace (h ++ l ++ n ++ o ++ g ++ bc ++ bd) with ((h ++ l ++ n ++ o ++ g) ++ bc ++ bd) by solve_at.
  set (q := h ++ l ++ n ++ o ++ g) in *. rewrite (put_at q bc bd) by solve_at. step.
  set (e := le16 (Z.of_nat (String.length (ev_Content evt)))). assert (length e = 2%nat) by done.
  rewrite (copy_at (q ++ e) bd []) by (first [by rewrite app_nil_r, <- app_assoc | solve_at]).
  unfold encode_content, q. fold e. by rewrite app_nil_r, <- !app_assoc.
Qed.

(** ** Reading back *)

Lemma le16_value z : z mod 256 + 256 * (z / 256 mod 256) = z mod 65536.
Proof. change 65536 with (256 * 256). rewrite Z.rem_mul_r by lia. done. Qed.

Lemma le32_value z :
  z mod 256 + 256 * (z / 256 mod 256) + 65536 * (z / 65536 mod 256) + 16777216 * (z / 16777216 mod 256) = z mod 4294967296.
Proof.
  rewrite le16_value. change 4294967296 with (65536 * 65536). rewrite Z.rem_mul_r by lia.
  rewrite <- (le16_value (z / 65536)), Z.div_div by lia. change (65536 * 256) with 16777216. lia.
Qed.

Lemma u16_at_app a z b data off : data = a ++ le16 z ++ b → off = length a → u16_at data off = Ok (z mod 65536).
Proof. intros -> ->. unfold u16_at. rewrite drop_app_length. simpl. f_equal. apply le16_value. Qed.

Lemma u32_at_app a z b data off : data = a ++ le32 z ++ b → off = length a → u32_at data off = Ok (z mod 4294967296).
Proof. intros -> ->. unfold u32_at. rewrite drop_app_length. simpl. f_equal. apply le32_value. Qed.

Lemma slice_app a x b data from to :
  data = a ++ x ++ b → from = length a → to = (length a + length x)%nat → slice data from to = Ok x.
Proof.
  intros -> -> ->. unfold slice. rewrite !length_app, !(proj2 (Nat.leb_le _ _)) by lia. simpl.
  rewrite drop_app_length. f_equal. replace (_ - _)%nat with (length x) by lia. apply take_app_length.
Qed.

Lemma byte_at_app a z b data off : data = a ++ z :: b → off = length a → byte_at data off = Ok z.
Proof. intros -> ->. unfold byte_at. by rewrite list_lookup_middle. Qed.

Lemma to_nat_small n : Z.of_nat n ≤ 65535 → Z.to_nat (Z.of_nat n mod 65536) = n.
Proof. intros H. rewrite Z.mod_small by lia. lia. Qed.

Lemma unmarshal_items_spec items : ∀ a b curr,
  forallb (λ item, Z.of_nat (String.length item) <=? MaxTagItemSize) items = true → curr = length a →
  unmarshal_items (a ++ encode_items items ++ b) (length items) curr = Ok items.
Proof.
  induction items as [|item items IH]; intros a b curr Hf ->; [done|].
  simpl in Hf. apply andb_prop in Hf as [Hi Hf]. unfold MaxTagItemSize in Hi. apply Z.leb_le in Hi.
  change (encode_items (item :: items)) with (encode_item item ++ encode_items items). unfold encode_item.
  rewrite <- !app_assoc. set (l := le16 _). set (x := bytes_of_string item). cbn [length]. step.
  rewrite (u16_at_app a _ (x ++ encode_items items ++ b)) by done. step. rewrite to_nat_small by done.
  assert (Hx : length x = String.length item) by apply bytes_of_string_length.
  assert (Hl : length l = 2%nat) by done.
  rewrite (slice_app (a ++ l) x (encode_items items ++ b)) by solve_at. step.
  replace (a ++ l ++ x ++ encode_items items ++ b) with ((a ++ l ++ x) ++ encode_items items ++ b) by solve_at.
  rewrite IH by (first [done | solve_at]). step. unfold x. by rewrite string_of_bytes_of_string.
Qed.

(** *** Wrapped offsets *)

(** The condition under which the wraps counted from the 16-bit offsets are
    the real ones: each tag starts less than 64 KiB after the previous one,
    and the section ends in the block of 64 KiB its last tag starts in. *)
Fixpoint tracked_from (prev off : nat) (tags : list (list string)) : bool :=
  match tags with
  | [] => Nat.eqb (prev / wrap) (off / wrap)
  | tag :: tags' => Nat.ltb (off - prev) wrap && tracked_from off (off + tag_size tag) tags'
  end.

Definition tracked (evt : Event) : bool := tracked_from 0 (table_size evt) (ev_Tags evt).

Lemma to_nat_wrap off : Z.to_nat (Z.of_nat off mod 65536) = (off mod wrap)%nat.
Proof. rewrite <- wrap_Z, <- Nat2Z.inj_mod. lia. Qed.

Lemma wrap_step prev off :
  (prev ≤ off)%nat → (off - prev < wrap)%nat →
  (if Nat.ltb (off mod wrap) (prev mod wrap) then S (prev / wrap) else prev / wrap)%nat = (off / wrap)%nat.
Proof.
  intros H1 H2. pose proof wrap_Z.
  assert (Hd : ∀ n, ∃ q r, (n / wrap = q ∧ n mod wrap = r)%nat ∧ Z.of_nat n = 65536 * Z.of_nat q + Z.of_nat r ∧ Z.of_nat r < 65536).
  { intros n. exists (n / wrap)%nat, (n mod wrap)%nat. rewrite Nat2Z.inj_div, Nat2Z.inj_mod, wrap_Z.
    split; [split; reflexivity|]. split; [apply Z.div_mod; lia | apply Z.mod_pos_bound; lia]. }
  destruct (Hd prev) as (q & r & [-> ->] & ? & ?), (Hd off) as (q' & r' & [-> ->] & ? & ?).
  destruct (Nat.ltb_spec r' r); lia.
Qed.

Lemma wrap_value off : (off mod wrap + wrap * (off / wrap))%nat = off.
Proof. pose proof (Nat.div_mod_eq off wrap). lia. Qed.

Lemma unmarshal_tags_spec tags : ∀ t prev off a m b data,
  data = a ++ encode_offsets off tags ++ m ++ mbind encode_tag tags ++ b →
  length a = (tagBase + 4 + t * 2)%nat → length (a ++ encode_offsets off tags ++ m) = (tagBase + off)%nat → (prev ≤ off)%nat →
  forallb tag_fits tags = true → tracked_from prev off tags = true →
  unmarshal_tags data (length tags) t (prev mod wrap) (prev / wrap)
    = Ok (tags, (off + sum_list_with tag_size tags) / wrap)%nat.
Proof.
  induction tags as [|tag tags IH]; intros t prev off a m b data Hd Ha Hm Hp Hf Ht.
  { simpl in Ht |- *. apply Nat.eqb_eq in Ht. by rewrite Nat.add_0_r, Ht. }
  cbn [tracked_from forallb] in Ht, Hf. apply andb_prop in Ht as [Ho Ht], Hf as [Hfit Hf]. apply Nat.ltb_lt in Ho.
  unfold tag_fits in Hfit. apply andb_prop in Hfit as [_ Hfit]. rewrite bind_cons in Hd. cbn [encode_offsets length] in *.
  change (encode_tag tag) with ([Z.of_nat (length tag)] ++ encode_items tag) in Hd.
  set (o := le16 (Z.of_nat off)) in *. assert (length o = 2%nat) by done.
  set (c := [Z.of_nat (length tag)]) in *. assert (length c = 1%nat) by done.
  set (os := encode_offsets _ _) in *. set (g := mbind encode_tag tags) in *. set (x := encode_items tag) in *.
  assert (Hx : length x = measure_tag tag) by apply encode_items_length. assert (tag_size tag = S (measure_tag tag)) by done.
  rewrite !length_app in Hm. rewrite <- !app_assoc in Hd. step.
  rewrite (u16_at_app a (Z.of_nat off) (os ++ m ++ c ++ x ++ g ++ b)) by solve_at. step.
  rewrite to_nat_wrap, wrap_step, wrap_value by done.
  rewrite (byte_at_app (a ++ o ++ os ++ m) (Z.of_nat (length tag)) (x ++ g ++ b)) by (rewrite ?Hd; solve_at).
  step. rewrite Nat2Z.id.
  rewrite Hd at 1. replace (a ++ o ++ os ++ m ++ c ++ x ++ g ++ b) with ((a ++ o ++ os ++ m ++ c) ++ x ++ (g ++ b)) by solve_at.
  rewrite (unmarshal_items_spec tag (a ++ o ++ os ++ m ++ c)) by (first [done | solve_at]). step.
  rewrite (IH (S t) off (off + tag_size tag)%nat (a ++ o) (m ++ c ++ x) b)
    by (first [done | rewrite ?Hd; fold os g; solve_at]).
  step. cbn [sum_list_with]. by rewrite Nat.add_assoc.
Qed.

(** ** The round trip *)

Record storable (evt : Event) : Prop := {
  storable_sized : sized_event evt;
  storable_kind : 0 ≤ ev_Kind evt;
  storable_createdAt : 0 ≤ ev_CreatedAt evt;
  storable_fits : fits evt = true;
  storable_tracked : tracked evt = true;
}.

Lemma head_reads evt rest :
  sized_event evt → 0 ≤ ev_Kind evt ≤ MaxKind → 0 ≤ ev_CreatedAt evt ≤ MaxCreatedAt →
  let data := encode_head evt ++ rest in
  u16_at data 1 = Ok (ev_Kind evt) ∧ u32_at data 3 = Ok (ev_CreatedAt evt)
  ∧ slice data 7 39 = Ok (bytes_of_string (ev_ID evt)) ∧ slice data 39 71 = Ok (bytes_of_string (ev_PubKey evt))
  ∧ slice data 71 135 = Ok (bytes_of_string (ev_Sig evt)).
Proof.
  unfold MaxKind, MaxCreatedAt. intros [Hi Hp Hs] Hk Hc. rewrite <- bytes_of_string_length in Hi, Hp, Hs.
  unfold encode_head. set (k := le16 _). set (c := le32 _). set (i := bytes_of_string (ev_ID evt)) in *.
  set (p := bytes_of_string (ev_PubKey evt)) in *. set (s := bytes_of_string (ev_Sig evt)) in *.
  assert (length k = 2%nat) by done. assert (length c = 4%nat) by done. cbv zeta. split_and!.
  - rewrite (u16_at_app [0] (ev_Kind evt) (c ++ i ++ p ++ s ++ rest)), Z.mod_small by solve_at. done.
  - rewrite (u32_at_app ([0] ++ k) (ev_CreatedAt evt) (i ++ p ++ s ++ rest)), Z.mod_small by solve_at. done.
  - apply (slice_app ([0] ++ k ++ c) i (p ++ s ++ rest)); solve_at.
  - apply (slice_app ([0] ++ k ++ c ++ i) p (s ++ rest)); solve_at.
  - apply (slice_app ([0] ++ k ++ c ++ i ++ p) s rest); solve_at.
Qed.

Lemma Unmarshal_encode evt : storable evt → Unmarshal (encode evt) = Ok evt.
Proof.
  intros [Hz Hk Hc Hf Ht]. pose proof (encode_head_length _ Hz) as Hh.
  unfold fits in Hf. rewrite !andb_true_iff, !Z.leb_le in Hf. unfold MaxKind, MaxCreatedAt, MaxTagCount, MaxContentSize in Hf.
  destruct Hf as [[[[Hk' Hc'] Hn] Hf] Hl]. unfold Unmarshal, encode.
  set (l := le16 (Z.of_nat (section_size evt))). assert (length l = 2%nat) by done.
  set (n := le16 (Z.of_nat (length (ev_Tags evt)))). assert (length n = 2%nat) by done.
  set (o := encode_offsets _ _). assert (Ho : length o = (length (ev_Tags evt) * 2)%nat) by apply encode_offsets_length.
  set (g := mbind encode_tag _). assert (Hg : length g = sum_list_with tag_size (ev_Tags evt)) by apply encode_tags_length.
  set (e := le16 (Z.of_nat (String.length (ev_Content evt)))). assert (length e = 2%nat) by done.
  set (x := bytes_of_string (ev_Content evt)). assert (length x = String.length (ev_Content evt)) by apply bytes_of_string_length.
  change (encode_content (ev_Content evt)) with (e ++ x).
  destruct (head_reads evt (l ++ n ++ o ++ g ++ e ++ x) Hz ltac:(done) ltac:(done)) as (-> & -> & -> & -> & ->).
  step. set (h := encode_head evt) in *. unfold tagBase in Hh.
  rewrite (u16_at_app h (Z.of_nat (section_size evt)) (n ++ o ++ g ++ e ++ x)) by solve_at. step.
  rewrite (u16_at_app (h ++ l) (Z.of_nat (length (ev_Tags evt))) (o ++ g ++ e ++ x)) by (unfold tagBase; solve_at). step.
  rewrite to_nat_small, to_nat_wrap by lia. assert (table_size evt = 2 + 2 + length (ev_Tags evt) * 2)%nat by done.
  replace (unmarshal_tags _ _ 0 0 0) with (Ok (E := CodecError) (ev_Tags evt, section_size evt / wrap)%nat).
  2: { symmetry. change 0%nat with (0 / wrap)%nat at 3. change 0%nat with (0 mod wrap)%nat at 2.
       apply (unmarshal_tags_spec _ 0 0 (table_size evt) (h ++ l ++ n) [] (e ++ x)); try done; fold o g; unfold tagBase; solve_at. }
  step. rewrite wrap_value. set (q := h ++ l ++ n ++ o ++ g).
  assert (Hq : length q = (tagBase + section_size evt)%nat).
  { unfold q, section_size, table_size, tagBase. rewrite !length_app. lia. }
  replace (h ++ l ++ n ++ o ++ g ++ e ++ x) with (q ++ e ++ x) by (unfold q; solve_at).
  rewrite (u16_at_app q (Z.of_nat (String.length (ev_Content evt))) x) by solve_at. step.
  rewrite to_nat_small by done. rewrite (slice_app (q ++ e) x []) by (first [by rewrite app_nil_r, <- app_assoc | solve_at]). step.
  unfold x. rewrite !string_of_bytes_of_string. by destruct evt.
Qed.

Lemma encode_reads evt : storable evt →
  GetKind (encode evt) = Ok (ev_Kind evt) ∧ GetCreatedAt (encode evt) = Ok (ev_CreatedAt evt)
  ∧ GetID (encode evt) = Ok (ev_ID evt) ∧ GetPubKey (encode evt) = Ok (ev_PubKey evt).
Proof.
  intros [He Hk Hc Hf _]. unfold fits in Hf. rewrite !andb_true_iff, !Z.leb_le in Hf.
  unfold encode, GetKind, GetCreatedAt, GetID, GetPubKey.
  destruct (head_reads evt (le16 (Z.of_nat (section_size evt)) ++ le16 (Z.of_nat (length (ev_Tags evt)))
    ++ encode_offsets (table_size evt) (ev_Tags evt) ++ mbind encode_tag (ev_Tags evt) ++ encode_content (ev_Content evt)) He)
    as (-> & -> & -> & -> & _); [naive_solver..|].
  cbn [result_bind]. by rewrite !string_of_bytes_of_string.
Qed.

(** A tag section below 64 KiB is always tracked. *)
Lemma small_tracked_from tags : ∀ prev off,
  (prev ≤ off)%nat → (off + sum_list_with tag_size tags < wrap)%nat → tracked_from prev off tags = true.
Proof.
  induction tags as [|tag tags IH]; intros prev off Hp Ho; cbn [sum_list_with tracked_from] in *.
  - by rewrite !Nat.div_small by lia.
  - apply andb_true_iff. split; [apply Nat.ltb_lt; lia | apply IH; lia].
Qed.

Lemma small_tracked evt : (section_size evt < wrap)%nat → tracked evt = true.
Proof. unfold section_size. intros H. apply small_tracked_from; lia. Qed.

(** A test for events with a small tag section. *)
Definition storableb (evt : Event) : bool :=
  Nat.eqb (String.length (ev_ID evt)) 32 && Nat.eqb (String.length (ev_PubKey evt)) 32 && Nat.eqb (String.length (ev_Sig evt)) 64
  && (0 <=? ev_Kind evt) && (0 <=? ev_CreatedAt evt) && fits evt && (Z.of_nat (section_size evt) <? 65536).

Lemma storableb_spec evt : storableb evt = true → storable evt.
Proof.
  unfold storableb. rewrite !andb_true_iff, !Nat.eqb_eq, !Z.leb_le, Z.ltb_lt. intros [[[[[[Hi Hp] Hs] Hk] Hc] Hf] Ht].
  split; [by split|done..|]. apply small_tracked. apply Nat2Z.inj_lt. by rewrite wrap_Z.
Qed.
