(* ===== verification/BetterBinaryProps.v ===== *)
(** * What the event stores may rely on in the codec

    [Marshal] stays inside the buffer [Measure] sized and writes the reference
    encoding over it; events read back as they were written as long as the
    wraps of the 16-bit tag offsets can be seen in the table.  An event can
    pass every check of [Marshal] and not be one of those. *)

From Stdlib Require Import ZArith Lia Bool Ascii.
From stdpp Require Import base tactics decidable option list numbers strings.
From S2P Require Import Prelude Bytes Nostr BetterBinary BetterBinaryFacts.

(** C36: run on any buffer of the size [Measure] computes, whatever it holds,
    [Marshal] never writes outside it: it returns the reference encoding of
    the event, which fills the buffer exactly, when the event is within the
    limits, and refuses the event as too large otherwise. *)
Theorem marshal_exact evt buf :
  sized_event evt → length buf = Measure evt →
  Marshal evt buf = (if fits evt then Ok (encode evt) else Err ErrTooLarge) ∧ length (encode evt) = Measure evt.
Proof. intros He Hb. split; [by apply Marshal_encode | by apply encode_length]. Qed.

(** C37: an event that [Marshal] accepts, whose creation time is not negative
    and whose tag offsets are tracked, is read back by [Unmarshal] unchanged,
    and the accessors that read fields in place agree with it. *)
Theorem codec_roundtrip evt buf :
  storable evt → length buf = Measure evt →
  ∃ data, Marshal evt buf = Ok data ∧ Unmarshal data = Ok evt ∧ GetKind data = Ok (ev_Kind evt)
    ∧ GetCreatedAt data = Ok (ev_CreatedAt evt) ∧ GetID data = Ok (ev_ID evt) ∧ GetPubKey data = Ok (ev_PubKey evt).
Proof.
  intros Hs Hb. exists (encode evt). split; [by rewrite Marshal_encode, storable_fits by (done || apply Hs)|].
  split; [by apply Unmarshal_encode|by apply encode_reads].
Qed.

(** [Marshal] only bounds the creation time from above, and stores its
    low 32 bits: an event dated before 1970 is accepted and never read back
    as it was. *)
Theorem negative_time_lost evt buf :
  sized_event evt → length buf = Measure evt → fits evt = true → ev_CreatedAt evt < 0 →
  ∃ data, Marshal evt buf = Ok data ∧ Unmarshal data ≠ Ok evt.
Proof.
  intros He Hb Hf Hn. exists (encode evt). rewrite Marshal_encode, Hf by done. split; [done|].
  unfold Unmarshal. intros H. destruct (u16_at _ 1) as [kind|]; [|done]. cbn [result_bind] in H.
  assert (Hc : ∃ c, u32_at (encode evt) 3 = Ok c ∧ 0 ≤ c).
  { exists (ev_CreatedAt evt mod 4294967296). split; [|by apply Z.mod_pos_bound].
    eapply (u32_at_app ([0] ++ le16 (ev_Kind evt))); [|done]. unfold encode, encode_head. by rewrite <- !app_assoc. }
  destruct Hc as (c & Hc & Hc0). rewrite Hc in H. cbn [result_bind] in H.
  repeat (inv_ok; try case_match; try done). simplify_eq. simpl in Hn. lia.
Qed.

Module CodecSample.

Definition run (n : Z) : string := string_of_bytes (replicate (Z.to_nat n) 97).

Definition sample (createdAt : Z) (tags : list (list string)) (content : string) : Event :=
  mkEvent (run 32) (run 32) createdAt 30078 tags content (run 64).

Definition note : Event := sample 1700000000 [["d"; "bahia"]; ["p"; "key"]] "hello".

Lemma marshal_exact_witness :
  Marshal note (replicate (Measure note) 255) = Ok (encode note).
Proof.
  refine (proj1 (marshal_exact note (replicate (Measure note) 255) _ _)); [split; reflexivity | reflexivity].
Defined.

Lemma codec_roundtrip_witness : ∃ data, Unmarshal data = Ok note ∧ GetKind data = Ok 30078.
Proof.
  destruct (codec_roundtrip note (replicate (Measure note) 0)) as (data & _ & Hu & Hk & _).
  - split; [split; reflexivity | done | done | reflexivity |]. apply small_tracked. apply Nat2Z.inj_lt.
    rewrite wrap_Z. reflexivity.
  - reflexivity.
  - exists data. exact (conj Hu Hk).
Defined.

Lemma negative_time_lost_witness : ∃ data, Unmarshal data ≠ Ok (sample (-1) [] "").
Proof.
  destruct (negative_time_lost (sample (-1) [] "") (replicate (Measure (sample (-1) [] "")) 0)) as (data & _ & Hu).
  - split; reflexivity.
  - reflexivity.
  - reflexivity.
  - reflexivity.
  - exists data. exact Hu.
Defined.

(** A tag of two items of 40,000 bytes, each within the limit of 65,535. *)
Definition long_tag : Event := sample 1700000000 [[run 40000; run 40000]] "hello".

(** The last tag of an event may end in a later block of 64 KiB than it
    starts in, which no offset of the table shows: such an event is accepted,
    and reads back without an error but with other bytes as its content. *)
Theorem long_tag_misread :
  Marshal long_tag (replicate (Measure long_tag) 0) = Ok (encode long_tag)
  ∧ Unmarshal (encode long_tag) = Ok (sample 1700000000 [[run 40000; run 40000]] (run 24929)).
Proof.
  split.
  - rewrite Marshal_encode; [|split; reflexivity | apply length_replicate]. vm_compute (fits long_tag). reflexivity.
  - assert (H : match Unmarshal (encode long_tag) with
                | Ok e => bool_decide (e = sample 1700000000 [[run 40000; run 40000]] (run 24929))
                | Err _ => false
                end = true) by (vm_compute; reflexivity).
    destruct (Unmarshal (encode long_tag)) as [e|]; [|done]. by apply bool_decide_eq_true in H as ->.
Qed.

End CodecSample.
