(* ===== verification/Md5.v ===== *)
(** * MD5

    [crypto/md5], which the event store hashes tag values with: the padded
    message in blocks of sixteen little-endian words, four rounds of sixteen
    steps on a state of four words. *)

From Stdlib Require Import ZArith Lia Bool Ascii.
From stdpp Require Import base tactics decidable option list numbers strings.
From S2P Require Import Prelude Bytes.

Definition word (z : Z) : Z := z mod 4294967296.
Definition not32 (z : Z) : Z := 4294967295 - z.
Definition rotl32 (x n : Z) : Z := word (Z.lor (Z.shiftl x n) (Z.shiftr x (32 - n))).

Definition md5_shifts : list Z :=
  [7; 12; 17; 22; 7; 12; 17; 22; 7; 12; 17; 22; 7; 12; 17; 22;
   5; 9; 14; 20; 5; 9; 14; 20; 5; 9; 14; 20; 5; 9; 14; 20;
   4; 11; 16; 23; 4; 11; 16; 23; 4; 11; 16; 23; 4; 11; 16; 23;
   6; 10; 15; 21; 6; 10; 15; 21; 6; 10; 15; 21; 6; 10; 15; 21].

(** The integer parts of [2^32 * |sin (i + 1)|]. *)
Definition md5_table : list Z :=
  [3614090360; 3905402710; 606105819; 3250441966; 4118548399; 1200080426; 2821735955; 4249261313;
   1770035416; 2336552879; 4294925233; 2304563134; 1804603682; 4254626195; 2792965006; 1236535329;
   4129170786; 3225465664; 643717713; 3921069994; 3593408605; 38016083; 3634488961; 3889429448;
   568446438; 3275163606; 4107603335; 1163531501; 2850285829; 4243563512; 1735328473; 2368359562;
   4294588738; 2272392833; 1839030562; 4259657740; 2763975236; 1272893353; 4139469664; 3200236656;
   681279174; 3936430074; 3572445317; 76029189; 3654602809; 3873151461; 530742520; 3299628645;
   4096336452; 1126891415; 2878612391; 4237533241; 1700485571; 2399980690; 4293915773; 2240044497;
   1873313359; 4264355552; 2734768916; 1309151649; 4149444226; 3174756917; 718787259; 3951481745].

Record md5_state := mkMd5 {
  md5_a : Z;
  md5_b : Z;
  md5_c : Z;
  md5_d : Z;
}.

(** Step [i] of a block [m] of sixteen words. *)
Definition md5_step (m : list Z) (s : md5_state) (i : nat) : md5_state :=
  let '(mkMd5 a b c d) := s in
  let n := Z.of_nat i in
  let '(f, g) :=
    if n <? 16 then (Z.lor (Z.land b c) (Z.land (not32 b) d), n)
    else if n <? 32 then (Z.lor (Z.land d b) (Z.land (not32 d) c), (5 * n + 1) mod 16)
    else if n <? 48 then (Z.lxor (Z.lxor b c) d, (3 * n + 5) mod 16)
    else (Z.lxor c (Z.lor b (not32 d)), (7 * n) mod 16) in
  let f := word (f + a + nth i md5_table 0 + nth (Z.to_nat g) m 0) in
  mkMd5 d (word (b + rotl32 f (nth i md5_shifts 0))) b c.

Definition md5_block (s : md5_state) (m : list Z) : md5_state :=
  let s' := foldl (md5_step m) s (seq 0 64) in
  mkMd5 (word (md5_a s + md5_a s')) (word (md5_b s + md5_b s')) (word (md5_c s + md5_c s')) (word (md5_d s + md5_d s')).

Fixpoint le_words (bytes : list Z) : list Z :=
  match bytes with
  | a :: b :: c :: d :: bytes' => (a + 256 * b + 65536 * c + 16777216 * d) :: le_words bytes'
  | _ => []
  end.

Definition le_bytes_of (n : nat) (z : Z) : list Z := (λ i, Z.shiftr z (8 * Z.of_nat i) mod 256) <$> seq 0 n.

(** One bit, zeros up to 56 bytes past a block, the length in bits. *)
Definition md5_padded (s : string) : list Z :=
  let n := Z.of_nat (String.length s) in
  bytes_of_string s ++ [128] ++ replicate (Z.to_nat ((55 - n) mod 64)) 0 ++ le_bytes_of 8 (8 * n).

(** The blocks of a list of words, [n] of them. *)
Fixpoint md5_blocks (n : nat) (words : list Z) : list (list Z) :=
  match n with
  | O => []
  | S n' => take 16 words :: md5_blocks n' (drop 16 words)
  end.

(** [md5.Sum]. *)
Definition md5 (s : string) : string :=
  let words := le_words (md5_padded s) in
  let '(mkMd5 a b c d) := foldl md5_block (mkMd5 1732584193 4023233417 2562383102 271733878) (md5_blocks (length words / 16) words) in
  string_of_bytes (le_bytes_of 4 a ++ le_bytes_of 4 b ++ le_bytes_of 4 c ++ le_bytes_of 4 d).

Lemma string_of_bytes_length l : String.length (string_of_bytes l) = length l.
Proof. induction l as [|x l IH]; simpl; congruence. Qed.

Lemma md5_length s : String.length (md5 s) = 16%nat.
Proof. unfold md5. destruct (foldl _ _ _) as [a b c d]. by rewrite string_of_bytes_length. Qed.

(** Test vectors of RFC 1321. *)
Example md5_vectors :
  hex (md5 "") = "d41d8cd98f00b204e9800998ecf8427e" ∧ hex (md5 "abc") = "900150983cd24fb0d6963f7d28e17f72"
  ∧ hex (md5 "12345678901234567890123456789012345678901234567890123456789012345678901234567890") = "57edf4a22be3c955ac49da2e2107b67a".
Proof. by vm_compute. Qed.
