(* ===== verification/EventStore.v ===== *)
(** * The bolt event store: writes

    [src/third_party/nostr/eventstore/boltdb/] (save.go, delete.go, the index
    keys of helpers.go, and the read by ids of query.go).  The raw bucket maps
    bytes 16 to 24 of an id to the encoded event.  The seven index buckets
    hold keys without values; they are kept together as one set of pairs of a
    bucket and a key.  The backend's hyperloglog cache is off, as in every
    caller outside the library. *)

From Stdlib Require Import ZArith Lia Bool Ascii.
From stdpp Require Import base tactics decidable option list numbers strings gmap sorting.
From S2P Require Import Prelude Bytes Nostr EventID Bolt BoltCoord BetterBinary Md5.

(** The hex decoder the index keys use: [xhex.Decode] of a source into a slice
    of half its length. *)
Class StorePrims := {
  xhex_Decode : string → option string;
}.

Class StorePrimsLaws `{StorePrims} := {
  xhex_length s b : xhex_Decode s = Some b → (2 * String.length b)%nat = String.length s;
}.

(** ** State *)

Inductive Bucket :=
| indexCreatedAt
| indexKind
| indexPubkey
| indexPubkeyKind
| indexTag
| indexTag32
| indexTagAddr.

#[export] Instance Bucket_eq_dec : EqDecision Bucket.
Proof. solve_decision. Defined.

Definition bucket_number (b : Bucket) : nat :=
  match b with
  | indexCreatedAt => 0
  | indexKind => 1
  | indexPubkey => 2
  | indexPubkeyKind => 3
  | indexTag => 4
  | indexTag32 => 5
  | indexTagAddr => 6
  end.

#[export] Instance Bucket_countable : Countable Bucket.
Proof.
  refine (inj_countable' bucket_number
    (λ n, nth n [indexCreatedAt; indexKind; indexPubkey; indexPubkeyKind; indexTag; indexTag32; indexTagAddr] indexTag) _).
  by intros [].
Defined.

Record EventDB := mkEventDB {
  rawEventStore : gmap string (list Z);
  indexes : gset (Bucket * string);
}.

Definition empty_db : EventDB := mkEventDB ∅ ∅.

Inductive StoreError :=
| ErrDupEvent
| ErrCodec (e : CodecError)
| ErrPanicked.

(** [id[16:24]]. *)
Definition idPtr (id : string) : string := take_bytes 8 (drop_bytes 16 id).

Definition zeros (n : nat) : string := string_of_bytes (replicate n 0).

(** [binary.BigEndian.PutUint16]. *)
Definition be16 (z : Z) : string := be 2 z.

(** [strings.Split(s, sep)] for a one-byte separator. *)
Fixpoint split_byte (c : ascii) (s : string) : list string :=
  match s with
  | EmptyString => [EmptyString]
  | String d s' =>
      if ascii_dec c d then EmptyString :: split_byte c s'
      else match split_byte c s' with
      | piece :: pieces => String d piece :: pieces
      | [] => [String d EmptyString]
      end
  end.

(** [copy(k[from:from+n], s)] on zero bytes. *)
Definition copy_fixed (n : nat) (s : string) : string :=
  take_bytes n s +:+ zeros (n - String.length s).

Section store.
Context `{StorePrims}.

(** ** Index keys *)

(** The key of the special format for addresses, if [tagValue] has it. *)
Definition addr_key (letterPrefix tagValue : string) : option string :=
  match split_byte colon tagValue with
  | [kind; pubkey; d] =>
      if negb (Nat.eqb (String.length pubkey) 64) then None
      else match xhex_Decode (take_bytes 16 pubkey), ParseUint 16 kind with
      | Some decoded, Some kind => Some (letterPrefix +:+ be16 kind +:+ decoded +:+ copy_fixed 30 d +:+ zeros (4 + 8))
      | _, _ => None
      end
  | _ => None
  end.

(** The key of a 32-byte value in hex. *)
Definition tag32_key (letterPrefix tagValue : string) : option string :=
  if negb (Nat.eqb (String.length tagValue) 64) then None
  else match xhex_Decode (take_bytes 16 tagValue) with
  | Some decoded => Some (letterPrefix +:+ decoded +:+ zeros (4 + 8))
  | None => None
  end.

Definition getTagIndexPrefix (tagName tagValue : string) : Bucket * string :=
  let letterPrefix := take_bytes 1 tagName in
  match tag32_key letterPrefix tagValue with
  | Some k => (indexTag32, k)
  | None =>
      match addr_key letterPrefix tagValue with
      | Some k => (indexTagAddr, k)
      | None => (indexTag, letterPrefix +:+ md5 tagValue)
      end
  end.

(** [k[0 : len(k)-8-4]]. *)
Definition key_prefix (k : string) : string := take_bytes (String.length k - 8 - 4) k.

(** A tag the store indexes. *)
Definition indexable_tag (tag : list string) : bool :=
  match tag with
  | name :: value :: _ =>
      Nat.eqb (String.length name) 1 && negb (Nat.eqb (String.length value) 0) && Nat.leb (String.length value) 100
  | _ => false
  end.

(** Tags with the same name and value. *)
Definition same_tag (tag t : list string) : bool :=
  match tag, t with
  | name :: value :: _, n :: v :: _ => String.eqb n name && String.eqb v value
  | _, _ => false
  end.

(** The last 4+8 bytes of a key are the time and the id pointer. *)
Definition key_of_event (evt : Event) (prefix : string) : string :=
  prefix +:+ be32 (ev_CreatedAt evt) +:+ idPtr (ev_ID evt).

(** The loop over the tags; [seen] are those before. *)
Fixpoint tag_index_keys (evt : Event) (seen tags : list (list string)) : list (Bucket * string) :=
  match tags with
  | [] => []
  | tag :: tags' =>
      let rest := tag_index_keys evt (seen ++ [tag]) tags' in
      if negb (indexable_tag tag) then rest
      else if existsb (same_tag tag) seen then rest
      else match tag with
      | name :: value :: _ =>
          let '(bucket, k) := getTagIndexPrefix name value in
          (bucket, key_of_event evt (key_prefix k)) :: rest
      | _ => rest
      end
  end.

Definition getIndexKeysForEvent (evt : Event) : list (Bucket * string) :=
  [ (indexPubkey, key_of_event evt (take_bytes 8 (ev_PubKey evt)));
    (indexKind, key_of_event evt (be16 (ev_Kind evt)));
    (indexPubkeyKind, key_of_event evt (take_bytes 8 (ev_PubKey evt) +:+ be16 (ev_Kind evt))) ]
  ++ tag_index_keys evt [] (ev_Tags evt)
  ++ [ (indexCreatedAt, key_of_event evt EmptyString) ].

(** ** Writes *)

Definition lift_codec {A} (r : result CodecError A) : result StoreError A :=
  match r with Ok a => Ok a | Err e => Err (ErrCodec e) end.

Definition save (db : EventDB) (evt : Event) : result StoreError EventDB :=
  let! bin := lift_codec (Marshal evt (replicate (Measure evt) 0)) in
  Ok (mkEventDB (<[idPtr (ev_ID evt) := bin]> (rawEventStore db)) (indexes db ∪ list_to_set (getIndexKeysForEvent evt))).

Definition SaveEvent (db : EventDB) (evt : Event) : result StoreError EventDB :=
  match rawEventStore db !! idPtr (ev_ID evt) with
  | Some _ => Err ErrDupEvent
  | None => save db evt
  end.

Definition DeleteEvent (db : EventDB) (id : string) : result StoreError EventDB :=
  match rawEventStore db !! idPtr id with
  | None => Ok db
  | Some bin =>
      let! evt := lift_codec (Unmarshal bin) in
      Ok (mkEventDB (delete (idPtr id) (rawEventStore db)) (indexes db ∖ list_to_set (getIndexKeysForEvent evt)))
  end.

(** ** Reading by id *)

Fixpoint queryByIds (db : EventDB) (ids : list string) : list Event :=
  match ids with
  | [] => []
  | id :: ids' =>
      match rawEventStore db !! idPtr id with
      | Some bin =>
          match Unmarshal bin with
          | Ok event => event :: queryByIds db ids'
          | Err _ => queryByIds db ids'
          end
      | None => queryByIds db ids'
      end
  end.

End store.
