(* ===== verification/EventStoreFacts.v ===== *)
(** * The event store as a map of events

    [represents db m]: the file holds exactly the events of [m], encoded under
    their id pointers, and the index buckets exactly their keys.  Saving and
    deleting keep the two in step, so the indexes never lag behind. *)

From Stdlib Require Import ZArith Lia Bool Ascii.
From stdpp Require Import base tactics decidable option list numbers strings gmap sorting.
From S2P Require Import Prelude Bytes Nostr EventID Bolt BoltCoord BetterBinary BetterBinaryFacts Md5 EventStore.

Section facts.
Context `{StorePrims}.

Record represents (db : EventDB) (m : gmap string Event) : Prop := {
  rep_raw : rawEventStore db = encode <$> m;
  rep_event p e : m !! p = Some e → storable e ∧ idPtr (ev_ID e) = p;
  rep_index bk : bk ∈ indexes db ↔ ∃ p e, m !! p = Some e ∧ bk ∈ getIndexKeysForEvent e;
}.

(** ** Keys *)

Lemma tag_index_keys_shape evt b k tags : ∀ seen, (b, k) ∈ tag_index_keys evt seen tags → ∃ prefix, k = key_of_event evt prefix.
Proof.
  induction tags as [|tag tags IH]; intros seen; simpl; [by intros ?%elem_of_nil|].
  destruct (negb _); [apply IH|]. destruct (existsb _ _); [apply IH|].
  destruct tag as [|name [|value tag]]; [apply IH..|]. destruct (getTagIndexPrefix name value) as [bucket k'].
  intros [[= -> ->]|Hk]%elem_of_cons; eauto.
Qed.

Lemma index_key_shape evt b k : (b, k) ∈ getIndexKeysForEvent evt → ∃ prefix, k = key_of_event evt prefix.
Proof.
  unfold getIndexKeysForEvent. rewrite !elem_of_app. intros [Hk|[Hk|Hk]].
  - rewrite !elem_of_cons, elem_of_nil in Hk. destruct Hk as [[= _ ->]|[[= _ ->]|[[= _ ->]|[]]]]; eauto.
  - by eapply tag_index_keys_shape.
  - rewrite elem_of_cons, elem_of_nil in Hk. destruct Hk as [[= _ ->]|[]]; eauto.
Qed.

Lemma idPtr_length id : String.length id = 32%nat → String.length (idPtr id) = 8%nat.
Proof. intros Hid. unfold idPtr. rewrite length_take_bytes, length_drop_bytes. lia. Qed.

Lemma index_keys_disjoint e e' bk : storable e → storable e' →
  bk ∈ getIndexKeysForEvent e → bk ∈ getIndexKeysForEvent e' → idPtr (ev_ID e) = idPtr (ev_ID e').
Proof.
  intros [[Hi _ _] _ _ _ _] [[Hi' _ _] _ _ _ _]. destruct bk as [b k].
  intros (p & ->)%index_key_shape (p' & E)%index_key_shape. unfold key_of_event in E.
  rewrite !app_string_assoc in E. apply app_string_inj_r in E as [_ E]; [done|]. by rewrite !idPtr_length.
Qed.

#[local] Arguments getIndexKeysForEvent {_} evt : simpl never.

(** ** The operations *)

Lemma represents_empty : represents empty_db ∅.
Proof. split; [done|done|]. intros bk. simpl. set_solver. Qed.

Lemma save_fits db e : sized_event e →
  save db e = if fits e
    then Ok (mkEventDB (<[idPtr (ev_ID e) := encode e]> (rawEventStore db)) (indexes db ∪ list_to_set (getIndexKeysForEvent e)))
    else Err (ErrCodec ErrTooLarge).
Proof. intros He. unfold save. rewrite Marshal_encode; [|done|apply length_replicate]. by destruct (fits e). Qed.

Lemma represents_save db m e : represents db m → storable e → m !! idPtr (ev_ID e) = None →
  represents (mkEventDB (<[idPtr (ev_ID e) := encode e]> (rawEventStore db)) (indexes db ∪ list_to_set (getIndexKeysForEvent e)))
    (<[idPtr (ev_ID e) := e]> m).
Proof.
  intros [Hraw Hev Hix] He Hn. split; cbn [rawEventStore indexes].
  - by rewrite Hraw, fmap_insert.
  - intros p e' [[<- <-]|[_ Hp]]%lookup_insert_Some; auto.
  - intros bk. rewrite elem_of_union, elem_of_list_to_set, Hix. setoid_rewrite lookup_insert_Some. split.
    + intros [(p & e' & Hp & Hk)|Hk]; [|by exists (idPtr (ev_ID e)), e; auto]. exists p, e'. split; [right; split; [congruence|done]|done].
    + naive_solver.
Qed.

Lemma represents_remove db m e : represents db m → m !! idPtr (ev_ID e) = Some e →
  represents (mkEventDB (delete (idPtr (ev_ID e)) (rawEventStore db)) (indexes db ∖ list_to_set (getIndexKeysForEvent e)))
    (delete (idPtr (ev_ID e)) m).
Proof.
  intros [Hraw Hev Hix] Hp. split; cbn [rawEventStore indexes].
  - by rewrite Hraw, fmap_delete.
  - intros p e' [_ Hp']%lookup_delete_Some; auto.
  - intros bk. rewrite elem_of_difference, elem_of_list_to_set, Hix. setoid_rewrite lookup_delete_Some. split.
    + intros [(p & e' & Hp' & Hk) Hn]. exists p, e'. split; [split; [|done]|done]. intros <-. congruence.
    + intros (p & e' & [Hne Hp'] & Hk). split; [eauto|]. intros Hk'. apply Hne.
      destruct (Hev _ _ Hp) as [He _], (Hev _ _ Hp') as [He' <-]. by eapply index_keys_disjoint.
Qed.

Lemma represents_lookup db m p : represents db m → rawEventStore db !! p = encode <$> m !! p.
Proof. intros [-> _ _]. apply lookup_fmap. Qed.

Lemma represents_decode db m p e : represents db m → m !! p = Some e → Unmarshal (encode e) = Ok e.
Proof. intros Hr Hp. apply Unmarshal_encode. by apply (rep_event _ _ Hr p). Qed.

Lemma DeleteEvent_represents db m id : represents db m →
  ∃ db', DeleteEvent db id = Ok db' ∧ represents db' (delete (idPtr id) m).
Proof.
  intros Hr. unfold DeleteEvent. rewrite (represents_lookup db m) by done.
  destruct (m !! idPtr id) as [e|] eqn:Hp; simpl.
  - rewrite (represents_decode db m (idPtr id)) by done. simpl. eexists. split; [done|].
    destruct (rep_event _ _ Hr _ _ Hp) as [_ E]. rewrite <- E in *. by apply represents_remove.
  - exists db. split; [done|]. by rewrite delete_id.
Qed.

Lemma queryByIds_represents db m ids : represents db m → queryByIds db ids = omap (λ id, m !! idPtr id) ids.
Proof.
  intros Hr. induction ids as [|id ids IH]; [done|]. simpl. rewrite (represents_lookup db m) by done.
  destruct (m !! idPtr id) as [e|] eqn:Hp; simpl; [|done]. by rewrite (represents_decode db m (idPtr id)), IH.
Qed.

End facts.
