(* ===== verification/QuickSelect.v ===== *)
(** * Selecting the iterators to pull from

    [quickselect] and [threshold] of
    [src/third_party/nostr/eventstore/boltdb/helpers.go], on a slice of values
    with a key [last]: the slice is rearranged in place until the [k] largest
    keys are in front.  Small ranges are sorted by insertion, larger ones are
    partitioned around a median of three.  The slice is a list, and what a
    range of indices holds is the middle of an append. *)

From Stdlib Require Import ZArith Lia Bool.
From stdpp Require Import base tactics decidable option list numbers sorting.
From S2P Require Import Prelude.

Section quickselect.
Context {A : Type} (last : A → Z).

(** [its[i].last]. *)
Definition last_at (its : list A) (i : nat) : Z :=
  match its !! i with Some it => last it | None => 0 end.

(** [its[i], its[j] = its[j], its[i]]. *)
Definition swap (i j : nat) (its : list A) : list A :=
  match its !! i, its !! j with
  | Some x, Some y => <[i := y]> (<[j := x]> its)
  | _, _ => its
  end.

Definition swap_if (c : bool) (i j : nat) (its : list A) : list A := if c then swap i j its else its.

(** The inner loop of the insertion sort, from [j] down. *)
Fixpoint sink (j : nat) (its : list A) : list A :=
  match j with
  | O => its
  | S j' => if last_at its j' <? last_at its j then sink j' (swap j j' its) else its
  end.

Definition insertion_sort (left right : nat) (its : list A) : list A :=
  foldl (λ its i, sink i its) its (seq (S left) (right - left)).

Definition median_of_three (left right : nat) (its : list A) : list A :=
  let pivotIndex := (left + (right - left) / 2)%nat in
  let its := swap_if (last_at its left <? last_at its right) right left its in
  let its := swap_if (last_at its left <? last_at its pivotIndex) pivotIndex left its in
  let its := swap_if (last_at its pivotIndex <? last_at its right) right pivotIndex its in
  swap left pivotIndex its.

(** [for ll <= right && its[ll].last > its[left].last { ll++ }], in at most
    [n] steps. *)
Fixpoint skip_up (n left right ll : nat) (its : list A) : nat :=
  match n with
  | O => ll
  | S n' => if Nat.leb ll right && (last_at its left <? last_at its ll) then skip_up n' left right (S ll) its else ll
  end.

(** [for rr >= left && its[left].last > its[rr].last { rr-- }]. *)
Fixpoint skip_down (left rr : nat) (its : list A) : nat :=
  match rr with
  | O => O
  | S rr' => if Nat.leb left rr && (last_at its rr <? last_at its left) then skip_down left rr' its else rr
  end.

(** The partition loop, in at most [n] rounds. *)
Fixpoint partition (n left right ll rr : nat) (its : list A) : list A * nat :=
  match n with
  | O => (its, rr)
  | S n' =>
      if Nat.leb ll rr then
        let ll := skip_up (S right - ll) left right ll its in
        let rr := skip_down left rr its in
        if Nat.leb ll rr then partition n' left right (S ll) (rr - 1) (swap ll rr its)
        else partition n' left right ll rr its
      else (its, rr)
  end.

Fixpoint select_loop (n k left right : nat) (its : list A) : list A :=
  match n with
  | O => its
  | S n' =>
      if Nat.leb (right - left) 20 then insertion_sort left right its
      else
        let its := median_of_three left right its in
        let '(its, rr) := partition (S right - left) left right (S left) right its in
        let its := swap left rr its in
        if Nat.eqb k rr then its
        else if Nat.ltb k rr then select_loop n' k left (rr - 1) its
        else select_loop n' k (S rr) right its
  end.

Definition quickselect (k : nat) (its : list A) : list A :=
  if Nat.eqb (length its) 0 || Nat.leb (length its) k then its
  else select_loop (length its) k 0 (length its - 1) its.

(** [its[0].last] and the [its[i].last] after it. *)
Definition threshold (k : nat) (its : list A) : Z :=
  foldl (λ highest i, if highest <? last_at its i then last_at its i else highest) (last_at its 0) (seq 1 (k - 1)).

(** ** Swaps inside an append *)

Definition ge (x y : A) : Prop := last y ≤ last x.

Lemma last_at_mid pre x post : last_at (pre ++ x :: post) (length pre) = last x.
Proof. unfold last_at. by rewrite list_lookup_middle. Qed.

Lemma swap_mid pre x m y post i j : i = length pre → j = (length pre + S (length m))%nat →
  swap i j (pre ++ x :: m ++ y :: post) = pre ++ y :: m ++ x :: post.
Proof.
  intros -> ->. unfold swap. rewrite list_lookup_middle by done.
  assert (E : (pre ++ x :: m ++ y :: post) !! (length pre + S (length m))%nat = Some y).
  { rewrite lookup_app_r by lia. replace (_ - _)%nat with (S (length m)) by lia. simpl. by rewrite list_lookup_middle. }
  rewrite E. replace (<[_ := x]> _) with (pre ++ x :: m ++ x :: post).
  - by rewrite insert_app_r_alt, Nat.sub_diag by lia.
  - rewrite insert_app_r_alt by lia. replace (_ - _)%nat with (S (length m)) by lia. simpl.
    by rewrite insert_app_r_alt, Nat.sub_diag by lia.
Qed.

Lemma swap_comm i j its : swap i j its = swap j i its.
Proof.
  unfold swap. destruct (its !! i) as [x|] eqn:Hi, (its !! j) as [y|] eqn:Hj; try done.
  destruct (decide (i = j)) as [->|Hne]; [by simplify_eq|]. by rewrite list_insert_insert_ne.
Qed.

Lemma swap_same pre x post i : i = length pre → swap i i (pre ++ x :: post) = pre ++ x :: post.
Proof. intros ->. unfold swap. rewrite list_lookup_middle by done. by rewrite !insert_app_r_alt, Nat.sub_diag by lia. Qed.

(** Appends and conses to the right. *)
Ltac flat := repeat (rewrite <- app_assoc || rewrite <- app_comm_cons).

(** A swap of two indices of the middle rearranges the middle. *)
Lemma swap_inside pre mid post i j :
  (length pre ≤ i < length pre + length mid)%nat → (length pre ≤ j < length pre + length mid)%nat →
  ∃ mid', swap i j (pre ++ mid ++ post) = pre ++ mid' ++ post ∧ mid' ≡ₚ mid.
Proof.
  intros Hi Hj. assert (∀ i j, (length pre ≤ i < j)%nat → (j < length pre + length mid)%nat →
    ∃ mid', swap i j (pre ++ mid ++ post) = pre ++ mid' ++ post ∧ mid' ≡ₚ mid) as Hlt.
  { clear. intros i j Hi Hj. destruct (lookup_lt_is_Some_2 mid (i - length pre)) as [x Hx]; [lia|].
    apply list_elem_of_split_length in Hx as (a & r & -> & Ha). rewrite length_app in Hj. simpl in Hj.
    destruct (lookup_lt_is_Some_2 r (j - length pre - S (length a))) as [y Hy]; [lia|].
    apply list_elem_of_split_length in Hy as (m & b & -> & Hm).
    exists (a ++ y :: m ++ x :: b). split; [|solve_Permutation].
    pose proof (swap_mid (pre ++ a) x m y (b ++ post) i j) as E. rewrite length_app in E.
    rewrite <- ?app_assoc in E. flat. apply E; lia. }
  destruct (lt_eq_lt_dec i j) as [[?| ->]|?].
  - apply Hlt; lia.
  - exists mid. split; [|done]. destruct (lookup_lt_is_Some_2 mid (j - length pre)) as [x Hx]; [lia|].
    apply list_elem_of_split_length in Hx as (a & r & -> & Ha).
    pose proof (swap_same (pre ++ a) x (r ++ post) j) as E. rewrite length_app, <- !app_assoc in E.
    flat. apply E. lia.
  - rewrite swap_comm. apply Hlt; lia.
Qed.

(** ** Insertion sort *)

#[local] Instance ge_trans : Transitive ge.
Proof. unfold ge. intros x y z. lia. Qed.

Lemma last_at_eq pre x post its i : its = pre ++ x :: post → i = length pre → last_at its i = last x.
Proof. intros -> ->. apply last_at_mid. Qed.

Lemma swap_eq pre x m y post its i j : its = pre ++ x :: m ++ y :: post → i = length pre → j = (length pre + S (length m))%nat →
  swap i j its = pre ++ y :: m ++ x :: post.
Proof. intros ->. apply swap_mid. Qed.

(** Side conditions of the two lemmas above. *)
Ltac solve_idx := first [by flat | repeat first [rewrite length_app | progress cbn [length]]; lia].

Lemma sink_spec pre s : ∀ x r, Forall (λ z, ge z x) pre → StronglySorted ge s →
  ∃ s', sink (length pre + length s) (pre ++ s ++ x :: r) = pre ++ s' ++ r ∧ s' ≡ₚ s ++ [x] ∧ StronglySorted ge s'.
Proof.
  induction s as [|y s IH] using rev_ind; intros x r Hpre Hs.
  - exists [x]. split; [|split; [done|repeat constructor]]. simpl. rewrite Nat.add_0_r.
    destruct pre as [|z pre _] using rev_ind; [done|]. rewrite length_app, Nat.add_1_r. cbn [sink].
    rewrite (last_at_eq pre z (x :: r)), (last_at_eq (pre ++ [z]) x r) by solve_idx.
    rewrite Forall_app, Forall_singleton in Hpre. unfold ge in Hpre.
    destruct (Z.ltb_spec (last z) (last x)); [lia|done].
  - apply StronglySorted_app in Hs as (Hsy & Hs & _). rewrite length_app, Nat.add_1_r, Nat.add_succ_r. cbn [sink].
    rewrite (last_at_eq (pre ++ s) y (x :: r)), (last_at_eq (pre ++ s ++ [y]) x r) by solve_idx.
    destruct (Z.ltb_spec (last y) (last x)) as [Hlt|Hge].
    + rewrite swap_comm, (swap_eq (pre ++ s) y [] x r) by solve_idx. cbn [app]. flat.
      destruct (IH x (y :: r) Hpre Hs) as (s' & -> & Hp & Hs'). exists (s' ++ [y]). flat.
      split; [done|]. split; [rewrite Hp; solve_Permutation|].
      apply StronglySorted_app. split; [|split; [done|repeat constructor]].
      intros z y' Hz ->%list_elem_of_singleton. rewrite Hp, elem_of_app, list_elem_of_singleton in Hz.
      destruct Hz as [Hz| ->]; [|unfold ge; lia]. apply Hsy; [done|by left].
    + exists (s ++ [y; x]). flat. split; [done|]. split; [done|].
      apply StronglySorted_app. split; [|split; [done|repeat constructor; done]].
      intros z w Hz Hw. assert (ge z y) by (apply Hsy; [done|by left]).
      rewrite !elem_of_cons, elem_of_nil in Hw. unfold ge in *. destruct Hw as [->|[->|[]]]; lia.
Qed.

Lemma insertion_loop pre post r : ∀ s, (∀ z x, z ∈ pre → x ∈ r → ge z x) → StronglySorted ge s →
  ∃ s', foldl (λ its i, sink i its) (pre ++ s ++ r ++ post) (seq (length pre + length s) (length r)) = pre ++ s' ++ post
    ∧ s' ≡ₚ s ++ r ∧ StronglySorted ge s'.
Proof.
  induction r as [|x r IH]; intros s Hpre Hs; simpl.
  - exists s. rewrite app_nil_r. done.
  - destruct (sink_spec pre s x (r ++ post)) as (s' & E & Hp & Hs'); [|done|].
    { apply Forall_forall. intros z Hz. apply Hpre; [done|by left]. }
    rewrite E. assert (length s' = S (length s)) as Hl by (rewrite Hp, length_app; simpl; lia).
    replace (S (length pre + length s)) with (length pre + length s')%nat by lia.
    destruct (IH s') as (s'' & -> & Hp' & Hs''); [intros; apply Hpre; [done|by right]|done|].
    exists s''. split; [done|]. split; [|done]. rewrite Hp', Hp. solve_Permutation.
Qed.

(** A range of the slice: what comes before it and after it. *)
Record in_range (pre mid post : list A) : Prop := {
  range_pre x y : x ∈ pre → y ∈ mid ++ post → ge x y;
  range_post x y : x ∈ pre ++ mid → y ∈ post → ge x y;
}.

Lemma in_range_perm pre mid mid' post : mid' ≡ₚ mid → in_range pre mid post → in_range pre mid' post.
Proof. intros Hp [H1 H2]. split; intros x y Hx Hy; [apply H1 | apply H2]; by rewrite ?Hp in *. Qed.

Lemma insertion_sort_spec pre mid post left right : in_range pre mid post → length pre = left →
  length mid = S (right - left) →
  ∃ mid', insertion_sort left right (pre ++ mid ++ post) = pre ++ mid' ++ post ∧ mid' ≡ₚ mid ∧ StronglySorted ge mid'.
Proof.
  intros [H1 _] Hl Hm. destruct mid as [|x mid]; [done|]. injection Hm as Hm. unfold insertion_sort.
  destruct (insertion_loop pre post mid [x]) as (s' & E & Hp & Hs).
  - intros z y Hz Hy. apply H1; [done|]. rewrite elem_of_app. left. by right.
  - repeat constructor.
  - exists s'. split; [|done]. cbn [length app] in E. rewrite Nat.add_1_r, Hl, Hm in E. done.
Qed.

(** ** Partitioning *)

Lemma swap_if_inside c pre mid post i j :
  (length pre ≤ i < length pre + length mid)%nat → (length pre ≤ j < length pre + length mid)%nat →
  ∃ mid', swap_if c i j (pre ++ mid ++ post) = pre ++ mid' ++ post ∧ mid' ≡ₚ mid.
Proof. intros Hi Hj. destruct c; [by apply swap_inside | by exists mid]. Qed.

Lemma median_of_three_spec pre mid post left right : length pre = left → (left ≤ right)%nat → length mid = S (right - left) →
  ∃ mid', median_of_three left right (pre ++ mid ++ post) = pre ++ mid' ++ post ∧ mid' ≡ₚ mid.
Proof.
  intros Hl Hle Hm. unfold median_of_three. set (p := (left + (right - left) / 2)%nat).
  assert (Hp : (left ≤ p ≤ right)%nat).
  { unfold p. pose proof (Nat.Div0.div_le_upper_bound (right - left) 2 (right - left)). lia. }
  destruct (swap_if_inside (last_at (pre ++ mid ++ post) left <? last_at (pre ++ mid ++ post) right) pre mid post right left)
    as (m1 & -> & H1); [lia..|]. pose proof (Permutation_length H1).
  destruct (swap_if_inside (last_at (pre ++ m1 ++ post) left <? last_at (pre ++ m1 ++ post) p) pre m1 post p left)
    as (m2 & -> & H2); [lia..|]. pose proof (Permutation_length H2).
  destruct (swap_if_inside (last_at (pre ++ m2 ++ post) p <? last_at (pre ++ m2 ++ post) right) pre m2 post right p)
    as (m3 & -> & H3); [lia..|]. pose proof (Permutation_length H3).
  destruct (swap_inside pre m3 post left p) as (m4 & -> & Hp4); [lia..|].
  exists m4. split; [done|]. by rewrite Hp4, H3, H2.
Qed.

Lemma skip_up_spec left right v w : ∀ its p post, its = p ++ w ++ post → S right = (length p + length w)%nat →
  last_at its left = last v →
  ∃ w1 w2, w = w1 ++ w2 ∧ Forall (λ x, last v < last x) w1 ∧ (∀ x w3, w2 = x :: w3 → last x ≤ last v)
    ∧ skip_up (length w) left right (length p) its = (length p + length w1)%nat.
Proof.
  induction w as [|x w IH]; intros its p post E Hr Hv.
  { exists [], []. simpl. rewrite Nat.add_0_r. done. }
  simpl. rewrite Hv, (last_at_eq p x (w ++ post)) by done. rewrite (proj2 (Nat.leb_le _ _)) by (simpl in Hr; lia). simpl.
  destruct (Z.ltb_spec (last v) (last x)) as [Hlt|Hge].
  - destruct (IH its (p ++ [x]) post) as (w1 & w2 & -> & H1 & H2 & H3);
      [by rewrite E; flat|rewrite length_app; simpl in *; lia|done|].
    rewrite (length_app p [x]), Nat.add_1_r in H3. exists (x :: w1), w2. rewrite H3. simpl.
    split; [done|]. split; [by constructor|]. split; [done|]. lia.
  - exists [], (x :: w). simpl. rewrite Nat.add_0_r. split_and!; [done|constructor| |done]. intros y w3 [= -> ->]. done.
Qed.

Lemma skip_down_spec left v z b : ∀ its q post, its = q ++ z :: b ++ post → (left ≤ length q)%nat →
  last_at its left = last v → last v ≤ last z →
  ∃ b1 b2, b = b1 ++ b2 ∧ Forall (λ x, last x < last v) b2 ∧ (∀ x b3, b1 = b3 ++ [x] → last v ≤ last x)
    ∧ skip_down left (length q + length b) its = (length q + length b1)%nat.
Proof.
  induction b as [|x b IH] using rev_ind; intros its q post E Hq Hv Hz.
  { exists [], []. simpl. rewrite Nat.add_0_r. split_and!; [done|constructor|by intros ? [] ?|].
    destruct (length q) as [|n] eqn:Hn; [done|]. cbn [skip_down]. rewrite <- Hn, Hv, (last_at_eq q z post) by done.
    destruct (Z.ltb_spec (last z) (last v)); [lia|]. by rewrite andb_false_r, Hn. }
  rewrite length_app, Nat.add_1_r, Nat.add_succ_r. cbn [skip_down].
  rewrite Hv, (last_at_eq (q ++ z :: b) x post) by (rewrite ?E; solve_idx). rewrite (proj2 (Nat.leb_le _ _)) by lia. cbn [andb].
  destruct (Z.ltb_spec (last x) (last v)) as [Hlt|Hge].
  - destruct (IH its q (x :: post)) as (b1 & b2 & -> & H1 & H2 & H3); [by rewrite E; flat|done..|].
    exists b1, (b2 ++ [x]). rewrite H3. split; [by flat|]. split; [|done]. apply Forall_app. split; [done|by constructor].
  - exists (b ++ [x]), []. rewrite app_nil_r, length_app. cbn [length]. split_and!; [done|constructor| |lia].
    intros y b3 [_ [= ->]]%app_inj_2; done.
Qed.

(** An element cannot be above and below the pivot. *)
Lemma split_disjoint (v : A) (l : list A) :
  Forall (λ x, last v < last x) l → Forall (λ x, ge v x) l → l = [].
Proof. intros [|x l' Hx _] Hc; [done|]. apply Forall_cons in Hc as [Hc _]. unfold ge in Hc. lia. Qed.

(** What one round of the partition loop finds in the unscanned part [b]: up
    to [w1] is above the pivot, [b2] is below, and between them is what the
    round swaps. *)
Lemma partition_round (v : A) b c w1 w2 b1 b2 :
  b ++ c = w1 ++ w2 → b = b1 ++ b2 → Forall (λ x, last v < last x) w1 → Forall (λ x, ge v x) c →
  (∀ x w3, w2 = x :: w3 → last x ≤ last v) → Forall (λ x, last x < last v) b2 → (∀ x b3, b1 = b3 ++ [x] → last v ≤ last x) →
  (b1 = w1) ∨ (∃ x, b1 = w1 ++ [x] ∧ ge v x) ∨ (∃ x e y, b1 = w1 ++ x :: e ++ [y] ∧ ge v x ∧ ge y v).
Proof.
  intros Ebc Eb Hw1 Hc Hw2 Hb2 Hb1. assert (∃ k, b = w1 ++ k ∧ w2 = k ++ c) as (k & Ek & ->).
  { apply app_eq_inv in Ebc as [(k & -> & ->)|(k & -> & Ek)]; [by exists k|].
    apply Forall_app in Hw1 as [_ Hk]. rewrite Ek in Hc. apply Forall_app in Hc as [Hc _].
    rewrite (split_disjoint v k) by done. exists []. rewrite app_nil_r. split; [by rewrite app_nil_r|]. by rewrite Ek, (split_disjoint v k). }
  rewrite Ek in Eb. apply app_eq_inv in Eb as [(e & -> & ->)|(e & -> & ->)].
  - left. apply Forall_app in Hw1 as [_ He]. apply Forall_app in Hb2 as [He' _].
    rewrite (split_disjoint v e) by (done || by eapply Forall_impl; [done|]; unfold ge; simpl; lia). by rewrite app_nil_r.
  - destruct e as [|x e]; [left; by rewrite app_nil_r|]. right.
    assert (ge v x) by (by eapply Hw2). destruct e as [|y e _] using rev_ind; [left; by eauto|].
    right. exists x, e, y. split; [done|]. split; [done|]. apply (Hb1 y (w1 ++ x :: e)). by flat.
Qed.

(** Side conditions of the induction over the rounds. *)
Ltac solve_part :=
  first [done | solve [repeat first [rewrite Forall_app | rewrite Forall_cons | rewrite Forall_nil]; tauto] | solve_idx | intros ->; solve_idx | intros; solve_idx].

Lemma partition_spec pre post v left right n : ∀ a b c ll rr its,
  its = pre ++ v :: a ++ b ++ c ++ post → length pre = left → right = (left + length a + length b + length c)%nat →
  rr = (left + length a + length b)%nat → (b ≠ [] → ll = (left + 1 + length a)%nat) → (b = [] → (rr < ll)%nat) →
  (length b ≤ n)%nat → Forall (λ x, ge x v) a → Forall (λ x, ge v x) c →
  ∃ a' c', partition n left right ll rr its = (pre ++ v :: a' ++ c' ++ post, left + length a')%nat
    ∧ a' ++ c' ≡ₚ a ++ b ++ c ∧ Forall (λ x, ge x v) a' ∧ Forall (λ x, ge v x) c'.
Proof.
  induction n as [|n IH]; intros a b c ll rr its E Hpre Hright Hrr Hll Hll' Hn Ha Hc.
  { destruct b; [|simpl in Hn; lia]. exists a, c. simpl. subst. simpl. rewrite Nat.add_0_r. done. }
  cbn [partition]. assert (b = [] ∨ b ≠ []) as [->|Hb] by (destruct b; auto); [|specialize (Hll Hb)].
  { rewrite (proj2 (Nat.leb_gt _ _)) by auto. exists a, c. subst. simpl. rewrite Nat.add_0_r. done. }
  assert (length b ≠ 0)%nat by (by destruct b). rewrite (proj2 (Nat.leb_le _ _)) by lia.
  assert (Hv : last_at its left = last v) by (by apply (last_at_eq pre v (a ++ b ++ c ++ post))).
  destruct (skip_up_spec left right v (b ++ c) its (pre ++ v :: a) post) as (w1 & w2 & Ew & Hw1 & Hw2 & Hup);
    [by rewrite E; flat|rewrite !length_app; simpl; lia|done|].
  destruct (exists_last (l := v :: a)) as (a0 & z & Ea); [done|].
  assert (Ha0 : length a0 = length a). { apply (f_equal length) in Ea. rewrite length_app in Ea. simpl in Ea. lia. }
  destruct (skip_down_spec left v z b its (pre ++ a0) (c ++ post)) as (b1 & b2 & Eb & Hb2 & Hb1 & Hdown);
    [rewrite E; change (pre ++ v :: a ++ b ++ c ++ post) with (pre ++ (v :: a) ++ b ++ c ++ post); rewrite Ea; by flat
    |rewrite length_app; lia|done| |].
  { assert (z ∈ v :: a) as [->|Hz]%elem_of_cons by (rewrite Ea, elem_of_app; right; by left); [done|].
    rewrite Forall_forall in Ha. by apply Ha. }
  assert (Hp : length (pre ++ v :: a) = ll) by (rewrite length_app; simpl; lia).
  assert (Hq : length (pre ++ a0) = (left + length a)%nat) by (rewrite length_app; lia).
  rewrite Hp, length_app in Hup. rewrite Hq in Hdown. rewrite <- Hrr in Hdown.
  replace (S right - ll)%nat with (length b + length c)%nat by lia. rewrite Hup, Hdown.
  assert (Hb2' : Forall (λ x, ge v x) b2) by (eapply Forall_impl; [done|]; unfold ge; simpl; lia).
  assert (Hw1' : Forall (λ x, ge x v) w1) by (eapply Forall_impl; [done|]; unfold ge; simpl; lia).
  assert (Hlb : length b = (length b1 + length b2)%nat) by (by rewrite Eb, length_app).
  destruct (partition_round v b c w1 w2 b1 b2) as [->|[(x & -> & Hx)|(x & e & y & -> & Hx & Hy)]]; try done.
  - rewrite (proj2 (Nat.leb_gt _ _)) by lia.
    destruct (IH (a ++ w1) [] (b2 ++ c) (ll + length w1)%nat (left + length a + length w1)%nat its)
      as (a' & c' & Hr & Hperm & Ha' & Hc'); try solve_part.
    + rewrite E, Eb. by flat.
    + exists a', c'. split; [done|]. split; [|done]. rewrite Hperm, Eb. by flat.
  - rewrite length_app, Nat.add_1_r in Hlb |- *. rewrite (proj2 (Nat.leb_le _ _)) by lia.
    replace (left + length a + S (length w1))%nat with (ll + length w1)%nat by lia.
    assert (E' : its = (pre ++ v :: a ++ w1) ++ x :: b2 ++ c ++ post) by (rewrite E, Eb; by flat).
    rewrite E', swap_same, <- E' by solve_idx.
    destruct (IH (a ++ w1) [] (x :: b2 ++ c) (S (ll + length w1)) (ll + length w1 - 1)%nat its)
      as (a' & c' & Hr & Hperm & Ha' & Hc'); try solve_part.
    + rewrite E'. by flat.
    + exists a', c'. split; [done|]. split; [|done]. rewrite Hperm, Eb. by flat.
  - rewrite length_app in Hlb |- *. cbn [length] in Hlb |- *. rewrite length_app, Nat.add_1_r in Hlb |- *.
    rewrite (proj2 (Nat.leb_le _ _)) by lia.
    assert (E' : its = (pre ++ v :: a ++ w1) ++ x :: e ++ y :: b2 ++ c ++ post) by (rewrite E, Eb; by flat).
    rewrite E', (swap_mid _ x e y) by solve_idx.
    destruct (IH (a ++ w1 ++ [y]) e (x :: b2 ++ c) (S (ll + length w1)) (left + length a + (length w1 + S (S (length e))) - 1)%nat
      ((pre ++ v :: a ++ w1) ++ y :: e ++ x :: b2 ++ c ++ post))
      as (a' & c' & Hr & Hperm & Ha' & Hc'); try solve_part.
    exists a', c'. split; [done|]. split; [|done]. rewrite Hperm, Eb. flat.
    do 2 apply Permutation_app_head. rewrite <- !Permutation_middle. constructor.
Qed.

(** ** Selection *)

(** The first [k] are at least as large as the others. *)
Definition selected (k : nat) (its : list A) : Prop := ∀ x y, x ∈ take k its → y ∈ drop k its → ge x y.

Lemma selected_app k l1 l2 : length l1 = k → (∀ x y, x ∈ l1 → y ∈ l2 → ge x y) → selected k (l1 ++ l2).
Proof. intros <- Hl x y. rewrite take_app_length, drop_app_length. apply Hl. Qed.

Lemma selected_sorted pre mid post k : in_range pre mid post → StronglySorted ge mid → (length pre ≤ k ≤ length pre + length mid)%nat →
  selected k (pre ++ mid ++ post).
Proof.
  intros [H1 H2] Hs Hk. rewrite <- (take_drop (k - length pre) mid) in Hs |- *.
  set (m1 := take _ mid) in *. set (m2 := drop _ mid) in *.
  apply StronglySorted_app in Hs as (Hm & _ & _).
  replace (pre ++ (m1 ++ m2) ++ post) with ((pre ++ m1) ++ m2 ++ post) by (by rewrite <- !app_assoc).
  assert (∀ x, x ∈ mid ↔ x ∈ m1 ∨ x ∈ m2) as Hmid.
  { intros x. rewrite <- elem_of_app. unfold m1, m2. by rewrite take_drop. }
  apply selected_app; [unfold m1; rewrite length_app, length_take; lia|].
  intros x y. rewrite !elem_of_app. intros [Hx|Hx] [Hy|Hy].
  - apply H1; [done|]. rewrite elem_of_app, Hmid. auto.
  - apply H2; [rewrite elem_of_app; auto|done].
  - by apply Hm.
  - apply H2; [rewrite elem_of_app, Hmid; auto|done].
Qed.

Lemma swap_pivot pre v a r : ∃ a', swap (length pre) (length pre + length a) (pre ++ v :: a ++ r) = pre ++ a' ++ v :: r ∧ a' ≡ₚ a.
Proof.
  destruct a as [|y a _] using rev_ind.
  - exists []. simpl. rewrite Nat.add_0_r, swap_same by done. done.
  - exists (y :: a). rewrite (swap_eq pre v a y r) by solve_idx. split; [by flat|]. apply Permutation_cons_append.
Qed.

(** A partitioned range splits into two ranges around the pivot. *)
Lemma in_range_split pre mid post v a c : in_range pre mid post → mid ≡ₚ a ++ v :: c →
  Forall (λ x, ge x v) a → Forall (λ x, ge v x) c →
  in_range pre a (v :: c ++ post) ∧ in_range (pre ++ a ++ [v]) c post.
Proof.
  intros [H1 H2] Hp Ha Hc. rewrite Forall_forall in Ha, Hc.
  assert (∀ x y, x ∈ a → y ∈ c → ge x y) by (intros x y Hx Hy; trans v; auto).
  assert (∀ x, x ∈ mid ↔ x ∈ a ∨ x = v ∨ x ∈ c) as Hmid by (intros x; by rewrite Hp, elem_of_app, elem_of_cons).
  split; split; intros x y; repeat first [rewrite elem_of_app | rewrite elem_of_cons | rewrite elem_of_nil]; intros Hx Hy;
    destruct_or?; subst; try done; try (by auto);
    first [apply H1; [done|]; rewrite elem_of_app, Hmid; by auto 6 | apply H2; [|done]; rewrite elem_of_app, Hmid; by auto 6].
Qed.

Lemma select_loop_spec k n : ∀ pre mid post left right its,
  its = pre ++ mid ++ post → in_range pre mid post → length pre = left → length mid = S (right - left) →
  (left ≤ k ≤ right)%nat → (length mid ≤ n)%nat →
  select_loop n k left right its ≡ₚ its ∧ selected k (select_loop n k left right its).
Proof.
  induction n as [|n IH]; intros pre mid post left right its -> Hr Hl Hm Hk Hn; [lia|].
  cbn [select_loop]. destruct (Nat.leb_spec (right - left) 20) as [Hsmall|Hbig].
  - destruct (insertion_sort_spec pre mid post left right) as (mid' & -> & Hp & Hs); [done..|].
    split; [by rewrite Hp|]. pose proof (Permutation_length Hp).
    apply selected_sorted; [by apply (in_range_perm _ mid)|done|lia].
  - destruct (median_of_three_spec pre mid post left right) as (mid' & -> & Hp); [done|lia|done|].
    pose proof (Permutation_length Hp) as Hlen. destruct mid' as [|v w]; [simpl in Hlen; lia|]. simpl in Hlen.
    destruct (partition_spec pre post v left right (S right - left) [] w [] (S left) right (pre ++ (v :: w) ++ post))
      as (a & c & -> & Hac & Ha & Hc); try solve_part; [intros ->; simpl in *; lia|].
    cbn [app] in Hac. rewrite app_nil_r in Hac. pose proof (Permutation_length Hac) as Hlac. rewrite length_app in Hlac.
    rewrite <- Hl. destruct (swap_pivot pre v a (c ++ post)) as (a' & -> & Ha').
    pose proof (Permutation_length Ha') as Hla. rewrite <- Ha' in Ha, Hac.
    assert (mid ≡ₚ a' ++ v :: c) as Hmid by (rewrite <- Hp, <- Permutation_middle; by constructor).
    assert (pre ++ a' ++ v :: c ++ post ≡ₚ pre ++ mid ++ post) as Hall by (rewrite Hmid; by flat).
    destruct (in_range_split pre mid post v a' c) as [Hr1 Hr2]; [done..|].
    destruct (Nat.eqb_spec k (length pre + length a)) as [->|Hne]; [|destruct (Nat.ltb_spec k (length pre + length a))].
    + split; [done|]. replace (pre ++ a' ++ v :: c ++ post) with ((pre ++ a') ++ v :: c ++ post) by (by flat).
      apply selected_app; [rewrite length_app; lia|]. apply Hr1.
    + destruct (IH pre a' (v :: c ++ post) (length pre) (length pre + length a - 1)%nat (pre ++ a' ++ v :: c ++ post)) as [E1 E2];
        try done; try lia. split; [by rewrite E1|done].
    + destruct (IH (pre ++ a' ++ [v]) c post (S (length pre + length a)) right (pre ++ a' ++ v :: c ++ post)) as [E1 E2];
        try solve_part. split; [by rewrite E1|done].
Qed.

Lemma quickselect_spec k its : quickselect k its ≡ₚ its ∧ selected k (quickselect k its).
Proof.
  unfold quickselect. destruct (Nat.eqb_spec (length its) 0) as [Hl|Hl]; simpl.
  { destruct its; [|done]. split; [done|]. intros x y. rewrite take_nil. by intros ?%elem_of_nil. }
  destruct (Nat.leb_spec (length its) k) as [Hk|Hk].
  { split; [done|]. intros x y _. rewrite drop_ge by done. by intros ?%elem_of_nil. }
  apply (select_loop_spec k (length its) [] its []); try (simpl; lia); [by rewrite app_nil_r|].
  split; [by intros ? ? ?%elem_of_nil|by intros ? ? _ ?%elem_of_nil].
Qed.

(** ** The threshold *)

Lemma threshold_loop its l : ∀ h, let r := foldl (λ highest i, if highest <? last_at its i then last_at its i else highest) h l in
  h ≤ r ∧ (∀ i, i ∈ l → last_at its i ≤ r) ∧ (r = h ∨ ∃ i, i ∈ l ∧ r = last_at its i).
Proof.
  induction l as [|i l IH]; intros h; simpl; [split_and!; [lia|by intros ? ?%elem_of_nil|auto]|].
  destruct (IH (if h <? last_at its i then last_at its i else h)) as (H1 & H2 & H3). split_and!.
  - destruct (Z.ltb_spec h (last_at its i)); lia.
  - intros j [->|Hj]%elem_of_cons; [destruct (Z.ltb_spec h (last_at its i)); lia|auto].
  - destruct H3 as [->|(j & Hj & ->)]; [|right; exists j; split; [by right|done]].
    destruct (Z.ltb_spec h (last_at its i)); [right; exists i; split; [by left|done]|auto].
Qed.

(** After a selection the threshold is the largest key, and one of the first
    [k] has it. *)
Lemma threshold_spec k its : (1 ≤ k ≤ length its)%nat → selected k its →
  (∀ x, x ∈ its → last x ≤ threshold k its) ∧ ∃ i it, (i < k)%nat ∧ its !! i = Some it ∧ last it = threshold k its.
Proof.
  intros Hk Hs. destruct (threshold_loop its (seq 1 (k - 1)) (last_at its 0)) as (H0 & H1 & H2). fold (threshold k its) in *.
  assert (Hle : ∀ i, (i < k)%nat → last_at its i ≤ threshold k its).
  { intros [|i] Hi; [done|]. apply H1, elem_of_seq. lia. }
  assert (Hfirst : ∀ x, x ∈ take k its → last x ≤ threshold k its).
  { intros x (i & [Hi Hik]%lookup_take_Some)%list_elem_of_lookup. specialize (Hle i Hik). unfold last_at in Hle. by rewrite Hi in Hle. }
  split.
  - intros x Hin. assert (x ∈ take k its ∨ x ∈ drop k its) as [Hx|Hx] by (by rewrite <- elem_of_app, take_drop); [auto|].
    destruct (lookup_lt_is_Some_2 (take k its) 0) as [y Hy%list_elem_of_lookup_2]; [rewrite length_take; lia|].
    specialize (Hs y x Hy Hx). unfold ge in Hs. specialize (Hfirst y Hy). lia.
  - assert (∃ i, (i < k)%nat ∧ threshold k its = last_at its i) as (i & Hi & E).
    { destruct H2 as [->|(i & Hi%elem_of_seq & ->)]; [exists 0%nat|exists i]; split; (done || lia). }
    destruct (lookup_lt_is_Some_2 its i) as [it Hit]; [lia|]. exists i, it. split; [done|]. split; [done|].
    rewrite E. unfold last_at. by rewrite Hit.
Qed.

End quickselect.
