(* ===== verification/EventQuery.v ===== *)
(** * The bolt event store: queries

    [src/third_party/nostr/eventstore/boltdb/query.go], [query_planner.go] and
    the iterators of [helpers.go], with the helpers of [eventstore/internal].
    A query is planned as a list of index prefixes; an iterator walks each
    prefix backwards, in batches; rounds emit what is newer than every entry
    still unread.  The events a query yields are a list. *)

From Stdlib Require Import ZArith Lia Bool Ascii.
From stdpp Require Import base tactics decidable option list numbers strings gmap sorting.
From S2P Require Import Prelude Bytes Nostr EventID Bolt BoltCoord BetterBinary Md5 EventStore QuickSelect.

(** What the Go runtime leaves open: [visit site m] is the order in which the
    range statement [site] visits the map [m], and [pow_quotient limit n] is
    [int(math.Ceil(math.Pow(limit, 0.80)/math.Pow(n, 0.71)))]. *)
Class QueryEnv := {
  visit : nat → gmap string (list string) → list (string * list string);
  pow_quotient : Z → Z → Z;
}.

Class QueryEnvLaws `{QueryEnv} := {
  visit_perm site m : visit site m ≡ₚ map_to_list m;
}.

(** ** Package internal *)

Definition nonempty {A} (l : option (list A)) : bool :=
  match l with Some (_ :: _) => true | _ => false end.

(** One round of the loop of [ChooseNarrowestTag]; [break] leaves the switch
    only. *)
Definition narrow_step (authors : bool) (acc : string * option (list string) * Z) (kv : string * list string) : string * option (list string) * Z :=
  let '(tagKey, tagValues, goodness) := acc in
  let '(key, values) := kv in
  if existsb (String.eqb key) ["e"; "E"; "q"] then (key, Some values, 9)
  else if existsb (String.eqb key) ["a"; "A"; "i"; "I"; "g"; "r"] then (key, Some values, 8)
  else if String.eqb key "d" then
    if authors && (goodness <? 7) then (key, Some values, 7)
    else if goodness <? 4 then (key, Some values, 4)
    else acc
  else if existsb (String.eqb key) ["h"; "t"; "l"; "k"; "K"] then
    if goodness <? 6 then (key, Some values, 6) else acc
  else if String.eqb key "p" then
    if goodness <? 2 then (key, Some values, 2) else acc
  else if goodness =? 0 then (key, Some values, goodness) else acc.

Section query.
Context `{StorePrims} `{QueryEnv}.

Definition ChooseNarrowestTag (site : nat) (tags : gmap string (list string)) (authors : bool) : string * option (list string) * Z :=
  foldl (narrow_step authors) (EmptyString, None, 0) (visit site tags).

(** The product is not wrapped: it only selects between two batch sizes, and
    every positive one gives the same results. *)
Definition BatchSizePerNumberOfQueries (totalFilterLimit numberOfQueries : Z) : Z :=
  if (numberOfQueries =? 1) || (totalFilterLimit * numberOfQueries <? 50) then totalFilterLimit
  else Z.max 4 (pow_quotient totalFilterLimit numberOfQueries).

Definition SwapDelete {A} (arr : list A) (i : nat) : list A :=
  match arr !! (length arr - 1)%nat with
  | Some x => take (length arr - 1) (<[i := x]> arr)
  | None => arr
  end.

(** ** The planner *)

Record Query := mkQuery {
  q_bucket : Bucket;
  q_prefix : string;
  q_startingPoint : string;
}.

Record Prepared := mkPrepared {
  pq_queries : list (Bucket * string);
  pq_extraAuthors : option (list string);
  pq_extraKinds : option (list Z);
  pq_extraTagKey : string;
  pq_extraTagValues : option (list string);
}.

Definition to_u32 (z : Z) : Z := z mod two32.

Definition query_since (filter : Filter) : Z :=
  if negb (fi_Since filter =? 0) then (if 0 <? to_u32 (fi_Since filter) then to_u32 (fi_Since filter) else 0) else 0.

Definition query_until (filter : Filter) : Z :=
  if negb (fi_Until filter =? 0) then
    (if to_u32 (fi_Until filter) <? 4294967295 then to_u32 (fi_Until filter) + 1 else 4294967295)
  else 4294967295.

(** The deferred function: the starting point of every query. *)
Definition with_start (until : Z) (q : Bucket * string) : Query :=
  mkQuery (fst q) (snd q) (snd q +:+ be32 until).

(** The queries of a plain tag index. *)
Definition tag_query (tagKey value : string) : Bucket * string :=
  let '(bucket, k) := getTagIndexPrefix tagKey value in (bucket, key_prefix k).

Definition tag_plan (filter : Filter) (tagKey : string) (tagValues : list string) : Prepared :=
  let rest := delete tagKey (fi_Tags filter) in
  let '(extraTagKey, extraTagValues, _) :=
    if Nat.ltb 0 (size rest) then ChooseNarrowestTag 1 rest (nonempty (fi_Authors filter)) else (EmptyString, None, 0) in
  mkPrepared (tag_query tagKey <$> tagValues) (fi_Authors filter) (fi_Kinds filter) extraTagKey extraTagValues.

Definition pubkey_prefix (pk : string) : string := take_bytes 8 pk.

(** From the label pubkeyMatching on. *)
Definition pubkey_plan (filter : Filter) : Prepared :=
  let '(extraTagKey, extraTagValues, _) := ChooseNarrowestTag 2 (fi_Tags filter) (nonempty (fi_Authors filter)) in
  match fi_Authors filter, fi_Kinds filter with
  | Some ((_ :: _) as authors), Some ((_ :: _) as kinds) =>
      mkPrepared (pk ← authors; kind ← kinds; [(indexPubkeyKind, pubkey_prefix pk +:+ be16 kind)]) None None extraTagKey extraTagValues
  | Some ((_ :: _) as authors), _ =>
      mkPrepared ((λ pk, (indexPubkey, pubkey_prefix pk)) <$> authors) None None extraTagKey extraTagValues
  | _, Some ((_ :: _) as kinds) =>
      mkPrepared ((λ kind, (indexKind, be16 kind)) <$> kinds) None None extraTagKey extraTagValues
  | _, _ => mkPrepared [(indexCreatedAt, EmptyString)] None None EmptyString None
  end.

Definition prepareQueries (filter : Filter) : Prepared :=
  if Nat.ltb 0 (size (fi_Tags filter)) then
    let '(tagKey, tagValues, goodness) := ChooseNarrowestTag 0 (fi_Tags filter) (nonempty (fi_Authors filter)) in
    if (goodness <? 2) && (nonempty (fi_Authors filter) || nonempty (fi_Kinds filter)) then pubkey_plan filter
    else tag_plan filter tagKey (default [] tagValues)
  else pubkey_plan filter.

(** ** Iterators *)

Record iterator := mkIterator {
  it_prefix : string;
  (** The keys before the current one, nearest first. *)
  it_cursor : list string;
  (** The current key without its id pointer, and the id pointer. *)
  it_key : string;
  it_currIdPtr : string;
  it_last : Z;
  it_exhausted : bool;
  it_idPtrs : list string;
  it_timestamps : list Z;
}.

Definition bucket_index (db : EventDB) (b : Bucket) : gset string :=
  set_map snd (filter (λ bk : Bucket * string, fst bk = b) (indexes db)).

(** The key without its last 8 bytes, and these. *)
Definition split_key (fullkey : string) : string * string :=
  let n := (String.length fullkey - 8)%nat in (take_bytes n fullkey, drop_bytes n fullkey).

(** The timestamp in the last 4 bytes of [it.key]. *)
Definition key_time (key : string) : Z := be_decode (drop_bytes (String.length key - 4) key).

(** The keys from the position of [seek] on, going backwards: the key itself
    if it is there, and those below it ([Prev] after a [Seek] past the end is
    the last key). *)
Definition seek_back (key : string) (keys : list string) : list string :=
  reverse (filter (λ k, bytes_le k key) keys).

(** [newIterator] and [seek]; [None] when the iterator is exhausted. *)
Definition open_iterator (db : EventDB) (q : Query) : option iterator :=
  match seek_back (q_startingPoint q) (index_keys (bucket_index db (q_bucket q))) with
  | [] => None
  | fullkey :: cursor =>
      let '(key, ptr) := split_key fullkey in
      Some (mkIterator (q_prefix q) cursor key ptr 0 false [] [])
  end.

Definition exhaust (it : iterator) : iterator :=
  mkIterator (it_prefix it) (it_cursor it) (it_key it) (it_currIdPtr it) (it_last it) true (it_idPtrs it) (it_timestamps it).

(** Keep the current entry. *)
Definition keep (createdAt : Z) (it : iterator) : iterator :=
  mkIterator (it_prefix it) (it_cursor it) (it_key it) (it_currIdPtr it) createdAt (it_exhausted it)
    (it_idPtrs it ++ [it_currIdPtr it]) (it_timestamps it ++ [createdAt]).

(** [next], to the key [fullkey] with [cursor] before it. *)
Definition move (fullkey : string) (cursor : list string) (it : iterator) : iterator :=
  let '(key, ptr) := split_key fullkey in
  mkIterator (it_prefix it) cursor key ptr (it_last it) (it_exhausted it) (it_idPtrs it) (it_timestamps it).

(** The loop of [pull], with [n] rounds left and [cursor] the cursor of [it]. *)
Fixpoint pull_loop (since n : Z) (cursor : list string) (it : iterator) : iterator :=
  if n <=? 0 then it
  else if negb (has_prefix (it_key it) (it_prefix it)) then exhaust it
  else
    let createdAt := key_time (it_key it) in
    if createdAt <? since then exhaust it
    else
      let it := keep createdAt it in
      match cursor with
      | [] => exhaust it
      | fullkey :: cursor' => pull_loop since (n - 1) cursor' (move fullkey cursor' it)
      end.

Definition pull (n since : Z) (it : iterator) : iterator := pull_loop since n (it_cursor it) it.

(** ** The query loop *)

Inductive QueryError :=
| QueryPanic
| QueryOutOfFuel.

(** The loop over the entries of one iterator: those at or above the threshold
    are taken out.  What is left, and the id pointers taken, in order. *)
Fixpoint collect (n : nat) (threshold : Z) (t : nat) (timestamps : list Z) (idPtrs : list string) : list Z * list string * list string :=
  match n with
  | O => (timestamps, idPtrs, [])
  | S n' =>
      match timestamps !! t, idPtrs !! t with
      | Some ts, Some idPtr =>
          if threshold <=? ts then
            let '(timestamps, idPtrs, found) := collect n' threshold t (SwapDelete timestamps t) (SwapDelete idPtrs t) in
            (timestamps, idPtrs, idPtr :: found)
          else collect n' threshold (S t) timestamps idPtrs
      | _, _ => (timestamps, idPtrs, [])
      end
  end.

Definition collect_iterator (threshold : Z) (it : iterator) : iterator * list string :=
  let '(timestamps, idPtrs, found) := collect (length (it_timestamps it)) threshold 0 (it_timestamps it) (it_idPtrs it) in
  (mkIterator (it_prefix it) (it_cursor it) (it_key it) (it_currIdPtr it) (it_last it) (it_exhausted it) idPtrs timestamps, found).

(** A membership check of a field read in place. *)
Definition in_extra {A} `{EqDecision A} (extra : option (list A)) (field : result CodecError A) : result QueryError bool :=
  match extra with
  | None => Ok true
  | Some l => match field with Ok x => Ok (bool_decide (x ∈ l)) | Err _ => Err QueryPanic end
  end.

(** [Tags.ContainsAny]. *)
Definition ContainsAny (tags : list (list string)) (tagName : string) (values : list string) : bool :=
  existsb (λ tag, match tag with name :: value :: _ => String.eqb name tagName && bool_decide (value ∈ values) | _ => false end) tags.

(** [slices.Contains(l, x)] where [l] is not nil. *)
Definition in_some {A} `{EqDecision A} (l : option (list A)) (x : A) : bool :=
  match l with Some l => bool_decide (x ∈ l) | None => true end.

Definition MatchesIgnoringTimestampConstraints (ef : Filter) (event : Event) : bool :=
  in_some (fi_IDs ef) (ev_ID event) && in_some (fi_Kinds ef) (ev_Kind event) && in_some (fi_Authors ef) (ev_PubKey event)
  && forallb (λ fv, ContainsAny (ev_Tags event) (fst fv) (snd fv)) (map_to_list (fi_Tags ef)).

Definition Matches (ef : Filter) (event : Event) : bool :=
  MatchesIgnoringTimestampConstraints ef event
  && negb (negb (fi_Since ef =? 0) && (ev_CreatedAt event <? fi_Since ef))
  && negb (negb (fi_Until ef =? 0) && (fi_Until ef <? ev_CreatedAt event)).

(** The event of one id pointer, if it is stored and passes the extra checks. *)
Definition fetch (db : EventDB) (pq : Prepared) (idPtr : string) : result QueryError (option Event) :=
  match rawEventStore db !! idPtr with
  | None => Ok None
  | Some bin =>
      let! author := in_extra (pq_extraAuthors pq) (GetPubKey bin) in
      if negb author then Ok None
      else
        let! kind := in_extra (pq_extraKinds pq) (GetKind bin) in
        if negb kind then Ok None
        else match Unmarshal bin with
        | Err _ => Ok None
        | Ok event =>
            match pq_extraTagValues pq with
            | Some values => if ContainsAny (ev_Tags event) (pq_extraTagKey pq) values then Ok (Some event) else Ok None
            | None => Ok (Some event)
            end
        end
  end.

Fixpoint fetch_all (db : EventDB) (pq : Prepared) (idPtrs : list string) : result QueryError (list Event) :=
  match idPtrs with
  | [] => Ok []
  | idPtr :: idPtrs' =>
      let! event := fetch db pq idPtr in
      let! events := fetch_all db pq idPtrs' in
      Ok (match event with Some event => event :: events | None => events end)
  end.

(** [slices.SortFunc(events, nostr.CompareEventReverse)]: later times first,
    the larger id first among equals.  Events that compare equal have one id. *)
Definition CompareEventReverse (a b : Event) : Prop :=
  ev_CreatedAt b < ev_CreatedAt a ∨ ev_CreatedAt a = ev_CreatedAt b ∧ bytes_le (ev_ID b) (ev_ID a).

#[export] Instance CompareEventReverse_dec : RelDecision CompareEventReverse.
Proof. intros a b. unfold CompareEventReverse. apply _. Defined.

(** The loop that pulls from the first iterators and drops finished ones. *)
Fixpoint pull_more (n : nat) (npull : nat) (batch since : Z) (i : nat) (its : list iterator) : list iterator :=
  match n with
  | O => its
  | S n' =>
      if Nat.ltb i (Nat.min (length its) npull) then
        match its !! i with
        | Some it =>
            if it_exhausted it then
              match it_idPtrs it with
              | [] => pull_more n' npull batch since i (SwapDelete its i)
              | _ :: _ => pull_more n' npull batch since (S i) its
              end
            else pull_more n' npull batch since (S i) (<[i := pull batch since it]> its)
        | None => its
        end
      else its
  end.

(** The rounds, with [emitted] events yielded so far. *)
Fixpoint rounds (n : nat) (db : EventDB) (pq : Prepared) (npull : nat) (batch since limit emitted : Z) (its : list iterator) : result QueryError (list Event) :=
  match its with
  | [] => Ok []
  | _ :: _ =>
      match n with
      | O => Err QueryOutOfFuel
      | S n' =>
          let k := Nat.min npull (length its) in
          let its := quickselect it_last k its in
          let t := threshold it_last k its in
          let its := collect_iterator t <$> its in
          let! tempResults := fetch_all db pq (mjoin (snd <$> its)) in
          let tempResults := merge_sort CompareEventReverse tempResults in
          let its := fst <$> its in
          if (0 <? limit - emitted) && (limit - emitted <=? Z.of_nat (length tempResults))
          then Ok (take (Z.to_nat (limit - emitted)) tempResults)
          else
            let its := pull_more (length its) npull batch since 0 its in
            let! rest := rounds n' db pq npull batch since limit (emitted + Z.of_nat (length tempResults)) its in
            Ok (tempResults ++ rest)
      end
  end.

(** What a round uses up: keys not read, and iterators. *)
Definition work (it : iterator) : nat := S (if it_exhausted it then 0 else S (length (it_cursor it))).

Definition query_run (db : EventDB) (filter : Filter) (limit : Z) : result QueryError (list Event) :=
  let pq := prepareQueries filter in
  let since := query_since filter in
  let queries := with_start (query_until filter) <$> pq_queries pq in
  let its := omap (open_iterator db) queries in
  let batch := BatchSizePerNumberOfQueries limit (Z.of_nat (length queries)) in
  let its := pull batch since <$> its in
  let npull := Nat.max 1 ((length its + 11) / 12) in
  rounds (S (sum_list_with work its)) db pq npull batch since limit 0 its.

(** ** QueryEvents *)

Definition GetTheoreticalLimit (filter : Filter) : Z :=
  let d := default [] (fi_Tags filter !! "d") in
  let otherwise := if 0 <? fi_Limit filter then fi_Limit filter else if fi_LimitZero filter then 0 else max_i64 in
  match fi_IDs filter, fi_Authors filter, fi_Kinds filter with
  | Some ids, _, _ => Z.of_nat (length ids)
  | None, Some authors, Some kinds =>
      if forallb IsReplaceable kinds then Z.of_nat (length authors) * Z.of_nat (length kinds)
      else if Nat.ltb 0 (length d) && forallb IsAddressable kinds
      then Z.of_nat (length authors) * Z.of_nat (length kinds) * Z.of_nat (length d)
      else otherwise
  | None, _, _ => otherwise
  end.

Definition QueryEvents (db : EventDB) (filter : Filter) (maxLimit : Z) : result QueryError (list Event) :=
  match fi_IDs filter with
  | Some ids => Ok (queryByIds db ids)
  | None =>
      if negb (String.eqb (fi_Search filter) EmptyString) then Ok []
      else
        let tlimit := GetTheoreticalLimit filter in
        if tlimit =? 0 then Ok []
        else query_run db filter (if tlimit <? maxLimit then tlimit else maxLimit)
  end.

(** ** ReplaceEvent

    The past events are read lazily while they are deleted in the same
    transaction; its cursors still walk the pages from before the deletions,
    so the query is one of the state before. *)

(** The loop over the past events: what is deleted, and whether to store. *)
Fixpoint replace_loop (evt : Event) (previous : list Event) (db : EventDB) : result StoreError (EventDB * list Event * bool) :=
  match previous with
  | [] => Ok (db, [], true)
  | p :: previous' =>
      if IsOlder p evt then
        let! db := DeleteEvent db (ev_ID p) in
        let! ' (db, deleted, shouldStore) := replace_loop evt previous' db in
        Ok (db, p :: deleted, shouldStore)
      else
        let! ' (db, deleted, _) := replace_loop evt previous' db in
        Ok (db, deleted, false)
  end.

Definition replace_filter (evt : Event) : Filter :=
  let tags := if IsAddressable (ev_Kind evt) then {[ "d" := [GetD (ev_Tags evt)] ]} else ∅ in
  mkFilter None (Some [ev_Kind evt]) (Some [ev_PubKey evt]) tags 0 0 0 EmptyString false.

(** The code deletes each older version while it iterates over the lazy query;
    here the query is read to its end first. *)
Definition ReplaceEvent (db : EventDB) (evt : Event) : result StoreError (EventDB * list Event) :=
  match rawEventStore db !! idPtr (ev_ID evt) with
  | Some _ => Ok (db, [])
  | None =>
      let! results := match query_run db (replace_filter evt) 10 with Ok l => Ok l | Err _ => Err ErrPanicked end in
      let! ' (db, deleted, shouldStore) := replace_loop evt results db in
      if shouldStore then let! db := save db evt in Ok (db, deleted) else Ok (db, deleted)
  end.

End query.
