(* ===== verification/EventQueryFacts.v ===== *)
(** * The query loop

    An entry is a timestamp and an id pointer.  An iterator stands for the
    entries it has pulled and not emitted, and those it would still pull; the
    rounds emit all of them, newest first. *)

From Stdlib Require Import ZArith Lia Bool Ascii.
From stdpp Require Import base tactics decidable option list numbers strings gmap sorting.
From S2P Require Import Prelude Bytes Nostr EventID Bolt BoltCoord BetterBinary EventStore QuickSelect EventQuery.

Definition entry : Type := Z * string.

(** Later first. *)
Definition later (a b : entry) : Prop := fst b ≤ fst a.
Definition newest (a b : Event) : Prop := ev_CreatedAt b ≤ ev_CreatedAt a.

#[export] Instance later_trans : Transitive later.
Proof. unfold later. intros a b c. lia. Qed.

Definition entry_of (kp : string * string) : entry := (key_time (fst kp), snd kp).

Definition wanted (since : Z) (prefix : string) (kp : string * string) : bool :=
  has_prefix (fst kp) prefix && negb (key_time (fst kp) <? since).

Definition pending (it : iterator) : list entry := zip (it_timestamps it) (it_idPtrs it).

Definition future (since : Z) (it : iterator) : list entry :=
  if it_exhausted it then []
  else entry_of <$> take_while (wanted since (it_prefix it)) ((it_key it, it_currIdPtr it) :: (split_key <$> it_cursor it)).

Definition entries (since : Z) (its : list iterator) : list entry := it ← its; pending it ++ future since it.

(** ** Pulling *)

Lemma zip_snoc {A B} (l : list A) (k : list B) a b : length l = length k → zip (l ++ [a]) (k ++ [b]) = zip l k ++ [(a, b)].
Proof. intros Hl. by rewrite zip_with_app. Qed.

Definition last_time (d : Z) (l : list entry) : Z := match last l with Some e => fst e | None => d end.

Lemma last_time_cons d e l : last_time d (e :: l) = last_time (fst e) l.
Proof. unfold last_time. rewrite last_cons. by destruct (last l). Qed.

(** What pulling [n] more entries does to an iterator that is not exhausted. *)
Record pulled (since n : Z) (it it' : iterator) (got : list entry) : Prop := {
  pulled_future : future since it = got ++ future since it';
  pulled_pending : pending it' = pending it ++ got;
  pulled_length : length (it_timestamps it') = length (it_idPtrs it');
  pulled_last : it_last it' = last_time (it_last it) got;
  pulled_none : got = [] → 1 ≤ n → it_exhausted it' = true;
  pulled_work : (work it' ≤ work it)%nat;
  pulled_progress : 1 ≤ n → (work it' < work it)%nat;
}.

Lemma future_current since it : it_exhausted it = false →
  future since it = if wanted since (it_prefix it) (it_key it, it_currIdPtr it)
    then entry_of (it_key it, it_currIdPtr it) :: (entry_of <$> take_while (wanted since (it_prefix it)) (split_key <$> it_cursor it))
    else [].
Proof. intros He. unfold future. rewrite He. simpl. by destruct (wanted _ _ _). Qed.

Lemma pulled_exhaust since n it : it_exhausted it = false → length (it_timestamps it) = length (it_idPtrs it) →
  wanted since (it_prefix it) (it_key it, it_currIdPtr it) = false → pulled since n it (exhaust it) [].
Proof.
  intros He Hl Hw. split; try done.
  - by rewrite future_current, Hw.
  - by rewrite app_nil_r.
  - unfold work. simpl. rewrite He. lia.
  - unfold work. simpl. rewrite He. lia.
Qed.

Lemma pull_loop_spec since cursor : ∀ n it, it_cursor it = cursor → it_exhausted it = false →
  length (it_timestamps it) = length (it_idPtrs it) → ∃ got, pulled since n it (pull_loop since n cursor it) got.
Proof.
  induction cursor as [|k cursor IH]; intros n it Hc He Hl; cbn [pull_loop].
  all: destruct (Z.leb_spec n 0) as [Hn|Hn];
    [exists []; split; try done; try lia; by rewrite app_nil_r|].
  all: destruct (negb (has_prefix (it_key it) (it_prefix it))) eqn:Hp;
    [exists []; apply pulled_exhaust; [done..|]; unfold wanted; simpl; by rewrite (proj1 (negb_true_iff _) Hp)|].
  all: apply negb_false_iff in Hp; destruct (key_time (it_key it) <? since) eqn:Ht;
    [exists []; apply pulled_exhaust; [done..|]; unfold wanted; simpl; by rewrite Hp, Ht|].
  all: assert (Hw : wanted since (it_prefix it) (it_key it, it_currIdPtr it) = true) by (unfold wanted; simpl; by rewrite Hp, Ht).
  all: set (e := (key_time (it_key it), it_currIdPtr it) : entry).
  - exists [e]. split; try done.
    + rewrite future_current, Hw, Hc by done. done.
    + unfold pending. simpl. by apply zip_snoc.
    + simpl. rewrite !length_app. simpl. lia.
    + unfold work. simpl. rewrite He. lia.
    + unfold work. simpl. rewrite He, Hc. simpl. lia.
  - set (it1 := move k cursor (keep (key_time (it_key it)) it)).
    assert (Hit1 : it1 = mkIterator (it_prefix it) cursor (fst (split_key k)) (snd (split_key k)) (key_time (it_key it)) false
      (it_idPtrs it ++ [it_currIdPtr it]) (it_timestamps it ++ [key_time (it_key it)])).
    { unfold it1, move. destruct (split_key k). simpl. by rewrite He. }
    destruct (IH (n - 1) it1) as [got Hgot]; [by rewrite Hit1|by rewrite Hit1| |].
    { rewrite Hit1. simpl. rewrite !length_app. simpl. lia. }
    destruct Hgot as [G1 G2 G3 G4 _ G6 _]. exists (e :: got). split; try done.
    + rewrite future_current, Hw, Hc by done. simpl. f_equal. rewrite <- G1, Hit1. reflexivity.
    + rewrite G2, Hit1. unfold pending at 1. simpl. rewrite zip_snoc by done. by rewrite <- app_assoc.
    + rewrite G4, last_time_cons, Hit1. done.
    + etrans; [exact G6|]. rewrite Hit1. unfold work. simpl. rewrite He, Hc. simpl. lia.
    + intros _. eapply Nat.le_lt_trans; [exact G6|]. rewrite Hit1. unfold work. simpl. rewrite He, Hc. simpl. lia.
Qed.

(** ** The invariant of an iterator *)

Record it_ok (since : Z) (it : iterator) : Prop := {
  ok_length : length (it_timestamps it) = length (it_idPtrs it);
  ok_sorted : StronglySorted later (future since it);
  ok_pending e : e ∈ pending it → it_last it ≤ fst e;
  ok_future e : e ∈ future since it → fst e ≤ it_last it;
}.

Lemma StronglySorted_later_last d l e : StronglySorted later l → e ∈ l → last_time d l ≤ fst e.
Proof.
  intros Hs He. unfold last_time. destruct l as [|x l _] using rev_ind; [by apply elem_of_nil in He|]. rewrite last_snoc.
  apply StronglySorted_app in Hs as (Hs & _ & _). apply elem_of_app in He as [He|He].
  - apply (Hs e x); [done|by left].
  - apply list_elem_of_singleton in He as ->. done.
Qed.

Lemma last_time_elem d l : l = [] ∧ last_time d l = d ∨ ∃ e, e ∈ l ∧ last_time d l = fst e.
Proof.
  destruct l as [|x l _] using rev_ind; [by left|]. right. exists x. unfold last_time. rewrite last_snoc.
  split; [|done]. rewrite elem_of_app. right. by left.
Qed.

(** Pulling keeps the invariant; it establishes it on a new iterator. *)
Lemma pulled_ok since n it it' got : pulled since n it it' got → 1 ≤ n → StronglySorted later (future since it) →
  pending it = [] ∨ it_ok since it → it_ok since it'.
Proof.
  intros [G1 G2 G3 G4 G5 _ _] Hn Hs Hok. rewrite G1 in Hs. apply StronglySorted_app in Hs as (Hcross & Hgot & Hrest).
  assert (Hnone : got = [] → future since it' = []) by (intros Hg; unfold future; by rewrite G5).
  split; [done|done| |].
  - intros e He. rewrite G2 in He. rewrite G4. apply elem_of_app in He as [He|He]; [|by apply StronglySorted_later_last].
    destruct Hok as [E|[_ _ Hp Hf]]; [rewrite E in He; by apply elem_of_nil in He|]. specialize (Hp e He).
    destruct (last_time_elem (it_last it) got) as [[_ ->]|(x & Hx & ->)]; [done|].
    assert (fst x ≤ it_last it); [|lia]. apply Hf. rewrite G1, elem_of_app. auto.
  - intros e He. rewrite G4. destruct (last_time_elem (it_last it) got) as [[Hg _]|(x & Hx & ->)].
    + by rewrite Hnone in He by done; apply elem_of_nil in He.
    + by apply (Hcross x e).
Qed.

Lemma pull_spec since n it : it_exhausted it = false → length (it_timestamps it) = length (it_idPtrs it) →
  ∃ got, pulled since n it (pull n since it) got.
Proof. intros He Hl. by apply pull_loop_spec. Qed.

Lemma pull_ok since n it : it_ok since it → it_exhausted it = false → 1 ≤ n →
  it_ok since (pull n since it) ∧ (work (pull n since it) < work it)%nat
  ∧ pending (pull n since it) ++ future since (pull n since it) = pending it ++ future since it.
Proof.
  intros Hok He Hn. destruct (pull_spec since n it) as [got Hg]; [done|apply Hok|]. split_and!.
  - eapply pulled_ok; [done|done|apply Hok|by right].
  - by eapply pulled_progress.
  - destruct Hg as [G1 G2 _ _ _ _ _]. rewrite G1, G2. by rewrite app_assoc.
Qed.

(** ** Taking entries out *)

Lemma SwapDelete_spec {A} (l : list A) i x : l !! i = Some x →
  x :: SwapDelete l i ≡ₚ l ∧ take i (SwapDelete l i) = take i l ∧ length (SwapDelete l i) = (length l - 1)%nat.
Proof.
  intros Hi. unfold SwapDelete. destruct l as [|z l _] using rev_ind; [done|].
  rewrite length_app, Nat.add_sub, list_lookup_middle by done. cbn [length].
  pose proof (lookup_lt_Some _ _ _ Hi) as Hlt. rewrite length_app in Hlt. cbn [length] in Hlt.
  destruct (decide (i = length l)) as [->|Hne].
  - rewrite list_lookup_middle in Hi by done. injection Hi as ->.
    rewrite insert_app_r_alt, Nat.sub_diag by lia. simpl. rewrite take_app_length.
    split_and!; [apply Permutation_cons_append|apply firstn_all|done].
  - rewrite lookup_app_l in Hi by lia. rewrite insert_app_l by lia.
    rewrite take_app_length' by (by rewrite length_insert). apply list_elem_of_split_length in Hi as (l1 & l2 & -> & ->).
    rewrite insert_app_r_alt, Nat.sub_diag by lia. simpl. split_and!.
    + rewrite <- app_assoc. simpl. rewrite (Permutation_cons_append l2 z). apply Permutation_middle.
    + rewrite !take_app_length', <- app_assoc, take_app_length by done. done.
    + rewrite !length_app. simpl. lia.
Qed.

Lemma SwapDelete_zip {A B} (l : list A) (k : list B) i : length l = length k →
  zip (SwapDelete l i) (SwapDelete k i) = SwapDelete (zip l k) i ∧ length (SwapDelete l i) = length (SwapDelete k i).
Proof.
  intros Hl. unfold SwapDelete. rewrite length_zip_with, <- Hl, Nat.min_id.
  destruct (l !! (length l - 1)%nat) as [x|] eqn:Hx.
  - destruct (lookup_lt_is_Some_2 k (length l - 1)) as [y Hy]; [apply lookup_lt_Some in Hx; lia|].
    rewrite Hy. rewrite lookup_zip_with, Hx, Hy. simpl. rewrite !length_take, !length_insert, Hl. split; [|done].
    rewrite (insert_zip_with pair l k i x y : <[i := (x, y)]> _ = _). symmetry. apply zip_with_take.
  - apply lookup_ge_None in Hx. destruct l; [|simpl in Hx; lia]. destruct k; [|done]. done.
Qed.

(** The loop splits the entries at the threshold. *)
Lemma collect_spec T n : ∀ t ts ps, length ts = length ps → (length ts ≤ t + n)%nat → Forall (λ e : entry, fst e < T) (take t (zip ts ps)) →
  ∃ ts' ps' found, collect n T t ts ps = (ts', ps', snd <$> found) ∧ length ts' = length ps'
    ∧ zip ts' ps' ++ found ≡ₚ zip ts ps ∧ Forall (λ e : entry, fst e < T) (zip ts' ps') ∧ Forall (λ e : entry, T ≤ fst e) found.
Proof.
  induction n as [|n IH]; intros t ts ps Hl Hn Hlt; cbn [collect].
  { exists ts, ps, []. rewrite app_nil_r. rewrite take_ge in Hlt by (rewrite length_zip_with; lia). done. }
  destruct (ts !! t) as [x|] eqn:Hx.
  - destruct (lookup_lt_is_Some_2 ps t) as [p Hp]; [apply lookup_lt_Some in Hx; lia|]. rewrite Hp.
    assert (Hz : zip ts ps !! t = Some (x, p)) by (by rewrite lookup_zip_with, Hx, Hp).
    destruct (Z.leb_spec T x) as [Hge|Hlt'].
    + destruct (SwapDelete_zip ts ps t Hl) as [Ez El]. destruct (SwapDelete_spec _ _ _ Hz) as (Hperm & Htake & _).
      destruct (SwapDelete_spec _ _ _ Hx) as (_ & _ & Hlen). pose proof (lookup_lt_Some _ _ _ Hx).
      destruct (IH t (SwapDelete ts t) (SwapDelete ps t)) as (ts' & ps' & found & -> & Hl' & Hp' & H1 & H2);
        [done|lia|by rewrite Ez, Htake|].
      exists ts', ps', ((x, p) :: found). split; [done|]. split; [done|].
      split; [by rewrite <- Permutation_middle, Hp', Ez|]. split; [done|by constructor].
    + apply IH; [done|lia|]. rewrite (take_S_r _ _ _ Hz), Forall_app. split; [done|]. by constructor.
  - exists ts, ps, []. rewrite app_nil_r. apply lookup_ge_None in Hx.
    rewrite take_ge in Hlt by (rewrite length_zip_with; lia). done.
Qed.

Lemma collect_iterator_spec since T it : it_ok since it → it_last it ≤ T →
  ∃ it' found, collect_iterator T it = (it', snd <$> found) ∧ it_ok since it' ∧ future since it' = future since it
    ∧ pending it' ++ found ≡ₚ pending it ∧ Forall (λ e : entry, T ≤ fst e) found ∧ Forall (λ e : entry, fst e < T) (pending it')
    ∧ work it' = work it ∧ it_last it' = it_last it ∧ (T = it_last it → it_idPtrs it' = []) .
Proof.
  intros [Hl Hs Hp Hf] HT. unfold collect_iterator.
  destruct (collect_spec T (length (it_timestamps it)) 0 (it_timestamps it) (it_idPtrs it)) as (ts' & ps' & found & -> & Hl' & Hperm & H1 & H2);
    [done|lia|constructor|].
  exists (mkIterator (it_prefix it) (it_cursor it) (it_key it) (it_currIdPtr it) (it_last it) (it_exhausted it) ps' ts'), found.
  assert (Hsub : ∀ e, e ∈ zip ts' ps' → it_last it ≤ fst e).
  { intros e He. apply Hp. unfold pending. rewrite <- Hperm, elem_of_app. auto. }
  split; [done|]. split; [by split|]. split; [done|]. split; [done|]. split; [done|]. split; [done|]. split; [done|]. split; [done|].
  intros ->. simpl. destruct ps' as [|p ps']; [done|]. destruct ts' as [|x ts']; [done|]. simpl in H1, Hsub.
  apply Forall_cons in H1 as [H1 _]. specialize (Hsub (x, p) ltac:(by left)). simpl in *. lia.
Qed.

Record collected (since T : Z) (its its' : list iterator) (found : list entry) : Prop := {
  col_ok : Forall (it_ok since) its';
  col_entries : entries since its' ++ found ≡ₚ entries since its;
  col_found : Forall (λ e : entry, T ≤ fst e) found;
  col_left : Forall (λ e : entry, fst e ≤ T) (entries since its');
  col_work : sum_list_with work its' = sum_list_with work its;
  col_top i it : its !! i = Some it → it_last it = T → ∃ it', its' !! i = Some it' ∧ it_idPtrs it' = [];
}.

Lemma collect_all since T its : Forall (it_ok since) its → Forall (λ it, it_last it ≤ T) its →
  ∃ found, mjoin (snd <$> (collect_iterator T <$> its)) = snd <$> found
    ∧ collected since T its (fst <$> (collect_iterator T <$> its)) found.
Proof.
  induction 1 as [|it its Hit Hits IH]; intros HT.
  { exists []. split; [done|]. by split; try constructor. }
  apply Forall_cons in HT as [HT HTs]. destruct (IH HTs) as (found & E & [C1 C2 C3 C4 C5 C6]).
  destruct (collect_iterator_spec since T it) as (it' & f & Ec & Hok & Hfut & Hperm & Hf & Hp & Hw & Hlast & Htop); [done..|].
  exists (f ++ found). cbn [fmap list_fmap mjoin list_join]. rewrite Ec. cbn [fst snd]. split; [by rewrite fmap_app, <- E|].
  split.
  - by constructor.
  - cbn [entries mbind list_bind]. fold (entries since). unfold entries in *. rewrite Hfut, <- Hperm.
    rewrite <- C2. solve_Permutation.
  - by apply Forall_app.
  - cbn [entries mbind list_bind]. unfold entries in *. rewrite !Forall_app. split; [|done].
    split; [by eapply Forall_impl; [done|]; simpl; lia|]. apply Forall_forall. intros e He.
    assert (fst e ≤ it_last it'); [|lia]. by apply (ok_future _ _ Hok).
  - cbn [sum_list_with]. by rewrite Hw, C5.
  - intros [|i] it0 Hi HTi; simpl in Hi |- *; [|by apply (C6 i it0)]. injection Hi as <-. exists it'. auto.
Qed.

(** ** Pulling more *)

Lemma entries_perm since its its' : its ≡ₚ its' → entries since its ≡ₚ entries since its'.
Proof. intros Hp. unfold entries. by rewrite Hp. Qed.

Lemma sum_work_perm its its' : its ≡ₚ its' → sum_list_with work its = sum_list_with work its'.
Proof. induction 1; simpl; lia. Qed.

Lemma update_entries since its i it it' : its !! i = Some it → pending it' ++ future since it' = pending it ++ future since it →
  entries since (<[i := it']> its) = entries since its.
Proof.
  intros Hi He. unfold entries. apply list_elem_of_split_length in Hi as (l1 & l2 & -> & ->).
  rewrite insert_app_r_alt, Nat.sub_diag by lia. simpl. by rewrite !bind_app, !bind_cons, He.
Qed.

Lemma update_work its i it it' : its !! i = Some it → (work it' < work it)%nat →
  (sum_list_with work (<[i := it']> its) < sum_list_with work its)%nat.
Proof.
  intros Hi Hw. apply list_elem_of_split_length in Hi as (l1 & l2 & -> & ->).
  rewrite insert_app_r_alt, Nat.sub_diag by lia. rewrite !sum_list_with_app. cbn [sum_list_with list_insert insert]. lia.
Qed.

(** An iterator the loop makes progress on. *)
Definition ready (it : iterator) : Prop := it_exhausted it = false ∨ it_idPtrs it = [].

Lemma pull_more_spec npull batch since n : ∀ i its, 1 ≤ batch → Forall (it_ok since) its → (length its ≤ i + n)%nat →
  Forall (it_ok since) (pull_more n npull batch since i its)
  ∧ entries since (pull_more n npull batch since i its) ≡ₚ entries since its
  ∧ (sum_list_with work (pull_more n npull batch since i its) ≤ sum_list_with work its)%nat
  ∧ ((∃ j it, i ≤ j < npull ∧ its !! j = Some it ∧ ready it)%nat →
     (sum_list_with work (pull_more n npull batch since i its) < sum_list_with work its)%nat).
Proof.
  induction n as [|n IH]; intros i its Hb Hok Hn; cbn [pull_more].
  { split_and!; try done. intros (j & it & Hj & Hi & _). apply lookup_lt_Some in Hi. lia. }
  destruct (Nat.ltb_spec i (length its `min` npull)) as [Hi|Hi].
  2: { split_and!; try done. intros (j & it & Hj & Hl & _). apply lookup_lt_Some in Hl. lia. }
  destruct (lookup_lt_is_Some_2 its i) as [it Hit]; [lia|]. rewrite Hit.
  pose proof (Forall_lookup_1 _ _ _ _ Hok Hit) as Hoki. destruct (it_exhausted it) eqn:He; [destruct (it_idPtrs it) as [|p ps] eqn:Hp|].
  - destruct (SwapDelete_spec its i it Hit) as (Hperm & _ & Hlen).
    destruct (IH i (SwapDelete its i)) as (I1 & I2 & I3 & _); [done| |lia|].
    { rewrite <- Hperm in Hok. by apply Forall_cons in Hok as [_ Hok]. }
    assert (Hnil : pending it ++ future since it = []) by (unfold pending, future; rewrite He, Hp; by destruct (it_timestamps it)).
    assert (Hw : sum_list_with work its = (work it + sum_list_with work (SwapDelete its i))%nat) by (by rewrite <- (sum_work_perm _ _ Hperm)).
    assert (1 ≤ work it)%nat by (unfold work; lia).
    split_and!; [done| |lia|lia]. rewrite I2, <- (entries_perm _ _ _ Hperm). unfold entries at 2. by rewrite bind_cons, Hnil.
  - destruct (IH (S i) its) as (I1 & I2 & I3 & I4); [done|done|lia|]. split_and!; [done|done|done|].
    intros (j & it' & Hj & Hl & Hr). apply I4. exists j, it'. destruct (decide (j = i)) as [->|]; [|split; [lia|done]].
    rewrite Hit in Hl. injection Hl as <-. destruct Hr; congruence.
  - destruct (pull_ok since batch it) as (P1 & P2 & P3); [done..|].
    destruct (IH (S i) (<[i := pull batch since it]> its)) as (I1 & I2 & I3 & _);
      [done|by apply Forall_insert|rewrite length_insert; lia|].
    pose proof (update_work its i it _ Hit P2). split_and!; [done| |lia|lia].
    rewrite I2. by erewrite update_entries by done.
Qed.

(** ** The rounds *)

#[export] Instance CompareEventReverse_total : Total CompareEventReverse.
Proof.
  intros a b. unfold CompareEventReverse. destruct (Z.lt_trichotomy (ev_CreatedAt a) (ev_CreatedAt b)) as [|[E|]]; [by auto| |by auto].
  destruct (total bytes_le (ev_ID a) (ev_ID b)); auto.
Qed.

#[export] Instance CompareEventReverse_trans : Transitive CompareEventReverse.
Proof.
  intros a b c. unfold CompareEventReverse. intros [?|[? ?]] [?|[? ?]]; try (left; lia). right. split; [congruence|]. by etrans.
Qed.

Lemma StronglySorted_weaken {A} (R R' : relation A) l : (∀ a b, R a b → R' a b) → StronglySorted R l → StronglySorted R' l.
Proof. intros HR. induction 1 as [|x l _ IH Hx]; constructor; [done|]. eapply Forall_impl; [done|]. auto. Qed.

Lemma sorted_newest l : StronglySorted newest (merge_sort CompareEventReverse l).
Proof.
  eapply StronglySorted_weaken; [|apply (StronglySorted_merge_sort CompareEventReverse)].
  unfold newest, CompareEventReverse. intros a b. lia.
Qed.

Section rounds.
Context (db : EventDB) (pq : Prepared) (look : string → option Event) (npull : nat) (batch since limit : Z).
Hypothesis Hfetch : ∀ p, fetch db pq p = Ok (look p).
Hypothesis Hnpull : (1 ≤ npull)%nat.
Hypothesis Hbatch : 1 ≤ batch.

Lemma fetch_all_ok ps : fetch_all db pq ps = Ok (omap look ps).
Proof. induction ps as [|p ps IH]; [done|]. simpl. rewrite Hfetch, IH. simpl. by destruct (look p). Qed.

(** The events of entries are dated by them. *)
Definition dated (es : list entry) : Prop := ∀ e ev, e ∈ es → look (snd e) = Some ev → ev_CreatedAt ev = fst e.

Lemma dated_bounds es ev : dated es → ev ∈ omap look (snd <$> es) → ∃ e, e ∈ es ∧ ev_CreatedAt ev = fst e.
Proof.
  intros Hd (p & (e & -> & He)%list_elem_of_fmap & Hl)%list_elem_of_omap. exists e. split; [done|]. by apply (Hd e ev).
Qed.

(** What one round does before it pulls. *)
Lemma round_spec its : its ≠ [] → Forall (it_ok since) its →
  let k := Nat.min npull (length its) in
  let its1 := quickselect it_last k its in
  let T := threshold it_last k its1 in
  ∃ found, mjoin (snd <$> (collect_iterator T <$> its1)) = snd <$> found
    ∧ collected since T its1 (fst <$> (collect_iterator T <$> its1)) found ∧ its1 ≡ₚ its
    ∧ ∃ j it, (0 ≤ j < npull)%nat ∧ (fst <$> (collect_iterator T <$> its1)) !! j = Some it ∧ ready it.
Proof.
  intros Hne Hok k its1 T. destruct (quickselect_spec it_last k its) as [Hp Hs]. fold its1 in Hp, Hs.
  assert (Hlen : length its1 = length its) by (by apply Permutation_length).
  assert (0 < length its)%nat by (destruct its; [done|simpl; lia]).
  destruct (threshold_spec it_last k its1) as [Hmax (i & it & Hi & Hit & HT)]; [unfold k; lia|done|]. fold T in Hmax, HT.
  destruct (collect_all since T its1) as (found & E & Hc); [by rewrite Hp|by apply Forall_forall|].
  exists found. split; [done|]. split; [done|]. split; [done|].
  destruct (col_top _ _ _ _ _ Hc i it Hit HT) as (it' & Hit' & Hn). exists i, it'.
  split; [unfold k in Hi; lia|]. split; [done|]. by right.
Qed.

(** The events of a round come before those of the later rounds. *)
Lemma rounds_cross T found rest temp full : dated found → dated rest →
  temp ≡ₚ omap look (snd <$> found) → full ≡ₚ omap look (snd <$> rest) →
  Forall (λ e : entry, T ≤ fst e) found → Forall (λ e : entry, fst e ≤ T) rest →
  StronglySorted newest temp → StronglySorted newest full → StronglySorted newest (temp ++ full).
Proof.
  intros Hd Hd' Ht Hf HT HT' Hs Hs'. apply StronglySorted_app. split; [|done]. intros a b Ha Hb.
  rewrite Ht in Ha. rewrite Hf in Hb. rewrite Forall_forall in HT, HT'. unfold newest.
  destruct (dated_bounds _ _ Hd Ha) as (e & He & ->), (dated_bounds _ _ Hd' Hb) as (e' & He' & ->).
  specialize (HT e He). specialize (HT' e' He'). lia.
Qed.

(** Stopping at the limit, in a round or after it. *)
Lemma take_limit {A} (room : Z) (temp full : list A) :
  (if (0 <? room) && (room <=? Z.of_nat (length temp)) then take (Z.to_nat room) temp
   else temp ++ (if 0 <? room - Z.of_nat (length temp) then take (Z.to_nat (room - Z.of_nat (length temp))) full else full))
  = if 0 <? room then take (Z.to_nat room) (temp ++ full) else temp ++ full.
Proof.
  destruct (Z.ltb_spec 0 room); simpl.
  - destruct (Z.leb_spec room (Z.of_nat (length temp))).
    + by rewrite take_app_le by lia.
    + destruct (Z.ltb_spec 0 (room - Z.of_nat (length temp))); [|lia].
      rewrite take_app_ge by lia. do 2 f_equal. lia.
  - destruct (Z.ltb_spec 0 (room - Z.of_nat (length temp))); [lia|done].
Qed.

Lemma rounds_spec n : ∀ its emitted, Forall (it_ok since) its → (sum_list_with work its ≤ n)%nat → dated (entries since its) →
  ∃ full, full ≡ₚ omap look (snd <$> entries since its) ∧ StronglySorted newest full
    ∧ rounds n db pq npull batch since limit emitted its
      = Ok (if 0 <? limit - emitted then take (Z.to_nat (limit - emitted)) full else full).
Proof.
  induction n as [|n IH]; intros its emitted Hok Hn Hd; (destruct its as [|it0 its0]; [exists []; split; [done|]; split; [constructor|];
    simpl; rewrite take_nil; by destruct (0 <? _)|]); [simpl in Hn; lia|].
  set (its := it0 :: its0) in *. destruct (round_spec its) as (found & E & Hc & Hp & Htop); [done..|].
  change (rounds (S n) db pq npull batch since limit emitted its) with
    (let k := Nat.min npull (length its) in
     let its := quickselect it_last k its in
     let t := threshold it_last k its in
     let its := collect_iterator t <$> its in
     let! tempResults := fetch_all db pq (mjoin (snd <$> its)) in
     let tempResults := merge_sort CompareEventReverse tempResults in
     let its := fst <$> its in
     if (0 <? limit - emitted) && (limit - emitted <=? Z.of_nat (length tempResults))
     then Ok (take (Z.to_nat (limit - emitted)) tempResults)
     else
       let its := pull_more (length its) npull batch since 0 its in
       let! rest := rounds n db pq npull batch since limit (emitted + Z.of_nat (length tempResults)) its in
       Ok (tempResults ++ rest)).
  cbv zeta. rewrite E, fetch_all_ok. cbn [result_bind]. clear E.
  set (T := threshold it_last _ _) in *. set (its2 := fst <$> _) in *. set (its1 := quickselect _ _ _) in *.
  clearbody T its2 its1. destruct Hc as [C1 C2 C3 C4 C5 _].
  destruct (pull_more_spec npull batch since (length its2) 0 its2) as (I1 & I2 & _ & I4); [done|done|lia|].
  set (its3 := pull_more _ _ _ _ _ _) in *. specialize (I4 Htop). rewrite C5, (sum_work_perm _ _ Hp) in I4.
  assert (Hall : entries since its3 ++ found ≡ₚ entries since its) by (by rewrite I2, C2, (entries_perm _ _ _ Hp)).
  assert (Hd3 : dated (entries since its3)) by (intros e ev He; apply Hd; rewrite <- Hall, elem_of_app; auto).
  assert (Hdf : dated found) by (intros e ev He; apply Hd; rewrite <- Hall, elem_of_app; auto).
  set (temp := merge_sort _ _). assert (Htemp : temp ≡ₚ omap look (snd <$> found)) by apply merge_sort_Permutation.
  destruct (IH its3 (emitted + Z.of_nat (length temp))) as (full & F1 & F2 & ->); [done|lia|done|].
  exists (temp ++ full). split; [|split].
  - rewrite F1, Htemp, <- Hall. rewrite fmap_app, omap_app. apply Permutation_app_comm.
  - apply (rounds_cross T found (entries since its3)); [done|done|done|done|done| |apply sorted_newest|done]. by rewrite I2.
  - cbn [result_bind]. rewrite <- take_limit, Z.sub_add_distr. by destruct ((0 <? limit - emitted) && _).
Qed.
End rounds.
