(* ===== verification/EventIndexFacts.v ===== *)
(** * What the index buckets hold

    A key of a bucket is a prefix of the bucket's length, four bytes of time
    and the id pointer.  The entries an iterator yields for a prefix are the
    stored events that have the prefix in the bucket, within the bounds. *)

From Stdlib Require Import ZArith Lia Bool Ascii.
From stdpp Require Import base tactics decidable option list numbers strings gmap sorting.
From S2P Require Import Prelude Bytes Nostr EventID Bolt BoltCoord BetterBinary BetterBinaryFacts Md5 EventStore EventStoreFacts QuickSelect EventQuery EventQueryFacts.

(** ** Keys *)

Lemma split_key_app a ptr : String.length ptr = 8%nat → split_key (a +:+ ptr) = (a, ptr).
Proof.
  intros Hp. unfold split_key. rewrite length_app_string, Hp, Nat.add_sub. by rewrite take_bytes_app, drop_bytes_app.
Qed.

Lemma key_time_app p ts : 0 ≤ ts < two32 → key_time (p +:+ be32 ts) = ts.
Proof.
  intros Ht. unfold key_time, be32. rewrite length_app_string, length_be, Nat.add_sub, drop_bytes_app.
  unfold be_decode. rewrite be_decode_aux_be. rewrite Z.mod_small; [lia|done].
Qed.

Lemma has_prefix_length p p' s : String.length p = String.length p' → has_prefix (p' +:+ s) p = true ↔ p' = p.
Proof.
  intros Hl. rewrite has_prefix_spec. split.
  - intros [t E]. by apply app_string_inj in E as [-> _].
  - intros ->. by exists s.
Qed.

Lemma key_le p x y a b : 0 ≤ x < two32 → 0 ≤ y < two32 →
  bytes_le (p +:+ be32 x +:+ a) (p +:+ be32 y +:+ b) ↔ x < y ∨ x = y ∧ bytes_le a b.
Proof.
  intros Hx Hy. unfold bytes_le, be32. rewrite bytes_leb_app, be_leb by done.
  destruct (Z.ltb_spec x y), (Z.eqb_spec x y); naive_solver lia.
Qed.

Lemma key_le_start p x ptr until : 0 ≤ x < two32 → 0 ≤ until < two32 → ptr ≠ EmptyString →
  bytes_le (p +:+ be32 x +:+ ptr) (p +:+ be32 until) ↔ x < until.
Proof.
  intros Hx Hu Hp. pose proof (key_le p x until ptr EmptyString Hx Hu) as E. rewrite app_string_nil_r in E. rewrite E.
  split; [|auto]. intros [?|[_ Hn]]; [done|]. by destruct ptr.
Qed.

Lemma StronglySorted_reverse {A} (R : relation A) l : StronglySorted R l → StronglySorted (flip R) (reverse l).
Proof.
  induction 1 as [|x l Hl IH Hx]; [constructor|]. rewrite reverse_cons. apply StronglySorted_app.
  split; [|split; [done|repeat constructor]]. intros a b Ha ->%list_elem_of_singleton.
  rewrite elem_of_reverse in Ha. rewrite Forall_forall in Hx. by apply Hx.
Qed.

Lemma take_while_fmap {A B} (g : A → B) (f : B → bool) l : take_while f (g <$> l) = g <$> take_while (λ x, f (g x)) l.
Proof. induction l as [|x l IH]; [done|]. rewrite fmap_cons. cbn [take_while]. destruct (f (g x)); [|done]. by rewrite fmap_cons, IH. Qed.

(** ** Key lengths *)

(** The length of the prefixes of a bucket. *)
Definition prefix_length (b : Bucket) : nat :=
  match b with
  | indexCreatedAt => 0
  | indexKind => 2
  | indexPubkey => 8
  | indexPubkeyKind => 10
  | indexTag => 5
  | indexTag32 => 9
  | indexTagAddr => 41
  end.

Section index.
Context `{StorePrims} `{!StorePrimsLaws}.

Lemma zeros_length n : String.length (zeros n) = n.
Proof. unfold zeros. induction n as [|n IH]; [done|]. simpl. by rewrite IH. Qed.

Lemma copy_fixed_length n s : String.length (copy_fixed n s) = n.
Proof. unfold copy_fixed. rewrite length_app_string, length_take_bytes, zeros_length. lia. Qed.

Lemma xhex_take_length s b : String.length s = 64%nat → xhex_Decode (take_bytes 16 s) = Some b → String.length b = 8%nat.
Proof. intros Hs E. apply xhex_length in E. rewrite length_take_bytes in E. lia. Qed.

Lemma tag_query_length name value b p : String.length name ≠ 0%nat → tag_query name value = (b, p) →
  String.length p = prefix_length b.
Proof.
  intros Hn. unfold tag_query, getTagIndexPrefix.
  assert (Hl : String.length (take_bytes 1 name) = 1%nat) by (rewrite length_take_bytes; lia).
  assert (Hk : ∀ k, String.length (key_prefix k) = (String.length k - 8 - 4)%nat) by (intros k; unfold key_prefix; rewrite length_take_bytes; lia).
  destruct (tag32_key _ value) as [k|] eqn:E32; [|destruct (addr_key _ value) as [k|] eqn:Ea].
  - intros [= <- <-]. unfold tag32_key in E32. destruct (Nat.eqb_spec (String.length value) 64); [|done]. cbn [negb] in E32.
    destruct (xhex_Decode _) as [d|] eqn:Ed; [|done]. apply (inj Some) in E32 as <-. apply xhex_take_length in Ed; [|done].
    rewrite Hk, !length_app_string, Hl, Ed, zeros_length. done.
  - intros [= <- <-]. unfold addr_key in Ea. destruct (split_byte _ _) as [|kind [|pubkey [|d []]]]; try done.
    destruct (Nat.eqb_spec (String.length pubkey) 64); [|done]. cbn [negb] in Ea.
    destruct (xhex_Decode _) as [dec|] eqn:Ed; [|done]. destruct (ParseUint 16 kind); [|done]. apply (inj Some) in Ea as <-.
    apply xhex_take_length in Ed; [|done]. unfold be16. rewrite Hk, !length_app_string, Hl, Ed, copy_fixed_length, zeros_length, length_be. done.
  - intros [= <- <-]. rewrite Hk, length_app_string, Hl, md5_length. done.
Qed.

(** The tags of an event that are indexed. *)
Lemma tag_index_keys_elem evt b k tags : ∀ seen, (b, k) ∈ tag_index_keys evt seen tags →
  ∃ name value rest p, name :: value :: rest ∈ tags ∧ indexable_tag (name :: value :: rest) = true
    ∧ tag_query name value = (b, p) ∧ k = key_of_event evt p.
Proof.
  induction tags as [|tag tags IH]; intros seen; cbn [tag_index_keys]; [by intros ?%elem_of_nil|].
  assert (Hrest : (b, k) ∈ tag_index_keys evt (seen ++ [tag]) tags → ∃ name value rest p, name :: value :: rest ∈ tag :: tags
    ∧ indexable_tag (name :: value :: rest) = true ∧ tag_query name value = (b, p) ∧ k = key_of_event evt p).
  { intros (name & value & rest & p & Hin & Hk)%IH. exists name, value, rest, p. split; [by right|done]. }
  destruct (indexable_tag tag) eqn:Hi; [|done]. cbn [negb]. destruct (existsb _ _); [done|].
  destruct tag as [|name [|value tag]]; [done..|]. destruct (getTagIndexPrefix name value) as [bucket k'] eqn:Eg.
  intros [[= -> ->]|Hk]%elem_of_cons; [|by apply Hrest]. exists name, value, tag, (key_prefix k'). split; [by left|]. split; [done|].
  unfold tag_query. by rewrite Eg.
Qed.

Lemma index_key_elem evt b k : sized_event evt → (b, k) ∈ getIndexKeysForEvent evt →
  ∃ p, k = key_of_event evt p ∧ String.length p = prefix_length b.
Proof.
  intros [_ Hp _]. assert (H8 : String.length (take_bytes 8 (ev_PubKey evt)) = 8%nat) by (rewrite length_take_bytes; lia).
  unfold getIndexKeysForEvent. rewrite !elem_of_app, !elem_of_cons, !elem_of_nil. intros Hk. destruct_or! Hk; simplify_eq; try done.
  - by eexists.
  - eexists. split; [done|]. apply length_be.
  - eexists. split; [done|]. rewrite length_app_string, H8. unfold be16. by rewrite length_be.
  - apply tag_index_keys_elem in Hk as (name & value & rest & p & _ & Hi & Hq & ->). exists p. split; [done|].
    apply (tag_query_length name value); [|done]. unfold indexable_tag in Hi. intros Hz. by rewrite Hz in Hi.
  - by eexists.
Qed.

(** ** The events of a prefix *)

Definition events (m : gmap string Event) : list Event := snd <$> map_to_list m.

(** [e] has the prefix [p] in bucket [b] and is dated within the bounds. *)
Definition match_query (since until : Z) (q : Bucket * string) (e : Event) : Prop :=
  (fst q, key_of_event e (snd q)) ∈ getIndexKeysForEvent e ∧ since ≤ ev_CreatedAt e < until.

#[export] Instance match_query_dec since until q e : Decision (match_query since until q e).
Proof. unfold match_query. apply _. Defined.

Lemma elem_of_bucket_index db b k : k ∈ bucket_index db b ↔ (b, k) ∈ indexes db.
Proof.
  unfold bucket_index. rewrite elem_of_map. split.
  - intros ([b' k'] & -> & [Hb Hk]%elem_of_filter). simpl in *. by subst.
  - intros Hk. exists (b, k). split; [done|]. by apply elem_of_filter.
Qed.

Context (db : EventDB) (m : gmap string Event).
Hypothesis Hrep : represents db m.

Lemma elem_of_events e : e ∈ events m ↔ m !! idPtr (ev_ID e) = Some e.
Proof.
  unfold events. rewrite list_elem_of_fmap. split.
  - intros ([p e'] & -> & Hp%elem_of_map_to_list). simpl. by destruct (rep_event _ _ Hrep p e' Hp) as [_ ->].
  - intros He. exists (idPtr (ev_ID e), e). split; [done|]. by apply elem_of_map_to_list.
Qed.

Lemma events_ptr_inj e e' : e ∈ events m → e' ∈ events m → idPtr (ev_ID e) = idPtr (ev_ID e') → e = e'.
Proof. intros He%elem_of_events He'%elem_of_events E. congruence. Qed.

Lemma NoDup_events : NoDup (events m).
Proof.
  unfold events. apply NoDup_fmap_2_strong; [|apply NoDup_map_to_list].
  intros [p e] [p' e'] Hp%elem_of_map_to_list Hp'%elem_of_map_to_list E. simpl in E. subst.
  destruct (rep_event _ _ Hrep p e' Hp) as [_ <-]. by destruct (rep_event _ _ Hrep p' e' Hp') as [_ <-].
Qed.

(** The fields of a stored event as the keys have them. *)
Lemma stored_fields e : e ∈ events m → sized_event e ∧ 0 ≤ ev_CreatedAt e < two32 ∧ String.length (idPtr (ev_ID e)) = 8%nat.
Proof.
  intros He%elem_of_events. destruct (rep_event _ _ Hrep _ _ He) as [[Hs _ Hc Hf _] _]. split; [done|].
  unfold fits in Hf. rewrite !andb_true_iff, !Z.leb_le in Hf. unfold MaxCreatedAt, two32 in *.
  split; [lia|]. apply idPtr_length, Hs.
Qed.

Lemma bucket_key b k : k ∈ bucket_index db b ↔
  ∃ e p, e ∈ events m ∧ String.length p = prefix_length b ∧ k = key_of_event e p ∧ (b, k) ∈ getIndexKeysForEvent e.
Proof.
  rewrite elem_of_bucket_index, (rep_index _ _ Hrep). split.
  - intros (ptr & e & Hp & Hk). destruct (rep_event _ _ Hrep _ _ Hp) as [Hs <-].
    destruct (index_key_elem e b k) as (p & -> & Hl); [apply Hs|done|]. exists e, p. by rewrite elem_of_events.
  - intros (e & p & He%elem_of_events & _ & _ & Hk). eauto.
Qed.

Lemma split_event_key e p : e ∈ events m → split_key (key_of_event e p) = (p +:+ be32 (ev_CreatedAt e), idPtr (ev_ID e)).
Proof. intros He. unfold key_of_event. rewrite app_string_assoc. apply split_key_app. by apply stored_fields. Qed.

Lemma wanted_key since p p' e : e ∈ events m → String.length p = String.length p' →
  wanted since p (split_key (key_of_event e p')) = true ↔ p' = p ∧ since ≤ ev_CreatedAt e.
Proof.
  intros He Hl. rewrite split_event_key by done. unfold wanted. simpl.
  rewrite key_time_app, andb_true_iff, has_prefix_length, negb_true_iff, Z.ltb_ge by (done || by apply stored_fields). done.
Qed.

(** ** The entries of an iterator *)

Section iterator.
Context (b : Bucket) (p : string) (since until : Z).
Hypothesis Hlen : String.length p = prefix_length b.
Hypothesis Huntil : 0 ≤ until < two32.

Definition cursor_keys : list string := seek_back (p +:+ be32 until) (index_keys (bucket_index db b)).

Definition wanted_keys : list string := filter (λ k, wanted since p (split_key k)) cursor_keys.

Lemma cursor_keys_sorted : StronglySorted (flip bytes_le) cursor_keys.
Proof. apply StronglySorted_reverse, StronglySorted_filter, index_keys_sorted. Qed.

Lemma elem_of_cursor_keys k : k ∈ cursor_keys ↔ bytes_le k (p +:+ be32 until) ∧ k ∈ bucket_index db b.
Proof. unfold cursor_keys, seek_back. by rewrite elem_of_reverse, list_elem_of_filter, elem_of_index_keys. Qed.

(** Going back from the starting point, the keys with the prefix come first. *)
Lemma wanted_before k k' : k ∈ cursor_keys → k' ∈ cursor_keys → bytes_le k' k →
  wanted since p (split_key k') = true → wanted since p (split_key k) = true.
Proof.
  intros [Hs (e & p1 & He & Hl1 & -> & _)%bucket_key]%elem_of_cursor_keys [_ (e' & p2 & He' & Hl2 & -> & _)%bucket_key]%elem_of_cursor_keys Hle.
  rewrite !wanted_key by (done || congruence). intros [-> Hsince].
  assert (p1 = p) as ->.
  { apply (has_prefix_length p p1 (be32 (ev_CreatedAt e) +:+ idPtr (ev_ID e))); [congruence|].
    apply (prefix_convex p _ (p +:+ be32 until)); [|done|apply has_prefix_app].
    trans (key_of_event e' p); [apply bytes_le_prefix|done]. }
  split; [done|]. apply key_le in Hle; [lia|by apply stored_fields..].
Qed.

Lemma take_wanted : take_while (wanted since p) (split_key <$> cursor_keys) = split_key <$> wanted_keys.
Proof.
  rewrite take_while_fmap. f_equal. apply (take_while_filter (flip bytes_le)); [apply cursor_keys_sorted|].
  intros k k' Hk Hk' Hle. by apply wanted_before.
Qed.

Lemma elem_of_wanted_keys k : k ∈ wanted_keys ↔
  ∃ e, e ∈ events m ∧ match_query since until (b, p) e ∧ k = key_of_event e p.
Proof.
  unfold wanted_keys. rewrite list_elem_of_filter, Is_true_true, elem_of_cursor_keys, bucket_key. unfold match_query. simpl. split.
  - intros (Hw & Hs & e & p' & He & Hl & -> & Hk). apply wanted_key in Hw as [-> Hsince]; [|done|congruence].
    exists e. split; [done|]. split; [|done]. split; [done|]. split; [done|].
    destruct (stored_fields e He) as (_ & Ht & Hp). apply key_le_start in Hs; [done..|]. by intros E; rewrite E in Hp.
  - intros (e & He & (Hk & Hsince & Hu) & ->). destruct (stored_fields e He) as (_ & Ht & Hp). split; [by apply wanted_key|].
    split; [|by exists e, p]. apply key_le_start; [done..| |done]. by intros E; rewrite E in Hp.
Qed.

Lemma wanted_keys_perm : wanted_keys ≡ₚ (λ e, key_of_event e p) <$> filter (match_query since until (b, p)) (events m).
Proof.
  apply NoDup_Permutation.
  - apply NoDup_filter. unfold cursor_keys, seek_back. rewrite reverse_Permutation. apply NoDup_filter, NoDup_index_keys.
  - apply NoDup_fmap_2_strong; [|apply NoDup_filter, NoDup_events].
    intros e e' [_ He]%list_elem_of_filter [_ He']%list_elem_of_filter E. apply events_ptr_inj; [done..|].
    apply (f_equal split_key) in E. rewrite !split_event_key in E by done. congruence.
  - intros k. rewrite elem_of_wanted_keys, list_elem_of_fmap. setoid_rewrite list_elem_of_filter. naive_solver.
Qed.

End iterator.

End index.
