(* ===== verification/EventQueryPlan.v ===== *)
(** * From filters to events

    What the planned queries of a filter find: the run of a query is the
    newest of the stored events that have one of the planned prefixes and pass
    the extra checks, and no event that matches the filter is missed. *)

From Stdlib Require Import ZArith Lia Bool Ascii.
From stdpp Require Import base tactics decidable option list numbers strings gmap sorting.
From S2P Require Import Prelude Bytes Nostr EventID Bolt BoltCoord BetterBinary BetterBinaryFacts Md5 EventStore EventStoreFacts QuickSelect EventQuery EventQueryFacts EventIndexFacts.

(** The checks on a fetched event. *)
Definition extra_ok (pq : Prepared) (e : Event) : bool :=
  in_some (pq_extraAuthors pq) (ev_PubKey e) && in_some (pq_extraKinds pq) (ev_Kind e)
  && match pq_extraTagValues pq with
     | Some values => ContainsAny (ev_Tags e) (pq_extraTagKey pq) values
     | None => true
     end.

Section run.
Context `{StorePrims} `{!StorePrimsLaws} `{QueryEnv} `{!QueryEnvLaws}.
Context (db : EventDB) (m : gmap string Event).
Hypothesis Hrep : represents db m.

(** ** Fetching *)

Definition look (pq : Prepared) (p : string) : option Event :=
  match m !! p with
  | Some e => if extra_ok pq e then Some e else None
  | None => None
  end.

Lemma fetch_look pq p : fetch db pq p = Ok (look pq p).
Proof.
  unfold fetch, look. rewrite (represents_lookup db m) by done. destruct (m !! p) as [e|] eqn:Hp; simpl; [|done].
  destruct (rep_event _ _ Hrep _ _ Hp) as [Hs _]. destruct (encode_reads e Hs) as (Hk & _ & _ & Hpk).
  rewrite Hk, Hpk. unfold extra_ok, in_extra, in_some.
  destruct (pq_extraAuthors pq) as [la|]; simpl; [destruct (bool_decide _); [simpl|done]|];
    (destruct (pq_extraKinds pq) as [lk|]; simpl; [destruct (bool_decide _); [simpl|done]|]);
    rewrite Unmarshal_encode by done; destruct (pq_extraTagValues pq); try done; by destruct (ContainsAny _ _ _).
Qed.

(** ** Opening the iterators *)

Definition query_entries (since until : Z) (q : Bucket * string) : list entry :=
  entry_of <$> (split_key <$> wanted_keys db (fst q) (snd q) since until).

Lemma opened since until q : String.length (snd q) = prefix_length (fst q) →
  match open_iterator db (with_start until q) with
  | Some it => pending it = [] ∧ it_exhausted it = false ∧ length (it_timestamps it) = length (it_idPtrs it)
      ∧ future since it = query_entries since until q
  | None => query_entries since until q = []
  end.
Proof.
  intros Hl. destruct q as [b p]. unfold open_iterator, query_entries. simpl in *.
  pose proof (take_wanted db m Hrep b p since until Hl) as Ht. unfold wanted_keys in *.
  fold (cursor_keys db b p until) in *. change (seek_back _ _) with (cursor_keys db b p until).
  destruct (cursor_keys db b p until) as [|k cursor]; [done|]. simpl. split_and!; [done..|].
  unfold future. simpl. f_equal. etrans; [|exact Ht]. reflexivity.
Qed.

Section bounds.
Context (since until : Z).
Hypothesis Huntil : 0 ≤ until < two32.

Lemma elem_of_query_entries q en : String.length (snd q) = prefix_length (fst q) →
  en ∈ query_entries since until q ↔
  ∃ e, e ∈ events m ∧ match_query since until q e ∧ en = (ev_CreatedAt e, idPtr (ev_ID e)).
Proof.
  intros Hl. destruct q as [b p]. unfold query_entries. simpl in Hl |- *. split.
  - intros (kp & -> & (k & -> & Hk)%list_elem_of_fmap)%list_elem_of_fmap.
    apply (elem_of_wanted_keys db m Hrep b p since until Hl Huntil) in Hk as (e & He & Hm & ->). exists e. split; [done|]. split; [done|].
    rewrite (split_event_key db m Hrep) by done. unfold entry_of. simpl. f_equal. apply key_time_app.
    by apply (stored_fields db m Hrep).
  - intros (e & He & Hm & ->). apply list_elem_of_fmap. exists (split_key (key_of_event e p)). split.
    2: { apply list_elem_of_fmap_2. apply (elem_of_wanted_keys db m Hrep b p since until Hl Huntil). eauto. }
    rewrite (split_event_key db m Hrep) by done. unfold entry_of. simpl. f_equal. symmetry. apply key_time_app.
    by apply (stored_fields db m Hrep).
Qed.

Lemma query_entries_dated pq q : String.length (snd q) = prefix_length (fst q) → dated (look pq) (query_entries since until q).
Proof.
  intros Hl en ev (e & He & _ & ->)%elem_of_query_entries; [|done]. simpl. unfold look.
  rewrite (proj1 (elem_of_events db m Hrep e) He). destruct (extra_ok pq e); congruence.
Qed.

(** The keys of a prefix are read latest first. *)
Lemma query_entries_sorted q : String.length (snd q) = prefix_length (fst q) → StronglySorted later (query_entries since until q).
Proof.
  intros Hl. destruct q as [b p]. unfold query_entries. rewrite <- list_fmap_compose. simpl in Hl |- *.
  assert (StronglySorted (flip bytes_le) (wanted_keys db b p since until)) as Hs.
  { apply StronglySorted_filter, cursor_keys_sorted. }
  assert (Hall : ∀ k, k ∈ wanted_keys db b p since until → ∃ e, e ∈ events m ∧ k = key_of_event e p).
  { intros k (e & He & _ & ->)%(elem_of_wanted_keys db m Hrep); [|done..]. eauto. }
  induction Hs as [|k ks Hs IH Hk]; [constructor|]. rewrite fmap_cons. constructor; [apply IH; intros; apply Hall; by right|].
  apply Forall_fmap, Forall_forall. intros k' Hk'. rewrite Forall_forall in Hk. specialize (Hk k' Hk'). simpl in Hk.
  destruct (Hall k) as (e & He & ->); [by left|]. destruct (Hall k') as (e' & He' & ->); [by right|].
  unfold later, compose. rewrite !(split_event_key db m Hrep) by done. unfold entry_of. simpl.
  pose proof (stored_fields db m Hrep e He) as (_ & Ht & _). pose proof (stored_fields db m Hrep e' He') as (_ & Ht' & _).
  rewrite !key_time_app by done. apply key_le in Hk; [lia|done..].
Qed.

(** The events behind the entries of one query. *)
Lemma omap_look pq (l : list Event) : (∀ e, e ∈ l → e ∈ events m) →
  omap (look pq) ((λ e, idPtr (ev_ID e)) <$> l) = filter (λ e, extra_ok pq e) l.
Proof.
  induction l as [|e l IH]; intros Hl; [done|]. rewrite fmap_cons. cbn [omap list_omap]. unfold look at 1.
  rewrite (proj1 (elem_of_events db m Hrep e)) by (apply Hl; by left). rewrite filter_cons.
  rewrite <- IH by (intros; apply Hl; by right). destruct (extra_ok pq e); [rewrite decide_True by done|rewrite decide_False by auto]; done.
Qed.

Lemma query_entries_events pq q : String.length (snd q) = prefix_length (fst q) →
  omap (look pq) (snd <$> query_entries since until q)
  ≡ₚ filter (λ e, extra_ok pq e ∧ match_query since until q e) (events m).
Proof.
  intros Hl. destruct q as [b p]. unfold query_entries. simpl in Hl |- *. rewrite <- list_filter_filter.
  rewrite <- omap_look by (by intros e [_ He]%list_elem_of_filter).
  rewrite (wanted_keys_perm db m Hrep) by done. rewrite <- !list_fmap_compose.
  erewrite list_fmap_ext; [done|]. intros i e [_ He]%list_elem_of_lookup_2%list_elem_of_filter.
  unfold compose. by rewrite (split_event_key db m Hrep).
Qed.

Definition wf_query (q : Bucket * string) : Prop := String.length (snd q) = prefix_length (fst q).

Lemma initial_iterators batch qs : Forall wf_query qs → 1 ≤ batch →
  Forall (it_ok since) (pull batch since <$> omap (open_iterator db) (with_start until <$> qs))
  ∧ entries since (pull batch since <$> omap (open_iterator db) (with_start until <$> qs)) = (q ← qs; query_entries since until q).
Proof.
  intros Hqs Hb. induction Hqs as [|q qs Hq Hqs [IH1 IH2]]; [split; [constructor|done]|].
  rewrite fmap_cons, bind_cons. cbn [omap list_omap]. pose proof (opened since until q Hq) as Ho.
  destruct (open_iterator db (with_start until q)) as [it|]; [|by rewrite Ho].
  destruct Ho as (Hp & He & Hl & Hf). rewrite fmap_cons. destruct (pull_spec since batch it He Hl) as [got Hgot].
  split.
  - constructor; [|done]. apply (pulled_ok _ _ _ _ _ Hgot); [done|rewrite Hf; by apply query_entries_sorted|by left].
  - unfold entries in *. rewrite bind_cons, IH2. f_equal. destruct Hgot as [G1 G2 _ _ _ _ _]. by rewrite G2, Hp, <- Hf, G1.
Qed.

Lemma entries_events pq qs : Forall wf_query qs →
  omap (look pq) (snd <$> (q ← qs; query_entries since until q))
  ≡ₚ (q ← qs; filter (λ e, extra_ok pq e ∧ match_query since until q e) (events m)).
Proof.
  induction 1 as [|q qs Hq _ IH]; [done|]. rewrite !bind_cons, fmap_app, omap_app, IH. f_equiv. by apply query_entries_events.
Qed.

Lemma entries_dated pq qs : Forall wf_query qs → dated (look pq) (q ← qs; query_entries since until q).
Proof.
  intros Hqs en ev (q & Hin & Hq)%list_elem_of_bind. rewrite Forall_forall in Hqs.
  apply (query_entries_dated pq q); [by apply Hqs|done].
Qed.

End bounds.

(** ** The planner *)

Record wf_filter (filter : Filter) : Prop := {
  wf_authors : Forall (λ pk, String.length pk = 32%nat) (default [] (fi_Authors filter));
  wf_tagnames : map_Forall (λ name _, String.length name ≠ 0%nat) (fi_Tags filter);
}.

Lemma query_until_bound filter : 0 ≤ query_until filter < two32.
Proof.
  unfold query_until, to_u32, two32. destruct (negb _); [|lia]. pose proof (Z.mod_pos_bound (fi_Until filter) 4294967296 ltac:(lia)).
  destruct (Z.ltb_spec (fi_Until filter mod 4294967296) 4294967295); lia.
Qed.

Lemma narrow_step_elem authors acc kv : narrow_step authors acc kv = acc ∨ ∃ g, narrow_step authors acc kv = (fst kv, Some (snd kv), g).
Proof.
  destruct acc as [[k v] g], kv as [key values]. unfold narrow_step. simpl.
  repeat match goal with |- context [if ?c then _ else _] => destruct c end; eauto.
Qed.

(** The tag chosen is one of the filter. *)
Lemma ChooseNarrowestTag_elem site tags authors k v g : ChooseNarrowestTag site tags authors = (k, Some v, g) → tags !! k = Some v.
Proof.
  unfold ChooseNarrowestTag. assert (Hv : ∀ kv, kv ∈ visit site tags → tags !! fst kv = Some (snd kv)).
  { intros [k' v'] Hin. rewrite visit_perm in Hin. by apply elem_of_map_to_list in Hin. }
  assert (Hacc : ∀ l acc, (∀ kv, kv ∈ l → tags !! fst kv = Some (snd kv)) →
    (∀ k v g, acc = (k, Some v, g) → tags !! k = Some v) → ∀ k v g, foldl (narrow_step authors) acc l = (k, Some v, g) → tags !! k = Some v).
  { clear Hv. induction l as [|kv l IH]; intros acc Hl Ha k' v' g'; simpl; [apply Ha|]. apply IH; [intros; apply Hl; by right|].
    intros k1 v1 g1. destruct (narrow_step_elem authors acc kv) as [->|[g2 ->]]; [apply Ha|].
    intros [= <- <- <-]. apply Hl. by left. }
  by apply Hacc.
Qed.

Lemma tag_query_wf name value : String.length name ≠ 0%nat → wf_query (tag_query name value).
Proof. intros Hn. destruct (tag_query name value) as [b p] eqn:E. by apply (tag_query_length name value). Qed.

Lemma pubkey_plan_wf filter : wf_filter filter → Forall wf_query (pq_queries (pubkey_plan filter)).
Proof.
  intros [Ha _]. unfold pubkey_plan. destruct (ChooseNarrowestTag _ _ _) as [[k v] g].
  assert (H8 : ∀ pk, pk ∈ default [] (fi_Authors filter) → String.length (pubkey_prefix pk) = 8%nat).
  { intros pk Hpk. rewrite Forall_forall in Ha. unfold pubkey_prefix. rewrite length_take_bytes, Ha by done. done. }
  destruct (fi_Authors filter) as [[|pk0 pks]|], (fi_Kinds filter) as [[|k0 ks]|]; cbn [pq_queries]; simpl in H8;
    try (by repeat constructor).
  all: apply Forall_forall; intros q Hq.
  all: try (apply list_elem_of_bind in Hq as (pk & (k' & ->%list_elem_of_singleton & _)%list_elem_of_bind & Hpk));
    try (apply list_elem_of_fmap in Hq as (pk & -> & Hpk)).
  all: unfold wf_query; simpl; rewrite ?length_app_string, ?H8 by done; done.
Qed.

Lemma tag_plan_queries filter k v : pq_queries (tag_plan filter k v) = tag_query k <$> v.
Proof. unfold tag_plan. by destruct (if Nat.ltb _ _ then _ else _) as [[? ?] ?]. Qed.

Lemma prepareQueries_wf filter : wf_filter filter → Forall wf_query (pq_queries (prepareQueries filter)).
Proof.
  intros Hf. unfold prepareQueries. destruct (Nat.ltb _ _); [|by apply pubkey_plan_wf].
  destruct (ChooseNarrowestTag _ _ _) as [[k v] g] eqn:Ec. destruct ((g <? 2) && _); [by apply pubkey_plan_wf|].
  rewrite tag_plan_queries. destruct v as [v|]; [|constructor].
  apply ChooseNarrowestTag_elem in Ec. apply Forall_fmap, Forall_forall. intros value _. apply tag_query_wf.
  by apply (wf_tagnames _ Hf k v).
Qed.

Lemma BatchSize_pos limit n : 1 ≤ limit → 1 ≤ BatchSizePerNumberOfQueries limit n.
Proof. intros Hl. unfold BatchSizePerNumberOfQueries. destruct ((n =? 1) || _); lia. Qed.

(** The stored events the queries of [filter] find. *)
Definition found (filter : Filter) : list Event :=
  let pq := prepareQueries filter in
  q ← pq_queries pq; base.filter (λ e, extra_ok pq e ∧ match_query (query_since filter) (query_until filter) q e) (events m).

Lemma query_run_spec filter limit : wf_filter filter → 1 ≤ limit →
  ∃ full, query_run db filter limit = Ok (take (Z.to_nat limit) full) ∧ full ≡ₚ found filter ∧ StronglySorted newest full.
Proof.
  intros Hf Hl. unfold query_run, found. set (pq := prepareQueries filter). set (since := query_since filter).
  set (until := query_until filter). rewrite length_fmap.
  assert (Hqs : Forall wf_query (pq_queries pq)) by (by apply prepareQueries_wf).
  pose proof (query_until_bound filter) as Hu. fold until in Hu.
  set (batch := BatchSizePerNumberOfQueries limit _). assert (Hb : 1 ≤ batch) by (by apply BatchSize_pos).
  destruct (initial_iterators since until Hu batch (pq_queries pq) Hqs Hb) as [Hok Hen].
  set (its := pull batch since <$> _) in *. set (npull := Nat.max 1 _).
  destruct (rounds_spec db pq (look pq) npull batch since limit (fetch_look pq) ltac:(unfold npull; lia) Hb
    (S (sum_list_with work its)) its 0 Hok ltac:(lia)) as (full & F1 & F2 & F3).
  { rewrite Hen. by apply entries_dated. }
  rewrite Hen, entries_events in F1 by done. exists full. split; [|done]. etrans; [exact F3|].
  rewrite Z.sub_0_r. destruct (Z.ltb_spec 0 limit); [done|lia].
Qed.

(** ** Completeness *)

Lemma same_tag_spec tag t : same_tag tag t = true →
  ∃ name value r r', tag = name :: value :: r ∧ t = name :: value :: r'.
Proof.
  destruct tag as [|n [|v r]], t as [|n' [|v' r']]; try done. unfold same_tag.
  rewrite andb_true_iff, !String.eqb_eq. intros [-> ->]. eauto 6.
Qed.

Lemma indexed_tag evt name value r tags : ∀ seen, name :: value :: r ∈ tags → indexable_tag (name :: value :: r) = true →
  (fst (tag_query name value), key_of_event evt (snd (tag_query name value))) ∈ tag_index_keys evt seen tags
  ∨ existsb (same_tag (name :: value :: r)) seen = true.
Proof.
  induction tags as [|h tags IH]; intros seen Hin Hi; [by apply elem_of_nil in Hin|]. cbn [tag_index_keys].
  assert (Hhead : ∀ r', h = name :: value :: r' →
    (fst (tag_query name value), key_of_event evt (snd (tag_query name value))) ∈ tag_index_keys evt seen (h :: tags)
    ∨ existsb (same_tag (name :: value :: r)) seen = true).
  { intros r' ->. cbn [tag_index_keys]. change (indexable_tag (name :: value :: r')) with (indexable_tag (name :: value :: r)).
    rewrite Hi. cbn [negb]. change (same_tag (name :: value :: r')) with (same_tag (name :: value :: r)).
    destruct (existsb _ seen); [by right|]. left. unfold tag_query. destruct (getTagIndexPrefix name value). by left. }
  apply elem_of_cons in Hin as [<-|Hin]; [by apply (Hhead r)|].
  destruct (IH (seen ++ [h]) Hin Hi) as [Hk|Hs].
  - left. destruct (negb (indexable_tag h)); [exact Hk|]. destruct (existsb (same_tag h) seen); [exact Hk|].
    destruct h as [|n [|v h]]; [exact Hk..|].
    destruct (getTagIndexPrefix n v). by right.
  - rewrite existsb_app, orb_true_iff in Hs. destruct Hs as [Hs|Hs]; [by right|]. cbn [existsb] in Hs. rewrite orb_false_r in Hs.
    apply same_tag_spec in Hs as (n & v & r1 & r2 & [= <- <- <-] & Eh). by apply (Hhead r2).
Qed.

Lemma tag_match evt name value r : name :: value :: r ∈ ev_Tags evt → indexable_tag (name :: value :: r) = true →
  (fst (tag_query name value), key_of_event evt (snd (tag_query name value))) ∈ getIndexKeysForEvent evt.
Proof.
  intros Hin Hi. unfold getIndexKeysForEvent. rewrite !elem_of_app. right. left.
  by destruct (indexed_tag evt name value r (ev_Tags evt) [] Hin Hi).
Qed.

Lemma ContainsAny_elem tags name values : ContainsAny tags name values = true →
  ∃ value r, name :: value :: r ∈ tags ∧ value ∈ values.
Proof.
  unfold ContainsAny. rewrite existsb_exists. intros (tag & Hin & Hv). apply list_elem_of_In in Hin.
  destruct tag as [|n [|v r]]; [done..|]. apply andb_true_iff in Hv as [->%String.eqb_eq Hv%bool_decide_eq_true]. eauto.
Qed.

(** A tag is chosen when there is one. *)
Lemma ChooseNarrowestTag_some site tags authors : tags ≠ ∅ → ∃ k v g, ChooseNarrowestTag site tags authors = (k, Some v, g).
Proof.
  intros Hne. unfold ChooseNarrowestTag. assert (Hl : visit site tags ≠ []).
  { intros E. apply Hne. apply map_to_list_empty_iff. apply Permutation_nil_r. by rewrite <- visit_perm, E. }
  assert (Hkeep : ∀ l acc, (∃ k v g, acc = (k, Some v, g)) → ∃ k v g, foldl (narrow_step authors) acc l = (k, Some v, g)).
  { induction l as [|kv l IH]; intros acc Ha; [done|]. apply IH. destruct (narrow_step_elem authors acc kv) as [->|[g ->]]; eauto. }
  destruct (visit site tags) as [|[key values] l]; [done|]. cbn [foldl]. apply (Hkeep l). unfold narrow_step.
  repeat match goal with |- context [if ?c then _ else _] => destruct c eqn:?; try discriminate end; eauto.
Qed.

(** A filter the index can answer: one-letter tag names, values that are
    indexed, and times of 32 bits. *)
Record indexed_filter (filter : Filter) : Prop := {
  if_wf : wf_filter filter;
  if_tags : map_Forall (λ name values, Forall (λ value, indexable_tag [name; value] = true) values) (fi_Tags filter);
  if_since : 0 ≤ fi_Since filter < two32;
  if_until : 0 ≤ fi_Until filter < two32;
}.

Lemma time_bounds filter e : indexed_filter filter → 0 ≤ ev_CreatedAt e < 4294967295 → Matches filter e = true →
  query_since filter ≤ ev_CreatedAt e < query_until filter.
Proof.
  intros [_ _ Hs Hu] He Hm. unfold Matches in Hm. rewrite !andb_true_iff, !negb_true_iff, !andb_false_iff, !negb_false_iff in Hm.
  destruct Hm as [[_ Hms] Hmu]. unfold query_since, query_until, to_u32. rewrite !Z.mod_small by done.
  rewrite !Z.eqb_eq, !Z.ltb_ge in *.
  destruct (Z.eqb_spec (fi_Since filter) 0), (Z.eqb_spec (fi_Until filter) 0); simpl;
    destruct (Z.ltb_spec 0 (fi_Since filter)), (Z.ltb_spec (fi_Until filter) 4294967295); lia.
Qed.

(** What [Matches] says of the lists and tags of a filter. *)
Lemma Matches_fields filter e : Matches filter e = true →
  in_some (fi_Kinds filter) (ev_Kind e) = true ∧ in_some (fi_Authors filter) (ev_PubKey e) = true
  ∧ ∀ k v, fi_Tags filter !! k = Some v → ContainsAny (ev_Tags e) k v = true.
Proof.
  unfold Matches, MatchesIgnoringTimestampConstraints. rewrite !andb_true_iff. intros [[[[[_ Hk] Ha] Ht] _] _]. split_and!; [done..|].
  intros k v Hkv. rewrite forallb_forall in Ht. apply (Ht (k, v)), list_elem_of_In, elem_of_map_to_list, Hkv.
Qed.

(** A tag chosen from some of the filter's tags is one of the event. *)
Lemma extra_tag_ok filter tags e site authors k v g : Matches filter e = true → tags ⊆ fi_Tags filter →
  ChooseNarrowestTag site tags authors = (k, v, g) →
  match v with Some values => ContainsAny (ev_Tags e) k values | None => true end = true.
Proof.
  intros Hm Hsub Hc. destruct v as [v|]; [|done]. apply ChooseNarrowestTag_elem in Hc.
  apply (Matches_fields _ _ Hm). by eapply lookup_weaken.
Qed.

Lemma pubkey_plan_complete filter e : indexed_filter filter → Matches filter e = true →
  extra_ok (pubkey_plan filter) e = true
  ∧ ∃ q, q ∈ pq_queries (pubkey_plan filter) ∧ (fst q, key_of_event e (snd q)) ∈ getIndexKeysForEvent e.
Proof.
  intros Hf Hm. destruct (Matches_fields _ _ Hm) as (Hk & Ha & _). unfold pubkey_plan.
  destruct (ChooseNarrowestTag 2 _ _) as [[k v] g] eqn:Ec. pose proof (extra_tag_ok _ _ _ _ _ _ _ _ Hm (reflexivity _) Ec) as Hx.
  assert (Hkeys : ∀ b p, (b, key_of_event e p) ∈ [ (indexPubkey, key_of_event e (take_bytes 8 (ev_PubKey e)));
      (indexKind, key_of_event e (be16 (ev_Kind e)));
      (indexPubkeyKind, key_of_event e (take_bytes 8 (ev_PubKey e) +:+ be16 (ev_Kind e))) ]
    ∨ (b, key_of_event e p) = (indexCreatedAt, key_of_event e EmptyString) → (b, key_of_event e p) ∈ getIndexKeysForEvent e).
  { intros b p Hp. unfold getIndexKeysForEvent. rewrite !elem_of_app. destruct Hp as [Hp| ->]; [by left|]. right. right. by left. }
  unfold in_some in Hk, Ha.
  destruct (fi_Authors filter) as [[|pk0 pks]|], (fi_Kinds filter) as [[|k0 ks]|]; cbn [pq_queries extra_ok] in *;
    rewrite ?bool_decide_eq_true in *;
    try (by apply elem_of_nil in Ha); try (by apply elem_of_nil in Hk); (split; [done|]).
  - exists (indexPubkeyKind, pubkey_prefix (ev_PubKey e) +:+ be16 (ev_Kind e)). split; [|apply Hkeys; left; by do 2 right; left].
    apply list_elem_of_bind. exists (ev_PubKey e). split; [|done]. apply list_elem_of_bind. exists (ev_Kind e). split; [by left|done].
  - exists (indexPubkey, pubkey_prefix (ev_PubKey e)). split; [|apply Hkeys; left; by left]. apply (list_elem_of_fmap_2 (λ pk, (indexPubkey, pubkey_prefix pk))). done.
  - exists (indexKind, be16 (ev_Kind e)). split; [|apply Hkeys; left; right; by left]. apply (list_elem_of_fmap_2 (λ kind, (indexKind, be16 kind))). done.
  - exists (indexCreatedAt, EmptyString). split; [by left|]. apply Hkeys. by right.
Qed.

Lemma tag_plan_complete filter e k v : indexed_filter filter → Matches filter e = true → fi_Tags filter !! k = Some v →
  extra_ok (tag_plan filter k v) e = true
  ∧ ∃ q, q ∈ pq_queries (tag_plan filter k v) ∧ (fst q, key_of_event e (snd q)) ∈ getIndexKeysForEvent e.
Proof.
  intros Hf Hm Hkv. destruct (Matches_fields _ _ Hm) as (Hk & Ha & Ht). split.
  - unfold tag_plan. destruct (Nat.ltb _ _); [|unfold extra_ok; cbn; by rewrite Ha, Hk].
    destruct (ChooseNarrowestTag 1 _ _) as [[k' v'] g] eqn:Ec. unfold extra_ok. cbn. rewrite Ha, Hk. cbn.
    apply (extra_tag_ok _ _ _ _ _ _ _ _ Hm (delete_subseteq _ _) Ec).
  - destruct (ContainsAny_elem _ _ _ (Ht k v Hkv)) as (value & r & Hin & Hv). exists (tag_query k value).
    rewrite tag_plan_queries. split; [by apply list_elem_of_fmap_2|]. apply (tag_match e k value r); [done|].
    pose proof (if_tags _ Hf k v Hkv) as Hi. rewrite Forall_forall in Hi. exact (Hi value Hv).
Qed.

(** No stored event that matches is missed. *)
Lemma found_complete filter e : indexed_filter filter → e ∈ events m → ev_CreatedAt e < 4294967295 → Matches filter e = true →
  e ∈ found filter.
Proof.
  intros Hf He Hc Hm. assert (Hplan : extra_ok (prepareQueries filter) e = true
    ∧ ∃ q, q ∈ pq_queries (prepareQueries filter) ∧ (fst q, key_of_event e (snd q)) ∈ getIndexKeysForEvent e).
  { unfold prepareQueries. destruct (Nat.ltb_spec 0 (size (fi_Tags filter))) as [Hs|_]; [|by apply pubkey_plan_complete].
    destruct (ChooseNarrowestTag_some 0 (fi_Tags filter) (nonempty (fi_Authors filter))) as (k & v & g & Ec).
    { intros E. rewrite E, map_size_empty in Hs. lia. }
    rewrite Ec. destruct ((g <? 2) && _); [by apply pubkey_plan_complete|]. apply tag_plan_complete; [done..|].
    by apply ChooseNarrowestTag_elem in Ec. }
  destruct Hplan as (Hx & q & Hq & Hk). unfold found. apply list_elem_of_bind. exists q. split; [|done].
  apply list_elem_of_filter. split; [|done]. split; [by rewrite Hx|]. split; [done|].
  apply time_bounds; [done| |done]. split; [|done]. by apply (stored_fields db m Hrep).
Qed.

End run.
