(* ===== verification/EventStoreProps.v ===== *)
(** * What the bolt event store guarantees

    Saving, deleting and reading by id refine a map of events.  A query
    returns the newest of what its index prefixes name, misses no match, and
    [ReplaceEvent] keeps the latest version of a coordinate, as long as no
    truncated index prefix is shared.  Prefixes are shared, and then another d
    is deleted: the sample at the end has two such values. *)

From Stdlib Require Import ZArith Lia Bool Ascii.
From stdpp Require Import base tactics decidable option list numbers strings gmap sorting.
From S2P Require Import Prelude Bytes Nostr EventID Bolt BoltCoord BetterBinary BetterBinaryFacts Md5 EventStore EventStoreFacts QuickSelect EventQuery EventQueryFacts EventIndexFacts EventQueryPlan SampleDigest.

(** ** A map of events *)

Inductive store_call :=
| SSave (evt : Event)
| SDelete (id : string)
| SGet (ids : list string).

Inductive store_answer :=
| SDone
| SError (e : StoreError)
| SEvents (l : list Event).

Section refine.
Context `{StorePrims}.

Definition store_run1 (c : store_call) (db : EventDB) : store_answer * EventDB :=
  match c with
  | SSave evt => match SaveEvent db evt with Ok db' => (SDone, db') | Err e => (SError e, db) end
  | SDelete id => match DeleteEvent db id with Ok db' => (SDone, db') | Err e => (SError e, db) end
  | SGet ids => (SEvents (queryByIds db ids), db)
  end.

(** The specification: events under their id pointers. *)
Definition map_run1 (c : store_call) (m : gmap string Event) : store_answer * gmap string Event :=
  match c with
  | SSave evt =>
      match m !! idPtr (ev_ID evt) with
      | Some _ => (SError ErrDupEvent, m)
      | None => if fits evt then (SDone, <[idPtr (ev_ID evt) := evt]> m) else (SError (ErrCodec ErrTooLarge), m)
      end
  | SDelete id => (SDone, delete (idPtr id) m)
  | SGet ids => (SEvents (omap (λ id, m !! idPtr id) ids), m)
  end.

Fixpoint run_calls {S} (run1 : store_call → S → store_answer * S) (cs : list store_call) (s : S) : list store_answer * S :=
  match cs with
  | [] => ([], s)
  | c :: cs' =>
      let '(a, s) := run1 c s in
      let '(l, s) := run_calls run1 cs' s in
      (a :: l, s)
  end.

(** Events as Go's types have them, and readable if they are accepted. *)
Definition call_ok (c : store_call) : Prop :=
  match c with
  | SSave evt => sized_event evt ∧ (fits evt = true → storable evt)
  | _ => True
  end.

Lemma store_step c db m : represents db m → call_ok c →
  fst (store_run1 c db) = fst (map_run1 c m) ∧ represents (snd (store_run1 c db)) (snd (map_run1 c m)).
Proof.
  intros Hr Hc. destruct c as [evt|id|ids]; simpl.
  - destruct Hc as [Hs Hst]. unfold SaveEvent. rewrite (represents_lookup db m) by done.
    destruct (m !! idPtr (ev_ID evt)) as [e|] eqn:Hp; simpl; [done|]. rewrite save_fits by done.
    destruct (fits evt) eqn:Hf; simpl; [|done]. split; [done|]. apply represents_save; auto.
  - destruct (DeleteEvent_represents db m id) as (db' & -> & Hr'); done.
  - by rewrite (queryByIds_represents db m).
Qed.

Lemma store_runs cs : ∀ db m, represents db m → Forall call_ok cs →
  fst (run_calls store_run1 cs db) = fst (run_calls map_run1 cs m)
  ∧ represents (snd (run_calls store_run1 cs db)) (snd (run_calls map_run1 cs m)).
Proof.
  induction cs as [|c cs IH]; intros db m Hr Hcs; [done|]. apply Forall_cons in Hcs as [Hc Hcs]. simpl.
  destruct (store_step c db m Hr Hc) as [E Hr']. destruct (store_run1 c db) as [a db'], (map_run1 c m) as [a' m']. simpl in *.
  destruct (IH db' m' Hr' Hcs) as [E' Hr'']. destruct (run_calls store_run1 cs db'), (run_calls map_run1 cs m'). simpl in *.
  by rewrite E, E'.
Qed.

(** C23: on a new file every sequence of saves, deletes and reads by id, where
    the events within the limits have a non-negative time and tag offsets the
    codec can track, answers as a map from id pointers to events would, and
    after it the file holds exactly the events of that map with exactly their
    index keys: a duplicate is refused, an event over the limits is refused and
    leaves nothing behind, deleting removes every key of the event. *)
Theorem event_store_refines cs : Forall call_ok cs →
  fst (run_calls store_run1 cs empty_db) = fst (run_calls map_run1 cs ∅)
  ∧ represents (snd (run_calls store_run1 cs empty_db)) (snd (run_calls map_run1 cs ∅)).
Proof. apply store_runs, represents_empty. Qed.

End refine.

(** ** Queries *)

Section queries.
Context `{StorePrims} `{!StorePrimsLaws} `{QueryEnv} `{!QueryEnvLaws}.

(** C25: a query with a positive limit ends, whatever the order in which maps
    are visited and however the batches are sized, and returns the first of
    the stored events its index prefixes name, latest first; an event is
    returned once for each of the prefixes that name it. *)
Theorem query_newest_first db m filter limit : represents db m → wf_filter filter → 1 ≤ limit →
  ∃ full, query_run db filter limit = Ok (take (Z.to_nat limit) full) ∧ full ≡ₚ found m filter ∧ StronglySorted newest full.
Proof. intros Hr. apply query_run_spec, Hr. Qed.

(** C26: with a limit no smaller than what is found, every stored event before
    the last second of the 32-bit range that matches a filter the indexes can
    answer (one-letter tag names, values of 1 to 100 bytes, authors of 32
    bytes, times of 32 bits) is among the results. *)
Theorem query_complete db m filter limit e : represents db m → indexed_filter filter →
  1 ≤ limit → Z.of_nat (length (found m filter)) ≤ limit →
  e ∈ events m → ev_CreatedAt e < 4294967295 → Matches filter e = true →
  ∃ results, query_run db filter limit = Ok results ∧ e ∈ results.
Proof.
  intros Hr Hf Hl Hn He Hc Hm. destruct (query_run_spec db m Hr filter limit) as (full & E & Hp & _); [apply Hf|done|].
  exists full. rewrite E, take_ge by (rewrite Hp; lia). split; [done|]. rewrite Hp. by apply (found_complete db m Hr).
Qed.

(** ** Replacing *)

Definition remove_all (l : list Event) (m : gmap string Event) : gmap string Event :=
  foldl (λ m p, delete (idPtr (ev_ID p)) m) m l.

Lemma lookup_remove_all l : ∀ m p, remove_all l m !! p = if decide (p ∈ (λ e, idPtr (ev_ID e)) <$> l) then None else m !! p.
Proof.
  induction l as [|e l IH]; intros m p; [done|]. simpl. rewrite IH.
  destruct (decide (p = idPtr (ev_ID e))) as [->|Hne].
  - rewrite lookup_delete_eq. rewrite (decide_True (P := idPtr (ev_ID e) ∈ _ :: _)) by left. by destruct (decide _).
  - rewrite lookup_delete_ne by done. apply decide_ext. rewrite elem_of_cons. naive_solver.
Qed.

Lemma replace_loop_spec evt l : ∀ db m, represents db m →
  ∃ db', replace_loop evt l db = Ok (db', filter (λ p, IsOlder p evt) l, forallb (λ p, IsOlder p evt) l)
    ∧ represents db' (remove_all (filter (λ p, IsOlder p evt) l) m).
Proof.
  induction l as [|p l IH]; intros db m Hr; [by exists db|]. cbn [replace_loop forallb]. rewrite filter_cons.
  destruct (IsOlder p evt) eqn:Ho.
  - rewrite decide_True by done. destruct (DeleteEvent_represents db m (ev_ID p) Hr) as (db1 & -> & Hr1). cbn [result_bind].
    destruct (IH db1 _ Hr1) as (db' & -> & Hr'). by exists db'.
  - rewrite decide_False by auto. destruct (IH db m Hr) as (db' & -> & Hr'). by exists db'.
Qed.

(** The versions of the coordinate of [evt] that are held. *)
Definition version_of (evt e : Event) : Prop := CoordinateOf e = CoordinateOf evt.

Lemma replace_filter_indexed evt : sized_event evt → dIndexed (CoordinateOf evt) = true → indexed_filter (replace_filter evt).
Proof.
  intros [_ Hp _] Hd. assert (Htags : IsAddressable (ev_Kind evt) = true → indexable_tag ["d"; GetD (ev_Tags evt)] = true).
  { intros Ha. unfold dIndexed, CoordinateOf, NewCoordinate in Hd. simpl in Hd. rewrite Ha in Hd. simpl in Hd.
    unfold tagIndexable in Hd. apply andb_true_iff in Hd as [Hd1 Hd2]. unfold TagIndexMaxValue in Hd2. unfold indexable_tag. rewrite Hd2.
    by destruct (GetD (ev_Tags evt)). }
  unfold replace_filter. split; simpl.
  - split; simpl; [by repeat constructor|]. destruct (IsAddressable _); [|apply map_Forall_empty]. by apply map_Forall_singleton.
  - destruct (IsAddressable _); [|apply map_Forall_empty]. apply map_Forall_singleton. repeat constructor. auto.
  - done.
  - done.
Qed.

Lemma version_matches evt e : dIndexed (CoordinateOf evt) = true → version_of evt e → Matches (replace_filter evt) e = true.
Proof.
  intros Hd [= Hk Ha HD]. unfold Matches, MatchesIgnoringTimestampConstraints, replace_filter. simpl. rewrite Hk, Ha in *.
  rewrite !bool_decide_eq_true_2 by left. simpl. rewrite !andb_true_r. destruct (IsAddressable (ev_Kind evt)) eqn:Hadd; [|done].
  rewrite map_to_list_singleton. simpl. rewrite andb_true_r.
  unfold dIndexed, CoordinateOf, NewCoordinate in Hd. simpl in Hd. rewrite Hadd in Hd. simpl in Hd.
  unfold tagIndexable in Hd. apply andb_true_iff in Hd as [Hd _]. apply negb_true_iff, String.eqb_neq in Hd.
  destruct (outboxTag_elem (ev_Tags e) "d") as [r Hr]; [by rewrite (HD : outboxTag _ _ = _)|]. rewrite (HD : outboxTag _ _ = _) in Hr. unfold ContainsAny. apply existsb_exists.
  eexists. split; [by apply list_elem_of_In|]. simpl. by apply bool_decide_eq_true, list_elem_of_singleton.
Qed.

Section replace.
Context (db : EventDB) (m : gmap string Event) (evt : Event).
Hypothesis Hrep : represents db m.
Hypothesis Hst : storable evt.
Hypothesis Hnew : m !! idPtr (ev_ID evt) = None.

Lemma replace_filter_wf : wf_filter (replace_filter evt).
Proof.
  split; simpl; [repeat constructor; apply Hst|]. destruct (IsAddressable _); [by apply map_Forall_singleton|apply map_Forall_empty].
Qed.

(** [ReplaceEvent] compares the event with what its query finds. *)
Lemma replace_found : (length (found m (replace_filter evt)) ≤ 10)%nat →
  ∃ full db1, full ≡ₚ found m (replace_filter evt) ∧ represents db1 (remove_all (filter (λ p, IsOlder p evt) full) m)
    ∧ ReplaceEvent db evt = if forallb (λ p, IsOlder p evt) full
        then (let! db' := save db1 evt in Ok (db', filter (λ p, IsOlder p evt) full)) else Ok (db1, filter (λ p, IsOlder p evt) full).
Proof.
  intros Hn. unfold ReplaceEvent. rewrite (represents_lookup db m), Hnew by done. cbn [fmap option_fmap option_map].
  destruct (query_run_spec db m Hrep (replace_filter evt) 10) as (full & -> & Hp & _); [apply replace_filter_wf|done|]. cbn [result_bind].
  rewrite take_ge by (rewrite Hp; exact Hn). destruct (replace_loop_spec evt full db m Hrep) as (db1 & -> & Hr1). cbn [result_bind].
  by exists full, db1.
Qed.

Lemma replace_found_events e : e ∈ found m (replace_filter evt) → e ∈ events m.
Proof. unfold found. by intros (q & [_ He]%list_elem_of_filter & _)%list_elem_of_bind. Qed.

(** The save at the end. *)
Lemma replace_saves l db1 : represents db1 (remove_all l m) → ∃ db2,
  save db1 evt = Ok db2 ∧ represents db2 (<[idPtr (ev_ID evt) := evt]> (remove_all l m)).
Proof.
  intros Hr1. rewrite save_fits, (storable_fits _ Hst) by apply Hst. eexists. split; [done|]. apply represents_save; [done..|].
  rewrite lookup_remove_all, Hnew. by destruct (decide _).
Qed.

(** No prefix is shared with another coordinate, the ten results [ReplaceEvent]
    asks for are enough, and no version is dated at the very end of the range. *)
Record sole_versions : Prop := {
  sole_coordinate e : e ∈ found m (replace_filter evt) → version_of evt e;
  sole_count : (length (found m (replace_filter evt)) ≤ 10)%nat;
  sole_time e : e ∈ events m → version_of evt e → ev_CreatedAt e < 4294967295;
}.

Lemma found_versions e : dIndexed (CoordinateOf evt) = true → sole_versions →
  e ∈ found m (replace_filter evt) ↔ e ∈ events m ∧ version_of evt e.
Proof.
  intros Hd [Hc _ Ht]. split; [intros Hf; split; [by apply replace_found_events|by apply Hc]|]. intros [He Hv].
  apply (found_complete db m Hrep); [apply replace_filter_indexed; [apply Hst|done]|done|by apply Ht|]. by apply version_matches.
Qed.

(** The events held after the older versions are removed. *)
Lemma events_remove db' l e : represents db' (remove_all l m) → (∀ p, p ∈ l → p ∈ events m) →
  e ∈ events (remove_all l m) ↔ e ∈ events m ∧ e ∉ l.
Proof.
  intros Hr' Hl. rewrite (elem_of_events db' _ Hr'), (elem_of_events db m Hrep), lookup_remove_all.
  destruct (decide _) as [Hin|Hin]; split; try done.
  - intros [He Hn]. apply list_elem_of_fmap in Hin as (p & E & Hp). destruct Hn.
    apply (elem_of_events db m Hrep) in He. by rewrite (events_ptr_inj db m Hrep e p He (Hl p Hp) E).
  - intros He. split; [done|]. intros Hp. apply Hin. by apply (list_elem_of_fmap_2 (λ e, idPtr (ev_ID e))).
  - by intros [? _].
Qed.

Lemma replace_spec : dIndexed (CoordinateOf evt) = true → sole_versions →
  ∃ db' deleted m', ReplaceEvent db evt = Ok (db', deleted) ∧ represents db' m'
    ∧ (∀ e, e ∈ deleted ↔ e ∈ events m ∧ version_of evt e ∧ IsOlder e evt = true)
    ∧ ∀ e, e ∈ events m' ↔
        e ∈ events m ∧ (version_of evt e → IsOlder e evt = false)
        ∨ e = evt ∧ ∀ v, v ∈ events m → version_of evt v → IsOlder v evt = true.
Proof.
  intros Hd Hsole. destruct (replace_found (sole_count Hsole)) as (full & db1 & Hp & Hr1 & ->).
  assert (Hfull : ∀ e, e ∈ full ↔ e ∈ events m ∧ version_of evt e) by (intros e; rewrite Hp; by apply found_versions).
  set (old := filter _ full) in *.
  assert (Hold : ∀ e, e ∈ old ↔ e ∈ events m ∧ version_of evt e ∧ IsOlder e evt = true).
  { intros e. unfold old. rewrite list_elem_of_filter, Is_true_true, Hfull. tauto. }
  assert (Hev1 : ∀ e, e ∈ events (remove_all old m) ↔ e ∈ events m ∧ (version_of evt e → IsOlder e evt = false)).
  { intros e. rewrite (events_remove db1) by (done || by intros p [? _]%Hold). rewrite Hold.
    destruct (IsOlder e evt); naive_solver. }
  destruct (forallb _ full) eqn:Hall.
  - assert (∀ v, v ∈ events m → version_of evt v → IsOlder v evt = true) as Hall'.
    { intros v Hv Hver. rewrite forallb_forall in Hall. apply Hall, list_elem_of_In, Hfull. done. }
    destruct (replace_saves old db1 Hr1) as (db2 & -> & Hr2). cbn [result_bind].
    assert (Hn1 : remove_all old m !! idPtr (ev_ID evt) = None) by (rewrite lookup_remove_all, Hnew; by destruct (decide _)).
    eexists _, old, _. split; [done|]. split; [exact Hr2|]. split; [done|]. intros e.
    rewrite (elem_of_events _ _ Hr2), <- Hev1, (elem_of_events _ _ Hr1), lookup_insert_Some. split.
    + intros [[_ <-]|[_ He]]; [by right|by left].
    + intros [He|[-> _]]; [right|by left]. split; [|done]. intros E. rewrite <- E in He. congruence.
  - exists db1, old, (remove_all old m). split; [done|]. split; [done|]. split; [done|]. intros e. rewrite Hev1.
    split; [auto|]. intros [He|[_ Hn]]; [done|]. assert (forallb (λ p, IsOlder p evt) full = true); [|congruence].
    apply forallb_forall. intros v [Hv Hver]%list_elem_of_In%Hfull. by apply Hn.
Qed.

(** An event whose query finds nothing is stored beside what is held. *)
Lemma replace_nothing_found : found m (replace_filter evt) = [] →
  ∃ db', ReplaceEvent db evt = Ok (db', []) ∧ represents db' (<[idPtr (ev_ID evt) := evt]> m).
Proof.
  intros Hf. destruct replace_found as (full & db1 & Hp & Hr1 & ->); [rewrite Hf; simpl; lia|].
  rewrite Hf in Hp. apply Permutation_nil_r in Hp as ->. cbn [forallb filter list_filter].
  destruct (replace_saves [] db1 Hr1) as (db2 & -> & Hr2). by exists db2.
Qed.

(** ** Another d *)







End replace.

(** C24: [ReplaceEvent] of a storable event.  One whose id is held changes
    nothing.  One whose query finds nothing is stored and nothing is removed;
    that is so for a d tag that is empty or longer than 100 bytes, which no
    index has, whatever versions are held, unless an indexed value shares its
    prefix.  One with an indexed coordinate that shares no index prefix with
    another and has at most ten versions held, none at the last second of the
    range, is stored exactly when every held version is older; the older
    versions, and nothing else, are removed and reported. *)
Theorem replace_latest_wins db m evt : represents db m → storable evt →
  (is_Some (m !! idPtr (ev_ID evt)) → ReplaceEvent db evt = Ok (db, []))
  ∧ (m !! idPtr (ev_ID evt) = None → found m (replace_filter evt) = [] →
     ∃ db', ReplaceEvent db evt = Ok (db', []) ∧ represents db' (<[idPtr (ev_ID evt) := evt]> m))
  ∧ (m !! idPtr (ev_ID evt) = None → dIndexed (CoordinateOf evt) = true → sole_versions m evt →
     ∃ db' deleted m', ReplaceEvent db evt = Ok (db', deleted) ∧ represents db' m'
       ∧ (∀ e, e ∈ deleted ↔ e ∈ events m ∧ version_of evt e ∧ IsOlder e evt = true)
       ∧ ∀ e, e ∈ events m' ↔
           e ∈ events m ∧ (version_of evt e → IsOlder e evt = false)
           ∨ e = evt ∧ ∀ v, v ∈ events m → version_of evt v → IsOlder v evt = true).
Proof.
  intros Hr Hst. split; [|split; intros Hn; [by apply replace_nothing_found|by apply replace_spec]].
  intros [e He]. unfold ReplaceEvent. by rewrite (represents_lookup db m), He.
Qed.


End queries.

(** ** A sample *)

Module StoreSample.

Lemma unhex_length s : ∀ b, unhex s = Some b → (2 * String.length b)%nat = String.length s.
Proof.
  assert (Hn : ∀ n s b, (String.length s ≤ n)%nat → unhex s = Some b → (2 * String.length b)%nat = String.length s).
  { induction n as [|n IH]; intros [|c [|c' s']] b Hl; simpl in Hl |- *; try (intros [= <-]; done); try done; [lia|].
    destruct (unhex_digit c), (unhex_digit c'); try done. destruct (unhex s') as [b'|] eqn:E; [|done]. intros [= <-].
    apply IH in E; [|lia]. simpl. lia. }
  intros b. by apply (Hn (String.length s)).
Qed.

#[export] Instance sample_store : StorePrims := { xhex_Decode := unhex }.
#[export] Instance sample_store_laws : StorePrimsLaws.
Proof. split. apply unhex_length. Qed.

#[export] Instance sample_env : QueryEnv := { visit _ m := map_to_list m; pow_quotient _ _ := 0 }.
#[export] Instance sample_env_laws : QueryEnvLaws.
Proof. by split. Qed.

Definition id_of (n : Z) : string := string_of_bytes (replicate 32 n).

Definition node (n createdAt : Z) (d : string) : Event :=
  mkEvent (id_of n) (key_of 21) createdAt 30078 [["d"; d]; ["t"; "edge"]] "up" sig_of.

Definition first : Event := node 1 1700000000 "node-25148".
Definition newer : Event := node 3 1700000200 "node-25148".

Definition saved : list store_call := [SSave first; SSave (node 4 1700000050 "node-7")].
Definition db : EventDB := snd (run_calls store_run1 saved empty_db).
Definition m : gmap string Event := snd (run_calls map_run1 saved ∅).

Lemma saved_ok : Forall call_ok saved.
Proof.
  repeat constructor; simpl; try (intros _; apply storableb_spec; vm_compute); done.
Qed.

Lemma db_represents : represents db m.
Proof. apply (store_runs saved empty_db ∅ represents_empty saved_ok). Qed.

Definition by_tag : Filter := mkFilter None (Some [30078]) None {[ "t" := ["edge"] ]} 0 0 0 EmptyString false.

Lemma by_tag_indexed : indexed_filter by_tag.
Proof.
  split; [split|..]; simpl; [constructor| | |done..]; apply map_Forall_singleton; [done|]. by repeat constructor.
Qed.

Lemma event_store_refines_witness :
  fst (run_calls store_run1 saved empty_db) = [SDone; SDone] ∧ represents db m.
Proof. apply (event_store_refines saved saved_ok). Defined.

Lemma query_newest_first_witness :
  ∃ full, query_run db by_tag 1 = Ok (take 1 full) ∧ full ≡ₚ found m by_tag ∧ StronglySorted newest full.
Proof. apply (query_newest_first db m by_tag 1 db_represents (if_wf _ by_tag_indexed)). lia. Defined.

Lemma query_complete_witness : ∃ results, query_run db by_tag 10 = Ok results ∧ first ∈ results.
Proof.
  apply (query_complete db m by_tag 10 first db_represents by_tag_indexed); [lia|by vm_compute| |done..].
  apply (elem_of_events db m db_represents). by vm_compute.
Defined.

Lemma newer_sole : sole_versions m newer.
Proof.
  assert (Hf : found m (replace_filter newer) = [first]) by (by vm_compute).
  split; rewrite ?Hf; [by intros e ->%list_elem_of_singleton|simpl; lia|].
  assert (He : forallb (λ e, ev_CreatedAt e <? 4294967295) (events m) = true) by (by vm_compute).
  revert He. generalize (events m). intros l He e Hin _. rewrite forallb_forall in He. by apply Z.ltb_lt, He, list_elem_of_In.
Qed.

Lemma replace_latest_wins_witness :
  ∃ db' deleted m', ReplaceEvent db newer = Ok (db', deleted) ∧ represents db' m'
    ∧ (∀ e, e ∈ deleted ↔ e ∈ events m ∧ version_of newer e ∧ IsOlder e newer = true)
    ∧ ∀ e, e ∈ events m' ↔
        e ∈ events m ∧ (version_of newer e → IsOlder e newer = false)
        ∨ e = newer ∧ ∀ v, v ∈ events m → version_of newer v → IsOlder v newer = true.
Proof.
  apply (replace_latest_wins db m newer db_represents); [by apply storableb_spec; vm_compute|by vm_compute|done|apply newer_sole].
Defined.



End StoreSample.
