(* ===== verification/CanonicalJSON.v ===== *)
(** * Fingerprints of request parameters

    [src/internal/controlplane/contextvm_fingerprint.go]: the canonical text
    of a JSON value, whose digest binds an idempotency key to the parameters
    it was first used with.  Strings are written as [json.Marshal] writes
    them, numbers as an exact coefficient and exponent. *)

From Stdlib Require Import ZArith Lia Bool Ascii.
From stdpp Require Import base tactics decidable option list numbers strings sorting.
From S2P Require Import Prelude Bytes Nostr EventID.

(** ** Numbers *)

Definition minus : ascii := byte_of_Z 45.
Definition plus : ascii := byte_of_Z 43.
Definition dot : ascii := byte_of_Z 46.
Definition zero_digit : ascii := byte_of_Z 48.

Definition is_exp (c : ascii) : bool := (Z_of_byte c =? 101) || (Z_of_byte c =? 69).

(** The text before and after the first of the letters [strings.IndexAny(value, "eE")]
    looks for. *)
Fixpoint cut_exponent (s : string) : string * option string :=
  match s with
  | EmptyString => (EmptyString, None)
  | String c s' =>
      if is_exp c then (EmptyString, Some s')
      else let '(a, b) := cut_exponent s' in (String c a, b)
  end.

(** [strings.TrimLeft(s, "0")] and [strings.TrimRight(s, "0")]. *)
Fixpoint trim_left_zeros (s : string) : string :=
  match s with
  | EmptyString => EmptyString
  | String c s' => if ascii_dec c zero_digit then trim_left_zeros s' else s
  end.

Fixpoint trim_right_zeros (s : string) : string :=
  match s with
  | EmptyString => EmptyString
  | String c s' =>
      match trim_right_zeros s' with
      | EmptyString => if ascii_dec c zero_digit then EmptyString else String c EmptyString
      | t => String c t
      end
  end.

(** [new(big.Int).SetString(s, 10)]. *)
Definition big_of_string (s : string) : option Z :=
  let digits t := match t with EmptyString => None | String _ _ => parse_digits t 0 end in
  match s with
  | String c s' =>
      if ascii_dec c minus then option_map Z.opp (digits s')
      else if ascii_dec c plus then digits s'
      else digits s
  | EmptyString => None
  end.

(** [big.Int.String]; the fuel is no less than the number of digits. *)
Definition big_digits (z : Z) : string := decimal (S (Z.to_nat (Z.log2 z))) z.
Definition big_string (z : Z) : string :=
  if z <? 0 then String minus (big_digits (- z)) else big_digits z.

(** The sign, the digits without point and leading zeros, and the exponent of
    the last digit. *)
Definition scan_number (value : string) : option (bool * string * Z) :=
  let '(negative, value) :=
    match value with
    | String c value' => if ascii_dec c minus then (true, value') else (false, value)
    | EmptyString => (false, value)
    end in
  let '(mantissa, exponentText) := cut_exponent value in
  let '(digits, fractionDigits) :=
    match cut_byte dot mantissa with
    | Some (whole, fraction) => (whole +:+ fraction, String.length fraction)
    | None => (mantissa, 0%nat)
    end in
  let digits := trim_left_zeros digits in
  match digits with
  | EmptyString => Some (false, EmptyString, 0)
  | String _ _ =>
      match big_of_string (default "0" exponentText) with
      | Some exponent => Some (negative, digits, exponent - Z.of_nat fractionDigits)
      | None => None
      end
  end.

Definition canonicalJSONNumber (value : string) : option string :=
  match scan_number value with
  | None => None
  | Some (_, EmptyString, _) => Some "0"
  | Some (negative, digits, exponent) =>
      let trimmedDigits := trim_right_zeros digits in
      let exponent := exponent + Z.of_nat (String.length digits - String.length trimmedDigits) in
      Some ((if (negative : bool) then String minus trimmedDigits else trimmedDigits) +:+ "e" +:+ big_string exponent)
  end.

(** ** Strings *)

Definition continuation (c : ascii) : bool := (128 <=? Z_of_byte c) && (Z_of_byte c <=? 191).
Definition between (lo hi : Z) (c : ascii) : bool := (lo <=? Z_of_byte c) && (Z_of_byte c <=? hi).

(** The bounds of the second byte and the length of an encoding, from its
    first byte. *)
Definition utf8_lead (b : Z) : option (Z * Z * nat) :=
  if (194 <=? b) && (b <=? 223) then Some (128, 191, 2%nat)
  else if b =? 224 then Some (160, 191, 3%nat)
  else if b =? 237 then Some (128, 159, 3%nat)
  else if (225 <=? b) && (b <=? 239) then Some (128, 191, 3%nat)
  else if b =? 240 then Some (144, 191, 4%nat)
  else if (241 <=? b) && (b <=? 243) then Some (128, 191, 4%nat)
  else if b =? 244 then Some (128, 143, 4%nat)
  else None.

(** The bytes of the encoding at the start of [s] and the rest;
    [None] is [utf8.RuneError] with width 1. *)
Definition utf8_take (s : string) : option (string * string) :=
  match s with
  | String c0 (String c1 s2) =>
      match utf8_lead (Z_of_byte c0) with
      | Some (lo, hi, n) =>
          if negb (between lo hi c1) then None
          else match n, s2 with
          | 2%nat, _ => Some (String c0 (String c1 EmptyString), s2)
          | 3%nat, String c2 s3 =>
              if continuation c2 then Some (String c0 (String c1 (String c2 EmptyString)), s3) else None
          | 4%nat, String c2 (String c3 s4) =>
              if continuation c2 && continuation c3
              then Some (String c0 (String c1 (String c2 (String c3 EmptyString))), s4) else None
          | _, _ => None
          end
      | None => None
      end
  | _ => None
  end.

Definition backslash : ascii := byte_of_Z 92.

(** How a byte below 128 is written. *)
Definition json_ascii (c : ascii) : string :=
  let b := Z_of_byte c in
  if (b =? 34) || (b =? 92) then String backslash (String c EmptyString)
  else if b =? 8 then String backslash "b"
  else if b =? 12 then String backslash "f"
  else if b =? 10 then String backslash "n"
  else if b =? 13 then String backslash "r"
  else if b =? 9 then String backslash "t"
  else if (b <? 32) || (b =? 60) || (b =? 62) || (b =? 38)
  then String backslash ("u00" +:+ hex (String c EmptyString))
  else String c EmptyString.

Definition line_separator : string := string_of_bytes [226; 128; 168].
Definition paragraph_separator : string := string_of_bytes [226; 128; 169].

(** How the encoding [u] of another rune is written. *)
Definition json_rune (u : string) : string :=
  if String.eqb u line_separator then String backslash "u2028"
  else if String.eqb u paragraph_separator then String backslash "u2029"
  else u.

(** The fuel is the length of the string. *)
Fixpoint json_body (n : nat) (s : string) : string :=
  match n, s with
  | S n', String c s' =>
      if Z_of_byte c <? 128 then json_ascii c +:+ json_body n' s'
      else match utf8_take s with
      | Some (u, rest) => json_rune u +:+ json_body n' rest
      | None => String backslash "ufffd" +:+ json_body n' s'
      end
  | _, _ => EmptyString
  end.

(** [json.Marshal] of a string. *)
Definition json_marshal_string (s : string) : string := quote +:+ json_body (String.length s) s +:+ quote.

(** ** Values *)

(** What a decoder that keeps numbers returns; the fields of an object in any
    order. *)
Inductive json :=
| JNull
| JBool (b : bool)
| JString (s : string)
| JNumber (n : string)
| JArray (items : list json)
| JObject (fields : list (string * json)).

Definition colon_byte : string := string_of_bytes [58].

Definition field_le (a b : string * string) : Prop := bytes_le (fst a) (fst b).

#[export] Instance field_le_dec a b : Decision (field_le a b).
Proof. unfold field_le. apply _. Defined.

Fixpoint join (texts : list string) : string :=
  match texts with
  | [] => EmptyString
  | [t] => t
  | t :: texts' => t +:+ "," +:+ join texts'
  end.

Definition field_text (field : string * string) : string :=
  json_marshal_string (fst field) +:+ colon_byte +:+ snd field.

Fixpoint writeCanonicalJSON (value : json) : option string :=
  match value with
  | JNull => Some "null"
  | JBool b => Some (if b then "true" else "false")
  | JString s => Some (json_marshal_string s)
  | JNumber n => canonicalJSONNumber n
  | JArray items => texts ← mapM writeCanonicalJSON items; Some ("[" +:+ join texts +:+ "]")
  | JObject fields =>
      texts ← mapM (λ field, text ← writeCanonicalJSON (snd field); Some (fst field, text)) fields;
      Some ("{" +:+ join (field_text <$> merge_sort field_le texts) +:+ "}")
  end.

(** [json_value] is the decoder: one value and nothing after it. *)
Definition contextVMRequestFingerprint `{NostrPrims} (json_value : string → option json) (params : string) : option string :=
  value ← json_value params;
  canonical ← writeCanonicalJSON value;
  Some (hex (sha256 canonical)).
