(* ===== verification/CanonicalJSONFacts.v ===== *)
(** * Fingerprints: lemmas

    Canonical numbers are equal exactly when the numbers are, strings read
    back from what [json.Marshal] writes, and the canonical text of a value,
    followed by a delimiter, determines the value up to the order of fields
    and the spelling of numbers. *)

From Stdlib Require Import ZArith Lia Bool Ascii.
From stdpp Require Import base tactics decidable option list numbers strings sorting.
From S2P Require Import Prelude Bytes Nostr EventID CanonicalJSON.

(** ** Digits *)

Lemma pow10_pos n : 0 < 10 ^ Z.of_nat n.
Proof. apply Z.pow_pos_nonneg; lia. Qed.

Lemma pow10_S n : 10 ^ Z.of_nat (S n) = 10 * 10 ^ Z.of_nat n.
Proof. rewrite Nat2Z.inj_succ, Z.pow_succ_r; lia. Qed.

Lemma digit_value_range c d : digit_value c = Some d → 0 ≤ d < 10 ∧ c = byte_of_Z (48 + d).
Proof.
  unfold digit_value. destruct (_ && _) eqn:E; [|done]. intros [= <-]. bool_facts. split; [lia|].
  replace (48 + (Z_of_byte c - 48)) with (Z_of_byte c) by lia. by rewrite byte_of_Z_of_byte.
Qed.

Lemma digit_value_zero c : digit_value c = Some 0 ↔ c = zero_digit.
Proof. split; [by intros [_ ->]%digit_value_range|by intros ->]. Qed.

Lemma parse_digits_shift s acc :
  parse_digits s acc = option_map (λ n, acc * 10 ^ Z.of_nat (String.length s) + n) (parse_digits s 0).
Proof.
  revert acc. induction s as [|c s IH]; intros acc; cbn [parse_digits String.length].
  { simpl. f_equal. lia. }
  destruct (digit_value c) as [d|]; [|done]. rewrite (IH (acc * 10 + d)), (IH (0 * 10 + d)).
  destruct (parse_digits s 0); [|done]. simpl. f_equal. rewrite pow10_S. lia.
Qed.

Lemma parse_digits_cons c s n : parse_digits (String c s) 0 = Some n ↔
  ∃ d m, digit_value c = Some d ∧ parse_digits s 0 = Some m ∧ n = d * 10 ^ Z.of_nat (String.length s) + m.
Proof.
  cbn [parse_digits]. destruct (digit_value c) as [d|]; [|naive_solver]. rewrite parse_digits_shift.
  destruct (parse_digits s 0) as [m|]; simpl; [|naive_solver]. replace (0 * 10 + d) with d by lia. naive_solver.
Qed.

Lemma parse_digits_range s : ∀ n, parse_digits s 0 = Some n → 0 ≤ n < 10 ^ Z.of_nat (String.length s).
Proof.
  induction s as [|c s IH]; intros n; [by intros [= <-]|]. intros (d & m & Hd & Hm & ->)%parse_digits_cons.
  apply digit_value_range in Hd as [Hd _]. apply IH in Hm. cbn [String.length]. rewrite pow10_S. nia.
Qed.

Lemma parse_digits_app_value a b n m : parse_digits a 0 = Some n → parse_digits b 0 = Some m →
  parse_digits (a +:+ b) 0 = Some (n * 10 ^ Z.of_nat (String.length b) + m).
Proof. intros Ha Hb. rewrite parse_digits_app, Ha, parse_digits_shift, Hb. done. Qed.

Lemma parse_digits_inj a : ∀ b n, String.length a = String.length b →
  parse_digits a 0 = Some n → parse_digits b 0 = Some n → a = b.
Proof.
  induction a as [|c a IH]; intros [|c' b] n Hl; try done. injection Hl as Hl.
  intros (d & m & Hd & Hm & ->)%parse_digits_cons (d' & m' & Hd' & Hm' & E)%parse_digits_cons.
  pose proof (parse_digits_range _ _ Hm). pose proof (parse_digits_range _ _ Hm'). rewrite Hl in *.
  assert (d = d') as -> by nia. assert (m = m') as -> by lia.
  apply digit_value_range in Hd as [_ ->], Hd' as [_ ->]. f_equal. by apply (IH b m').
Qed.

(** No leading zero. *)
Definition leading (s : string) : Prop := match s with String c _ => c ≠ zero_digit | EmptyString => False end.

Lemma leading_range s n : leading s → parse_digits s 0 = Some n → 10 ^ Z.of_nat (String.length s) ≤ 10 * n.
Proof.
  destruct s as [|c s]; [done|]. intros Hc (d & m & Hd & Hm & ->)%parse_digits_cons.
  assert (d ≠ 0) by (intros ->; by apply Hc, digit_value_zero). apply digit_value_range in Hd as [Hd _].
  apply parse_digits_range in Hm. cbn [String.length]. rewrite pow10_S. nia.
Qed.

Lemma leading_inj a b n : leading a → leading b → parse_digits a 0 = Some n → parse_digits b 0 = Some n → a = b.
Proof.
  intros Ha Hb Hna Hnb. apply (parse_digits_inj a b n); [|done..].
  pose proof (leading_range _ _ Ha Hna). pose proof (leading_range _ _ Hb Hnb).
  pose proof (parse_digits_range _ _ Hna). pose proof (parse_digits_range _ _ Hnb).
  assert (Hlt : ∀ i j, 10 ^ Z.of_nat i ≤ 10 * n → n < 10 ^ Z.of_nat j → (i ≤ j)%nat).
  { intros i j Hi Hj. destruct (Nat.le_gt_cases i j) as [|Hij]; [done|].
    assert (10 ^ Z.of_nat (S j) ≤ 10 ^ Z.of_nat i) by (apply Z.pow_le_mono_r; lia). rewrite pow10_S in *. lia. }
  apply Nat.le_antisymm; apply Hlt; lia.
Qed.

Lemma trim_left_zeros_value s : parse_digits (trim_left_zeros s) 0 = parse_digits s 0.
Proof. induction s as [|c s IH]; simpl; [done|]. destruct (ascii_dec c zero_digit) as [->|]; [exact IH|done]. Qed.

Lemma trim_left_zeros_leading s : trim_left_zeros s = EmptyString ∨ leading (trim_left_zeros s).
Proof. induction s as [|c s IH]; simpl; [by left|]. destruct (ascii_dec c zero_digit); [done|by right]. Qed.

Lemma trim_right_zeros_value s : ∀ n, parse_digits s 0 = Some n →
  ∃ m, parse_digits (trim_right_zeros s) 0 = Some m
    ∧ (String.length (trim_right_zeros s) ≤ String.length s)%nat
    ∧ n = m * 10 ^ Z.of_nat (String.length s - String.length (trim_right_zeros s))
    ∧ (trim_right_zeros s = EmptyString ∧ m = 0 ∨ m mod 10 ≠ 0).
Proof.
  induction s as [|c s IH]; intros n; [intros [= <-]; exists 0; naive_solver|].
  intros (d & m & Hd & Hm & ->)%parse_digits_cons. destruct (IH _ Hm) as (m' & Hm' & Hl & -> & Hz). clear IH.
  pose proof (digit_value_range _ _ Hd) as [Hdr _]. cbn [trim_right_zeros].
  destruct (trim_right_zeros s) as [|c' t] eqn:Et.
  - injection Hm' as <-. destruct (ascii_dec c zero_digit) as [->|Hc].
    + rewrite (proj2 (digit_value_zero zero_digit) eq_refl) in Hd. injection Hd as <-. exists 0. simpl. naive_solver lia.
    + exists d. cbn [String.length]. replace (S (String.length s) - 1)%nat with (String.length s) by lia.
      assert (d ≠ 0) by (intros ->; by apply Hc, digit_value_zero).
      rewrite (parse_digits_cons c EmptyString). split_and!; [exists d, 0; split_and!; [done..|simpl; lia]|lia|lia|].
      right. rewrite Z.mod_small; lia.
  - set (t' := String c' t) in *. destruct Hz as [[? _]|Hz]; [done|]. exists (d * 10 ^ Z.of_nat (String.length t') + m').
    split; [apply parse_digits_cons; by exists d, m'|]. cbn [String.length].
    split; [lia|]. replace (S (String.length s) - S (String.length t'))%nat with (String.length s - String.length t')%nat by lia.
    split.
    + rewrite Z.mul_add_distr_r, <- Z.mul_assoc, <- Z.pow_add_r by lia. do 3 f_equal. lia.
    + right. unfold t'. cbn [String.length]. rewrite pow10_S.
      replace (d * (10 * 10 ^ Z.of_nat (String.length t)) + m') with (m' + (d * 10 ^ Z.of_nat (String.length t)) * 10) by lia.
      by rewrite Z.mod_add.
Qed.

Lemma trim_right_zeros_leading s : leading s → leading (trim_right_zeros s).
Proof.
  destruct s as [|c s]; [done|]. simpl. intros Hc. destruct (trim_right_zeros s); [|done].
  by destruct (ascii_dec c zero_digit).
Qed.

(** ** Integers of any size *)

Lemma big_digits_parse z : 0 ≤ z → parse_digits (big_digits z) 0 = Some z.
Proof.
  intros Hz. unfold big_digits. set (n := S (Z.to_nat (Z.log2 z))).
  destruct (parse_digits_decimal n z 0) as (k & _ & ->); [|done]. split; [done|].
  assert (z < 2 ^ Z.of_nat n).
  { unfold n. rewrite Nat2Z.inj_succ, Z2Nat.id by apply Z.log2_nonneg. destruct (Z.eq_dec z 0) as [->|]; [done|].
    apply Z.log2_spec. lia. }
  assert (2 ^ Z.of_nat n ≤ 10 ^ Z.of_nat n) by (apply Z.pow_le_mono_l; lia). lia.
Qed.

Lemma big_digits_other z b : 0 ≤ z → (b < 48 ∨ 57 < b) → 0 ≤ b < 256 → contains_byte (byte_of_Z b) (big_digits z) = false.
Proof. intros. by apply decimal_digits. Qed.

Lemma contains_head c s t : contains_byte c (String t s) = false → c ≠ t.
Proof. simpl. by destruct (ascii_dec c t). Qed.

Lemma big_of_string_digits s n : s ≠ EmptyString → parse_digits s 0 = Some n → big_of_string s = Some n.
Proof.
  destruct s as [|c s]; [done|]. intros _ Hp. unfold big_of_string.
  assert (Hc : ∀ b, digit_value b = None → c ≠ b).
  { intros b Hb ->. apply parse_digits_cons in Hp as (d & m & Hd & _). congruence. }
  destruct (ascii_dec c minus) as [E|]; [by apply Hc in E|]. destruct (ascii_dec c plus) as [E|]; [by apply Hc in E|]. done.
Qed.

Lemma big_of_string_string z : big_of_string (big_string z) = Some z.
Proof.
  unfold big_string. assert (Hne : ∀ z, big_digits z ≠ EmptyString) by (intros x; apply decimal_nonempty; lia).
  destruct (Z.ltb_spec z 0) as [Hz|Hz]; [|by apply big_of_string_digits; [|apply big_digits_parse]].
  specialize (Hne (- z)). pose proof (big_digits_parse (- z) ltac:(lia)) as Hp. revert Hne Hp.
  generalize (big_digits (- z)). intros s Hne Hp. unfold big_of_string. destruct (ascii_dec minus minus); [|done].
  destruct s; [done|]. rewrite Hp. simpl. f_equal. lia.
Qed.

Lemma big_string_inj x y : big_string x = big_string y → x = y.
Proof. intros E. apply (f_equal big_of_string) in E. rewrite !big_of_string_string in E. congruence. Qed.

(** ** The value of a number *)

(** A coefficient and a decimal exponent. *)
Definition same_number (v w : Z * Z) : Prop :=
  let k := Z.min (snd v) (snd w) in fst v * 10 ^ (snd v - k) = fst w * 10 ^ (snd w - k).

Lemma same_number_at v w k : k ≤ snd v → k ≤ snd w → same_number v w ↔ fst v * 10 ^ (snd v - k) = fst w * 10 ^ (snd w - k).
Proof.
  intros Hv Hw. unfold same_number. set (j := Z.min (snd v) (snd w)). assert (k ≤ j ∧ j ≤ snd v ∧ j ≤ snd w) by lia.
  replace (snd v - k) with ((snd v - j) + (j - k)) by lia. replace (snd w - k) with ((snd w - j) + (j - k)) by lia.
  rewrite !Z.pow_add_r, !Z.mul_assoc by lia. assert (10 ^ (j - k) ≠ 0) by (apply Z.pow_nonzero; lia). split; [congruence|].
  apply Z.mul_reg_r. done.
Qed.

#[export] Instance same_number_equiv : Equivalence same_number.
Proof.
  split; [done|unfold same_number; intros v w; by rewrite Z.min_comm|].
  intros v w u. set (k := Z.min (snd v) (Z.min (snd w) (snd u))). rewrite !(same_number_at _ _ k) by lia. congruence.
Qed.

(** The sign, the digits and the exponent of a canonical number. *)
Definition normal_text (negative : bool) (digits : string) (exponent : Z) : string :=
  (if negative then String minus digits else digits) +:+ "e" +:+ big_string exponent.

Definition signed (negative : bool) (m : Z) : Z := if negative then - m else m.

Inductive normal : string → Z * Z → Prop :=
| normal_zero e : normal "0" (0, e)
| normal_digits negative digits m x v : leading digits → parse_digits digits 0 = Some m → m mod 10 ≠ 0 →
    same_number (signed negative m, x) v → normal (normal_text negative digits x) v.

Lemma digits_no_byte s n b : parse_digits s 0 = Some n → digit_value b = None → contains_byte b s = false.
Proof.
  revert n. induction s as [|c s IH]; intros n; [done|]. intros (d & m & Hd & Hm & _)%parse_digits_cons Hb. simpl.
  destruct (ascii_dec b c) as [->|]; [congruence|]. by apply (IH m).
Qed.

Lemma normal_text_inj n1 d1 x1 n2 d2 x2 m1 m2 : parse_digits d1 0 = Some m1 → parse_digits d2 0 = Some m2 →
  normal_text n1 d1 x1 = normal_text n2 d2 x2 → (n1 = n2 ∨ d1 = EmptyString ∨ d2 = EmptyString) ∧ (n1 = n2 → d1 = d2 ∧ x1 = x2).
Proof.
  intros H1 H2 E. unfold normal_text in E. change ("e" +:+ ?x) with (String (byte_of_Z 101) x) in E.
  assert (He : ∀ n d m, parse_digits d 0 = Some m → contains_byte (byte_of_Z 101) (if (n : bool) then String minus d else d) = false).
  { intros n d m Hm. pose proof (digits_no_byte _ _ (byte_of_Z 101) Hm eq_refl). by destruct n. }
  apply split_at_byte in E as [E Ex]; [|by eapply He..]. apply big_string_inj in Ex.
  assert (Hmin : ∀ d d' m, parse_digits d 0 = Some m → d = String minus d' → False).
  { intros d d' m Hm ->. by apply parse_digits_cons in Hm as (? & ? & ? & _). }
  destruct n1, n2; split; auto; try (intros ?; naive_solver); exfalso; eauto.
Qed.

Lemma normal_unique m1 x1 m2 x2 : m1 mod 10 ≠ 0 → m2 mod 10 ≠ 0 → same_number (m1, x1) (m2, x2) → m1 = m2 ∧ x1 = x2.
Proof.
  intros H1 H2. unfold same_number. simpl. assert (Hp : ∀ m j, 0 < j → (m * 10 ^ j) mod 10 = 0).
  { intros m j Hj. replace j with (1 + (j - 1)) by lia. rewrite Z.pow_add_r by lia. change (10 ^ 1) with 10.
    replace (m * (10 * 10 ^ (j - 1))) with ((m * 10 ^ (j - 1)) * 10) by lia. by rewrite Z.mod_mul. }
  destruct (Z.lt_trichotomy x1 x2) as [Hx|[Hx|Hx]].
  - rewrite Z.min_l, Z.sub_diag by lia. intros E. destruct H1. rewrite Z.mul_1_r in E. rewrite E. apply Hp. lia.
  - subst. rewrite Z.min_id, Z.sub_diag. simpl. lia.
  - rewrite Z.min_r, Z.sub_diag by lia. intros E. destruct H2. rewrite Z.mul_1_r in E. rewrite <- E. apply Hp. lia.
Qed.

Lemma signed_mod negative m : m mod 10 ≠ 0 → signed negative m mod 10 ≠ 0.
Proof. destruct negative; simpl; [|done]. intros Hm. rewrite Z.mod_opp_l_nz by lia. pose proof (Z.mod_pos_bound m 10). lia. Qed.

Lemma zero_not_normal negative digits x e m v : m mod 10 ≠ 0 → same_number (signed negative m, x) v →
  "0" ≠ normal_text negative digits x ∧ ¬ same_number (0, e) v.
Proof.
  intros Hm Hv. split.
  - intros E. apply (f_equal (contains_byte (byte_of_Z 101))) in E. unfold normal_text in E.
    rewrite !contains_byte_app in E. by rewrite (orb_true_r (contains_byte _ _)) in E.
  - intros He. rewrite <- Hv in He. apply (signed_mod negative) in Hm. unfold same_number in He. simpl in He.
    symmetry in He. rewrite Z.mul_0_l in He. apply Z.mul_eq_0_l in He; [by rewrite He in Hm|]. apply Z.pow_nonzero; lia.
Qed.

Lemma leading_pos d m : leading d → parse_digits d 0 = Some m → 0 < m.
Proof. intros Hl Hm. pose proof (leading_range _ _ Hl Hm). pose proof (pow10_pos (String.length d)). lia. Qed.

(** Canonical texts are equal exactly when the values are. *)
Lemma normal_same t v t' v' : normal t v → normal t' v' → t = t' ↔ same_number v v'.
Proof.
  intros [e|n d m x v1 Hl Hp Hm Hv] [e'|n' d' m' x' v1' Hl' Hp' Hm' Hv'].
  - split; [intros _; unfold same_number; simpl; lia|done].
  - destruct (zero_not_normal n' d' x' e m' v1'); [done..|]. naive_solver.
  - destruct (zero_not_normal n d x e' m v1); [done..|]. split; [intros E; symmetry in E; done|]. intros Hs. symmetry in Hs. done.
  - rewrite <- Hv, <- Hv'. split.
    + intros [Hn Hd]%(normal_text_inj n d x n' d' x' m m'); [|done..].
      assert (n = n') as <- by (destruct Hn as [|[-> | ->]]; done). destruct Hd as [-> ->]; [done|]. by replace m' with m by congruence.
    + intros [Es ->]%normal_unique; [|by apply signed_mod..]. apply leading_pos in Hp as Hm0, Hp' as Hm0'; [|done..].
      assert (n = n' ∧ m = m') as [<- <-] by (destruct n, n'; simpl in Es; lia). by rewrite (leading_inj d d' m).
Qed.

(** ** Reading a number *)

(** The parts of a JSON number; the exponent has its letter, its sign and its
    digits. *)
Record number_parts := mkNumberParts {
  np_negative : bool;
  np_whole : string;
  np_fraction : option string;
  np_exponent : option (ascii * string * string);
}.

Definition fraction_text (f : option string) : string := match f with Some f => String dot f | None => EmptyString end.
Definition exponent_text (x : option (ascii * string * string)) : string :=
  match x with Some (letter, sign, digits) => String letter (sign +:+ digits) | None => EmptyString end.

Definition number_text (p : number_parts) : string :=
  (if np_negative p then String minus EmptyString else EmptyString) +:+ np_whole p +:+ fraction_text (np_fraction p) +:+ exponent_text (np_exponent p).

Definition is_digits (s : string) : Prop := s ≠ EmptyString ∧ is_Some (parse_digits s 0).

Record wf_number (p : number_parts) : Prop := {
  wn_whole : is_digits (np_whole p);
  wn_fraction f : np_fraction p = Some f → is_digits f;
  wn_exponent letter sign digits : np_exponent p = Some (letter, sign, digits) →
    is_exp letter = true ∧ sign ∈ [""; "+"; "-"]%string ∧ is_digits digits;
}.

Definition digits_value (s : string) : Z := default 0 (parse_digits s 0).

Definition exponent_value (x : option (ascii * string * string)) : Z :=
  match x with
  | Some (_, sign, digits) => if String.eqb sign "-" then - digits_value digits else digits_value digits
  | None => 0
  end.

(** The number the parts denote. *)
Definition number_value (p : number_parts) : Z * Z :=
  let fraction := default EmptyString (np_fraction p) in
  (signed (np_negative p) (digits_value (np_whole p +:+ fraction)),
   exponent_value (np_exponent p) - Z.of_nat (String.length fraction)).

Lemma cut_exponent_app a b : (∀ c, is_exp c = true → contains_byte c a = false) →
  cut_exponent (a +:+ b) = let '(x, y) := cut_exponent b in (a +:+ x, y).
Proof.
  induction a as [|c a IH]; intros Ha; [change (EmptyString +:+ b) with b; by destruct (cut_exponent b)|]. simpl.
  destruct (is_exp c) eqn:Ec; [specialize (Ha c Ec); simpl in Ha; by destruct (ascii_dec c c)|].
  rewrite IH by (intros c' Hc'; specialize (Ha c' Hc'); simpl in Ha; by destruct (ascii_dec c' c)). by destruct (cut_exponent b).
Qed.

Lemma is_exp_digit c : is_exp c = true → digit_value c = None ∧ c ≠ dot.
Proof. unfold is_exp. rewrite orb_true_iff, !Z.eqb_eq. intros Hc. split; [unfold digit_value; by destruct Hc as [-> | ->]|intros ->; by destruct Hc]. Qed.

Lemma cut_byte_none c s : contains_byte c s = false → cut_byte c s = None.
Proof. induction s as [|d s IH]; simpl; [done|]. destruct (ascii_dec c d); [done|]. intros H. by rewrite IH. Qed.

Lemma is_digits_no_byte s b : is_digits s → digit_value b = None → contains_byte b s = false.
Proof. intros [_ [n Hn]] Hb. by apply (digits_no_byte s n). Qed.

Lemma cut_mantissa p : wf_number p →
  cut_exponent (np_whole p +:+ fraction_text (np_fraction p) +:+ exponent_text (np_exponent p))
  = (np_whole p +:+ fraction_text (np_fraction p), (λ '(_, sign, digits), sign +:+ digits) <$> np_exponent p).
Proof.
  intros [Hw Hf Hx]. rewrite app_string_assoc, cut_exponent_app.
  - destruct (np_exponent p) as [[[l s] d]|]; simpl; [|by rewrite app_string_nil_r].
    destruct (Hx l s d eq_refl) as (-> & _). by rewrite app_string_nil_r.
  - intros c [Hc Hd]%is_exp_digit. rewrite contains_byte_app, is_digits_no_byte by done.
    destruct (np_fraction p) as [f|]; [|done]. simpl. destruct (ascii_dec c dot); [done|]. by apply is_digits_no_byte; [apply Hf|].
Qed.

Lemma cut_fraction p : wf_number p →
  match cut_byte dot (np_whole p +:+ fraction_text (np_fraction p)) with
  | Some (whole, fraction) => (whole +:+ fraction, String.length fraction)
  | None => (np_whole p +:+ fraction_text (np_fraction p), 0%nat)
  end = (np_whole p +:+ default EmptyString (np_fraction p), String.length (default EmptyString (np_fraction p))).
Proof.
  intros [Hw Hf _]. pose proof (is_digits_no_byte _ dot Hw eq_refl) as Hd. destruct (np_fraction p) as [f|]; simpl.
  - assert (E : cut_byte dot (np_whole p +:+ String dot f) = Some (np_whole p, f)).
    { clear -Hd. induction (np_whole p) as [|c s IH]; [done|]. apply contains_head in Hd as Hc. cbn in Hd |- *.
      destruct (ascii_dec dot c); [done|]. by rewrite IH. }
    by rewrite E.
  - rewrite app_string_nil_r, cut_byte_none by done. done.
Qed.

Lemma exponent_parses p : wf_number p →
  big_of_string (default "0" ((λ '(_, sign, digits), sign +:+ digits) <$> np_exponent p)) = Some (exponent_value (np_exponent p)).
Proof.
  intros [_ _ Hx]. destruct (np_exponent p) as [[[l s] d]|]; [|done]. destruct (Hx l s d eq_refl) as (_ & Hs & Hd). simpl.
  pose proof Hd as [Hne [n Hn]]. unfold digits_value. rewrite Hn. rewrite !elem_of_cons in Hs.
  destruct Hs as [->|[->|[->|Hs]]]; [by apply big_of_string_digits|..|by apply elem_of_nil in Hs];
    unfold big_of_string; cbn; destruct d; [done|by rewrite Hn|done|by rewrite Hn].
Qed.

Lemma scan_number_text p : wf_number p → let digits := trim_left_zeros (np_whole p +:+ default EmptyString (np_fraction p)) in
  scan_number (number_text p) =
    match digits with
    | EmptyString => Some (false, EmptyString, 0)
    | String _ _ => Some (np_negative p, digits, snd (number_value p))
    end.
Proof.
  intros Hp digits. unfold scan_number. set (rest := np_whole p +:+ fraction_text (np_fraction p) +:+ exponent_text (np_exponent p)).
  assert (Es : match number_text p with
               | String c value' => if ascii_dec c minus then (true, value') else (false, number_text p)
               | EmptyString => (false, number_text p)
               end = (np_negative p, rest)).
  { unfold number_text. fold rest. destruct (np_negative p); [done|]. change (EmptyString +:+ rest) with rest. unfold rest.
    destruct (wn_whole _ Hp) as [Hne [n Hn]]. destruct (np_whole p) as [|c w]; [done|]. simpl. destruct (ascii_dec c minus) as [->|]; [|done].
    by apply parse_digits_cons in Hn as (? & ? & ? & _). }
  rewrite Es. unfold rest. rewrite cut_mantissa by done. cbv beta iota. rewrite cut_fraction by done. fold digits.
  rewrite exponent_parses by done. unfold number_value. simpl. by destruct digits.
Qed.

(** Every JSON number has a canonical text, and it is that of its value. *)
Lemma canonicalJSONNumber_normal p : wf_number p → ∃ t, canonicalJSONNumber (number_text p) = Some t ∧ normal t (number_value p).
Proof.
  intros Hp. unfold canonicalJSONNumber. rewrite scan_number_text by done.
  set (all := np_whole p +:+ default EmptyString (np_fraction p)). set (digits := trim_left_zeros all).
  assert (∃ n, parse_digits all 0 = Some n) as [n Hn].
  { destruct (wn_whole _ Hp) as [_ [w Hw]]. unfold all. destruct (np_fraction p) as [f|] eqn:Ef; simpl.
    - destruct (wn_fraction _ Hp f Ef) as [_ [m Hm]]. eexists. by apply parse_digits_app_value.
    - rewrite app_string_nil_r. eauto. }
  assert (Hd : parse_digits digits 0 = Some n) by (unfold digits; by rewrite trim_left_zeros_value).
  assert (Hv : fst (number_value p) = signed (np_negative p) n) by (unfold number_value; simpl; fold all; unfold digits_value; by rewrite Hn).
  pose proof (trim_left_zeros_leading all) as Hcase. fold digits in Hcase. destruct Hcase as [E|Hl].
  - rewrite E in Hd |- *. injection Hd as <-. exists "0"%string. split; [done|]. destruct (number_value p) as [m e]. simpl in Hv.
    assert (m = 0) as -> by (destruct (np_negative p); simpl in Hv; lia). constructor.
  - assert (Hne : digits ≠ EmptyString) by (by destruct digits). revert Hl Hd Hne. generalize digits. intros [|c s] Hl Hd Hne; [done|].
    set (ds := String c s) in *. eexists. split; [done|]. destruct (trim_right_zeros_value _ _ Hd) as (m & Hm & Hle & En & Hz).
    apply trim_right_zeros_leading in Hl as Ht. apply (normal_digits _ _ m); [done|done| |].
    + destruct Hz as [[E _]|]; [|done]. by rewrite E in Ht.
    + destruct (number_value p) as [v e]. simpl in Hv |- *. subst v. rewrite (same_number_at _ _ e); cbn [fst snd]; [|lia..].
      rewrite Z.sub_diag, Z.add_simpl_l. subst n. destruct (np_negative p); simpl signed; lia.
Qed.

(** ** Strings *)

(** A reader of what [json_body] writes, up to the closing quote. *)
Definition prepend (u : string) (r : option (string * string)) : option (string * string) :=
  match r with Some (s, t) => Some (u +:+ s, t) | None => None end.

Definition read_letter (l : ascii) : option string :=
  let b := Z_of_byte l in
  if (b =? 34) || (b =? 92) then Some (String l EmptyString)
  else if b =? 98 then Some (string_of_bytes [8])
  else if b =? 102 then Some (string_of_bytes [12])
  else if b =? 110 then Some (string_of_bytes [10])
  else if b =? 114 then Some (string_of_bytes [13])
  else if b =? 116 then Some (string_of_bytes [9])
  else None.

Definition read_code (code : string) : option string :=
  if String.eqb code "2028" then Some line_separator
  else if String.eqb code "2029" then Some paragraph_separator
  else unhex (drop_bytes 2 code).

Fixpoint json_read (s : string) : option (string * string) :=
  match s with
  | EmptyString => None
  | String c s' =>
      if Z_of_byte c =? 34 then Some (EmptyString, s')
      else if Z_of_byte c =? 92 then
        match s' with
        | String l s'' =>
            if Z_of_byte l =? 117 then
              match s'' with
              | String a (String b (String d (String e t))) =>
                  match read_code (String a (String b (String d (String e EmptyString)))) with
                  | Some u => prepend u (json_read t)
                  | None => None
                  end
              | _ => None
              end
            else match read_letter l with Some u => prepend u (json_read s'') | None => None end
        | EmptyString => None
        end
      else prepend (String c EmptyString) (json_read s')
  end.

Lemma json_read_ascii c t : Z_of_byte c < 128 → json_read (json_ascii c +:+ t) = prepend (String c EmptyString) (json_read t).
Proof. destruct c as [[] [] [] [] [] [] [] []]; intros Hc; try done; reflexivity. Qed.

Lemma json_read_high c t : 128 ≤ Z_of_byte c → json_read (String c t) = prepend (String c EmptyString) (json_read t).
Proof. intros Hc. cbn [json_read]. destruct (Z.eqb_spec (Z_of_byte c) 34); [lia|]. by destruct (Z.eqb_spec (Z_of_byte c) 92); [lia|]. Qed.

Fixpoint high (s : string) : Prop :=
  match s with EmptyString => True | String c s' => 128 ≤ Z_of_byte c ∧ high s' end.

Lemma prepend_app u v r : prepend u (prepend v r) = prepend (u +:+ v) r.
Proof. destruct r as [[s t]|]; simpl; [|done]. by rewrite app_string_assoc. Qed.

Lemma json_read_highs u t : high u → json_read (u +:+ t) = prepend u (json_read t).
Proof.
  induction u as [|c u IH]; [intros _; change (EmptyString +:+ t) with t; by destruct (json_read t) as [[]|]|]. intros [Hc Hu].
  change (String c u +:+ t) with (String c (u +:+ t)). rewrite json_read_high, IH, prepend_app by done. done.
Qed.

Lemma utf8_take_spec s u rest : utf8_take s = Some (u, rest) → s = u +:+ rest ∧ high u ∧ u ≠ EmptyString.
Proof.
  unfold utf8_take. destruct s as [|c0 [|c1 s2]]; [done..|]. destruct (utf8_lead (Z_of_byte c0)) as [[[lo hi] n]|] eqn:El; [|done].
  destruct (between lo hi c1) eqn:Eb; [|done]. assert (H0 : 128 ≤ Z_of_byte c0 ∧ 128 ≤ lo).
  { unfold utf8_lead in El. repeat case_match; simplify_eq; bool_facts; lia. }
  unfold between in Eb. cbn [negb]. destruct n as [|[|[|[|[|n]]]]]; try done.
  - intros [= <- <-]. bool_facts. simpl. split_and!; (done || lia).
  - destruct s2 as [|c2 s3]; [done|]. destruct (continuation c2) eqn:E2; [|done]. intros [= <- <-]. unfold continuation in E2.
    bool_facts. simpl. split_and!; (done || lia).
  - destruct s2 as [|c2 [|c3 s4]]; [done..|]. destruct (continuation c2 && continuation c3) eqn:E2; [|done]. intros [= <- <-].
    unfold continuation in E2. bool_facts. simpl. split_and!; (done || lia).
Qed.

Lemma json_read_rune u t : high u → json_read (json_rune u +:+ t) = prepend u (json_read t).
Proof.
  intros Hu. unfold json_rune. destruct (String.eqb_spec u line_separator) as [->|]; [done|].
  destruct (String.eqb_spec u paragraph_separator) as [->|]; [done|]. by apply json_read_highs.
Qed.

(** Strings the decoder returns: the bytes of runes. *)
Inductive valid_utf8 : string → Prop :=
| valid_empty : valid_utf8 EmptyString
| valid_ascii c s : Z_of_byte c < 128 → valid_utf8 s → valid_utf8 (String c s)
| valid_rune s u rest : utf8_take s = Some (u, rest) → valid_utf8 rest → valid_utf8 s.

Lemma json_read_body s t : valid_utf8 s → ∀ n, (String.length s ≤ n)%nat → json_read (json_body n s +:+ quote +:+ t) = Some (s, t).
Proof.
  induction 1 as [|c s Hc Hs IH|s u rest Hu Hs IH]; intros n Hn.
  - by destruct n.
  - destruct n as [|n]; simpl in Hn; [lia|]. cbn [json_body]. rewrite (proj2 (Z.ltb_lt _ _)) by done.
    rewrite <- app_string_assoc, json_read_ascii, IH by (done || lia). done.
  - destruct (utf8_take_spec _ _ _ Hu) as (Es & Hh & Hne). destruct s as [|c s]; [by destruct u|]. destruct n as [|n]; simpl in Hn; [lia|].
    cbn [json_body]. assert (128 ≤ Z_of_byte c) by (destruct u; [done|]; injection Es as -> _; apply Hh).
    destruct (Z.ltb_spec (Z_of_byte c) 128); [lia|]. rewrite Hu, <- app_string_assoc, json_read_rune, IH; [by rewrite Es|..|done].
    apply (f_equal String.length) in Es. rewrite length_app_string in Es. destruct u; [done|]. simpl in Es. lia.
Qed.

Lemma json_marshal_string_inj a b r s : valid_utf8 a → valid_utf8 b →
  json_marshal_string a +:+ r = json_marshal_string b +:+ s → a = b ∧ r = s.
Proof.
  intros Ha Hb E. unfold json_marshal_string in E. rewrite <- !app_string_assoc in E. apply app_string_inj in E as [_ E]; [|done].
  apply (f_equal json_read) in E. rewrite !json_read_body in E by done. injection E. auto.
Qed.

(** ** Values *)

Lemma json_values (P : json → Prop) :
  P JNull → (∀ b, P (JBool b)) → (∀ s, P (JString s)) → (∀ n, P (JNumber n)) →
  (∀ items, Forall P items → P (JArray items)) → (∀ fields, Forall (λ f, P (snd f)) fields → P (JObject fields)) → ∀ v, P v.
Proof.
  intros Hn Hb Hs Hm Ha Ho. fix IH 1. destruct v as [| | | |items|fields]; [done|apply Hb|apply Hs|apply Hm|..].
  - apply Ha. induction items; constructor; auto.
  - apply Ho. induction fields; constructor; auto.
Qed.

(** Values as the decoder returns them. *)
Inductive wf_json : json → Prop :=
| wf_null : wf_json JNull
| wf_bool b : wf_json (JBool b)
| wf_string s : valid_utf8 s → wf_json (JString s)
| wf_num p : wf_number p → wf_json (JNumber (number_text p))
| wf_array items : Forall wf_json items → wf_json (JArray items)
| wf_object fields : NoDup (fst <$> fields) → Forall (λ f, valid_utf8 (fst f)) fields → Forall (λ f, wf_json (snd f)) fields →
    wf_json (JObject fields).

(** Equal up to the order of fields and the spelling of numbers. *)
Inductive same_json : json → json → Prop :=
| same_null : same_json JNull JNull
| same_bool b : same_json (JBool b) (JBool b)
| same_string s : same_json (JString s) (JString s)
| same_num p q : wf_number p → wf_number q → same_number (number_value p) (number_value q) →
    same_json (JNumber (number_text p)) (JNumber (number_text q))
| same_array items items' : Forall2 same_json items items' → same_json (JArray items) (JArray items')
| same_object fields fields' sorted sorted' : fields ≡ₚ sorted → fields' ≡ₚ sorted' →
    Forall2 (λ f g, fst f = fst g ∧ same_json (snd f) (snd g)) sorted sorted' → same_json (JObject fields) (JObject fields').

Lemma mapM_total {A B} (f : A → option B) l : Forall (λ x, is_Some (f x)) l → is_Some (mapM f l).
Proof. apply mapM_is_Some_2. Qed.

(** Every such value has a canonical text. *)
Lemma writeCanonicalJSON_total v : wf_json v → is_Some (writeCanonicalJSON v).
Proof.
  induction v as [|b|s|n|items IH|fields IH] using json_values; intros Hwf; inversion Hwf as [|?|? ?|p Hp|? Hi|? Hn Hk Hf]; subst; simpl; eauto.
  - destruct (canonicalJSONNumber_normal p Hp) as (t & -> & _). eauto.
  - destruct (mapM_total writeCanonicalJSON items) as [ts ->]; [|simpl; eauto]. rewrite Forall_forall in *. eauto.
  - edestruct (mapM_total (λ field, text ← writeCanonicalJSON (snd field); Some (fst field, text)) fields) as [ts ->]; [|simpl; eauto].
    rewrite Forall_forall in *. intros f Hin. destruct (IH f Hin (Hf f Hin)) as [t ->]. simpl. eauto.
Qed.
