(* ===== verification/CanonicalJSONProps.v ===== *)
(** * Fingerprints: what they identify

    Two decoded parameter values have one fingerprint exactly when they are
    the same JSON value: the order of fields, white space, escapes and the
    spelling of numbers do not matter, everything else does. *)

From Stdlib Require Import ZArith Lia Bool Ascii.
From stdpp Require Import base tactics decidable option list numbers strings sets sorting.
From S2P Require Import Prelude Bytes Nostr EventID SampleDigest CanonicalJSON CanonicalJSONFacts.

(** ** First bytes *)

(** The kind of value a text begins. *)
Definition byte_class (c : ascii) : option nat :=
  let b := Z_of_byte c in
  if b =? 110 then Some 0%nat
  else if (b =? 116) || (b =? 102) then Some 1%nat
  else if b =? 34 then Some 2%nat
  else if (b =? 45) || (48 <=? b) && (b <=? 57) then Some 3%nat
  else if b =? 91 then Some 4%nat
  else if b =? 123 then Some 5%nat
  else None.

Definition value_class (v : json) : nat :=
  match v with JNull => 0 | JBool _ => 1 | JString _ => 2 | JNumber _ => 3 | JArray _ => 4 | JObject _ => 5 end.

Definition begins (n : nat) (t : string) : Prop := match t with String c _ => byte_class c = Some n | EmptyString => False end.

Lemma begins_app n t r : begins n t → begins n (t +:+ r).
Proof. by destruct t. Qed.

Lemma begins_eq n m t : begins n t → begins m t → n = m.
Proof. destruct t; simpl; [done|congruence]. Qed.

Lemma digits_begin s n r : s ≠ EmptyString → parse_digits s 0 = Some n → begins 3 (s +:+ r).
Proof.
  destruct s as [|c s]; [done|]. intros _ (d & m & Hd & _)%parse_digits_cons. apply digit_value_range in Hd as [Hd ->]. simpl.
  unfold byte_class. rewrite Z_of_byte_of_Z, Z.mod_small by lia.
  repeat match goal with |- context [?a =? ?b] => destruct (Z.eqb_spec a b); [lia|] end. simpl.
  by rewrite (proj2 (Z.leb_le 48 _)), (proj2 (Z.leb_le _ 57)) by lia.
Qed.

Lemma normal_begins t v : normal t v → begins 3 t.
Proof.
  intros [e|[] d m x w Hl Hd Hm _]; [done|done|]. apply (digits_begin d m); [by destruct d|done].
Qed.

Lemma write_begins v t : wf_json v → writeCanonicalJSON v = Some t → begins (value_class v) t.
Proof.
  intros Hwf. destruct Hwf as [|[]|s|p Hp|items|fields]; simpl; try (intros [= <-]; done).
  - intros E. destruct (canonicalJSONNumber_normal p Hp) as (t' & E' & Hn). rewrite E' in E. injection E as <-. by eapply normal_begins.
  - destruct (mapM _ _); [|done]. by intros [= <-].
  - destruct (mapM _ _); [|done]. by intros [= <-].
Qed.

(** ** Delimiters *)

(** What may follow a value. *)
Definition delimited (r : string) : Prop :=
  match r with String c _ => Z_of_byte c = 44 ∨ Z_of_byte c = 93 ∨ Z_of_byte c = 125 | EmptyString => True end.

Definition number_byte (c : ascii) : bool := (Z_of_byte c =? 45) || (Z_of_byte c =? 101) || (48 <=? Z_of_byte c) && (Z_of_byte c <=? 57).

Fixpoint number_bytes (s : string) : Prop :=
  match s with EmptyString => True | String c s' => number_byte c = true ∧ number_bytes s' end.

Lemma number_bytes_app a b : number_bytes a → number_bytes b → number_bytes (a +:+ b).
Proof. induction a; simpl; naive_solver. Qed.

Lemma digits_number s : ∀ n, parse_digits s 0 = Some n → number_bytes s.
Proof.
  induction s as [|c s IH]; intros n; [done|]. intros (d & m & Hd & Hm & _)%parse_digits_cons. split; [|by eapply IH].
  unfold digit_value in Hd. unfold number_byte. destruct (_ && _); [|done]. by rewrite orb_true_r.
Qed.

Lemma big_string_number z : number_bytes (big_string z).
Proof.
  unfold big_string. destruct (Z.ltb_spec z 0); [split; [done|]|]; eapply digits_number, big_digits_parse; lia.
Qed.

Lemma normal_number t v : normal t v → number_bytes t.
Proof.
  intros [e|n d m x w Hl Hd Hm _]; [done|]. apply digits_number in Hd. unfold normal_text.
  apply number_bytes_app; [by destruct n|]. split; [done|]. apply big_string_number.
Qed.

Lemma delimited_number c s : delimited (String c s) → number_byte c = false.
Proof. unfold number_byte. by intros [-> |[-> | ->]]. Qed.

Lemma number_prefix t : ∀ u r s, number_bytes t → number_bytes u → delimited r → delimited s → t +:+ r = u +:+ s → t = u ∧ r = s.
Proof.
  induction t as [|c t IH]; intros [|d u] r s Ht Hu Hr Hs E; simpl in E.
  - done.
  - subst r. destruct Hu as [Hd _]. apply delimited_number in Hr. congruence.
  - subst s. destruct Ht as [Hd _]. apply delimited_number in Hs. congruence.
  - injection E as -> E. destruct Ht as [_ Ht], Hu as [_ Hu]. by destruct (IH u r s Ht Hu Hr Hs E) as [-> ->].
Qed.

(** ** Lists of texts *)

Definition join_tail (texts : list string) : string := match texts with [] => EmptyString | _ :: _ => "," +:+ join texts end.

Lemma join_cons t texts : join (t :: texts) = t +:+ join_tail texts.
Proof. destruct texts; simpl; [by rewrite app_string_nil_r|done]. Qed.

(** [t] determines what [R] says of [u] and where it ends. *)
Definition determines (R : Prop) (t u : string) : Prop := ∀ r s, delimited r → delimited s → t +:+ r = u +:+ s → R ∧ r = s.

Definition opens (close : ascii) (t : string) : Prop := match t with String c _ => c ≠ close | EmptyString => False end.

Lemma join_determines (R : string → string → Prop) close : delimited (String close EmptyString) → close ≠ byte_of_Z 44 →
  ∀ ts us r s, (∀ t u, t ∈ ts → u ∈ us → determines (R t u) t u) → Forall (opens close) ts → Forall (opens close) us →
  join ts +:+ String close r = join us +:+ String close s → Forall2 R ts us ∧ r = s.
Proof.
  intros Hd Hc. induction ts as [|t ts IH]; intros us r s HR Hts Hus E.
  - destruct us as [|u us]; [by injection E as ->|]. apply Forall_cons in Hus as [Hu _]. rewrite join_cons in E.
    destruct u; [done|]. injection E as -> _. done.
  - destruct us as [|u us]; [apply Forall_cons in Hts as [Ht _]; rewrite join_cons in E; destruct t; [done|]; injection E as -> _; done|].
    rewrite !join_cons, <- !app_string_assoc in E.
    assert (Htail : ∀ ts r, delimited (join_tail ts +:+ String close r)) by (intros []; [exact (λ _, Hd)|by left]).
    destruct (HR t u (list_elem_of_here _ _) (list_elem_of_here _ _) _ _ (Htail ts r) (Htail us s) E) as [Htu E'].
    apply Forall_cons in Hts as [_ Hts], Hus as [_ Hus]. destruct ts as [|t' ts], us as [|u' us].
    + injection E' as ->. split; [by repeat constructor|done].
    + by injection E' as -> _.
    + by injection E' as <- _.
    + apply (app_string_inj "," ",") in E' as [_ E']; [|done].
      destruct (IH (u' :: us) r s) as [HF ->]; [|done..|by split; [constructor|]].
      intros x y Hx Hy. apply HR; by right.
Qed.

(** ** Values *)

Lemma Forall2_mix {A B} (R : A → A → Prop) (Q : B → B → Prop) (f : A → B → Prop) l1 l2 k1 k2 :
  Forall2 f l1 k1 → Forall2 f l2 k2 → Forall2 Q k1 k2 → (∀ x y a b, x ∈ l1 → y ∈ l2 → f x a → f y b → Q a b → R x y) → Forall2 R l1 l2.
Proof.
  intros H1. revert l2 k2. induction H1 as [|x a l1 k1 Hx H1 IH]; intros l2 k2 H2 HQ HR.
  - apply Forall2_nil_inv_l in HQ as ->. apply Forall2_nil_inv_r in H2 as ->. constructor.
  - apply Forall2_cons_inv_l in HQ as (b & k2' & Hab & HQ & ->). apply Forall2_cons_inv_r in H2 as (y & l2' & Hy & H2 & ->).
    constructor; [apply (HR x y a b); (done || left)|]. apply (IH _ k2' H2 HQ). intros x' y' a' b' Hx' Hy'. apply HR; by right.
Qed.

Lemma Forall2_perm {A B} (R : A → B → Prop) l k k' : Forall2 R l k → k ≡ₚ k' → ∃ l', l ≡ₚ l' ∧ Forall2 R l' k'.
Proof.
  intros HR Hp. revert l HR. induction Hp as [|x k k' Hp IH|x y k|k1 k2 k3 _ IH1 _ IH2]; intros l HR.
  - exists l. apply Forall2_nil_inv_r in HR as ->. by split.
  - apply Forall2_cons_inv_r in HR as (a & l0 & Ha & Hl & ->). destruct (IH _ Hl) as (l' & Hl' & HR'). exists (a :: l'). split; [by f_equiv|by constructor].
  - apply Forall2_cons_inv_r in HR as (a & l0 & Ha & Hl & ->). apply Forall2_cons_inv_r in Hl as (b & l1 & Hb & Hl & ->).
    exists (b :: a :: l1). split; [constructor|by repeat constructor].
  - destruct (IH1 _ HR) as (l1 & Hl1 & HR1). destruct (IH2 _ HR1) as (l2 & Hl2 & HR2). exists l2. by rewrite Hl1.
Qed.

Definition field_written (f : string * json) (p : string * string) : Prop := fst f = fst p ∧ writeCanonicalJSON (snd f) = Some (snd p).

Lemma mapM_fields fields ts : mapM (λ field, text ← writeCanonicalJSON (snd field); Some (fst field, text)) fields = Some ts →
  Forall2 field_written fields ts.
Proof.
  intros H%mapM_Some. eapply Forall2_impl; [exact H|]. intros [k v] [k' t]. unfold field_written. simpl. destruct (writeCanonicalJSON v) as [x|]; [|done].
  intros E. injection E as -> ->. done.
Qed.

Lemma quote_begins k r : begins 2 (json_marshal_string k +:+ r).
Proof. done. Qed.

Lemma class_opens n t close : begins n t → byte_class close = None → opens close t.
Proof. destruct t; [done|]. simpl. intros Hc Hn ->. congruence. Qed.

(** The text of a field determines the field if that of its value does. *)
Lemma field_determines (R : Prop) a b : valid_utf8 (fst a) → valid_utf8 (fst b) → determines R (snd a) (snd b) →
  determines (fst a = fst b ∧ R) (field_text a) (field_text b).
Proof.
  intros Ha Hb HR r s Hr Hs E. unfold field_text in E. rewrite <- !app_string_assoc in E.
  apply json_marshal_string_inj in E as [Hk E]; [|done..]. apply (app_string_inj colon_byte colon_byte) in E as [_ E]; [|done].
  by destruct (HR r s Hr Hs E) as [? ->].
Qed.

Lemma array_determines items items' : wf_json (JArray items) → wf_json (JArray items') →
  (∀ v w t u, v ∈ items → w ∈ items' → writeCanonicalJSON v = Some t → writeCanonicalJSON w = Some u → determines (same_json v w) t u) →
  ∀ t u, writeCanonicalJSON (JArray items) = Some t → writeCanonicalJSON (JArray items') = Some u →
  determines (same_json (JArray items) (JArray items')) t u.
Proof.
  intros Hv Hw HI t u Et Eu r s Hr Hs E. inversion Hv as [| | | |? Hi|]; inversion Hw as [| | | |? Hi'|]; subst. simpl in Et, Eu.
  destruct (mapM _ items) as [ts|] eqn:Mt; [|done]. destruct (mapM _ items') as [us|] eqn:Mu; [|done]. injection Et as <-. injection Eu as <-.
  apply mapM_Some in Mt, Mu. injection E as E. rewrite <- !app_string_assoc in E.
  assert (Ho : ∀ l k, Forall wf_json l → Forall2 (λ x y, writeCanonicalJSON x = Some y) l k → Forall (opens (byte_of_Z 93)) k).
  { intros l k Hl Hk. apply Forall_forall. intros x Hx. apply list_elem_of_lookup in Hx as [i Hx]. destruct (Forall2_lookup_r _ _ _ _ _ Hk Hx) as (y & Hy & Ey).
    apply (class_opens (value_class y)); [|done]. apply write_begins; [|done]. by eapply Forall_lookup_1. }
  set (R x y := ∀ v w, v ∈ items → w ∈ items' → writeCanonicalJSON v = Some x → writeCanonicalJSON w = Some y → same_json v w).
  destruct (join_determines R (byte_of_Z 93) ltac:(by right; left) ltac:(done) ts us r s) as [HF ->]; [|by apply (Ho items)|by apply (Ho items')|done|].
  - intros x y Hx Hy. apply list_elem_of_lookup in Hx as [i Hx], Hy as [j Hy]. destruct (Forall2_lookup_r _ _ _ _ _ Mt Hx) as (v & Hv' & Ev).
    destruct (Forall2_lookup_r _ _ _ _ _ Mu Hy) as (w & Hw' & Ew). apply list_elem_of_lookup_2 in Hv', Hw'.
    intros r' s' Hr' Hs' E'. split; [intros v' w' Hv2 Hw2 Ev2 Ew2; exact (proj1 (HI v' w' x y Hv2 Hw2 Ev2 Ew2 r' s' Hr' Hs' E'))|].
    exact (proj2 (HI v w x y Hv' Hw' Ev Ew r' s' Hr' Hs' E')).
  - split; [|done]. constructor. eapply Forall2_mix; [exact Mt|exact Mu|exact HF|]. intros v w x y Hv' Hw' Ev Ew HR. by apply HR.
Qed.

Lemma object_determines fields fields' : wf_json (JObject fields) → wf_json (JObject fields') →
  (∀ v w t u, v ∈ snd <$> fields → w ∈ snd <$> fields' → writeCanonicalJSON v = Some t → writeCanonicalJSON w = Some u →
    determines (same_json v w) t u) →
  ∀ t u, writeCanonicalJSON (JObject fields) = Some t → writeCanonicalJSON (JObject fields') = Some u →
  determines (same_json (JObject fields) (JObject fields')) t u.
Proof.
  intros Hv Hw HI t u Et Eu r s Hr Hs E. inversion Hv as [| | | | |? _ Hk Hf]; inversion Hw as [| | | | |? _ Hk' Hf']; subst. simpl in Et, Eu.
  destruct (mapM _ fields) as [ts|] eqn:Mt; [|done]. destruct (mapM _ fields') as [us|] eqn:Mu; [|done]. injection Et as <-. injection Eu as <-.
  injection E as E. rewrite <- !app_string_assoc in E. apply mapM_fields in Mt, Mu.
  destruct (Forall2_perm _ _ _ (merge_sort field_le ts) Mt) as (F & HF & WF); [symmetry; apply merge_sort_Permutation|].
  destruct (Forall2_perm _ _ _ (merge_sort field_le us) Mu) as (G & HG & WG); [symmetry; apply merge_sort_Permutation|].
  revert E WF WG. generalize (merge_sort field_le ts) (merge_sort field_le us). intros sl sl' E WF WG. rewrite HF in Hk. rewrite HG in Hk'.
  set (R x y := ∀ f g a b, f ∈ F → g ∈ G → field_written f a → field_written g b → x = field_text a → y = field_text b →
    fst f = fst g ∧ same_json (snd f) (snd g)).
  assert (Hdet : ∀ f g a b, f ∈ F → g ∈ G → field_written f a → field_written g b →
    determines (fst f = fst g ∧ same_json (snd f) (snd g)) (field_text a) (field_text b)).
  { intros f g a b HfF HgG [Ef1 Ef2] [Eg1 Eg2]. rewrite Forall_forall in Hk, Hk'. rewrite Ef1, Eg1.
    apply field_determines; [rewrite <- Ef1; auto|rewrite <- Eg1; auto|]. apply HI; [..|done|done];
      [rewrite <- HF in HfF|rewrite <- HG in HgG]; by apply list_elem_of_fmap_2. }
  assert (Ho : ∀ l, Forall (opens (byte_of_Z 125)) (field_text <$> l)) by (intros l; apply Forall_fmap, Forall_true; done).
  destruct (join_determines R (byte_of_Z 125) ltac:(by right; right) ltac:(done) (field_text <$> sl) (field_text <$> sl') r s) as [HR ->]; [|done..|].
  - intros x y (a & -> & Ha)%list_elem_of_fmap (b & -> & Hb)%list_elem_of_fmap r' s' Hr' Hs' E'.
    apply list_elem_of_lookup in Ha as [i Ha], Hb as [j Hb]. destruct (Forall2_lookup_r _ _ _ _ _ WF Ha) as (f & Hfi & Wf).
    destruct (Forall2_lookup_r _ _ _ _ _ WG Hb) as (g & Hgi & Wg). apply list_elem_of_lookup_2 in Hfi, Hgi. split.
    + intros f' g' a' b' ? ? ? ? Ea Eb. rewrite Ea, Eb in E'. by destruct (Hdet f' g' a' b' ltac:(done) ltac:(done) ltac:(done) ltac:(done) r' s' Hr' Hs' E').
    + by destruct (Hdet f g a b Hfi Hgi Wf Wg r' s' Hr' Hs' E').
  - split; [|done]. apply (same_object _ _ F G HF HG). apply Forall2_fmap_1 in HR.
    eapply Forall2_mix; [exact WF|exact WG|exact HR|]. intros f g a b Hf1 Hg1 Wf Wg HRab. by apply (HRab f g a b).
Qed.

Lemma same_class v w t u r s : wf_json v → wf_json w → writeCanonicalJSON v = Some t → writeCanonicalJSON w = Some u →
  t +:+ r = u +:+ s → value_class v = value_class w.
Proof.
  intros Hv Hw Et Eu E. apply (begins_eq _ _ (t +:+ r)); [|rewrite E]; apply begins_app; by apply write_begins.
Qed.

Lemma write_determines v : ∀ w t u, wf_json v → wf_json w → writeCanonicalJSON v = Some t → writeCanonicalJSON w = Some u →
  determines (same_json v w) t u.
Proof.
  induction v as [|b|a|n|items IH|fields IH] using json_values; intros w t u Hv Hw Et Eu r s Hr Hs E;
    pose proof (same_class _ _ _ _ _ _ Hv Hw Et Eu E) as Hc; destruct w as [|b'|a'|n'|items'|fields']; try done; clear Hc.
  - injection Et as <-. injection Eu as <-. apply app_string_inj in E as [_ ->]; [|done]. by split; [constructor|].
  - injection Et as <-. injection Eu as <-. destruct b, b'; try done; apply app_string_inj in E as [_ ->]; try done; by split; [constructor|].
  - injection Et as <-. injection Eu as <-. inversion Hv; inversion Hw; subst. apply json_marshal_string_inj in E as [-> ->]; [|done..]. by split; [constructor|].
  - inversion Hv as [| | |p Hp| |]; inversion Hw as [| | |q Hq| |]; subst. simpl in Et, Eu.
    destruct (canonicalJSONNumber_normal p Hp) as (t' & Et' & Nt). destruct (canonicalJSONNumber_normal q Hq) as (u' & Eu' & Nu).
    replace t' with t in * by congruence. replace u' with u in * by congruence.
    apply number_prefix in E as [E ->]; [|by eapply normal_number..|done|done]. split; [|done]. constructor; [done..|]. by apply (normal_same t _ u).
  - rewrite Forall_forall in IH. apply (array_determines items items' Hv Hw) with t u; try done. inversion Hv as [| | | |? Hi|]; inversion Hw as [| | | |? Hi'|]; subst.
    rewrite Forall_forall in Hi, Hi'. intros v w x y Hin Hin'. apply IH; auto.
  - rewrite Forall_forall in IH. apply (object_determines fields fields' Hv Hw) with t u; try done. inversion Hv as [| | | | |? _ _ Hf]; inversion Hw as [| | | | |? _ _ Hf']; subst.
    rewrite Forall_forall in Hf, Hf'. intros v w x y (f & -> & Hin)%list_elem_of_fmap (g & -> & Hin')%list_elem_of_fmap. apply IH; auto.
Qed.

(** ** The converse *)

Lemma sorted_fields_unique ts us : NoDup (fst <$> ts) → ts ≡ₚ us → merge_sort field_le ts = merge_sort field_le us.
Proof.
  intros Hn Hp. assert (Htot : Total field_le) by (intros x y; unfold field_le; apply (total bytes_le)).
  assert (Htr : Transitive field_le) by (intros x y z; unfold field_le; apply (transitivity (R := bytes_le))).
  apply (StronglySorted_unique_strong field_le); [|by apply StronglySorted_merge_sort..|by rewrite !merge_sort_Permutation].
  intros x y Hx Hy Hxy Hyx. rewrite merge_sort_Permutation in Hx. rewrite merge_sort_Permutation, <- Hp in Hy.
  assert (Ek : fst x = fst y) by (by apply (anti_symm bytes_le)). apply list_elem_of_lookup in Hx as [i Hi], Hy as [j Hj].
  assert (i = j) as <-; [|congruence]. apply (NoDup_lookup (fst <$> ts) i j (fst x)); [done|..]; rewrite list_lookup_fmap.
  - by rewrite Hi.
  - by rewrite Hj, Ek.
Qed.

Lemma Forall2_fst fields ts : Forall2 field_written fields ts → fst <$> fields = fst <$> ts.
Proof. induction 1 as [|f p fs ps [E _] _ IH]; [done|]. rewrite !fmap_cons. by f_equal. Qed.

Lemma Forall2_same_text F G : (∀ f, f ∈ F → ∀ w, same_json (snd f) w → wf_json (snd f) → wf_json w → writeCanonicalJSON (snd f) = writeCanonicalJSON w) →
  Forall (λ f, wf_json (snd f)) F → Forall (λ f, wf_json (snd f)) G →
  Forall2 (λ f g, fst f = fst g ∧ same_json (snd f) (snd g)) F G →
  ∃ ts, Forall2 field_written F ts ∧ Forall2 field_written G ts.
Proof.
  intros HI HF HG HS. induction HS as [|f g F G [Ek Hs] _ IH]; [exists []; by repeat constructor|].
  apply Forall_cons in HF as [Hf HF], HG as [Hg HG]. destruct IH as (ts & HF' & HG'); [intros f' Hf'; apply HI; by right|done..|].
  destruct (writeCanonicalJSON_total _ Hf) as [t Ht]. exists ((fst f, t) :: ts).
  assert (Eg := HI f (list_elem_of_here _ _) _ Hs Hf Hg). split; constructor; unfold field_written; simpl; auto. by rewrite <- Eg.
Qed.

Lemma write_fields fields sorted ts : NoDup (fst <$> fields) → fields ≡ₚ sorted → Forall2 field_written sorted ts →
  writeCanonicalJSON (JObject fields) = Some ("{" +:+ join (field_text <$> merge_sort field_le ts) +:+ "}").
Proof.
  intros Hn Hp Hts. destruct (Forall2_perm (flip field_written) ts sorted fields) as (us & Hus & HW); [by apply Forall2_flip|by symmetry|].
  apply Forall2_flip in HW. assert (Hm : mapM (λ field, text ← writeCanonicalJSON (snd field); Some (fst field, text)) fields = Some us).
  { apply mapM_Some_2. eapply Forall2_impl; [exact HW|]. intros [k v] [k' t] [E1 E2]. simpl in *. rewrite E2. simpl. by rewrite E1. }
  simpl. rewrite Hm. simpl. do 4 f_equal. f_equal. apply sorted_fields_unique; [|done].
  apply (Forall2_fst fields us) in HW. by rewrite <- HW.
Qed.

Lemma same_write v : ∀ w, same_json v w → wf_json v → wf_json w → writeCanonicalJSON v = writeCanonicalJSON w.
Proof.
  induction v as [|b|a|n|items IH|fields IH] using json_values; intros w HS Hv Hw; inversion HS as [| | |p q Hp Hq Hpq|? items' Hi|? fields' F G HF HG HS']; subst; try done.
  - destruct (canonicalJSONNumber_normal p Hp) as (t & Et & Nt). destruct (canonicalJSONNumber_normal q Hq) as (u & Eu & Nu).
    simpl. rewrite Et, Eu. f_equal. by apply (normal_same t (number_value p) u (number_value q)).
  - inversion Hv as [| | | |? Wi|]; inversion Hw as [| | | |? Wi'|]; subst. simpl. f_equal. clear Hv Hw HS.
    induction Hi as [|x y xs ys Hxy _ IHl]; [done|]. apply Forall_cons in IH as [IHx IHxs], Wi as [Wx Wxs], Wi' as [Wy Wys]. simpl.
    rewrite (IHx y Hxy Wx Wy). by rewrite (IHl IHxs Wxs Wys).
  - inversion Hv as [| | | | |? Hn _ Wf]; inversion Hw as [| | | | |? Hn' _ Wf']; subst. rewrite HF in IH, Wf. rewrite HG in Wf'.
    rewrite Forall_forall in IH. destruct (Forall2_same_text F G IH Wf Wf' HS') as (ts & HT & HT').
    by rewrite (write_fields fields F ts), (write_fields fields' G ts).
Qed.

(** ** Fingerprints *)

Lemma canonical_exact v w : wf_json v → wf_json w → writeCanonicalJSON v = writeCanonicalJSON w ↔ same_json v w.
Proof.
  intros Hv Hw. split; [|intros HS; by apply same_write]. intros E. destruct (writeCanonicalJSON_total v Hv) as [t Et].
  assert (Eu : writeCanonicalJSON w = Some t) by congruence.
  apply (write_determines v w t t Hv Hw Et Eu EmptyString EmptyString); done.
Qed.

Section fingerprint.
Context `{NostrLaws} (json_value : string → option json).

(** The decoder returns UTF-8 strings, JSON numbers and objects whose keys are
    distinct. *)
Hypothesis decoder : ∀ params v, json_value params = Some v → wf_json v.

(** C32: parameters that decode always have a fingerprint, and two of them have
    the same one exactly when they decode to the same JSON value, up to the
    order of fields and the spelling of numbers. *)
Theorem fingerprint_exact params params' v v' f : json_value params = Some v → json_value params' = Some v' →
  contextVMRequestFingerprint json_value params = Some f → String.length f = 64%nat →
  is_Some (contextVMRequestFingerprint json_value params')
  ∧ (contextVMRequestFingerprint json_value params' = Some f ↔ same_json v v').
Proof.
  intros Ev Ev'. unfold contextVMRequestFingerprint. rewrite Ev, Ev'. simpl. apply decoder in Ev, Ev'.
  destruct (writeCanonicalJSON_total v Ev) as [t Et]. destruct (writeCanonicalJSON_total v' Ev') as [t' Et'].
  rewrite <- (canonical_exact v v' Ev Ev'), Et, Et'. simpl. intros [= <-] Hl. split; [by eexists|].
  split; [|intros [= ->]; done]. intros [= E]. apply (f_equal unhex) in E. rewrite !unhex_hex in E.
  injection E as E. rewrite length_hex in Hl. f_equal. symmetry. apply sha256_collision_free; [rewrite E; lia|done].
Qed.

End fingerprint.

(** ** A sample *)

Module FingerprintSample.

Definition one : number_parts := mkNumberParts false "1" (Some "0"%string) None.
Definition one' : number_parts := mkNumberParts false "10" None (Some (byte_of_Z 101, "-"%string, "1"%string)).
Definition twenty : number_parts := mkNumberParts true "20" None None.
Definition twenty' : number_parts := mkNumberParts true "2" None (Some (byte_of_Z 69, "+"%string, "1"%string)).

Definition params : string := "[1.0, -20, null]".
Definition params' : string := "[10e-1,-2E+1,null]".
Definition value : json := JArray [JNumber (number_text one); JNumber (number_text twenty); JNull].
Definition value' : json := JArray [JNumber (number_text one'); JNumber (number_text twenty'); JNull].

Definition decode (text : string) : option json :=
  if String.eqb text params then Some value else if String.eqb text params' then Some value' else None.

Lemma numbers_wf : Forall wf_number [one; one'; twenty; twenty'].
Proof.
  assert (Hd : ∀ c t n, parse_digits (String c t) 0 = Some n → is_digits (String c t)) by (intros c t n Hn; split; [done|by exists n]).
  repeat (apply Forall_cons; split); [..|constructor]; split; simpl; try (by eapply Hd); intros; simplify_eq;
    try (by eapply Hd); (split; [done|]; split; [set_solver|by eapply Hd]).
Qed.

Lemma decode_wf text v : decode text = Some v → wf_json v.
Proof.
  pose proof numbers_wf as Hn. rewrite !Forall_cons in Hn. destruct Hn as (H1 & H1' & H2 & H2' & _).
  unfold decode. destruct (String.eqb text params); [|destruct (String.eqb text params'); [|done]]; intros [= <-]; apply wf_array;
    repeat (apply Forall_cons; split); (by apply wf_num) || apply wf_null || constructor.
Qed.

#[local] Instance sample_prims : NostrPrims := {|
  sha256 := digest [("[1e0,-2e1,null]"%string, key_of 90)];
  verify_bip340 := λ _ _ _, true;
  ParsePubKey := λ _, true;
  SchnorrVerify := λ _ _ _, true;
  decode_unadmitted := λ _, None;
  decode_accepted := λ _, None;
  decode_refused := λ _, None;
|}.

#[local] Instance sample_laws : NostrLaws.
Proof. split; [|done]. intros a b. apply (digest_collision_free [("[1e0,-2e1,null]"%string, key_of 90)]). vm_compute. repeat constructor; set_solver. Qed.

Lemma fingerprint_exact_witness : is_Some (contextVMRequestFingerprint decode params')
  ∧ (contextVMRequestFingerprint decode params' = Some (hex (key_of 90)) ↔ same_json value value').
Proof.
  apply (fingerprint_exact decode decode_wf params params' value value' (hex (key_of 90))); [done|done|vm_compute; reflexivity|done].
Defined.

End FingerprintSample.
