(* ===== verification/Inbound.v ===== *)
(** * Validation of relay events

    [src/internal/adapters/nostr/validation.go], with the NIP-40 expiration of
    [src/third_party/nostr/nip40/nip40.go] and the age rule of
    [src/internal/nostrutil/lifecycle.go]. *)

From Stdlib Require Import ZArith Lia Bool Ascii.
From stdpp Require Import base tactics decidable option list numbers strings gmap.
From S2P Require Import Prelude Bytes Nostr EventID Bolt BoltCoord.

Definition InboundEventMaxFutureSkew : Z := 10 * minute.
Definition MaxEventAge : Z := 365 * 24 * hour.

Definition KindDeletion : Z := 5.

(** -1 without a valid [expiration] tag. *)
Fixpoint GetExpiration (tags : list (list string)) : Z :=
  match tags with
  | (name :: value :: _) :: tags' =>
      if String.eqb name "expiration" then default (-1) (parse_int64 value) else GetExpiration tags'
  | _ :: tags' => GetExpiration tags'
  | [] => -1
  end.

Definition ExpiresAt (ev : Event) : Z := if 0 <? GetExpiration (ev_Tags ev) then GetExpiration (ev_Tags ev) else 0.

Definition Expired (ev : Event) (now : Z) : bool := (0 <? ExpiresAt ev) && (ExpiresAt ev <=? unix_sec now).

Definition IsStateKind (kind : Z) : bool := IsReplaceable kind || IsAddressable kind.

Definition AgeCapped (kind : Z) : bool := negb (IsStateKind kind) && negb (kind =? KindDeletion).

Inductive InboundError :=
| ErrFieldRequired (name : string)
| ErrFieldLength (name : string)
| ErrFieldHex (name : string)
| ErrKindNegative
| ErrCreatedAtRequired
| ErrCreatedAtFuture
| ErrCreatedAtPast
| ErrEventExpired
| ErrTagEmpty
| ErrTagKey
| ErrIDMismatch
| ErrSignature.

Definition validateHexField (name value : string) (expectedLen : nat) : result InboundError unit :=
  check! negb (String.eqb value "") else ErrFieldRequired name in
  check! Nat.eqb (String.length value) expectedLen else ErrFieldLength name in
  check! (if unhex value then true else false) else ErrFieldHex name in
  Ok tt.

Fixpoint validateTags (tags : list (list string)) : result InboundError unit :=
  match tags with
  | [] => Ok tt
  | [] :: _ => Err ErrTagEmpty
  | (key :: _) :: tags' => if String.eqb key "" then Err ErrTagKey else validateTags tags'
  end.

(** The [time.Time] of a [nostr.Timestamp]. *)
Definition timestamp_time (t : Z) : Z := t * second.

(** Called with a non-zero time and the default skew. *)
Definition ValidateInboundEvent `{NostrPrims} (ev : Event) (now : Z) : result InboundError unit :=
  let! _ := validateHexField "id" (hex (ev_ID ev)) 64 in
  let! _ := validateHexField "pubkey" (hex (ev_PubKey ev)) 64 in
  let! _ := validateHexField "signature" (hex (ev_Sig ev)) 128 in
  check! negb (ev_Kind ev <? 0) else ErrKindNegative in
  check! negb (ev_CreatedAt ev <=? 0) else ErrCreatedAtRequired in
  let createdAt := timestamp_time (ev_CreatedAt ev) in
  check! negb (time_after createdAt (now + InboundEventMaxFutureSkew)) else ErrCreatedAtFuture in
  check! negb (AgeCapped (ev_Kind ev) && time_before createdAt (now - MaxEventAge)) else ErrCreatedAtPast in
  check! negb (Expired ev now) else ErrEventExpired in
  let! _ := validateTags (ev_Tags ev) in
  check! CheckID ev else ErrIDMismatch in
  check! VerifySignature ev else ErrSignature in
  Ok tt.

(** What an accepted event satisfies. *)
Record admissible `{NostrPrims} (ev : Event) (now : Z) : Prop := {
  adm_id : CheckID ev = true;
  adm_signature : VerifySignature ev = true;
  adm_created : 0 < ev_CreatedAt ev;
  adm_future : timestamp_time (ev_CreatedAt ev) ≤ now + InboundEventMaxFutureSkew;
  adm_past : AgeCapped (ev_Kind ev) = true → now - MaxEventAge ≤ timestamp_time (ev_CreatedAt ev);
  adm_expiration : 0 < GetExpiration (ev_Tags ev) → unix_sec now < GetExpiration (ev_Tags ev);
}.

Lemma ValidateInboundEvent_admissible `{NostrPrims} ev now : ValidateInboundEvent ev now = Ok tt → admissible ev now.
Proof.
  unfold ValidateInboundEvent. intros Hok. inv_ok. bool_facts. unfold time_after, time_before, Expired, ExpiresAt in *.
  split; [done|done|lia|by bool_facts| |].
  - intros Hc. rewrite Hc in *. simpl in *. bool_facts. done.
  - intros He. rewrite (proj2 (Z.ltb_lt _ _) He) in *. rewrite (proj2 (Z.ltb_lt _ _) He) in *. simpl in *. by bool_facts.
Qed.
