(* ===== verification/ContextVM.v ===== *)
(** * The ContextVM request ledger

    [src/internal/adapters/nostr/localstore/contextvm.go], and the inbound
    cursors of [store.go] beside it: which requests were claimed, completed
    and delivered, in buckets of the local store.  A bucket that was never
    created is an empty one, which every reader treats alike. *)

From Stdlib Require Import ZArith Lia Bool Ascii.
From stdpp Require Import base tactics decidable option list numbers strings gmap sorting.
From S2P Require Import Prelude Bytes Bolt.

(** ** Data *)

Record ContextVMRequest := mkContextVMRequest {
  rq_DeliveryID : string;
  rq_RequestID : string;
  rq_Key : string;
  rq_Fingerprint : string;
  rq_CreatedAt : Z;
}.

(** [ContextVMUnset] is the zero value, which no constant of the code names. *)
Inductive ContextVMClaimState :=
| ContextVMUnset
| ContextVMClaimed
| ContextVMRedelivered
| ContextVMCompleted
| ContextVMPending
| ContextVMKeyConflict.

Record ContextVMClaim := mkContextVMClaim {
  cl_State : ContextVMClaimState;
  cl_Response : string;
}.

(** A stored response is the text of a [json.RawMessage]; nil and the empty
    text are both left out of the stored JSON. *)
Record contextVMRecord := mkContextVMRecord {
  cr_Key : string;
  cr_Fingerprint : string;
  cr_CreatedAt : Z;
  cr_SeenAt : Z;
  cr_Completed : bool;
  cr_Response : string;
}.

Record Ledger := mkLedger {
  lg_requests : gmap string (row contextVMRecord);
  lg_keys : gmap string string;
  lg_deliveries : gmap string string;
  lg_meta : gmap string string;
}.

Definition empty_ledger : Ledger := mkLedger ∅ ∅ ∅ ∅.

Definition ledger_put_request (id : string) (r : contextVMRecord) (f : Ledger) : Ledger :=
  mkLedger (<[id := Row r]> (lg_requests f)) (lg_keys f) (lg_deliveries f) (lg_meta f).

Definition ledger_put_key (key id : string) (f : Ledger) : Ledger :=
  mkLedger (lg_requests f) (<[key := id]> (lg_keys f)) (lg_deliveries f) (lg_meta f).

Definition ledger_put_delivery (id value : string) (f : Ledger) : Ledger :=
  mkLedger (lg_requests f) (lg_keys f) (<[id := value]> (lg_deliveries f)) (lg_meta f).

Inductive ContextVMError :=
| ErrContextVMIDs
| ErrContextVMDecode (id : string)
| ErrContextVMUnclaimed.

(** Eight bytes, big endian. *)
Definition unixValue (seconds : Z) : string := be64 (to_u64 seconds).

(** [int64(binary.BigEndian.Uint64(value))]. *)
Definition unixOf (value : string) : Z := to_i64 (be_decode value).

(** ** Claims *)

Definition loadContextVMRecord (requests : gmap string (row contextVMRecord)) (requestID : string) :
    result ContextVMError (option contextVMRecord) :=
  match requests !! requestID with
  | None => Ok None
  | Some raw => match unmarshal raw with Some record => Ok (Some record) | None => Err (ErrContextVMDecode requestID) end
  end.

(** The record of the first request with the idempotency key. *)
Definition load_by_key (key : string) (f : Ledger) : result ContextVMError (option contextVMRecord) :=
  match lg_keys f !! key with
  | Some first => loadContextVMRecord (lg_requests f) first
  | None => Ok None
  end.

(** What is known of the request, by id and then by key, and whether the key
    is bound to other parameters. *)
Definition known_request (req : ContextVMRequest) (f : Ledger) : result ContextVMError (option contextVMRecord * bool) :=
  let! known := loadContextVMRecord (lg_requests f) (rq_RequestID req) in
  match known with
  | Some _ => Ok (known, false)
  | None =>
      if String.eqb (rq_Key req) "" then Ok (None, false)
      else
        let! known := load_by_key (rq_Key req) f in
        match known with
        | Some r => Ok (known, negb (String.eqb (cr_Fingerprint r) (rq_Fingerprint req)))
        | None => Ok (None, false)
        end
  end.

(** The transaction of [ClaimContextVMRequest]; [hold] is the evidence hold. *)
Definition ClaimContextVMRequest (hold : bool) (req : ContextVMRequest) (now : Z) (f : Ledger) :
    result ContextVMError (ContextVMClaim * Ledger) :=
  check! negb (String.eqb (rq_DeliveryID req) "" || String.eqb (rq_RequestID req) "") else ErrContextVMIDs in
  if hold then Ok (mkContextVMClaim ContextVMUnset "", f)
  else match lg_deliveries f !! rq_DeliveryID req with
  | Some _ => Ok (mkContextVMClaim ContextVMRedelivered "", f)
  | None =>
      let f := ledger_put_delivery (rq_DeliveryID req) (unixValue (unix_sec now)) f in
      let! ' (known, conflict) := known_request req f in
      if (conflict : bool) then Ok (mkContextVMClaim ContextVMKeyConflict "", f)
      else match known with
      | Some r =>
          if cr_Completed r then Ok (mkContextVMClaim ContextVMCompleted (cr_Response r), f)
          else Ok (mkContextVMClaim ContextVMPending "", f)
      | None =>
          let record := mkContextVMRecord (rq_Key req) (rq_Fingerprint req) (rq_CreatedAt req) (unix_sec now) false "" in
          let f := ledger_put_request (rq_RequestID req) record f in
          let f := if String.eqb (rq_Key req) "" then f else ledger_put_key (rq_Key req) (rq_RequestID req) f in
          Ok (mkContextVMClaim ContextVMClaimed "", f)
      end
  end.

Definition CompleteContextVMRequest (requestID response : string) (f : Ledger) : result ContextVMError Ledger :=
  let! record := loadContextVMRecord (lg_requests f) requestID in
  match record with
  | None => Err ErrContextVMUnclaimed
  | Some r =>
      if cr_Completed r then Ok f
      else Ok (ledger_put_request requestID
                 (mkContextVMRecord (cr_Key r) (cr_Fingerprint r) (cr_CreatedAt r) (cr_SeenAt r) true response) f)
  end.

Definition ContextVMDelivered (deliveryID : string) (f : Ledger) : bool :=
  bool_decide (is_Some (lg_deliveries f !! deliveryID)).

Definition MarkContextVMDelivery (deliveryID : string) (now : Z) (f : Ledger) : Ledger :=
  match lg_deliveries f !! deliveryID with
  | Some _ => f
  | None => ledger_put_delivery deliveryID (unixValue (unix_sec now)) f
  end.

Definition contextVMEpochKey : string := "epoch".

(** The epoch, in seconds. *)
Definition ContextVMLedgerEpoch (now : Z) (f : Ledger) : Z * Ledger :=
  match lg_meta f !! contextVMEpochKey with
  | Some value =>
      if Nat.eqb (String.length value) 8 then (unixOf value, f)
      else (unix_sec now, mkLedger (lg_requests f) (lg_keys f) (lg_deliveries f) (<[contextVMEpochKey := unixValue (unix_sec now)]> (lg_meta f)))
  | None => (unix_sec now, mkLedger (lg_requests f) (lg_keys f) (lg_deliveries f) (<[contextVMEpochKey := unixValue (unix_sec now)]> (lg_meta f)))
  end.

(** ** Pruning *)

(** The loop over the requests: the ids and the keys that go. *)
Fixpoint expired_requests (limit : Z) (f : Ledger) (ids : list string) : result ContextVMError (list string * list string) :=
  match ids with
  | [] => Ok ([], [])
  | id :: ids' =>
      match lg_requests f !! id with
      | None => expired_requests limit f ids'
      | Some raw =>
          match unmarshal raw with
          | None => Err (ErrContextVMDecode id)
          | Some record =>
              let! ' (requests, keys) := expired_requests limit f ids' in
              if (cr_CreatedAt record <? limit) && (cr_SeenAt record <? limit) then
                if negb (String.eqb (cr_Key record) "") && String.eqb (default "" (lg_keys f !! cr_Key record)) id
                then Ok (id :: requests, cr_Key record :: keys)
                else Ok (id :: requests, keys)
              else Ok (requests, keys)
          end
      end
  end.

Definition expired_delivery (limit : Z) (value : string) : bool :=
  negb (Nat.eqb (String.length value) 8) || (unixOf value <? limit).

Definition expired_deliveries (limit : Z) (f : Ledger) : list string :=
  filter (λ id, expired_delivery limit (default "" (lg_deliveries f !! id))) (bucket_keys (lg_deliveries f)).

Definition delete_all {A} (ids : list string) (b : gmap string A) : gmap string A :=
  foldl (λ b id, delete id b) b ids.

Definition PruneContextVMLedger (hold : bool) (cutoff : Z) (f : Ledger) : result ContextVMError (Z * Ledger) :=
  if hold then Ok (0, f)
  else
    let limit := unix_sec cutoff in
    let! ' (requests, keys) := expired_requests limit f (bucket_keys (lg_requests f)) in
    let deliveries := expired_deliveries limit f in
    Ok (Z.of_nat (length requests) + Z.of_nat (length deliveries),
        mkLedger (delete_all requests (lg_requests f)) (delete_all keys (lg_keys f))
                 (delete_all deliveries (lg_deliveries f)) (lg_meta f)).

(** ** Cursors *)

Definition cursorKey (relayURL filterHash : string) : string := relayURL +:+ String nul filterHash.

(** 0 when there is none. *)
Definition Cursor (relayURL filterHash : string) (cursors : gmap string string) : Z :=
  match cursors !! cursorKey relayURL filterHash with
  | Some value => if Nat.eqb (String.length value) 8 then unixOf value else 0
  | None => 0
  end.

Definition AdvanceCursor (relayURL filterHash : string) (to : Z) (cursors : gmap string string) : gmap string string :=
  if to <=? 0 then cursors
  else
    let key := cursorKey relayURL filterHash in
    let put := <[key := unixValue to]> cursors in
    match cursors !! key with
    | Some value => if Nat.eqb (String.length value) 8 && (to <=? unixOf value) then cursors else put
    | None => put
    end.

Definition contextVMCursorFilter : string := "contextvm-requests-v1:".

Definition ContextVMCursor (relayURL servicePubkey : string) (cursors : gmap string string) : Z :=
  Cursor relayURL (contextVMCursorFilter +:+ servicePubkey) cursors.

Definition AdvanceContextVMCursor (relayURL servicePubkey : string) (to : Z) (cursors : gmap string string) : gmap string string :=
  AdvanceCursor relayURL (contextVMCursorFilter +:+ servicePubkey) to cursors.
