(* ===== verification/ContextVMTransport.v ===== *)
(** * ContextVM requests over the ledger

    [src/internal/controlplane/contextvm_local_run.go] and the request path of
    [encrypted_transport.go]: an event from a relay is unwrapped, validated,
    routed, claimed in the ledger, executed, completed and answered.  What the
    outside does in one delivery (the handler, the optional response store,
    whether the process survives) is an argument. *)

From Stdlib Require Import ZArith Lia Bool Ascii.
From stdpp Require Import base tactics decidable option list numbers strings gmap.
From S2P Require Import Prelude Bytes Nostr EventID Bolt BoltCoord Inbound CanonicalJSON ContextVM.

(** ** Code outside the repository *)

(** A decoded JSON-RPC request. *)
Record RPCRequest := mkRPCRequest {
  rpc_JSONRPC : string;
  rpc_ID : string;
  rpc_Method : string;
  rpc_Params : string;
}.

(** The ContextVM library and [encoding/json]; responses are their JSON text. *)
Class ContextVMPrims := {
  (** The inner event, and whether the envelope is a NIP-59 one. *)
  UnwrapAny : Event → option (Event * bool);
  ProgressToken : string → string;
  JSONRPCVersion : string;
  InvalidRequestCode : Z;
  MethodNotFoundCode : Z;
  InternalErrorCode : Z;
  ParseErrorCode : Z;
  NewResponse : string → string → string;
  NewErrorResponse : string → Z → string → string;
  (** A response whose error field is set. *)
  FailedResponse : string → Z → string → string;
  (** [json.Unmarshal] into a map of raw values, a string, a request. *)
  json_object : string → option (gmap string string);
  json_string : string → option string;
  json_request : string → option RPCRequest;
  json_value : string → option json;
  (** [storedContextVMResponse]: a stored response under the id of a retry. *)
  storedContextVMResponse : string → string → option string;
  (** A response under the id of a retry. *)
  WithResponseID : string → string → string;
}.

(** ** The transport's configuration *)

(** A field that is a function of the event is another component. *)
Record Transport := mkTransport {
  tr_servicePubkey : string;
  tr_authorizedPubkeys : list string;
  tr_requestAdmission : option (Event → bool);
  (** [giftWrapIntentIngress]: whether it unwraps the event as an intent. *)
  tr_unwrapIntent : option (Event → bool);
  (** Registered methods, and the gates of operator methods with the error of
      a refusal. *)
  tr_handlers : string → bool;
  tr_gates : string → option (Event → option string);
  tr_requestMaxAge : Z;
  tr_wrapBackdateOverlap : Z;
}.

Definition KindContextVMMessage : Z := 25910.
Definition KindContextVMGiftWrap : Z := 1059.
Definition KindContextVMEphemeralWrap : Z := 21059.

Definition contextVMDefaultWrapBackdateOverlap : Z := 49 * hour.
Definition contextVMDefaultRequestMaxAge : Z := 7 * 24 * hour.
Definition contextVMColdLedgerGrace : Z := 2 * minute.
Definition contextVMLedgerPruneInterval : Z := 6 * hour.

Definition ContextVMDuplicateRequestErrorCode : Z := -32011.
Definition ContextVMEnvironmentConflictErrorCode : Z := -32009.
Definition ContextVMEntityIDConflictErrorCode : Z := -32010.

Definition maxAge (t : Transport) : Z := if 0 <? tr_requestMaxAge t then tr_requestMaxAge t else contextVMDefaultRequestMaxAge.
Definition backdateOverlap (t : Transport) : Z :=
  if 0 <? tr_wrapBackdateOverlap t then tr_wrapBackdateOverlap t else contextVMDefaultWrapBackdateOverlap.

(** The oldest [created_at] that may still run; [epoch] is an instant. *)
Definition innerFloor (t : Transport) (epoch now : Z) : Z :=
  let floor := now - maxAge t in
  let cold := epoch - contextVMColdLedgerGrace in
  unix_sec (if time_after cold floor then cold else floor).

(** ** The cache of responses *)

Record contextVMDedupEntry := mkDedupEntry {
  de_response : string;
  de_requestFingerprint : string;
}.

Record contextVMDedupCache := mkDedupCache {
  dc_entries : gmap string contextVMDedupEntry;
  dc_order : list string;
  dc_limit : nat;
}.

Definition contextVMDedupDefaultLimit : nat := Z.to_nat 4096.

Definition newContextVMDedupCache (limit : Z) : contextVMDedupCache :=
  mkDedupCache ∅ [] (if limit <=? 0 then contextVMDedupDefaultLimit else Z.to_nat limit).

Definition dedup_put (key : string) (entry : contextVMDedupEntry) (c : contextVMDedupCache) : contextVMDedupCache :=
  match dc_entries c !! key with
  | Some _ => mkDedupCache (<[key := entry]> (dc_entries c)) (dc_order c) (dc_limit c)
  | None =>
      let '(entries, order) :=
        if Nat.leb (dc_limit c) (length (dc_order c)) then
          match dc_order c with
          | oldest :: order => (delete oldest (dc_entries c), order)
          | [] => (dc_entries c, [])
          end
        else (dc_entries c, dc_order c) in
      mkDedupCache (<[key := entry]> entries) (order ++ [key]) (dc_limit c)
  end.

Definition deleteIfFingerprintMatches (key requestFingerprint : string) (c : contextVMDedupCache) : contextVMDedupCache :=
  match dc_entries c !! key with
  | Some entry =>
      if String.eqb (de_requestFingerprint entry) requestFingerprint
      then mkDedupCache (delete key (dc_entries c)) (match list_find (eq key) (dc_order c) with Some (i, _) => delete i (dc_order c) | None => dc_order c end) (dc_limit c)
      else c
  | None => c
  end.

(** ** What happens *)

Inductive Effect :=
| EExecuted (inner : Event) (key : string)
| EPublished (inner : Event) (response : string).

Record TState := mkTState {
  ts_ledger : Ledger;
  ts_cache : contextVMDedupCache;
  ts_log : list Effect;
}.

Definition set_ledger (f : Ledger) (s : TState) : TState := mkTState f (ts_cache s) (ts_log s).
Definition set_cache (c : contextVMDedupCache) (s : TState) : TState := mkTState (ts_ledger s) c (ts_log s).
Definition log (e : Effect) (s : TState) : TState := mkTState (ts_ledger s) (ts_cache s) (ts_log s ++ [e]).

Definition publishContextVMResponse (inner : Event) (response : string) (s : TState) : TState := log (EPublished inner response) s.

Inductive HandlerError :=
| HandlerStaleRevision
| HandlerEntityIDConflict
| HandlerFailed.

(** What the outside answers during one delivery: the evidence hold, the time
    of the claim, the record the response store holds for the key (its
    fingerprint and response), whether storing the response there conflicts,
    the handler's outcome, and whether the process survives the handler. *)
Record Answers := mkAnswers {
  an_hold : bool;
  an_claimed : Z;
  an_stored : option (string * string);
  an_putConflict : bool;
  an_result : result (HandlerError * string) string;
  an_survives : bool;
}.

(** ** Routing *)

Fixpoint tagContains (tags : list (list string)) (name value : string) : bool :=
  match tags with
  | [] => false
  | (n :: v :: _) :: tags' => (String.eqb n name && String.eqb v value) || tagContains tags' name value
  | _ :: tags' => tagContains tags' name value
  end.

Definition matchesContextVMRouting (t : Transport) (event : Event) : bool :=
  String.eqb (tr_servicePubkey t) "" || tagContains (ev_Tags event) "p" (tr_servicePubkey t).

Definition matchesContextVMWrapperRouting (t : Transport) (event : Event) : bool :=
  negb (String.eqb (tr_servicePubkey t) "") && tagContains (ev_Tags event) "p" (tr_servicePubkey t).

Definition zero_pubkey : string := string_of_bytes (replicate 32 0).

Definition validContextVMWrapperPubkey (t : Transport) (outer inner : Event) : bool :=
  if String.eqb (ev_PubKey outer) zero_pubkey then false
  else
    let outerPubkey := hex (ev_PubKey outer) in
    if ev_Kind outer =? KindContextVMGiftWrap then negb (String.eqb outerPubkey (tr_servicePubkey t))
    else negb (String.eqb (ev_PubKey outer) (ev_PubKey inner)) && negb (String.eqb outerPubkey (tr_servicePubkey t)).

Definition authorized (t : Transport) (event : Event) : bool :=
  match tr_requestAdmission t with
  | Some admits => admits event
  | None => bool_decide (hex (ev_PubKey event) ∈ tr_authorizedPubkeys t)
  end.

Fixpoint is_intent_tag (tags : list (list string)) : bool :=
  match tags with
  | [] => false
  | (n :: v :: _) :: tags' => (String.eqb n "t" && String.eqb v "bahia-intent") || is_intent_tag tags'
  | _ :: tags' => is_intent_tag tags'
  end.

Definition IsIntentEvent (ev : Event) : bool := (ev_Kind ev =? 30900) && is_intent_tag (ev_Tags ev).

Definition contextVMCacheKey (pubkey method progressToken : string) : string :=
  pubkey +:+ String nul (method +:+ String nul progressToken).

Section transport.
Context `{NostrPrims} `{ContextVMPrims}.

Definition validateContextVMInnerEvent (event : Event) (nip59 : bool) (now : Z) : bool :=
  if negb nip59 then is_ok (ValidateInboundEvent event now)
  else
    negb (ev_CreatedAt event <=? 0)
    && negb (time_after (timestamp_time (ev_CreatedAt event)) (now + InboundEventMaxFutureSkew))
    && negb (time_before (timestamp_time (ev_CreatedAt event)) (now - MaxEventAge)).

(** The message inside an event, with whether it came in a NIP-59 envelope;
    [None] when the event is dropped or handed to the intent ingress. *)
Definition open_envelope (t : Transport) (outer : Event) (now : Z) : option (Event * bool) :=
  if (ev_Kind outer =? KindContextVMGiftWrap) || (ev_Kind outer =? KindContextVMEphemeralWrap) then
    if negb (is_ok (ValidateInboundEvent outer now)) then None
    else if negb (matchesContextVMWrapperRouting t outer) then None
    else if (ev_Kind outer =? KindContextVMGiftWrap) && (match tr_unwrapIntent t with Some unwraps => unwraps outer | None => false end) then None
    else match UnwrapAny outer with
    | None => None
    | Some (inner, nip59) => if validContextVMWrapperPubkey t outer inner then Some (inner, nip59) else None
    end
  else Some (outer, false).

(** The message if it is one that may run. *)
Definition admit_inner (t : Transport) (outer : Event) (innerSince now : Z) : option Event :=
  match open_envelope t outer now with
  | None => None
  | Some (inner, nip59) =>
      if (match tr_unwrapIntent t with Some _ => IsIntentEvent inner | None => false end) then None
      else if negb (ev_Kind inner =? KindContextVMMessage) then None
      else if negb (innerSince =? 0) && (ev_CreatedAt inner <? innerSince) then None
      else if negb (validateContextVMInnerEvent inner nip59 now) then None
      else Some inner
  end.

(** Whether the content is a response rather than a request. *)
Definition decodeContextVMJSONRPCResponse (content : string) : bool :=
  match json_object content with
  | None => false
  | Some fields =>
      let named :=
        match fields !! "method"%string with
        | Some raw => match json_string raw with None => true | Some method => negb (String.eqb (trim_space method) "") end
        | None => false
        end in
      if named then false
      else bool_decide (is_Some (fields !! "result"%string)) || bool_decide (is_Some (fields !! "error"%string))
  end.

Definition contextVMIdempotencyKey (params : string) : result string string :=
  let progressToken := trim_space (ProgressToken params) in
  if String.eqb params "" || String.eqb params "null" then Ok progressToken
  else match json_object params with
  | None => Err "invalid request params"%string
  | Some envelope =>
      let! compatibilityKey :=
        match envelope !! "idempotency_key"%string with
        | Some raw =>
            if String.eqb raw "null" then Ok ""%string
            else match json_string raw with Some key => Ok (trim_space key) | None => Err "idempotency_key must be a string"%string end
        | None => Ok ""%string
        end in
      if negb (String.eqb progressToken "") && negb (String.eqb compatibilityKey "") && negb (String.eqb progressToken compatibilityKey)
      then Err "_meta.progressToken and idempotency_key must match"%string
      else Ok (if String.eqb progressToken "" then compatibilityKey else progressToken)
  end.

(** Where a message goes: nowhere further, to an immediate answer, or to a
    handler. *)
Inductive Routed :=
| RoutedNowhere
| RoutedAnswer (response : string)
| RoutedRequest (rpc : RPCRequest) (progressToken requestFingerprint : string).

Definition route_request (t : Transport) (inner : Event) : Routed :=
  if negb (matchesContextVMRouting t inner) then RoutedNowhere
  else if decodeContextVMJSONRPCResponse (ev_Content inner) then RoutedNowhere
  else if negb (authorized t inner) then RoutedAnswer (FailedResponse "null" (-32001) "requester is not authorized for ContextVM Bahia requests")
  else match json_request (ev_Content inner) with
  | None => RoutedAnswer (NewErrorResponse "" ParseErrorCode "parse error")
  | Some rpc =>
      if negb (String.eqb (rpc_JSONRPC rpc) JSONRPCVersion) || String.eqb (trim_space (rpc_Method rpc)) ""
      then RoutedAnswer (NewErrorResponse (rpc_ID rpc) InvalidRequestCode "invalid request")
      else if negb (tr_handlers t (rpc_Method rpc))
      then RoutedAnswer (NewErrorResponse (rpc_ID rpc) MethodNotFoundCode "method not found")
      else match (match tr_gates t (rpc_Method rpc) with Some gate => gate inner | None => None end), contextVMIdempotencyKey (rpc_Params rpc) with
      | Some refused, _ => RoutedAnswer (NewErrorResponse (rpc_ID rpc) (-32001) refused)
      | None, Err message => RoutedAnswer (NewErrorResponse (rpc_ID rpc) InvalidRequestCode message)
      | None, Ok progressToken =>
          if String.eqb progressToken "" then RoutedRequest rpc progressToken ""
          else match contextVMRequestFingerprint json_value (rpc_Params rpc) with
          | None => RoutedAnswer (NewErrorResponse (rpc_ID rpc) InvalidRequestCode "invalid request params")
          | Some fingerprint => RoutedRequest rpc progressToken fingerprint
          end
      end
  end.

(** ** Responses that were kept *)

Definition fingerprint_differs (kept requestFingerprint : string) : bool :=
  negb (String.eqb kept "") && negb (String.eqb kept requestFingerprint).

(** A cached or stored response, whether its fingerprint differs, and the
    cache. *)
Definition cachedContextVMResponse (stored : option (string * string)) (key requestFingerprint : string) (c : contextVMDedupCache) :
    option string * bool * contextVMDedupCache :=
  match dc_entries c !! key with
  | Some entry =>
      if fingerprint_differs (de_requestFingerprint entry) requestFingerprint then (None, true, c)
      else (Some (de_response entry), false, c)
  | None =>
      match stored with
      | None => (None, false, c)
      | Some (kept, response) =>
          if fingerprint_differs kept requestFingerprint then (None, true, c)
          else (Some response, false, dedup_put key (mkDedupEntry response kept) c)
      end
  end.

(** Keeps a terminal response; true when the key is bound to another
    fingerprint. *)
Definition cacheContextVMResponse (putConflict : bool) (progressToken key requestFingerprint response : string) (c : contextVMDedupCache) :
    bool * contextVMDedupCache :=
  if String.eqb progressToken "" then (false, c)
  else if (match dc_entries c !! key with Some entry => fingerprint_differs (de_requestFingerprint entry) requestFingerprint | None => false end)
  then (true, c)
  else
    let c := dedup_put key (mkDedupEntry response requestFingerprint) c in
    if putConflict then (true, deleteIfFingerprintMatches key requestFingerprint c) else (false, c).

(** An error is logged and the claim stays pending. *)
Definition completeLocalContextVMRequest (requestID : string) (keepResponse : bool) (response : string) (s : TState) : TState :=
  match CompleteContextVMRequest requestID (if keepResponse then response else "") (ts_ledger s) with
  | Ok f => set_ledger f s
  | Err _ => s
  end.

(** ** Claiming *)

Definition conflict_message : string := "idempotency key was already used with different request parameters".

(** The idempotency key of a request, empty without a token. *)
Definition claim_key (inner : Event) (rpc : RPCRequest) (progressToken : string) : string :=
  if String.eqb progressToken "" then "" else contextVMCacheKey (hex (ev_PubKey inner)) (rpc_Method rpc) progressToken.

(** Whether the handler should run. *)
Definition claimLocalContextVMRequest (a : Answers) (outer inner : Event) (rpc : RPCRequest) (progressToken fingerprint : string) (s : TState) : bool * TState :=
  let innerID := hex (ev_ID inner) in
  let key := claim_key inner rpc progressToken in
  let req := mkContextVMRequest (hex (ev_ID outer)) innerID key fingerprint (ev_CreatedAt inner) in
  let answer code message s := publishContextVMResponse inner (NewErrorResponse (rpc_ID rpc) code message) s in
  match ClaimContextVMRequest (an_hold a) req (an_claimed a) (ts_ledger s) with
  | Err _ => (false, answer InternalErrorCode "request could not be recorded and was not executed"%string s)
  | Ok (claim, f) =>
      let s := set_ledger f s in
      match cl_State claim with
      | ContextVMClaimed =>
          if String.eqb progressToken "" then (true, s)
          else
            let '(cached, fingerprintMismatch, c) := cachedContextVMResponse (an_stored a) key fingerprint (ts_cache s) in
            let s := set_cache c s in
            if (fingerprintMismatch : bool) then
              let conflict := NewErrorResponse (rpc_ID rpc) InvalidRequestCode conflict_message in
              (false, publishContextVMResponse inner conflict (completeLocalContextVMRequest innerID true conflict s))
            else match cached with
            | Some response =>
                let response := WithResponseID response (rpc_ID rpc) in
                (false, publishContextVMResponse inner response (completeLocalContextVMRequest innerID true response s))
            | None => (true, s)
            end
      | ContextVMRedelivered => (false, s)
      | ContextVMKeyConflict => (false, answer InvalidRequestCode conflict_message s)
      | ContextVMPending => (false, answer ContextVMDuplicateRequestErrorCode "request was already accepted but its outcome is unknown (still running elsewhere, or interrupted by a restart); check the resulting state before sending a new request"%string s)
      | ContextVMCompleted =>
          if String.eqb (cl_Response claim) "" then (false, answer ContextVMDuplicateRequestErrorCode "request was already handled; send an idempotency key (_meta.progressToken) to have its response replayed"%string s)
          else match storedContextVMResponse (cl_Response claim) (rpc_ID rpc) with
          | None => (false, answer ContextVMDuplicateRequestErrorCode "request was already handled; its stored response is unreadable"%string s)
          | Some replay => (false, publishContextVMResponse inner replay s)
          end
      | ContextVMUnset => (false, s)
      end
  end.

(** ** Handling *)

Definition handler_response (rpc : RPCRequest) (r : result (HandlerError * string) string) : string :=
  match r with
  | Ok value => NewResponse (rpc_ID rpc) value
  | Err (e, message) =>
      let code := match e with
                  | HandlerStaleRevision => ContextVMEnvironmentConflictErrorCode
                  | HandlerEntityIDConflict => ContextVMEntityIDConflictErrorCode
                  | HandlerFailed => -32000
                  end in
      FailedResponse (rpc_ID rpc) code message
  end.

(** After the handler: the response is kept, recorded, then published. *)
Definition finish_request (a : Answers) (inner : Event) (rpc : RPCRequest) (progressToken fingerprint : string) (s : TState) : TState :=
  let key := contextVMCacheKey (hex (ev_PubKey inner)) (rpc_Method rpc) progressToken in
  let response := handler_response rpc (an_result a) in
  let '(conflict, c) := cacheContextVMResponse (an_putConflict a) progressToken key fingerprint response (ts_cache s) in
  let s := set_cache c s in
  let response := if (conflict : bool) then NewErrorResponse (rpc_ID rpc) InvalidRequestCode conflict_message else response in
  publishContextVMResponse inner response
    (completeLocalContextVMRequest (hex (ev_ID inner)) (negb (String.eqb progressToken "")) response s).

(** The branch with a local store.  The handler runs once the claim is
    recorded; a process that does not survive it leaves the claim behind.  The
    flag says that it survived. *)
Definition handleContextVMEventSince (t : Transport) (a : Answers) (outer : Event) (innerSince now : Z) (s : TState) : bool * TState :=
  match admit_inner t outer innerSince now with
  | None => (true, s)
  | Some inner =>
      match route_request t inner with
      | RoutedNowhere => (true, s)
      | RoutedAnswer response => (true, publishContextVMResponse inner response s)
      | RoutedRequest rpc progressToken fingerprint =>
          let '(run, s) := claimLocalContextVMRequest a outer inner rpc progressToken fingerprint s in
          if negb run then (true, s)
          else
            let s := log (EExecuted inner (claim_key inner rpc progressToken)) s in
            if an_survives a then (true, finish_request a inner rpc progressToken fingerprint s) else (false, s)
      end
  end.

Definition handleEventSince (t : Transport) (a : Answers) (event : Event) (innerSince now : Z) (s : TState) : bool * TState :=
  if (ev_Kind event =? KindContextVMMessage) || (ev_Kind event =? KindContextVMGiftWrap) || (ev_Kind event =? KindContextVMEphemeralWrap)
  then handleContextVMEventSince t a event innerSince now s else (true, s).

(** One event of a request subscription. *)
Definition processContextVMDelivery (t : Transport) (a : Answers) (epoch now : Z) (ev : Event) (s : TState) : TState :=
  if negb (CheckID ev) then s
  else
    let deliveryID := hex (ev_ID ev) in
    if ContextVMDelivered deliveryID (ts_ledger s) then s
    else
      let '(survives, s) := handleEventSince t a ev (innerFloor t epoch now) now s in
      if (survives : bool) then set_ledger (MarkContextVMDelivery deliveryID now (ts_ledger s)) s else s.

End transport.

(** ** Pruning *)

(** The instant before which entries go. *)
Definition prune_cutoff (t : Transport) (now : Z) : Z := now - (maxAge t + backdateOverlap t + hour).

(** The time of the last prune (the zero time when there was none) and the
    ledger; an error of the ledger is logged. *)
Definition pruneLocked (t : Transport) (hold : bool) (now lastPrune : Z) (f : Ledger) : Z * Ledger :=
  if negb (time_is_zero lastPrune) && (time_sub now lastPrune <? contextVMLedgerPruneInterval) then (lastPrune, f)
  else match PruneContextVMLedger hold (prune_cutoff t now) f with
  | Ok (_, f') => (now, f')
  | Err _ => (now, f)
  end.

(** The [since] of a subscription opened at [anchor]. *)
Definition subscribe_since (t : Transport) (epoch anchor cursor : Z) : Z :=
  let floor := innerFloor t epoch (timestamp_time anchor) in
  let from := if cursor <? floor then floor else cursor in
  from - backdateOverlap t / second.
