(* ===== verification/ContextVMFacts.v ===== *)
(** * ContextVM requests: lemmas

    What each ledger call does to the record of a claimed request, and what
    one delivery does to the log of executions. *)

From Stdlib Require Import ZArith Lia Bool Ascii.
From stdpp Require Import base tactics decidable option list numbers strings gmap sorting.
From S2P Require Import Prelude Bytes Nostr EventID EventIDFacts Bolt BoltCoord Inbound CanonicalJSON ContextVM ContextVMTransport.

(** ** The record of a request *)

(** The ledger remembers the request [e] under the key [k]. *)
Definition held (f : Ledger) (e : Event) (k : string) : Prop := ∃ r,
  lg_requests f !! hex (ev_ID e) = Some (Row r) ∧ cr_CreatedAt r = ev_CreatedAt e ∧ cr_Key r = k
  ∧ (k ≠ "" → lg_keys f !! k = Some (hex (ev_ID e))).

Lemma claim_kept_same f f' e k : lg_requests f' = lg_requests f → lg_keys f' = lg_keys f → held f e k → held f' e k.
Proof. intros Hr Hk. unfold held. by rewrite Hr, Hk. Qed.

Lemma held_known f e k : held f e k → k ≠ "" → ∃ r, load_by_key k f = Ok (Some r).
Proof. intros (r & Hr & _ & _ & Hk) Hne. exists r. unfold load_by_key, loadContextVMRecord. by rewrite (Hk Hne), Hr. Qed.

Lemma held_mark f e k id now : held f e k → held (MarkContextVMDelivery id now f) e k.
Proof. apply claim_kept_same; unfold MarkContextVMDelivery; by destruct (_ !! _). Qed.

Lemma held_complete f f' e k id response : CompleteContextVMRequest id response f = Ok f' → held f e k → held f' e k.
Proof.
  unfold CompleteContextVMRequest, loadContextVMRecord. destruct (lg_requests f !! id) as [[r|]|] eqn:Er; simpl; [|done..].
  destruct (cr_Completed r); intros [= <-]; [done|]. intros (r' & Hr' & Hc & Hk & Hkeys). unfold held. simpl.
  destruct (decide (hex (ev_ID e) = id)) as [<-|Hne].
  - rewrite lookup_insert_eq. rewrite Er in Hr'. injection Hr' as <-. eexists. by split_and!.
  - rewrite lookup_insert_ne by done. by exists r'.
Qed.

(** ** Claims *)

(** The request is new: unknown by id and by key. *)
Definition unknown (f : Ledger) (id key : string) : Prop := lg_requests f !! id = None ∧ (key ≠ "" → load_by_key key f = Ok None).

Lemma load_none requests id : loadContextVMRecord requests id = Ok None ↔ requests !! id = None.
Proof. unfold loadContextVMRecord. destruct (requests !! id) as [[]|]; simpl; naive_solver. Qed.

Lemma known_none req f b : known_request req f = Ok (None, b) → unknown f (rq_RequestID req) (rq_Key req) ∧ b = false.
Proof.
  unfold known_request. intros ([r|] & Hid & Hok)%bind_ok; [done|]. apply load_none in Hid. unfold unknown.
  destruct (String.eqb_spec (rq_Key req) "") as [E|Hne]; [injection Hok as <-; split; [by split|done]|].
  apply bind_ok in Hok as ([r|] & Hk & Hok); [done|]. injection Hok as <-. by split.
Qed.

Lemma ClaimContextVMRequest_spec hold req now f claim f' : ClaimContextVMRequest hold req now f = Ok (claim, f') →
  (cl_State claim ≠ ContextVMClaimed ∧ lg_requests f' = lg_requests f ∧ lg_keys f' = lg_keys f)
  ∨ (cl_State claim = ContextVMClaimed ∧ unknown f (rq_RequestID req) (rq_Key req)
     ∧ (∃ r, cr_CreatedAt r = rq_CreatedAt req ∧ cr_Key r = rq_Key req ∧ lg_requests f' = <[rq_RequestID req := Row r]> (lg_requests f))
     ∧ lg_keys f' = if String.eqb (rq_Key req) "" then lg_keys f else <[rq_Key req := rq_RequestID req]> (lg_keys f)).
Proof.
  unfold ClaimContextVMRequest. intros (_ & _ & Hok)%bind_ok. destruct hold; [injection Hok as <- <-; by left|].
  destruct (lg_deliveries f !! _); [injection Hok as <- <-; by left|]. apply bind_ok in Hok as ([known conflict] & Hk & Hok).
  destruct conflict; [injection Hok as <- <-; by left|]. destruct known as [r|]; [destruct (cr_Completed r); injection Hok as <- <-; by left|].
  apply known_none in Hk as [Hu _]. right. injection Hok as <- <-. split; [done|].
  split; [destruct Hu as [H1 H2]; split; [done|]; intros Hne; specialize (H2 Hne); revert H2; by unfold load_by_key|].
  destruct (String.eqb (rq_Key req) ""); simpl;
    (split; [exists (mkContextVMRecord (rq_Key req) (rq_Fingerprint req) (rq_CreatedAt req) (unix_sec now) false ""); by split_and!|done]).
Qed.

(** A claim leaves the record of every other request alone and adds its own. *)
Lemma claim_held f f' e id key r k : unknown f id key →
  lg_requests f' = <[id := Row r]> (lg_requests f) →
  lg_keys f' = (if String.eqb key "" then lg_keys f else <[key := id]> (lg_keys f)) → held f e k → held f' e k.
Proof.
  intros [Hid Hkey] Hr Hk Hh. pose proof Hh as (r' & Hr' & Hc & Hk' & Hkeys). exists r'. rewrite Hr, Hk.
  rewrite lookup_insert_ne by congruence. split_and!; [done..|]. intros Hne. destruct (String.eqb_spec key "") as [|Hne']; [auto|].
  rewrite lookup_insert_ne; [auto|]. intros ->. destruct (held_known f e k Hh Hne) as [r'' E]. specialize (Hkey Hne). congruence.
Qed.

(** ** Pruning *)

Lemma lookup_delete_all {A} ids : ∀ (b : gmap string A) id, delete_all ids b !! id = if decide (id ∈ ids) then None else b !! id.
Proof.
  unfold delete_all. induction ids as [|x ids IH]; intros b id; [done|]. simpl. rewrite IH.
  destruct (decide (id = x)) as [->|Hne].
  - rewrite lookup_delete_eq. rewrite (decide_True (P := x ∈ _ :: _)) by left. by destruct (decide _).
  - rewrite lookup_delete_ne by done. apply decide_ext. rewrite elem_of_cons. naive_solver.
Qed.

Lemma expired_requests_spec limit f ids : ∀ requests keys, expired_requests limit f ids = Ok (requests, keys) →
  (∀ id, id ∈ requests → ∃ r, lg_requests f !! id = Some (Row r) ∧ cr_CreatedAt r < limit ∧ cr_SeenAt r < limit)
  ∧ ∀ key, key ∈ keys → ∃ id r, id ∈ requests ∧ lg_requests f !! id = Some (Row r) ∧ cr_Key r = key ∧ (∀ id', lg_keys f !! key = Some id' → id' = id).
Proof.
  induction ids as [|id ids IH]; intros requests keys; cbn [expired_requests].
  { intros [= <- <-]. split; intros ? []%elem_of_nil. }
  destruct (lg_requests f !! id) as [[r|]|] eqn:Er; cbn [unmarshal]; [|done|apply IH].
  intros ([rs ks] & Hrec & Hok)%bind_ok. destruct (IH _ _ Hrec) as [IH1 IH2].
  destruct (_ && _) eqn:El; [|injection Hok as <- <-; done]. bool_facts.
  assert (H1 : ∀ x, x ∈ id :: rs → ∃ r, lg_requests f !! x = Some (Row r) ∧ cr_CreatedAt r < limit ∧ cr_SeenAt r < limit).
  { intros x [->|Hx]%elem_of_cons; [by exists r|auto]. }
  assert (H2 : ∀ key, key ∈ ks → ∃ id' r, id' ∈ id :: rs ∧ lg_requests f !! id' = Some (Row r) ∧ cr_Key r = key ∧ ∀ x, lg_keys f !! key = Some x → x = id').
  { intros key Hk. destruct (IH2 key Hk) as (id' & r' & Hin & Hrest). exists id', r'. split; [by right|done]. }
  destruct (negb _ && _) eqn:Ek; injection Hok as <- <-; split; try done. intros key [->|Hk]%elem_of_cons; [|auto].
  apply andb_true_iff in Ek as [_ Ek%String.eqb_eq]. exists id, r. split_and!; [left|done..|]. intros x Hx. by rewrite Hx in Ek.
Qed.

(** A pruned request is older than the cutoff. *)
Lemma held_prune hold cutoff f n f' e k : PruneContextVMLedger hold cutoff f = Ok (n, f') → held f e k →
  held f' e k ∨ ev_CreatedAt e < unix_sec cutoff.
Proof.
  unfold PruneContextVMLedger. destruct hold; [intros [= <- <-]; by left|]. intros ([rs ks] & Hx & Hok)%bind_ok. injection Hok as <- <-.
  apply expired_requests_spec in Hx as [H1 H2]. intros (r & Hr & Hc & Hk & Hkeys). unfold held. simpl.
  destruct (decide (hex (ev_ID e) ∈ rs)) as [Hin|Hin].
  { right. destruct (H1 _ Hin) as (r' & Hr' & Hlt & _). rewrite Hr in Hr'. injection Hr' as <-. lia. }
  left. exists r. rewrite lookup_delete_all, decide_False by done. split_and!; [done..|]. intros Hne. rewrite lookup_delete_all.
  destruct (decide (k ∈ ks)) as [Hk'|]; [|auto]. destruct (H2 _ Hk') as (id & r' & Hid & _ & _ & Hu). destruct Hin. by rewrite (Hu _ (Hkeys Hne)).
Qed.

(** ** One delivery *)

Definition executions (l : list Effect) : list (Event * string) :=
  omap (λ e, match e with EExecuted inner key => Some (inner, key) | EPublished _ _ => None end) l.

(** Nothing is executed and nothing claimed is forgotten. *)
Definition quiet (s s' : TState) : Prop :=
  executions (ts_log s') = executions (ts_log s) ∧ ∀ e k, held (ts_ledger s) e k → held (ts_ledger s') e k.

#[export] Instance quiet_preorder : PreOrder quiet.
Proof. split; [done|]. intros s1 s2 s3 [E1 H1] [E2 H2]. split; [congruence|auto]. Qed.

Lemma executions_app l1 l2 : executions (l1 ++ l2) = executions l1 ++ executions l2.
Proof. apply omap_app. Qed.

Lemma quiet_publish inner r s : quiet s (publishContextVMResponse inner r s).
Proof. split; [|done]. simpl. rewrite executions_app. apply app_nil_r. Qed.

Lemma quiet_cache c s : quiet s (set_cache c s).
Proof. done. Qed.

Lemma quiet_ledger f s : (∀ e k, held (ts_ledger s) e k → held f e k) → quiet s (set_ledger f s).
Proof. done. Qed.

Lemma quiet_complete id keep r s : quiet s (completeLocalContextVMRequest id keep r s).
Proof.
  unfold completeLocalContextVMRequest. destruct (CompleteContextVMRequest _ _ _) as [f|] eqn:E; [|done].
  apply quiet_ledger. intros e k. by apply (held_complete _ _ _ _ _ _ E).
Qed.

Section delivery.
Context `{NostrPrims} `{ContextVMPrims}.

(** What the claim of a request leaves: silence, or a new record. *)
Lemma claimLocal_spec a outer inner rpc token fp s run s' : claimLocalContextVMRequest a outer inner rpc token fp s = (run, s') →
  quiet s s' ∧ (run = true → unknown (ts_ledger s) (hex (ev_ID inner)) (claim_key inner rpc token) ∧ held (ts_ledger s') inner (claim_key inner rpc token)).
Proof.
  unfold claimLocalContextVMRequest. set (req := mkContextVMRequest _ _ _ _ _).
  destruct (ClaimContextVMRequest _ req _ _) as [[claim f]|e] eqn:Ec; [|intros [= <- <-]; split; [apply quiet_publish|done]].
  destruct (ClaimContextVMRequest_spec _ _ _ _ _ _ Ec) as [(Hn & Hr & Hk)|(Es & Hu & (r & Hrc & Hrk & Hr) & Hk)].
  - assert (Hq : quiet s (set_ledger f s)) by (apply quiet_ledger; intros e k; by apply claim_kept_same).
    assert (Hq' : ∀ x, quiet s (publishContextVMResponse inner x (set_ledger f s))) by (intros x; rewrite Hq at 1; apply quiet_publish).
    destruct (cl_State claim); [|done|..]; try (intros [= <- <-]; by split).
    destruct (String.eqb _ ""); [intros [= <- <-]; by split|]. destruct (storedContextVMResponse _ _); intros [= <- <-]; by split.
  - assert (Hq : quiet s (set_ledger f s)) by (apply quiet_ledger; intros e k; by apply (claim_held _ _ _ _ _ r _ Hu)).
    assert (Hheld : held f inner (claim_key inner rpc token)).
    { exists r. rewrite Hr. change (rq_RequestID req) with (hex (ev_ID inner)) in *. rewrite lookup_insert_eq. split_and!; [done..|].
      intros Hne. rewrite Hk. change (rq_Key req) with (claim_key inner rpc token). destruct (String.eqb_spec (claim_key inner rpc token) "") as [|]; [done|].
      by rewrite lookup_insert_eq. }
    rewrite Es. destruct (String.eqb token ""); [intros [= <- <-]; by split|].
    destruct (cachedContextVMResponse _ _ _ _) as [[cached mismatch] c].
    destruct mismatch; [|destruct cached as [x|]]; intros [= <- <-]; (split; [|done]); rewrite Hq at 1.
    + etrans; [apply (quiet_cache c)|]. etrans; [apply quiet_complete|apply quiet_publish].
    + etrans; [apply (quiet_cache c)|]. etrans; [apply quiet_complete|apply quiet_publish].
    + apply quiet_cache.
Qed.

Lemma finish_quiet a inner rpc token fp s : quiet s (finish_request a inner rpc token fp s).
Proof.
  unfold finish_request. destruct (cacheContextVMResponse _ _ _ _ _ _) as [conflict c].
  etrans; [apply (quiet_cache c)|]. etrans; [apply quiet_complete|apply quiet_publish].
Qed.

(** A new execution: the message was admitted and unknown, and is now held. *)
Record executed_new (t : Transport) (outer : Event) (innerSince now : Z) (s s' : TState) (inner : Event) (key : string) : Prop := {
  xn_admitted : admit_inner t outer innerSince now = Some inner;
  xn_unknown : unknown (ts_ledger s) (hex (ev_ID inner)) key;
  xn_log : executions (ts_log s') = executions (ts_log s) ++ [(inner, key)];
  xn_held : held (ts_ledger s') inner key;
  xn_kept e k : held (ts_ledger s) e k → held (ts_ledger s') e k;
}.

Lemma handle_spec t a outer innerSince now s b s' : handleContextVMEventSince t a outer innerSince now s = (b, s') →
  quiet s s' ∨ ∃ inner key, executed_new t outer innerSince now s s' inner key.
Proof.
  unfold handleContextVMEventSince. destruct (admit_inner t outer innerSince now) as [inner|] eqn:Ea; [|intros [= _ <-]; by left].
  destruct (route_request t inner) as [|response|rpc token fp]; [intros [= _ <-]; by left|intros [= _ <-]; left; apply quiet_publish|].
  destruct (claimLocalContextVMRequest _ _ _ _ _ _ _) as [run s1] eqn:Ec. apply claimLocal_spec in Ec as [Hq Hrun].
  destruct run; cbn [negb]; [|intros [= _ <-]; by left]. destruct (Hrun eq_refl) as [Hu Hh]. intros Hs. right. exists inner, (claim_key inner rpc token).
  set (s2 := log (EExecuted inner (claim_key inner rpc token)) s1) in *.
  assert (Hq2 : quiet s2 s') by (destruct (an_survives a); injection Hs as _ <-; [apply finish_quiet|done]). destruct Hq as [Hl Hk], Hq2 as [Hl2 Hk2].
  split; [done|done| |by apply Hk2|intros e k He; by apply Hk2, Hk].
  rewrite Hl2. unfold s2. simpl. by rewrite executions_app, Hl.
Qed.

Lemma process_spec t a epoch now ev s : let s' := processContextVMDelivery t a epoch now ev s in
  quiet s s' ∨ ∃ inner key, executed_new t ev (innerFloor t epoch now) now s s' inner key.
Proof.
  unfold processContextVMDelivery. destruct (CheckID ev); [|by left]. cbn [negb]. destruct (ContextVMDelivered _ _); [by left|].
  unfold handleEventSince. destruct (_ || _ || _).
  - destruct (handleContextVMEventSince _ _ _ _ _ _) as [b s1] eqn:Eh. destruct (handle_spec _ _ _ _ _ _ _ _ Eh) as [Hq|(inner & key & [Ha Hu Hl Hh Hk])].
    + left. destruct b; [|done]. rewrite Hq. apply quiet_ledger. intros e k. apply held_mark.
    + right. exists inner, key. destruct b; [|done]. split; [done..| |]; simpl; [by apply held_mark|]. intros e k He. by apply held_mark, Hk.
  - left. apply quiet_ledger. intros e k. apply held_mark.
Qed.

End delivery.
