(* ===== verification/ContextVMProps.v ===== *)
(** * ContextVM requests: at most once

    Over every sequence of deliveries, crashes, restarts and prunes a request
    is executed at most once, and an idempotency key is used again only after
    the request that claimed it is past retention.  A lost ledger and an
    evidence hold are where this ends. *)

From Stdlib Require Import ZArith Lia Bool Ascii.
From stdpp Require Import base tactics decidable option list numbers strings gmap sorting relations.
From S2P Require Import Prelude Bytes Nostr EventID EventIDFacts Bolt BoltCoord SampleDigest Inbound CanonicalJSON ContextVM ContextVMTransport ContextVMFacts.

(** What the ContextVM library checks before it returns a message. *)
Class ContextVMLaws `{NostrPrims} `{ContextVMPrims} : Prop := {
  unwrap_wf outer inner nip59 : UnwrapAny outer = Some (inner, nip59) → wf_event inner;
  unwrap_rumor outer inner : UnwrapAny outer = Some (inner, true) → CheckID inner = true;
}.

(** ** A daemon and its restarts *)

Record World := mkWorld {
  w_state : TState;
  w_epoch : Z;
  w_lastPrune : Z;
  (** The latest time any step took. *)
  w_clock : Z;
}.

(** How far back the clock may be set. *)
Definition tolerance (t : Transport) : Z := backdateOverlap t + hour.

Section at_most_once.
Context `{NostrLaws} `{ContextVMPrims} `{!ContextVMLaws} (t : Transport).

Definition deliver (a : Answers) (now : Z) (ev : Event) (w : World) : World :=
  mkWorld (processContextVMDelivery t a (w_epoch w) now ev (w_state w)) (w_epoch w) (w_lastPrune w) (Z.max (w_clock w) now).

Definition prune (hold : bool) (now : Z) (w : World) : World :=
  let '(lastPrune, f) := pruneLocked t hold now (w_lastPrune w) (ts_ledger (w_state w)) in
  mkWorld (set_ledger f (w_state w)) (w_epoch w) lastPrune (Z.max (w_clock w) now).

(** A new process: memory is lost, the epoch is read, the ledger is pruned. *)
Definition restart (hold : bool) (now : Z) (w : World) : World :=
  let '(epoch, f) := ContextVMLedgerEpoch now (ts_ledger (w_state w)) in
  prune hold now (mkWorld (mkTState f (newContextVMDedupCache 0) (ts_log (w_state w))) (timestamp_time epoch) zero_time (w_clock w)).

Inductive wstep : relation World :=
| wstep_deliver a now ev w : wf_event ev → w_clock w - tolerance t ≤ now → wstep w (deliver a now ev w)
| wstep_prune hold now w : wstep w (prune hold now w)
| wstep_restart hold now w : wstep w (restart hold now w).

Definition new_world : World := mkWorld (mkTState empty_ledger (newContextVMDedupCache 0) []) 0 zero_time 0.

(** ** The invariant *)

(** Requests created before this are never admitted again. *)
Definition horizon (w : World) : Z := unix_sec (prune_cutoff t (w_clock w)).

Definition remembered (w : World) (x : Event * string) : Prop :=
  wf_event (fst x) ∧ CheckID (fst x) = true ∧ (ev_CreatedAt (fst x) < horizon w ∨ held (ts_ledger (w_state w)) (fst x) (snd x)).

Definition executed (w : World) : list (Event * string) := executions (ts_log (w_state w)).

(** The keys claimed before the horizon may come again. *)
Fixpoint keys_spaced (h : Z) (l : list (Event * string)) : Prop :=
  match l with
  | [] => True
  | (e, k) :: l' => (∀ e', (e', k) ∈ l' → k ≠ "" → ev_CreatedAt e < h) ∧ keys_spaced h l'
  end.

Record world_ok (w : World) : Prop := {
  wo_remembered x : x ∈ executed w → remembered w x;
  wo_once : NoDup ((λ x, ev_ID (fst x)) <$> executed w);
  wo_keys : keys_spaced (horizon w) (executed w);
}.

Lemma horizon_mono w w' : w_clock w ≤ w_clock w' → horizon w ≤ horizon w'.
Proof. intros Hc. unfold horizon, prune_cutoff, unix_sec. apply Z.div_le_mono; [done|lia]. Qed.

Lemma keys_spaced_mono h h' l : h ≤ h' → keys_spaced h l → keys_spaced h' l.
Proof. intros Hh. induction l as [|[e k] l IH]; [done|]. intros [Hl Hk]. split; [|auto]. intros e' Hin Hne. specialize (Hl e' Hin Hne). lia. Qed.

Lemma keys_spaced_snoc h l e k : keys_spaced h l → (∀ e', (e', k) ∈ l → k ≠ "" → ev_CreatedAt e' < h) → keys_spaced h (l ++ [(e, k)]).
Proof.
  induction l as [|[e1 k1] l IH]; intros Hl Hk.
  - split; [|done]. intros e' []%elem_of_nil.
  - destruct Hl as [Hl1 Hl]. split; [|apply IH; [done|]; intros e' Hin; apply Hk; by right].
    intros e' [Hin|[= <- <-]%list_elem_of_singleton]%elem_of_app Hne; [by apply (Hl1 e')|]. apply Hk; [by left|done].
Qed.

(** A step that executes nothing keeps the invariant if what it forgets is
    past the horizon. *)
Lemma world_ok_quiet w w' : w_clock w ≤ w_clock w' → executed w' = executed w →
  (∀ e k, held (ts_ledger (w_state w)) e k → held (ts_ledger (w_state w')) e k ∨ ev_CreatedAt e < horizon w') → world_ok w → world_ok w'.
Proof.
  intros Hc He Hk [Hr Ho Hs]. pose proof (horizon_mono _ _ Hc) as Hh. split; rewrite ?He; [|done|by eapply keys_spaced_mono].
  intros x Hx. destruct (Hr x Hx) as (Hw & Hid & [Hold|Hheld]); split_and!; try done; [left; lia|].
  destruct (Hk _ _ Hheld); [by right|by left].
Qed.

(** ** Every step keeps it *)

Lemma admit_inner_spec outer innerSince now inner : wf_event outer → admit_inner t outer innerSince now = Some inner →
  wf_event inner ∧ CheckID inner = true ∧ innerSince ≤ ev_CreatedAt inner.
Proof.
  intros Hwf. unfold admit_inner. destruct (open_envelope t outer now) as [[i nip59]|] eqn:Eo; [|done].
  assert (Hi : wf_event i ∧ (nip59 = true → CheckID i = true)).
  { unfold open_envelope in Eo. destruct (_ || _); [|injection Eo as <- <-; by split].
    destruct (negb _); [done|]. destruct (negb _); [done|]. destruct (_ && _); [done|]. destruct (UnwrapAny outer) as [[i' n']|] eqn:Eu; [|done].
    destruct (validContextVMWrapperPubkey _ _ _); [|done]. injection Eo as <- <-. split; [by eapply unwrap_wf|]. intros ->. by eapply unwrap_rumor. }
  destruct Hi as [Hwi Hid]. destruct (match tr_unwrapIntent t with Some _ => _ | None => _ end); [done|]. destruct (negb (ev_Kind i =? _)); [done|].
  destruct (negb (innerSince =? 0) && _) eqn:Ef; [done|]. destruct (validateContextVMInnerEvent i nip59 now) eqn:Ev; [|done]. intros [= <-].
  assert (Hv : CheckID i = true ∧ 0 < ev_CreatedAt i).
  { unfold validateContextVMInnerEvent in Ev. destruct nip59; simpl in Ev.
    - bool_facts. split; [auto|lia].
    - destruct (ValidateInboundEvent i now) as [[]|] eqn:Eok; [|done]. by destruct (ValidateInboundEvent_admissible _ _ Eok). }
  split_and!; [done|apply Hv|]. apply andb_false_iff in Ef as [Ef|Ef]; bool_facts; lia.
Qed.

Lemma floor_horizon w now : w_clock w - tolerance t ≤ now → horizon w ≤ innerFloor t (w_epoch w) now.
Proof.
  intros Hn. unfold horizon, innerFloor, prune_cutoff, tolerance, unix_sec, time_after in *. apply Z.div_le_mono; [done|].
  destruct (Z.ltb_spec (now - maxAge t) (w_epoch w - contextVMColdLedgerGrace)); lia.
Qed.

Lemma world_ok_deliver a now ev w : wf_event ev → w_clock w - tolerance t ≤ now → world_ok w → world_ok (deliver a now ev w).
Proof.
  intros Hev Hn Hok. assert (Hc : w_clock w ≤ w_clock (deliver a now ev w)) by (simpl; lia). pose proof (horizon_mono _ _ Hc) as Hh.
  destruct (process_spec t a (w_epoch w) now ev (w_state w)) as [[He Hk]|(inner & key & [Ha [Hid Hkey] Hl Hheld Hkept])].
  { apply (world_ok_quiet w); [done..| |done]. intros e k Hx. left. by apply Hk. }
  destruct Hok as [Hr Ho Hs]. destruct (admit_inner_spec _ _ _ _ Hev Ha) as (Hwi & Hci & Hfl). pose proof (floor_horizon w now Hn) as Hfh.
  assert (Hex : executed (deliver a now ev w) = executed w ++ [(inner, key)]) by exact Hl. split; rewrite ?Hex.
  - intros x [Hx| ->%list_elem_of_singleton]%elem_of_app; [|split_and!; [done..|by right]].
    destruct (Hr x Hx) as (Hw & Hc' & [Hold|Hh']); split_and!; try done; [left; lia|right; by apply Hkept].
  - rewrite fmap_app. apply NoDup_app. split_and!; [done| |apply NoDup_singleton].
    intros id (x & -> & Hx)%list_elem_of_fmap E%list_elem_of_singleton. simpl in E. destruct (Hr x Hx) as (Hw & Hc' & [Hold|(r & Hrr & _)]).
    + destruct (CheckID_same (fst x) inner) as (_ & Ec & _); [done..|]. lia.
    + rewrite E in Hrr. congruence.
  - apply keys_spaced_snoc; [by eapply keys_spaced_mono|]. intros e' Hx Hne. destruct (Hr _ Hx) as (_ & _ & [Hold|Hh']); simpl in *; [lia|].
    destruct (held_known _ _ _ Hh' Hne) as [r E]. specialize (Hkey Hne). congruence.
Qed.

Lemma world_ok_prune hold now w : world_ok w → world_ok (prune hold now w).
Proof.
  unfold prune, pruneLocked. destruct (_ && _); [apply world_ok_quiet; simpl; [lia|done|by left]|].
  destruct (PruneContextVMLedger _ _ _) as [[n f]|] eqn:Ep; [|apply world_ok_quiet; simpl; [lia|done|by left]].
  apply world_ok_quiet; simpl; [lia|done|]. intros e k Hk. destruct (held_prune _ _ _ _ _ _ _ Ep Hk) as [|Hlt]; [by left|]. right.
  apply (Z.lt_le_trans _ _ _ Hlt). unfold horizon, prune_cutoff, unix_sec. simpl. apply Z.div_le_mono; [done|lia].
Qed.

Lemma world_ok_restart hold now w : world_ok w → world_ok (restart hold now w).
Proof.
  intros Hok. unfold restart. destruct (ContextVMLedgerEpoch now _) as [epoch f] eqn:Ee. apply world_ok_prune. revert Hok.
  apply world_ok_quiet; simpl; [done|done|]. intros e k Hk. left. revert Hk. unfold ContextVMLedgerEpoch in Ee.
  destruct (lg_meta _ !! _) as [v|]; [destruct (Nat.eqb _ _)|]; injection Ee as _ <-; by apply claim_kept_same.
Qed.

Lemma world_ok_steps w w' : rtc wstep w w' → world_ok w → world_ok w'.
Proof.
  induction 1 as [|w w1 w2 Hs _ IH]; [done|]. intros Hok. apply IH.
  destruct Hs; [by apply world_ok_deliver|by apply world_ok_prune|by apply world_ok_restart].
Qed.

Lemma new_world_ok : world_ok new_world.
Proof. split; [intros x []%elem_of_nil|constructor|done]. Qed.

(** C11: over every sequence of deliveries, handler crashes, restarts and
    prunes, with the clock set back by no more than the backdating overlap and
    an hour, no request is executed twice: the executed messages have distinct
    ids. *)
Theorem executed_at_most_once w : rtc wstep new_world w → NoDup ((λ x, ev_ID (fst x)) <$> executed w).
Proof. intros Hs. apply (world_ok_steps _ _ Hs new_world_ok). Qed.

(** When two executed requests carried the same idempotency key, the first
    was created before everything the daemon still admits. *)
Theorem key_reused_after_retention w i j e1 e2 k : rtc wstep new_world w → (i < j)%nat →
  executed w !! i = Some (e1, k) → executed w !! j = Some (e2, k) → k ≠ "" → ev_CreatedAt e1 < unix_sec (prune_cutoff t (w_clock w)).
Proof.
  intros Hs Hij Hi Hj Hne. destruct (world_ok_steps _ _ Hs new_world_ok) as [_ _ Hk]. fold (horizon w). revert i j Hij Hi Hj.
  induction (executed w) as [|[e k'] l IH]; intros i j Hij Hi Hj; [done|]. destruct Hk as [Hk1 Hk]. destruct j as [|j]; [lia|].
  destruct i as [|i]; [|by apply (IH Hk i j); [lia|..]]. injection Hi as -> ->. apply (Hk1 e2); [|done]. exact (list_elem_of_lookup_2 l j _ Hj).
Qed.

End at_most_once.

(** ** Retries *)

(** Another delivery of a claimed request, or of a new request with its key. *)
Record retries (f : Ledger) (req req' : ContextVMRequest) : Prop := {
  rt_ids : rq_DeliveryID req' ≠ "" ∧ rq_RequestID req' ≠ "";
  rt_delivery : lg_deliveries f !! rq_DeliveryID req' = None;
  rt_same : rq_RequestID req' = rq_RequestID req
    ∨ lg_requests f !! rq_RequestID req' = None ∧ rq_Key req' = rq_Key req ∧ rq_Key req ≠ "";
}.

(** What a retry must be told. *)
Definition retry_answer (req req' : ContextVMRequest) (outcome : ContextVMClaim) : ContextVMClaim :=
  if String.eqb (rq_RequestID req') (rq_RequestID req) || String.eqb (rq_Fingerprint req) (rq_Fingerprint req') then outcome
  else mkContextVMClaim ContextVMKeyConflict "".

Definition outcome (o : option string) : ContextVMClaim :=
  match o with
  | Some response => mkContextVMClaim ContextVMCompleted response
  | None => mkContextVMClaim ContextVMPending ""
  end.

(** The ledger holds the request, with the response [o] if it is completed. *)
Record claimed (req : ContextVMRequest) (seen : Z) (o : option string) (f : Ledger) : Prop := {
  cm_row : lg_requests f !! rq_RequestID req
    = Some (Row (mkContextVMRecord (rq_Key req) (rq_Fingerprint req) (rq_CreatedAt req) seen (bool_decide (is_Some o)) (default "" o)));
  cm_key : rq_Key req ≠ "" → lg_keys f !! rq_Key req = Some (rq_RequestID req);
}.

Lemma claim_known f req req' now seen o : retries f req req' → claimed req seen o f →
  ClaimContextVMRequest false req' now f
    = Ok (retry_answer req req' (outcome o), ledger_put_delivery (rq_DeliveryID req') (unixValue (unix_sec now)) f).
Proof.
  intros [[Hd Hi] Hdel Hsame] [Hr Hk]. unfold ClaimContextVMRequest, retry_answer.
  rewrite (proj2 (String.eqb_neq _ _) Hd), (proj2 (String.eqb_neq _ _) Hi), Hdel. cbn [negb orb require result_bind].
  unfold known_request, loadContextVMRecord, load_by_key. cbn [lg_requests lg_keys ledger_put_delivery].
  destruct Hsame as [E|(Hn & E & Hne)].
  - rewrite E, Hr, String.eqb_refl. by destruct o.
  - rewrite Hn, E, (proj2 (String.eqb_neq _ _) Hne). cbn. rewrite (Hk Hne). unfold loadContextVMRecord. cbn. rewrite Hr. cbn.
    assert (Hni : rq_RequestID req' ≠ rq_RequestID req) by (intros E'; rewrite E' in Hn; congruence).
    rewrite (proj2 (String.eqb_neq _ _) Hni). cbn [orb]. destruct (String.eqb _ _); cbn; [|done]. by destruct o.
Qed.

(** A call of the ledger's interface; one that fails changes nothing. *)
Inductive LedgerCall :=
| LClaim (hold : bool) (req : ContextVMRequest) (now : Z)
| LComplete (requestID response : string)
| LMark (deliveryID : string) (now : Z)
| LEpoch (now : Z)
| LPrune (hold : bool) (cutoff : Z).

Definition ledger_call (c : LedgerCall) (f : Ledger) : Ledger :=
  match c with
  | LClaim hold req now => match ClaimContextVMRequest hold req now f with Ok (_, f') => f' | Err _ => f end
  | LComplete requestID response => match CompleteContextVMRequest requestID response f with Ok f' => f' | Err _ => f end
  | LMark deliveryID now => MarkContextVMDelivery deliveryID now f
  | LEpoch now => snd (ContextVMLedgerEpoch now f)
  | LPrune hold cutoff => match PruneContextVMLedger hold cutoff f with Ok (_, f') => f' | Err _ => f end
  end.

Definition ledger_calls (cs : list LedgerCall) (f : Ledger) : Ledger := foldl (λ f c, ledger_call c f) f cs.

(** Prunes go no further than [limit], in seconds. *)
Definition retains (limit : Z) (c : LedgerCall) : Prop :=
  match c with LPrune false cutoff => unix_sec cutoff ≤ limit | _ => True end.

(** The response a request has after a call, and after several. *)
Definition respond (requestID : string) (o : option string) (c : LedgerCall) : option string :=
  match o, c with
  | None, LComplete id response => if String.eqb id requestID then Some response else None
  | _, _ => o
  end.

Definition first_response (requestID : string) (cs : list LedgerCall) : option string := foldl (respond requestID) None cs.

Lemma claimed_same req seen o f f' : lg_requests f' = lg_requests f → lg_keys f' = lg_keys f → claimed req seen o f → claimed req seen o f'.
Proof. intros Hr Hk [H1 H2]. split; by rewrite ?Hr, ?Hk. Qed.

Lemma claimed_claim req seen o hold req' now f claim f' :
  ClaimContextVMRequest hold req' now f = Ok (claim, f') → claimed req seen o f → claimed req seen o f'.
Proof.
  intros [(_ & Hr & Hk)|(_ & [Hu1 Hu2] & (r & _ & _ & Hr) & Hk)]%ClaimContextVMRequest_spec Hc; [by apply (claimed_same _ _ _ f)|].
  destruct Hc as [H1 H2]. split; rewrite ?Hr, ?Hk; [rewrite lookup_insert_ne; [done|congruence]|]. intros Hne.
  destruct (String.eqb_spec (rq_Key req') "") as [|Hne']; [auto|]. rewrite lookup_insert_ne; [auto|]. intros E. specialize (Hu2 Hne').
  unfold load_by_key, loadContextVMRecord in Hu2. by rewrite E, (H2 Hne), H1 in Hu2.
Qed.

Lemma claimed_complete req seen o id response f f' : CompleteContextVMRequest id response f = Ok f' → claimed req seen o f →
  claimed req seen (respond (rq_RequestID req) o (LComplete id response)) f'.
Proof.
  unfold CompleteContextVMRequest, loadContextVMRecord. intros Hq [H1 H2]. destruct (String.eqb_spec id (rq_RequestID req)) as [->|Hne].
  - rewrite H1 in Hq. cbn in Hq. destruct o as [x|]; cbn in Hq |- *; injection Hq as <-; [by split|].
    rewrite String.eqb_refl. split; cbn; [by rewrite lookup_insert_eq|done].
  - assert (claimed req seen o f'); [|destruct o; [done|]; cbn; by rewrite (proj2 (String.eqb_neq _ _) Hne)].
    destruct (lg_requests f !! id) as [[r|]|]; cbn in Hq; [|done..]. destruct (cr_Completed r); injection Hq as <-; [by split|].
    split; cbn; [by rewrite lookup_insert_ne|done].
Qed.

Lemma claimed_prune req seen o cutoff n f f' : PruneContextVMLedger false cutoff f = Ok (n, f') →
  unix_sec cutoff ≤ Z.max (rq_CreatedAt req) seen → claimed req seen o f → claimed req seen o f'.
Proof.
  intros ([rs ks] & Hx & Hok)%bind_ok Hl [H1 H2]. injection Hok as _ <-. apply expired_requests_spec in Hx as [Hrs Hks].
  assert (Hn : rq_RequestID req ∉ rs).
  { intros (r & Hr & ? & ?)%Hrs. rewrite H1 in Hr. injection Hr as <-. cbn in *. lia. }
  split; cbn; [by rewrite lookup_delete_all, decide_False|]. intros Hne. rewrite lookup_delete_all, decide_False; [auto|].
  intros (id & r & Hid & _ & _ & Hu)%Hks. destruct Hn. by rewrite (Hu _ (H2 Hne)).
Qed.

Lemma claimed_call req seen o c f : retains (Z.max (rq_CreatedAt req) seen) c → claimed req seen o f →
  claimed req seen (respond (rq_RequestID req) o c) (ledger_call c f).
Proof.
  intros Hl Hc. destruct c as [hold req' now|id response|id now|now|hold cutoff]; cbn [ledger_call].
  - replace (respond _ _ _) with o by by destruct o. destruct (ClaimContextVMRequest _ _ _ _) as [[claim f']|] eqn:E; [|done].
    by eapply claimed_claim.
  - destruct (CompleteContextVMRequest _ _ _) as [f'|] eqn:E; [by eapply claimed_complete|]. destruct o as [x|]; [done|]. cbn.
    destruct (String.eqb_spec id (rq_RequestID req)) as [->|]; [|done]. unfold CompleteContextVMRequest, loadContextVMRecord in E.
    by rewrite (cm_row _ _ _ _ Hc) in E.
  - replace (respond _ _ _) with o by by destruct o. revert Hc. unfold MarkContextVMDelivery. destruct (_ !! _); by apply claimed_same.
  - replace (respond _ _ _) with o by by destruct o. revert Hc. unfold ContextVMLedgerEpoch.
    destruct (_ !! _); [destruct (Nat.eqb _ _)|]; by apply claimed_same.
  - replace (respond _ _ _) with o by by destruct o. destruct hold; [done|].
    destruct (PruneContextVMLedger _ _ _) as [[n f']|] eqn:E; [|done]. by eapply claimed_prune.
Qed.

Lemma claimed_calls req seen cs : Forall (retains (Z.max (rq_CreatedAt req) seen)) cs → ∀ o f, claimed req seen o f →
  claimed req seen (foldl (respond (rq_RequestID req)) o cs) (ledger_calls cs f).
Proof. induction 1 as [|c cs Hl _ IH]; intros o f Hc; [done|]. cbn. by apply IH, claimed_call. Qed.

Lemma claim_claimed req now f claim f1 : ClaimContextVMRequest false req now f = Ok (claim, f1) → cl_State claim = ContextVMClaimed →
  claimed req (unix_sec now) None f1.
Proof.
  intros Hc Hs. unfold ClaimContextVMRequest in Hc. apply bind_ok in Hc as (_ & _ & Hc). cbn beta in Hc.
  destruct (lg_deliveries f !! _); [injection Hc as <- _; done|]. apply bind_ok in Hc as ([known conflict] & _ & Hc).
  destruct conflict; [injection Hc as <- _; done|]. destruct known as [k|]; [destruct (cr_Completed k); injection Hc as <- _; done|].
  injection Hc as _ <-. split; destruct (String.eqb_spec (rq_Key req) ""); simpl; rewrite ?lookup_insert_eq; done.
Qed.

(** C31: from the moment a request is claimed, and through any sequence of
    ledger calls (claims of other requests, completions, recorded deliveries,
    epochs and prunes, as long as no prune reaches past both the request's
    creation and the time it was claimed), a delivery with a new id of the
    request, or of a new request with its key, is answered from the ledger,
    which changes only by recording the delivery: as pending until the request
    is completed, then with the response of its first completion, and with a
    conflict when the key comes with other parameters.  A delivery whose id is
    recorded is skipped. *)
Theorem retries_answered req now f claim f1 calls req' now' : ClaimContextVMRequest false req now f = Ok (claim, f1) →
  cl_State claim = ContextVMClaimed → Forall (retains (Z.max (rq_CreatedAt req) (unix_sec now))) calls →
  let f' := ledger_calls calls f1 in
  (retries f' req req' → ClaimContextVMRequest false req' now' f'
     = Ok (retry_answer req req' (outcome (first_response (rq_RequestID req) calls)),
           ledger_put_delivery (rq_DeliveryID req') (unixValue (unix_sec now')) f'))
  ∧ (rq_DeliveryID req' ≠ "" → rq_RequestID req' ≠ "" → is_Some (lg_deliveries f' !! rq_DeliveryID req') →
     ClaimContextVMRequest false req' now' f' = Ok (mkContextVMClaim ContextVMRedelivered "", f')).
Proof.
  intros Hc Hs Hl f'. pose proof (claimed_calls req _ calls Hl None f1 (claim_claimed _ _ _ _ _ Hc Hs)) as Hcl.
  split; [intros Hrt; by apply (claim_known _ _ _ _ (unix_sec now))|]. intros Hd Hi [v Hv]. unfold ClaimContextVMRequest.
  by rewrite (proj2 (String.eqb_neq _ _) Hd), (proj2 (String.eqb_neq _ _) Hi), Hv.
Qed.

(** ** Where it ends *)

(** A request delivered during an evidence hold is neither executed nor
    answered, but its delivery is recorded as processed: when the hold is over
    the same delivery does nothing. *)
Theorem held_request_dropped `{NostrPrims} `{ContextVMPrims} t a epoch now ev inner rpc token fp s :
  an_hold a = true → CheckID ev = true → ContextVMDelivered (hex (ev_ID ev)) (ts_ledger s) = false →
  admit_inner t ev (innerFloor t epoch now) now = Some inner → route_request t inner = RoutedRequest rpc token fp →
  ev_ID ev ≠ "" → ev_ID inner ≠ "" →
  ev_Kind ev = KindContextVMMessage ∨ ev_Kind ev = KindContextVMGiftWrap ∨ ev_Kind ev = KindContextVMEphemeralWrap →
  let s' := processContextVMDelivery t a epoch now ev s in
  ts_log s' = ts_log s ∧ ∀ a' epoch' now', processContextVMDelivery t a' epoch' now' ev s' = s'.
Proof.
  intros Hh Hc Hd Ha Hr Ho Hi Hkind s'. assert (Hs' : s' = set_ledger (MarkContextVMDelivery (hex (ev_ID ev)) now (ts_ledger s)) s).
  { assert (Hne : ∀ x, x ≠ "" → hex x ≠ "") by (intros [|c x]; done). unfold s', processContextVMDelivery, handleEventSince, handleContextVMEventSince.
    rewrite Hc, Hd. cbn [negb]. replace (_ || _ || _) with true by (destruct Hkind as [E|[E|E]]; by rewrite E). rewrite Ha, Hr.
    unfold claimLocalContextVMRequest, ClaimContextVMRequest. cbn [rq_DeliveryID rq_RequestID].
    rewrite (proj2 (String.eqb_neq _ _) (Hne _ Ho)), (proj2 (String.eqb_neq _ _) (Hne _ Hi)), Hh. by destruct s. }
  rewrite Hs'. split; [done|]. intros a' epoch' now'. unfold processContextVMDelivery. rewrite Hc. cbn [negb].
  assert (Hm : ContextVMDelivered (hex (ev_ID ev)) (MarkContextVMDelivery (hex (ev_ID ev)) now (ts_ledger s)) = true); [|cbn [ts_ledger set_ledger]; by rewrite Hm].
  unfold ContextVMDelivered in Hd |- *. unfold MarkContextVMDelivery. apply bool_decide_eq_false, eq_None_not_Some in Hd. rewrite Hd.
  apply bool_decide_eq_true. cbn. rewrite lookup_insert_eq. by eexists.
Qed.

(** *** A lost ledger *)

Section lost.
Context `{NostrPrims} `{ContextVMPrims} (t : Transport).

(** The world with a new ledger file; the log is what happened in it. *)
Definition lost (w : World) : World :=
  mkWorld (mkTState empty_ledger (newContextVMDedupCache 0) (ts_log (w_state w))) 0 zero_time (w_clock w).

(** What a start on a new ledger leaves: no request, no key, no delivery. *)
Lemma restart_lost hold start w : let w' := restart t hold start (lost w) in
  w_epoch w' = timestamp_time (unix_sec start) ∧ executed w' = executed w ∧ dc_entries (ts_cache (w_state w')) = ∅
  ∧ lg_requests (ts_ledger (w_state w')) = ∅ ∧ lg_keys (ts_ledger (w_state w')) = ∅ ∧ lg_deliveries (ts_ledger (w_state w')) = ∅.
Proof. unfold restart, prune, pruneLocked. cbn. by destruct hold. Qed.

Lemma admit_floor ev now inner since : admit_inner t ev 0 now = Some inner → since ≤ ev_CreatedAt inner → admit_inner t ev since now = Some inner.
Proof.
  unfold admit_inner. destruct (open_envelope t ev now) as [[i nip59]|]; [|done].
  destruct (match tr_unwrapIntent t with Some _ => _ | None => _ end); [done|]. destruct (negb (ev_Kind i =? _)); [done|]. cbn.
  destruct (negb (validateContextVMInnerEvent _ _ _)) eqn:Ev; [done|]. intros [= ->] Hs.
  rewrite (proj2 (Z.ltb_ge _ _) Hs), andb_false_r. done.
Qed.

Lemma claim_unheld a outer inner rpc token fp s : an_hold a = false → an_stored a = None → ev_ID outer ≠ "" → ev_ID inner ≠ "" →
  dc_entries (ts_cache s) = ∅ → lg_requests (ts_ledger s) = ∅ → lg_keys (ts_ledger s) = ∅ → lg_deliveries (ts_ledger s) = ∅ →
  fst (claimLocalContextVMRequest a outer inner rpc token fp s) = true.
Proof.
  intros Hh Hst Ho Hi Hc Hr Hk Hd. assert (Hne : ∀ x, x ≠ "" → hex x ≠ "") by (intros [|c x]; done).
  unfold claimLocalContextVMRequest, ClaimContextVMRequest, known_request, load_by_key, loadContextVMRecord. cbn [rq_DeliveryID rq_RequestID rq_Key rq_Fingerprint].
  rewrite (proj2 (String.eqb_neq _ _) (Hne _ Ho)), (proj2 (String.eqb_neq _ _) (Hne _ Hi)), Hh, Hd, lookup_empty. cbn. rewrite Hr, Hk, !lookup_empty.
  destruct (String.eqb (claim_key inner rpc token) ""); cbn; (destruct (String.eqb token ""); [done|]);
    unfold cachedContextVMResponse; cbn; by rewrite Hc, lookup_empty, Hst.
Qed.

End lost.

(** C38: with a new ledger, requests created up to two minutes before its epoch
    are admitted again, so a request executed under the lost one runs a second
    time: whatever happened before, a start on a new ledger followed by a
    delivery of a routable request created no earlier than two minutes before
    that start (and within the maximal age) executes it, and if it was executed
    before then the executed ids are no longer distinct. *)
Theorem lost_ledger_reruns `{NostrPrims} `{ContextVMPrims} t a hold start now ev inner rpc token fp w :
  CheckID ev = true → ev_ID ev ≠ "" → ev_ID inner ≠ "" →
  ev_Kind ev = KindContextVMMessage ∨ ev_Kind ev = KindContextVMGiftWrap ∨ ev_Kind ev = KindContextVMEphemeralWrap →
  admit_inner t ev 0 now = Some inner → route_request t inner = RoutedRequest rpc token fp →
  an_hold a = false → an_stored a = None →
  unix_sec start - 120 ≤ ev_CreatedAt inner → unix_sec (now - maxAge t) ≤ ev_CreatedAt inner →
  let w' := deliver t a now ev (restart t hold start (lost w)) in
  executed w' = executed w ++ [(inner, claim_key inner rpc token)]
  ∧ (∀ k, (inner, k) ∈ executed w → ¬ NoDup ((λ x, ev_ID (fst x)) <$> executed w')).
Proof.
  intros Hc Ho Hi Hkind Ha Hr Hh Hst Hs Hn w'. destruct (restart_lost t hold start w) as (He & Hl & Hca & Hrq & Hks & Hds).
  set (w1 := restart t hold start (lost w)) in *. clearbody w1.
  assert (Hfl : innerFloor t (w_epoch w1) now ≤ ev_CreatedAt inner).
  { rewrite He. unfold innerFloor. destruct (time_after _ _); [|done]. etrans; [|exact Hs].
    unfold unix_sec at 1. replace (_ - contextVMColdLedgerGrace) with ((unix_sec start - 120) * second) by (unfold timestamp_time, contextVMColdLedgerGrace, minute; lia).
    by rewrite Z.div_mul. }
  assert (Hex : executed w' = executed w ++ [(inner, claim_key inner rpc token)]).
  { rewrite <- Hl. unfold w', deliver, executed. cbn [w_state].
    unfold processContextVMDelivery, handleEventSince, handleContextVMEventSince, ContextVMDelivered. rewrite Hc, Hds, lookup_empty.
    cbn [negb]. rewrite bool_decide_eq_false_2 by by intros [].
    replace (_ || _ || _) with true by (destruct Hkind as [E|[E|E]]; by rewrite E).
    rewrite (admit_floor t ev now inner _ Ha Hfl), Hr.
    pose proof (claim_unheld a ev inner rpc token fp (w_state w1) Hh Hst Ho Hi Hca Hrq Hks Hds) as Hrun.
    destruct (claimLocalContextVMRequest _ _ _ _ _ _ _) as [run s] eqn:Ec. cbn in Hrun. subst run. cbn [negb].
    destruct (claimLocal_spec _ _ _ _ _ _ _ _ _ Ec) as [[Hq _] _].
    set (s2 := log (EExecuted inner (claim_key inner rpc token)) s).
    assert (Hs2 : executions (ts_log s2) = executions (ts_log (w_state w1)) ++ [(inner, claim_key inner rpc token)]).
    { unfold s2. simpl. by rewrite executions_app, Hq. }
    destruct (an_survives a); cbn [ts_log set_ledger]; [|done]. destruct (finish_quiet a inner rpc token fp s2) as [Hf _]. by rewrite Hf. }
  split; [done|]. intros k Hin Hnd. rewrite Hex, fmap_app in Hnd. apply NoDup_app in Hnd as (_ & Hdis & _).
  apply (Hdis (ev_ID inner)); [|by left]. by apply (list_elem_of_fmap_2 (λ x, ev_ID (fst x)) _ (inner, k)).
Qed.

(** ** A sample *)

Module ContextVMSample.

Definition author : string := key_of 21.
Definition message (created : Z) (id : string) : Event := mkEvent id author created KindContextVMMessage [["p"%string; "svc"%string]] "rpc" sig_of.
Definition first : Event := message 1700000000 (key_of 41).
Definition reuse : Event := message 1701000000 (key_of 42).

Definition table : list (string * string) :=
  [(serializedHash_bytes first, key_of 41); (serializedHash_bytes reuse, key_of 42); ("null"%string, key_of 91)].

#[local] Instance sample_prims : NostrPrims := {|
  sha256 := digest table;
  verify_bip340 := λ _ _ _, true;
  ParsePubKey := λ _, true;
  SchnorrVerify := λ _ _ _, true;
  decode_unadmitted := λ _, None;
  decode_accepted := λ _, None;
  decode_refused := λ _, None;
|}.

#[local] Instance sample_laws : NostrLaws.
Proof. split; [|done]. intros a b. apply (digest_collision_free table). vm_compute. repeat constructor; set_solver. Qed.

#[local] Instance sample_contextvm : ContextVMPrims := {|
  UnwrapAny := λ _, None;
  ProgressToken := λ _, "token"%string;
  JSONRPCVersion := "2.0";
  InvalidRequestCode := -32600;
  MethodNotFoundCode := -32601;
  InternalErrorCode := -32603;
  ParseErrorCode := -32700;
  NewResponse := λ _ r, r;
  NewErrorResponse := λ _ _ m, m;
  FailedResponse := λ _ _ m, m;
  json_object := λ _, Some ∅;
  json_string := λ _, None;
  json_request := λ _, Some (mkRPCRequest "2.0" "1" "deploy" "{}");
  json_value := λ _, Some JNull;
  storedContextVMResponse := λ r _, Some r;
  WithResponseID := λ r _, r;
|}.

#[local] Instance sample_contextvm_laws : ContextVMLaws.
Proof. by split. Qed.

Definition t : Transport := mkTransport "svc" [hex author] None None (λ _, true) (λ _, None) 0 0.
Definition answers : Answers := mkAnswers false 0 None false (Ok "done"%string) true.

(** A start, a request, its redelivery after a crash, a prune ten days later
    and a new request with the same key. *)
Definition started : World := restart t false (1700000000 * second) new_world.
Definition crashed : World := deliver t (mkAnswers false 0 None false (Ok "done"%string) false) (1700000010 * second) first started.
Definition redelivered : World := deliver t answers (1700000020 * second) first (restart t false (1700000015 * second) crashed).
Definition later : World := deliver t answers (1701000010 * second) reuse (prune t false (1701000005 * second) redelivered).

Lemma reaches_later : rtc (wstep t) new_world later.
Proof.
  assert (Hwf : wf_event first ∧ wf_event reuse) by (split; apply wf_eventb_spec; vm_compute; reflexivity). destruct Hwf as [Hw1 Hw2].
  eapply rtc_r; [|apply (wstep_deliver t); [done|vm_compute; congruence]]. eapply rtc_r; [|apply (wstep_prune t)].
  eapply rtc_r; [|apply (wstep_deliver t); [done|vm_compute; congruence]]. eapply rtc_r; [|apply (wstep_restart t)].
  eapply rtc_r; [|apply (wstep_deliver t); [done|vm_compute; congruence]]. eapply rtc_r; [|apply (wstep_restart t)].
  apply rtc_refl.
Qed.

Lemma executed_at_most_once_witness : NoDup ((λ x, ev_ID (fst x)) <$> executed later).
Proof. apply (executed_at_most_once t later reaches_later). Defined.

Definition key : string := contextVMCacheKey (hex author) "deploy" "token".

Lemma key_reused_after_retention_witness : ev_CreatedAt first < unix_sec (prune_cutoff t (w_clock later)).
Proof.
  apply (key_reused_after_retention t later 0 1 first reuse key reaches_later); [lia|vm_compute; reflexivity..|done].
Defined.

Lemma held_request_dropped_witness : let s := w_state started in
  let s' := processContextVMDelivery t (mkAnswers true 0 None false (Ok "done"%string) true) (w_epoch started) (1700000010 * second) first s in
  ts_log s' = ts_log s ∧ ∀ a' epoch' now', processContextVMDelivery t a' epoch' now' first s' = s'.
Proof.
  apply (held_request_dropped t (mkAnswers true 0 None false (Ok "done"%string) true) (w_epoch started) (1700000010 * second) first first
    (mkRPCRequest "2.0" "1" "deploy" "{}") "token" (hex (key_of 91)) (w_state started)); try (vm_compute; reflexivity); try done. by left.
Defined.

Lemma lost_ledger_reruns_witness :
  let w' := deliver t answers (1700000070 * second) first (restart t false (1700000060 * second) (lost redelivered)) in
  executed w' = executed redelivered ++ [(first, key)] ∧ ¬ NoDup ((λ x, ev_ID (fst x)) <$> executed w').
Proof.
  destruct (lost_ledger_reruns t answers false (1700000060 * second) (1700000070 * second) first first
    (mkRPCRequest "2.0" "1" "deploy" "{}") "token" (hex (key_of 91)) redelivered) as [H1 H2];
    try (vm_compute; congruence); try (vm_compute; reflexivity); [done..|by left|]. split; [exact H1|].
  apply (H2 key). vm_compute. by left.
Defined.

Definition claim_of (delivery request fp : string) : ContextVMRequest := mkContextVMRequest delivery request "k" fp 1700000000.

(** A claim, a retry while it runs, a prune, two completions, and a request
    with the same key. *)
Definition calls : list LedgerCall :=
  [LClaim false (claim_of "d2" "r1" "f") (1700000005 * second); LPrune false (1700000000 * second);
   LComplete "r1" "done"; LComplete "r1" "again"].

Lemma retries_answered_witness : ∃ f1, ClaimContextVMRequest false (claim_of "d1" "r1" "f") 0 empty_ledger = Ok (mkContextVMClaim ContextVMClaimed "", f1)
  ∧ ClaimContextVMRequest false (claim_of "d3" "r2" "f") 0 (ledger_calls calls f1)
    = Ok (mkContextVMClaim ContextVMCompleted "done", ledger_put_delivery "d3" (unixValue 0) (ledger_calls calls f1)).
Proof.
  eexists. split; [vm_compute; reflexivity|].
  eapply (retries_answered (claim_of "d1" "r1" "f") 0 empty_ledger (mkContextVMClaim ContextVMClaimed "") _ calls (claim_of "d3" "r2" "f") 0);
    [vm_compute; reflexivity|done|repeat constructor; vm_compute; congruence|].
  split; [done|vm_compute; reflexivity|right; split; [vm_compute; reflexivity|done]].
Defined.

End ContextVMSample.
