(* ===== verification/TagIndex.v ===== *)
(** * The index of tag values the event store skips

    [src/internal/boltcoord/tagindex.go]: the bucket of keys for tag values
    that are empty or longer than the event store indexes, its reads in pages
    of one transaction each, and the fetch of the events behind a page. *)

From Stdlib Require Import ZArith Lia Bool Ascii.
From stdpp Require Import base tactics decidable option list numbers strings gmap sorting.
From S2P Require Import Prelude Bytes Nostr EventID Bolt BoltCoord BetterBinary Md5 EventStore EventQuery.

Definition tagPageSize : nat := 512.

Definition unindexedTag (tag : list string) : bool :=
  match tag with
  | name :: value :: _ => Nat.eqb (String.length name) 1 && negb (tagIndexable value)
  | _ => false
  end.

Section tag_index.
Context `{NostrPrims}.

Definition tagKeyPrefix (name value : string) : string := take_bytes 1 name +:+ sha256 value.

Definition tagKey (event : Event) (name value : string) : string :=
  tagKeyPrefix name value +:+ be64 (to_u64 (ev_CreatedAt event)) +:+ ev_ID event.

(** The loop over the tags; [seen] are those before. *)
Fixpoint tag_keys_loop (event : Event) (seen tags : list (list string)) : list string :=
  match tags with
  | [] => []
  | tag :: tags' =>
      let rest := tag_keys_loop event (seen ++ [tag]) tags' in
      if negb (unindexedTag tag) then rest
      else if existsb (same_tag tag) seen then rest
      else match tag with
      | name :: value :: _ => tagKey event name value :: rest
      | _ => rest
      end
  end.

Definition tagKeys (event : Event) : list string := tag_keys_loop event [] (ev_Tags event).

(** [tagIndex.apply]: the whole loop is one transaction. *)
Definition tagIndex_apply (event : Event) (op : string → gset string → gset string) (ix : gset string) : gset string :=
  foldl (λ ix key, op key ix) ix (tagKeys event).

Definition tagIndex_index (event : Event) (ix : gset string) : gset string := tagIndex_apply event (λ key ix, {[ key ]} ∪ ix) ix.

Definition tagIndex_unindex (event : Event) (ix : gset string) : gset string := tagIndex_apply event (λ key ix, ix ∖ {[ key ]}) ix.

(** ** Reading *)

(** The keys below [bound], nearest first: where the cursor stands after the
    [Seek], and what [Prev] reads from there. *)
Definition below (bound : string) (ix : gset string) : list string :=
  reverse (filter (λ k, bytes_ltb k bound) (index_keys ix)).

(** The time and the id in a key with this prefix. *)
Definition key_created (prefix key : string) : Z := to_i64 (be_decode (take_bytes 8 (drop_bytes (String.length prefix) key))).
Definition key_id (prefix key : string) : string := drop_bytes (String.length prefix + 8) key.

(** The loop inside one read transaction, with room for [n] more ids: the ids,
    the next bound and whether the range is exhausted. *)
Fixpoint page_loop (n : nat) (prefix : string) (since : Z) (cursor : list string) (bound : string) : list string * string * bool :=
  match n with
  | O => ([], bound, false)
  | S n' =>
      match cursor with
      | [] => ([], bound, true)
      | key :: cursor' =>
          if negb (has_prefix key prefix) then ([], bound, true)
          else if (0 <? since) && (key_created prefix key <? since) then ([], bound, true)
          else
            let '(ids, bound, exhausted) := page_loop n' prefix since cursor' key in
            (key_id prefix key :: ids, bound, exhausted)
      end
  end.

(** The events of a page: those still held that carry the tag. *)
Definition page_events `{StorePrims} (db : EventDB) (name value : string) (ids : list string) : list Event :=
  let held := foldl (λ held event, <[ev_ID event := event]> held) (∅ : gmap string Event) (queryByIds db ids) in
  omap (λ id, match held !! id with
              | Some event => if ContainsAny (ev_Tags event) name [value] then Some event else None
              | None => None
              end) ids.

(** The pages, with [n] left. *)
Fixpoint events_loop `{StorePrims} (n : nat) (db : EventDB) (ix : gset string) (name value : string) (since : Z) (bound : string) :
    result QueryError (list Event) :=
  match n with
  | O => Err QueryOutOfFuel
  | S n' =>
      let prefix := tagKeyPrefix name value in
      let '(ids, bound, exhausted) := page_loop tagPageSize prefix since (below bound ix) bound in
      match ids with
      | [] => Ok []
      | _ :: _ =>
          let events := page_events db name value ids in
          if (exhausted : bool) then Ok events
          else let! rest := events_loop n' db ix name value since bound in Ok (events ++ rest)
      end
  end.

(** [tagIndex.events], as a consumer that takes everything sees it. *)
Definition tagIndex_events `{StorePrims} (db : EventDB) (ix : gset string) (name value : string) (since until : Z) :
    result QueryError (list Event) :=
  let upper := if 0 <? until then until + 1 else two64 - 1 in
  events_loop (S (size ix)) db ix name value since (tagKeyPrefix name value +:+ be64 upper).

End tag_index.
