(* ===== verification/CoordStore.v ===== *)
(** * Coordinates, deletions and tag filters over the event store

    [src/internal/boltcoord/store.go]: the store that keeps the tag index in
    step with the event store, replaces versions, applies deletion requests,
    repairs older files and answers filters on long tag values.  A call is
    several transactions, so its state stays when it fails half-way. *)

From Stdlib Require Import ZArith Lia Bool Ascii.
From stdpp Require Import base tactics decidable option list numbers strings gmap sorting.
From S2P Require Import Prelude Bytes Nostr EventID Bolt BoltCoord BetterBinary Md5 EventStore EventQuery Inbound TagIndex Action.

(** ** The file *)

(** The event store, the tag index and the settings with the markers. *)
Record StoreFile := mkStoreFile {
  sf_db : EventDB;
  sf_tags : gset string;
  sf_settings : gmap string string;
}.

Definition set_db (db : EventDB) (f : StoreFile) : StoreFile := mkStoreFile db (sf_tags f) (sf_settings f).
Definition set_tags (ix : gset string) (f : StoreFile) : StoreFile := mkStoreFile (sf_db f) ix (sf_settings f).

Inductive StoreFault :=
| FaultStore (e : StoreError)
| FaultQuery (e : QueryError)
| FaultCoord (e : CoordError).

Definition lift_query {A} (r : result QueryError A) : result StoreFault A :=
  match r with Ok a => Ok a | Err e => Err (FaultQuery e) end.

(** A write transaction of the event store. *)
Definition backend {A} (w : EventDB → result StoreError (A * EventDB)) : act StoreFile StoreFault A := λ f,
  match w (sf_db f) with
  | Ok (a, db) => (Ok a, set_db db f)
  | Err e => (Err (FaultStore e), f)
  end.

Definition unit_of {E} (r : result E EventDB) : result E (unit * EventDB) := let! db := r in Ok (tt, db).

Section store.
Context `{NostrPrims} `{StorePrims} `{QueryEnv}.

Definition tags_index (event : Event) (f : StoreFile) : StoreFile := set_tags (tagIndex_index event (sf_tags f)) f.
Definition tags_unindex (event : Event) (f : StoreFile) : StoreFile := set_tags (tagIndex_unindex event (sf_tags f)) f.

Definition held (id : string) (f : StoreFile) : bool :=
  match queryByIds (sf_db f) [id] with
  | event :: _ => String.eqb (ev_ID event) id
  | [] => false
  end.

Definition unindexUnstored (event : Event) (f : StoreFile) : StoreFile :=
  if held (ev_ID event) f then f else tags_unindex event f.

(** ** Saving and deleting *)

Definition Store_Save (event : Event) : act StoreFile StoreFault unit := λ f,
  let f := tags_index event f in
  match SaveEvent (sf_db f) event with
  | Ok db => (Ok tt, set_db db f)
  | Err ErrDupEvent => (Err (FaultStore ErrDupEvent), f)
  | Err e => (Err (FaultStore e), unindexUnstored event f)
  end.

Definition Store_Delete (event : Event) : act StoreFile StoreFault unit :=
  do! _ := backend (λ db, unit_of (DeleteEvent db (ev_ID event))) in
  act_write (tags_unindex event).

Definition deleteID (id : string) : act StoreFile StoreFault unit := λ f,
  match List.find (λ event, String.eqb (ev_ID event) id) (queryByIds (sf_db f) [id]) with
  | Some event => Store_Delete event f
  | None => (Ok tt, f)
  end.

(** ** Replacing *)

(** [scan] reads the store as it is. *)
Context (scan : StoreFile → Scan QueryError).

(** The write, once no held version is as new. *)
Definition replace_write (event : Event) (current : list Event) : act StoreFile StoreFault bool := λ f,
  let f := tags_index event f in
  match ReplaceEvent (sf_db f) event with
  | Err e => (Err (FaultStore e), unindexUnstored event f)
  | Ok (db, replaced) =>
      let f := foldl (λ f older, tags_unindex older f) (set_db db f) replaced in
      (do! _ := act_each Store_Delete (if dIndexed (CoordinateOf event) then [] else current) in act_ret true) f
  end.

Definition Store_Replace (event : Event) : act StoreFile StoreFault bool :=
  let c := CoordinateOf event in
  let limit := if dIndexed c then 1 else unbounded in
  do! current := act_read (λ f, lift_query (Versions (scan f) c 0 limit)) in
  if (match current with newest :: _ => negb (IsOlder newest event) | [] => false end) then act_ret false
  else replace_write event current.

(** ** Deletion requests *)

Definition add_target (targets : list Event) (target : Event) : list Event :=
  if existsb (λ t, String.eqb (ev_ID t) (ev_ID target)) targets then targets else targets ++ [target].

(** The events an [e] tag names that the requester may delete. *)
Definition tag_targets (db : EventDB) (request : Event) (tag : list string) : list Event :=
  match tag with
  | name :: value :: _ =>
      if negb (String.eqb name "e") then []
      else match id_from_hex value with
      | Some id => filter (λ target, String.eqb (ev_ID target) id && String.eqb (ev_PubKey target) (ev_PubKey request)
                             && negb (ev_Kind target =? KindDeletion)) (queryByIds db [id])
      | None => []
      end
  | _ => []
  end.

(** The loop over the tags; [ctx n] is whether the context is cancelled at its
    [n]-th look. *)
Fixpoint e_targets (ctx : nat → bool) (look : nat) (db : EventDB) (request : Event) (tags : list (list string)) (targets : list Event) :
    result StoreFault (nat * list Event) :=
  match tags with
  | [] => Ok (look, targets)
  | tag :: tags' =>
      if ctx look then Err (FaultCoord CoordCancelled)
      else e_targets ctx (S look) db request tags' (foldl add_target targets (tag_targets db request tag))
  end.

(** The loop over the coordinates. *)
Fixpoint a_targets (ctx : nat → bool) (look : nat) (read : Scan QueryError) (request : Event) (cs : list Coordinate) (targets : list Event) :
    result StoreFault (list Event) :=
  match cs with
  | [] => Ok targets
  | c :: cs' =>
      if ctx look then Err (FaultCoord CoordCancelled)
      else
        let! versions := lift_query (Versions read c (ev_CreatedAt request) unbounded) in
        a_targets ctx (S look) read request cs' (foldl add_target targets versions)
  end.

Definition deletion_targets (ctx : nat → bool) (request : Event) (f : StoreFile) : result StoreFault (list Event) :=
  let! ' (look, targets) := e_targets ctx 0 (sf_db f) request (ev_Tags request) [] in
  a_targets ctx look (scan f) request (DeletedCoordinates request) targets.

Definition ApplyDeletion (ctx : nat → bool) (request : Event) : act StoreFile StoreFault nat :=
  do! targets := act_read (deletion_targets ctx request) in
  do! _ := act_each Store_Delete targets in
  act_ret (length targets).

(** ** Repair *)

(** Only the id and the time, for [IsOlder]. *)
Definition version_of_event (event : Event) : Event := mkEvent (ev_ID event) "" (ev_CreatedAt event) 0 [] "" "".

Fixpoint lookup_latest (c : Coordinate) (latest : list (Coordinate * Event)) : option Event :=
  match latest with
  | [] => None
  | (c', version) :: latest' => if decide (c' = c) then Some version else lookup_latest c latest'
  end.

(** The loop that finds the superseded versions. *)
Fixpoint collapse_loop (ctx : nat → bool) (look : nat) (events : list Event) (latest : list (Coordinate * Event)) :
    result StoreFault (list string) :=
  match events with
  | [] => Ok []
  | event :: events' =>
      if ctx look then Err (FaultCoord CoordCancelled)
      else
        let c := CoordinateOf event in
        if negb (IsAddressable (ev_Kind event)) || dIndexed c then collapse_loop ctx (S look) events' latest
        else
          let version := version_of_event event in
          match lookup_latest c latest with
          | None => collapse_loop ctx (S look) events' ((c, version) :: latest)
          | Some current =>
              if IsOlder current version then
                let! superseded := collapse_loop ctx (S look) events' ((c, version) :: latest) in
                Ok (ev_ID current :: superseded)
              else
                let! superseded := collapse_loop ctx (S look) events' latest in
                Ok (ev_ID version :: superseded)
          end
  end.

Definition any_filter : Filter := mkFilter None None None ∅ 0 0 0 "" false.
Definition kind_filter (kinds : list Z) : Filter := mkFilter None (Some kinds) None ∅ 0 0 0 "" false.

Definition collapseVersions (ctx : nat → bool) : act StoreFile StoreFault unit :=
  do! superseded := act_read (λ f, let! events := lift_query (scan f any_filter unbounded) in collapse_loop ctx 0 events []) in
  act_each deleteID superseded.

Definition set_store_marker (m : Marker) (f : StoreFile) : StoreFile := mkStoreFile (sf_db f) (sf_tags f) (Marker_Set m (sf_settings f)).

(** [each] runs a body for every event a scan yields, which reads on after the
    body has written.  The context is looked at while the request [r] is
    applied ([ctx r]), in the collapse, and at the end. *)
Definition Store_Repair (each : Filter → Z → (Event → act StoreFile StoreFault unit) → act StoreFile StoreFault unit)
    (ctx : Event → nat → bool) (collapse_ctx : nat → bool) (cancelled : bool) (marker : Marker) : act StoreFile StoreFault unit :=
  do! done := act_read (λ f, Ok (Marker_Done marker (sf_settings f))) in
  if (done : bool) then act_ret tt
  else
    do! _ := each (kind_filter [KindDeletion]) unbounded (λ request, do! _ := ApplyDeletion (ctx request) request in act_ret tt) in
    do! _ := collapseVersions collapse_ctx in
    if cancelled then act_fail (FaultCoord CoordCancelled) else act_write (set_store_marker marker).

(** Tag keys are written in batches; the marker goes with the last. *)
Definition put_tag (key : string) (f : StoreFile) : StoreFile := set_tags ({[ key ]} ∪ sf_tags f) f.

Definition BuildTagIndex (ctx : nat → bool) (marker : Marker) (batch : Z) : act StoreFile StoreFault unit := λ f,
  if Marker_Done marker (sf_settings f) then (Ok tt, f)
  else match scan f any_filter unbounded with
  | Err e => (Err (FaultQuery e), f)
  | Ok events =>
      match putBatched put_tag (Some (λ f, Ok (set_store_marker marker f))) ctx (events ≫= tagKeys) batch f with
      | (None, f') => (Ok tt, f')
      | (Some e, f') => (Err (FaultCoord e), f')
      end
  end.

(** ** Filters on long values *)

Definition unindexedFilterTag (filter : Filter) : option string :=
  let names := fst <$> base.filter (λ kv : string * list string,
    Nat.eqb (String.length (fst kv)) 1 && existsb (λ value, negb (tagIndexable value)) (snd kv)) (map_to_list (fi_Tags filter)) in
  head (merge_sort bytes_le names).

Definition NeedsTagIndex (filter : Filter) : bool := bool_decide (is_Some (unindexedFilterTag filter)).

Definition newer (a b : Event) : bool :=
  if negb (ev_CreatedAt a =? ev_CreatedAt b) then ev_CreatedAt b <? ev_CreatedAt a else bytes_ltb (ev_ID a) (ev_ID b).

(** The loop over the heads: the first of the newest, with its position. *)
Fixpoint best_head (i : nat) (best : option (nat * Event)) (heads : list (list Event)) : option (nat * Event) :=
  match heads with
  | [] => best
  | [] :: heads' => best_head (S i) best heads'
  | (event :: _) :: heads' =>
      best_head (S i) (match best with
                       | None => Some (i, event)
                       | Some (_, b) => if newer event b then Some (i, event) else best
                       end) heads'
  end.

(** The merge, with at most [n] events left. *)
Fixpoint merge_heads (n : nat) (heads : list (list Event)) : list Event :=
  match n, best_head 0 None heads with
  | S n', Some (i, event) => event :: merge_heads n' (alter tail i heads)
  | _, _ => []
  end.

Definition mergeNewestFirst (sources : list (list Event)) : list Event :=
  match sources with
  | [source] => source
  | _ => merge_heads (sum_list_with length sources) sources
  end.

(** The consumer's loop of [Query]. *)
Fixpoint query_emit (filter : Filter) (limit emitted : Z) (seen : gset string) (events : list Event) : list Event :=
  match events with
  | [] => []
  | event :: events' =>
      if bool_decide (ev_ID event ∈ seen) then query_emit filter limit emitted seen events'
      else
        let seen := {[ ev_ID event ]} ∪ seen in
        if negb (Matches filter event) then query_emit filter limit emitted seen events'
        else event :: (if limit <=? emitted + 1 then [] else query_emit filter limit (emitted + 1) seen events')
  end.

Definition Store_Query (indexed : Scan QueryError) (filter : Filter) (limit : Z) (f : StoreFile) : result QueryError (list Event) :=
  let limit := if limit <=? 0 then unbounded else limit in
  match unindexedFilterTag filter with
  | None => indexed filter limit
  | Some name =>
      if fi_LimitZero filter || negb (String.eqb (fi_Search filter) "") then Ok []
      else
        let values := default [] (fi_Tags filter !! name) in
        let short := base.filter (λ value, tagIndexable value) values in
        let long := base.filter (λ value, negb (tagIndexable value)) values in
        let! sources := foldr (λ value sources,
          let! source := tagIndex_events (sf_db f) (sf_tags f) name value (fi_Since filter) (fi_Until filter) in
          let! sources := sources in Ok (source :: sources))
          (match short with
           | [] => Ok []
           | _ :: _ =>
               let! source := indexed (mkFilter None (fi_Kinds filter) (fi_Authors filter) {[ name := short ]} (fi_Since filter) (fi_Until filter) 0 "" false) unbounded in
               Ok [source]
           end) long in
        Ok (query_emit filter limit 0 ∅ (mergeNewestFirst sources))
  end.

End store.
