(* ===== verification/LocalStore.v ===== *)
(** * The local event store

    [src/internal/adapters/nostr/localstore/store.go] and [undelivered.go]:
    paged reads, [SaveEvent] with latest-wins and deletion requests,
    [DeleteEvent], retention, the upgrade of an older file, accepted
    checkpoints and the markers of undelivered events.  [SaveEvent] and the
    calls that delete hold one mutex, so a call is one step. *)

From Stdlib Require Import ZArith Lia Bool Ascii.
From stdpp Require Import base tactics decidable option list numbers strings gmap sorting.
From S2P Require Import Prelude Bytes Nostr EventID Bolt BoltCoord BetterBinary Md5 EventStore EventQuery Inbound TagIndex Action CoordStore.

(** ** Kinds *)

Definition IsRegular (kind : Z) : bool := (kind <? 10000) && negb (kind =? 0) && negb (kind =? 3).
Definition IsEphemeral (kind : Z) : bool := (20000 <=? kind) && (kind <? 30000).

(** The kind of audit events, a constant of the Cascadia library. *)
Class LocalPrims := {
  CAS_AUDIT : Z;
}.

(** ** Paged reads *)

Definition queryPageSize : Z := 1000.

Definition with_until (until : Z) (f : Filter) : Filter :=
  mkFilter (fi_IDs f) (fi_Kinds f) (fi_Authors f) (fi_Tags f) (fi_Since f) until (fi_Limit f) (fi_Search f) (fi_LimitZero f).
Definition with_limit (limit : Z) (f : Filter) : Filter :=
  mkFilter (fi_IDs f) (fi_Kinds f) (fi_Authors f) (fi_Tags f) (fi_Since f) (fi_Until f) limit (fi_Search f) (fi_LimitZero f).

Section paged.
Context `{StorePrims} `{QueryEnv} {S : Type}.
(** The store behind the state of the consumer, and what it does with an event:
    [false] ends the sequence. *)
Context (db_of : S → EventDB) (yield : Event → S → bool * S).

Record Paged := mkPaged {
  pg_seen : gset string;
  pg_remaining : Z;
  pg_fresh : nat;
  pg_state : S;
}.

(** The loop over the events of a page; [false] when the sequence has ended. *)
Fixpoint yield_page (events : list Event) (p : Paged) : bool * Paged :=
  match events with
  | [] => (true, p)
  | ev :: events' =>
      if bool_decide (ev_ID ev ∈ pg_seen p) then yield_page events' p
      else
        let '(more, s) := yield ev (pg_state p) in
        let p := mkPaged ({[ ev_ID ev ]} ∪ pg_seen p) (pg_remaining p - 1) (Datatypes.S (pg_fresh p)) s in
        if negb more || (pg_remaining p =? 0) then (false, p) else yield_page events' p
  end.

(** The pages, with [n] left. *)
Fixpoint paged_loop (n : nat) (page : Filter) (pageSize : Z) (p : Paged) : result QueryError S :=
  match n with
  | O => Err QueryOutOfFuel
  | Datatypes.S n' =>
      let! events := QueryEvents (db_of (pg_state p)) page pageSize in
      let '(more, p) := yield_page events (mkPaged (pg_seen p) (pg_remaining p) 0 (pg_state p)) in
      if negb more || (Z.of_nat (length events) <? pageSize) then Ok (pg_state p)
      else if Nat.eqb (pg_fresh p) 0 then paged_loop n' page (pageSize * 2) p
      else paged_loop n' (with_until (default 0 (ev_CreatedAt <$> last events)) page) pageSize p
  end.

(** More pages than a read can take: one for each stored event, and one for
    each doubling of the page. *)
Definition paged_fuel (db : EventDB) (filter : Filter) : nat :=
  let n := size (rawEventStore db) in
  (3 + n + length (pq_queries (prepareQueries filter)) * n)%nat.

Definition paged (filter : Filter) (limit : Z) (s : S) : result QueryError S :=
  let remaining := if 0 <? limit then limit else max_i64 in
  paged_loop (paged_fuel (db_of s) filter) (with_limit 0 filter) queryPageSize (mkPaged ∅ remaining 0 s).

End paged.
Arguments mkPaged {S} _ _ _ _.
Arguments pg_seen {S} _.
Arguments pg_remaining {S} _.
Arguments pg_fresh {S} _.
Arguments pg_state {S} _.

Section reads.
Context `{NostrPrims} `{StorePrims} `{QueryEnv}.

(** [pagedQuery] as a consumer that takes everything sees it. *)
Definition pagedQuery (db : EventDB) (filter : Filter) (limit : Z) : result QueryError (list Event) :=
  paged (λ _, db) (λ ev l, (true, l ++ [ev])) filter limit [].

(** [for ev := range s.pagedQuery(filter, limit)] with a body that writes and
    may return an error. *)
Definition paged_each (filter : Filter) (limit : Z) (body : Event → act StoreFile StoreFault unit) : act StoreFile StoreFault unit := λ f,
  match paged (λ s : option StoreFault * StoreFile, sf_db (snd s))
          (λ ev s, match body ev (snd s) with (Ok _, f) => (true, (None, f)) | (Err e, f) => (false, (Some e, f)) end) filter limit (None, f) with
  | Ok (None, f) => (Ok tt, f)
  | Ok (Some e, f) => (Err e, f)
  | Err e => (Err (FaultQuery e), f)
  end.

Definition Store_QueryEvents (f : StoreFile) (filter : Filter) : result QueryError (list Event) :=
  match fi_IDs filter with
  | Some ((_ :: _) as ids) => QueryEvents (sf_db f) filter (Z.of_nat (length ids))
  | _ =>
      if fi_LimitZero filter then Ok []
      else if NeedsTagIndex filter then Store_Query (pagedQuery (sf_db f)) filter (fi_Limit filter) f
      else pagedQuery (sf_db f) filter (fi_Limit filter)
  end.

Definition scan (f : StoreFile) : Scan QueryError := λ filter limit, Store_QueryEvents f (with_limit limit filter).

End reads.

(** ** The file *)

Record Undelivered := mkUndelivered {
  ud_Coordinate : string;
  ud_EventID : string;
  ud_Kind : Z;
  ud_CreatedAt : Z;
  ud_FailedAt : Z;
  ud_Detail : string;
}.

Record LocalFile := mkLocalFile {
  (** The event store with [bahiaLocalTags] and [bahiaLocalMeta]. *)
  lf_store : StoreFile;
  lf_deletions : gset string;
  lf_undelivered : gmap string (row Undelivered);
  lf_accepted : gset string;
}.

Definition set_store (s : StoreFile) (f : LocalFile) : LocalFile := mkLocalFile s (lf_deletions f) (lf_undelivered f) (lf_accepted f).
Definition set_deletions (ix : gset string) (f : LocalFile) : LocalFile := mkLocalFile (lf_store f) ix (lf_undelivered f) (lf_accepted f).
Definition set_undelivered (b : gmap string (row Undelivered)) (f : LocalFile) : LocalFile := mkLocalFile (lf_store f) (lf_deletions f) b (lf_accepted f).
Definition set_accepted (b : gset string) (f : LocalFile) : LocalFile := mkLocalFile (lf_store f) (lf_deletions f) (lf_undelivered f) b.

Definition empty_file : LocalFile := mkLocalFile (mkStoreFile empty_db ∅ ∅) ∅ ∅ ∅.

Inductive LocalError :=
| LocalRefused
| LocalFault (e : StoreFault)
| LocalNotRetained
| LocalAccepted
| LocalDecode.

(** A call of the store underneath. *)
Definition on_store {A} (c : act StoreFile StoreFault A) : act LocalFile LocalError A := λ f,
  match c (lf_store f) with
  | (Ok a, s) => (Ok a, set_store s f)
  | (Err e, s) => (Err (LocalFault e), set_store s f)
  end.

(** ** Undelivered markers *)

Definition undeliveredKey (ev : Event) : string :=
  if IsReplaceable (ev_Kind ev) || IsAddressable (ev_Kind ev) then Coordinate_String (CoordinateOf ev) else hex (ev_ID ev).

Definition newerThan (a b : Event) : bool :=
  if negb (ev_CreatedAt a =? ev_CreatedAt b) then ev_CreatedAt b <? ev_CreatedAt a
  else negb (String.eqb (ev_ID a) (ev_ID b)) && bytes_ltb (ev_ID a) (ev_ID b).

Definition olderThan (marker : Undelivered) (ev : Event) : bool :=
  if negb (ud_CreatedAt marker =? ev_CreatedAt ev) then ud_CreatedAt marker <? ev_CreatedAt ev
  else bytes_ltb (ev_ID ev) (ud_EventID marker).

(** Whether a marker was removed, and the file. *)
Definition clearUndeliveredUnless (ev : Event) (keep : Undelivered → bool) (f : LocalFile) : bool * LocalFile :=
  let key := undeliveredKey ev in
  match lf_undelivered f !! key with
  | None => (false, f)
  | Some raw =>
      if (match unmarshal raw with Some existing => keep existing | None => false end) then (false, f)
      else (true, set_undelivered (delete key (lf_undelivered f)) f)
  end.

Definition ClearUndelivered (ev : Event) (f : LocalFile) : bool * LocalFile :=
  clearUndeliveredUnless ev (λ existing, negb (String.eqb (ud_EventID existing) (ev_ID ev)) && negb (olderThan existing ev)) f.

Definition clearSupersededUndelivered (ev : Event) (f : LocalFile) : bool * LocalFile :=
  clearUndeliveredUnless ev (λ existing, negb (olderThan existing ev)) f.

Definition Undelivered_of (ev : Event) (f : LocalFile) : result LocalError (option Undelivered) :=
  match lf_undelivered f !! undeliveredKey ev with
  | None => Ok None
  | Some raw => match unmarshal raw with Some marker => Ok (Some marker) | None => Err LocalDecode end
  end.

(** The markers in the order of their keys. *)
Definition ListUndelivered (f : LocalFile) : result LocalError (list Undelivered) :=
  foldr (λ key rest, match lf_undelivered f !! key with
    | Some raw => match unmarshal raw with Some marker => let! l := rest in Ok (marker :: l) | None => Err LocalDecode end
    | None => rest
    end) (Ok []) (bucket_keys (lf_undelivered f)).

Definition UndeliveredEventIDs (f : LocalFile) : result LocalError (gset string) :=
  let! markers := ListUndelivered f in
  Ok (foldl (λ ids marker, {[ ud_EventID marker ]} ∪ ids) ∅ markers).

Section store.
Context `{NostrPrims} `{StorePrims} `{QueryEnv} `{LocalPrims}.

Definition MarkUndelivered (ev : Event) (detail : string) (at_ : Z) : act LocalFile LocalError bool :=
  do! superseded := act_read (λ f,
    if IsReplaceable (ev_Kind ev) || IsAddressable (ev_Kind ev) then
      match LatestVersion (scan (lf_store f)) (CoordinateOf ev) with
      | Ok (Some latest) => Ok (newerThan latest ev)
      | Ok None => Ok false
      | Err e => Err (LocalFault (FaultQuery e))
      end
    else Ok false) in
  if (superseded : bool) then act_ret false
  else λ f,
    let key := undeliveredKey ev in
    let marker := mkUndelivered key (ev_ID ev) (ev_Kind ev) (ev_CreatedAt ev) at_ detail in
    let kept := match lf_undelivered f !! key with
                | Some raw => match unmarshal raw with
                              | Some existing => negb (String.eqb (ud_EventID existing) (ev_ID ev)) && negb (olderThan existing ev)
                              | None => false
                              end
                | None => false
                end in
    if kept then (Ok false, f) else (Ok true, set_undelivered (<[key := Row marker]> (lf_undelivered f)) f).

(** ** Saving *)

Definition hasLocked (id : string) (f : LocalFile) : bool :=
  match queryByIds (sf_db (lf_store f)) [id] with _ :: _ => true | [] => false end.

Definition byID (ev : Event) : Filter :=
  mkFilter None (Some [KindDeletion]) (Some [ev_PubKey ev]) {[ "e" := [hex (ev_ID ev)] ]} 0 0 1 "" false.

Definition deletedLocked (ev : Event) (f : LocalFile) : result LocalError bool :=
  if ev_Kind ev =? KindDeletion then Ok false
  else match Store_QueryEvents (lf_store f) (byID ev) with
  | Err e => Err (LocalFault (FaultQuery e))
  | Ok (_ :: _) => Ok true
  | Ok [] =>
      if negb (IsReplaceable (ev_Kind ev)) && negb (IsAddressable (ev_Kind ev)) then Ok false
      else Ok (DeletionIndex_Deleted (CoordinateOf ev) (ev_CreatedAt ev) (lf_deletions f))
  end.

Definition index_deletions (request : Event) (f : LocalFile) : LocalFile := set_deletions (DeletionIndex_Index request (lf_deletions f)) f.
Definition unindex_deletions (request : Event) (f : LocalFile) : LocalFile := set_deletions (DeletionIndex_Unindex request (lf_deletions f)) f.

(** A context that is never cancelled. *)
Definition background (_ : nat) : bool := false.

Definition saveDeletionLocked (request : Event) : act LocalFile LocalError unit := λ f,
  let f := index_deletions request f in
  match on_store (do! _ := ApplyDeletion scan background request in Store_Save request) f with
  | (Ok _, f) => (Ok tt, f)
  | (Err e, f) => (Err e, unindex_deletions request f)
  end.

(** [judge] is the admission hook of the handle. *)
Definition Store_SaveEvent (judge : option (Event → bool)) (ev : Event) : act LocalFile LocalError bool :=
  if (match judge with Some admits => negb (admits ev) | None => false end) then act_fail LocalRefused
  else if IsEphemeral (ev_Kind ev) then act_ret true
  else λ f,
    if hasLocked (ev_ID ev) f then (Ok false, f)
    else (do! deleted := act_read (deletedLocked ev) in
      if (deleted : bool) then act_ret false
      else if ev_Kind ev =? KindDeletion then do! _ := saveDeletionLocked ev in act_ret true
      else if IsReplaceable (ev_Kind ev) || IsAddressable (ev_Kind ev) then
        do! stored := on_store (Store_Replace scan ev) in
        if (stored : bool) then λ f, (Ok true, snd (clearSupersededUndelivered ev f)) else act_ret false
      else λ f,
        match on_store (Store_Save ev) f with
        | (Ok _, f) => (Ok true, f)
        | (Err (LocalFault (FaultStore ErrDupEvent)), f) => (Ok false, f)
        | (Err e, f) => (Err e, f)
        end) f.

(** ** Checkpoints *)

(** The values of three tags, the last of each. *)
Definition checkpoint_tags (tags : list (list string)) : string * string * string :=
  foldl (λ acc tag, let '(domain, type, schema) := acc in
    match tag with
    | name :: value :: _ =>
        if String.eqb name "domain" then (value, type, schema)
        else if String.eqb name "type" then (domain, value, schema)
        else if String.eqb name "schema" then (domain, type, value)
        else acc
    | _ => acc
    end) ("", "", "")%string tags.

Definition assistantCheckpointEvent (ev : Event) : bool :=
  if negb (ev_Kind ev =? CAS_AUDIT) then false
  else
    let '(domain, type, schema) := checkpoint_tags (ev_Tags ev) in
    String.eqb domain "assistant" && String.eqb type "execution-checkpoint" && String.eqb schema "bahia.audit.assistant-execution-checkpoint.v1".

Definition MarkAssistantCheckpointAccepted (id : string) : act LocalFile LocalError unit := λ f,
  match last (queryByIds (sf_db (lf_store f)) [id]) with
  | Some held =>
      if assistantCheckpointEvent held && CheckID held && VerifySignature held
      then (Ok tt, set_accepted ({[ id ]} ∪ lf_accepted f) f) else (Err LocalNotRetained, f)
  | None => (Err LocalNotRetained, f)
  end.

Definition AssistantCheckpointAccepted (id : string) (f : LocalFile) : bool := bool_decide (id ∈ lf_accepted f).

(** ** Deleting and retention *)

Definition Store_DeleteEvent (id : string) : act LocalFile LocalError unit := λ f,
  match queryByIds (sf_db (lf_store f)) [id] with
  | [] => (Ok tt, f)
  | held :: _ =>
      if negb (String.eqb (ev_ID held) id) then (Ok tt, f)
      else if AssistantCheckpointAccepted id f then (Err LocalAccepted, f)
      else
        let f := if ev_Kind held =? KindDeletion then unindex_deletions held f else f in
        on_store (Store_Delete held) f
  end.

(** The deletions of a prune: [hold i] is the evidence hold before the [i]-th;
    the number of events removed. *)
Fixpoint prune_loop (hold : nat → bool) (i : nat) (ids : list string) : act LocalFile LocalError nat :=
  match ids with
  | [] => act_ret i
  | id :: ids' =>
      if hold i then act_ret i
      else do! _ := Store_DeleteEvent id in prune_loop hold (S i) ids'
  end.

(** The events a prune removes. *)
Definition prune (filter : Filter) (expired : Event → bool) (hold : nat → bool) : act LocalFile LocalError nat :=
  do! ids := act_read (λ f, match Store_QueryEvents (lf_store f) filter with
                            | Ok events => Ok (ev_ID <$> base.filter (λ ev, expired ev) events)
                            | Err e => Err (LocalFault (FaultQuery e))
                            end) in
  prune_loop hold 0 ids.

Definition regular_expired (ev : Event) : bool :=
  IsRegular (ev_Kind ev) && negb (ev_Kind ev =? KindDeletion) && negb (assistantCheckpointEvent ev).

Definition PruneRegularEvents (held : bool) (hold : nat → bool) (cutoff : Z) : act LocalFile LocalError nat :=
  let until := unix_sec cutoff in
  if held || (until <=? 0) then act_ret 0%nat
  else prune (with_until (until - 1) any_filter) regular_expired hold.

Fixpoint expirationOf (tags : list (list string)) : option Z :=
  match tags with
  | [] => None
  | (name :: value :: _) :: tags' =>
      if String.eqb name "expiration" then
        match parse_int64 (trim_space value) with Some t => if 0 <? t then Some t else None | None => None end
      else expirationOf tags'
  | _ :: tags' => expirationOf tags'
  end.

Definition past_expiration (deadline : Z) (ev : Event) : bool :=
  match expirationOf (ev_Tags ev) with Some expiresAt => expiresAt <=? deadline | None => false end.

Definition PruneExpiredEvents (held : bool) (hold : nat → bool) (now : Z) : act LocalFile LocalError nat :=
  if held then act_ret 0%nat else prune any_filter (past_expiration (unix_sec now)) hold.

(** ** Opening an older file *)

Definition coordinateRepairMarker : Marker := mkMarker "coordinateRepairVersion" "1".
Definition tagIndexMarker : Marker := mkMarker "tagIndexVersion" "1".

(** The backfill of the deletion index writes no marker. *)
Definition backfill_deletions (requests : list Event) (f : LocalFile) : option CoordError * LocalFile :=
  putBatched (λ key f, set_deletions ({[ key ]} ∪ lf_deletions f) f) None background (requests ≫= deletionKeys) queryPageSize f.

Definition repairCoordinates : act LocalFile LocalError unit := λ f,
  if Marker_Done coordinateRepairMarker (sf_settings (lf_store f)) then (Ok tt, f)
  else match Store_QueryEvents (lf_store f) (kind_filter [KindDeletion]) with
  | Err e => (Err (LocalFault (FaultQuery e)), f)
  | Ok requests =>
      match backfill_deletions requests f with
      | (Some e, f) => (Err (LocalFault (FaultCoord e)), f)
      | (None, f) => on_store (Store_Repair scan paged_each (λ _, background) background false coordinateRepairMarker) f
      end
  end.

(** What [Open] does to the contents of the file. *)
Definition Open : act LocalFile LocalError unit :=
  do! _ := on_store (BuildTagIndex (λ f filter limit, pagedQuery (sf_db f) filter limit) background tagIndexMarker queryPageSize) in
  repairCoordinates.

End store.
