(* ===== verification/PagedFacts.v ===== *)
(** * Paged reads

    A paged read yields every event its filter finds once, newest first, until
    its limit or the consumer ends it, also when the consumer writes to the
    store between two events, as long as its writes keep what the filter
    finds.  The pages of [paged_fuel] are enough. *)

From Stdlib Require Import ZArith Lia Bool Ascii.
From stdpp Require Import base tactics decidable option list numbers strings gmap sorting.
From S2P Require Import Prelude Bytes Nostr EventID Bolt BoltCoord BetterBinary BetterBinaryFacts Md5 EventStore EventStoreFacts QuickSelect EventQuery EventQueryFacts EventIndexFacts EventQueryPlan Inbound TagIndex Action CoordStore LocalStore.

Section found.
Context `{StorePrims} `{!StorePrimsLaws} `{QueryEnv} `{!QueryEnvLaws}.

(** What a filter finds does not depend on the limits, and a later bound on
    the time only selects. *)
Lemma elem_of_found m f e : e ∈ found m f ↔
  ∃ q, q ∈ pq_queries (prepareQueries f) ∧ e ∈ events m ∧ extra_ok (prepareQueries f) e = true ∧ match_query (query_since f) (query_until f) q e.
Proof.
  unfold found. rewrite list_elem_of_bind. setoid_rewrite list_elem_of_filter. setoid_rewrite Is_true_true. naive_solver.
Qed.

Lemma prepare_until u f : prepareQueries (with_until u f) = prepareQueries f.
Proof. done. Qed.

Lemma query_until_small u f : 0 < u < 4294967295 → query_until (with_until u f) = u + 1.
Proof.
  intros Hu. unfold query_until, to_u32, two32. simpl. rewrite Z.mod_small by lia.
  destruct (Z.eqb_spec u 0); [lia|]. simpl. destruct (Z.ltb_spec u 4294967295); lia.
Qed.

Lemma found_until m f u e : 0 < u → u < query_until f → e ∈ found m (with_until u f) ↔ e ∈ found m f ∧ ev_CreatedAt e ≤ u.
Proof.
  intros Hu Hq. assert (Hu' : u < 4294967295).
  { revert Hq. unfold query_until. destruct (negb _); [|lia]. destruct (Z.ltb_spec (to_u32 (fi_Until f)) 4294967295); lia. }
  rewrite !elem_of_found, prepare_until. unfold match_query. rewrite query_until_small by lia.
  change (query_since (with_until u f)) with (query_since f). split.
  - intros (q & ? & ? & ? & ? & ? & ?). split; [|lia]. exists q. split_and!; try done. lia.
  - intros [(q & ? & ? & ? & ? & ? & ?) ?]. exists q. split_and!; try done. lia.
Qed.

(** Each query finds an event at most once. *)
Lemma length_found m f : (length (found m f) ≤ length (pq_queries (prepareQueries f)) * size m)%nat.
Proof.
  unfold found. induction (pq_queries (prepareQueries f)) as [|q qs IH]; [done|].
  rewrite bind_cons, length_app. simpl. apply Nat.add_le_mono; [|done].
  etrans; [apply length_filter|]. unfold events. by rewrite length_fmap, length_map_to_list.
Qed.

Lemma length_filter_imp {A} (R R' : A → Prop) `{∀ x, Decision (R x)} `{∀ x, Decision (R' x)} l :
  (∀ x, R x → R' x) → (length (filter R l) ≤ length (filter R' l))%nat.
Proof.
  intros HR. induction l as [|x l IH]; [done|]. rewrite !filter_cons. repeat case_decide; simpl; try lia. exfalso. auto.
Qed.

Lemma length_found_until m f u : 0 < u → u < query_until f → (length (found m (with_until u f)) ≤ length (found m f))%nat.
Proof.
  intros Hu Hq. assert (Hle : query_until (with_until u f) ≤ query_until f).
  { assert (u < 4294967295); [|rewrite query_until_small; lia]. revert Hq. unfold query_until. destruct (negb _); [|lia].
    destruct (Z.ltb_spec (to_u32 (fi_Until f)) 4294967295); lia. }
  unfold found. rewrite prepare_until. change (query_since (with_until u f)) with (query_since f).
  induction (pq_queries (prepareQueries f)) as [|q qs IH]; [done|]. rewrite !bind_cons, !length_app.
  apply Nat.add_le_mono; [|done]. apply length_filter_imp. unfold match_query. intros e (? & ? & ?). split_and!; try done; lia.
Qed.

(** [QueryEvents] for a filter without ids. *)
Lemma QueryEvents_spec db m f maxLimit : represents db m → wf_filter f → fi_IDs f = None → fi_Search f = EmptyString →
  1 ≤ GetTheoreticalLimit f → 1 ≤ maxLimit →
  ∃ full, QueryEvents db f maxLimit = Ok (take (Z.to_nat (Z.min (GetTheoreticalLimit f) maxLimit)) full) ∧ full ≡ₚ found m f ∧ StronglySorted newest full.
Proof.
  intros Hr Hf Hi Hs Ht Hl. unfold QueryEvents. rewrite Hi, Hs. cbn [negb String.eqb].
  destruct (Z.eqb_spec (GetTheoreticalLimit f) 0); [lia|].
  destruct (query_run_spec db m Hr f (Z.min (GetTheoreticalLimit f) maxLimit) Hf) as (full & E & Hp & Hso); [lia|].
  exists full. split; [|done]. rewrite <- E. f_equal. destruct (Z.ltb_spec (GetTheoreticalLimit f) maxLimit); lia.
Qed.

End found.

(** ** Sorted lists *)

Lemma sorted_snoc (l : list Event) e : StronglySorted newest l → (∀ x, x ∈ l → newest x e) → StronglySorted newest (l ++ [e]).
Proof.
  intros Hl He. apply StronglySorted_app. split_and!; [|done|repeat constructor]. intros x y Hx ->%list_elem_of_singleton. by apply He.
Qed.

Lemma take_elem {A} n (l : list A) x : x ∈ take n l → x ∈ l.
Proof. intros (i & Hi & _)%elem_of_take. by eapply list_elem_of_lookup_2. Qed.

(** What is left out of the first part is no newer than its last. *)
Lemma sorted_rest (l : list Event) k e x : StronglySorted newest l → e ∈ l → e ∉ take k l → x ∈ take k l → newest x e.
Proof.
  intros Hs He Hn Hx. rewrite <- (take_drop k l) in Hs, He. apply StronglySorted_app in Hs as (Hc & _ & _).
  apply elem_of_app in He as [?|He]; [done|]. by apply Hc.
Qed.

(** The events of [F] not in [l]. *)
Definition unseen (F l : list Event) : list Event := filter (λ e, e ∉ l) F.

Lemma unseen_snoc F l e : e ∈ F → e ∉ l → (length (unseen F (l ++ [e])) < length (unseen F l))%nat.
Proof.
  intros HF Hl. unfold unseen. assert (Hle : ∀ G, (length (filter (λ e', e' ∉ l ++ [e]) G) ≤ length (filter (λ e', e' ∉ l) G))%nat).
  { induction G as [|g G IH]; [done|]. rewrite !filter_cons. repeat case_decide; simpl; try lia. exfalso. set_solver. }
  induction F as [|g F IH]; [by apply elem_of_nil in HF|]. rewrite !filter_cons. specialize (Hle F). apply elem_of_cons in HF as [<-|HF].
  - rewrite decide_False by set_solver. rewrite decide_True by done. simpl. lia.
  - specialize (IH HF). repeat case_decide; simpl; try lia. exfalso. set_solver.
Qed.

Lemma unseen_app F l l' : (length (unseen F (l ++ l')) ≤ length (unseen F l))%nat.
Proof.
  unfold unseen. induction F as [|g F IH]; [done|]. rewrite !filter_cons. repeat case_decide; simpl; try lia. exfalso. set_solver.
Qed.

(** ** The loop *)

Section loop.
Context `{StorePrims} `{!StorePrimsLaws} `{QueryEnv} `{!QueryEnvLaws} {S : Type}.
Context (db_of : S → EventDB) (yield : Event → S → bool * S).
(** What the filter finds; what holds after the events [l] were yielded; what
    holds when the consumer has ended the sequence. *)
Context (f : Filter) (F : list Event) (L : nat) (limit : Z) (P : list Event → S → Prop) (Q : S → Prop).

Record paged_hyps : Prop := {
  ph_wf : wf_filter f;
  ph_ids : fi_IDs f = None;
  ph_search : fi_Search f = EmptyString;
  ph_unlimited : GetTheoreticalLimit f = max_i64;
  ph_store l s : P l s → ∃ m, represents (db_of s) m ∧ (∀ e, e ∈ found m f ↔ e ∈ F) ∧ (length (found m f) ≤ L)%nat;
  ph_small : Z.of_nat L ≤ max_i64;
  ph_time e : e ∈ F → 0 < ev_CreatedAt e;
  ph_ids_inj e e' : e ∈ F → e' ∈ F → ev_ID e = ev_ID e' → e = e';
  ph_yield l s e : P l s → e ∈ F → e ∉ l → match yield e s with (true, s') => P (l ++ [e]) s' | (false, s') => Q s' end;
}.
Hypothesis Hyps : paged_hyps.

(** The events yielded so far. *)
Record yielded (l : list Event) (p : Paged) : Prop := {
  yd_P : P l (pg_state p);
  yd_found e : e ∈ l → e ∈ F;
  yd_once : NoDup l;
  yd_sorted : StronglySorted newest l;
  yd_seen id : id ∈ pg_seen p ↔ id ∈ ev_ID <$> l;
  yd_remaining : pg_remaining p = limit - Z.of_nat (length l);
}.

(** What a paged read has yielded when it ends. *)
Record newest_first (l : list Event) : Prop := {
  nf_found e : e ∈ l → e ∈ F;
  nf_once : NoDup l;
  nf_sorted : StronglySorted newest l;
  nf_limit : Z.of_nat (length l) ≤ limit;
  nf_full : Z.of_nat (length l) = limit ∨ ∀ e, e ∈ F → e ∈ l;
  nf_rest e x : e ∈ F → e ∉ l → x ∈ l → newest x e;
}.

Lemma yielded_seen l p e : yielded l p → e ∈ F → ev_ID e ∈ pg_seen p ↔ e ∈ l.
Proof.
  intros Hy He. rewrite (yd_seen _ _ Hy). rewrite list_elem_of_fmap. split; [|eauto].
  intros (x & E & Hx). by rewrite (ph_ids_inj Hyps e x He (yd_found _ _ Hy x Hx) E).
Qed.

Lemma yielded_fresh l p e n s' : yielded l p → e ∈ F → e ∉ l → (∀ x, x ∈ l → newest x e) → P (l ++ [e]) s' →
  yielded (l ++ [e]) (mkPaged ({[ ev_ID e ]} ∪ pg_seen p) (pg_remaining p - 1) n s').
Proof.
  intros [Hp Hf Ho Hs Hse Hr] He Hn Hnew HP. split; simpl.
  - done.
  - intros x [Hx| ->%list_elem_of_singleton]%elem_of_app; auto.
  - apply NoDup_app. split_and!; [done| |apply NoDup_singleton]. by intros x Hx ->%list_elem_of_singleton.
  - by apply sorted_snoc.
  - intros id. rewrite elem_of_union, elem_of_singleton, Hse, fmap_app, elem_of_app. cbn [fmap list_fmap]. rewrite list_elem_of_singleton. tauto.
  - rewrite length_app. simpl. lia.
Qed.

(** One page. *)
Lemma yield_page_spec es : ∀ l p, yielded l p → Z.of_nat (length l) < limit → StronglySorted newest es → (∀ e, e ∈ es → e ∈ F) →
  (∀ e x, e ∈ F → e ∉ l → x ∈ l → newest x e) → (∀ e x, e ∈ F → e ∉ l → e ∉ es → x ∈ es → newest x e) →
  match yield_page yield es p with
  | (true, p') => ∃ l', yielded (l ++ l') p' ∧ Z.of_nat (length (l ++ l')) < limit ∧ (∀ e, e ∈ es → e ∈ l ++ l')
      ∧ (∀ e, e ∈ l' → e ∈ es) ∧ (∀ e x, e ∈ F → e ∉ l ++ l' → x ∈ l ++ l' → newest x e) ∧ pg_fresh p' = (pg_fresh p + length l')%nat
  | (false, p') => Q (pg_state p') ∨ ∃ l', newest_first l' ∧ P l' (pg_state p')
  end.
Proof.
  induction es as [|e es IH]; intros l p Hy Hlt Hs HF Hl Hrest; cbn [yield_page].
  { exists []. rewrite app_nil_r. split_and!; try done; by rewrite ?Nat.add_0_r || by intros e ?%elem_of_nil. }
  apply StronglySorted_inv in Hs as [Hs He]. rewrite Forall_forall in He. assert (Hin : e ∈ F) by (apply HF; left).
  case_bool_decide as Hseen; rewrite (yielded_seen l p e) in Hseen by done.
  - specialize (IH l p Hy Hlt Hs). destruct (yield_page yield es p) as [[] p'].
    + destruct IH as (l' & ? & ? & Hes & Hl' & ? & ?); [by intros; apply HF; right|done| |].
      { intros e' x HF' Hn Hn' Hx. apply (Hrest e' x); [done..|set_solver|by right]. }
      exists l'. split_and!; try done; [|by intros x Hx; right; apply Hl']. intros x [->|Hx]%elem_of_cons; [apply elem_of_app; by left|by apply Hes].
    + apply IH; [by intros; apply HF; right|done|]. intros e' x HF' Hn Hn' Hx. apply (Hrest e' x); [done..|set_solver|by right].
  - pose proof (ph_yield Hyps l (pg_state p) e (yd_P _ _ Hy) Hin Hseen) as HPy. destruct (yield e (pg_state p)) as [[] s']; cbn [negb orb pg_remaining]; [|by left].
    assert (Hnew : ∀ x, x ∈ l → newest x e) by (intros x Hx; by apply Hl).
    pose proof (yielded_fresh l p e (Datatypes.S (pg_fresh p)) s' Hy Hin Hseen Hnew HPy) as Hy'.
    assert (Hl1 : ∀ e' x, e' ∈ F → e' ∉ l ++ [e] → x ∈ l ++ [e] → newest x e').
    { intros e' x HF' Hn [Hx| ->%list_elem_of_singleton]%elem_of_app; [apply Hl; set_solver|].
      destruct (decide (e' ∈ es)) as [Hes|Hes]; [by apply He|]. apply (Hrest e' e); set_solver. }
    destruct (Z.eqb_spec (pg_remaining p - 1) 0) as [Hz|Hz].
    + right. exists (l ++ [e]). destruct Hy' as [HP1 Hf1 Ho1 Hs1 _ Hr1]. simpl in Hr1. split; [|done]. split; try done; [lia|left; lia].
    + specialize (IH (l ++ [e]) _ Hy'). simpl in IH. assert (Hlt' : Z.of_nat (length (l ++ [e])) < limit).
      { pose proof (yd_remaining _ _ Hy') as Hr. simpl in Hr. pose proof (yd_remaining _ _ Hy). rewrite length_app in *. simpl in *. lia. }
      specialize (IH Hlt' Hs). destruct (yield_page yield es _) as [[] p'].
      * destruct IH as (l' & H1' & H2' & H3' & H4' & H5' & H6'); [by intros; apply HF; right|done| |].
        { intros e' x HF' Hn Hn' Hx. apply (Hrest e' x); set_solver. }
        exists (e :: l'). rewrite <- app_assoc in *. cbn [app] in *. split_and!; try done.
        -- intros x [->|Hx]%elem_of_cons; [set_solver|by apply H3'].
        -- intros x [->|Hx]%elem_of_cons; [left|right; by apply H4'].
        -- rewrite H6'. simpl. lia.
      * apply IH; [by intros; apply HF; right|done|]. intros e' x HF' Hn Hn' Hx. apply (Hrest e' x); set_solver.
Qed.

(** The page still reaches every event that was not yielded. *)
Definition page_ok (page : Filter) (l : list Event) : Prop :=
  page = f ∨ ∃ u, page = with_until u f ∧ 0 < u < query_until f ∧ ∀ e, e ∈ F → e ∉ l → ev_CreatedAt e ≤ u.

Lemma page_events_spec page pageSize l s : P l s → page_ok page l → 1 ≤ pageSize →
  ∃ full, QueryEvents (db_of s) page pageSize = Ok (take (Z.to_nat pageSize) full) ∧ StronglySorted newest full ∧ (length full ≤ L)%nat
    ∧ (∀ e, e ∈ full → e ∈ F ∧ ev_CreatedAt e < query_until f) ∧ (∀ e, e ∈ F → e ∉ l → e ∈ full).
Proof.
  intros HP Hpage Hsize. destruct (ph_store Hyps l s HP) as (m & Hr & HF & HL). pose proof (ph_small Hyps) as Hsmall.
  assert (Hfound : (length (found m page) ≤ L)%nat ∧ (∀ e, e ∈ found m page → e ∈ found m f) ∧ ∀ e, e ∈ F → e ∉ l → e ∈ found m page).
  { destruct Hpage as [->|(u & -> & Hu & Hmax)]; [split_and!; [done..|]; intros e He _; by apply HF|]. split_and!.
    - etrans; [apply length_found_until; lia|done].
    - by intros e [? _]%found_until; [|lia..].
    - intros e He Hn. apply found_until; [lia..|]. split; [by apply HF|auto]. }
  destruct Hfound as (HL' & Hsub & Hsup).
  assert (Hsame : wf_filter page ∧ fi_IDs page = None ∧ fi_Search page = EmptyString ∧ GetTheoreticalLimit page = max_i64).
  { destruct Hyps as [[Hwa Hwt] ? ? ? _ _ _ _ _]. destruct Hpage as [->|(u & -> & _)]; by split_and!. }
  destruct Hsame as (Hwf & Hids & Hsearch & Htl).
  destruct (QueryEvents_spec (db_of s) m page pageSize Hr Hwf Hids Hsearch) as (full & E & Hp & Hs); [by rewrite Htl|done|].
  exists full. split_and!; [|done|by rewrite Hp| |].
  - rewrite E, Htl. f_equal. assert (Hlen : (length full ≤ L)%nat) by (by rewrite Hp).
    destruct (Z.le_gt_cases pageSize max_i64); [by rewrite Z.min_r|]. rewrite !take_ge by lia. done.
  - intros e He. rewrite Hp in He. apply Hsub in He. split; [by apply HF|]. apply elem_of_found in He as (q & _ & _ & _ & _ & ?). lia.
  - intros e He Hn. rewrite Hp. by apply Hsup.
Qed.

Lemma paged_loop_spec n : ∀ page pageSize l p, yielded l p → Z.of_nat (length l) < limit → 1 ≤ pageSize → page_ok page l →
  (∀ e x, e ∈ F → e ∉ l → x ∈ l → newest x e) → (length (unseen F l) + (Datatypes.S L - Z.to_nat pageSize) < n)%nat →
  ∃ s', paged_loop db_of yield n page pageSize p = Ok s' ∧ (Q s' ∨ ∃ l', newest_first l' ∧ P l' s').
Proof.
  induction n as [|n IH]; intros page pageSize l p Hy Hlt Hsize Hpage Hl Hn; [lia|]. cbn [paged_loop].
  destruct (page_events_spec page pageSize l (pg_state p) (yd_P _ _ Hy) Hpage Hsize) as (full & -> & Hs & HL & HF & Hsup).
  cbn [result_bind]. set (es := take (Z.to_nat pageSize) full).
  assert (Hes : StronglySorted newest es) by (unfold es; rewrite <- (take_drop (Z.to_nat pageSize) full) in Hs; by apply StronglySorted_app in Hs as (_ & ? & _)).
  assert (HesF : ∀ e, e ∈ es → e ∈ F) by (intros e He; apply HF; by eapply take_elem).
  assert (Hrest : ∀ e x, e ∈ F → e ∉ l → e ∉ es → x ∈ es → newest x e).
  { intros e x He Hnl Hne Hx. apply (sorted_rest full (Z.to_nat pageSize)); auto. }
  pose proof (yield_page_spec es l (mkPaged (pg_seen p) (pg_remaining p) 0 (pg_state p))) as Hpg.
  destruct (yield_page yield es _) as [[] p']; [|exists (pg_state p'); split; [done|]; apply Hpg; try done; by destruct Hy].
  destruct Hpg as (l' & Hy' & Hlt' & Hall & Hsub & Hl' & Hfresh); try done; [by destruct Hy|]. cbn [negb orb pg_fresh] in *.
  destruct (Z.ltb_spec (Z.of_nat (length es)) pageSize) as [Hshort|Hlong].
  { exists (pg_state p'). split; [done|]. right. exists (l ++ l'). split; [|apply Hy']. destruct Hy' as [_ Hf1 Ho1 Hs1 _ _].
    split; try done; [lia|]. right. intros e He. destruct (decide (e ∈ l)) as [?|Hnl]; [apply elem_of_app; by left|]. apply Hall.
    unfold es in *. rewrite length_take in Hshort. rewrite take_ge by lia. auto. }
  assert (Hfull : (Z.to_nat pageSize ≤ L)%nat) by (unfold es in Hlong; rewrite length_take in Hlong; lia).
  destruct (Nat.eqb_spec (pg_fresh p') 0) as [Hz|Hz].
  - assert (l' = []) as -> by (destruct l'; [done|simpl in Hfresh; lia]). rewrite app_nil_r in *.
    apply (IH page (pageSize * 2) l p'); try done; lia.
  - destruct (last es) as [z|] eqn:Hlast; [|apply last_None in Hlast; rewrite Hlast in Hlong; simpl in Hlong; lia]. cbn [fmap option_fmap option_map default].
    assert (Hz' : z ∈ es) by (apply last_Some_elem_of in Hlast; done).
    apply (IH (with_until (ev_CreatedAt z) page) pageSize (l ++ l') p'); try done.
    + right. exists (ev_CreatedAt z). split_and!; [by destruct Hpage as [->|(u & -> & _)]|apply (ph_time Hyps); auto|apply HF; by eapply take_elem|].
      intros e He Hne. apply (Hl' e z); [done..|by apply Hall].
    + destruct l' as [|x l']; [simpl in Hfresh; lia|]. assert (Hx : x ∈ F ∧ x ∉ l).
      { split; [apply HesF, Hsub; left|]. pose proof (yd_once _ _ Hy') as Hnd. apply NoDup_app in Hnd as (_ & Hd & _). intros Hx. apply (Hd x Hx). left. }
      pose proof (unseen_snoc F l x (proj1 Hx) (proj2 Hx)). pose proof (unseen_app F (l ++ [x]) l') as Hap. rewrite <- app_assoc in Hap. simpl in Hap. lia.
Qed.

End loop.

(** ** Reads of a store that stays as it is *)

Section reads.
Context `{StorePrims} `{!StorePrimsLaws} `{QueryEnv} `{!QueryEnvLaws}.

(** The events are few enough for an [int], dated after 1970 and have ids of
    their own. *)
Record readable (m : gmap string Event) (f : Filter) : Prop := {
  rd_wf : wf_filter f;
  rd_ids : fi_IDs f = None;
  rd_search : fi_Search f = EmptyString;
  rd_time e : e ∈ events m → 0 < ev_CreatedAt e;
  rd_small : Z.of_nat (length (pq_queries (prepareQueries f)) * size m) ≤ max_i64;
}.

Definition limit_of (limit : Z) : Z := if 0 <? limit then limit else max_i64.

Lemma found_events m f e : e ∈ found m f → e ∈ events m.
Proof. by intros (q & _ & He & _)%elem_of_found. Qed.

Lemma represents_ids db m e e' : represents db m → e ∈ events m → e' ∈ events m → ev_ID e = ev_ID e' → e = e'.
Proof. intros Hr He He' E. apply (events_ptr_inj db m Hr e e' He He'). by rewrite E. Qed.

Lemma length_unseen_found db m f : represents db m → (length (unseen (remove_dups (found m f)) []) ≤ size m)%nat.
Proof.
  intros Hr. etrans; [apply length_filter|].
  assert (size m = length (events m)) as -> by (unfold events; by rewrite length_fmap, length_map_to_list).
  apply submseteq_length, NoDup_submseteq; [apply NoDup_remove_dups|]. intros e He. rewrite elem_of_remove_dups in He. by eapply found_events.
Qed.

Lemma size_raw db m : represents db m → size (rawEventStore db) = size m.
Proof. intros [-> _ _]. apply map_size_fmap. Qed.

(** A read with no cap of its own returns what the filter finds, each event
    once and newest first, up to the limit. *)
Lemma pagedQuery_spec db m f limit : represents db m → readable m f → GetTheoreticalLimit (with_limit 0 f) = max_i64 →
  ∃ l, pagedQuery db f limit = Ok l ∧ newest_first (remove_dups (found m f)) (limit_of limit) l.
Proof.
  intros Hr [[Hwa Hwt] Hids Hse Ht Hsm] Hgt. set (F := remove_dups (found m f)).
  assert (HF : ∀ e, e ∈ F ↔ e ∈ found m f) by (intros e; apply elem_of_remove_dups).
  assert (Hyps : paged_hyps (λ _ : list Event, db) (λ ev l, (true, l ++ [ev])) (with_limit 0 f) F (length (found m f)) (λ l s, s = l) (λ _, False)).
  { split; try done.
    - intros l s _. exists m. split_and!; [done|intros e; by rewrite HF|done].
    - pose proof (length_found m f). lia.
    - intros e He. apply Ht. by eapply found_events, HF.
    - intros e e' He He' E. eapply represents_ids; [done|by eapply found_events, HF..|done].
    - by intros l s e -> _ _. }
  destruct (paged_loop_spec _ _ _ _ _ (limit_of limit) _ _ Hyps (paged_fuel db f) (with_limit 0 f) queryPageSize [] (mkPaged ∅ (limit_of limit) 0 [])) as (s & E & [[]|(l & Hl & ->)]).
  - split; simpl; [done|by intros e ?%elem_of_nil|constructor|constructor|set_solver|lia].
  - simpl. unfold limit_of, max_i64, two63. destruct (Z.ltb_spec 0 limit); lia.
  - done.
  - by left.
  - by intros e x _ _ ?%elem_of_nil.
  - unfold paged_fuel. rewrite (size_raw db m) by done. pose proof (length_unseen_found db m f Hr). pose proof (length_found m f). unfold F. lia.
  - exists l. split; [exact E|done].
Qed.

(** A read of a coordinate the event store answers with one event at most. *)
Lemma pagedQuery_one db m f limit : represents db m → readable m f → GetTheoreticalLimit (with_limit 0 f) = 1 →
  ∃ full, pagedQuery db f limit = Ok (take 1 full) ∧ full ≡ₚ found m f ∧ StronglySorted newest full.
Proof.
  intros Hr [[Hwa Hwt] Hids Hse Ht Hsm] Hgt.
  destruct (QueryEvents_spec db m (with_limit 0 f) queryPageSize Hr) as (full & E & Hp & Hs); try done; [by rewrite Hgt|].
  exists full. split; [|done]. unfold pagedQuery, paged. assert (∃ n, paged_fuel db f = Datatypes.S n) as [n ->].
  { unfold paged_fuel. simpl. by eexists. }
  cbn [paged_loop pg_state]. rewrite E, Hgt. change (Z.to_nat (Z.min 1 queryPageSize)) with 1%nat. cbn [result_bind].
  destruct full as [|e full]; [done|]. cbn [take yield_page pg_seen]. rewrite bool_decide_eq_false_2 by set_solver.
  cbn [negb orb pg_remaining app]. destruct (_ =? 0); done.
Qed.

End reads.
