(* ===== verification/LocalReads.v ===== *)
(** * What the local store reads

    The reads behind [SaveEvent]: the versions of a coordinate and the
    deletion requests that name an event.  They are exact for a set of events
    whose truncated index prefixes tell them apart ([domain]). *)

From Stdlib Require Import ZArith Lia Bool Ascii.
From stdpp Require Import base tactics decidable option list numbers strings gmap sorting.
From S2P Require Import Prelude Bytes Nostr EventID Bolt BoltCoord BoltCoordFacts BetterBinary BetterBinaryFacts Md5 EventStore EventStoreFacts QuickSelect EventQuery EventQueryFacts EventIndexFacts EventQueryPlan EventStoreProps Inbound TagIndex Action CoordStore LocalStore PagedFacts.

(** Kinds of which the latest version of a coordinate is kept. *)
Definition stateful (e : Event) : bool := IsReplaceable (ev_Kind e) || IsAddressable (ev_Kind e).

(** [r] asks to delete [e]: it names the id, or the coordinate up to its time. *)
Definition names_id (r e : Event) : bool := ContainsAny (ev_Tags r) "e" [hex (ev_ID e)].
Definition deletes `{NostrPrims} (r e : Event) : bool :=
  (ev_Kind r =? KindDeletion) && negb (ev_Kind e =? KindDeletion) && String.eqb (ev_PubKey r) (ev_PubKey e)
  && (names_id r e || stateful e && bool_decide (CoordinateOf e ∈ DeletedCoordinates r) && (ev_CreatedAt e <=? ev_CreatedAt r)).

Section domain.
Context `{NostrPrims} `{StorePrims} `{QueryEnv}.

(** The queries of [f] reach [e], whatever its time. *)
Definition hits (f : Filter) (e : Event) : bool :=
  extra_ok (prepareQueries f) e
  && existsb (λ q, bool_decide ((fst q, key_of_event e (snd q)) ∈ getIndexKeysForEvent e)) (pq_queries (prepareQueries f)).

(** The filter that reads the versions of [c]. *)
Definition version_filter (c : Coordinate) (until : Z) : Filter :=
  versions_filter c (if dIndexed c && IsAddressable (co_Kind c) then {[ "d"%string := [co_D c] ]} else ∅) until.

(** What that filter is meant to find. *)
Definition version_like (c : Coordinate) (e : Event) : Prop :=
  if dIndexed c then CoordinateOf e = c else ev_Kind e = co_Kind c ∧ ev_PubKey e = co_Author c.

(** A coordinate of an event or of a request of [D]. *)
Definition coordinate_of (D : list Event) (c : Coordinate) : Prop :=
  ∃ e, e ∈ D ∧ (stateful e = true ∧ c = CoordinateOf e ∨ ev_Kind e = KindDeletion ∧ c ∈ DeletedCoordinates e).

(** Events that can be told apart by what the event store keeps of them: it
    stores them, their id pointers differ, and no query reaches an event of
    [D] because of a truncated key or a second d tag; references to ids are in
    lower case. *)
Record domain (D : list Event) : Prop := {
  do_storable e : e ∈ D → storable e;
  do_time e : e ∈ D → 0 < ev_CreatedAt e < 4294967295;
  do_few : Z.of_nat (length D) ≤ unbounded;
  do_ptr e e' : e ∈ D → e' ∈ D → idPtr (ev_ID e) = idPtr (ev_ID e') → e = e';
  do_named e r : e ∈ D → r ∈ D → hits (byID e) r = true → ev_Kind r = KindDeletion ∧ ev_PubKey r = ev_PubKey e ∧ names_id r e = true;
  do_lower r value rest id : r ∈ D → "e"%string :: value :: rest ∈ ev_Tags r → id_from_hex value = Some id → value = hex id;
  do_version c e : coordinate_of D c → e ∈ D → hits (version_filter c 0) e = true → version_like c e;
  do_replace e v : e ∈ D → stateful e = true → v ∈ D → hits (replace_filter e) v = true → CoordinateOf v = CoordinateOf e;
}.

End domain.

Section reads.
Context `{NostrPrims} `{StorePrims} `{!StorePrimsLaws} `{QueryEnv} `{!QueryEnvLaws} (D : list Event).
Hypothesis HD : domain D.

Lemma found_hits m f e : e ∈ found m f ↔ e ∈ events m ∧ hits f e = true ∧ query_since f ≤ ev_CreatedAt e < query_until f.
Proof.
  rewrite elem_of_found. unfold hits. rewrite andb_true_iff, existsb_exists. unfold match_query. split.
  - intros (q & Hq & ? & ? & ? & ?). split_and!; try done; try lia. exists q. rewrite <- list_elem_of_In. by rewrite bool_decide_eq_true.
  - intros (? & [? (q & Hq & ?%bool_decide_eq_true)] & ?). exists q. rewrite list_elem_of_In. done.
Qed.

(** ** The single query of a filter *)

Lemma visit_singleton site name (values : list string) : visit site {[ name := values ]} = [(name, values)].
Proof. apply Permutation_singleton_r. by rewrite visit_perm, map_to_list_singleton. Qed.

Lemma prepare_tag f name values g : fi_Tags f = {[ name := values ]} → narrow_step (nonempty (fi_Authors f)) (EmptyString, None, 0) (name, values) = (name, Some values, g) →
  2 ≤ g → pq_queries (prepareQueries f) = tag_query name <$> values.
Proof.
  intros Ht Hn Hg. unfold prepareQueries. rewrite Ht, map_size_singleton. cbn [Nat.ltb Nat.leb]. unfold ChooseNarrowestTag.
  rewrite visit_singleton. cbn [foldl]. rewrite Hn. destruct (Z.ltb_spec g 2); [lia|]. cbn [andb default]. apply tag_plan_queries.
Qed.

Lemma prepare_none f : fi_Tags f = ∅ → prepareQueries f = pubkey_plan f.
Proof. intros Ht. unfold prepareQueries. by rewrite Ht, map_size_empty. Qed.

Lemma byID_query e : length (pq_queries (prepareQueries (byID e))) = 1%nat.
Proof. by rewrite (prepare_tag (byID e) "e" [hex (ev_ID e)] 9). Qed.

Lemma version_query c until : length (pq_queries (prepareQueries (version_filter c until))) = 1%nat.
Proof.
  unfold version_filter. destruct (dIndexed c && IsAddressable (co_Kind c)).
  - by rewrite (prepare_tag _ "d" [co_D c] 7).
  - rewrite prepare_none by done. unfold pubkey_plan. by destruct (ChooseNarrowestTag _ _ _) as [[? ?] ?].
Qed.

Lemma replace_query e : length (pq_queries (prepareQueries (replace_filter e))) = 1%nat.
Proof.
  unfold replace_filter. destruct (IsAddressable (ev_Kind e)).
  - by rewrite (prepare_tag _ "d" [GetD (ev_Tags e)] 7).
  - rewrite prepare_none by done. unfold pubkey_plan. by destruct (ChooseNarrowestTag _ _ _) as [[? ?] ?].
Qed.

Lemma found_single db m f : represents db m → length (pq_queries (prepareQueries f)) = 1%nat → NoDup (found m f).
Proof.
  intros Hr Hq. unfold found. destruct (pq_queries (prepareQueries f)) as [|q [|]]; [done| |done]. rewrite bind_cons. simpl. rewrite app_nil_r.
  apply NoDup_filter. unfold events. apply NoDup_fmap_2_strong; [|apply NoDup_map_to_list].
  intros [p e] [p' e'] Hp%elem_of_map_to_list Hp'%elem_of_map_to_list E. simpl in E. subst e'.
  destruct (rep_event _ _ Hr _ _ Hp) as [_ <-]. destruct (rep_event _ _ Hr _ _ Hp') as [_ <-]. done.
Qed.

(** ** The store and its set of events *)

Lemma size_domain db m : represents db m → (∀ e, e ∈ events m → e ∈ D) → (size m ≤ length D)%nat.
Proof.
  intros Hr Hsub. assert (size m = length (events m)) as -> by (unfold events; by rewrite length_fmap, length_map_to_list).
  apply submseteq_length, NoDup_submseteq; [|done].
  unfold events. apply NoDup_fmap_2_strong; [|apply NoDup_map_to_list].
  intros [p e] [p' e'] Hp%elem_of_map_to_list Hp'%elem_of_map_to_list E. simpl in E. subst e'.
  destruct (rep_event _ _ Hr _ _ Hp) as [_ <-]. destruct (rep_event _ _ Hr _ _ Hp') as [_ <-]. done.
Qed.

Lemma domain_readable db m f : represents db m → (∀ e, e ∈ events m → e ∈ D) → wf_filter f → fi_IDs f = None → fi_Search f = EmptyString →
  length (pq_queries (prepareQueries f)) = 1%nat → readable m f.
Proof.
  intros Hr Hsub Hf Hi Hs Hq. split; try done.
  - intros e He. by apply (do_time D HD), Hsub.
  - rewrite Hq. pose proof (size_domain db m Hr Hsub). pose proof (do_few D HD). unfold unbounded, max_i64, two63 in *. lia.
Qed.

(** A filter without long values is read in pages. *)
Definition plain (f : Filter) : Prop := fi_IDs f = None ∧ fi_LimitZero f = false ∧ unindexedFilterTag f = None.

Lemma scan_plain s f limit : plain f → scan s f limit = pagedQuery (sf_db s) (with_limit limit f) limit.
Proof.
  intros (Hi & Hl & Ht). unfold scan, Store_QueryEvents. cbn [with_limit fi_IDs fi_LimitZero fi_Limit]. rewrite Hi, Hl.
  unfold NeedsTagIndex. change (unindexedFilterTag (with_limit limit f)) with (unindexedFilterTag f). by rewrite Ht.
Qed.

Lemma unindexed_singleton f name value : fi_Tags f = {[ name := [value] ]} → tagIndexable value = true → unindexedFilterTag f = None.
Proof.
  intros Ht Hv. unfold unindexedFilterTag. rewrite Ht, map_to_list_singleton. rewrite filter_cons. simpl. rewrite Hv. simpl.
  by rewrite andb_false_r.
Qed.

Lemma unindexed_empty f : fi_Tags f = ∅ → unindexedFilterTag f = None.
Proof. intros Ht. unfold unindexedFilterTag. by rewrite Ht, map_to_list_empty. Qed.

(** A read without a limit that matters returns all that is found. *)
Lemma pagedQuery_all db m f limit : represents db m → (∀ e, e ∈ events m → e ∈ D) → readable m f →
  GetTheoreticalLimit (with_limit 0 f) = max_i64 → limit = 0 ∨ limit = unbounded →
  ∃ l, pagedQuery db f limit = Ok l ∧ (∀ e, e ∈ l ↔ e ∈ found m f) ∧ NoDup l ∧ StronglySorted newest l ∧ Z.of_nat (length l) ≤ unbounded.
Proof.
  intros Hr Hsub Hread Hgt Hl. destruct (pagedQuery_spec db m f limit Hr Hread Hgt) as (l & -> & [N1 N2 N3 N4 N5 _]).
  assert (HlD : (length l ≤ length D)%nat).
  { apply submseteq_length, NoDup_submseteq; [done|]. intros e He%N1. rewrite elem_of_remove_dups in He. by eapply Hsub, found_events. }
  pose proof (do_few D HD). exists l. split_and!; try done; [|lia]. intros e. split; [intros He%N1; by rewrite elem_of_remove_dups in He|].
  intros He. destruct N5 as [Hfull|Hcomplete]; [|apply Hcomplete; by rewrite elem_of_remove_dups].
  assert (l ≡ₚ remove_dups (found m f)) as ->; [|by rewrite elem_of_remove_dups].
  apply submseteq_length_Permutation; [by apply NoDup_submseteq|]. transitivity (length D).
  - apply submseteq_length, NoDup_submseteq; [apply NoDup_remove_dups|]. intros x Hx. rewrite elem_of_remove_dups in Hx. by eapply Hsub, found_events.
  - destruct Hl as [-> | ->]; unfold limit_of, unbounded, max_i64, two63 in *; simpl in Hfull; lia.
Qed.

(** ** The versions of a coordinate *)

Definition in_time (until : Z) (e : Event) : Prop := until = 0 ∨ ev_CreatedAt e ≤ until.

Lemma coordinate_sized c : coordinate_of D c → String.length (co_Author c) = 32%nat.
Proof.
  intros (e & He & [[_ ->]|[_ (tag & _ & (-> & _)%deleted_coordinate_ok)%elem_of_DeletedCoordinates]]); by apply (do_storable D HD e He).
Qed.

Lemma coordinate_stateful c : coordinate_of D c → IsReplaceable (co_Kind c) || IsAddressable (co_Kind c) = true.
Proof.
  intros (e & _ & [[Hs ->]|[_ (tag & _ & (_ & _ & Hk)%deleted_coordinate_ok)%elem_of_DeletedCoordinates]]); [done|].
  apply orb_true_iff. naive_solver.
Qed.

Lemma version_plain c until : plain (version_filter c until).
Proof.
  split_and!; [done..|]. unfold version_filter. destruct (dIndexed c && IsAddressable (co_Kind c)) eqn:E; [|by apply unindexed_empty].
  apply (unindexed_singleton _ "d" (co_D c)); [done|]. apply andb_true_iff in E as [Hd Ha]. unfold dIndexed in Hd. by rewrite Ha in Hd.
Qed.

Lemma version_filter_wf c until : String.length (co_Author c) = 32%nat → wf_filter (version_filter c until).
Proof.
  intros Ha. split; simpl; [by repeat constructor|]. destruct (_ && _); [by apply map_Forall_singleton|apply map_Forall_empty].
Qed.

Lemma version_indexed c until : String.length (co_Author c) = 32%nat → 0 ≤ until < two32 → indexed_filter (version_filter c until).
Proof.
  intros Ha Hu. split; [by apply version_filter_wf| |done|done]. simpl. destruct (dIndexed c && IsAddressable (co_Kind c)) eqn:E; [|apply map_Forall_empty].
  apply map_Forall_singleton. repeat constructor. apply andb_true_iff in E as [Hd Had]. unfold dIndexed in Hd. rewrite Had in Hd. simpl in Hd.
  unfold tagIndexable, TagIndexMaxValue in Hd. apply andb_true_iff in Hd as [Hd1 Hd2]. unfold indexable_tag. rewrite Hd2. by destruct (co_D c).
Qed.

Lemma version_like_matches c until e : version_like c e → in_time until e → Matches (version_filter c until) e = true.
Proof.
  intros Hv Ht. assert (Hm : MatchesIgnoringTimestampConstraints (version_filter c until) e = true).
  { unfold version_like in Hv. destruct (dIndexed c) eqn:Hd.
    - subst c. pose proof (version_matches e e Hd eq_refl) as Hm. unfold Matches in Hm. apply andb_true_iff in Hm as [[Hm _]%andb_true_iff _].
      rewrite <- Hm. unfold version_filter, replace_filter, MatchesIgnoringTimestampConstraints. rewrite Hd. simpl.
      by destruct (IsAddressable (ev_Kind e)).
    - destruct Hv as [Hk Ha]. unfold version_filter. rewrite Hd. unfold MatchesIgnoringTimestampConstraints. simpl. rewrite Hk, Ha.
      rewrite !bool_decide_eq_true_2 by left. done. }
  unfold Matches. rewrite Hm. simpl. rewrite negb_andb. destruct Ht as [->|Ht]; [done|]. destruct (Z.ltb_spec until (ev_CreatedAt e)); [lia|]. apply orb_true_r.
Qed.

Lemma found_version db m c until e : represents db m → (∀ e, e ∈ events m → e ∈ D) → coordinate_of D c → 0 ≤ until < 4294967295 →
  e ∈ found m (version_filter c until) ↔ e ∈ events m ∧ version_like c e ∧ in_time until e.
Proof.
  intros Hr Hsub Hc Hu. split.
  - intros (He & Hh & Ht)%found_hits. split_and!; [done|by apply (do_version D HD); auto|].
    unfold in_time. destruct (Z.eq_dec until 0) as [->|Hne]; [by left|right].
    change (query_until (version_filter c until)) with (query_until (with_until until (version_filter c 0))) in Ht. rewrite query_until_small in Ht by lia. lia.
  - intros (He & Hv & Ht). apply (found_complete db m Hr); [|done|by apply (do_time D HD), Hsub|by apply version_like_matches].
    apply version_indexed; [by apply coordinate_sized|unfold two32; lia].
Qed.

Lemma versions_loop_spec d limit l : ∀ emitted, emitted < limit →
  versions_loop d limit emitted l = take (Z.to_nat (limit - emitted)) (filter (λ e, GetD (ev_Tags e) = d) l).
Proof.
  induction l as [|e l IH]; intros emitted Hlt; [by rewrite filter_nil, take_nil|]. cbn [versions_loop]. rewrite filter_cons.
  destruct (String.eqb_spec (GetD (ev_Tags e)) d) as [Hd|Hd]; cbn [negb]; [rewrite decide_True by done|rewrite decide_False by done; by apply IH].
  replace (Z.to_nat (limit - emitted)) with (Datatypes.S (Z.to_nat (limit - (emitted + 1)))) by lia. cbn [take]. f_equal.
  destruct (Z.leb_spec limit (emitted + 1)); [|by apply IH]. by replace (Z.to_nat (limit - (emitted + 1))) with 0%nat by lia.
Qed.

(** The event store keeps one version of each coordinate it can look up. *)
Definition one_indexed (m : gmap string Event) : Prop := ∀ e e', e ∈ events m → e' ∈ events m → stateful e = true →
  dIndexed (CoordinateOf e) = true → CoordinateOf e = CoordinateOf e' → e = e'.

(** The stored versions of [c] dated up to [until]. *)
Record versions (m : gmap string Event) (c : Coordinate) (until : Z) (l : list Event) : Prop := {
  vs_elem e : e ∈ l ↔ e ∈ events m ∧ CoordinateOf e = c ∧ in_time until e;
  vs_once : NoDup l;
  vs_sorted : StronglySorted newest l;
}.

Lemma version_limit c until limit : IsReplaceable (co_Kind c) || IsAddressable (co_Kind c) = true →
  GetTheoreticalLimit (with_limit 0 (with_limit limit (version_filter c until))) = if dIndexed c then 1 else max_i64.
Proof.
  intros Hs. unfold GetTheoreticalLimit, version_filter, dIndexed. simpl. destruct (IsReplaceable (co_Kind c)) eqn:Hr; simpl.
  - assert (IsAddressable (co_Kind c) = false) as ->; [|done]. unfold IsReplaceable, IsAddressable in *.
    rewrite !orb_true_iff, !andb_true_iff, !Z.eqb_eq, !Z.leb_le, !Z.ltb_lt in Hr. apply andb_false_iff. rewrite Z.leb_gt. lia.
  - simpl in Hs. rewrite Hs. simpl. destruct (tagIndexable (co_D c)); simpl; [by rewrite lookup_singleton_eq|by rewrite lookup_empty].
Qed.

Lemma version_like_exact c e : IsReplaceable (co_Kind c) || IsAddressable (co_Kind c) = true → c = NewCoordinate (co_Kind c) (co_Author c) (co_D c) →
  version_like c e ∧ (dIndexed c = true ∨ GetD (ev_Tags e) = co_D c) ↔ CoordinateOf e = c.
Proof.
  intros Hs Hn. unfold version_like. destruct (dIndexed c) eqn:Hd; [naive_solver|]. assert (Ha : IsAddressable (co_Kind c) = true).
  { unfold dIndexed in Hd. by destruct (IsAddressable (co_Kind c)). }
  destruct c as [k a d]. simpl in *. unfold CoordinateOf, NewCoordinate. split.
  - intros [[<- <-] [?|<-]]; [done|]. by rewrite Ha.
  - intros [= <- <- Hdd]. rewrite Ha in Hdd. split; [done|by right].
Qed.

Lemma coordinate_new c : coordinate_of D c → c = NewCoordinate (co_Kind c) (co_Author c) (co_D c).
Proof.
  assert (Hn : ∀ k a d, NewCoordinate k a d = NewCoordinate (co_Kind (NewCoordinate k a d)) (co_Author (NewCoordinate k a d)) (co_D (NewCoordinate k a d))).
  { intros k a d. unfold NewCoordinate. simpl. by destruct (IsAddressable k). }
  intros (e & _ & [[_ ->]|[_ (tag & _ & Hc)%elem_of_DeletedCoordinates]]); [apply Hn|].
  unfold deleted_coordinate in Hc. destruct tag as [|name [|value rest]]; [done..|]. destruct (negb _); [done|].
  destruct (ParseAddress value) as [[[k a] d]|]; [|done]. destruct (_ || _); [done|]. injection Hc as <-. apply Hn.
Qed.

Lemma Versions_spec s m c until limit : represents (sf_db s) m → (∀ e, e ∈ events m → e ∈ D) → one_indexed m → coordinate_of D c →
  0 ≤ until < 4294967295 → limit = unbounded ∨ dIndexed c = true ∧ 1 ≤ limit →
  ∃ l, Versions (scan s) c until limit = Ok l ∧ versions m c until l.
Proof.
  intros Hr Hsub Hone Hc Hu Hl. pose proof (coordinate_stateful c Hc) as Hst. pose proof (coordinate_new c Hc) as Hn.
  assert (Hread : ∀ l, readable m (with_limit l (version_filter c until))).
  { intros l. destruct (domain_readable (sf_db s) m (version_filter c until) Hr Hsub) as [[? ?] ? ? ? ?];
      [by apply version_filter_wf, coordinate_sized|done|done|apply version_query|]. by repeat split. }
  assert (Hf : ∀ e, e ∈ found m (version_filter c until) ↔ e ∈ events m ∧ version_like c e ∧ in_time until e) by (intros e; by apply (found_version (sf_db s))).
  unfold Versions. destruct (dIndexed c) eqn:Hd.
  - replace (versions_filter c _ until) with (version_filter c until) by (unfold version_filter; by rewrite Hd).
    rewrite scan_plain by apply version_plain.
    destruct (pagedQuery_one (sf_db s) m (with_limit limit (version_filter c until)) limit Hr (Hread limit)) as (full & -> & Hp & Hs).
    { rewrite version_limit by done. by rewrite Hd. }
    change (found m (with_limit limit (version_filter c until))) with (found m (version_filter c until)) in Hp.
    assert (Hnd : NoDup full) by (rewrite Hp; by apply (found_single (sf_db s)); [|apply version_query]).
    assert (Hel : ∀ e, e ∈ full ↔ e ∈ events m ∧ CoordinateOf e = c ∧ in_time until e).
    { intros e. rewrite Hp, Hf. unfold version_like. by rewrite Hd. }
    assert (take 1 full = full) as ->; [|by exists full].
    destruct full as [|e [|e' full]]; [done..|]. exfalso. apply NoDup_cons in Hnd as [Hnin _].
    destruct (proj1 (Hel e) ltac:(left)) as (He & Ec & _). destruct (proj1 (Hel e') ltac:(right; left)) as (He' & Ec' & _).
    apply Hnin. rewrite (Hone e e'); [left|done|done|by rewrite <- Ec in Hst|by rewrite Ec|congruence].
  - destruct Hl as [->|[? _]]; [|done].
    replace (versions_filter c ∅ until) with (version_filter c until) by (unfold version_filter; by rewrite Hd).
    rewrite scan_plain by apply version_plain.
    destruct (pagedQuery_all (sf_db s) m (with_limit unbounded (version_filter c until)) unbounded Hr Hsub (Hread unbounded)) as (l & -> & Hall & N2 & N3 & N4); [|by right|].
    { rewrite version_limit by done. by rewrite Hd. }
    change (found m (with_limit unbounded (version_filter c until))) with (found m (version_filter c until)) in *. cbn [result_bind].
    exists (versions_loop (co_D c) unbounded 0 l). split; [done|]. rewrite versions_loop_spec by done. rewrite take_ge.
    2: { etrans; [apply length_filter|]. lia. }
    split; [|by apply NoDup_filter|by apply StronglySorted_filter]. intros e. rewrite list_elem_of_filter, Hall, Hf, <- (version_like_exact c e Hst Hn), Hd. naive_solver.
Qed.

(** ** Requests that name an event *)

Lemma byID_plain e : e ∈ D → plain (byID e).
Proof.
  intros He. split_and!; [done..|]. apply (unindexed_singleton _ "e" (hex (ev_ID e))); [done|].
  pose proof (length_hex (ev_ID e)) as Hl. rewrite (sized_id _ (storable_sized _ (do_storable D HD e He))) in Hl.
  unfold tagIndexable. rewrite Hl. by destruct (hex (ev_ID e)).
Qed.

Lemma byID_indexed e : e ∈ D → indexed_filter (byID e).
Proof.
  intros He. pose proof (storable_sized _ (do_storable D HD e He)) as [Hi Hp _]. pose proof (length_hex (ev_ID e)) as Hl. rewrite Hi in Hl.
  split; [split|..]; simpl; [by repeat constructor|by apply map_Forall_singleton| |done..].
  apply map_Forall_singleton. repeat constructor. unfold indexable_tag. rewrite Hl. done.
Qed.

Lemma found_named db m e r : represents db m → (∀ e, e ∈ events m → e ∈ D) → e ∈ D →
  r ∈ found m (byID e) ↔ r ∈ events m ∧ ev_Kind r = KindDeletion ∧ ev_PubKey r = ev_PubKey e ∧ names_id r e = true.
Proof.
  intros Hr Hsub He. split.
  - intros (Hr' & Hh & _)%found_hits. split; [done|]. by apply (do_named D HD); auto.
  - intros (Hr' & Hk & Ha & Hn). apply (found_complete db m Hr); [by apply byID_indexed|done|by apply (do_time D HD), Hsub|].
    unfold Matches, MatchesIgnoringTimestampConstraints. simpl. rewrite Hk, Ha, !bool_decide_eq_true_2 by left.
    rewrite map_to_list_singleton. simpl. unfold names_id in Hn. by rewrite Hn.
Qed.

(** The answer of the read in [deletedLocked]. *)
Lemma named_spec s m e : represents (sf_db s) m → (∀ e, e ∈ events m → e ∈ D) → e ∈ D →
  ∃ l, Store_QueryEvents s (byID e) = Ok l ∧
    (l ≠ [] ↔ ∃ r, r ∈ events m ∧ ev_Kind r = KindDeletion ∧ ev_PubKey r = ev_PubKey e ∧ names_id r e = true).
Proof.
  intros Hr Hsub He. change (Store_QueryEvents s (byID e)) with (scan s (byID e) 1). rewrite scan_plain by by apply byID_plain.
  change (with_limit 1 (byID e)) with (byID e).
  destruct (pagedQuery_spec (sf_db s) m (byID e) 1 Hr) as (l & -> & [N1 N2 N3 N4 N5 _]); [|done|].
  { apply (domain_readable (sf_db s)); try done; [apply byID_indexed, He|apply byID_query]. }
  exists l. split; [done|]. assert (Hf : ∀ r, r ∈ remove_dups (found m (byID e)) ↔ r ∈ events m ∧ ev_Kind r = KindDeletion ∧ ev_PubKey r = ev_PubKey e ∧ names_id r e = true).
  { intros r. rewrite elem_of_remove_dups. by apply (found_named (sf_db s)). }
  split.
  - destruct l as [|r l]; [done|]. intros _. exists r. apply Hf, N1. left.
  - intros (r & Hr'%Hf) ->. destruct N5 as [N5|N5]; [done|]. apply N5 in Hr'. by apply elem_of_nil in Hr'.
Qed.

(** ** All events, and those of a kind *)

Lemma any_found db m until : represents db m → (∀ e, e ∈ events m → e ∈ D) → 0 ≤ until < 4294967295 → ∀ e,
  e ∈ found m (with_until until any_filter) ↔ e ∈ events m ∧ in_time until e.
Proof.
  intros Hr Hsub Hu e. rewrite found_hits. split.
  - intros (He & _ & Ht). split; [done|]. unfold in_time. destruct (Z.eq_dec until 0) as [->|Hne]; [by left|right].
    rewrite query_until_small in Ht by lia. lia.
  - intros [He Ht]. apply found_hits, (found_complete db m Hr); [|done|by apply (do_time D HD), Hsub|].
    + split; [split|..]; simpl; [constructor|apply map_Forall_empty|apply map_Forall_empty|done|unfold two32; lia].
    + unfold Matches, MatchesIgnoringTimestampConstraints. simpl. rewrite map_to_list_empty. simpl. rewrite negb_andb.
      destruct Ht as [->|Ht]; [done|]. destruct (Z.ltb_spec until (ev_CreatedAt e)); [lia|]. apply orb_true_r.
Qed.

Lemma any_spec s m until limit : represents (sf_db s) m → (∀ e, e ∈ events m → e ∈ D) → 0 ≤ until < 4294967295 → limit = 0 ∨ limit = unbounded →
  ∃ l, scan s (with_until until any_filter) limit = Ok l ∧ (∀ e, e ∈ l ↔ e ∈ events m ∧ in_time until e) ∧ NoDup l ∧ StronglySorted newest l.
Proof.
  intros Hr Hsub Hu Hl. rewrite scan_plain by (split_and!; [done..|by apply unindexed_empty]).
  assert (Hread : readable m (with_limit limit (with_until until any_filter))).
  { apply (domain_readable (sf_db s)); [done|done| |done|done|].
    - split; simpl; [constructor|apply map_Forall_empty].
    - rewrite prepare_none by done. unfold pubkey_plan. by destruct (ChooseNarrowestTag _ _ _) as [[? ?] ?]. }
  destruct (pagedQuery_all (sf_db s) m _ limit Hr Hsub Hread) as (l & -> & Hall & Hnd & Hs & _); [done|done|]. exists l. split; [done|]. split; [|done].
  intros e. rewrite Hall. change (found m (with_limit limit (with_until until any_filter))) with (found m (with_until until any_filter)).
  by apply (any_found (sf_db s)).
Qed.

End reads.
