(* ===== verification/LocalFacts.v ===== *)
(** * What the local store writes

    One lemma for each call of [CoordStore], on the set of events the file
    holds: saving, deleting, replacing and applying a deletion request, with
    the tag index kept exact. *)

From Stdlib Require Import ZArith Lia Bool Ascii.
From stdpp Require Import base tactics decidable option list numbers strings gmap sorting.
From S2P Require Import Prelude Bytes Nostr EventID Bolt BoltCoord BoltCoordFacts BetterBinary BetterBinaryFacts Md5 EventStore EventStoreFacts QuickSelect EventQuery EventQueryFacts EventIndexFacts EventQueryPlan EventStoreProps Inbound TagIndex Action CoordStore LocalStore PagedFacts LocalReads.

Section facts.
Context `{NostrPrims} `{StorePrims} `{!StorePrimsLaws} `{QueryEnv} `{!QueryEnvLaws} (D : list Event).
Hypothesis HD : domain D.

(** ** Tag keys *)

Lemma tag_keys_loop_id e k tags : ∀ seen, k ∈ tag_keys_loop e seen tags → ∃ p, k = p +:+ ev_ID e.
Proof.
  induction tags as [|tag tags IH]; intros seen; cbn [tag_keys_loop]; [by intros ?%elem_of_nil|].
  destruct (negb _); [apply IH|]. destruct (existsb _ _); [apply IH|]. destruct tag as [|name [|value rest]]; [apply IH..|].
  intros [->|Hk]%elem_of_cons; [|by eapply IH]. unfold tagKey. eexists. by rewrite app_string_assoc.
Qed.

Lemma tagKeys_same e e' k : e ∈ D → e' ∈ D → k ∈ tagKeys e → k ∈ tagKeys e' → e = e'.
Proof.
  intros He He' (p & ->)%tag_keys_loop_id (p' & E)%tag_keys_loop_id.
  pose proof (sized_id _ (storable_sized _ (do_storable D HD e He))). pose proof (sized_id _ (storable_sized _ (do_storable D HD e' He'))).
  apply app_string_inj_r in E as [_ E]; [|congruence]. apply (do_ptr D HD e e' He He'). by rewrite E.
Qed.

Lemma elem_of_index e ix k : k ∈ tagIndex_index e ix ↔ k ∈ ix ∨ k ∈ tagKeys e.
Proof.
  unfold tagIndex_index, tagIndex_apply. revert ix. induction (tagKeys e) as [|key keys IH]; intros ix; simpl; [set_solver|]. rewrite IH. set_solver.
Qed.

Lemma elem_of_unindex e ix k : k ∈ tagIndex_unindex e ix ↔ k ∈ ix ∧ k ∉ tagKeys e.
Proof.
  unfold tagIndex_unindex, tagIndex_apply. revert ix. induction (tagKeys e) as [|key keys IH]; intros ix; simpl; [set_solver|]. rewrite IH. set_solver.
Qed.

(** ** The file and its set of events *)

Definition tags_exact (ix : gset string) (m : gmap string Event) : Prop := ∀ k, k ∈ ix ↔ ∃ e, e ∈ events m ∧ k ∈ tagKeys e.

Record store_ok (s : StoreFile) (m : gmap string Event) : Prop := {
  so_rep : represents (sf_db s) m;
  so_dom e : e ∈ events m → e ∈ D;
  so_tags : tags_exact (sf_tags s) m;
}.

(** What is stored under its own pointer. *)
Definition keyed (m : gmap string Event) : Prop := ∀ p e, m !! p = Some e → idPtr (ev_ID e) = p.

Lemma keyed_events m e : keyed m → e ∈ events m ↔ m !! idPtr (ev_ID e) = Some e.
Proof.
  intros Hk. unfold events. rewrite list_elem_of_fmap. split.
  - intros ([p e'] & -> & Hp%elem_of_map_to_list). simpl. by rewrite (Hk _ _ Hp).
  - intros He. exists (idPtr (ev_ID e), e). split; [done|]. by apply elem_of_map_to_list.
Qed.

Lemma represents_keyed db m : represents db m → keyed m.
Proof. intros Hr p e Hp. by destruct (rep_event _ _ Hr p e Hp). Qed.

(** A set of events has one map. *)
Lemma events_ext m m' : keyed m → keyed m' → (∀ e, e ∈ events m ↔ e ∈ events m') → m = m'.
Proof.
  intros Hk Hk' He. assert (Hsub : ∀ n n', keyed n → keyed n' → (∀ e, e ∈ events n → e ∈ events n') → ∀ p e, n !! p = Some e → n' !! p = Some e).
  { intros n n' Hn Hn' Hin p e Hp. rewrite <- (Hn p e Hp). apply (keyed_events n' e Hn'), Hin, (keyed_events n e Hn). by rewrite (Hn p e Hp). }
  apply map_eq. intros p. destruct (m !! p) as [e|] eqn:E.
  - symmetry. apply (Hsub m m'); [done..|intros ? ?; by apply He|done].
  - destruct (m' !! p) as [e|] eqn:E'; [|done]. apply (Hsub m' m) in E'; [congruence|done..|intros ? ?; by apply He].
Qed.

Definition put (e : Event) (m : gmap string Event) : gmap string Event := <[idPtr (ev_ID e) := e]> m.

Lemma keyed_put e m : keyed m → keyed (put e m).
Proof. intros Hk p e'. unfold put. intros [[<- <-]|[_ Hp]]%lookup_insert_Some; auto. Qed.

Lemma events_put e m x : keyed m → m !! idPtr (ev_ID e) = None → x ∈ events (put e m) ↔ x = e ∨ x ∈ events m.
Proof.
  intros Hk Hn. rewrite !keyed_events by (done || by apply keyed_put). unfold put. rewrite lookup_insert_Some. split.
  - intros [[_ ->]|[_ ?]]; auto.
  - intros [->|Hx]; [by left|right]. split; [|done]. intros E. rewrite <- E in Hx. congruence.
Qed.

Lemma keyed_remove_all l m : keyed m → keyed (remove_all l m).
Proof. intros Hk p e. rewrite lookup_remove_all. destruct (decide _); [done|apply Hk]. Qed.

(** Events of [D] that share a pointer are one. *)
Lemma events_remove_all l m x : keyed m → (∀ e, e ∈ events m → e ∈ D) → (∀ e, e ∈ l → e ∈ D) →
  x ∈ events (remove_all l m) ↔ x ∈ events m ∧ x ∉ l.
Proof.
  intros Hk Hm Hl. rewrite (keyed_events _ x (keyed_remove_all l m Hk)), (keyed_events m x Hk), lookup_remove_all.
  destruct (decide _) as [Hin|Hin]; split; try done.
  - intros [Hx Hn]. destruct Hn. apply list_elem_of_fmap in Hin as (e & E & He).
    by rewrite (do_ptr D HD x e (Hm x (proj2 (keyed_events m x Hk) Hx)) (Hl e He) E).
  - intros Hx. split; [done|]. intros Hxl. apply Hin. by apply (list_elem_of_fmap_2 (λ e, idPtr (ev_ID e))).
  - by intros [? _].
Qed.

(** ** Saving and deleting *)

Lemma Store_Save_ok s m e : store_ok s m → e ∈ D → m !! idPtr (ev_ID e) = None →
  ∃ s', Store_Save e s = (Ok tt, s') ∧ store_ok s' (put e m) ∧ sf_settings s' = sf_settings s.
Proof.
  intros [Hr Hdom Ht] He Hn. pose proof (do_storable D HD e He) as Hst. unfold Store_Save, SaveEvent. cbn [tags_index set_tags sf_db].
  rewrite (represents_lookup (sf_db s) m) by done. rewrite Hn. cbn [fmap option_fmap option_map].
  rewrite save_fits by apply Hst. rewrite (storable_fits _ Hst). eexists. split; [done|]. split; [|done]. pose proof (represents_keyed _ _ Hr) as Hk. split.
  - by apply represents_save.
  - intros x [->|Hx]%events_put; auto.
  - intros k. cbn [set_db sf_tags tags_index set_tags]. rewrite elem_of_index, (Ht k). setoid_rewrite events_put; [|done..]. naive_solver.
Qed.

Lemma Store_Delete_ok s m e : store_ok s m → e ∈ D →
  ∃ s', Store_Delete e s = (Ok tt, s') ∧ store_ok s' (delete (idPtr (ev_ID e)) m) ∧ sf_settings s' = sf_settings s.
Proof.
  intros [Hr Hdom Ht] He. pose proof (represents_keyed _ _ Hr) as Hk. unfold Store_Delete, act_bind, backend, unit_of.
  destruct (DeleteEvent_represents (sf_db s) m (ev_ID e) Hr) as (db' & -> & Hr'). cbn [result_bind]. eexists. split; [done|]. split; [|done].
  change (delete (idPtr (ev_ID e)) m) with (remove_all [e] m) in *.
  assert (Hel : ∀ x, x ∈ events (remove_all [e] m) ↔ x ∈ events m ∧ x ≠ e).
  { intros x. rewrite (events_remove_all [e] m x Hk Hdom) by (by intros y ->%list_elem_of_singleton). by rewrite list_elem_of_singleton. }
  split; [done|by intros x [? _]%Hel; auto|]. intros k. unfold tags_unindex. cbn [set_tags set_db sf_tags]. rewrite elem_of_unindex, (Ht k). setoid_rewrite Hel. split.
  - intros [(x & Hx & Hkx) Hn]. exists x. split; [split; [done|]|done]. intros ->. done.
  - intros (x & [Hx Hne] & Hkx). split; [eauto|]. intros Hke. apply Hne. by apply (tagKeys_same x e k); auto.
Qed.

Lemma delete_each_ok l : ∀ s m, store_ok s m → (∀ e, e ∈ l → e ∈ D) →
  ∃ s', act_each Store_Delete l s = (Ok tt, s') ∧ store_ok s' (remove_all l m) ∧ sf_settings s' = sf_settings s.
Proof.
  induction l as [|e l IH]; intros s m Hs Hl; [by exists s|]. cbn [act_each]. unfold act_bind.
  destruct (Store_Delete_ok s m e Hs) as (s1 & -> & Hs1 & E1); [apply Hl; left|].
  destruct (IH s1 _ Hs1) as (s2 & -> & Hs2 & E2); [by intros; apply Hl; right|]. exists s2. split_and!; [done|done|congruence].
Qed.

(** ** Deletion requests *)

Section request.
Context (s : StoreFile) (m : gmap string Event) (r : Event).
Hypothesis Hs : store_ok s m.
Hypothesis Hr : r ∈ D.

Lemma add_target_elem targets target e : (∀ x, x ∈ targets → x ∈ events m) → target ∈ events m →
  e ∈ add_target targets target ↔ e ∈ targets ∨ e = target.
Proof.
  intros Ht Hin. unfold add_target. destruct (existsb _ targets) eqn:E; [|set_solver].
  split; [auto|]. intros [?| ->]; [done|]. apply existsb_exists in E as (x & Hx%list_elem_of_In & E%String.eqb_eq).
  by rewrite <- (represents_ids (sf_db s) m x target (so_rep _ _ Hs) (Ht x Hx) Hin E).
Qed.

Lemma add_targets_elem new : ∀ targets e, (∀ x, x ∈ targets → x ∈ events m) → (∀ x, x ∈ new → x ∈ events m) →
  e ∈ foldl add_target targets new ↔ e ∈ targets ∨ e ∈ new.
Proof.
  induction new as [|x new IH]; intros targets e Ht Hn; [set_solver|]. cbn [foldl].
  assert (Hx : x ∈ events m) by (apply Hn; left). assert (Hn' : ∀ y, y ∈ new → y ∈ events m) by (intros; apply Hn; by right).
  rewrite IH; [|by intros y [?| ->]%add_target_elem; auto|done]. rewrite add_target_elem, elem_of_cons by done. tauto.
Qed.

Lemma byid_stored id e : e ∈ queryByIds (sf_db s) [id] ↔ m !! idPtr id = Some e.
Proof.
  rewrite (queryByIds_represents (sf_db s) m) by apply Hs. cbn [omap list_omap]. destruct (m !! idPtr id) as [x|]; [|split; [by intros ?%elem_of_nil|done]].
  rewrite list_elem_of_singleton. naive_solver.
Qed.

Lemma tag_targets_elem tag e : tag ∈ ev_Tags r → e ∈ tag_targets (sf_db s) r tag ↔
  e ∈ events m ∧ ev_PubKey e = ev_PubKey r ∧ ev_Kind e ≠ KindDeletion ∧ ∃ rest, tag = "e"%string :: hex (ev_ID e) :: rest.
Proof.
  intros Hin. unfold tag_targets. destruct tag as [|name [|value rest]]; [split; [by intros ?%elem_of_nil|naive_solver]..|].
  destruct (String.eqb_spec name "e") as [->|Hne]; cbn [negb]; [|split; [by intros ?%elem_of_nil|naive_solver]].
  pose proof (represents_keyed _ _ (so_rep _ _ Hs)) as Hk. destruct (id_from_hex value) as [id|] eqn:Ei.
  - pose proof (do_lower D HD r value rest id Hr Hin Ei) as ->. rewrite list_elem_of_filter, Is_true_true, byid_stored, !andb_true_iff, !String.eqb_eq, negb_true_iff, Z.eqb_neq.
    rewrite (keyed_events m e Hk). split.
    + intros [[[<- Ha] Hkd] He]. split_and!; [done..|by eexists].
    + intros (He & Ha & Hkd & rest' & [= E _]). apply (inj hex) in E as ->. done.
  - split; [by intros ?%elem_of_nil|]. intros (He & _ & _ & rest' & [= -> _]).
    rewrite id_from_hex_hex in Ei; [done|]. apply (do_storable D HD), Hs, He.
Qed.

Lemma e_targets_ok tags : ∀ look targets, (∀ tag, tag ∈ tags → tag ∈ ev_Tags r) → (∀ x, x ∈ targets → x ∈ events m) →
  ∃ look' targets', e_targets background look (sf_db s) r tags targets = Ok (look', targets')
    ∧ ∀ e, e ∈ targets' ↔ e ∈ targets ∨ ∃ tag, tag ∈ tags ∧ e ∈ tag_targets (sf_db s) r tag.
Proof.
  induction tags as [|tag tags IH]; intros look targets Hsub Ht; [exists look, targets; split; [done|]; set_solver|]. cbn [e_targets background].
  assert (Hin : ∀ x, x ∈ tag_targets (sf_db s) r tag → x ∈ events m) by (intros x [? _]%tag_targets_elem; [done|apply Hsub; left]).
  destruct (IH (S look) (foldl add_target targets (tag_targets (sf_db s) r tag))) as (look' & targets' & -> & He).
  { intros; apply Hsub; by right. }
  { intros x [?|?]%add_targets_elem; auto. }
  exists look', targets'. split; [done|]. intros e. rewrite He, add_targets_elem by done. set_solver.
Qed.

Hypothesis Hone : one_indexed m.

Lemma request_coordinate c : ev_Kind r = KindDeletion → c ∈ DeletedCoordinates r → coordinate_of D c.
Proof. intros Hk Hc. exists r. split; [done|by right]. Qed.

Lemma a_targets_ok cs : ∀ look targets, ev_Kind r = KindDeletion → (∀ c, c ∈ cs → c ∈ DeletedCoordinates r) → (∀ x, x ∈ targets → x ∈ events m) →
  ∃ targets', a_targets background look (scan s) r cs targets = Ok targets'
    ∧ ∀ e, e ∈ targets' ↔ e ∈ targets ∨ e ∈ events m ∧ CoordinateOf e ∈ cs ∧ ev_CreatedAt e ≤ ev_CreatedAt r.
Proof.
  induction cs as [|c cs IH]; intros look targets Hk Hsub Ht; [exists targets; split; [done|]; set_solver|]. cbn [a_targets background].
  pose proof (do_time D HD r Hr) as Htime.
  destruct (Versions_spec D HD s m c (ev_CreatedAt r) unbounded) as (l & -> & [Hl _ _]);
    [apply Hs|apply Hs|done|apply request_coordinate; [done|apply Hsub; left]|lia|by left|]. cbn [lift_query result_bind].
  assert (Hin : ∀ x, x ∈ l → x ∈ events m) by (by intros x [? _]%Hl).
  destruct (IH (S look) (foldl add_target targets l) Hk) as (targets' & -> & He).
  { intros; apply Hsub; by right. }
  { intros x [?|?]%add_targets_elem; auto. }
  exists targets'. split; [done|]. intros e. rewrite He, add_targets_elem, Hl, elem_of_cons by done. unfold in_time. split.
  - intros [[?|(? & <- & [?|?])]|(? & ? & ?)]; [by left|lia|right; auto..].
  - intros [?|(? & [<-|?] & ?)]; auto 7.
Qed.

Lemma stateful_not_deletion e : stateful e = true → ev_Kind e ≠ KindDeletion.
Proof. unfold stateful. intros Hst E. rewrite E in Hst. done. Qed.

Lemma deletes_elem e : e ∈ D → ev_Kind r = KindDeletion → deletes r e = true ↔
  (ev_PubKey e = ev_PubKey r ∧ ev_Kind e ≠ KindDeletion ∧ (∃ tag, tag ∈ ev_Tags r ∧ ∃ rest, tag = "e"%string :: hex (ev_ID e) :: rest))
  ∨ CoordinateOf e ∈ DeletedCoordinates r ∧ ev_CreatedAt e ≤ ev_CreatedAt r.
Proof.
  intros He Hk. unfold deletes. rewrite !andb_true_iff, orb_true_iff, !andb_true_iff, bool_decide_eq_true, Z.leb_le, negb_true_iff, Z.eqb_neq, Z.eqb_eq, String.eqb_eq.
  assert (Hnames : names_id r e = true ↔ ∃ tag, tag ∈ ev_Tags r ∧ ∃ rest, tag = "e"%string :: hex (ev_ID e) :: rest).
  { unfold names_id. split.
    - intros (v & rest & Hin & ->%list_elem_of_singleton)%ContainsAny_elem. eauto.
    - intros (tag & Hin & rest & ->). unfold ContainsAny. apply existsb_exists. eexists. split; [by apply list_elem_of_In|]. simpl.
      by apply bool_decide_eq_true, list_elem_of_singleton. }
  assert (Hc : CoordinateOf e ∈ DeletedCoordinates r → ev_PubKey r = ev_PubKey e ∧ stateful e = true).
  { intros (tag & _ & (Ha & _ & Hkind)%deleted_coordinate_ok)%elem_of_DeletedCoordinates. simpl in Ha, Hkind. split; [done|].
    unfold stateful. apply orb_true_iff. naive_solver. }
  rewrite Hnames. split; [naive_solver|]. intros [(? & ? & ?)|(Hd & ?)]; [auto|]. destruct (Hc Hd) as [Ha Hst]. split_and!; auto using stateful_not_deletion.
Qed.

Lemma ApplyDeletion_ok : ev_Kind r = KindDeletion →
  ∃ n s' l, ApplyDeletion scan background r s = (Ok n, s') ∧ store_ok s' (remove_all l m) ∧ sf_settings s' = sf_settings s
    ∧ ∀ e, e ∈ l ↔ e ∈ events m ∧ deletes r e = true.
Proof.
  intros Hk. unfold ApplyDeletion, act_bind, act_read, deletion_targets.
  destruct (e_targets_ok (ev_Tags r) 0 []) as (look & l1 & -> & Ht1); [done|by intros x ?%elem_of_nil|]. cbn [result_bind].
  assert (Hl1 : ∀ e, e ∈ l1 → e ∈ events m).
  { intros e [?%elem_of_nil|(tag & Hin & [? _]%tag_targets_elem)]%Ht1; done. }
  destruct (a_targets_ok (DeletedCoordinates r) look l1 Hk) as (l & -> & Ht2); [done..|].
  assert (Hl : ∀ e, e ∈ l ↔ e ∈ events m ∧ deletes r e = true).
  { intros e. rewrite Ht2. split.
    - intros [Hin|(Hin & Hc)]; [|split; [done|]; apply deletes_elem; [by apply Hs|done|by right]].
      split; [by apply Hl1|]. apply Ht1 in Hin as [?%elem_of_nil|(tag & Hin & (? & ? & ? & ?)%tag_targets_elem)]; [done| |done].
      apply deletes_elem; [by apply Hs|done|]. left. eauto.
    - intros [He Hd]. apply deletes_elem in Hd as [(Ha & Hkd & tag & Hin & Hrest)|Hd]; [left|by right|by apply Hs|done].
      apply Ht1. right. exists tag. split; [done|]. by apply tag_targets_elem. }
  destruct (delete_each_ok l s m Hs) as (s' & -> & Hs' & E); [by intros e [? _]%Hl; apply Hs|]. exists (length l), s', l. done.
Qed.

End request.

(** ** Replacing *)

(** One version of every coordinate. *)
Definition one_version (m : gmap string Event) : Prop := ∀ e e', e ∈ events m → e' ∈ events m → stateful e = true →
  CoordinateOf e = CoordinateOf e' → e = e'.

Lemma one_version_indexed m : one_version m → one_indexed m.
Proof. intros Hone e e' He He' Hst _ Hc. by apply Hone. Qed.

Lemma unindex_each l : ∀ s, sf_db (foldl (λ f older, tags_unindex older f) s l) = sf_db s
  ∧ sf_settings (foldl (λ f older, tags_unindex older f) s l) = sf_settings s
  ∧ ∀ k, k ∈ sf_tags (foldl (λ f older, tags_unindex older f) s l) ↔ k ∈ sf_tags s ∧ ∀ o, o ∈ l → k ∉ tagKeys o.
Proof.
  induction l as [|o l IH]; intros s; [split_and!; [done..|]; set_solver|]. cbn [foldl]. destruct (IH (tags_unindex o s)) as (-> & -> & Hk).
  split_and!; [done..|]. intros k. rewrite Hk. unfold tags_unindex. cbn [set_tags sf_tags]. rewrite elem_of_unindex. setoid_rewrite elem_of_cons. naive_solver.
Qed.

Section replace.
Context (s : StoreFile) (m : gmap string Event) (ev : Event).
Hypothesis Hs : store_ok s m.
Hypothesis Hev : ev ∈ D.
Hypothesis Hst : stateful ev = true.
Hypothesis Hnew : m !! idPtr (ev_ID ev) = None.
Hypothesis Hone : one_version m.

Lemma ev_coordinate : coordinate_of D (CoordinateOf ev).
Proof. exists ev. split; [done|by left]. Qed.

(** The versions there are to replace: none, or one. *)
Lemma version_unique v v' : v ∈ events m → version_of ev v → v' ∈ events m → version_of ev v' → v = v'.
Proof.
  unfold version_of. intros Hv Ec Hv' Ec'. apply Hone; [done|done| |congruence]. injection Ec as Ek _ _. unfold stateful. by rewrite Ek.
Qed.

(** The write when every version is older. *)
Lemma ReplaceEvent_ok : (∀ v, v ∈ events m → version_of ev v → IsOlder v ev = true) →
  ∃ db l, ReplaceEvent (sf_db s) ev = Ok (db, l) ∧ represents db (put ev (remove_all l m))
    ∧ (∀ v, v ∈ l → v ∈ events m ∧ version_of ev v) ∧ (dIndexed (CoordinateOf ev) = true → ∀ v, v ∈ events m → version_of ev v → v ∈ l).
Proof.
  intros Hold. pose proof (so_rep _ _ Hs) as Hr. pose proof (do_storable D HD ev Hev) as Hsto. unfold ReplaceEvent. rewrite (represents_lookup _ m), Hnew by done. cbn [fmap option_fmap option_map].
  assert (Hwf : wf_filter (replace_filter ev)).
  { split; simpl; [repeat constructor; apply Hsto|]. destruct (IsAddressable _); [by apply map_Forall_singleton|apply map_Forall_empty]. }
  destruct (query_run_spec (sf_db s) m Hr (replace_filter ev) 10 Hwf) as (full & -> & Hp & _); [done|]. cbn [result_bind].
  assert (Hfull : ∀ v, v ∈ full → v ∈ events m ∧ version_of ev v).
  { intros v Hv. rewrite Hp in Hv. apply found_hits in Hv as (Hv & Hh & _). split; [done|]. apply (do_replace D HD ev v); try done. by apply Hs. }
  assert (Hnd : NoDup full) by (rewrite Hp; apply (found_single (sf_db s)); [done|apply replace_query]).
  assert (Hlen : (length full ≤ 1)%nat).
  { destruct full as [|v [|v' full]]; simpl; [lia..|]. apply NoDup_cons in Hnd as [Hnin _]. exfalso. apply Hnin.
    destruct (Hfull v ltac:(left)), (Hfull v' ltac:(right; left)). rewrite (version_unique v v') by done. left. }
  rewrite take_ge by (change (Z.to_nat 10) with 10%nat; lia).
  destruct (replace_loop_spec ev full (sf_db s) m Hr) as (db1 & -> & Hr1). cbn [result_bind].
  assert (Hall : Forall (λ v, IsOlder v ev = true) full) by (apply Forall_forall; intros v [Hv Hver]%Hfull; auto).
  assert (forallb (λ p, IsOlder p ev) full = true) as -> by (apply forallb_forall; intros v Hv%list_elem_of_In; rewrite Forall_forall in Hall; auto).
  rewrite filter_all in * by (intros v Hv; rewrite Forall_forall in Hall; by rewrite Hall).
  rewrite save_fits by apply Hsto. rewrite (storable_fits _ Hsto). cbn [result_bind]. eexists _, full. split; [done|]. split_and!; [|done|].
  - apply represents_save; [done|done|]. rewrite lookup_remove_all, Hnew. by destruct (decide _).
  - intros Hd v Hv Hver. rewrite Hp. apply (found_complete (sf_db s) m Hr); [|done|by apply (do_time D HD), Hs|by apply version_matches].
    apply replace_filter_indexed; [apply Hsto|done].
Qed.

Lemma replace_write_ok current : (∀ v, v ∈ current ↔ v ∈ events m ∧ version_of ev v) → (∀ v, v ∈ events m → version_of ev v → IsOlder v ev = true) →
  ∃ s' m', replace_write ev current s = (Ok true, s') ∧ store_ok s' m' ∧ sf_settings s' = sf_settings s
    ∧ ∀ e, e ∈ events m' ↔ e = ev ∨ e ∈ events m ∧ ¬ version_of ev e.
Proof.
  intros Hcur Hold. pose proof (represents_keyed _ _ (so_rep _ _ Hs)) as Hk. unfold replace_write. cbn [tags_index set_tags sf_db].
  destruct ReplaceEvent_ok as (db & l & -> & Hr & Hl & Hall); [done|]. set (s0 := set_db db _).
  destruct (unindex_each l s0) as (E1 & E2 & Htags). set (s1 := foldl _ s0 l) in *.
  assert (HlD : ∀ v, v ∈ l → v ∈ D) by (intros v [Hv _]%Hl; by apply Hs).
  assert (Hev1 : ∀ e, e ∈ events (put ev (remove_all l m)) ↔ e = ev ∨ e ∈ events m ∧ e ∉ l).
  { intros e. rewrite events_put; [|by apply keyed_remove_all|rewrite lookup_remove_all, Hnew; by destruct (decide _)].
    rewrite events_remove_all; [done|done|apply Hs|done]. }
  assert (Hs1 : store_ok s1 (put ev (remove_all l m))).
  { split; [by rewrite E1|intros e [->|[He _]]%Hev1; [done|by apply Hs]|]. intros k. rewrite Htags. unfold s0. cbn [set_db sf_tags tags_index set_tags].
    rewrite elem_of_index, (so_tags _ _ Hs k). setoid_rewrite Hev1. split.
    - intros [[(e & He & Hke)|Hke] Hn]; [exists e|exists ev; auto]. split; [right; split; [done|]|done]. intros Hel. by apply (Hn e).
    - intros (e & [->|[He Hnl]] & Hke); (split; [eauto|]); intros o Ho Hko.
      + assert (ev = o) as <- by (by apply (tagKeys_same ev o k); auto). destruct (Hl ev Ho) as [He%(keyed_events m ev Hk) _]. congruence.
      + apply Hnl. by rewrite (tagKeys_same e o k); auto; apply Hs. }
  unfold act_bind. destruct (delete_each_ok (if dIndexed (CoordinateOf ev) then [] else current) s1 _ Hs1) as (s2 & -> & Hs2 & E3).
  { destruct (dIndexed _); [by intros e ?%elem_of_nil|]. intros e [He _]%Hcur. by apply Hs. }
  exists s2. eexists. split; [done|]. split; [exact Hs2|]. split; [rewrite E3, E2; done|]. intros e.
  rewrite events_remove_all; [|apply (represents_keyed _ _ Hr)|apply Hs1|destruct (dIndexed _); [by intros x ?%elem_of_nil|intros x [He _]%Hcur; by apply Hs]].
  rewrite Hev1. assert (Hnev : ev ∉ events m) by (rewrite (keyed_events m ev Hk); congruence). destruct (dIndexed (CoordinateOf ev)) eqn:Hd.
  - split; [intros [[->|[He Hn]] _]; [by left|right; split; [done|]; intros Hver; by apply Hn, Hall]|].
    intros [->|[He Hver]]; (split; [|by intros ?%elem_of_nil]); [by left|right]. split; [done|]. by intros [_ ?]%Hl.
  - rewrite Hcur. split; [intros [[->|[He Hn]] Hn']; [by left|right; tauto]|]. intros [->|[He Hver]]; (split; [|tauto]); [by left|right].
    split; [done|]. by intros [_ ?]%Hl.
Qed.

(** A version as new as [ev] is held. *)
Definition outdated : bool := existsb (λ v, bool_decide (CoordinateOf v = CoordinateOf ev) && negb (IsOlder v ev)) (events m).

Lemma Store_Replace_ok :
  if outdated then Store_Replace scan ev s = (Ok false, s)
  else ∃ s' m', Store_Replace scan ev s = (Ok true, s') ∧ store_ok s' m' ∧ sf_settings s' = sf_settings s
    ∧ ∀ e, e ∈ events m' ↔ e = ev ∨ e ∈ events m ∧ ¬ version_of ev e.
Proof.
  unfold Store_Replace, act_bind, act_read.
  destruct (Versions_spec D HD s m (CoordinateOf ev) 0 (if dIndexed (CoordinateOf ev) then 1 else unbounded)) as (l & -> & [Hl _ _]);
    [apply Hs|apply Hs|by apply one_version_indexed|apply ev_coordinate|lia|destruct (dIndexed _); auto; right; split; [done|lia]|]. cbn [lift_query].
  assert (Hcur : ∀ v, v ∈ l ↔ v ∈ events m ∧ version_of ev v) by (intros v; rewrite Hl; unfold version_of, in_time; tauto).
  destruct outdated eqn:Eo; unfold outdated in Eo.
  - apply existsb_exists in Eo as (v & Hv%list_elem_of_In & [Ec%bool_decide_eq_true Ho%negb_true_iff]%andb_true_iff).
    destruct l as [|x l]; [pose proof (proj2 (Hcur v) (conj Hv Ec)) as []%elem_of_nil|].
    destruct (proj1 (Hcur x) ltac:(left)) as [Hx Ex]. rewrite (version_unique x v Hx Ex Hv Ec), Ho. done.
  - assert (Hold : ∀ v, v ∈ events m → version_of ev v → IsOlder v ev = true).
    { intros v Hv Ec. destruct (IsOlder v ev) eqn:Ho; [done|]. rewrite <- Eo. apply existsb_exists. exists v.
      split; [by apply list_elem_of_In|]. rewrite Ho. by rewrite bool_decide_eq_true_2. }
    assert (match l with newest :: _ => negb (IsOlder newest ev) | [] => false end = false) as ->.
    { destruct l as [|x l]; [done|]. destruct (proj1 (Hcur x) ltac:(left)) as [Hx Ex]. by rewrite Hold. }
    by apply replace_write_ok.
Qed.

End replace.

End facts.
