(* ===== verification/LocalProps.v ===== *)
(** * What the local store guarantees

    Saving, deleting, accepting checkpoints and pruning refine a set of events
    with latest-wins and deletion requests, for events the event store can
    tell apart. *)

From Stdlib Require Import ZArith Lia Bool Ascii.
From stdpp Require Import base tactics decidable option list numbers strings gmap sorting.
From S2P Require Import Prelude Bytes Nostr EventID Bolt BoltCoord BoltCoordFacts BoltCoordProps BetterBinary BetterBinaryFacts Md5 EventStore EventStoreFacts QuickSelect EventQuery EventQueryFacts EventIndexFacts EventQueryPlan EventStoreProps Inbound TagIndex Action CoordStore LocalStore PagedFacts LocalReads LocalFacts.

(** ** The specification *)

Inductive local_call :=
| LSave (ev : Event)
| LDelete (id : string)
| LAccept (id : string)
| LPruneRegular (cutoff : Z).

Inductive local_answer :=
| ASaved (new : bool)
| ADone
| ARemoved (n : nat)
| AError (e : LocalError).

(** A set of events and the checkpoints accepted. *)
Record Held := mkHeld {
  h_events : gmap string Event;
  h_accepted : gset string;
}.

Definition keep_events (P : Event → bool) (m : gmap string Event) : gmap string Event := filter (λ pe : string * Event, P (snd pe) = true) m.

Section spec.
Context `{NostrPrims} `{LocalPrims} (judge : option (Event → bool)).

Definition refused (ev : Event) : bool := match judge with Some admits => negb (admits ev) | None => false end.

(** A stored request deletes [ev]. *)
Definition deleted_by (m : gmap string Event) (ev : Event) : bool := existsb (λ r, deletes r ev) (events m).

(** The events left when [ev] is stored. *)
Definition makes_room (ev e : Event) : bool :=
  if ev_Kind ev =? KindDeletion then deletes ev e
  else stateful ev && bool_decide (CoordinateOf e = CoordinateOf ev).

Definition spec_save (ev : Event) (h : Held) : local_answer * Held :=
  let m := h_events h in
  if refused ev then (AError LocalRefused, h)
  else if IsEphemeral (ev_Kind ev) then (ASaved true, h)
  else if bool_decide (is_Some (m !! idPtr (ev_ID ev))) || deleted_by m ev || stateful ev && outdated m ev then (ASaved false, h)
  else (ASaved true, mkHeld (put ev (keep_events (λ e, negb (makes_room ev e)) m)) (h_accepted h)).

Definition spec_delete (id : string) (h : Held) : local_answer * Held :=
  match h_events h !! idPtr id with
  | Some held =>
      if negb (String.eqb (ev_ID held) id) then (ADone, h)
      else if bool_decide (id ∈ h_accepted h) then (AError LocalAccepted, h)
      else (ADone, mkHeld (delete (idPtr id) (h_events h)) (h_accepted h))
  | None => (ADone, h)
  end.

Definition spec_accept (id : string) (h : Held) : local_answer * Held :=
  match h_events h !! idPtr id with
  | Some held =>
      if assistantCheckpointEvent held && CheckID held && VerifySignature held
      then (ADone, mkHeld (h_events h) ({[ id ]} ∪ h_accepted h)) else (AError LocalNotRetained, h)
  | None => (AError LocalNotRetained, h)
  end.

Definition past (cutoff : Z) (e : Event) : bool := regular_expired e && (ev_CreatedAt e <? unix_sec cutoff).

Definition spec_prune (cutoff : Z) (h : Held) : local_answer * Held :=
  (ARemoved (length (filter (λ e, past cutoff e = true) (events (h_events h)))),
   mkHeld (keep_events (λ e, negb (past cutoff e)) (h_events h)) (h_accepted h)).

Definition spec_run1 (c : local_call) (h : Held) : local_answer * Held :=
  match c with
  | LSave ev => spec_save ev h
  | LDelete id => spec_delete id h
  | LAccept id => spec_accept id h
  | LPruneRegular cutoff => if unix_sec cutoff <=? 0 then (ARemoved 0, h) else spec_prune cutoff h
  end.

(** ** The calls of the store *)

Definition answered {A} (answer : A → local_answer) (r : result LocalError A * LocalFile) : local_answer * LocalFile :=
  (match fst r with Ok a => answer a | Err e => AError e end, snd r).

Definition local_run1 `{StorePrims} `{QueryEnv} (c : local_call) (f : LocalFile) : local_answer * LocalFile :=
  match c with
  | LSave ev => answered ASaved (Store_SaveEvent judge ev f)
  | LDelete id => answered (λ _, ADone) (Store_DeleteEvent id f)
  | LAccept id => answered (λ _, ADone) (MarkAssistantCheckpointAccepted id f)
  | LPruneRegular cutoff => answered ARemoved (PruneRegularEvents false (λ _, false) cutoff f)
  end.

Fixpoint run_local {S} (run1 : local_call → S → local_answer * S) (cs : list local_call) (s : S) : list local_answer * S :=
  match cs with
  | [] => ([], s)
  | c :: cs' =>
      let '(a, s) := run1 c s in
      let '(l, s) := run_local run1 cs' s in
      (a :: l, s)
  end.

End spec.

Lemma keyed_keep P m : keyed m → keyed (keep_events P m).
Proof. intros Hk p e [Hp _]%map_lookup_filter_Some. by apply Hk. Qed.

Lemma events_keep P m e : keyed m → e ∈ events (keep_events P m) ↔ e ∈ events m ∧ P e = true.
Proof. intros Hk. rewrite !keyed_events by (done || by apply keyed_keep). unfold keep_events. by rewrite map_lookup_filter_Some. Qed.

Lemma NoDup_keyed_events m : keyed m → NoDup (events m).
Proof.
  intros Hk. unfold events. apply NoDup_fmap_2_strong; [|apply NoDup_map_to_list].
  intros [p e] [p' e'] Hp%elem_of_map_to_list Hp'%elem_of_map_to_list E. simpl in E. subst e'. by rewrite <- (Hk _ _ Hp), <- (Hk _ _ Hp').
Qed.

Section refine.
Context `{NostrLaws} `{StorePrims} `{!StorePrimsLaws} `{QueryEnv} `{!QueryEnvLaws} `{LocalPrims} (judge : option (Event → bool)) (D : list Event).
Hypothesis HD : domain D.
Hypothesis Hhash : ∀ c, coordinate_of D c → hashed c.

(** ** The invariant *)

(** No stored event is deleted by a stored request. *)
Definition undeleted (m : gmap string Event) : Prop := ∀ r e, r ∈ events m → e ∈ events m → deletes r e = false.

Definition requests (m : gmap string Event) : list Event := filter (λ r, ev_Kind r = KindDeletion) (events m).

Record file_ok (f : LocalFile) (h : Held) : Prop := {
  fo_store : store_ok D (lf_store f) (h_events h);
  fo_deletions : BoltCoordProps.indexes (lf_deletions f) (requests (h_events h));
  fo_accepted : lf_accepted f = h_accepted h;
  fo_one : one_version (h_events h);
  fo_undeleted : undeleted (h_events h);
  fo_checkpoints id e : id ∈ h_accepted h → e ∈ D → ev_ID e = id → assistantCheckpointEvent e = true;
}.

Lemma file_keyed f h : file_ok f h → keyed (h_events h).
Proof. intros Hf. eapply represents_keyed, Hf. Qed.

Lemma domain_request r : r ∈ D → ev_Kind r = KindDeletion → request_ok r.
Proof.
  intros Hr Hk. pose proof (do_storable D HD r Hr) as [[Hi Hp _] _ _ _ _]. pose proof (do_time D HD r Hr). split; [done|done|unfold two63; lia|].
  intros c Hc. apply Hhash. exists r. split; [done|by right].
Qed.

Lemma requests_ok m : (∀ e, e ∈ events m → e ∈ D) → Forall request_ok (requests m).
Proof. intros Hsub. apply Forall_forall. intros r [Hk Hr]%list_elem_of_filter. by apply domain_request; auto. Qed.

(** Fewer events keep what is said of pairs. *)
Lemma pairs_mono m m' : (∀ e, e ∈ events m' → e ∈ events m) → one_version m ∧ undeleted m → one_version m' ∧ undeleted m'.
Proof. intros Hsub [Ho Hu]. split; [intros e e' He He'; by apply Ho; auto|intros r e Hr He; by apply Hu; auto]. Qed.

(** ** Saving *)

Lemma coordinate_wf ev : ev ∈ D → wf_coordinate (CoordinateOf ev).
Proof.
  intros He. pose proof (do_storable D HD ev He) as [[_ Hp _] Hk _ Hf _]. split; [|done]. simpl. unfold fits in Hf. rewrite !andb_true_iff, !Z.leb_le in Hf.
  unfold MaxKind in Hf. lia.
Qed.

Lemma deletedLocked_ok f h ev : file_ok f h → ev ∈ D → deletedLocked ev f = Ok (deleted_by (h_events h) ev).
Proof.
  intros Hf Hev. pose proof (fo_store _ _ Hf) as [Hr Hdom _]. unfold deletedLocked.
  assert (Hspec : ∀ b, (b = true ↔ ∃ r, r ∈ events (h_events h) ∧ deletes r ev = true) → b = deleted_by (h_events h) ev).
  { intros b Hb. apply eq_true_iff_eq. rewrite Hb. unfold deleted_by. rewrite existsb_exists. setoid_rewrite list_elem_of_In. done. }
  destruct (Z.eqb_spec (ev_Kind ev) KindDeletion) as [Hk|Hk].
  { f_equal. apply Hspec. split; [done|]. intros (r & _ & Hd). unfold deletes in Hd. rewrite Hk in Hd. by rewrite andb_false_r in Hd. }
  destruct (named_spec D HD (lf_store f) (h_events h) ev Hr Hdom Hev) as (l & -> & Hl). destruct l as [|x l].
  - assert (Hno : ∀ r, r ∈ events (h_events h) → deletes r ev = true → CoordinateOf ev ∈ DeletedCoordinates r ∧ ev_CreatedAt ev ≤ ev_CreatedAt r ∧ ev_Kind r = KindDeletion).
    { intros r Hrin Hd. assert (Hkr : ev_Kind r = KindDeletion) by (unfold deletes in Hd; rewrite !andb_true_iff in Hd; apply Z.eqb_eq, Hd).
      apply (deletes_elem D r) in Hd as [(Ha & _ & tag & Hin & rest & ->)|[Hc Ht]]; [|done|done|done]. exfalso. apply (proj2 Hl); [|done]. exists r. split_and!; try done.
      unfold names_id, ContainsAny. apply existsb_exists. eexists. split; [by apply list_elem_of_In|]. simpl. by apply bool_decide_eq_true, list_elem_of_singleton. }
    rewrite <- negb_orb. fold (stateful ev). destruct (stateful ev) eqn:Est; cbn [negb]; f_equal; apply Hspec.
    + rewrite (Deleted_indexes _ (requests (h_events h))); [|apply Hf|by apply requests_ok|by apply coordinate_wf|apply Hhash; exists ev; auto|pose proof (do_time D HD ev Hev); unfold two63; lia].
      unfold requests. setoid_rewrite list_elem_of_filter. split.
      * intros (r & [Hkr Hrin] & Hc & Ht). exists r. split; [done|]. apply (deletes_elem D); auto.
      * intros (r & Hrin & Hd). destruct (Hno r Hrin Hd) as (? & ? & ?). eauto.
    + split; [done|]. intros (r & Hrin & Hd). destruct (Hno r Hrin Hd) as (Hc & _ & _).
      apply elem_of_DeletedCoordinates in Hc as (tag & _ & (_ & _ & Hkind)%deleted_coordinate_ok). simpl in Hkind. unfold stateful in Est.
      apply orb_false_iff in Est as [? ?]. destruct Hkind; congruence.
  - f_equal. apply Hspec. split; [|done]. intros _. destruct (proj1 Hl ltac:(done)) as (r & Hrin & Hkr & Ha & Hn). exists r. split; [done|].
    unfold deletes. rewrite Hkr, Ha, Hn, String.eqb_refl. simpl. rewrite !andb_true_r. by apply negb_true_iff, Z.eqb_neq.
Qed.

Lemma hasLocked_ok f h id : file_ok f h → hasLocked id f = bool_decide (is_Some (h_events h !! idPtr id)).
Proof.
  intros Hf. unfold hasLocked. rewrite (queryByIds_represents _ (h_events h)) by apply Hf. cbn [omap list_omap].
  destruct (h_events h !! idPtr id) as [e|]; symmetry; [by apply bool_decide_eq_true|by apply bool_decide_eq_false, is_Some_None].
Qed.

(** The file after [ev] was stored in place of what it replaces or deletes. *)
Lemma file_ok_put f h s' m' ev ix : file_ok f h → ev ∈ D → h_events h !! idPtr (ev_ID ev) = None → deleted_by (h_events h) ev = false →
  (∀ e, e ∈ events m' ↔ e = ev ∨ e ∈ events (h_events h) ∧ makes_room ev e = false) → store_ok D s' m' →
  (∀ k, k ∈ ix ↔ k ∈ lf_deletions f ∨ ev_Kind ev = KindDeletion ∧ k ∈ deletionKeys ev) →
  file_ok (mkLocalFile s' ix (lf_undelivered f) (lf_accepted f)) (mkHeld (put ev (keep_events (λ e, negb (makes_room ev e)) (h_events h))) (h_accepted h)).
Proof.
  intros Hf Hev Hn Hdel Hm' Hs' Hix. pose proof (file_keyed _ _ Hf) as Hk. set (m := h_events h) in *.
  assert (Hnk : keep_events (λ e, negb (makes_room ev e)) m !! idPtr (ev_ID ev) = None).
  { unfold keep_events. apply map_lookup_filter_None. by left. }
  assert (m' = put ev (keep_events (λ e, negb (makes_room ev e)) m)) as <-.
  { apply events_ext; [apply (represents_keyed _ _ (so_rep _ _ _ Hs'))|by apply keyed_put, keyed_keep|]. intros e.
    rewrite Hm', events_put, events_keep, negb_true_iff by (done || by apply keyed_keep). done. }
  assert (Hstay : ∀ e, e ∈ events m → ev_Kind e = KindDeletion → makes_room ev e = false).
  { intros e He Hke. unfold makes_room. destruct (ev_Kind ev =? KindDeletion); [unfold deletes; rewrite Hke; simpl; by rewrite andb_false_r|].
    destruct (stateful ev) eqn:Est; [|done]. simpl. apply bool_decide_eq_false. intros [= Ek _ _]. apply (stateful_not_deletion _ Est). congruence. }
  split; simpl; try apply Hf; [done| | |].
  - intros k. rewrite Hix, (fo_deletions _ _ Hf k). unfold requests. setoid_rewrite list_elem_of_filter. setoid_rewrite Hm'. fold m. split.
    + intros [(r & [Hkr Hr] & Hkk)|[Hkr Hkk]]; [exists r; auto 6|exists ev; auto].
    + intros (r & [Hkr [->|[Hr _]]] & Hkk); [by right|left; eauto].
  - intros e e' [->|[He Hme]]%Hm' [->|[He' Hme']]%Hm' Hst Hc; [done| | |by apply (fo_one _ _ Hf)].
    + unfold makes_room in Hme'. destruct (Z.eqb_spec (ev_Kind ev) KindDeletion) as [E|_]; [by destruct (stateful_not_deletion _ Hst)|].
      rewrite Hst in Hme'. apply bool_decide_eq_false in Hme'. congruence.
    + assert (Est : stateful ev = true) by (injection Hc as Ek _ _; unfold stateful in *; by rewrite <- Ek). unfold makes_room in Hme.
      destruct (Z.eqb_spec (ev_Kind ev) KindDeletion) as [E|_]; [by destruct (stateful_not_deletion _ Est)|]. rewrite Est in Hme. apply bool_decide_eq_false in Hme. congruence.
  - intros r e [->|[Hr Hmr]]%Hm' [->|[He Hme]]%Hm'; [| | |by apply (fo_undeleted _ _ Hf)].
    + unfold deletes. destruct (ev_Kind ev =? KindDeletion); [done|by rewrite ?andb_false_l].
    + unfold makes_room in Hme. destruct (ev_Kind ev =? KindDeletion) eqn:E; [done|]. unfold deletes. by rewrite E.
    + unfold deleted_by in Hdel. destruct (deletes r ev) eqn:E; [|done]. rewrite <- Hdel. symmetry. apply existsb_exists. exists r. by rewrite <- list_elem_of_In.
Qed.

Lemma clear_undelivered f ev : snd (clearSupersededUndelivered ev f) = mkLocalFile (lf_store f) (lf_deletions f) (lf_undelivered (snd (clearSupersededUndelivered ev f))) (lf_accepted f).
Proof. unfold clearSupersededUndelivered, clearUndeliveredUnless. destruct (lf_undelivered f !! _) as [raw|]; [|by destruct f]. by destruct (match unmarshal raw with Some _ => _ | None => _ end), f. Qed.

Lemma undelivered_free f f' h : file_ok f h → lf_store f' = lf_store f → lf_deletions f' = lf_deletions f → lf_accepted f' = lf_accepted f → file_ok f' h.
Proof. intros [? ? ? ? ? ?] Es Ed Ea. split; rewrite ?Es, ?Ed, ?Ea; done. Qed.

(** The three ways to store an event. *)
Lemma save_request_ok f h ev : file_ok f h → ev ∈ D → h_events h !! idPtr (ev_ID ev) = None → deleted_by (h_events h) ev = false → ev_Kind ev = KindDeletion →
  ∃ f', saveDeletionLocked ev f = (Ok tt, f') ∧ file_ok f' (mkHeld (put ev (keep_events (λ e, negb (makes_room ev e)) (h_events h))) (h_accepted h)).
Proof.
  intros Hf Hev Hn Hdel Hk. unfold saveDeletionLocked, on_store, act_bind. cbn [index_deletions set_deletions lf_store].
  destruct (ApplyDeletion_ok D HD (lf_store f) (h_events h) ev) as (n & s1 & l & -> & Hs1 & _ & Hl); [apply Hf|done|apply one_version_indexed, Hf|done|].
  assert (HlD : ∀ e, e ∈ l → e ∈ D) by (intros e [He _]%Hl; by apply Hf).
  destruct (Store_Save_ok D HD s1 _ ev Hs1 Hev) as (s2 & -> & Hs2 & _); [rewrite lookup_remove_all, Hn; by destruct (decide _)|].
  eexists. split; [done|]. eapply (file_ok_put f h s2 _ ev); try done.
  - intros e. pose proof (file_keyed _ _ Hf) as Hkey. rewrite events_put; [|by apply keyed_remove_all|rewrite lookup_remove_all, Hn; by destruct (decide _)].
    rewrite (events_remove_all D HD); [|done|apply Hf|done]. rewrite Hl. unfold makes_room. rewrite Hk. simpl. destruct (deletes ev e); naive_solver.
  - intros k. cbn [set_store index_deletions set_deletions lf_deletions]. rewrite elem_of_Index. tauto.
Qed.

Lemma save_state_ok f h ev : file_ok f h → ev ∈ D → h_events h !! idPtr (ev_ID ev) = None → deleted_by (h_events h) ev = false → stateful ev = true →
  if outdated (h_events h) ev then on_store (Store_Replace scan ev) f = (Ok false, f)
  else ∃ f', on_store (Store_Replace scan ev) f = (Ok true, f') ∧ file_ok f' (mkHeld (put ev (keep_events (λ e, negb (makes_room ev e)) (h_events h))) (h_accepted h)).
Proof.
  intros Hf Hev Hn Hdel Hst. pose proof (Store_Replace_ok D HD (lf_store f) (h_events h) ev) as Hrep. unfold on_store.
  destruct (outdated (h_events h) ev); [rewrite Hrep by (done || apply Hf); by destruct f|].
  destruct Hrep as (s' & m' & -> & Hs' & _ & Hm'); [apply Hf|done|done|done|apply Hf|]. eexists. split; [done|]. eapply (file_ok_put f h s' m' ev); try done.
  - intros e. rewrite Hm'. unfold makes_room, version_of. destruct (Z.eqb_spec (ev_Kind ev) KindDeletion) as [E|_]; [by destruct (stateful_not_deletion _ Hst)|].
    rewrite Hst. cbn [andb]. rewrite bool_decide_eq_false. tauto.
  - intros k. simpl. split; [by left|]. intros [?|[E _]]; [done|]. by destruct (stateful_not_deletion _ Hst).
Qed.

Lemma save_plain_ok f h ev : file_ok f h → ev ∈ D → h_events h !! idPtr (ev_ID ev) = None → deleted_by (h_events h) ev = false →
  stateful ev = false → ev_Kind ev ≠ KindDeletion →
  ∃ f', on_store (Store_Save ev) f = (Ok tt, f') ∧ file_ok f' (mkHeld (put ev (keep_events (λ e, negb (makes_room ev e)) (h_events h))) (h_accepted h)).
Proof.
  intros Hf Hev Hn Hdel Hst Hk. unfold on_store. destruct (Store_Save_ok D HD (lf_store f) (h_events h) ev) as (s' & -> & Hs' & _); [apply Hf|done|done|].
  eexists. split; [done|]. eapply (file_ok_put f h s' _ ev); try done.
  - intros e. rewrite events_put by (done || by eapply file_keyed). unfold makes_room. rewrite (proj2 (Z.eqb_neq _ _) Hk), Hst. simpl. tauto.
  - intros k. simpl. tauto.
Qed.

Lemma save_ok f h ev : file_ok f h → ev ∈ D →
  fst (answered ASaved (Store_SaveEvent judge ev f)) = fst (spec_save judge ev h) ∧ file_ok (snd (answered ASaved (Store_SaveEvent judge ev f))) (snd (spec_save judge ev h)).
Proof.
  intros Hf Hev. unfold Store_SaveEvent, spec_save. fold (refused judge ev). destruct (refused judge ev); [done|].
  destruct (IsEphemeral (ev_Kind ev)); [done|]. rewrite (hasLocked_ok f h) by done. case_bool_decide as Hheld; [done|]. cbn [orb].
  assert (Hn : h_events h !! idPtr (ev_ID ev) = None) by (by apply eq_None_not_Some). unfold act_bind, act_read.
  rewrite (deletedLocked_ok f h) by done. destruct (deleted_by (h_events h) ev) eqn:Hdel; [done|]. cbn [orb].
  destruct (Z.eqb_spec (ev_Kind ev) KindDeletion) as [Hk|Hk].
  { assert (stateful ev = false) as -> by (destruct (stateful ev) eqn:E; [by destruct (stateful_not_deletion _ E)|done]). cbn [andb].
    destruct (save_request_ok f h ev) as (f' & -> & Hf'); done. }
  fold (stateful ev). destruct (stateful ev) eqn:Hst; cbn [andb].
  - pose proof (save_state_ok f h ev Hf Hev Hn Hdel Hst) as Hsave. destruct (outdated (h_events h) ev); [by rewrite Hsave|].
    destruct Hsave as (f' & -> & Hf'). split; [done|]. simpl. rewrite clear_undelivered. by apply (undelivered_free f').
  - destruct (save_plain_ok f h ev) as (f' & -> & Hf'); done.
Qed.

(** ** Deleting, accepting, pruning *)

Lemma file_ok_drop f h s' e ix : file_ok f h → e ∈ events (h_events h) → store_ok D s' (delete (idPtr (ev_ID e)) (h_events h)) →
  (∀ k, k ∈ ix ↔ k ∈ lf_deletions f ∧ (ev_Kind e = KindDeletion → k ∉ deletionKeys e)) →
  file_ok (mkLocalFile s' ix (lf_undelivered f) (lf_accepted f)) (mkHeld (delete (idPtr (ev_ID e)) (h_events h)) (h_accepted h)).
Proof.
  intros Hf He Hs' Hix. pose proof (file_keyed _ _ Hf) as Hk. pose proof (so_dom _ _ _ (fo_store _ _ Hf)) as Hdom.
  assert (Hel : ∀ x, x ∈ events (delete (idPtr (ev_ID e)) (h_events h)) ↔ x ∈ events (h_events h) ∧ x ≠ e).
  { intros x. change (delete (idPtr (ev_ID e)) (h_events h)) with (remove_all [e] (h_events h)).
    rewrite (events_remove_all D HD [e]), list_elem_of_singleton; [done|done|done|]. intros y ->%list_elem_of_singleton. auto. }
  destruct (pairs_mono (h_events h) (delete (idPtr (ev_ID e)) (h_events h))) as [Ho Hu]; [by intros x [? _]%Hel|split; apply Hf|].
  split; simpl; try done; try apply Hf. intros k. rewrite Hix, (fo_deletions _ _ Hf k). unfold requests. setoid_rewrite list_elem_of_filter. setoid_rewrite Hel. split.
  - intros [(r & [Hkr Hr] & Hkk) Hn]. exists r. split; [split; [done|split; [done|]]|done]. intros ->. by apply Hn.
  - intros (r & [Hkr [Hr Hne]] & Hkk). split; [eauto|]. intros Hke Hkk'. apply Hne.
    assert (E : ev_ID r = ev_ID e) by (apply (deletionKeys_id r e k); try done; apply (do_storable D HD); auto).
    apply (do_ptr D HD r e); auto. by rewrite E.
Qed.

Lemma delete_ok f h id : file_ok f h →
  ∃ a f', Store_DeleteEvent id f = (a, f') ∧ (match a with Ok _ => ADone | Err e => AError e end) = fst (spec_delete id h) ∧ file_ok f' (snd (spec_delete id h)).
Proof.
  intros Hf. pose proof (file_keyed _ _ Hf) as Hk. unfold Store_DeleteEvent, spec_delete. rewrite (queryByIds_represents _ (h_events h)) by apply Hf. cbn [omap list_omap].
  destruct (h_events h !! idPtr id) as [e|] eqn:Hp; [|by eexists _, f]. destruct (String.eqb_spec (ev_ID e) id) as [<-|Hne]; cbn [negb]; [|by eexists _, f].
  unfold AssistantCheckpointAccepted. rewrite (fo_accepted _ _ Hf). destruct (bool_decide _); [by eexists _, f|].
  assert (He : e ∈ events (h_events h)) by (by apply keyed_events). unfold on_store. set (f1 := if ev_Kind e =? KindDeletion then _ else f).
  assert (Hf1 : lf_store f1 = lf_store f ∧ lf_undelivered f1 = lf_undelivered f ∧ lf_accepted f1 = lf_accepted f) by (unfold f1; by destruct (_ =? _)).
  destruct Hf1 as (-> & Eu & Ea). destruct (Store_Delete_ok D HD (lf_store f) (h_events h) e) as (s' & -> & Hs' & _); [apply Hf|by apply Hf|].
  eexists _, _. split; [done|]. split; [done|]. unfold set_store. simpl. rewrite Eu, Ea. apply file_ok_drop; [done|done|done|]. intros k. unfold f1.
  destruct (Z.eqb_spec (ev_Kind e) KindDeletion) as [E|E]; [|tauto]. cbn [unindex_deletions set_deletions lf_deletions]. rewrite elem_of_Unindex. tauto.
Qed.

Lemma accept_ok f h id : file_ok f h →
  ∃ a f', MarkAssistantCheckpointAccepted id f = (a, f') ∧ (match a with Ok _ => ADone | Err e => AError e end) = fst (spec_accept id h) ∧ file_ok f' (snd (spec_accept id h)).
Proof.
  intros Hf. pose proof (file_keyed _ _ Hf) as Hk. unfold MarkAssistantCheckpointAccepted, spec_accept. rewrite (queryByIds_represents _ (h_events h)) by apply Hf. cbn [omap list_omap].
  destruct (h_events h !! idPtr id) as [e|] eqn:Hp; cbn [last]; [|by eexists _, f]. destruct (_ && _ && _) eqn:Hc; [|by eexists _, f].
  eexists _, _. split; [done|]. split; [done|]. destruct Hf as [H1' H2' H3' H4' H5' H6']. split; simpl; try done; [by rewrite H3'|].
  intros i x [->%elem_of_singleton|Hi]%elem_of_union Hx E; [|by apply (H6' i)]. assert (x = e) as ->; [|by rewrite !andb_true_iff in Hc; apply Hc].
  assert (Hpe : idPtr (ev_ID e) = idPtr id) by (by apply Hk). apply (do_ptr D HD); [done| |congruence]. apply H1', (keyed_events (h_events h) e Hk). by rewrite Hpe.
Qed.

(** Deleting events one after the other. *)
Lemma prune_loop_ok l : ∀ i f h, file_ok f h → (∀ e, e ∈ l → e ∈ events (h_events h)) → NoDup l → (∀ e, e ∈ l → ev_ID e ∉ h_accepted h) →
  ∃ f', prune_loop (λ _, false) i (ev_ID <$> l) f = (Ok (i + length l)%nat, f') ∧ file_ok f' (mkHeld (remove_all l (h_events h)) (h_accepted h)).
Proof.
  induction l as [|e l IH]; intros i f h Hf Hl Hnd Ha; [exists f; rewrite Nat.add_0_r; by destruct h|]. rewrite fmap_cons. cbn [prune_loop]. unfold act_bind.
  pose proof (file_keyed _ _ Hf) as Hk. apply NoDup_cons in Hnd as [Hnin Hnd]. assert (He : e ∈ events (h_events h)) by (apply Hl; left).
  destruct (delete_ok f h (ev_ID e) Hf) as (a & f1 & -> & Ea & Hf1). unfold spec_delete in Ea, Hf1. rewrite (proj1 (keyed_events _ e Hk) He) in Ea, Hf1.
  rewrite String.eqb_refl in Ea, Hf1. cbn [negb] in Ea, Hf1. rewrite bool_decide_eq_false_2 in Ea, Hf1 by (apply Ha; left). simpl in Ea, Hf1.
  destruct a as [u|err]; [|done]. destruct (IH (S i) f1 _ Hf1) as (f2 & -> & Hf2); [|done|by intros x Hx; apply Ha; right|].
  - intros x Hx. simpl. change (delete (idPtr (ev_ID e)) (h_events h)) with (remove_all [e] (h_events h)).
    apply (events_remove_all D HD); [done|apply Hf|intros y ->%list_elem_of_singleton; by apply Hf|]. split; [apply Hl; by right|]. intros ->%list_elem_of_singleton. done.
  - exists f2. split; [f_equal; f_equal; simpl; lia|done].
Qed.

Lemma prune_ok f h cutoff : file_ok f h → unix_sec cutoff ≤ 0 ∨ 1 < unix_sec cutoff ≤ 4294967295 →
  ∃ n f', PruneRegularEvents false (λ _, false) cutoff f = (Ok n, f') ∧ ARemoved n = fst (spec_run1 judge (LPruneRegular cutoff) h) ∧ file_ok f' (snd (spec_run1 judge (LPruneRegular cutoff) h)).
Proof.
  intros Hf Hc. pose proof (file_keyed _ _ Hf) as Hk. unfold PruneRegularEvents, spec_run1. cbn [orb]. destruct (Z.leb_spec (unix_sec cutoff) 0) as [Hz|Hz]; [by eexists _, f|].
  unfold prune, act_bind, act_read. change (Store_QueryEvents (lf_store f) (with_until (unix_sec cutoff - 1) any_filter)) with (scan (lf_store f) (with_until (unix_sec cutoff - 1) any_filter) 0).
  destruct (any_spec D HD (lf_store f) (h_events h) (unix_sec cutoff - 1) 0) as (l & -> & Hl & Hnd & _); [apply Hf|apply Hf|lia|by left|].
  set (l' := base.filter (λ ev, regular_expired ev) l).
  assert (Hl' : ∀ e, e ∈ l' ↔ e ∈ events (h_events h) ∧ past cutoff e = true).
  { intros e. unfold l', past. rewrite list_elem_of_filter, Is_true_true, Hl, andb_true_iff, Z.ltb_lt. unfold in_time. split; [|naive_solver lia].
    intros (? & ? & [?|?]); [lia|]. split_and!; [done..|lia]. }
  assert (Hnd' : NoDup l') by (by apply NoDup_filter).
  destruct (prune_loop_ok l' 0 f h Hf) as (f' & -> & Hf'); [by intros e [? _]%Hl'|done| |].
  { intros e [He Hp]%Hl' Hacc. pose proof (fo_checkpoints _ _ Hf _ e Hacc (so_dom _ _ _ (fo_store _ _ Hf) e He) eq_refl) as Hcp.
    unfold past, regular_expired in Hp. rewrite Hcp in Hp. by rewrite andb_false_r in Hp. }
  eexists _, f'. split; [done|]. split.
  - simpl. f_equal. apply Permutation_length, NoDup_Permutation; [done|by apply NoDup_filter, NoDup_keyed_events|]. intros e. rewrite Hl', list_elem_of_filter. tauto.
  - simpl. replace (keep_events (λ e, negb (past cutoff e)) (h_events h)) with (remove_all l' (h_events h)); [done|].
    apply events_ext; [by apply keyed_remove_all|by apply keyed_keep|]. intros e. rewrite (events_remove_all D HD), events_keep, Hl', negb_true_iff; [|done|done|apply Hf|].
    + destruct (past cutoff e); naive_solver.
    + intros x [Hx _]%Hl'. by apply Hf.
Qed.

(** ** Every sequence of calls *)

Definition local_call_ok (c : local_call) : Prop :=
  match c with
  | LSave ev => ev ∈ D
  | LPruneRegular cutoff => unix_sec cutoff ≤ 0 ∨ 1 < unix_sec cutoff ≤ 4294967295
  | _ => True
  end.

Lemma local_step c f h : file_ok f h → local_call_ok c →
  fst (local_run1 judge c f) = fst (spec_run1 judge c h) ∧ file_ok (snd (local_run1 judge c f)) (snd (spec_run1 judge c h)).
Proof.
  intros Hf Hc. destruct c as [ev|id|id|cutoff].
  - by apply save_ok.
  - destruct (delete_ok f h id Hf) as (a & f' & E & Ea & Hf'). unfold local_run1, answered. rewrite E. simpl. by rewrite <- Ea.
  - destruct (accept_ok f h id Hf) as (a & f' & E & Ea & Hf'). unfold local_run1, answered. rewrite E. simpl. by rewrite <- Ea.
  - destruct (prune_ok f h cutoff Hf Hc) as (n & f' & E & Ea & Hf'). unfold local_run1, answered. rewrite E. by rewrite <- Ea.
Qed.

Lemma local_runs cs : ∀ f h, file_ok f h → Forall local_call_ok cs →
  fst (run_local (local_run1 judge) cs f) = fst (run_local (spec_run1 judge) cs h)
  ∧ file_ok (snd (run_local (local_run1 judge) cs f)) (snd (run_local (spec_run1 judge) cs h)).
Proof.
  induction cs as [|c cs IH]; intros f h Hf Hcs; [done|]. apply Forall_cons in Hcs as [Hc Hcs]. cbn [run_local].
  destruct (local_step c f h Hf Hc) as [E Hf1]. destruct (local_run1 judge c f) as [a f1], (spec_run1 judge c h) as [a' h1]. simpl in *.
  destruct (IH f1 h1 Hf1 Hcs) as [E' Hf2]. destruct (run_local (local_run1 judge) cs f1), (run_local (spec_run1 judge) cs h1). simpl in *. by rewrite E, E'.
Qed.

Definition new_held : Held := mkHeld ∅ ∅.

Lemma empty_file_ok : file_ok empty_file new_held.
Proof.
  assert (He : ∀ e : Event, e ∉ events ∅) by (intros e; unfold events; rewrite map_to_list_empty; by intros ?%elem_of_nil).
  split; simpl; try done.
  - split; [apply represents_empty|by intros e ?%He|]. intros k. split; [set_solver|]. by intros (e & ?%He & _).
  - intros k. split; [set_solver|]. by intros (r & [_ ?%He]%list_elem_of_filter & _).
  - by intros e e' ?%He.
  - by intros r e ?%He.
Qed.

(** C27: for events of a domain (storable, dated after 0 and before the last
    second of 32 bits, told apart by their id pointers, with references to ids
    in lower case, none reached by a query through a truncated key or a second
    d tag), on a new file every sequence of saves, deletes, acceptances and
    prunes of regular events (with no cutoff in second 1 of Unix time, which
    removes them all, or beyond 32 bits) answers as a set of events does that
    keeps the latest version of each coordinate and drops what a stored request
    deletes; after it the file holds exactly that set, with one version of each coordinate,
    nothing a stored request deletes, a deletion index of exactly the stored
    requests and a tag index of exactly the stored events. *)
Theorem local_store_refines cs : Forall local_call_ok cs →
  fst (run_local (local_run1 judge) cs empty_file) = fst (run_local (spec_run1 judge) cs new_held)
  ∧ file_ok (snd (run_local (local_run1 judge) cs empty_file)) (snd (run_local (spec_run1 judge) cs new_held)).
Proof. apply local_runs, empty_file_ok. Qed.

End refine.
