(* ===== verification/LocalConverge.v ===== *)
(** * Replicas converge

    What the local store holds after a sequence of saves depends only on the
    set of events saved: whatever order the relays deliver them in, and however
    often, the same events survive.  This holds as long as no deletion request
    names a replaceable or addressable event by its id. *)

From Stdlib Require Import ZArith Lia Bool Ascii.
From stdpp Require Import base tactics decidable option list numbers strings gmap sorting.
From S2P Require Import Prelude Bytes Nostr EventID Bolt BoltCoord BoltCoordFacts BoltCoordProps BetterBinary BetterBinaryFacts Md5 EventStore EventStoreFacts QuickSelect EventQuery EventQueryFacts EventIndexFacts EventQueryPlan EventStoreProps Inbound TagIndex Action CoordStore LocalStore PagedFacts LocalReads LocalFacts LocalProps.

(** ** Versions are ordered *)

Lemma IsOlder_spec a b : IsOlder a b = true ↔ ev_CreatedAt a < ev_CreatedAt b ∨ ev_CreatedAt a = ev_CreatedAt b ∧ bytes_le (ev_ID b) (ev_ID a) ∧ ev_ID b ≠ ev_ID a.
Proof. unfold IsOlder. by rewrite orb_true_iff, andb_true_iff, Z.ltb_lt, Z.eqb_eq, bytes_ltb_spec. Qed.

Lemma IsOlder_trans a b c : IsOlder a b = true → IsOlder b c = true → IsOlder a c = true.
Proof.
  rewrite !IsOlder_spec. intros [Hab|(Eab & Lab & Nab)] [Hbc|(Ebc & Lbc & Nbc)]; [left; lia..|]. right. split; [lia|]. split; [by etrans|].
  intros E. apply Nab. apply (anti_symm bytes_le); [done|]. by rewrite <- E.
Qed.

Lemma IsOlder_asym a b : IsOlder a b = true → IsOlder b a = false.
Proof.
  intros Hab. destruct (IsOlder b a) eqn:Hba; [|done]. apply IsOlder_spec in Hab, Hba. destruct Hab as [?|(? & ? & Hn)], Hba as [?|(? & ? & ?)]; try lia.
  destruct Hn. by apply (anti_symm bytes_le).
Qed.

Lemma IsOlder_total a b : ev_ID a ≠ ev_ID b → IsOlder a b = false → IsOlder b a = true.
Proof.
  intros Hn Hab. apply IsOlder_spec. destruct (Z.lt_trichotomy (ev_CreatedAt a) (ev_CreatedAt b)) as [Hlt|[E|Hlt]]; [|right|by left].
  - assert (IsOlder a b = true) by (apply IsOlder_spec; by left). congruence.
  - split; [done|]. split; [|done]. destruct (total bytes_le (ev_ID a) (ev_ID b)) as [|Hle]; [done|].
    assert (IsOlder a b = true) by (apply IsOlder_spec; right; auto). congruence.
Qed.

Lemma IsOlder_time a b : IsOlder a b = true → ev_CreatedAt a ≤ ev_CreatedAt b.
Proof. intros [?|[? _]]%IsOlder_spec; lia. Qed.

(** Above every version there is one that is older than no other. *)
Lemma newest_exists (P : Event → bool) (l : list Event) e : e ∈ l → P e = true →
  ∃ x, x ∈ l ∧ P x = true ∧ (x = e ∨ IsOlder e x = true) ∧ ∀ y, y ∈ l → P y = true → IsOlder x y = false.
Proof.
  remember (length (filter (λ y, P y = true ∧ IsOlder e y = true) l)) as n eqn:Hn. revert e Hn.
  induction n as [n IH] using lt_wf_ind. intros e Hn He HP.
  destruct (filter (λ y, P y = true ∧ IsOlder e y = true) l) as [|y above] eqn:Ea.
  - exists e. split_and!; [done|done|by left|]. intros y Hy HPy. destruct (IsOlder e y) eqn:E; [|done].
    assert (y ∈ filter (λ y, P y = true ∧ IsOlder e y = true) l) as Hin by (by apply list_elem_of_filter). rewrite Ea in Hin. by apply elem_of_nil in Hin.
  - assert (y ∈ filter (λ y, P y = true ∧ IsOlder e y = true) l) as [[HPy Hey] Hy]%list_elem_of_filter by (rewrite Ea; left).
    destruct (IH (length (filter (λ z, P z = true ∧ IsOlder y z = true) l))) with (e := y) as (x & Hx & HPx & Hyx & Hmax); [|done..|].
    { rewrite Hn, <- Ea. clear -Hy HPy Hey. assert (Hle : ∀ k, (length (filter (λ z, P z = true ∧ IsOlder y z = true) k) ≤ length (filter (λ z, P z = true ∧ IsOlder e z = true) k))%nat).
      { intros k. apply length_filter_imp. intros z [? ?]. split; [done|]. by eapply IsOlder_trans. }
      induction l as [|z l IH]; [by apply elem_of_nil in Hy|]. rewrite !filter_cons. specialize (Hle l). apply elem_of_cons in Hy as [<-|Hy].
      - rewrite decide_False by (intros [_ E]; by rewrite (IsOlder_asym _ _ E) in E). rewrite decide_True by done. simpl. lia.
      - specialize (IH Hy). repeat case_decide; simpl; try lia. exfalso. naive_solver eauto using IsOlder_trans. }
    exists x. split_and!; try done. right. destruct Hyx as [->|Hyx]; [done|by eapply IsOlder_trans].
Qed.

Lemma represents_unique `{StorePrims} db db' m : represents db m → represents db' m → db = db'.
Proof.
  intros [Hraw _ Hix] [Hraw' _ Hix']. destruct db as [raw ix], db' as [raw' ix']. simpl in *. f_equal; [congruence|].
  apply set_eq. intros bk. by rewrite Hix, Hix'.
Qed.

(** ** Survivors *)

Section converge.
Context `{NostrLaws} `{StorePrims} `{!StorePrimsLaws} `{QueryEnv} `{!QueryEnvLaws} `{LocalPrims} (judge : option (Event → bool)) (D : list Event).
Hypothesis HD : domain D.
Hypothesis Hhash : ∀ c, coordinate_of D c → hashed c.

(** Requests name only regular events by id. *)
Definition names_regular : Prop := ∀ r e, r ∈ D → e ∈ D → ev_Kind r = KindDeletion → stateful e = true → names_id r e = false.
Hypothesis Hrefs : names_regular.

(** The events that are stored at all. *)
Definition lasting (ev : Event) : bool := negb (refused judge ev) && negb (IsEphemeral (ev_Kind ev)).

(** What is left of the events [evs]: those no request among them deletes and
    no newer version replaces. *)
Record survives (evs : list Event) (e : Event) : Prop := {
  sv_saved : e ∈ evs;
  sv_lasting : lasting e = true;
  sv_undeleted r : r ∈ evs → lasting r = true → deletes r e = false;
  sv_newest v : v ∈ evs → lasting v = true → stateful e = true → CoordinateOf v = CoordinateOf e → IsOlder e v = false;
}.

Lemma deletes_older r v e : r ∈ D → v ∈ D → e ∈ D → stateful v = true → CoordinateOf v = CoordinateOf e → ev_CreatedAt e ≤ ev_CreatedAt v →
  deletes r v = true → deletes r e = true.
Proof.
  intros Hr Hv He Hst Hc Ht Hd. assert (Hk : ev_Kind r = KindDeletion) by (unfold deletes in Hd; rewrite !andb_true_iff in Hd; apply Z.eqb_eq, Hd).
  pose proof (Hrefs r v Hr Hv Hk Hst) as Hn. apply (deletes_elem D); [done|done|]. right. unfold deletes in Hd. rewrite Hn in Hd.
  rewrite !andb_true_iff, orb_false_l, !andb_true_iff, bool_decide_eq_true, Z.leb_le in Hd. rewrite <- Hc. split; [apply Hd|]. destruct Hd as [_ [_ ?]]. lia.
Qed.

Lemma request_survives evs r : r ∈ evs → lasting r = true → ev_Kind r = KindDeletion → survives evs r.
Proof.
  intros Hr Hl Hk. split; try done.
  - intros r' _ _. unfold deletes. rewrite Hk. simpl. by rewrite andb_false_r.
  - intros v _ _ Hst. by destruct (stateful_not_deletion _ Hst).
Qed.

Definition holds (h : Held) (evs : list Event) : Prop := ∀ e, e ∈ events (h_events h) ↔ survives evs e.

Section save.
Context (f : LocalFile) (h : Held) (evs : list Event) (ev : Event).
Hypothesis Hf : file_ok D f h.
Hypothesis Hh : holds h evs.
Hypothesis Hevs : ∀ e, e ∈ evs → e ∈ D.
Hypothesis Hev : ev ∈ D.

Lemma survives_snoc e : survives (evs ++ [ev]) e ↔ e ∈ evs ++ [ev] ∧ lasting e = true ∧
  (∀ r, r ∈ evs → lasting r = true → deletes r e = false) ∧ (lasting ev = true → deletes ev e = false) ∧
  (stateful e = true → (∀ v, v ∈ evs → lasting v = true → CoordinateOf v = CoordinateOf e → IsOlder e v = false)
    ∧ (lasting ev = true → CoordinateOf ev = CoordinateOf e → IsOlder e ev = false)).
Proof.
  split.
  - intros [H1' H2' H3' H4']. split_and!; try done.
    + intros r Hr. apply H3'. apply elem_of_app. by left.
    + intros Hl. apply H3'; [|done]. apply elem_of_app. right. by left.
    + intros Hst. split; [intros v Hv Hl; apply H4'; [apply elem_of_app; by left|done..]|intros Hl; apply H4'; [apply elem_of_app; right; by left|done..]].
  - intros (H1' & H2' & H3' & H3'' & H4'). split; try done.
    + intros r [Hr| ->%list_elem_of_singleton]%elem_of_app; auto.
    + intros v [Hv| ->%list_elem_of_singleton]%elem_of_app Hl Hst; destruct (H4' Hst); auto.
Qed.

(** An event that is not stored changes nothing, if it would not survive and
    is newer than nothing that is held. *)
Lemma holds_skip : (lasting ev = true → ev_Kind ev ≠ KindDeletion ∧ ¬ survives (evs ++ [ev]) ev ∧ ∀ e, e ∈ events (h_events h) → stateful e = true → CoordinateOf ev = CoordinateOf e → IsOlder e ev = false) →
  holds h (evs ++ [ev]).
Proof.
  intros Hskip e. rewrite (Hh e). split.
  - intros Hs. apply survives_snoc. destruct Hs as [H1' H2' H3' H4'] eqn:E. split_and!; try done; [apply elem_of_app; by left| |].
    + intros Hl. destruct (Hskip Hl) as [Hk _]. unfold deletes. by rewrite (proj2 (Z.eqb_neq _ _) Hk).
    + intros Hst. split; [auto|]. intros Hl Hc. destruct (Hskip Hl) as (_ & _ & Hn). apply Hn; [by apply Hh|done|done].
  - intros Hs. apply survives_snoc in Hs as Hs'. destruct Hs' as ([Hin| ->%list_elem_of_singleton]%elem_of_app & Hl & Hd & _ & Hn).
    + split; try done. intros v Hv Hlv Hst. by apply Hn.
    + by destruct (Hskip Hl) as (_ & Hno & _).
Qed.

Lemma holds_again : ev ∈ evs → holds h (evs ++ [ev]).
Proof.
  intros Hin e. rewrite (Hh e). split; intros [H1' H2' H3' H4']; split; try done.
  - apply elem_of_app. by left.
  - intros r [Hr| ->%list_elem_of_singleton]%elem_of_app; auto.
  - intros v [Hv| ->%list_elem_of_singleton]%elem_of_app; auto.
  - by apply elem_of_app in H1' as [?| ->%list_elem_of_singleton].
  - intros r Hr. apply H3'. apply elem_of_app. by left.
  - intros v Hv. apply H4'. apply elem_of_app. by left.
Qed.

Lemma deleted_by_spec : deleted_by (h_events h) ev = true ↔ ∃ r, r ∈ evs ∧ lasting r = true ∧ deletes r ev = true.
Proof.
  unfold deleted_by. rewrite existsb_exists. split.
  - intros (r & Hr & Hd). apply list_elem_of_In, Hh in Hr. exists r. split_and!; try done; apply Hr.
  - intros (r & Hr & Hl & Hd). exists r. split; [|done]. apply list_elem_of_In, Hh, request_survives; [done..|].
    unfold deletes in Hd. rewrite !andb_true_iff in Hd. apply Z.eqb_eq, Hd.
Qed.

Lemma outdated_spec : outdated (h_events h) ev = true ↔ ∃ v, v ∈ events (h_events h) ∧ CoordinateOf v = CoordinateOf ev ∧ IsOlder v ev = false.
Proof.
  unfold outdated. rewrite existsb_exists. setoid_rewrite <- list_elem_of_In. setoid_rewrite andb_true_iff. setoid_rewrite bool_decide_eq_true.
  setoid_rewrite negb_true_iff. done.
Qed.

(** A newer version among those saved is held, unless a request deletes it and
    [ev] with it. *)
Lemma newer_held v : v ∈ evs → lasting v = true → stateful ev = true → CoordinateOf v = CoordinateOf ev → IsOlder ev v = true → deleted_by (h_events h) ev = false →
  outdated (h_events h) ev = true.
Proof.
  intros Hv Hl Hst Hc Ho Hdel.
  destruct (newest_exists (λ x, lasting x && bool_decide (CoordinateOf x = CoordinateOf ev)) evs v Hv) as (x & Hx & [Hlx Hcx%bool_decide_eq_true]%andb_true_iff & Hvx & Hmax).
  { rewrite Hl. by apply bool_decide_eq_true. }
  assert (Hevx : IsOlder ev x = true) by (destruct Hvx as [->|Hvx]; [done|by eapply IsOlder_trans]).
  assert (Hstx : stateful x = true) by (injection Hcx as Ek _ _; unfold stateful in *; by rewrite Ek).
  apply outdated_spec. exists x. split_and!; [|done|by apply IsOlder_asym]. apply Hh. split; try done.
  - intros r Hr Hlr. destruct (deletes r x) eqn:Hd; [|done]. rewrite <- Hdel. symmetry. apply deleted_by_spec. exists r. split_and!; try done.
    apply (deletes_older r x ev); auto. by apply IsOlder_time.
  - intros y Hy Hly _ Hcy. apply Hmax; [done|]. rewrite Hly. apply bool_decide_eq_true. congruence.
Qed.

Lemma IsOlder_self e : IsOlder e e = false.
Proof. destruct (IsOlder e e) eqn:E; [|done]. by rewrite (IsOlder_asym e e E) in E. Qed.

Lemma holds_stored h' : lasting ev = true → deleted_by (h_events h) ev = false → stateful ev && outdated (h_events h) ev = false →
  (∀ e, e ∈ events (h_events h') ↔ e = ev ∨ e ∈ events (h_events h) ∧ makes_room ev e = false) → holds h' (evs ++ [ev]).
Proof.
  intros Hl Hdel Hout Hh' e. rewrite (Hh' e), survives_snoc. unfold makes_room. split.
  - intros [->|[[He1 He2 He3 He4]%Hh Hroom]].
    + split_and!; [apply elem_of_app; right; left|done| | |].
      * intros r Hr Hlr. destruct (deletes r ev) eqn:Hd; [|done]. rewrite <- Hdel. symmetry. apply deleted_by_spec. eauto.
      * intros _. unfold deletes. by destruct (ev_Kind ev =? KindDeletion).
      * intros Hst. rewrite Hst in Hout. split; [|intros _ _; apply IsOlder_self]. intros v Hv Hlv Hc. destruct (IsOlder ev v) eqn:Ho; [|done].
        rewrite (newer_held v) in Hout by done. done.
    + split_and!; [apply elem_of_app; by left|done|done| |].
      * intros _. destruct (ev_Kind ev =? KindDeletion) eqn:Ek; [done|]. unfold deletes. by rewrite Ek.
      * intros Hst. split; [by intros v Hv Hlv; apply He4|]. intros _ Hc. assert (Hste : stateful ev = true) by (injection Hc as Ek _ _; unfold stateful in *; by rewrite Ek).
        destruct (Z.eqb_spec (ev_Kind ev) KindDeletion) as [Ek|_]; [by destruct (stateful_not_deletion _ Hste)|].
        rewrite Hste in Hroom. apply bool_decide_eq_false in Hroom. by destruct Hroom.
  - intros ([Hin| ->%list_elem_of_singleton]%elem_of_app & Hle & Hd & Hdev & Hn); [right|by left].
    assert (Hm : e ∈ events (h_events h)) by (apply Hh; split; try done; intros v Hv Hlv Hst; by apply Hn). split; [done|].
    destruct (ev_Kind ev =? KindDeletion); [auto|]. destruct (stateful ev) eqn:Hst; [|done]. simpl. apply bool_decide_eq_false. intros Hc.
    assert (Hste : stateful e = true) by (injection Hc as Ek _ _; unfold stateful in *; by rewrite Ek).
    assert (Ho : IsOlder e ev = false) by (by apply Hn). assert (Hyes : outdated (h_events h) ev = true) by (apply outdated_spec; eauto). by rewrite Hyes in Hout.
Qed.

Lemma holds_save : holds (snd (spec_save judge ev h)) (evs ++ [ev]).
Proof.
  unfold spec_save. destruct (refused judge ev) eqn:Er; [apply holds_skip; unfold lasting; by rewrite Er|].
  destruct (IsEphemeral (ev_Kind ev)) eqn:Ee; [apply holds_skip; unfold lasting; by rewrite Er, Ee|].
  assert (Hl : lasting ev = true) by (unfold lasting; by rewrite Er, Ee). pose proof (file_keyed D _ _ Hf) as Hk.
  case_bool_decide as Hheld; cbn [orb].
  { destruct Hheld as [x Hx]. apply holds_again. assert (x ∈ events (h_events h)) as Hin by (apply (keyed_events _ x Hk); by rewrite (Hk _ _ Hx)).
    assert (x = ev) as <- by (apply (do_ptr D HD); [by apply Hf|done|by apply Hk]). by apply Hh in Hin as [? _ _ _]. }
  apply eq_None_not_Some in Hheld. destruct (deleted_by (h_events h) ev) eqn:Hdel; cbn [orb snd].
  { apply deleted_by_spec in Hdel as (r & Hr & Hlr & Hd). apply holds_skip. intros _. split_and!.
    - intros Hkd. unfold deletes in Hd. rewrite Hkd in Hd. simpl in Hd. by rewrite andb_false_r in Hd.
    - intros Hs. apply survives_snoc in Hs as (_ & _ & Hs & _). rewrite Hs in Hd by done. done.
    - intros e He Hst Hc. destruct (IsOlder e ev) eqn:Ho; [|done]. apply Hh in He as Hs. rewrite <- (sv_undeleted _ _ Hs r Hr Hlr). symmetry.
      apply (deletes_older r ev e); auto; [apply Hevs, Hs|injection Hc as Ek _ _; unfold stateful in *; by rewrite Ek|by apply IsOlder_time]. }
  destruct (stateful ev && outdated (h_events h) ev) eqn:Hout; cbn [snd].
  { apply andb_true_iff in Hout as [Hst (v & Hv & Hc & Ho)%outdated_spec]. apply holds_skip. intros _. split_and!.
    - by apply stateful_not_deletion.
    - intros Hs. apply survives_snoc in Hs as (_ & _ & _ & _ & Hs). apply Hh in Hv as Hsv. destruct (Hs Hst) as [Hn _].
      specialize (Hn v (sv_saved _ _ Hsv) (sv_lasting _ _ Hsv) Hc). rewrite (IsOlder_total v ev) in Hn; [done| |done].
      intros E. apply (keyed_events _ v Hk) in Hv. rewrite E in Hv. congruence.
    - intros e He Hste Hce. rewrite (fo_one _ _ _ Hf e v He Hv Hste); congruence. }
  apply holds_stored; try done. intros e. simpl. rewrite events_put; [|by apply keyed_keep|unfold keep_events; apply map_lookup_filter_None; by left].
  by rewrite events_keep, negb_true_iff by done.
Qed.

End save.

Lemma saves_hold evs' : ∀ f h evs, file_ok D f h → holds h evs → (∀ e, e ∈ evs ++ evs' → e ∈ D) →
  file_ok D (snd (run_local (local_run1 judge) (LSave <$> evs') f)) (snd (run_local (spec_run1 judge) (LSave <$> evs') h))
  ∧ holds (snd (run_local (spec_run1 judge) (LSave <$> evs') h)) (evs ++ evs').
Proof.
  induction evs' as [|ev evs' IH]; intros f h evs Hf Hh HevsD; [by rewrite app_nil_r|]. rewrite fmap_cons. cbn [run_local].
  assert (Hev : ev ∈ D) by (apply HevsD; set_solver). destruct (local_step judge D HD Hhash (LSave ev) f h Hf Hev) as [_ Hf1].
  assert (Hh1 : holds (snd (spec_run1 judge (LSave ev) h)) (evs ++ [ev])).
  { apply (holds_save f h evs ev); try done. intros e He. apply HevsD. set_solver. }
  destruct (local_run1 judge (LSave ev) f) as [a f1], (spec_run1 judge (LSave ev) h) as [a' h1]. simpl in Hf1, Hh1.
  destruct (IH f1 h1 (evs ++ [ev]) Hf1 Hh1) as [Hf2 Hh2]; [intros e He; apply HevsD; set_solver|].
  destruct (run_local (local_run1 judge) (LSave <$> evs') f1), (run_local (spec_run1 judge) (LSave <$> evs') h1). simpl in *. by rewrite <- app_assoc in Hh2.
Qed.

(** The file after the events [evs] were saved into a new one. *)
Definition saved_file (evs : list Event) : LocalFile := snd (run_local (local_run1 judge) (LSave <$> evs) empty_file).

Lemma saved_holds evs : (∀ e, e ∈ evs → e ∈ D) → ∃ h, file_ok D (saved_file evs) h ∧ holds h evs.
Proof.
  intros Hevs. destruct (saves_hold evs empty_file new_held []) as [Hf Hh]; [by apply empty_file_ok| |done|by eexists].
  intros e. unfold events. simpl. rewrite map_to_list_empty. split; [by intros ?%elem_of_nil|]. by intros [?%elem_of_nil _ _ _].
Qed.

(** C28: for events of a domain (storable, dated after 0 and before the last
    second of 32 bits, told apart by their id pointers, with references to ids
    in lower case, none reached by a query through a truncated key or a second
    d tag), two replicas that saved the same events, in whatever order and
    however often, hold the same events with the same indexes, as long as the
    requests name replaceable and addressable events by their coordinate and
    not by an id (with an id the order of the saves matters); what they hold is what no request deletes and no newer version
    replaces. *)
Theorem replicas_converge evs evs' : (∀ e, e ∈ evs ↔ e ∈ evs') → (∀ e, e ∈ evs → e ∈ D) →
  sf_db (lf_store (saved_file evs)) = sf_db (lf_store (saved_file evs')) ∧ sf_tags (lf_store (saved_file evs)) = sf_tags (lf_store (saved_file evs'))
  ∧ lf_deletions (saved_file evs) = lf_deletions (saved_file evs')
  ∧ ∃ m, represents (sf_db (lf_store (saved_file evs))) m ∧ ∀ e, e ∈ events m ↔ survives evs e.
Proof.
  intros Hsame HevsD. destruct (saved_holds evs HevsD) as (h & [[Hr _ Ht] Hd _ _ _ _] & Hh).
  destruct (saved_holds evs') as (h' & [[Hr' _ Ht'] Hd' _ _ _ _] & Hh'); [intros e He; by apply HevsD, Hsame|].
  assert (Hs : ∀ e, survives evs e ↔ survives evs' e) by (intros e; split; intros [S1 S2 S3 S4]; split; try done; try (by apply Hsame); intros ? ?%Hsame; auto).
  assert (h_events h = h_events h') as Em.
  { apply events_ext; [by eapply represents_keyed..|]. intros e. by rewrite (Hh e), (Hh' e). }
  rewrite <- Em in *. split_and!; [by eapply represents_unique|apply set_eq; intros k; by rewrite (Ht k), (Ht' k)|apply set_eq; intros k; by rewrite (Hd k), (Hd' k)|by eexists].
Qed.

End converge.
