(* ===== verification/LocalRepair.v ===== *)
(** * Opening an older file

    A file written before the tag index, the deletion index and the handling
    of deletion requests existed is brought up to the invariant of the local
    store when it is opened: every stored request is applied while the read
    that finds them goes on, and the coordinates the event store cannot look
    up are collapsed to their latest version. *)

From Stdlib Require Import ZArith Lia Bool Ascii.
From stdpp Require Import base tactics decidable option list numbers strings gmap sorting.
From S2P Require Import Prelude Bytes Nostr EventID Bolt BoltCoord BoltCoordFacts BoltCoordProps BetterBinary BetterBinaryFacts Md5 EventStore EventStoreFacts QuickSelect EventQuery EventQueryFacts EventIndexFacts EventQueryPlan EventStoreProps Inbound TagIndex Action CoordStore LocalStore PagedFacts LocalReads LocalFacts LocalProps LocalConverge.

(** A read whose limit is not below what there is returns all of it. *)
Lemma newest_first_all F limit l : newest_first F limit l → NoDup F → Z.of_nat (length F) ≤ limit → ∀ e, e ∈ F → e ∈ l.
Proof.
  intros [N1 N2 N3 N4 N5 _] HF Hlim e He. destruct N5 as [Hfull|Hall]; [|auto].
  assert (l ≡ₚ F) as ->; [|done]. apply submseteq_length_Permutation; [by apply NoDup_submseteq|lia].
Qed.

(** Batches that are never interrupted write every key, then the marker. *)
Lemma put_loop_all {S} (put : string → S → S) (fin : option (S → S)) batch keys : ∀ look pending db,
  put_loop put ((λ g s, Ok (g s)) <$> fin) background batch look pending keys db
  = (None, default id fin (foldl (λ db key, put key db) db (pending ++ keys))).
Proof.
  induction keys as [|k keys IH]; intros look pending db; cbn [put_loop background].
  - unfold flush. rewrite app_nil_r. by destruct fin.
  - destruct (batch <=? _).
    + unfold flush. simpl. destruct fin; simpl in *; rewrite IH; by rewrite <- !foldl_app, <- app_assoc.
    + rewrite IH. by rewrite <- app_assoc.
Qed.

(** What is written when a context stops the batches. *)
Lemma put_loop_cut {S} (put : string → S → S) (fin : option (S → S)) ctx batch keys : ∀ look pending db err db',
  put_loop put ((λ g s, Ok (g s)) <$> fin) ctx batch look pending keys db = (err, db') →
  ∃ written rest, pending ++ keys = written ++ rest ∧
    match err with
    | None => rest = [] ∧ db' = default id fin (foldl (λ db key, put key db) db written)
    | Some _ => db' = foldl (λ db key, put key db) db written
    end.
Proof.
  induction keys as [|k keys IH]; intros look pending db err db'; cbn [put_loop].
  - destruct (ctx look); [intros [= <- <-]; by exists [], (pending ++ [])|]. unfold flush. rewrite app_nil_r.
    destruct fin; simpl; intros [= <- <-]; exists pending, []; by rewrite app_nil_r.
  - destruct (ctx look); [intros [= <- <-]; by exists [], (pending ++ k :: keys)|]. destruct (batch <=? _).
    + unfold flush. intros (w & r & Ew & Hw)%IH. exists (pending ++ k :: w), r. simpl in Ew. rewrite Ew, foldl_app. cbn [foldl].
      rewrite foldl_app in Hw. split; [by rewrite <- app_assoc|exact Hw].
    + intros (w & r & Ew & Hw)%IH. exists w, r. by rewrite <- Ew, <- app_assoc.
Qed.

(** ** The collapse *)

(** A version the event store cannot look up by its d. *)
Definition loose (e : Event) : bool := IsAddressable (ev_Kind e) && negb (dIndexed (CoordinateOf e)).

(** A newer version of it is in [l]. *)
Definition superseded (l : list Event) (e : Event) : Prop :=
  loose e = true ∧ ∃ v, v ∈ l ∧ CoordinateOf v = CoordinateOf e ∧ IsOlder e v = true.

(** The table of the loop: the newest version of each coordinate seen. *)
Definition tabled (seen : list Event) (latest : list (Coordinate * Event)) : Prop := ∀ c,
  match lookup_latest c latest with
  | None => ∀ x, x ∈ seen → loose x = true → CoordinateOf x ≠ c
  | Some v => ∃ x, x ∈ seen ∧ loose x = true ∧ CoordinateOf x = c ∧ v = version_of_event x
      ∧ ∀ y, y ∈ seen → loose y = true → CoordinateOf y = c → y = x ∨ IsOlder y x = true
  end.

Lemma loose_coordinate e v : CoordinateOf v = CoordinateOf e → loose v = loose e.
Proof. intros E. unfold loose. rewrite E. by injection E as -> _ _. Qed.

(** A version in [seen] that is superseded in it. *)
Definition gone (seen : list Event) (e : Event) : Prop := e ∈ seen ∧ superseded seen e.

Lemma superseded_snoc seen ev e : superseded (seen ++ [ev]) e ↔
  superseded seen e ∨ loose e = true ∧ CoordinateOf ev = CoordinateOf e ∧ IsOlder e ev = true.
Proof.
  unfold superseded. split.
  - intros (Hl & v & [Hv| ->%list_elem_of_singleton]%elem_of_app & Hc & Ho); [left; eauto|by right].
  - intros [(Hl & v & Hv & Hc & Ho)|(Hl & Hc & Ho)]; (split; [done|]); [exists v|exists ev]; (split; [apply elem_of_app|done]); [by left|right; left].
Qed.

Lemma older_self e : IsOlder e e = false.
Proof. destruct (IsOlder e e) eqn:E; [|done]. by rewrite (IsOlder_asym e e E) in E. Qed.

(** A version of a coordinate not seen before supersedes nothing. *)
Lemma gone_apart seen ev : (∀ x, x ∈ seen → loose x = true → CoordinateOf x = CoordinateOf ev → False) ∨ loose ev = false →
  ∀ e, gone (seen ++ [ev]) e ↔ gone seen e.
Proof.
  intros Hap e. unfold gone. rewrite superseded_snoc, elem_of_app, list_elem_of_singleton. split; [|naive_solver]. intros [Hin [Hs|(Hl & Hc & Ho)]].
  - destruct Hin as [?| ->]; [done|]. destruct Hs as (Hl & v & Hv & Hc & Ho). destruct Hap as [Hap|?]; [|congruence]. destruct (Hap v Hv); [|done].
    by rewrite (loose_coordinate ev v).
  - pose proof (loose_coordinate e ev Hc). destruct Hin as [Hin| ->]; [|by rewrite older_self in Ho]. destruct Hap as [Hap|?]; [|congruence]. by destruct (Hap e Hin Hl).
Qed.

Lemma tabled_apart seen latest ev : tabled seen latest → loose ev = false → tabled (seen ++ [ev]) latest.
Proof.
  intros Ht Hl c. specialize (Ht c). destruct (lookup_latest c latest) as [v|].
  - destruct Ht as (x & Hx & Hlx & Hcx & -> & Hmax). exists x. split_and!; try done; [apply elem_of_app; by left|].
    intros y [Hy| ->%list_elem_of_singleton]%elem_of_app; [auto|congruence].
  - intros x [Hx| ->%list_elem_of_singleton]%elem_of_app; [auto|congruence].
Qed.

Lemma tabled_newest seen latest ev : tabled seen latest → loose ev = true →
  (∀ y, y ∈ seen → loose y = true → CoordinateOf y = CoordinateOf ev → IsOlder y ev = true) →
  tabled (seen ++ [ev]) ((CoordinateOf ev, version_of_event ev) :: latest).
Proof.
  intros Ht Hl Hnew c. cbn [lookup_latest]. destruct (decide (CoordinateOf ev = c)) as [<-|Hn].
  - exists ev. split_and!; try done; [apply elem_of_app; right; left|]. intros y [Hy| ->%list_elem_of_singleton]%elem_of_app; [right; auto|by left].
  - specialize (Ht c). destruct (lookup_latest c latest) as [v|].
    + destruct Ht as (x & Hx & Hlx & Hcx & -> & Hmax). exists x. split_and!; try done; [apply elem_of_app; by left|].
      intros y [Hy| ->%list_elem_of_singleton]%elem_of_app; [auto|congruence].
    + intros x [Hx| ->%list_elem_of_singleton]%elem_of_app; [auto|congruence].
Qed.

Lemma tabled_older seen latest ev x : tabled seen latest → lookup_latest (CoordinateOf ev) latest = Some (version_of_event x) →
  x ∈ seen → loose x = true → CoordinateOf x = CoordinateOf ev → IsOlder ev x = true →
  (∀ y, y ∈ seen → loose y = true → CoordinateOf y = CoordinateOf ev → y = x ∨ IsOlder y x = true) → tabled (seen ++ [ev]) latest.
Proof.
  intros Ht Elk Hx Hlx Hcx Ho Hmax c. destruct (decide (CoordinateOf ev = c)) as [<-|Hn].
  - rewrite Elk. exists x. split_and!; try done; [apply elem_of_app; by left|]. intros y [Hy| ->%list_elem_of_singleton]%elem_of_app; [auto|by right].
  - specialize (Ht c). destruct (lookup_latest c latest) as [v|].
    + destruct Ht as (x' & Hx' & Hlx' & Hcx' & -> & Hmax'). exists x'. split_and!; try done; [apply elem_of_app; by left|].
      intros y [Hy| ->%list_elem_of_singleton]%elem_of_app; [auto|congruence].
    + intros x' [Hx'| ->%list_elem_of_singleton]%elem_of_app; [auto|congruence].
Qed.

(** A newer version supersedes the newest seen so far. *)
Lemma gone_newer seen ev x : x ∈ seen → loose x = true → CoordinateOf x = CoordinateOf ev → IsOlder x ev = true →
  (∀ y, y ∈ seen → loose y = true → CoordinateOf y = CoordinateOf ev → y = x ∨ IsOlder y x = true) →
  ∀ e, gone (seen ++ [ev]) e ↔ gone seen e ∨ e = x.
Proof.
  intros Hx Hlx Hcx Ho Hmax e. unfold gone. rewrite superseded_snoc, elem_of_app, list_elem_of_singleton. split.
  - intros [Hin [Hs|(Hl & Hc & Hoe)]].
    + destruct Hin as [?| ->]; [by left|]. destruct Hs as (Hl & w & Hw & Hcw & How). exfalso.
      assert (IsOlder ev x = true) by (destruct (Hmax w Hw) as [->|?]; [by rewrite (loose_coordinate ev w Hcw)|done|done|by eapply IsOlder_trans]).
      by rewrite (IsOlder_asym x ev) in *.
    + destruct Hin as [Hin| ->]; [|by rewrite older_self in Hoe]. destruct (Hmax e Hin Hl) as [->|Hex]; [done|by right|]. left. split; [done|].
      split; [done|]. exists x. split_and!; [done|congruence|done].
  - intros [[? ?]| ->]; [tauto|]. split; [by left|right]. done.
Qed.

(** An older version is superseded by what has been seen. *)
Lemma gone_older seen ev x : x ∈ seen → loose ev = true → CoordinateOf x = CoordinateOf ev → IsOlder ev x = true →
  ∀ e, gone (seen ++ [ev]) e ↔ gone seen e ∨ e = ev.
Proof.
  intros Hx Hl Hcx Ho e. unfold gone. rewrite superseded_snoc, elem_of_app, list_elem_of_singleton. split.
  - intros [[Hin| ->] Hs]; [|by right]. left. split; [done|]. destruct Hs as [?|(Hle & Hc & Hoe)]; [done|]. split; [done|].
    exists x. split_and!; [done|congruence|by eapply IsOlder_trans].
  - intros [[? ?]| ->]; [tauto|]. split; [by right|left]. split; [done|]. by exists x.
Qed.

Section collapse.
Context (full : list Event).
Hypothesis Hids : ∀ e e', e ∈ full → e' ∈ full → ev_ID e = ev_ID e' → e = e'.

Definition left_over (seen : list Event) (ids : list string) : Prop :=
  ∀ id, id ∈ ids ↔ ∃ e, ev_ID e = id ∧ gone full e ∧ ¬ gone seen e.

Lemma left_over_same seen seen' ids : (∀ e, gone seen' e ↔ gone seen e) → left_over seen' ids → left_over seen ids.
Proof. intros Hs Hl id. rewrite (Hl id). by setoid_rewrite Hs. Qed.

Lemma left_over_cons seen seen' z ids : gone full z → ¬ gone seen z → (∀ e, gone seen' e ↔ gone seen e ∨ e = z) →
  left_over seen' ids → left_over seen (ev_ID z :: ids).
Proof.
  intros Hz Hnz Hs Hl id. rewrite elem_of_cons, (Hl id). split.
  - intros [->|(e & <- & He & Hn)]; [by exists z|]. exists e. split_and!; try done. intros Hg. by apply Hn, Hs; left.
  - intros (e & <- & He & Hn). destruct (decide (ev_ID e = ev_ID z)) as [->|Hne]; [by left|right]. exists e. split_and!; try done.
    intros [?| ->]%Hs; done.
Qed.

Lemma collapse_spec es : ∀ look seen latest, seen ++ es = full → NoDup full → tabled seen latest →
  ∃ ids, collapse_loop background look es latest = Ok ids ∧ left_over seen ids.
Proof.
  induction es as [|ev es IH]; intros look seen latest Hfull Hnd Ht; cbn [collapse_loop background].
  { exists []. split; [done|]. intros id. rewrite app_nil_r in Hfull. split; [by intros ?%elem_of_nil|]. rewrite Hfull. by intros (e & _ & ? & ?). }
  assert (Hfull' : (seen ++ [ev]) ++ es = full) by by rewrite <- app_assoc.
  assert (Hev : ev ∈ full) by (rewrite <- Hfull; apply elem_of_app; right; left). assert (Hseen : ∀ x, x ∈ seen → x ∈ full) by (rewrite <- Hfull; intros x ?; apply elem_of_app; by left).
  assert (Hnew : ev ∉ seen) by (rewrite <- Hfull in Hnd; apply NoDup_app in Hnd as (_ & Hd & _); intros ?; by eapply (Hd ev); [|left]).
  assert (Hgo : ∀ x y, x ∈ full → y ∈ full → loose x = true → CoordinateOf y = CoordinateOf x → IsOlder x y = true → gone full x) by (intros x y ? ? ? ? ?; split; [done|]; split; eauto).
  assert (El : negb (IsAddressable (ev_Kind ev)) || dIndexed (CoordinateOf ev) = negb (loose ev)) by (unfold loose; by rewrite negb_andb, negb_involutive).
  rewrite El. destruct (loose ev) eqn:Hl; cbn [negb].
  2: { destruct (IH (S look) (seen ++ [ev]) latest Hfull' Hnd) as (ids & -> & Hids'); [by apply tabled_apart|]. exists ids. split; [done|].
       eapply left_over_same; [|done]. intros e. apply gone_apart. by right. }
  pose proof (Ht (CoordinateOf ev)) as Htc. destruct (lookup_latest (CoordinateOf ev) latest) as [v|] eqn:Elk.
  2: { destruct (IH (S look) (seen ++ [ev]) ((CoordinateOf ev, version_of_event ev) :: latest) Hfull' Hnd) as (ids & -> & Hids').
       { apply tabled_newest; [done|done|]. intros y Hy Hly Hc. by destruct (Htc y Hy Hly). }
       exists ids. split; [done|]. eapply left_over_same; [|done]. intros e. apply gone_apart. left. intros x Hx Hlx Hc. by destruct (Htc x Hx Hlx). }
  destruct Htc as (x & Hx & Hlx & Hcx & -> & Hmax). change (IsOlder (version_of_event x) (version_of_event ev)) with (IsOlder x ev).
  destruct (IsOlder x ev) eqn:Ho.
  - destruct (IH (S look) (seen ++ [ev]) ((CoordinateOf ev, version_of_event ev) :: latest) Hfull' Hnd) as (ids & -> & Hids').
    { apply tabled_newest; [done|done|]. intros y Hy Hly Hc. destruct (Hmax y Hy Hly Hc) as [->|?]; [done|by eapply IsOlder_trans]. }
    exists (ev_ID x :: ids). split; [done|]. apply (left_over_cons seen (seen ++ [ev]) x); [by eapply Hgo; [auto|exact Hev|..]|..|done].
    + intros [_ (_ & w & Hw & Hcw & How)]. destruct (Hmax w Hw) as [->|Hwx]; [by rewrite (loose_coordinate x w Hcw)|congruence|by rewrite older_self in How|].
      by rewrite (IsOlder_asym _ _ How) in Hwx.
    + by apply gone_newer.
  - assert (Hox : IsOlder ev x = true) by (apply IsOlder_total; [|done]; intros E; apply Hnew; rewrite <- (Hids x ev); auto).
    destruct (IH (S look) (seen ++ [ev]) latest Hfull' Hnd) as (ids & -> & Hids'); [by eapply tabled_older|].
    exists (ev_ID ev :: ids). split; [done|]. apply (left_over_cons seen (seen ++ [ev]) ev); [apply (Hgo ev x); auto|by intros [? _]|by apply (gone_older seen ev x)|done].
Qed.
End collapse.

Section repair.
Context `{NostrLaws} `{StorePrims} `{!StorePrimsLaws} `{QueryEnv} `{!QueryEnvLaws} `{LocalPrims} (D : list Event).
Hypothesis HD : domain D.
Hypothesis Hhash : ∀ c, coordinate_of D c → hashed c.

(** ** Events of one kind *)

Lemma be16_inj a b : 0 ≤ a < 65536 → 0 ≤ b < 65536 → be16 a = be16 b → a = b.
Proof.
  intros Ha Hb E. unfold be16 in E. apply (f_equal be_decode) in E. unfold be_decode in E. rewrite !be_decode_aux_be in E.
  change (256 ^ Z.of_nat 2) with 65536 in E. rewrite !Z.mod_small in E by done. lia.
Qed.

Lemma tag_query_bucket name value : fst (tag_query name value) ≠ indexKind.
Proof.
  unfold tag_query, getTagIndexPrefix. destruct (tag32_key _ _); [done|]. by destruct (addr_key _ _).
Qed.

Lemma kind_hits k e : e ∈ D → 0 ≤ k < 65536 → hits (kind_filter [k]) e = true ↔ ev_Kind e = k.
Proof.
  intros He Hk. pose proof (do_storable D HD e He) as [Hsz Hek _ Hf _]. assert (Hek' : 0 ≤ ev_Kind e < 65536).
  { unfold fits in Hf. rewrite !andb_true_iff, !Z.leb_le in Hf. unfold MaxKind in Hf. lia. }
  unfold hits. rewrite prepare_none by done. unfold pubkey_plan. destruct (ChooseNarrowestTag _ _ _) as [[tk tv] g] eqn:Ec. cbn [fi_Authors fi_Kinds kind_filter].
  assert (tv = None) as ->.
  { unfold ChooseNarrowestTag in Ec. assert (visit 2 (fi_Tags (kind_filter [k])) = []) as Ev.
    { apply Permutation_nil_r. rewrite visit_perm. cbn [fi_Tags kind_filter]. by rewrite map_to_list_empty. }
    rewrite Ev in Ec. simpl in Ec. congruence. }
  unfold extra_ok. simpl. rewrite orb_false_r, bool_decide_eq_true. split; [|intros <-; unfold getIndexKeysForEvent; set_solver].
  unfold getIndexKeysForEvent. rewrite !elem_of_app, !elem_of_cons, !elem_of_nil. intros [[?|[E|[?|[]]]]|[Ht|[?|[]]]]; try done.
  - apply (f_equal snd) in E. cbn [snd] in E. unfold key_of_event in E. apply app_string_inj in E as [E _]; [|done]. symmetry. by apply be16_inj.
  - apply tag_index_keys_elem in Ht as (n & v & r & p & _ & _ & Hq & _). destruct (tag_query_bucket n v). by rewrite Hq.
Qed.

Lemma found_kind db m k e : represents db m → (∀ e, e ∈ events m → e ∈ D) → 0 ≤ k < 65536 → e ∈ found m (kind_filter [k]) ↔ e ∈ events m ∧ ev_Kind e = k.
Proof.
  intros Hr Hsub Hk. rewrite found_hits. split.
  - intros (He & Hh & _). split; [done|]. apply kind_hits in Hh; auto.
  - intros [He Ek]. split_and!; [done|apply kind_hits; auto|..]; pose proof (do_time D HD e (Hsub e He)); unfold query_since, query_until; simpl; lia.
Qed.

Lemma kind_query k : length (pq_queries (prepareQueries (kind_filter [k]))) = 1%nat.
Proof. rewrite prepare_none by done. unfold pubkey_plan. by destruct (ChooseNarrowestTag _ _ _) as [[? ?] ?]. Qed.

Lemma kind_readable db m k limit : represents db m → (∀ e, e ∈ events m → e ∈ D) → readable m (with_limit limit (kind_filter [k])).
Proof.
  intros Hr Hsub. apply (domain_readable D HD db); [done|done| |done|done|apply kind_query]. split; simpl; [constructor|apply map_Forall_empty].
Qed.

(** ** Applying the stored requests *)

(** The requests in [l] have been applied to the events [m]. *)
Definition applied (m : gmap string Event) (settings : gmap string string) (l : list Event) (s : StoreFile) : Prop :=
  ∃ m1, store_ok D s m1 ∧ sf_settings s = settings ∧ one_indexed m1 ∧ ∀ e, e ∈ events m1 ↔ e ∈ events m ∧ ∀ r, r ∈ l → deletes r e = false.

Lemma request_kept r e : ev_Kind e = KindDeletion → deletes r e = false.
Proof. intros Hk. unfold deletes. rewrite Hk. simpl. by rewrite andb_false_r. Qed.

Lemma apply_each s m : store_ok D s m → one_indexed m →
  ∃ s', paged_each (kind_filter [KindDeletion]) unbounded (λ request, do! _ := ApplyDeletion scan background request in act_ret tt) s = (Ok tt, s')
    ∧ applied m (sf_settings s) (requests m) s'.
Proof.
  intros Hs Hone. pose proof (so_rep _ _ _ Hs) as Hr. pose proof (so_dom _ _ _ Hs) as Hdom. pose proof (represents_keyed _ _ Hr) as Hk.
  set (F := requests m). assert (HF : ∀ e, e ∈ F ↔ e ∈ events m ∧ ev_Kind e = KindDeletion) by (intros e; unfold F, requests; rewrite list_elem_of_filter; tauto).
  assert (HFnd : NoDup F) by (by apply NoDup_filter, NoDup_keyed_events). assert (HFD : (length F ≤ length D)%nat).
  { apply submseteq_length, NoDup_submseteq; [done|]. intros e [He _]%HF. auto. }
  pose proof (do_few D HD) as Hfew.
  set (body := λ request : Event, do! _ := ApplyDeletion scan background request in act_ret tt).
  set (yield := λ ev (st : option StoreFault * StoreFile), match body ev (snd st) with (Ok _, f) => (true, (None, f)) | (Err e, f) => (false, (Some e, f)) end).
  assert (Hyps : paged_hyps (λ st : option StoreFault * StoreFile, sf_db (snd st)) yield (with_limit 0 (kind_filter [KindDeletion])) F (length F)
    (λ l st, fst st = None ∧ (∀ e, e ∈ l → e ∈ F) ∧ applied m (sf_settings s) l (snd st)) (λ _, False)).
  { split; try done.
    - intros l st (_ & Hl & m1 & Hs1 & _ & _ & Hm1). exists m1. split; [apply Hs1|]. assert (Hf : ∀ e, e ∈ found m1 (kind_filter [KindDeletion]) ↔ e ∈ F).
      { intros e. rewrite (found_kind (sf_db (snd st)) m1), Hm1, HF; [|apply Hs1|apply Hs1|done]. split; [tauto|]. intros [He Ek]. split_and!; try done. intros r _. by apply request_kept. }
      split; [done|]. change (found m1 (with_limit 0 (kind_filter [KindDeletion]))) with (found m1 (kind_filter [KindDeletion])).
      apply submseteq_length, NoDup_submseteq; [apply (found_single (sf_db (snd st))); [apply Hs1|apply kind_query]|]. by intros e ?%Hf.
    - unfold unbounded, max_i64, two63 in *. lia.
    - intros e [He _]%HF. by apply (do_time D HD), Hdom.
    - intros e e' [He _]%HF [He' _]%HF. by apply (represents_ids (sf_db s) m).
    - intros l [o s1] e (Ho & Hl & m1 & Hs1 & Hset & Hone1 & Hm1) [He Ek]%HF Hn. simpl in *. unfold yield, body, act_bind. simpl.
      destruct (ApplyDeletion_ok D HD s1 m1 e Hs1 (Hdom e He) Hone1 Ek) as (n & s2 & dl & -> & Hs2 & Hset2 & Hdl). simpl. split_and!; [done| |].
      + intros x [Hx| ->%list_elem_of_singleton]%elem_of_app; [auto|]. by apply HF.
      + assert (Hm2 : ∀ x, x ∈ events (remove_all dl m1) ↔ x ∈ events m1 ∧ deletes e x = false).
        { intros x. rewrite (events_remove_all D HD); [|apply (represents_keyed _ _ (so_rep _ _ _ Hs1))|apply Hs1|by intros y [? _]%Hdl; apply Hs1].
          rewrite Hdl. destruct (deletes e x); naive_solver. }
        exists (remove_all dl m1). split_and!; [done|congruence|intros x x' [Hx _]%Hm2 [Hx' _]%Hm2; by apply Hone1|].
        intros x. rewrite Hm2, Hm1. setoid_rewrite elem_of_app. setoid_rewrite list_elem_of_singleton. naive_solver. }
  destruct (paged_loop_spec _ _ _ _ _ unbounded _ _ Hyps (paged_fuel (sf_db s) (kind_filter [KindDeletion])) (with_limit 0 (kind_filter [KindDeletion])) queryPageSize []
    (mkPaged ∅ unbounded 0 (None, s))) as ([o s'] & E & [[]|(l & Hl & Ho & _ & Happ)]).
  - split; simpl; [|by intros e ?%elem_of_nil|constructor|constructor|set_solver|lia]. split_and!; [done|by intros e ?%elem_of_nil|].
    exists m. split_and!; try done. intros e. split; [|tauto]. intros He. split; [done|]. by intros r ?%elem_of_nil.
  - done.
  - done.
  - by left.
  - by intros e x _ _ ?%elem_of_nil.
  - unfold paged_fuel. rewrite (size_raw _ m Hr), kind_query.
    assert (Hsize : length (events m) = size m) by (unfold events; by rewrite length_fmap, length_map_to_list).
    assert ((length F ≤ size m)%nat) by (rewrite <- Hsize; apply submseteq_length, NoDup_submseteq; [done|]; by intros e [? _]%HF).
    pose proof (length_filter (λ e, e ∉ []) F) as Hun. unfold unseen. lia.
  - cbn [fst snd] in Ho, Happ. subst o. exists s'. split.
    + unfold paged_each, paged. fold body. fold yield. change (if 0 <? unbounded then unbounded else max_i64) with unbounded. cbn [snd]. by rewrite E.
    + destruct Happ as (m1 & Hs1 & Hset & Hone1 & Hm1). exists m1. split_and!; try done. intros e. rewrite Hm1. pose proof (newest_first_all F unbounded l Hl HFnd) as Hall.
      destruct Hl as [Hin _ _ _ _ _]. split; intros [He Hd]; (split; [done|]); intros r Hr'; apply Hd; [apply Hall; [lia|done]|auto].
Qed.

(** ** Removing the superseded versions *)

Lemma deleteID_ok s m e : store_ok D s m → e ∈ D →
  ∃ s', deleteID (ev_ID e) s = (Ok tt, s') ∧ store_ok D s' (delete (idPtr (ev_ID e)) m) ∧ sf_settings s' = sf_settings s.
Proof.
  intros Hs He. unfold deleteID. rewrite (queryByIds_represents _ m) by apply Hs. cbn [omap list_omap].
  destruct (m !! idPtr (ev_ID e)) as [x|] eqn:Ex; cbn [List.find].
  - assert (x = e) as ->.
    { pose proof (represents_keyed _ _ (so_rep _ _ _ Hs)) as Hk. apply (do_ptr D HD); [|done|by apply Hk]. apply (so_dom _ _ _ Hs), (keyed_events m x Hk). by rewrite (Hk _ _ Ex). }
    rewrite String.eqb_refl. by apply Store_Delete_ok.
  - exists s. split_and!; [done| |done]. by rewrite delete_id.
Qed.

Lemma deleteIDs_ok ids : ∀ s m, store_ok D s m → (∀ id, id ∈ ids → ∃ e, ev_ID e = id ∧ e ∈ D) →
  ∃ s' l, act_each deleteID ids s = (Ok tt, s') ∧ store_ok D s' (remove_all l m) ∧ sf_settings s' = sf_settings s ∧ ∀ e, e ∈ l ↔ e ∈ D ∧ ev_ID e ∈ ids.
Proof.
  induction ids as [|id ids IH]; intros s m Hs Hl.
  { exists s, []. split_and!; try done. intros e. split; [by intros ?%elem_of_nil|by intros [_ ?%elem_of_nil]]. }
  cbn [act_each]. unfold act_bind. destruct (Hl id) as (e & <- & He); [left|].
  destruct (deleteID_ok s m e Hs He) as (s1 & -> & Hs1 & E1).
  destruct (IH s1 _ Hs1) as (s2 & l & -> & Hs2 & E2 & Hin); [by intros; apply Hl; right|]. exists s2, (e :: l). split_and!; [done|done|congruence|].
  intros x. rewrite !elem_of_cons, Hin. split; [intros [->|[? ?]]; auto|]. intros [Hx [E|?]]; [|auto]. left. apply (do_ptr D HD); [done|done|by rewrite E].
Qed.

Lemma any_ids s m : represents (sf_db s) m → (∀ e, e ∈ events m → e ∈ D) →
  ∃ l, scan s any_filter unbounded = Ok l ∧ (∀ e, e ∈ l ↔ e ∈ events m) ∧ NoDup l.
Proof.
  intros Hr Hdom. destruct (any_spec D HD s m 0 unbounded Hr Hdom) as (l & E & Hl & Hnd & _); [done|by right|]. exists l. split_and!; [exact E| |done].
  intros e. rewrite Hl. unfold in_time. naive_solver.
Qed.

Lemma collapse_ok s m : store_ok D s m →
  ∃ s' m', collapseVersions scan background s = (Ok tt, s') ∧ store_ok D s' m' ∧ sf_settings s' = sf_settings s
    ∧ ∀ e, e ∈ events m' ↔ e ∈ events m ∧ ¬ superseded (events m) e.
Proof.
  intros Hs. pose proof (so_rep _ _ _ Hs) as Hr. pose proof (so_dom _ _ _ Hs) as Hdom. unfold collapseVersions, act_bind, act_read.
  destruct (any_ids s m Hr Hdom) as (l & -> & Hl & Hnd). cbn [lift_query result_bind].
  assert (Hids : ∀ e e', e ∈ l → e' ∈ l → ev_ID e = ev_ID e' → e = e') by (intros e e' He%Hl He'%Hl; by apply (represents_ids (sf_db s) m)).
  destruct (collapse_spec l Hids l 0 [] []) as (ids & -> & Hlo); [done|done|by intros c x ?%elem_of_nil|].
  assert (Hgone : ∀ e, gone l e ↔ e ∈ events m ∧ superseded (events m) e) by (intros e; unfold gone, superseded; rewrite Hl; by setoid_rewrite Hl).
  assert (Hid : ∀ id, id ∈ ids ↔ ∃ e, ev_ID e = id ∧ gone l e).
  { intros id. rewrite (Hlo id). split; [intros (e & ? & ? & _); eauto|]. intros (e & ? & ?). exists e. split_and!; try done. by intros [?%elem_of_nil _]. }
  destruct (deleteIDs_ok ids s m Hs) as (s' & dl & -> & Hs' & Eset & Hdl).
  { intros id (e & E & [He _]%Hgone)%Hid. exists e. auto. }
  exists s', (remove_all dl m). split_and!; try done. intros e. rewrite (events_remove_all D HD); [|by eapply represents_keyed|done|by intros x [? _]%Hdl].
  rewrite Hdl, Hid. split; (intros [He Hn]; split; [done|]; intros Hx; apply Hn).
  - split; [auto|]. exists e. split; [done|]. by apply Hgone.
  - destruct Hx as (_ & x & Ex & [Hx Hsup]%Hgone). by rewrite <- (represents_ids (sf_db s) m x e Hr Hx He Ex).
Qed.

(** ** Opening *)

(** A file that may lack entries of either index, may hold what its requests
    delete, and may hold several versions of a coordinate the event store
    cannot look up. *)
Record older_file (f : LocalFile) (m : gmap string Event) : Prop := {
  of_rep : represents (sf_db (lf_store f)) m;
  of_dom e : e ∈ events m → e ∈ D;
  of_tags k : k ∈ sf_tags (lf_store f) → ∃ e, e ∈ events m ∧ k ∈ tagKeys e;
  of_tagged : Marker_Done tagIndexMarker (sf_settings (lf_store f)) = true → tags_exact (sf_tags (lf_store f)) m;
  of_deletions k : k ∈ lf_deletions f → ∃ r, r ∈ requests m ∧ k ∈ deletionKeys r;
  of_one : one_indexed m;
  of_checkpoints id e : id ∈ lf_accepted f → e ∈ D → ev_ID e = id → assistantCheckpointEvent e = true;
  of_unrepaired : Marker_Done coordinateRepairMarker (sf_settings (lf_store f)) = false;
}.

(** What a repair keeps. *)
Definition kept_by_repair (m : gmap string Event) (e : Event) : Prop :=
  e ∈ events m ∧ (∀ r, r ∈ events m → deletes r e = false)
  ∧ ∀ v, v ∈ events m → (∀ r, r ∈ events m → deletes r v = false) → stateful e = true → CoordinateOf v = CoordinateOf e → IsOlder e v = false.

Lemma put_tags keys : ∀ s, foldl (λ s key, put_tag key s) s keys = mkStoreFile (sf_db s) (list_to_set keys ∪ sf_tags s) (sf_settings s).
Proof.
  induction keys as [|k keys IH]; intros [db tags st]; simpl; [f_equal; set_solver|]. rewrite IH. simpl. f_equal. set_solver.
Qed.

Lemma put_deletions keys : ∀ f, foldl (λ f key, set_deletions ({[ key ]} ∪ lf_deletions f) f) f keys = set_deletions (list_to_set keys ∪ lf_deletions f) f.
Proof.
  induction keys as [|k keys IH]; intros f; simpl; [destruct f; unfold set_deletions; simpl; f_equal; set_solver|]. rewrite IH.
  destruct f; unfold set_deletions; simpl. f_equal. set_solver.
Qed.

Lemma elem_of_keys (g : Event → list string) l k : k ∈ l ≫= g ↔ ∃ e, e ∈ l ∧ k ∈ g e.
Proof. rewrite list_elem_of_bind. naive_solver. Qed.

Lemma BuildTagIndex_ok f m : older_file f m →
  ∃ s', BuildTagIndex (λ f filter limit, pagedQuery (sf_db f) filter limit) background tagIndexMarker queryPageSize (lf_store f) = (Ok tt, s')
    ∧ store_ok D s' m ∧ Marker_Done coordinateRepairMarker (sf_settings s') = false ∧ Marker_Done tagIndexMarker (sf_settings s') = true.
Proof.
  intros [Hr Hdom Ht Htd _ _ _ Hun]. unfold BuildTagIndex. destruct (Marker_Done tagIndexMarker _) eqn:Em; [by exists (lf_store f); split_and!; [|split; auto|..]|].
  destruct (any_ids (lf_store f) m Hr Hdom) as (l & E & Hl & _). rewrite scan_plain in E by (split_and!; [done..|by apply unindexed_empty]).
  change (pagedQuery (sf_db (lf_store f)) (with_limit unbounded any_filter) unbounded) with (pagedQuery (sf_db (lf_store f)) any_filter unbounded) in E.
  rewrite E. unfold putBatched. rewrite (put_loop_all put_tag (Some (set_store_marker tagIndexMarker))). simpl. rewrite put_tags.
  eexists. split; [done|]. unfold set_store_marker, Marker_Done, Marker_Set in *. simpl. split_and!; [split; simpl; [done|done|]|by rewrite lookup_insert_ne|by rewrite lookup_insert].
  intros k. rewrite elem_of_union, elem_of_list_to_set, elem_of_keys. setoid_rewrite Hl. split; [intros [?|?]; auto|by left].
Qed.

(** ** The stored requests *)

Lemma requests_found s m : store_ok D s m → ∃ l, Store_QueryEvents s (kind_filter [KindDeletion]) = Ok l ∧ ∀ e, e ∈ l ↔ e ∈ requests m.
Proof.
  intros Hs. pose proof (so_rep _ _ _ Hs) as Hr. pose proof (so_dom _ _ _ Hs) as Hdom.
  change (Store_QueryEvents s (kind_filter [KindDeletion])) with (scan s (kind_filter [KindDeletion]) 0). rewrite scan_plain by (split_and!; [done..|by apply unindexed_empty]).
  destruct (pagedQuery_all D HD (sf_db s) m (with_limit 0 (kind_filter [KindDeletion])) 0 Hr Hdom) as (l & -> & Hl & _);
    [by eapply kind_readable|done|by left|].
  exists l. split; [done|]. intros e. rewrite Hl. change (found m (with_limit 0 (kind_filter [KindDeletion]))) with (found m (kind_filter [KindDeletion])).
  rewrite (found_kind (sf_db s) m) by done. unfold requests. rewrite list_elem_of_filter. tauto.
Qed.

Lemma deletes_requests m e : (∀ r, r ∈ requests m → deletes r e = false) ↔ ∀ r, r ∈ events m → deletes r e = false.
Proof.
  unfold requests. split; intros Hd r; [|intros [_ ?]%list_elem_of_filter; auto]. intros Hr. destruct (deletes r e) eqn:E; [|done]. rewrite <- E.
  apply Hd, list_elem_of_filter. split; [|done]. unfold deletes in E. rewrite !andb_true_iff in E. apply Z.eqb_eq, E.
Qed.

(** Undeleted, and the latest where the event store does not see to it. *)
Lemma kept_collapsed m m1 e : one_indexed m → (∀ e, e ∈ events m1 ↔ e ∈ events m ∧ ∀ r, r ∈ requests m → deletes r e = false) →
  kept_by_repair m e ↔ e ∈ events m1 ∧ ¬ superseded (events m1) e.
Proof.
  intros Hone Hm1. unfold kept_by_repair, superseded. rewrite Hm1, deletes_requests. setoid_rewrite Hm1. setoid_rewrite deletes_requests. split.
  - intros (He & Hd & Hnew). split; [done|]. intros (Hl & v & [Hv Hdv] & Hc & Ho). rewrite (Hnew v Hv Hdv) in Ho; [done| |done].
    unfold loose in Hl. unfold stateful. apply andb_true_iff in Hl as [-> _]. apply orb_true_r.
  - intros [[He Hd] Hn]. split_and!; try done. intros v Hv Hdv Hst Hc. destruct (IsOlder e v) eqn:Ho; [|done]. destruct Hn. split; [|eauto].
    unfold loose. destruct (dIndexed (CoordinateOf e)) eqn:Hdi.
    + rewrite (Hone e v He Hv Hst Hdi) in Ho by done. by rewrite older_self in Ho.
    + unfold dIndexed in Hdi. apply orb_false_iff in Hdi as [Hdi _]. apply negb_false_iff in Hdi. simpl in Hdi. by rewrite Hdi.
Qed.

Lemma kept_one m m' : keyed m → one_indexed m → (∀ e, e ∈ events m' ↔ kept_by_repair m e) → one_version m' ∧ undeleted m'.
Proof.
  intros Hk Hone Hm'. split.
  - intros e e' (He & Hd & Hn)%Hm' (He' & Hd' & Hn')%Hm' Hst Hc. assert (Hst' : stateful e' = true) by (injection Hc as Ek _ _; unfold stateful in *; by rewrite <- Ek).
    assert (E1 : IsOlder e e' = false) by (apply Hn; auto). assert (E2 : IsOlder e' e = false) by (apply Hn'; auto).
    assert (Eid : ev_ID e = ev_ID e') by (destruct (decide (ev_ID e = ev_ID e')) as [|Hne]; [done|]; by rewrite (IsOlder_total e e' Hne E1) in E2).
    apply (keyed_events m _ Hk) in He, He'. congruence.
  - intros r e (Hr & _)%Hm' (_ & Hd & _)%Hm'. auto.
Qed.

Lemma kept_requests m m' : (∀ e, e ∈ events m' ↔ kept_by_repair m e) → ∀ r, r ∈ requests m' ↔ r ∈ requests m.
Proof.
  intros Hm' r. unfold requests. rewrite !list_elem_of_filter, Hm'. split; [intros [? (? & _)]; done|]. intros [Hk Hr]. split; [done|]. split_and!; [done|by intros; apply request_kept|].
  intros v _ _ Hst. by destruct (stateful_not_deletion _ Hst).
Qed.

Lemma Store_Repair_ok s m : store_ok D s m → one_indexed m → Marker_Done coordinateRepairMarker (sf_settings s) = false →
  ∃ s' m', Store_Repair scan paged_each (λ _, background) background false coordinateRepairMarker s = (Ok tt, s') ∧ store_ok D s' m'
    ∧ (∀ e, e ∈ events m' ↔ kept_by_repair m e) ∧ sf_settings s' = Marker_Set coordinateRepairMarker (sf_settings s).
Proof.
  intros Hs Hone Hun. destruct (apply_each s m Hs Hone) as (s2 & E2 & m1 & Hs2 & Eset2 & Hone1 & Hm1).
  destruct (collapse_ok s2 m1 Hs2) as (s3 & m' & E3 & Hs3 & Eset3 & Hm'). unfold Store_Repair.
  rewrite (act_bind_ok _ _ s false s) by (unfold act_read; by rewrite Hun). cbn [negb]. rewrite (act_bind_ok _ _ s tt s2) by done.
  rewrite (act_bind_ok _ _ s2 tt s3) by done. eexists _, m'. split; [done|]. split_and!.
  - destruct Hs3 as [? ? ?]. by split.
  - intros e. rewrite Hm'. symmetry. by apply kept_collapsed.
  - simpl. by rewrite Eset3, Eset2.
Qed.

Lemma Open_done f : Marker_Done tagIndexMarker (sf_settings (lf_store f)) = true → Marker_Done coordinateRepairMarker (sf_settings (lf_store f)) = true →
  Open f = (Ok tt, f).
Proof.
  intros Ht Hc. unfold Open, act_bind, on_store, BuildTagIndex. rewrite Ht. replace (set_store (lf_store f) f) with f by by destruct f.
  unfold repairCoordinates. by rewrite Hc.
Qed.

(** [Open] brings a file that holds [m] up to the invariant of the store. *)
Definition repaired_by_Open (f : LocalFile) (m : gmap string Event) : Prop :=
  ∃ f' m', Open f = (Ok tt, f') ∧ file_ok D f' (mkHeld m' (lf_accepted f)) ∧ (∀ e, e ∈ events m' ↔ kept_by_repair m e)
    ∧ lf_undelivered f' = lf_undelivered f ∧ Open f' = (Ok tt, f').

Lemma Open_ok f m : older_file f m → repaired_by_Open f m.
Proof.
  intros Hf. destruct (BuildTagIndex_ok f m Hf) as (s1 & E1 & Hs1 & Hun1 & Htag1). pose proof (of_one _ _ Hf) as Hone.
  unfold repaired_by_Open, Open, act_bind, on_store. rewrite E1. unfold repairCoordinates. cbn [lf_store set_store]. rewrite Hun1.
  destruct (requests_found s1 m Hs1) as (rs & -> & Hrs). unfold backfill_deletions, putBatched.
  rewrite (put_loop_all (λ key f, set_deletions ({[ key ]} ∪ lf_deletions f) f) None). simpl app. rewrite put_deletions. cbn [default id].
  unfold on_store. cbn [lf_store set_store set_deletions]. destruct (Store_Repair_ok s1 m Hs1 Hone Hun1) as (s2 & m' & -> & Hs2 & Hkept & Eset).
  eexists _, m'. split; [done|]. split; [|split; [done|]].
  - destruct (kept_one m m') as [Hov Hund]; [by eapply represents_keyed, Hf|done|done|]. split; simpl; try done.
    + intros k. rewrite elem_of_union, elem_of_list_to_set, elem_of_keys. setoid_rewrite Hrs. setoid_rewrite (kept_requests m m' Hkept).
      split; [intros [?|?]; [done|by apply (of_deletions _ _ Hf)]|by left].
    + apply Hf.
  - split; [done|]. apply Open_done; cbn [lf_store set_store set_store_marker sf_settings]; rewrite Eset; unfold Marker_Done, Marker_Set in *.
    + by rewrite lookup_insert_ne.
    + by rewrite lookup_insert.
Qed.

(** ** An opening that stops *)

(** The file an opening leaves that stopped while it wrote the tag index (at
    the end of a batch, where [ctx] says), and then while it wrote the deletion
    keys of [rs]. *)
Definition stopped (ctx ctx' : nat → bool) (rs : list Event) (f : LocalFile) : LocalFile :=
  let '(_, s) := BuildTagIndex (λ f filter limit, pagedQuery (sf_db f) filter limit) ctx tagIndexMarker queryPageSize (lf_store f) in
  snd (putBatched (λ key f, set_deletions ({[ key ]} ∪ lf_deletions f) f) None ctx' (rs ≫= deletionKeys) queryPageSize (set_store s f)).

Lemma BuildTagIndex_stopped f m ctx r s : older_file f m →
  BuildTagIndex (λ f filter limit, pagedQuery (sf_db f) filter limit) ctx tagIndexMarker queryPageSize (lf_store f) = (r, s) → older_file (set_store s f) m.
Proof.
  intros [Hr Hdom Ht Htd Hde Hone Hck Hun]. unfold BuildTagIndex. destruct (Marker_Done tagIndexMarker _) eqn:Em; [intros [= _ <-]; by split; auto|].
  destruct (any_ids (lf_store f) m Hr Hdom) as (l & E & Hl & _). rewrite scan_plain in E by (split_and!; [done..|by apply unindexed_empty]).
  change (pagedQuery (sf_db (lf_store f)) (with_limit unbounded any_filter) unbounded) with (pagedQuery (sf_db (lf_store f)) any_filter unbounded) in E.
  rewrite E. unfold putBatched. destruct (put_loop _ _ _ _ _ _ _ _) as [err s1] eqn:Ep.
  apply (put_loop_cut put_tag (Some (set_store_marker tagIndexMarker))) in Ep as (w & rest & Ew & Hw). simpl in Ew. rewrite put_tags in Hw.
  assert (Hkeys : ∀ k, k ∈ list_to_set (C := gset string) w ∪ sf_tags (lf_store f) → ∃ e, e ∈ events m ∧ k ∈ tagKeys e).
  { intros k [Hk|Hk]%elem_of_union; [|auto]. apply elem_of_list_to_set in Hk. assert (Hk' : k ∈ l ≫= tagKeys) by (rewrite Ew; apply elem_of_app; by left).
    apply elem_of_keys in Hk' as (e & He & Hk'). exists e. by rewrite <- Hl. }
  destruct err as [err|]; [subst s1; intros [= _ <-]; split; simpl; auto; by rewrite Em|]. destruct Hw as [-> ->]. intros [= _ <-].
  rewrite app_nil_r in Ew. split; simpl; auto.
  - intros _ k. split; [apply Hkeys|]. intros (e & He & Hk). apply elem_of_union_l, elem_of_list_to_set. rewrite <- Ew. apply elem_of_keys. exists e. by rewrite Hl.
  - unfold Marker_Done, Marker_Set in *. by rewrite lookup_insert_ne.
Qed.

Lemma stopped_older f m ctx ctx' rs : older_file f m → (∀ r, r ∈ rs → r ∈ requests m) → older_file (stopped ctx ctx' rs f) m.
Proof.
  intros Hf Hrs. unfold stopped. destruct (BuildTagIndex _ _ _ _ _) as [r s] eqn:Eb. destruct (BuildTagIndex_stopped f m ctx r s Hf Eb) as [Hr Hdom Ht Htd Hde Hone Hck Hun].
  unfold putBatched. destruct (put_loop _ _ _ _ _ _ _ _) as [err f1] eqn:Ep.
  apply (put_loop_cut (λ key f, set_deletions ({[ key ]} ∪ lf_deletions f) f) None) in Ep as (w & rest & Ew & Hw). simpl in Ew. rewrite put_deletions in Hw.
  assert (f1 = set_deletions (list_to_set w ∪ lf_deletions (set_store s f)) (set_store s f)) as -> by (destruct err; [done|by destruct Hw as [_ ->]]).
  split; simpl; auto. intros k [Hk|Hk]%elem_of_union; [|auto]. apply elem_of_list_to_set in Hk.
  assert (Hk' : k ∈ rs ≫= deletionKeys) by (rewrite Ew; apply elem_of_app; by left). apply elem_of_keys in Hk' as (e & He & Hk'). exists e. auto.
Qed.

Lemma stopped_undelivered f ctx ctx' rs : lf_accepted (stopped ctx ctx' rs f) = lf_accepted f ∧ lf_undelivered (stopped ctx ctx' rs f) = lf_undelivered f.
Proof.
  unfold stopped. destruct (BuildTagIndex _ _ _ _ _) as [r s]. unfold putBatched. destruct (put_loop _ _ _ _ _ _ _ _) as [err f1] eqn:Ep.
  apply (put_loop_cut (λ key f, set_deletions ({[ key ]} ∪ lf_deletions f) f) None) in Ep as (w & rest & _ & Hw). rewrite put_deletions in Hw.
  destruct err; [by subst|by destruct Hw as [_ ->]].
Qed.

(** C29: on the domain (lower-case references, one d tag, no shared truncated
    prefixes, times in range), opening a file an earlier release wrote, which
    may lack entries of either index, hold what its requests delete and hold
    several versions of a coordinate no index finds, brings it up to the
    invariant of the store: both indexes are complete, every stored deletion
    request has been applied, every coordinate keeps its latest undeleted
    version, nothing else is lost, and opening the result again changes
    nothing.  The same holds of the file that is left when an opening stops
    after any number of batches of either index, and with the same events.  A
    crash between the two transactions that remove one event leaves a tag entry
    of an event that is gone; such a file is not one of these. *)
Theorem Open_repairs f m : older_file f m →
  repaired_by_Open f m ∧ ∀ ctx ctx' rs, (∀ r, r ∈ rs → r ∈ requests m) →
    repaired_by_Open (stopped ctx ctx' rs f) m
    ∧ lf_accepted (stopped ctx ctx' rs f) = lf_accepted f ∧ lf_undelivered (stopped ctx ctx' rs f) = lf_undelivered f.
Proof.
  intros Hf. split; [by apply Open_ok|]. intros ctx ctx' rs Hrs. split; [by apply Open_ok, stopped_older|apply stopped_undelivered].
Qed.

End repair.
