(* ===== verification/TagReads.v ===== *)
(** * Reads through the tag index

    A filter on a tag value the event store does not index is answered from
    the tag index: pages of keys read backwards, the events behind them, the
    streams of several values merged, and the whole filter checked at the end.
    Together they return exactly the stored events that match, newest first. *)

From Stdlib Require Import ZArith Lia Bool Ascii.
From stdpp Require Import base tactics decidable option list numbers strings gmap sorting.
From S2P Require Import Prelude Bytes Nostr EventID Bolt BoltCoord BoltCoordFacts BetterBinary BetterBinaryFacts Md5 EventStore EventStoreFacts QuickSelect EventQuery EventQueryFacts EventIndexFacts EventQueryPlan EventStoreProps Inbound TagIndex Action CoordStore LocalStore PagedFacts LocalReads LocalFacts.

(** ** The merge *)

Lemma newer_false a b : CoordStore.newer a b = false → ev_CreatedAt a ≤ ev_CreatedAt b.
Proof. unfold CoordStore.newer. destruct (Z.eqb_spec (ev_CreatedAt a) (ev_CreatedAt b)); simpl; [lia|]. destruct (Z.ltb_spec (ev_CreatedAt b) (ev_CreatedAt a)); [done|lia]. Qed.

Lemma newer_time a b : CoordStore.newer a b = true → ev_CreatedAt b ≤ ev_CreatedAt a.
Proof. unfold CoordStore.newer. destruct (Z.eqb_spec (ev_CreatedAt a) (ev_CreatedAt b)); simpl; [lia|]. rewrite Z.ltb_lt. lia. Qed.

(** The best head is one of the heads, and none is newer. *)
Lemma best_head_spec heads : ∀ i best, match best_head i best heads with
  | None => best = None ∧ Forall (λ h, h = []) heads
  | Some (j, e) =>
      (best = Some (j, e) ∨ ∃ k rest, j = (i + k)%nat ∧ heads !! k = Some (e :: rest))
      ∧ (∀ x t, x :: t ∈ heads → ev_CreatedAt x ≤ ev_CreatedAt e) ∧ (∀ k b, best = Some (k, b) → ev_CreatedAt b ≤ ev_CreatedAt e)
  end.
Proof.
  induction heads as [|[|x t] heads IH]; intros i best; cbn [best_head].
  - destruct best as [[j e]|]; [|done]. split_and!; [by left|by intros ? ? ?%elem_of_nil|]. intros k b [= -> ->]. lia.
  - specialize (IH (S i) best). destruct (best_head _ _ _) as [[j e]|]; [|naive_solver]. destruct IH as (Hin & Hmax & Hb). split_and!; [|set_solver|done].
    destruct Hin as [?|(k & rest & -> & ?)]; [by left|right]. exists (S k), rest. split; [lia|done].
  - specialize (IH (S i) (match best with None => Some (i, x) | Some (_, b) => if CoordStore.newer x b then Some (i, x) else best end)).
    set (best' := match best with None => _ | Some _ => _ end) in *. destruct (best_head _ _ _) as [[j e]|]; [|by destruct IH as [Eb _]; subst best'; destruct best as [[? b]|]; [destruct (CoordStore.newer x b)|]].
    destruct IH as (Hin & Hmax & Hb). assert (Hx : ev_CreatedAt x ≤ ev_CreatedAt e).
    { subst best'. destruct best as [[k b]|]; [|by eapply Hb]. destruct (CoordStore.newer x b) eqn:En; [by eapply Hb|]. apply newer_false in En. specialize (Hb k b eq_refl). lia. }
    split_and!.
    + destruct Hin as [Eb|(k & rest & -> & Hk)]; [|right; exists (S k), rest; split; [lia|done]].
      assert (Some (i, x) = Some (j, e) ∨ best = Some (j, e)) as [[= <- <-]|?]; [subst best'; destruct best as [[k b]|]; [destruct (CoordStore.newer x b)|]; auto|right; exists 0%nat, t; split; [lia|done]|by left].
    + intros y u [[= -> ->]|Hy]%elem_of_cons; [done|by eapply Hmax].
    + intros k b ->. subst best'. cbn in *. destruct (CoordStore.newer x b) eqn:En; [apply newer_time in En; lia|by eapply Hb].
Qed.

Lemma mjoin_alter_tail (heads : list (list Event)) k e rest : heads !! k = Some (e :: rest) → mjoin heads ≡ₚ e :: mjoin (alter (@tail Event) k heads).
Proof.
  revert k. induction heads as [|h heads IH]; intros [|k]; simpl; [done..|by intros [= ->]|]. intros Hk. rewrite (IH k Hk). by rewrite Permutation_middle.
Qed.

Lemma merge_heads_spec n : ∀ heads, Forall (StronglySorted newest) heads → (length (mjoin heads) ≤ n)%nat →
  merge_heads n heads ≡ₚ mjoin heads ∧ StronglySorted newest (merge_heads n heads).
Proof.
  induction n as [|n IH]; intros heads Hs Hn.
  { simpl. destruct (mjoin heads) eqn:E; [|simpl in Hn; lia]. by split; [|constructor]. }
  cbn [merge_heads]. pose proof (best_head_spec heads 0 None) as Hb. destruct (best_head 0 None heads) as [[j e]|].
  - destruct Hb as ([?|(k & rest & -> & Hk)] & Hmax & _); [done|]. simpl. pose proof (mjoin_alter_tail heads k e rest Hk) as Hp.
    destruct (IH (alter (@tail Event) k heads)) as [IH1 IH2].
    + apply Forall_alter; [done|]. intros h Hh Hsh. destruct h; [done|]. by apply StronglySorted_inv in Hsh as [? _].
    + apply Permutation_length in Hp. simpl in Hp. lia.
    + split; [by rewrite IH1, <- Hp|]. constructor; [done|]. apply Forall_forall. intros x Hx. rewrite IH1 in Hx.
      assert (Hx' : x ∈ mjoin heads) by (rewrite Hp; by right). apply list_elem_of_join in Hx' as (h & Hxh & Hh). unfold newest.
      destruct h as [|y t]; [by apply elem_of_nil in Hxh|]. specialize (Hmax y t Hh). rewrite Forall_forall in Hs.
      apply elem_of_cons in Hxh as [->|Hxt]; [done|]. pose proof (Hs _ Hh) as [_ Hy]%StronglySorted_inv. rewrite Forall_forall in Hy. specialize (Hy x Hxt). unfold newest in Hy. lia.
  - destruct Hb as [_ Hnil]. assert (mjoin heads = []) as ->; [|by split; [|constructor]].
    induction Hnil as [|h heads -> Hh IHh]; [done|]. simpl. apply IHh; [by inv Hs|done].
Qed.

Lemma length_mjoin (sources : list (list Event)) : sum_list_with length sources = length (mjoin sources).
Proof. induction sources as [|s sources IH]; simpl; [done|]. by rewrite length_app, IH. Qed.

Lemma mergeNewestFirst_spec sources : Forall (StronglySorted newest) sources →
  mergeNewestFirst sources ≡ₚ mjoin sources ∧ StronglySorted newest (mergeNewestFirst sources).
Proof.
  intros Hs. unfold mergeNewestFirst.
  destruct sources as [|a [|b sources]]; [by split; [|constructor]|by inv Hs; simpl; rewrite app_nil_r|]. rewrite length_mjoin. by apply merge_heads_spec.
Qed.

(** ** The check of the whole filter *)

(** What is emitted: the matching events of the list, each once, in its order,
    up to the limit. *)
Lemma query_emit_spec filter limit l : ∀ emitted (seen : gset string), StronglySorted newest l → emitted < limit →
  (∀ e e', e ∈ l → e' ∈ l → ev_ID e = ev_ID e' → e = e') →
  let out := query_emit filter limit emitted seen l in
  (∀ e, e ∈ out → e ∈ l ∧ Matches filter e = true ∧ ev_ID e ∉ seen) ∧ NoDup out ∧ StronglySorted newest out
  ∧ emitted + Z.of_nat (length out) ≤ limit
  ∧ (emitted + Z.of_nat (length out) = limit ∨ ∀ e, e ∈ l → Matches filter e = true → ev_ID e ∉ seen → e ∈ out)
  ∧ (∀ e x, e ∈ l → Matches filter e = true → ev_ID e ∉ seen → e ∉ out → x ∈ out → newest x e).
Proof.
  induction l as [|y l IH]; intros emitted seen Hs Hlt Hinj; cbn [query_emit].
  { simpl. split_and!; [by intros e ?%elem_of_nil|constructor|constructor|lia|right; by intros e ?%elem_of_nil|by intros e x ?%elem_of_nil]. }
  apply StronglySorted_inv in Hs as [Hs Hy]. rewrite Forall_forall in Hy.
  assert (Hinj' : ∀ e e', e ∈ l → e' ∈ l → ev_ID e = ev_ID e' → e = e') by (intros e e' ? ?; apply Hinj; by right).
  case_bool_decide as Hseen.
  { destruct (IH emitted seen Hs Hlt Hinj') as (A1 & A2 & A3 & A4 & A5 & A6). simpl. split_and!; try done.
    - intros e (? & ? & ?)%A1. split_and!; [by right|done|done].
    - destruct A5 as [?|A5]; [by left|right]. intros e [->|He]%elem_of_cons; [done|auto].
    - intros e x [->|He]%elem_of_cons; [done|eauto]. }
  set (seen' := {[ev_ID y]} ∪ seen). assert (Hsn : ∀ e, e ∈ l → ev_ID e ∉ seen → e = y ∨ ev_ID e ∉ seen').
  { intros e He Hne. destruct (decide (ev_ID e = ev_ID y)) as [E|Hn]; [left; apply Hinj; [by right|by left|done]|right; unfold seen'; set_solver]. }
  destruct (Matches filter y) eqn:Em; cbn [negb].
  2: { destruct (IH emitted seen' Hs Hlt Hinj') as (A1 & A2 & A3 & A4 & A5 & A6). simpl. split_and!; try done.
       - intros e (? & ? & Hn)%A1. split_and!; [by right|done|]. unfold seen' in Hn. set_solver.
       - destruct A5 as [?|A5]; [by left|right]. intros e [->|He]%elem_of_cons ? ?; [congruence|]. destruct (Hsn e He) as [->|?]; [done|congruence|auto].
       - intros e x [->|He]%elem_of_cons ? ?; [congruence|]. destruct (Hsn e He) as [->|?]; [done|congruence|eauto]. }
  destruct (Z.leb_spec limit (emitted + 1)) as [Hle|Hgt].
  { simpl. split_and!; [intros e ->%list_elem_of_singleton; split_and!; [left|done|done]|by repeat constructor; intros ?%elem_of_nil|by repeat constructor|lia|left; lia|].
    intros e x [->|He]%elem_of_cons _ _ Hn ->%list_elem_of_singleton; [unfold newest; lia|by apply Hy]. }
  destruct (IH (emitted + 1) seen' Hs Hgt Hinj') as (A1 & A2 & A3 & A4 & A5 & A6).
  set (out := query_emit filter limit (emitted + 1) seen' l) in *. cbn zeta. cbn [length]. split_and!.
  - intros e [->|(? & ? & Hn)%A1]%elem_of_cons; [split_and!; [left|done|done]|]. split_and!; [by right|done|]. unfold seen' in Hn. set_solver.
  - constructor; [|done]. intros (_ & _ & Hn)%A1. unfold seen' in Hn. set_solver.
  - constructor; [done|]. apply Forall_forall. intros e (He & _)%A1. by apply Hy.
  - lia.
  - destruct A5 as [?|A5]; [left; lia|right]. intros e [->|He]%elem_of_cons ? ?; [left|]. destruct (Hsn e He) as [->|?]; [done|left|right; auto].
  - intros e x [->|He]%elem_of_cons ? ? Hn [->|Hx]%elem_of_cons; [unfold newest; lia|by destruct Hn; left|by apply Hy|].
    destruct (Hsn e He) as [->|?]; [done|by destruct Hn; left|]. apply (A6 e x); try done. intros ?. apply Hn. by right.
Qed.

(** ** Pages of keys *)

Section pages.
Context (prefix : string) (since : Z).

Definition in_range (key : string) : bool := has_prefix key prefix && negb ((0 <? since) && (key_created prefix key <? since)).

Lemma page_loop_spec n : ∀ cursor bound,
  page_loop n prefix since cursor bound = (key_id prefix <$> take n (take_while in_range cursor),
    default bound (last (take n (take_while in_range cursor))), bool_decide (length (take_while in_range cursor) < n)%nat).
Proof.
  induction n as [|n IH]; intros cursor bound; cbn [page_loop]; [by rewrite bool_decide_eq_false_2 by lia|].
  destruct cursor as [|key cursor]; cbn [take_while]; [done|]. destruct (in_range key) eqn:Hr; unfold in_range in Hr.
  - apply andb_true_iff in Hr as [-> ->%negb_true_iff]. cbn [negb]. rewrite IH. cbn [take fmap list_fmap length]. f_equal; [f_equal|].
    + destruct (take n (take_while in_range cursor)) as [|k l]; [done|]. by destruct (last_is_Some (k :: l)) as [_ [x Hx]]; [|cbn [last] in *; rewrite Hx].
    + apply bool_decide_ext. lia.
  - destruct (has_prefix key prefix); [|done]. simpl in Hr. apply negb_false_iff in Hr. by rewrite Hr.
Qed.
End pages.

(** The keys below a bound, read backwards. *)
Lemma elem_of_below bound ix k : k ∈ below bound ix ↔ k ∈ ix ∧ bytes_ltb k bound = true.
Proof. unfold below. rewrite elem_of_reverse, list_elem_of_filter, elem_of_index_keys, Is_true_true. tauto. Qed.

Lemma below_sorted bound ix : StronglySorted (flip bytes_le) (below bound ix).
Proof.
  unfold below. assert (Hs : StronglySorted bytes_le (filter (λ k, bytes_ltb k bound) (index_keys ix))) by apply StronglySorted_filter, index_keys_sorted.
  induction Hs as [|x l Hl IH Hx]; [constructor|]. rewrite reverse_cons. apply StronglySorted_app; split_and!; [|done|by repeat constructor].
  intros a b Ha ->%list_elem_of_singleton. rewrite elem_of_reverse in Ha. rewrite Forall_forall in Hx. by apply Hx.
Qed.

Lemma NoDup_below bound ix : NoDup (below bound ix).
Proof. unfold below. rewrite reverse_Permutation. apply NoDup_filter, NoDup_index_keys. Qed.

#[local] Instance flip_bytes_le_anti : AntiSymm (=) (flip bytes_le).
Proof. intros a b Hab Hba. by apply (anti_symm bytes_le). Qed.

(** A page starts where the last one ended. *)
Lemma below_drop bound ix i k : below bound ix !! i = Some k → below k ix = drop (S i) (below bound ix).
Proof.
  intros Hi. pose proof (below_sorted bound ix) as Hs. pose proof (NoDup_below bound ix) as Hn. rewrite <- (take_drop_middle _ _ _ Hi) in Hs, Hn.
  apply StronglySorted_app in Hs as (Hbefore & _ & [Hs Hafter]%StronglySorted_inv). apply NoDup_app in Hn as (_ & _ & [Hnk Hn]%NoDup_cons). rewrite Forall_forall in Hafter.
  apply (StronglySorted_unique (flip bytes_le)); [apply below_sorted|done|]. apply NoDup_Permutation; [apply NoDup_below|done|]. intros x.
  rewrite elem_of_below, bytes_ltb_spec. split.
  - intros (Hx & Hle & Hne). assert (Hb : x ∈ below bound ix).
    { apply elem_of_below. split; [done|]. assert (Hk : k ∈ below bound ix) by (by eapply list_elem_of_lookup_2). apply elem_of_below in Hk as [_ [Hkb Hkn]%bytes_ltb_spec].
      apply bytes_ltb_spec. split; [by etrans|]. intros ->. apply Hne. by apply (anti_symm bytes_le). }
    rewrite <- (take_drop_middle _ _ _ Hi) in Hb. apply elem_of_app in Hb as [Hb|[->|?]%elem_of_cons]; [|done|done].
    destruct Hne. apply (anti_symm bytes_le); [done|]. apply (Hbefore x k Hb). left.
  - intros Hx. assert (Hb : x ∈ below bound ix) by (rewrite <- (take_drop_middle _ _ _ Hi); apply elem_of_app; right; by right).
    apply elem_of_below in Hb as [? _]. split_and!; [done|by apply Hafter|]. by intros ->.
Qed.

Lemma take_while_drop {A} (f : A → bool) l : ∀ n, (n ≤ length (take_while f l))%nat → take_while f (drop n l) = drop n (take_while f l).
Proof.
  induction l as [|x l IH]; intros [|n]; simpl; try done; [lia..|]. destruct (f x); simpl; [intros; apply IH; lia|lia].
Qed.

Lemma length_take_while {A} (f : A → bool) l : (length (take_while f l) ≤ length l)%nat.
Proof. induction l as [|x l IH]; simpl; [done|]. destruct (f x); simpl; lia. Qed.

Lemma take_while_lookup {A} (f : A → bool) l i x : take_while f l !! i = Some x → l !! i = Some x.
Proof. revert i. induction l as [|y l IH]; simpl; [done|]. intros i. destruct (f y); [|done]. destruct i; [done|]. apply IH. Qed.

Lemma omap_ext_in {A B} (f g : A → option B) (l : list A) : (∀ x, x ∈ l → f x = g x) → omap f l = omap g l.
Proof.
  induction l as [|x l IH]; intros Hfg; [done|]. cbn [omap list_omap]. rewrite Hfg by left. rewrite IH; [done|]. intros y Hy. apply Hfg. by right.
Qed.

Section held.
Context `{NostrPrims} `{StorePrims} `{!StorePrimsLaws}.

(** The event behind a key. *)
Definition pick (m : gmap string Event) (name value id : string) : option Event :=
  match m !! idPtr id with
  | Some event => if String.eqb (ev_ID event) id && ContainsAny (ev_Tags event) name [value] then Some event else None
  | None => None
  end.

Lemma held_foldl l : ∀ (held : gmap string Event) id, (∀ e e', e ∈ l → e' ∈ l → ev_ID e = ev_ID e' → e = e') →
  foldl (λ held event, <[ev_ID event := event]> held) held l !! id = match List.find (λ e, String.eqb (ev_ID e) id) l with Some e => Some e | None => held !! id end.
Proof.
  induction l as [|x l IH]; intros held id Hinj; simpl; [done|]. rewrite IH by (intros e e' ? ?; apply Hinj; by right).
  destruct (List.find _ l) as [e|] eqn:Ef.
  - apply find_some in Ef as [Hin E%String.eqb_eq]. destruct (String.eqb_spec (ev_ID x) id) as [Ex|]; [|done]. f_equal. symmetry. apply Hinj; [left|right; by apply list_elem_of_In|congruence].
  - destruct (String.eqb_spec (ev_ID x) id) as [<-|]; [by rewrite lookup_insert_eq|by rewrite lookup_insert_ne].
Qed.

Lemma page_picked db m name value ids : represents db m → page_events db name value ids = omap (pick m name value) ids.
Proof.
  intros Hr. pose proof (represents_keyed _ _ Hr) as Hk. unfold page_events. rewrite (queryByIds_represents db m) by done.
  set (l := omap (λ id, m !! idPtr id) ids). assert (Hl : ∀ e, e ∈ l → m !! idPtr (ev_ID e) = Some e).
  { intros e (id & _ & E)%list_elem_of_omap. by rewrite (Hk _ _ E). }
  apply omap_ext_in. intros id Hid. rewrite held_foldl by (intros e e' ?%Hl ?%Hl ?; congruence). unfold pick. rewrite lookup_empty.
  destruct (List.find _ l) as [e|] eqn:Ef.
  - apply find_some in Ef as [Hin%list_elem_of_In E%String.eqb_eq]. pose proof (Hl e Hin) as Hm. rewrite <- E, Hm. by rewrite String.eqb_refl.
  - destruct (m !! idPtr id) as [e|] eqn:Em; [|done]. destruct (String.eqb_spec (ev_ID e) id) as [E|]; [|done]. exfalso.
    assert (Hin : e ∈ l) by (apply list_elem_of_omap; eauto). pose proof (find_none _ _ Ef e) as Hf. rewrite list_elem_of_In in Hin. specialize (Hf Hin). cbn beta in Hf. by rewrite E, String.eqb_refl in Hf.
Qed.

(** The pages of [events_loop] are enough for every key. *)
Lemma events_loop_spec db m ix name value since : represents db m → ∀ n bound, (length (below bound ix) < n)%nat →
  events_loop n db ix name value since bound
  = Ok (omap (pick m name value) (key_id (tagKeyPrefix name value) <$> take_while (in_range (tagKeyPrefix name value) since) (below bound ix))).
Proof.
  intros Hr. set (p := tagKeyPrefix name value). induction n as [|n IH]; intros bound Hn; [lia|]. cbn [events_loop]. fold p. rewrite page_loop_spec.
  set (tw := take_while (in_range p since) (below bound ix)). assert (Hlen : (length tw ≤ length (below bound ix))%nat) by apply length_take_while.
  destruct (take tagPageSize tw) as [|k0 page] eqn:Epage; cbn [fmap list_fmap].
  { assert (tw = []) as -> by (destruct tw; [done|]; by unfold tagPageSize in Epage). done. }
  rewrite page_picked with (m := m) by done. case_bool_decide as Hex.
  { rewrite take_ge in Epage by lia. by rewrite Epage. }
  assert (Hlast : last (k0 :: page) = tw !! 511%nat).
  { rewrite <- Epage, last_lookup, length_take, Nat.min_l by lia. apply lookup_take_lt. unfold tagPageSize. simpl. lia. }
  destruct (lookup_lt_is_Some_2 tw 511) as [k Hk]; [unfold tagPageSize in Hex; lia|]. rewrite Hlast, Hk. cbn [default id]. pose proof (below_drop _ _ _ _ (take_while_lookup _ _ _ _ Hk)) as Hd.
  rewrite IH by (rewrite Hd, length_drop; unfold tagPageSize in Hex; lia). cbn [result_bind]. rewrite Hd, take_while_drop by (unfold tagPageSize in Hex; fold tw; lia). fold tw.
  f_equal. change (key_id p k0 :: (key_id p <$> page)) with (key_id p <$> (k0 :: page)). rewrite <- Epage, <- omap_app, <- fmap_app. by rewrite (take_drop 512).
Qed.

End held.

Lemma omap_after_fmap {A B C} (f : B → option C) (g : A → B) (l : list A) : omap f (g <$> l) = omap (f ∘ g) l.
Proof. induction l as [|x l IH]; [done|]. cbn [fmap list_fmap omap list_omap]. unfold compose at 1. destruct (f (g x)); [f_equal|]; exact IH. Qed.

Lemma StronglySorted_omap {A B} (R : relation A) (R' : relation B) (f : A → option B) l : StronglySorted R l →
  (∀ x y a b, x ∈ l → y ∈ l → R x y → f x = Some a → f y = Some b → R' a b) → StronglySorted R' (omap f l).
Proof.
  induction 1 as [|x l Hl IH Hx]; intros Hf; [constructor|]. cbn [omap list_omap]. rewrite Forall_forall in Hx.
  assert (IH' : StronglySorted R' (omap f l)) by (apply IH; intros y z a b Hy Hz; apply Hf; by right). destruct (f x) as [a|] eqn:Ex; [|done].
  constructor; [done|]. apply Forall_forall. intros b (y & Hy & Eb)%list_elem_of_omap. by apply (Hf x y); [left|right|apply Hx|..].
Qed.

(** ** One value *)

Section value.
Context `{NostrLaws} `{StorePrims} `{!StorePrimsLaws} `{QueryEnv} `{!QueryEnvLaws} (D : list Event).
Hypothesis HD : domain D.

(** The digests of the long values are digests. *)
Definition values_hashed : Prop := ∀ e name value rest, e ∈ D → name :: value :: rest ∈ ev_Tags e →
  unindexedTag (name :: value :: rest) = true → String.length (sha256 value) = 32%nat.
Hypothesis Hhash : values_hashed.

Lemma tag_keys_loop_elem e k tags : ∀ seen,
  (k ∈ tag_keys_loop e seen tags → ∃ name value rest, name :: value :: rest ∈ tags ∧ unindexedTag (name :: value :: rest) = true ∧ k = tagKey e name value)
  ∧ (∀ name value rest, name :: value :: rest ∈ tags → unindexedTag (name :: value :: rest) = true → k = tagKey e name value →
      k ∈ tag_keys_loop e seen tags ∨ existsb (same_tag (name :: value :: rest)) seen = true).
Proof.
  induction tags as [|tag tags IH]; intros seen; cbn [tag_keys_loop]; [split; [by intros ?%elem_of_nil|by intros n v r ?%elem_of_nil]|].
  destruct (IH (seen ++ [tag])) as [IH1 IH2]. split.
  - assert (Hrest : k ∈ tag_keys_loop e (seen ++ [tag]) tags → ∃ name value rest, name :: value :: rest ∈ tag :: tags ∧ unindexedTag (name :: value :: rest) = true ∧ k = tagKey e name value).
    { intros (n & v & r & ? & ? & ?)%IH1. exists n, v, r. split_and!; [by right|done|done]. }
    destruct (unindexedTag tag) eqn:Eu; cbn [negb]; [|done]. destruct (existsb _ seen); [done|]. destruct tag as [|n [|v r]]; [done..|].
    intros [->|?]%elem_of_cons; [|auto]. exists n, v, r. split_and!; [left|done|done].
  - intros n v r Hin Hu Hk. apply elem_of_cons in Hin as [Etag|Hin].
    + rewrite <- Etag, Hu. cbn [negb]. destruct (existsb _ seen); [by right|]. left. rewrite Hk. left.
    + specialize (IH2 n v r Hin Hu Hk). rewrite existsb_app in IH2. cbn [existsb] in IH2. rewrite orb_false_r, orb_true_iff in IH2.
      assert (Hnow : same_tag (n :: v :: r) tag = true → negb (unindexedTag tag) = false ∧ ∃ r', tag = n :: v :: r').
      { destruct tag as [|n' [|v' r']]; [done..|]. cbn [same_tag]. rewrite andb_true_iff, !String.eqb_eq. intros [-> ->]. split; [|eauto]. cbn [unindexedTag] in *. by rewrite Hu. }
      destruct (negb (unindexedTag tag)) eqn:Eu; [destruct IH2 as [?|[?|Hs]]; [by left|by right|by destruct (Hnow Hs)]|].
      destruct (existsb (same_tag tag) seen) eqn:Es.
      * destruct IH2 as [?|[?|Hs]]; [by left|by right|]. right. by destruct (Hnow Hs) as [_ [r' ->]].
      * destruct tag as [|n' [|v' r']]; [destruct IH2 as [?|[?|Hs]]; [by left|by right|done]..|]. destruct IH2 as [?|[?|Hs]]; [left; by right|by right|].
        left. destruct (Hnow Hs) as [_ [r'' [= -> -> ->]]]. rewrite Hk. left.
Qed.

Lemma elem_of_tagKeys e k : k ∈ tagKeys e ↔ ∃ name value rest, name :: value :: rest ∈ ev_Tags e ∧ unindexedTag (name :: value :: rest) = true ∧ k = tagKey e name value.
Proof.
  destruct (tag_keys_loop_elem e k (ev_Tags e) []) as [Hl Hr]. split; [done|]. intros (n & v & r & Hin & Hu & Hk). by destruct (Hr n v r Hin Hu Hk).
Qed.

Section read.
Context (s : StoreFile) (m : gmap string Event) (name value : string).
Hypothesis Hs : store_ok D s m.
Hypothesis Hname : String.length name = 1%nat.
Hypothesis Hvalue : tagIndexable value = false.
Hypothesis Hdigest : String.length (sha256 value) = 32%nat.

Definition carries (e : Event) : bool := ContainsAny (ev_Tags e) name [value].

Lemma carries_elem e : carries e = true ↔ ∃ rest, name :: value :: rest ∈ ev_Tags e.
Proof.
  unfold carries. split; [intros (v & r & Hin & ->%list_elem_of_singleton)%ContainsAny_elem; eauto|]. intros (r & Hin). unfold ContainsAny. apply existsb_exists.
  eexists. split; [by apply list_elem_of_In|]. simpl. rewrite String.eqb_refl. apply bool_decide_eq_true. left.
Qed.

Lemma take_name n : String.length n = 1%nat → take_bytes 1 n = n.
Proof. destruct n as [|c [|c' n]]; done. Qed.

(** The keys with the prefix of the value are those of the events with the tag. *)
Lemma keys_of_value k : k ∈ sf_tags s ∧ has_prefix k (tagKeyPrefix name value) = true ↔ ∃ e, e ∈ events m ∧ carries e = true ∧ k = tagKey e name value.
Proof.
  rewrite (so_tags _ _ _ Hs k). split.
  - intros [(e & He & (n & v & r & Hin & Hu & ->)%elem_of_tagKeys) [t E]%has_prefix_spec]. exists e. split; [done|].
    assert (Hn : String.length n = 1%nat) by (cbn in Hu; apply andb_true_iff in Hu as [?%Nat.eqb_eq _]; done).
    unfold tagKey, tagKeyPrefix in E. rewrite !take_name in E by done. rewrite <- !app_string_assoc in E.
    apply app_string_inj in E as [-> E]; [|congruence]. apply app_string_inj in E as [E _]; [|rewrite Hdigest; by eapply Hhash; [apply (so_dom _ _ _ Hs e He)|..]].
    apply sha256_collision_free in E as ->; [|by eapply Hhash; [apply (so_dom _ _ _ Hs e He)|..]]. split; [|done]. apply carries_elem. eauto.
  - intros (e & He & (r & Hin)%carries_elem & ->). split; [|unfold tagKey; apply has_prefix_app]. exists e. split; [done|]. apply elem_of_tagKeys. exists name, value, r.
    split_and!; [done| |done]. cbn [unindexedTag]. by rewrite Hname, Hvalue.
Qed.

Lemma tagKey_parts e : e ∈ events m → key_created (tagKeyPrefix name value) (tagKey e name value) = ev_CreatedAt e ∧ key_id (tagKeyPrefix name value) (tagKey e name value) = ev_ID e.
Proof.
  intros He. pose proof (do_time D HD e (so_dom _ _ _ Hs e He)) as Ht. unfold key_created, key_id, tagKey. set (p := tagKeyPrefix name value).
  assert (Eu : to_u64 (ev_CreatedAt e) = ev_CreatedAt e) by (apply to_u64_small; unfold two64; lia). rewrite Eu. split.
  - rewrite drop_bytes_app. change 8%nat with (String.length (be64 (ev_CreatedAt e))). rewrite take_bytes_app, be_decode_be64, Eu.
    apply to_i64_small. unfold min_i64, max_i64, two63. lia.
  - change 8%nat with (String.length (be64 (ev_CreatedAt e))). rewrite <- length_app_string, app_string_assoc. apply drop_bytes_app.
Qed.

Lemma tagKey_le e e' : e ∈ events m → e' ∈ events m → bytes_le (tagKey e name value) (tagKey e' name value) → ev_CreatedAt e ≤ ev_CreatedAt e'.
Proof.
  intros He He'. pose proof (do_time D HD e (so_dom _ _ _ Hs e He)). pose proof (do_time D HD e' (so_dom _ _ _ Hs e' He')).
  unfold tagKey, bytes_le. rewrite bytes_leb_app, be64_leb by apply to_u64_range. rewrite !to_u64_small by (unfold two64; lia).
  destruct (Z.ltb_spec (ev_CreatedAt e) (ev_CreatedAt e')), (Z.eqb_spec (ev_CreatedAt e) (ev_CreatedAt e')); (done || lia).
Qed.

Lemma tagKey_below e upper : e ∈ events m → 0 ≤ upper < two64 → bytes_ltb (tagKey e name value) (tagKeyPrefix name value +:+ be64 upper) = true ↔ ev_CreatedAt e < upper.
Proof.
  intros He Hu. pose proof (do_time D HD e (so_dom _ _ _ Hs e He)). unfold tagKey. rewrite <- (not_false_iff_true (bytes_ltb _ _)), bytes_ltb_false.
  unfold bytes_le. rewrite bytes_leb_app. rewrite <- (app_string_nil_r (be64 upper)), be64_leb by (try done; apply to_u64_range). rewrite to_u64_small by (unfold two64; lia).
  destruct (Z.ltb_spec upper (ev_CreatedAt e)), (Z.eqb_spec upper (ev_CreatedAt e)); simpl; split; intros; (done || lia).
Qed.

(** The events of one long value within the time bounds, newest first. *)
Lemma tagIndex_events_spec since until : until < two63 →
  ∃ l, tagIndex_events (sf_db s) (sf_tags s) name value since until = Ok l ∧ StronglySorted newest l
    ∧ ∀ e, e ∈ l ↔ e ∈ events m ∧ carries e = true ∧ (0 < since → since ≤ ev_CreatedAt e) ∧ (0 < until → ev_CreatedAt e ≤ until).
Proof.
  intros Hu. unfold tagIndex_events. set (upper := if 0 <? until then until + 1 else two64 - 1). set (p := tagKeyPrefix name value). set (bound := p +:+ be64 upper).
  assert (Hup : 0 ≤ upper < two64) by (unfold upper, two64, two63 in *; destruct (Z.ltb_spec 0 until); lia).
  pose proof (so_rep _ _ _ Hs) as Hr. pose proof (represents_keyed _ _ Hr) as Hk.
  rewrite (events_loop_spec _ m) by (try done; unfold below; rewrite length_reverse; pose proof (length_filter (λ k, bytes_ltb k bound) (index_keys (sf_tags s))); rewrite length_index_keys in *; lia).
  fold p. assert (Hb : ∀ k, k ∈ below bound (sf_tags s) → has_prefix k p = true → ∃ e, e ∈ events m ∧ carries e = true ∧ k = tagKey e name value ∧ ev_CreatedAt e < upper).
  { intros k [Hin Hlt]%elem_of_below Hp. destruct (proj1 (keys_of_value k) (conj Hin Hp)) as (e & He & Hc & ->). exists e. split_and!; try done. by apply (tagKey_below e upper He Hup). }
  rewrite (take_while_filter (flip bytes_le)); [|apply below_sorted|].
  2: { intros a b Ha Hb' Hle [Hpb Htb]%andb_true_iff. assert (Hpa : has_prefix a p = true).
       { apply (prefix_convex p a bound); [|by apply elem_of_below in Ha as [_ [? _]%bytes_ltb_spec]|apply has_prefix_app].
         etrans; [|exact Hle]. apply has_prefix_spec in Hpb as [t ->]. apply bytes_le_prefix. }
       unfold in_range. rewrite Hpa. destruct (Hb a Ha Hpa) as (ea & Hea & _ & -> & _). destruct (Hb b Hb' Hpb) as (eb & Heb & _ & -> & _).
       pose proof (tagKey_le eb ea Heb Hea Hle). unfold p in *. rewrite (proj1 (tagKey_parts ea Hea)). rewrite (proj1 (tagKey_parts eb Heb)) in Htb.
       destruct (0 <? since); [|done]. cbn [andb negb] in *. apply negb_true_iff, Z.ltb_ge in Htb. cbn. apply negb_true_iff, Z.ltb_ge. lia. }
  rewrite omap_after_fmap. set (K := filter (in_range p since) (below bound (sf_tags s))).
  assert (HK : ∀ k, k ∈ K → ∃ e, e ∈ events m ∧ carries e = true ∧ k = tagKey e name value ∧ (pick m name value ∘ key_id p) k = Some e ∧ (0 < since → since ≤ ev_CreatedAt e) ∧ ev_CreatedAt e < upper).
  { intros k [[Hp Ht]%Is_true_true%andb_true_iff Hin]%list_elem_of_filter. destruct (Hb k Hin Hp) as (e & He & Hc & -> & Hlt). exists e. unfold p in *.
    destruct (tagKey_parts e He) as [Et Ei]. rewrite Et in Ht. split_and!; try done.
    - unfold compose. rewrite Ei. unfold pick. rewrite (proj1 (keyed_events m e Hk) He), String.eqb_refl. unfold carries in Hc. by rewrite Hc.
    - intros Hp0. rewrite (proj2 (Z.ltb_lt 0 since) Hp0) in Ht. cbn in Ht. apply negb_true_iff, Z.ltb_ge in Ht. done. }
  eexists. split; [done|]. split.
  - apply (StronglySorted_omap (flip bytes_le)); [apply StronglySorted_filter, below_sorted|]. intros x y a b Hx Hy Hle Ea Eb.
    destruct (HK x Hx) as (ex & Hex & _ & -> & Epx & _). destruct (HK y Hy) as (ey & Hey & _ & -> & Epy & _). rewrite Epx in Ea. rewrite Epy in Eb. simplify_eq. by apply tagKey_le.
  - intros e. rewrite list_elem_of_omap. split.
    + intros (k & (e' & He' & Hc & -> & Ep & Hsi & Hlt)%HK & Ee). rewrite Ep in Ee. simplify_eq. split_and!; try done. intros Hpos. unfold upper in Hlt. rewrite (proj2 (Z.ltb_lt 0 until) Hpos) in Hlt. lia.
    + intros (He & Hc & Hsi & Hun). assert (Hkin : tagKey e name value ∈ K).
      { apply list_elem_of_filter. destruct (proj2 (keys_of_value (tagKey e name value))) as [Hin Hp]; [by exists e|]. split.
        - apply Is_true_true. unfold in_range. fold p in Hp. rewrite Hp. unfold p. rewrite (proj1 (tagKey_parts e He)). destruct (Z.ltb_spec 0 since); [|done]. cbn. apply negb_true_iff, Z.ltb_ge. auto.
        - apply elem_of_below. split; [done|]. apply (tagKey_below e upper He Hup). pose proof (do_time D HD e (so_dom _ _ _ Hs e He)). unfold upper, two64. destruct (Z.ltb_spec 0 until); lia. }
      exists (tagKey e name value). split; [done|]. destruct (HK _ Hkin) as (e' & He' & _ & E & Ep & _). rewrite Ep. f_equal.
      destruct (tagKey_parts e He) as [_ Ei]. destruct (tagKey_parts e' He') as [_ Ei']. rewrite E, Ei' in Ei. by apply (represents_ids (sf_db s) m).
Qed.

End read.
(** ** A filter with a long value *)

Section query.
Context (s : StoreFile) (m : gmap string Event).
Hypothesis Hs : store_ok D s m.

(** The read of the values the event store does index. *)
Definition short_values (values : list string) : list string := filter (λ value, tagIndexable value) values.
Definition short_filter (f : Filter) (name : string) (short : list string) : Filter :=
  mkFilter None (fi_Kinds f) (fi_Authors f) {[ name := short ]} (fi_Since f) (fi_Until f) 0 "" false.

(** A filter the tag index answers; the values beside the long ones make a
    filter the event store can answer, without a limit of its own. *)
Record long_filter (f : Filter) (name : string) (values : list string) : Prop := {
  lg_ids : fi_IDs f = None;
  lg_search : fi_Search f = EmptyString;
  lg_limit : fi_LimitZero f = false;
  lg_until : fi_Until f < two63;
  lg_name : unindexedFilterTag f = Some name;
  lg_values : fi_Tags f !! name = Some values;
  lg_hashed value : value ∈ values → tagIndexable value = false → String.length (sha256 value) = 32%nat;
  lg_short : short_values values = [] ∨ indexed_filter (short_filter f name (short_values values))
    ∧ GetTheoreticalLimit (short_filter f name (short_values values)) = max_i64
    ∧ Z.of_nat (length (pq_queries (prepareQueries (short_filter f name (short_values values)))) * length D) ≤ max_i64;
}.

Lemma unindexed_length f name : unindexedFilterTag f = Some name → String.length name = 1%nat.
Proof.
  unfold unindexedFilterTag. intros Hh. assert (Hin : name ∈ merge_sort bytes_le (fst <$> base.filter (λ kv : string * list string,
    Nat.eqb (String.length (fst kv)) 1 && existsb (λ value, negb (tagIndexable value)) (snd kv)) (map_to_list (fi_Tags f)))) by (by apply head_Some_elem_of).
  rewrite merge_sort_Permutation in Hin. apply list_elem_of_fmap in Hin as ([n vs] & -> & [Hp _]%list_elem_of_filter).
  apply Is_true_true, andb_true_iff in Hp as [?%Nat.eqb_eq _]. done.
Qed.

(** The sources hold what matches, and only stored events. *)
Definition covers (name : string) (values : list string) (f : Filter) (sources : list (list Event)) : Prop :=
  Forall (StronglySorted newest) sources ∧ (∀ e, e ∈ mjoin sources → e ∈ events m)
  ∧ ∀ e value, e ∈ events m → Matches f e = true → value ∈ values → carries name value e = true → e ∈ mjoin sources.

Lemma covers_long f name value values sources : long_filter f name values → value ∈ values → tagIndexable value = false → ∀ done, covers name done f sources →
  ∃ source, tagIndex_events (sf_db s) (sf_tags s) name value (fi_Since f) (fi_Until f) = Ok source ∧ covers name (value :: done) f (source :: sources).
Proof.
  intros Hf Hv Hi dn (C1 & C2 & C3). destruct (tagIndex_events_spec s m name value Hs) with (since := fi_Since f) (until := fi_Until f) as (l & E & Hsort & Hl);
    [by apply (unindexed_length f), Hf|done|by apply (lg_hashed _ _ _ Hf)|apply Hf|].
  exists l. split; [done|]. split_and!; [by constructor|..].
  - intros e [(? & _)%Hl|?]%elem_of_app; [done|auto].
  - intros e v He Hm [->|Hin]%elem_of_cons Hc; apply elem_of_app; [left|right; eauto]. apply Hl. split_and!; try done; intros Hpos; unfold Matches in Hm;
      rewrite !andb_true_iff, !negb_true_iff in Hm; destruct Hm as [[_ Hsi] Hun].
    + destruct (Z.eqb_spec (fi_Since f) 0); [lia|]. by apply Z.ltb_ge in Hsi.
    + destruct (Z.eqb_spec (fi_Until f) 0); [lia|]. by apply Z.ltb_ge in Hun.
Qed.

Lemma covers_longs f name values sources : long_filter f name values → ∀ dn long, (∀ v, v ∈ long → v ∈ values ∧ tagIndexable v = false) → covers name dn f sources →
  ∃ all, foldr (λ value sources, let! source := tagIndex_events (sf_db s) (sf_tags s) name value (fi_Since f) (fi_Until f) in let! sources := sources in Ok (source :: sources)) (Ok sources) long = Ok all
    ∧ covers name (long ++ dn) f all.
Proof.
  intros Hf dn long Hlong Hc. induction long as [|v long IH]; [by exists sources|]. destruct IH as (all & E & Hall); [by intros; apply Hlong; right|]. cbn [foldr]. rewrite E.
  destruct (Hlong v) as [Hv Hi]; [left|]. destruct (covers_long f name v values all Hf Hv Hi (long ++ dn) Hall) as (l & -> & Hcov). by exists (l :: all).
Qed.

(** The values the event store indexes. *)
Lemma covers_short f name values : long_filter f name values →
  ∃ sources, match short_values values with [] => Ok [] | _ :: _ => let! source := pagedQuery (sf_db s) (short_filter f name (short_values values)) unbounded in Ok [source] end = Ok sources
    ∧ covers name (short_values values) f sources.
Proof.
  intros Hf. pose proof (so_rep _ _ _ Hs) as Hr. pose proof (so_dom _ _ _ Hs) as Hdom. pose proof (lg_short _ _ _ Hf) as Hsh. destruct (short_values values) as [|v0 short] eqn:Es.
  { exists []. split; [done|]. split_and!; [constructor|by intros e ?%elem_of_nil|by intros e v _ _ ?%elem_of_nil]. }
  rewrite <- Es in *. destruct Hsh as [?|(Hix & Hgt & Hsmall)]; [congruence|]. set (sf := short_filter f name (short_values values)) in *.
  destruct (pagedQuery_all D HD (sf_db s) m sf unbounded Hr Hdom) as (l & -> & Hl & _ & Hsort & _); [|done|by right|].
  { split; [apply Hix|done|done|intros e He; by apply (do_time D HD), Hdom|]. pose proof (size_domain D (sf_db s) m Hr Hdom). nia. }
  exists [l]. split; [done|]. split_and!; [by repeat constructor|..].
  - intros e. simpl. rewrite app_nil_r, Hl. apply found_events.
  - intros e v He Hm Hv Hc. simpl. rewrite app_nil_r, Hl. apply (found_complete (sf_db s)); [done|done|done|apply (do_time D HD), Hdom, He|].
    unfold Matches, MatchesIgnoringTimestampConstraints in *. rewrite !andb_true_iff in *. destruct Hm as [[[[[_ Hk] Ha] _] Hsi] Hun]. cbn [sf short_filter fi_IDs fi_Kinds fi_Authors fi_Tags fi_Since fi_Until in_some]. split_and!; try done.
    rewrite map_to_list_singleton. simpl. rewrite andb_true_r. apply carries_elem in Hc as (r & Hin). unfold ContainsAny. apply existsb_exists.
    eexists. split; [by apply list_elem_of_In|]. simpl. rewrite String.eqb_refl. by apply bool_decide_eq_true.
Qed.

(** C30: for events of a domain (storable, dated after 0 and before the last
    second of 32 bits, told apart by their id pointers, with references to ids
    in lower case, none reached by a query through a truncated key or a second
    d tag), a filter on a tag value too long for the event store's own indexes
    is answered exactly: the read returns the stored events that match the whole
    filter, each once, newest first, as many as the limit allows and the newest
    of them.  The filter has no ids, no search term and no zero limit.  Shorter
    values beside the long one must make, with its kinds and authors, a filter
    the event store indexes and has no theoretical limit for, as it has one for
    authors with replaceable kinds only, or with addressable kinds by d. *)
Theorem long_values_found f name values : long_filter f name values →
  ∃ l, Store_QueryEvents s f = Ok l
    ∧ newest_first (filter (λ e, Matches f e = true) (events m)) (if fi_Limit f <=? 0 then unbounded else fi_Limit f) l.
Proof.
  intros Hf. pose proof (so_rep _ _ _ Hs) as Hr. unfold Store_QueryEvents, NeedsTagIndex. rewrite (lg_ids _ _ _ Hf), (lg_limit _ _ _ Hf), (lg_name _ _ _ Hf). rewrite bool_decide_eq_true_2 by done.
  unfold Store_Query. rewrite (lg_name _ _ _ Hf), (lg_limit _ _ _ Hf), (lg_search _ _ _ Hf), (lg_values _ _ _ Hf). cbn [String.eqb negb orb default].
  destruct (covers_short f name values Hf) as (short & Eshort & Hshort). unfold short_filter, short_values in Eshort, Hshort. cbn [id]. rewrite Eshort.
  set (long := filter (λ value, negb (tagIndexable value)) values).
  destruct (covers_longs f name values short Hf (short_values values) long) as (all & -> & C1 & C2 & C3); [|exact Hshort|].
  { intros v [Hn%Is_true_true Hv]%list_elem_of_filter. by apply negb_true_iff in Hn. }
  cbn [result_bind]. destruct (mergeNewestFirst_spec all C1) as [Hp Hsort]. set (limit := if fi_Limit f <=? 0 then unbounded else fi_Limit f).
  destruct (query_emit_spec f limit (mergeNewestFirst all) 0 ∅ Hsort) as (A1 & A2 & A3 & A4 & A5 & A6).
  - unfold limit. destruct (Z.leb_spec (fi_Limit f) 0); [done|lia].
  - intros e e'. rewrite Hp. intros He%C2 He'%C2. by apply (represents_ids (sf_db s) m).
  - assert (Hall : ∀ e, e ∈ filter (λ e, Matches f e = true) (events m) → e ∈ mergeNewestFirst all ∧ Matches f e = true).
    { intros e [Hm He]%list_elem_of_filter. split; [|done]. rewrite Hp. assert (Hcont : ContainsAny (ev_Tags e) name values = true).
      { unfold Matches, MatchesIgnoringTimestampConstraints in Hm. rewrite !andb_true_iff in Hm. destruct Hm as [[[_ Ht] _] _]. rewrite forallb_forall in Ht.
        apply (Ht (name, values)), list_elem_of_In, elem_of_map_to_list, Hf. }
      apply ContainsAny_elem in Hcont as (v & r & Hin & Hv). apply (C3 e v He Hm); [|apply carries_elem; eauto].
      apply elem_of_app. destruct (tagIndexable v) eqn:Ei; [right|left]; apply list_elem_of_filter; (split; [|done]); by rewrite Ei. }
    eexists. split; [done|]. split; [|done|done|lia|destruct A5 as [?|A5]; [left; lia|right; intros e [? ?]%Hall; by apply A5]|intros e x [? ?]%Hall ? ?; by apply A6].
    intros e (He & Hm & _)%A1. rewrite Hp in He. apply list_elem_of_filter. auto.
Qed.

End query.
End value.
