(* ===== verification/LocalSample.v ===== *)
(** * A small local store

    Events on which the hypotheses about the local store hold, checked by
    evaluation, and the store's theorems applied to them. *)

From Stdlib Require Import ZArith Lia Bool Ascii.
From stdpp Require Import base tactics decidable option list numbers strings gmap sorting.
From S2P Require Import Prelude Bytes Nostr EventID SampleDigest Bolt BoltCoord BoltCoordFacts BoltCoordProps BetterBinary BetterBinaryFacts Md5 EventStore EventStoreFacts QuickSelect EventQuery EventQueryFacts EventIndexFacts EventQueryPlan EventStoreProps Inbound TagIndex Action CoordStore LocalStore PagedFacts LocalReads LocalFacts LocalProps LocalConverge LocalRepair TagReads.

(** ** Deciding the hypotheses *)

Section decide.
Context `{NostrPrims} `{StorePrims} `{QueryEnv}.

Definition implb2 (a b : bool) : bool := if a then b else true.

Definition coordinates (D : list Event) : list Coordinate :=
  D ≫= λ e, (if stateful e then [CoordinateOf e] else []) ++ (if ev_Kind e =? KindDeletion then DeletedCoordinates e else []).

Definition version_likeb (c : Coordinate) (e : Event) : bool :=
  if dIndexed c then bool_decide (CoordinateOf e = c) else bool_decide (ev_Kind e = co_Kind c ∧ ev_PubKey e = co_Author c).

Definition lower_tag (tag : list string) : bool :=
  match tag with
  | name :: value :: _ => implb2 (String.eqb name "e") (match id_from_hex value with Some id => String.eqb value (hex id) | None => true end)
  | _ => true
  end.

Definition domainb (D : list Event) : bool :=
  forallb (λ e, storableb e && (0 <? ev_CreatedAt e) && (ev_CreatedAt e <? 4294967295) && forallb lower_tag (ev_Tags e)) D
  && (Z.of_nat (length D) <=? unbounded)
  && forallb (λ e, forallb (λ e', implb2 (String.eqb (idPtr (ev_ID e)) (idPtr (ev_ID e'))) (bool_decide (e = e'))
       && implb2 (hits (byID e) e') ((ev_Kind e' =? KindDeletion) && String.eqb (ev_PubKey e') (ev_PubKey e) && names_id e' e)
       && implb2 (stateful e && hits (replace_filter e) e') (bool_decide (CoordinateOf e' = CoordinateOf e))) D) D
  && forallb (λ c, forallb (λ e, implb2 (hits (version_filter c 0) e) (version_likeb c e)) D) (coordinates D).

Lemma elem_of_coordinates D c : coordinate_of D c → c ∈ coordinates D.
Proof.
  intros (e & He & Hc). apply list_elem_of_bind. exists e. split; [|done]. apply elem_of_app. destruct Hc as [[-> ->]|[Hk Hc]]; [left; left|right].
  by rewrite (proj2 (Z.eqb_eq _ _) Hk).
Qed.

Lemma implb2_spec a b : implb2 a b = true → a = true → b = true.
Proof. by destruct a. Qed.

Lemma domainb_spec D : domainb D = true → domain D.
Proof.
  unfold domainb. rewrite !andb_true_iff, !forallb_forall, Z.leb_le. setoid_rewrite <- list_elem_of_In. intros [[[Hone Hfew] Htwo] Hver].
  assert (Htwo' : ∀ e e', e ∈ D → e' ∈ D → _) by (intros e e' He He'; pose proof (Htwo e He) as Hx; rewrite forallb_forall in Hx; apply list_elem_of_In in He'; exact (Hx e' He')).
  cbn beta in Htwo'. setoid_rewrite andb_true_iff in Htwo'. setoid_rewrite andb_true_iff in Htwo'.
  assert (Hone' : ∀ e, e ∈ D → storable e ∧ 0 < ev_CreatedAt e < 4294967295 ∧ forallb lower_tag (ev_Tags e) = true).
  { intros e He%Hone. rewrite !andb_true_iff, !Z.ltb_lt in He. destruct He as [[[Hs ?] ?] ?]. split_and!; [by apply storableb_spec|done..]. }
  split.
  - intros e He. by apply Hone'.
  - intros e He. by apply Hone'.
  - done.
  - intros e e' He He' E. destruct (Htwo' e e' He He') as [[Hp _] _]. by apply (bool_decide_eq_true (e = e')), (implb2_spec _ _ Hp), String.eqb_eq.
  - intros e r He Hr Hh. destruct (Htwo' e r He Hr) as [[_ Hn] _]. pose proof (implb2_spec _ _ Hn Hh) as Hn'. clear Hn. rename Hn' into Hn. rewrite !andb_true_iff, Z.eqb_eq, String.eqb_eq in Hn. tauto.
  - intros r value rest id Hr Hin Hid. destruct (Hone' r Hr) as (_ & _ & Hl). rewrite forallb_forall in Hl. apply list_elem_of_In, Hl in Hin. cbn in Hin. rewrite Hid in Hin.
    by apply String.eqb_eq.
  - intros c e Hc He Hh. apply elem_of_coordinates in Hc. specialize (Hver c Hc). rewrite forallb_forall in Hver. apply list_elem_of_In in He. specialize (Hver e He).
    pose proof (implb2_spec _ _ Hver Hh) as Hlike. unfold version_likeb, version_like in *. destruct (dIndexed c); by apply bool_decide_eq_true in Hlike.
  - intros e v He Hst Hv Hh. destruct (Htwo' e v He Hv) as [_ Hr]. apply (bool_decide_eq_true (CoordinateOf v = CoordinateOf e)), (implb2_spec _ _ Hr). by rewrite Hst, Hh.
Qed.

End decide.

(** ** The events *)

Module LocalSample.
Import StoreSample.

Definition author : string := key_of 21.

Fixpoint repeated (n : nat) (s : string) : string := match n with O => EmptyString | S n' => s +:+ repeated n' s end.
Definition long : string := repeated 13 "longtags".

Definition ev (n createdAt kind : Z) (tags : list (list string)) : Event := mkEvent (id_of n) author createdAt kind tags "" sig_of.

Definition note : Event := ev 1 1700000000 1 [["t"; "edge"]; ["t"; long]].
Definition old : Event := ev 2 1700000010 30078 [["d"; "node"]].
Definition new : Event := ev 3 1700000020 30078 [["d"; "node"]].
Definition wide_old : Event := ev 4 1700000030 30078 [["d"; long]].
Definition wide_new : Event := ev 5 1700000040 30078 [["d"; long]].
Definition profile : Event := ev 6 1700000050 0 [].
Definition request : Event := ev 7 1700000060 5 [["e"; hex (id_of 1)]; ["a"; Coordinate_String (CoordinateOf profile)]].
Definition brief : Event := ev 8 1700000070 1 [["t"; long]; ["expiration"; "1700000100"]].
Definition checkpoint : Event := ev 9 1700000080 4903
  [["domain"; "assistant"]; ["type"; "execution-checkpoint"]; ["schema"; "bahia.audit.assistant-execution-checkpoint.v1"]; ["expiration"; "1700000100"]].

Definition D : list Event := [note; old; new; wide_old; wide_new; profile; request; brief; checkpoint].

Definition table : list (string * string) :=
  [(Coordinate_String (CoordinateOf old), key_of 91); (Coordinate_String (CoordinateOf wide_old), key_of 92);
   (Coordinate_String (CoordinateOf profile), key_of 93); (long, key_of 94); (serializedHash_bytes checkpoint, ev_ID checkpoint)].

#[local] Instance sample_prims : NostrPrims := {|
  sha256 := digest table;
  verify_bip340 := λ _ _ _, true;
  ParsePubKey := λ _, true;
  SchnorrVerify := λ _ _ _, true;
  decode_unadmitted := λ _, None;
  decode_accepted := λ _, None;
  decode_refused := λ _, None;
|}.

#[local] Instance sample_laws : NostrLaws.
Proof.
  split; [|done]. intros a b. apply (digest_collision_free table). vm_compute. repeat constructor; set_solver.
Qed.

#[local] Instance sample_local : LocalPrims := {| CAS_AUDIT := 4903 |}.

Lemma D_domain : domain D.
Proof. apply domainb_spec. vm_compute. reflexivity. Qed.

Lemma D_hashed : ∀ c, coordinate_of D c → hashed c.
Proof.
  intros c Hc%elem_of_coordinates. assert (Hb : forallb (λ c, Nat.eqb (String.length (deletionKeyPrefix c)) 32) (coordinates D) = true) by (vm_compute; reflexivity).
  rewrite forallb_forall in Hb. apply list_elem_of_In, Hb in Hc. by apply Nat.eqb_eq.
Qed.

Lemma D_values : values_hashed D.
Proof.
  intros e name value rest He Hin Hu. assert (Hb : forallb (λ e, forallb (λ tag, match tag with _ :: v :: _ => implb2 (unindexedTag tag) (Nat.eqb (String.length (sha256 v)) 32) | _ => true end) (ev_Tags e)) D = true) by (vm_compute; reflexivity).
  rewrite forallb_forall in Hb. apply list_elem_of_In, Hb in He. rewrite forallb_forall in He. apply list_elem_of_In, He in Hin. apply Nat.eqb_eq. exact (implb2_spec _ _ Hin Hu).
Qed.

Lemma D_regular : names_regular D.
Proof.
  intros r e Hr He Hk Hst. assert (Hb : forallb (λ r, forallb (λ e, negb (stateful e && names_id r e)) D) D = true) by (vm_compute; reflexivity).
  rewrite forallb_forall in Hb. apply list_elem_of_In, Hb in Hr. rewrite forallb_forall in Hr. apply list_elem_of_In, Hr in He. rewrite Hst in He. by apply negb_true_iff in He.
Qed.

(** ** A run *)

Definition calls : list local_call :=
  [LSave wide_new; LSave wide_old; LSave old; LSave new; LSave request; LSave note; LSave profile; LSave brief; LSave checkpoint;
   LAccept (ev_ID checkpoint); LDelete (ev_ID checkpoint); LPruneRegular (1700000075 * 1000000000)].

Definition file : LocalFile := snd (run_local (local_run1 None) calls empty_file).
Definition held : Held := snd (run_local (spec_run1 None) calls new_held).

Lemma calls_ok : Forall (local_call_ok D) calls.
Proof. repeat apply Forall_cons_2; try apply Forall_nil_2; try done; try (cbn [local_call_ok]; unfold D; set_solver). right. vm_compute. split; congruence. Qed.

Lemma local_store_refines_witness :
  fst (run_local (local_run1 None) calls empty_file)
    = [ASaved true; ASaved false; ASaved true; ASaved true; ASaved true; ASaved false; ASaved false; ASaved true; ASaved true; ADone; AError LocalAccepted; ARemoved 1]
  ∧ file_ok D file held.
Proof.
  destruct (local_store_refines None D D_domain D_hashed calls calls_ok) as [E F]. split; [|exact F]. rewrite E. vm_compute. reflexivity.
Defined.

Lemma replicas_converge_witness :
  sf_db (lf_store (saved_file None [old; request; new; note; profile])) = sf_db (lf_store (saved_file None [note; profile; new; old; note; request]))
  ∧ ∃ m, represents (sf_db (lf_store (saved_file None [old; request; new; note; profile]))) m ∧ ∀ e, e ∈ events m ↔ survives None [old; request; new; note; profile] e.
Proof.
  destruct (replicas_converge None D D_domain D_hashed D_regular [old; request; new; note; profile] [note; profile; new; old; note; request]) as (E & _ & _ & M).
  - intros e. set_solver.
  - intros e. unfold D. set_solver.
  - split; [exact E|exact M].
Defined.

(** ** An older file *)

(** Two versions the event store cannot look up, and a request stored without
    being applied, with no index. *)
Definition stored : list store_call := [SSave note; SSave wide_new; SSave wide_old; SSave request; SSave old].
Definition old_db : EventDB := snd (run_calls store_run1 stored empty_db).
Definition old_map : gmap string Event := snd (run_calls map_run1 stored ∅).
Definition old_one : LocalFile := mkLocalFile (mkStoreFile old_db ∅ ∅) ∅ ∅ ∅.

Lemma old_represents : represents old_db old_map.
Proof.
  apply (store_runs stored empty_db ∅ represents_empty). assert (Hb : forallb storableb [note; wide_new; wide_old; request; old] = true) by (vm_compute; reflexivity).
  change stored with (SSave <$> [note; wide_new; wide_old; request; old]). apply Forall_fmap, Forall_forall. intros e He. rewrite forallb_forall in Hb.
  apply list_elem_of_In, Hb, storableb_spec in He. split; [apply He|done].
Qed.

Lemma old_checked : forallb (λ e, bool_decide (e ∈ D)
  && forallb (λ e', implb2 (stateful e && dIndexed (CoordinateOf e) && bool_decide (CoordinateOf e = CoordinateOf e')) (bool_decide (e = e'))) (events old_map)) (events old_map) = true.
Proof. vm_compute. reflexivity. Qed.

Lemma old_older : older_file D old_one old_map.
Proof.
  pose proof old_checked as Hb. rewrite forallb_forall in Hb. split.
  - apply old_represents.
  - intros e He%list_elem_of_In%Hb. apply andb_true_iff in He as [He _]. exact (proj1 (bool_decide_eq_true _) He).
  - intros k Hk. destruct (not_elem_of_empty k Hk).
  - intros Hm. vm_compute in Hm. discriminate Hm.
  - intros k Hk. destruct (not_elem_of_empty k Hk).
  - intros e e' He He' Hst Hd Hc. apply list_elem_of_In, Hb, andb_true_iff in He as [_ He]. rewrite forallb_forall in He. apply list_elem_of_In, He in He'.
    apply (bool_decide_eq_true (e = e')), (implb2_spec _ _ He'). rewrite Hst, Hd. exact (proj2 (bool_decide_eq_true _) Hc).
  - intros id e Hid. destruct (not_elem_of_empty id Hid).
  - vm_compute. reflexivity.
Qed.

Lemma request_held : ∀ r, r ∈ [request] → r ∈ requests old_map.
Proof.
  intros r ->%list_elem_of_singleton. unfold requests. apply list_elem_of_filter. split; [done|].
  apply (elem_of_events old_db old_map old_represents). vm_compute. reflexivity.
Qed.

(** The old file, and the old file after one look of each batched write. *)
Lemma Open_repairs_witness : repaired_by_Open D old_one old_map
  ∧ repaired_by_Open D (stopped (Nat.eqb 1) (Nat.eqb 1) [request] old_one) old_map.
Proof.
  destruct (Open_repairs D D_domain D_hashed old_one old_map old_older) as [H1 H2]. split; [exact H1|].
  exact (proj1 (H2 (Nat.eqb 1) (Nat.eqb 1) [request] request_held)).
Defined.

(** ** A long value *)

Definition by_value : Filter := mkFilter None (Some [1]) None {[ "t" := [long; "edge"] ]} 0 0 10 EmptyString false.

Lemma by_value_long : long_filter D by_value "t" [long; "edge"].
Proof.
  split; try (vm_compute; reflexivity).
  - intros value Hv Hn. apply elem_of_cons in Hv as [->| ->%list_elem_of_singleton]; vm_compute in Hn |- *; congruence.
  - right. split; [|split; [vm_compute; reflexivity|vm_compute; congruence]].
    split; [split|..]; simpl; [constructor| | |done..]; apply map_Forall_singleton; [done|]. by repeat constructor.
Qed.

Definition tagged : list local_call := [LSave note; LSave brief; LSave old].
Definition tagged_file : LocalFile := snd (run_local (local_run1 None) tagged empty_file).
Definition tagged_held : Held := snd (run_local (spec_run1 None) tagged new_held).

Lemma tagged_ok : file_ok D tagged_file tagged_held.
Proof.
  apply local_runs; [apply D_domain|apply D_hashed|apply empty_file_ok; [apply D_domain|apply D_hashed]|]. repeat apply Forall_cons_2; try apply Forall_nil_2; cbn [local_call_ok]; unfold D; set_solver.
Qed.

Lemma long_values_found_witness : ∃ l, Store_QueryEvents (lf_store tagged_file) by_value = Ok l
  ∧ newest_first (filter (λ e, Matches by_value e = true) (events (h_events tagged_held))) 10 l.
Proof.
  apply (long_values_found D D_domain D_values (lf_store tagged_file) (h_events tagged_held) (fo_store _ _ _ tagged_ok) by_value "t" [long; "edge"] by_value_long).
Defined.

(** ** Expiry behind an accepted checkpoint *)

Definition expiring : LocalFile := snd (run_local (local_run1 None) [LSave brief; LSave checkpoint; LAccept (ev_ID checkpoint)] empty_file).

Lemma expiring_read : Store_QueryEvents (lf_store expiring) any_filter = Ok [checkpoint; brief].
Proof. vm_compute. reflexivity. Qed.

Lemma expiring_refused : Store_DeleteEvent (ev_ID checkpoint) expiring = (Err LocalAccepted, expiring).
Proof. vm_compute. reflexivity. Qed.

(** An accepted checkpoint whose own expiration has passed stops every run
    of the expiry with an error before the older events are looked at, so an
    expired event beside it is kept for good. *)
Theorem accepted_blocks_expiry now : 1700000100 ≤ unix_sec now →
  PruneExpiredEvents false (λ _, false) now expiring = (Err LocalAccepted, expiring)
  ∧ past_expiration (unix_sec now) brief = true ∧ hasLocked (ev_ID brief) expiring = true.
Proof.
  intros Hn. assert (Hb : past_expiration (unix_sec now) brief = true ∧ past_expiration (unix_sec now) checkpoint = true).
  { unfold past_expiration. change (expirationOf (ev_Tags brief)) with (Some 1700000100). change (expirationOf (ev_Tags checkpoint)) with (Some 1700000100). split; by apply Z.leb_le. }
  split; [|split; [apply Hb|vm_compute; reflexivity]]. unfold PruneExpiredEvents, prune, act_bind, act_read. rewrite expiring_read.
  rewrite filter_cons_True by (by rewrite (proj2 Hb)). cbn [fmap list_fmap prune_loop]. unfold act_bind. by rewrite expiring_refused.
Qed.

Lemma accepted_blocks_expiry_witness : PruneExpiredEvents false (λ _, false) 1700000200000000000 expiring = (Err LocalAccepted, expiring).
Proof. apply (accepted_blocks_expiry 1700000200000000000). vm_compute. congruence. Defined.

End LocalSample.
