(* ===== verification/Rollout.v ===== *)
(** * Progressive rollouts

    [src/internal/rollout/strategy.go], [health_gate.go] and [executor.go],
    with the records of [src/internal/domain/rollout.go]: plans of steps, the
    health gate that polls a runtime, and the executor that walks a plan, rolls
    back on the first failure and verifies what the runtime reports.

    The runtime, the observer, the plan repository and the clock are arbitrary
    functions of a world; every call to them and its answer is recorded. *)

From Stdlib Require Import ZArith Lia Bool Ascii.
From stdpp Require Import base tactics decidable option list numbers strings gmap.
From S2P Require Import Prelude Action Bytes.

(** ** Records *)

Inductive DeployStrategy :=
| DeployStrategyReplace
| DeployStrategyBlueGreen
| DeployStrategyCanary
| DeployStrategyOther (s : string).

Inductive RolloutStatus :=
| RolloutStatusPending
| RolloutStatusRunning
| RolloutStatusCompleted
| RolloutStatusFailed
| RolloutStatusRolledBack.

Inductive StepAction :=
| StepActionDeployCanary
| StepActionShiftTraffic
| StepActionObserve
| StepActionPromote
| StepActionRollback
| StepActionDeployGreen
| StepActionSwitch
| StepActionOther (s : string).

Inductive StepStatus :=
| StepStatusPending
| StepStatusRunning
| StepStatusPassed
| StepStatusFailed
| StepStatusSkipped.

Inductive HealthStatus :=
| HealthStatusUnknown
| HealthStatusStarting
| HealthStatusHealthy
| HealthStatusUnhealthy
| HealthStatusStopped
| HealthStatusOther (s : string).

#[export] Instance RolloutStatus_eq_dec : EqDecision RolloutStatus.
Proof. solve_decision. Defined.
#[export] Instance HealthStatus_eq_dec : EqDecision HealthStatus.
Proof. solve_decision. Defined.
#[export] Instance DeployStrategy_eq_dec : EqDecision DeployStrategy.
Proof. solve_decision. Defined.

(** A value of a [map[string]any]; of a float the code only uses what is left
    after truncation. *)
Inductive AnyValue :=
| AnyInt (z : Z)
| AnyFloat (truncated : Z)
| AnyString (s : string).

(** [v.(float64)] and [v.(string)] *)
Definition any_float (v : option AnyValue) : option Z := match v with Some (AnyFloat z) => Some z | _ => None end.
Definition any_string (v : option AnyValue) : option string := match v with Some (AnyString s) => Some s | _ => None end.

Record RolloutPlan := mkRolloutPlan {
  rp_ID : string;
  rp_DeploymentIntentID : string;
  rp_Strategy : DeployStrategy;
  rp_CurrentStep : Z;
  rp_Status : RolloutStatus;
  rp_StartedAt : option Z;
  rp_CompletedAt : option Z;
}.

(** [Error] of a gate: what the text says. *)
Inductive GateError :=
| GateNone
| GateCancelled
| GateTimeout
| GateObservation (err : string)
| GateObservations (n : Z) (err : string)
| GateUnhealthy (n : Z) (status : HealthStatus).

Record HealthCheckResult := mkHealthCheckResult {
  hc_Passed : bool;
  hc_TotalChecks : Z;
  hc_HealthyChecks : Z;
  hc_UnhealthyChecks : Z;
  hc_LastHealth : HealthStatus;
  hc_Duration : Z;
  hc_Error : GateError;
}.

(** What a step keeps of its execution. *)
Inductive StepHealth :=
| StepNoHealth
| StepGate (result : HealthCheckResult)
| StepError.

Record RolloutStep := mkRolloutStep {
  rs_ID : string;
  rs_RolloutPlanID : string;
  rs_StepOrder : Z;
  rs_Action : StepAction;
  rs_Config : gmap string AnyValue;
  rs_Status : StepStatus;
  rs_HealthResult : StepHealth;
  rs_StartedAt : option Z;
  rs_CompletedAt : option Z;
}.

Record HealthGateConfig := mkHealthGateConfig {
  hg_Interval : Z;
  hg_Timeout : Z;
  hg_SuccessThreshold : Z;
  hg_FailureThreshold : Z;
}.

Definition DefaultHealthGate : HealthGateConfig := mkHealthGateConfig (10 * second) (300 * second) 3 2.

(** ** The outside *)

Record DeployOptions := mkDeployOptions {
  do_Labels : list (string * string);
  do_PullAlways : bool;
}.

Record TrafficState := mkTrafficState {
  ts_TargetSlot : string;
  ts_WeightPercent : Z;
}.

Record RuntimeObservation := mkRuntimeObservation {
  ob_ImageDigest : string;
  ob_ImageRepo : string;
  ob_HealthStatus : HealthStatus;
}.

(** What the [select] of the gate receives: the end of the context, or a tick. *)
Inductive Poll :=
| PollDone (err : string)
| PollTick (t : Z).

(** [None] is a nil error. *)
Class RolloutEnv (W : Type) := {
  env_Deploy : string → string → DeployOptions → W → option string * W;
  env_Undeploy : string → W → option string * W;
  env_Observe : string → W → result string (option RuntimeObservation) * W;
  (** Whether the runtime is a [TrafficController]. *)
  env_Traffic : bool;
  env_ShiftTraffic : string → string → Z → W → result string TrafficState * W;
  env_SwitchTraffic : string → string → string → W → result string TrafficState * W;
  env_CreatePlan : RolloutPlan → W → option string * W;
  env_CreateSteps : list RolloutStep → W → option string * W;
  env_UpdatePlan : RolloutPlan → W → option string * W;
  env_UpdateStep : RolloutStep → W → option string * W;
  env_Now : W → Z * W;
  (** The [k]-th receive of a ticker of this interval created at [start]. *)
  env_Poll : Z → Z → nat → W → Poll * W;
  env_NewID : W → string * W;
}.

(** A ticker is never early. *)
Class RolloutEnvLaws W `{RolloutEnv W} : Prop := {
  tick_late start interval k w t w' : env_Poll start interval k w = (PollTick t, w') → start + (Z.of_nat k + 1) * interval ≤ t;
}.

(** A call outside and its answer. *)
Inductive Call :=
| CDeploy (name image : string) (opts : DeployOptions) (err : option string)
| CUndeploy (name : string) (err : option string)
| CObserve (name : string) (answer : result string (option RuntimeObservation))
| CShift (service slot : string) (weight : Z) (answer : result string TrafficState)
| CSwitch (service from to : string) (answer : result string TrafficState)
| CCreate (err : option string)
| CPlan (plan : RolloutPlan) (err : option string)
| CStep (step : RolloutStep) (err : option string)
| CTick (t : Z)
| CPublish (type : string).

Record World (W : Type) := mkWorld { wd_env : W; wd_log : list Call }.
Arguments mkWorld {W} _ _.
Arguments wd_env {W} _.
Arguments wd_log {W} _.

Inductive RolloutError :=
| ErrOutside (what err : string)
| ErrNoObservation
| ErrWeight (weight : Z)
| ErrNoTraffic
| ErrTraffic (state : TrafficState)
| ErrSlots
| ErrGate (result : HealthCheckResult)
| ErrGateCheck (err : string)
| ErrArtifact (actual : string)
| ErrHealth (actual : HealthStatus)
| ErrStillDeployed
| ErrStrategy
| ErrAction
| ErrJoined (errs : list RolloutError)
| ErrPanic
| ErrOutOfFuel.

(** [strings.LastIndex(s, c)], [None] for -1. *)
Fixpoint last_index (c : ascii) (s : string) : option nat :=
  match s with
  | EmptyString => None
  | String d s' =>
      match last_index c s' with
      | Some i => Some (S i)
      | None => if ascii_dec c d then Some O else None
      end
  end.

Section executor.
Context {W : Type} `{RolloutEnv W}.

Abbreviation M A := (act (World W) RolloutError A).

(** A call outside, recorded with its answer. *)
Definition outside {A} (f : W → A * W) (record : A → Call) : M A := λ s,
  let '(a, w) := f (wd_env s) in (Ok a, mkWorld w (wd_log s ++ [record a])).
Definition now : M Z := λ s, let '(t, w) := env_Now (wd_env s) in (Ok t, mkWorld w (wd_log s)).
Definition new_id : M string := λ s, let '(id, w) := env_NewID (wd_env s) in (Ok id, mkWorld w (wd_log s)).
Definition publish (type : string) : M unit := act_write (λ s, mkWorld (wd_env s) (wd_log s ++ [CPublish type])).

Definition deploy (name image : string) (opts : DeployOptions) : M (option string) := outside (env_Deploy name image opts) (CDeploy name image opts).
Definition undeploy (name : string) : M (option string) := outside (env_Undeploy name) (CUndeploy name).
Definition observe (name : string) : M (result string (option RuntimeObservation)) := outside (env_Observe name) (CObserve name).
Definition update_plan (plan : RolloutPlan) : M (option string) := outside (env_UpdatePlan plan) (CPlan plan).
Definition update_step (step : RolloutStep) : M (option string) := outside (env_UpdateStep step) (CStep step).

(** [if err != nil { return fmt.Errorf(what, err) }] *)
Definition or_fail (what : string) (err : option string) : M unit :=
  match err with None => act_ret tt | Some e => act_fail (ErrOutside what e) end.

(** ** Plans *)

Definition new_step (planID : string) (order : Z) (action : StepAction) (config : gmap string AnyValue) : M RolloutStep :=
  do! id := new_id in
  act_ret (mkRolloutStep id planID order action config StepStatusPending StepNoHealth None None).

Definition buildCanarySteps (planID : string) : M (list RolloutStep) :=
  do! s0 := new_step planID 0 StepActionDeployCanary {[ "weight"%string := AnyInt 10 ]} in
  do! s1 := new_step planID 1 StepActionObserve
    (list_to_map [("duration_seconds"%string, AnyInt 60); ("target_slot"%string, AnyString "canary"); ("success_threshold"%string, AnyInt 3); ("failure_threshold"%string, AnyInt 2)]) in
  do! s2 := new_step planID 2 StepActionShiftTraffic {[ "weight"%string := AnyInt 50 ]} in
  do! s3 := new_step planID 3 StepActionObserve
    (list_to_map [("duration_seconds"%string, AnyInt 120); ("target_slot"%string, AnyString "canary"); ("success_threshold"%string, AnyInt 3); ("failure_threshold"%string, AnyInt 2)]) in
  do! s4 := new_step planID 4 StepActionPromote (list_to_map [("weight"%string, AnyInt 100); ("from_slot"%string, AnyString "canary")]) in
  act_ret [s0; s1; s2; s3; s4].

Definition buildBlueGreenSteps (planID : string) : M (list RolloutStep) :=
  do! s0 := new_step planID 0 StepActionDeployGreen {[ "slot"%string := AnyString "green" ]} in
  do! s1 := new_step planID 1 StepActionObserve
    (list_to_map [("duration_seconds"%string, AnyInt 60); ("target_slot"%string, AnyString "green"); ("success_threshold"%string, AnyInt 3); ("failure_threshold"%string, AnyInt 2)]) in
  do! s2 := new_step planID 2 StepActionSwitch (list_to_map [("from"%string, AnyString "blue"); ("to"%string, AnyString "green")]) in
  do! s3 := new_step planID 3 StepActionObserve
    (list_to_map [("duration_seconds"%string, AnyInt 30); ("success_threshold"%string, AnyInt 2); ("failure_threshold"%string, AnyInt 1)]) in
  do! s4 := new_step planID 4 StepActionPromote (list_to_map [("cleanup_slot"%string, AnyString "blue"); ("from_slot"%string, AnyString "green")]) in
  act_ret [s0; s1; s2; s3; s4].

Definition BuildPlan (intentID : string) (strategy : DeployStrategy) : M (RolloutPlan * list RolloutStep) :=
  do! planID := new_id in
  let plan := mkRolloutPlan planID intentID strategy 0 RolloutStatusPending None None in
  do! steps := match strategy with
    | DeployStrategyCanary => buildCanarySteps planID
    | DeployStrategyBlueGreen => buildBlueGreenSteps planID
    | _ => do! s0 := new_step planID 0 StepActionPromote {[ "weight"%string := AnyInt 100 ]} in act_ret [s0]
    end in
  act_ret (plan, steps).

(** ** The health gate *)

(** The counters of a check. *)
Record Gate := mkGate {
  ga_result : HealthCheckResult;
  ga_healthy : Z;
  ga_unhealthy : Z;
}.

Definition new_gate : Gate := mkGate (mkHealthCheckResult false 0 0 0 (HealthStatusOther "") 0 GateNone) 0 0.

Definition finished (g : HealthCheckResult) (passed : bool) (duration : Z) (err : GateError) : HealthCheckResult :=
  mkHealthCheckResult passed (hc_TotalChecks g) (hc_HealthyChecks g) (hc_UnhealthyChecks g) (hc_LastHealth g) duration err.

(** One observation: the counters after it. *)
Definition observed_error (err : string) (g : Gate) : Gate :=
  let r := ga_result g in
  mkGate (mkHealthCheckResult (hc_Passed r) (hc_TotalChecks r + 1) (hc_HealthyChecks r) (hc_UnhealthyChecks r + 1) (hc_LastHealth r) (hc_Duration r) (GateObservation err))
    0 (ga_unhealthy g + 1).
Definition observed_healthy (g : Gate) : Gate :=
  let r := ga_result g in
  mkGate (mkHealthCheckResult (hc_Passed r) (hc_TotalChecks r + 1) (hc_HealthyChecks r + 1) (hc_UnhealthyChecks r) HealthStatusHealthy (hc_Duration r) (hc_Error r))
    (ga_healthy g + 1) 0.
Definition observed_unhealthy (status : HealthStatus) (g : Gate) : Gate :=
  let r := ga_result g in
  mkGate (mkHealthCheckResult (hc_Passed r) (hc_TotalChecks r + 1) (hc_HealthyChecks r) (hc_UnhealthyChecks r + 1) status (hc_Duration r) (hc_Error r))
    0 (ga_unhealthy g + 1).

(** The loop of [Check], at receive [k] with [n] left. *)
Fixpoint gate_loop (n : nat) (cfg : HealthGateConfig) (serviceName : string) (start : Z) (k : nat) (g : Gate) : M HealthCheckResult :=
  match n with
  | O => act_fail ErrOutOfFuel
  | S n' =>
      do! poll := (λ s, let '(p, w) := env_Poll start (hg_Interval cfg) k (wd_env s) in
                        (Ok p, mkWorld w (wd_log s ++ match p with PollTick t => [CTick t] | PollDone _ => [] end))) in
      match poll with
      | PollDone err => act_fail (ErrGateCheck err)
      | PollTick t =>
          if start + hg_Timeout cfg <? t then
            do! t' := now in act_ret (finished (ga_result g) (hc_Passed (ga_result g)) (t' - start) GateTimeout)
          else
            do! answer := observe serviceName in
            match answer with
            | Err err =>
                let g := observed_error err g in
                if hg_FailureThreshold cfg <=? ga_unhealthy g then
                  do! t' := now in act_ret (finished (ga_result g) (hc_Passed (ga_result g)) (t' - start) (GateObservations (ga_unhealthy g) err))
                else gate_loop n' cfg serviceName start (S k) g
            | Ok None => act_fail ErrPanic
            | Ok (Some obs) =>
                if bool_decide (ob_HealthStatus obs = HealthStatusHealthy) then
                  let g := observed_healthy g in
                  if hg_SuccessThreshold cfg <=? ga_healthy g then
                    do! t' := now in act_ret (finished (ga_result g) true (t' - start) (hc_Error (ga_result g)))
                  else gate_loop n' cfg serviceName start (S k) g
                else
                  let g := observed_unhealthy (ob_HealthStatus obs) g in
                  if hg_FailureThreshold cfg <=? ga_unhealthy g then
                    do! t' := now in act_ret (finished (ga_result g) false (t' - start) (GateUnhealthy (ga_unhealthy g) (ob_HealthStatus obs)))
                  else gate_loop n' cfg serviceName start (S k) g
            end
      end
  end.

(** Receives until the deadline has passed, for ticks that are not early. *)
Definition gate_fuel (cfg : HealthGateConfig) : nat := Z.to_nat (hg_Timeout cfg / hg_Interval cfg) + 2.

(** [HealthGate.Check]; [NewTicker] panics on an interval below zero. *)
Definition HealthGate_Check (serviceName : string) (cfg : HealthGateConfig) : M HealthCheckResult :=
  let cfg := if hg_Interval cfg =? 0 then DefaultHealthGate else cfg in
  do! start := now in
  if hg_Interval cfg <? 0 then act_fail ErrPanic
  else gate_loop (gate_fuel cfg) cfg serviceName start 0 new_gate.

(** ** Traffic *)

Definition trafficController : M unit := if env_Traffic then act_ret tt else act_fail ErrNoTraffic.
Definition shift (serviceName slot : string) (weight : Z) : M (result string TrafficState) :=
  outside (env_ShiftTraffic serviceName slot weight) (CShift serviceName slot weight).
Definition switch (serviceName from to : string) : M (result string TrafficState) :=
  outside (env_SwitchTraffic serviceName from to) (CSwitch serviceName from to).

(** The runtime reports what was asked. *)
Definition verify_traffic (slot : string) (weight : Z) (answer : result string TrafficState) : M unit :=
  match answer with
  | Err err => act_fail (ErrOutside "traffic" err)
  | Ok state =>
      if String.eqb (ts_TargetSlot state) slot && (ts_WeightPercent state =? weight) then act_ret tt
      else act_fail (ErrTraffic state)
  end.

Definition shiftTraffic (serviceName targetSlot : string) (weight : Z) : M unit :=
  if (weight <? 0) || (100 <? weight) then act_fail (ErrWeight weight)
  else
    do! _ := trafficController in
    do! answer := shift serviceName targetSlot weight in
    verify_traffic targetSlot weight answer.

Definition restoreTraffic (strategy : DeployStrategy) (serviceName : string) : M unit :=
  match strategy with
  | DeployStrategyReplace => act_ret tt
  | _ =>
      do! _ := trafficController in
      match strategy with
      | DeployStrategyCanary =>
          do! answer := shift serviceName "canary" 0 in verify_traffic "canary" 0 answer
      | DeployStrategyBlueGreen =>
          do! answer := switch serviceName "green" "blue" in verify_traffic "blue" 100 answer
      | _ => act_fail ErrStrategy
      end
  end.

(** ** The primary and its artifact *)

Definition observedArtifact (obs : option RuntimeObservation) : string :=
  match obs with
  | None => ""
  | Some obs =>
      let repo := trim_space (ob_ImageRepo obs) in
      let digest := trim_space (ob_ImageDigest obs) in
      if String.eqb digest "" || contains_byte "@" repo then repo
      else
        let repo := match last_index ":" repo with
          | Some lastColon =>
              if match last_index "/" repo with Some lastSlash => (lastSlash <? lastColon)%nat | None => true end
              then String.substring 0 lastColon repo else repo
          | None => repo
          end in
        if String.eqb repo "" then digest else repo +:+ "@" +:+ digest
  end.

Definition captureArtifact (serviceName : string) : M string :=
  do! answer := observe serviceName in
  match answer with
  | Err err => act_fail (ErrOutside "observe" err)
  | Ok None => act_fail ErrNoObservation
  | Ok (Some obs) =>
      if bool_decide (ob_HealthStatus obs = HealthStatusStopped) then act_ret ""
      else act_ret (observedArtifact (Some obs))
  end.

Definition rollback_options (serviceName : string) : DeployOptions :=
  mkDeployOptions [("bahia.service"%string, serviceName); ("bahia.rollback"%string, "true"%string)] true.

(** The primary runs the artifact, and is healthy. *)
Definition runs_artifact (artifact : string) (answer : result string (option RuntimeObservation)) : bool :=
  match answer with
  | Ok (Some obs) => String.eqb (observedArtifact (Some obs)) artifact && bool_decide (ob_HealthStatus obs = HealthStatusHealthy)
  | _ => false
  end.

Definition verify_primary (previousArtifact : string) (answer : result string (option RuntimeObservation)) : M unit :=
  match answer with
  | Err err => act_fail (ErrOutside "verifying restored primary" err)
  | Ok None => act_fail ErrNoObservation
  | Ok (Some obs) =>
      let actual := observedArtifact (Some obs) in
      if negb (String.eqb actual previousArtifact) then act_fail (ErrArtifact actual)
      else if negb (bool_decide (ob_HealthStatus obs = HealthStatusHealthy)) then act_fail (ErrHealth (ob_HealthStatus obs))
      else act_ret tt
  end.

Definition restorePrimary (serviceName previousArtifact : string) : M unit :=
  if String.eqb previousArtifact "" then
    do! err := undeploy serviceName in
    do! _ := or_fail "removing newly-created primary deployment" err in
    do! answer := observe serviceName in
    match answer with
    | Err err => act_fail (ErrOutside "verifying primary removal" err)
    | Ok (Some obs) => if bool_decide (ob_HealthStatus obs = HealthStatusStopped) then act_ret tt else act_fail ErrStillDeployed
    | Ok None => act_fail ErrStillDeployed
    end
  else
    do! answer := observe serviceName in
    do! answer := (if runs_artifact previousArtifact answer then act_ret answer
                   else
                     do! err := deploy serviceName previousArtifact (rollback_options serviceName) in
                     do! _ := or_fail "restoring previous primary artifact" err in
                     observe serviceName) in
    verify_primary previousArtifact answer.

(** ** Slots *)

Definition cleanupSlots (serviceName : string) : M unit :=
  do! canary := undeploy (serviceName +:+ "-canary") in
  do! green := undeploy (serviceName +:+ "-green") in
  match canary, green with
  | None, None => act_ret tt
  | Some e, None => act_fail (ErrJoined [ErrOutside "undeploying canary slot" e])
  | None, Some e => act_fail (ErrJoined [ErrOutside "undeploying green slot" e])
  | Some e, Some e' => act_fail (ErrJoined [ErrOutside "undeploying canary slot" e; ErrOutside "undeploying green slot" e'])
  end.

(** ** Steps *)

Definition slot_options (serviceName slot : string) : DeployOptions :=
  mkDeployOptions [("bahia.service"%string, serviceName); ("bahia.slot"%string, slot)] false.
Definition promote_options (serviceName : string) : DeployOptions :=
  mkDeployOptions [("bahia.service"%string, serviceName)] true.

(** The gate of a step: the defaults, and what the step sets. *)
Definition gate_config (config : gmap string AnyValue) : HealthGateConfig :=
  let d := DefaultHealthGate in
  mkHealthGateConfig (hg_Interval d)
    (match any_float (config !! "duration_seconds"%string) with Some durSec => durSec * second | None => hg_Timeout d end)
    (default (hg_SuccessThreshold d) (any_float (config !! "success_threshold"%string)))
    (default (hg_FailureThreshold d) (any_float (config !! "failure_threshold"%string))).

Definition observed_name (serviceName : string) (config : gmap string AnyValue) : string :=
  match any_string (config !! "target_slot"%string) with
  | Some slot => serviceName +:+ "-" +:+ slot
  | None => serviceName
  end.

(** A string setting, trimmed; [None] when it is missing or blank. *)
Definition trimmed (v : option AnyValue) : option string :=
  match any_string v with
  | Some s => if String.eqb (trim_space s) "" then None else Some (trim_space s)
  | None => None
  end.

(** [executeStep]; the health the step keeps when it succeeds. *)
Definition executeStep (step : RolloutStep) (serviceName image : string) : M StepHealth :=
  let config := rs_Config step in
  let keep := rs_HealthResult step in
  match rs_Action step with
  | StepActionDeployCanary =>
      do! err := deploy (serviceName +:+ "-canary") image (slot_options serviceName "canary") in
      do! _ := or_fail "deploy" err in
      let weight := default 10 (any_float (config !! "weight"%string)) in
      do! _ := shiftTraffic serviceName "canary" weight in
      act_ret keep
  | StepActionDeployGreen =>
      do! err := deploy (serviceName +:+ "-green") image (slot_options serviceName "green") in
      do! _ := or_fail "deploy" err in
      act_ret keep
  | StepActionObserve =>
      do! result := HealthGate_Check (observed_name serviceName config) (gate_config config) in
      if hc_Passed result then act_ret (StepGate result) else act_fail (ErrGate result)
  | StepActionShiftTraffic =>
      let weight := default 50 (any_float (config !! "weight"%string)) in
      if (weight <? 0) || (100 <? weight) then act_fail (ErrWeight weight)
      else
        let targetSlot := default "canary"%string (trimmed (config !! "target_slot"%string)) in
        do! _ := shiftTraffic serviceName targetSlot weight in
        act_ret keep
  | StepActionSwitch =>
      do! _ := trafficController in
      match trimmed (config !! "from"%string), trimmed (config !! "to"%string) with
      | Some from, Some to =>
          do! answer := switch serviceName from to in
          do! _ := verify_traffic to 100 answer in
          act_ret keep
      | _, _ => act_fail ErrSlots
      end
  | StepActionPromote =>
      do! err := deploy serviceName image (promote_options serviceName) in
      do! _ := or_fail "promoting deployment" err in
      do! _ := match trimmed (config !! "from_slot"%string) with
        | Some fromSlot =>
            do! _ := trafficController in
            do! answer := switch serviceName fromSlot "primary" in
            verify_traffic "primary" 100 answer
        | None => act_ret tt
        end in
      do! _ := cleanupSlots serviceName in
      act_ret keep
  | StepActionRollback =>
      do! _ := cleanupSlots serviceName in
      act_ret keep
  | StepActionOther _ => act_fail ErrAction
  end.

(** ** Rolling back *)

Definition with_status (plan : RolloutPlan) (status : RolloutStatus) (completed : Z) : RolloutPlan :=
  mkRolloutPlan (rp_ID plan) (rp_DeploymentIntentID plan) (rp_Strategy plan) (rp_CurrentStep plan) status (rp_StartedAt plan) (Some completed).

Definition markRollbackFailed (plan : RolloutPlan) : M unit :=
  do! completed := now in
  do! _ := update_plan (with_status plan RolloutStatusFailed completed) in
  publish "rollout.rollback_failed".

(** [errors.Join]: every part runs, and the errors are kept. *)
Definition errors_of (results : list (result RolloutError unit)) : list RolloutError :=
  omap (λ r, match r with Err e => Some e | Ok _ => None end) results.

(** [autoRollback]; its error is only logged. *)
Definition autoRollback (plan : RolloutPlan) (serviceName previousArtifact : string) : M unit :=
  do! traffic := act_try (restoreTraffic (rp_Strategy plan) serviceName) in
  do! primary := act_try (restorePrimary serviceName previousArtifact) in
  do! slots := act_try (cleanupSlots serviceName) in
  match errors_of [traffic; primary; slots] with
  | _ :: _ => markRollbackFailed plan
  | [] =>
      do! completed := now in
      do! err := update_plan (with_status plan RolloutStatusRolledBack completed) in
      match err with
      | Some _ => markRollbackFailed plan
      | None => publish "rollout.rolled_back"
      end
  end.

(** ** The executor *)

Definition at_step (plan : RolloutPlan) (order : Z) : RolloutPlan :=
  mkRolloutPlan (rp_ID plan) (rp_DeploymentIntentID plan) (rp_Strategy plan) order (rp_Status plan) (rp_StartedAt plan) (rp_CompletedAt plan).
Definition running (step : RolloutStep) (started : Z) : RolloutStep :=
  mkRolloutStep (rs_ID step) (rs_RolloutPlanID step) (rs_StepOrder step) (rs_Action step) (rs_Config step) StepStatusRunning (rs_HealthResult step) (Some started) (rs_CompletedAt step).
Definition ended (step : RolloutStep) (status : StepStatus) (health : StepHealth) (completed : Z) : RolloutStep :=
  mkRolloutStep (rs_ID step) (rs_RolloutPlanID step) (rs_StepOrder step) (rs_Action step) (rs_Config step) status health (rs_StartedAt step) (Some completed).

(** [executeSteps]; a failed write of the repository ends it where it is, and
    an error of the action is a panic. *)
Fixpoint executeSteps (plan : RolloutPlan) (steps : list RolloutStep) (serviceName image previousArtifact : string) : M unit :=
  match steps with
  | [] =>
      do! completed := now in
      do! err := update_plan (with_status plan RolloutStatusCompleted completed) in
      match err with Some _ => act_ret tt | None => publish "rollout.completed" end
  | step :: steps' =>
      let plan := at_step plan (rs_StepOrder step) in
      do! err := update_plan plan in
      match err with
      | Some _ => act_ret tt
      | None =>
          do! started := now in
          let step := running step started in
          do! err := update_step step in
          match err with
          | Some _ => act_ret tt
          | None =>
              do! outcome := act_try (executeStep step serviceName image) in
              match outcome with
              | Err ErrPanic => act_fail ErrPanic
              | Err ErrOutOfFuel => act_fail ErrOutOfFuel
              | Err _ =>
                  do! completed := now in
                  do! _ := update_step (ended step StepStatusFailed StepError completed) in
                  autoRollback plan serviceName previousArtifact
              | Ok health =>
                  do! completed := now in
                  do! err := update_step (ended step StepStatusPassed health completed) in
                  match err with
                  | Some _ => act_ret tt
                  | None =>
                      do! _ := publish "rollout.step_completed" in
                      executeSteps plan steps' serviceName image previousArtifact
                  end
              end
          end
      end
  end.

Definition create_plan (plan : RolloutPlan) : M (option string) := outside (env_CreatePlan plan) CCreate.
Definition create_steps (steps : list RolloutStep) : M (option string) := outside (env_CreateSteps steps) CCreate.

(** [CreateAndStart]: what it does before the steps, and the plan, the steps
    and the artifact it hands to [executeSteps]. *)
Definition create (intentID : string) (strategy : DeployStrategy) (serviceName : string) : M (RolloutPlan * list RolloutStep * string) :=
  do! previousArtifact := captureArtifact serviceName in
  do! built := BuildPlan intentID strategy in
  let '(plan, steps) := built in
  do! err := create_plan plan in
  do! _ := or_fail "creating rollout plan" err in
  do! err := create_steps steps in
  do! _ := or_fail "creating rollout steps" err in
  do! started := now in
  let plan := mkRolloutPlan (rp_ID plan) (rp_DeploymentIntentID plan) (rp_Strategy plan) (rp_CurrentStep plan) RolloutStatusRunning (Some started) (rp_CompletedAt plan) in
  do! err := update_plan plan in
  do! _ := or_fail "starting rollout plan" err in
  do! _ := publish "rollout.started" in
  act_ret (plan, steps, previousArtifact).

(** [CreateAndStart] with the goroutine it starts. *)
Definition CreateAndStart (intentID : string) (strategy : DeployStrategy) (serviceName image : string) : M unit :=
  do! created := create intentID strategy serviceName in
  let '(plan, steps, previousArtifact) := created in
  executeSteps plan steps serviceName image previousArtifact.

End executor.
