(* ===== verification/RolloutTrace.v ===== *)
(** * The calls of a progressive rollout

    A small logic of traces for [Rollout]: [emits c Q] says that a run of [c]
    that ends with [r] has added calls [l] with [Q r l].  With it, the verdict
    of the health gate, the evidence each step leaves, and the relation [ran]
    that describes every run of [executeSteps], whatever the runtime, the
    observer and the plan repository answer. *)

From Stdlib Require Import ZArith Lia Bool Ascii.
From stdpp Require Import base tactics decidable option list numbers strings gmap.
From S2P Require Import Prelude Action Bytes Rollout.

(** ** Traces *)

Section traces.
Context {W : Type} `{RolloutEnv W}.

Abbreviation M A := (act (World W) RolloutError A).

Definition emits {A} (c : M A) (Q : result RolloutError A → list Call → Prop) : Prop :=
  ∀ s r s', c s = (r, s') → ∃ l, wd_log s' = wd_log s ++ l ∧ Q r l.

Lemma emits_ret {A} (a : A) (Q : result RolloutError A → list Call → Prop) : Q (Ok a) [] → emits (act_ret a) Q.
Proof. intros HQ s r s' [= <- <-]. exists []. by rewrite app_nil_r. Qed.
Lemma emits_fail {A} e (Q : result RolloutError A → list Call → Prop) : Q (Err e) [] → emits (act_fail e) Q.
Proof. intros HQ s r s' [= <- <-]. exists []. by rewrite app_nil_r. Qed.
Lemma emits_outside {A} (f : W → A * W) record (Q : result RolloutError A → list Call → Prop) :
  (∀ a, Q (Ok a) [record a]) → emits (outside f record) Q.
Proof. intros HQ s r s'. unfold outside. destruct (f _) as [a w]. intros [= <- <-]. eauto. Qed.
Lemma emits_now (Q : result RolloutError Z → list Call → Prop) : (∀ t, Q (Ok t) []) → emits now Q.
Proof. intros HQ s r s'. unfold now. destruct (env_Now _) as [t w]. intros [= <- <-]. exists []. rewrite app_nil_r. eauto. Qed.
Lemma emits_new_id (Q : result RolloutError string → list Call → Prop) : (∀ id, Q (Ok id) []) → emits new_id Q.
Proof. intros HQ s r s'. unfold new_id. destruct (env_NewID _) as [t w]. intros [= <- <-]. exists []. rewrite app_nil_r. eauto. Qed.
Lemma emits_publish type (Q : result RolloutError unit → list Call → Prop) : Q (Ok tt) [CPublish type] → emits (publish type) Q.
Proof. intros HQ s r s' [= <- <-]. eauto. Qed.

Lemma emits_bind {A B} (c : M A) (k : A → M B) (Q : result RolloutError B → list Call → Prop) :
  emits c (λ r l, match r with Ok a => emits (k a) (λ r' l', Q r' (l ++ l')) | Err e => Q (Err e) l end) →
  emits (act_bind c k) Q.
Proof.
  intros Hc s r s'. unfold act_bind. destruct (c s) as [[a|e] s1] eqn:E; apply Hc in E as (l & Hl & HQ).
  - intros Hk. apply HQ in Hk as (l' & Hl' & HQ'). exists (l ++ l'). by rewrite Hl', Hl, app_assoc.
  - intros [= <- <-]. eauto.
Qed.
Lemma emits_try {A E'} (c : M A) (Q : result E' (result RolloutError A) → list Call → Prop) :
  emits c (λ r l, Q (Ok r) l) → ∀ s r s', act_try c s = (r, s') → ∃ l, wd_log s' = wd_log s ++ l ∧ Q r l.
Proof. intros Hc s r s' (x & -> & E)%act_try_inv. by apply Hc in E. Qed.
Lemma emits_weaken {A} (c : M A) (Q Q' : result RolloutError A → list Call → Prop) :
  emits c Q → (∀ r l, Q r l → Q' r l) → emits c Q'.
Proof. intros Hc HQ s r s' E. apply Hc in E as (l & Hl & HQ'). eauto. Qed.
End traces.

(** Steps through the calls of an action. *)
Ltac emit_step :=
  lazymatch goal with
  | |- emits (act_bind _ _) _ => apply emits_bind
  | |- emits (act_ret _) _ => apply emits_ret
  | |- emits (act_fail _) _ => apply emits_fail
  | |- emits (outside _ _) _ => apply emits_outside; intros ?
  | |- emits (deploy _ _ _) _ => apply emits_outside; intros ?
  | |- emits (undeploy _) _ => apply emits_outside; intros ?
  | |- emits (observe _) _ => apply emits_outside; intros ?
  | |- emits (update_plan _) _ => apply emits_outside; intros ?
  | |- emits (update_step _) _ => apply emits_outside; intros ?
  | |- emits (shift _ _ _) _ => apply emits_outside; intros ?
  | |- emits (switch _ _ _) _ => apply emits_outside; intros ?
  | |- emits (create_plan _) _ => apply emits_outside; intros ?
  | |- emits (create_steps _) _ => apply emits_outside; intros ?
  | |- emits now _ => apply emits_now; intros ?
  | |- emits new_id _ => apply emits_new_id; intros ?
  | |- emits (publish _) _ => apply emits_publish
  | |- emits (act_try _) _ => refine (emits_try _ _ _)
  | |- emits (or_fail _ ?e) _ => destruct e; simpl
  end; cbn beta iota.
Ltac emit := repeat emit_step.

(** ** The health gate *)

Definition healthy (answer : result string (option RuntimeObservation)) : bool :=
  match answer with Ok (Some obs) => bool_decide (ob_HealthStatus obs = HealthStatusHealthy) | _ => false end.

(** The observations of a trace: what was observed, and whether it was healthy. *)
Definition observations (l : list Call) : list (string * bool) :=
  omap (λ c, match c with CObserve name answer => Some (name, healthy answer) | _ => None end) l.

(** How many of the last observations in a row are [b]. *)
Definition trailing (b : bool) (obs : list bool) : Z :=
  foldl (λ n x, if Bool.eqb x b then n + 1 else 0) 0 obs.

Lemma trailing_snoc b obs x : trailing b (obs ++ [x]) = if Bool.eqb x b then trailing b obs + 1 else 0.
Proof. unfold trailing. by rewrite foldl_app. Qed.
Lemma trailing_nonneg b obs : 0 ≤ trailing b obs.
Proof. induction obs as [|x obs IH] using rev_ind; [done|]. rewrite trailing_snoc. destruct (Bool.eqb x b); lia. Qed.

Lemma trailing_suffix b obs n : Z.of_nat n ≤ trailing b obs ↔ replicate n b `suffix_of` obs.
Proof.
  revert n. induction obs as [|x obs IH] using rev_ind; intros n.
  - change (trailing b []) with 0. split.
    + intros ?. replace n with O by lia. done.
    + intros Hs%suffix_nil_inv. destruct n; [lia|done].
  - rewrite trailing_snoc. destruct n as [|n].
    + split; [intros _; apply suffix_nil|intros _]. destruct (Bool.eqb x b); [pose proof (trailing_nonneg b obs)|]; lia.
    + rewrite replicate_S_end. destruct (Bool.eqb x b) eqn:Ex.
      * apply Bool.eqb_prop in Ex as ->. split.
        -- intros ?. apply suffix_snoc, IH. lia.
        -- intros Hs%suffix_snoc_inv_2. apply IH in Hs. lia.
      * split; [lia|]. intros Hs%suffix_snoc_inv_1. subst. by rewrite Bool.eqb_reflx in Ex.
Qed.

(** A gate stops on this many healthy, or this many failed observations in a row. *)
Definition decided (cfg : HealthGateConfig) (obs : list bool) : Prop :=
  replicate (Z.to_nat (hg_SuccessThreshold cfg)) true `suffix_of` obs ∨ replicate (Z.to_nat (hg_FailureThreshold cfg)) false `suffix_of` obs.

Definition counted (res : HealthCheckResult) (obs : list bool) : Prop :=
  hc_TotalChecks res = Z.of_nat (length obs) ∧
  hc_HealthyChecks res = Z.of_nat (length (filter (eq true) obs)) ∧
  hc_UnhealthyChecks res = Z.of_nat (length (filter (eq false) obs)).

(** The result a gate with the trace [l] owes: the observations are counted,
    none before the last decided, it passed exactly when the last ones are
    healthy, and otherwise failed on the last ones or ran out of time. *)
Definition verdict (cfg : HealthGateConfig) (start : Z) (res : HealthCheckResult) (obs : list bool) (l : list Call) : Prop :=
  counted res obs ∧
  (∀ p, p `prefix_of` obs → p ≠ obs → ¬ decided cfg p) ∧
  (hc_Passed res = true ↔ replicate (Z.to_nat (hg_SuccessThreshold cfg)) true `suffix_of` obs) ∧
  (hc_Passed res = false → replicate (Z.to_nat (hg_FailureThreshold cfg)) false `suffix_of` obs ∨
     ¬ decided cfg obs ∧ ∃ t, last l = Some (CTick t) ∧ start + hg_Timeout cfg < t).

(** The counters of the loop after the observations [obs]. *)
Definition gate_counts (g : Gate) (obs : list bool) : Prop :=
  counted (ga_result g) obs ∧ hc_Passed (ga_result g) = false ∧ ga_healthy g = trailing true obs ∧ ga_unhealthy g = trailing false obs.

Lemma counted_snoc r r' obs (b : bool) : counted r obs → hc_TotalChecks r' = hc_TotalChecks r + 1 →
  hc_HealthyChecks r' = hc_HealthyChecks r + (if b then 1 else 0) → hc_UnhealthyChecks r' = hc_UnhealthyChecks r + (if b then 0 else 1) →
  counted r' (obs ++ [b]).
Proof.
  intros (Ht & Hh & Hu) Ht' Hh' Hu'. unfold counted. rewrite !filter_app, !length_app, Ht', Hh', Hu', Ht, Hh, Hu.
  destruct b; simpl; repeat split; lia.
Qed.

Lemma gate_counts_healthy g obs : gate_counts g obs → gate_counts (observed_healthy g) (obs ++ [true]).
Proof.
  intros (Hc & Hp & Hh & Hu). unfold gate_counts. rewrite !trailing_snoc. simpl. rewrite Hh.
  repeat split; try done; eapply counted_snoc; try done; simpl; lia.
Qed.
Lemma gate_counts_unhealthy status g obs : gate_counts g obs → gate_counts (observed_unhealthy status g) (obs ++ [false]).
Proof.
  intros (Hc & Hp & Hh & Hu). unfold gate_counts. rewrite !trailing_snoc. simpl. rewrite Hu.
  repeat split; try done; eapply counted_snoc; try done; simpl; lia.
Qed.
Lemma gate_counts_error err g obs : gate_counts g obs → gate_counts (observed_error err g) (obs ++ [false]).
Proof.
  intros (Hc & Hp & Hh & Hu). unfold gate_counts. rewrite !trailing_snoc. simpl. rewrite Hu.
  repeat split; try done; eapply counted_snoc; try done; simpl; lia.
Qed.

Lemma proper_prefix_snoc {A} (p l : list A) x : p `prefix_of` l ++ [x] → p ≠ l ++ [x] → p `prefix_of` l.
Proof.
  intros [k Hk] Hne. destruct k as [|y k] using rev_ind; [by rewrite app_nil_r in Hk|].
  rewrite app_assoc in Hk. apply app_inj_tail in Hk as [-> _]. by exists k.
Qed.

Section gate.
Context {W : Type} `{RolloutEnvLaws W}.
Context (cfg : HealthGateConfig) (serviceName : string) (start : Z).
Context (Hinterval : 0 < hg_Interval cfg) (Hsuccess : 0 < hg_SuccessThreshold cfg) (Hfailure : 0 < hg_FailureThreshold cfg).

Lemma decided_iff obs : decided cfg obs ↔ hg_SuccessThreshold cfg ≤ trailing true obs ∨ hg_FailureThreshold cfg ≤ trailing false obs.
Proof. unfold decided. rewrite <- !trailing_suffix, !Z2Nat.id by lia. done. Qed.

Lemma passed_iff obs : replicate (Z.to_nat (hg_SuccessThreshold cfg)) true `suffix_of` obs ↔ hg_SuccessThreshold cfg ≤ trailing true obs.
Proof. rewrite <- trailing_suffix, Z2Nat.id by lia. done. Qed.
Lemma failed_iff obs : replicate (Z.to_nat (hg_FailureThreshold cfg)) false `suffix_of` obs ↔ hg_FailureThreshold cfg ≤ trailing false obs.
Proof. rewrite <- trailing_suffix, Z2Nat.id by lia. done. Qed.

(** No prefix of what was observed so far decides. *)
Definition open (obs : list bool) : Prop := ∀ p, p `prefix_of` obs → ¬ decided cfg p.

Lemma open_snoc obs b : open obs → ¬ decided cfg (obs ++ [b]) → open (obs ++ [b]).
Proof.
  intros Ho Hd p Hp. destruct (decide (p = obs ++ [b])) as [->|Hne]; [done|]. apply Ho. by apply proper_prefix_snoc in Hp.
Qed.

(** The observations of the gate, without their name. *)
Definition checks (l : list Call) : list bool := (observations l).*2.

Lemma checks_app l l' : checks (l ++ l') = checks l ++ checks l'.
Proof. unfold checks, observations. by rewrite omap_app, fmap_app. Qed.

(** What a run of the gate leaves, after observations [obs0]. *)
Definition gate_post (obs0 : list bool) (r : result RolloutError HealthCheckResult) (l : list Call) : Prop :=
  Forall (λ o, o.1 = serviceName) (observations l) ∧
  (∀ c, c ∈ l → (∃ t, c = CTick t) ∨ ∃ a, c = CObserve serviceName a) ∧
  (l = [] → ∃ err, r = Err (ErrGateCheck err)) ∧
  match r with
  | Ok res => verdict cfg start res (obs0 ++ checks l) l
  | Err ErrPanic => last l = Some (CObserve serviceName (Ok None))
  | Err (ErrGateCheck _) => True
  | Err _ => False
  end.

Lemma gate_post_cons t a b obs0 r l : healthy a = b →
  gate_post (obs0 ++ [b]) r l → gate_post obs0 r (CTick t :: CObserve serviceName a :: l).
Proof.
  intros Hb (Hn & Hc & He & Hr). split_and!; [by constructor| |done|].
  - intros c [->|[->|Hin]%elem_of_cons]%elem_of_cons; eauto.
  - destruct (decide (l = [])) as [->|Hl]; [by destruct He as [err ->]|].
    assert (Hlast : last (CTick t :: CObserve serviceName a :: l) = last l) by by destruct l.
    assert (Hobs : obs0 ++ checks (CTick t :: CObserve serviceName a :: l) = (obs0 ++ [b]) ++ checks l) by (rewrite <- app_assoc, <- Hb; done).
    rewrite Hobs, Hlast. unfold verdict in *. rewrite Hlast. done.
Qed.
Lemma gate_post_last t a b obs0 r : healthy a = b →
  match r with
  | Ok res => verdict cfg start res (obs0 ++ [b]) [CTick t; CObserve serviceName a]
  | Err ErrPanic => a = Ok None
  | Err _ => False
  end → gate_post obs0 r [CTick t; CObserve serviceName a].
Proof.
  intros Hb Hr. split_and!; [by repeat constructor| |done|].
  - intros c [->|[->|Hin]%elem_of_cons]%elem_of_cons; eauto. by apply elem_of_nil in Hin.
  - change (checks _) with [healthy a]. rewrite Hb. destruct r as [|[]]; by subst.
Qed.

(** The verdict when the observations just decided, or the time is over. *)
Lemma verdict_passed obs0 b res l : open obs0 → counted res (obs0 ++ [b]) → hc_Passed res = true →
  hg_SuccessThreshold cfg ≤ trailing true (obs0 ++ [b]) → verdict cfg start res (obs0 ++ [b]) l.
Proof.
  intros Ho Hc Hp Ht. split_and!; [done| | |congruence].
  - intros p Hpre Hne. apply Ho. by apply proper_prefix_snoc in Hpre.
  - by rewrite passed_iff.
Qed.
Lemma verdict_failed obs0 res l : open obs0 → counted res (obs0 ++ [false]) → hc_Passed res = false →
  hg_FailureThreshold cfg ≤ trailing false (obs0 ++ [false]) → verdict cfg start res (obs0 ++ [false]) l.
Proof.
  intros Ho Hc Hp Ht. split_and!; [done| | |].
  - intros p Hpre Hne. apply Ho. by apply proper_prefix_snoc in Hpre.
  - rewrite passed_iff, trailing_snoc, Hp. simpl. split; [done|lia].
  - intros _. left. by rewrite failed_iff.
Qed.
Lemma verdict_timeout obs0 res t l : open obs0 → counted res obs0 → hc_Passed res = false → last l = Some (CTick t) →
  start + hg_Timeout cfg < t → verdict cfg start res obs0 l.
Proof.
  intros Ho Hc Hp Hl Ht. assert (Hd : ¬ decided cfg obs0) by by apply Ho.
  split_and!; [done|intros p Hpre _; by apply Ho| |].
  - rewrite Hp. split; [done|]. intros Hs. destruct Hd. by left.
  - intros _. right. eauto.
Qed.

Lemma open_counted g obs : gate_counts g obs → ga_healthy g < hg_SuccessThreshold cfg → ga_unhealthy g < hg_FailureThreshold cfg → ¬ decided cfg obs.
Proof. intros (_ & _ & Hh & Hu). rewrite decided_iff. lia. Qed.

Lemma gate_loop_emits n k g obs : gate_counts g obs → open obs → (0 < n)%nat → hg_Timeout cfg < Z.of_nat (k + n) * hg_Interval cfg →
  emits (gate_loop n cfg serviceName start k g) (gate_post obs).
Proof.
  revert k g obs. induction n as [|n IH]; intros k g obs Hg Ho Hn Hfuel; [lia|]. simpl. apply emits_bind.
  intros s r s'. destruct (env_Poll _ _ _ _) as [[err|t] w] eqn:Ep; intros [= <- <-]; eexists; (split; [done|]).
  { emit. split_and!; simpl; [constructor|by intros ? ?%elem_of_nil|eauto|done]. }
  destruct (start + hg_Timeout cfg <? t) eqn:Et.
  { emit. split_and!; simpl; [constructor| |done|].
    { intros c ->%list_elem_of_singleton. eauto. }
    rewrite app_nil_r.     destruct Hg as (Hc & Hp & _). eapply verdict_timeout; try done. lia. }
  assert (Hrec : ∀ g' b, gate_counts g' (obs ++ [b]) → ¬ decided cfg (obs ++ [b]) → emits (gate_loop n cfg serviceName start (S k) g') (gate_post (obs ++ [b]))).
  { intros g' b Hg' Hd. apply tick_late in Ep. apply IH; [done|by apply open_snoc| |lia].
    destruct n; [|lia]. nia. }
  emit. destruct a as [[o|]|err].
  - case_bool_decide as Eh.
    + pose proof (gate_counts_healthy g obs Hg) as Hg'. case_match eqn:Es.
      * emit. rewrite app_nil_r. apply (gate_post_last _ _ true); [by apply bool_decide_eq_true|].
        destruct Hg' as (Hc & _ & Hh & _). simpl in Hh. apply verdict_passed; try done. lia.
      * eapply emits_weaken; [apply (Hrec _ true); [done|]|intros r' l'; by apply (gate_post_cons _ _ true), bool_decide_eq_true].
        apply (open_counted _ _ Hg'); simpl; lia.
    + pose proof (gate_counts_unhealthy (ob_HealthStatus o) g obs Hg) as Hg'. case_match eqn:Es.
      * emit. rewrite app_nil_r. apply (gate_post_last _ _ false); [by apply bool_decide_eq_false|].
        destruct Hg' as (Hc & _ & _ & Hu). simpl in Hu. apply verdict_failed; try done. lia.
      * eapply emits_weaken; [apply (Hrec _ false); [done|]|intros r' l'; by apply (gate_post_cons _ _ false), bool_decide_eq_false].
        apply (open_counted _ _ Hg'); simpl; lia.
  - emit. rewrite app_nil_r. by apply (gate_post_last _ _ false).
  - pose proof (gate_counts_error err g obs Hg) as Hg'. case_match eqn:Es.
    + emit. rewrite app_nil_r. apply (gate_post_last _ _ false); [done|].
      destruct Hg' as (Hc & Hp & _ & Hu). simpl in Hu. apply verdict_failed; try done. lia.
    + eapply emits_weaken; [apply (Hrec _ false); [done|]|intros r' l'; by apply (gate_post_cons _ _ false)].
      apply (open_counted _ _ Hg'); simpl; lia.
Qed.

End gate.

(** The configuration a check uses. *)
Definition used_config (cfg : HealthGateConfig) : HealthGateConfig := if hg_Interval cfg =? 0 then DefaultHealthGate else cfg.

Lemma gate_fuel_enough cfg : 0 < hg_Interval cfg → hg_Timeout cfg < Z.of_nat (0 + gate_fuel cfg) * hg_Interval cfg.
Proof.
  intros Hi. unfold gate_fuel. pose proof (Z.mul_succ_div_gt (hg_Timeout cfg) _ Hi) as Hd.
  destruct (Z.le_gt_cases 0 (hg_Timeout cfg / hg_Interval cfg)) as [Hq|Hq]; nia.
Qed.

(** A check, from the clock it reads first. *)
Lemma Check_emits {W} `{RolloutEnvLaws W} serviceName cfg s r s' :
  0 < hg_Interval (used_config cfg) → 0 < hg_SuccessThreshold (used_config cfg) → 0 < hg_FailureThreshold (used_config cfg) →
  HealthGate_Check serviceName cfg s = (r, s') →
  ∃ start l, fst (env_Now (wd_env s)) = start ∧ wd_log s' = wd_log s ++ l ∧ gate_post (used_config cfg) serviceName start [] r l.
Proof.
  unfold HealthGate_Check, now. fold (used_config cfg). intros Hi Hs Hf. unfold act_bind.
  destruct (env_Now (wd_env s)) as [start w]. replace (hg_Interval (used_config cfg) <? 0) with false by lia.
  intros E. apply (gate_loop_emits (used_config cfg)) with (obs := []) in E as (l & Hl & Hp); try done; [by eauto|..].
  - intros p ->%prefix_nil_inv. rewrite decided_iff by done. unfold trailing. simpl. lia.
  - unfold gate_fuel. lia.
  - by apply gate_fuel_enough.
Qed.

(** ** What a step leaves *)

(** Events of a trace in this order, with anything before each. *)
Fixpoint in_order (Ps : list (list Call → Prop)) (l : list Call) : Prop :=
  match Ps with
  | [] => True
  | P :: Ps' => ∃ l1 l2, l = l1 ++ l2 ∧ P l1 ∧ in_order Ps' l2
  end.

Definition ends_with (c : Call) (l : list Call) : Prop := last l = Some c.
Definition deployed (name image : string) (opts : DeployOptions) : list Call → Prop := ends_with (CDeploy name image opts None).
(** The runtime reported the traffic that was asked for. *)
Definition shifted (service slot : string) (weight : Z) : list Call → Prop := ends_with (CShift service slot weight (Ok (mkTrafficState slot weight))).
Definition switched (service from to : string) : list Call → Prop := ends_with (CSwitch service from to (Ok (mkTrafficState to 100))).
(** The last [n] observations are of [name], and healthy. *)
Definition gate_passed (name : string) (n : nat) (l : list Call) : Prop := ∃ l1 l2, l = l1 ++ l2 ∧ observations l2 = replicate n (name, true).

(** The evidence a step that passed has left. *)
Definition milestones (serviceName image : string) (step : RolloutStep) : list (list Call → Prop) :=
  let config := rs_Config step in
  match rs_Action step with
  | StepActionDeployCanary =>
      [deployed (serviceName +:+ "-canary") image (slot_options serviceName "canary");
       shifted serviceName "canary" (default 10 (any_float (config !! "weight"%string)))]
  | StepActionDeployGreen => [deployed (serviceName +:+ "-green") image (slot_options serviceName "green")]
  | StepActionObserve => [gate_passed (observed_name serviceName config) (Z.to_nat (hg_SuccessThreshold (gate_config config)))]
  | StepActionShiftTraffic =>
      [shifted serviceName (default "canary"%string (trimmed (config !! "target_slot"%string))) (default 50 (any_float (config !! "weight"%string)))]
  | StepActionSwitch =>
      [switched serviceName (default ""%string (trimmed (config !! "from"%string))) (default ""%string (trimmed (config !! "to"%string)))]
  | StepActionPromote => [deployed serviceName image (promote_options serviceName)]
  | _ => []
  end.

(** A deployment of the new image to the primary. *)
Definition promotes (serviceName : string) (c : Call) : Prop := ∃ image err, c = CDeploy serviceName image (promote_options serviceName) err.
(** A call of a step: to the runtime or the observer, not to the repository. *)
Definition outward (c : Call) : Prop := match c with CPlan _ _ | CStep _ _ | CCreate _ | CPublish _ => False | _ => True end.

(** Only a promoting step deploys to the primary, and deploys its image. *)
Definition promotion_of (serviceName image : string) (step : RolloutStep) (c : Call) : Prop :=
  ∀ image' err, c = CDeploy serviceName image' (promote_options serviceName) err → rs_Action step = StepActionPromote ∧ image' = image.

(** What a run of a step leaves. *)
Definition step_post (serviceName image : string) (step : RolloutStep) (r : result RolloutError StepHealth) (l : list Call) : Prop :=
  Forall outward l ∧
  Forall (promotion_of serviceName image step) l ∧
  match r with
  | Ok _ => in_order (milestones serviceName image step) l
  | Err ErrPanic => ∃ name, last l = Some (CObserve name (Ok None))
  | Err ErrOutOfFuel => False
  | Err _ => True
  end.

(** The gate of an observing step has thresholds it can reach. *)
Definition well_gated (step : RolloutStep) : Prop :=
  rs_Action step = StepActionObserve → 0 < hg_SuccessThreshold (gate_config (rs_Config step)) ∧ 0 < hg_FailureThreshold (gate_config (rs_Config step)).

Lemma ends_with_app c l l' : ends_with c l' → ends_with c (l ++ l').
Proof. unfold ends_with. rewrite last_app. by intros ->. Qed.
Lemma ends_with_snoc c l : ends_with c (l ++ [c]).
Proof. apply last_snoc. Qed.

Lemma observations_app l l' : observations (l ++ l') = observations l ++ observations l'.
Proof. apply omap_app. Qed.

Lemma omap_app_inv {A B} (f : A → option B) l k1 k2 : omap f l = k1 ++ k2 → ∃ l1 l2, l = l1 ++ l2 ∧ omap f l1 = k1 ∧ omap f l2 = k2.
Proof.
  revert k1. induction l as [|x l IH]; intros k1; simpl.
  - intros [-> ->]%eq_sym%app_eq_nil. by exists [], [].
  - destruct (f x) as [y|] eqn:E.
    + destruct k1 as [|y' k1]; simpl.
      * intros <-. exists [], (x :: l). simpl. by rewrite E.
      * intros [= <- (l1 & l2 & -> & <- & <-)%IH]. exists (x :: l1), l2. simpl. by rewrite E.
    + intros (l1 & l2 & -> & <- & <-)%IH. exists (x :: l1), l2. simpl. by rewrite E.
Qed.

Lemma snd_replicate {A} (name : A) (k : list (A * bool)) n : Forall (λ o, o.1 = name) k → k.*2 = replicate n true → k = replicate n (name, true).
Proof.
  intros Hk. revert n. induction Hk as [|[a b] k Ha Hk IH]; intros [|n]; simpl; try done.
  intros [= -> Hn%IH]. simpl in Ha. by subst.
Qed.

(** A gate that passed saw as many healthy observations in a row as it asks for. *)
Lemma verdict_gate_passed cfg name start res l : Forall (λ o, o.1 = name) (observations l) → verdict cfg start res (checks l) l →
  hc_Passed res = true → gate_passed name (Z.to_nat (hg_SuccessThreshold cfg)) l.
Proof.
  intros Hn (_ & _ & Hp & _) Hres. apply Hp in Hres as [k Hk]. unfold checks in Hk.
  apply fmap_app_inv in Hk as (k1 & k2 & _ & Hk2 & Hobs). pose proof (Hobs) as Hobs'.
  apply omap_app_inv in Hobs as (l1 & l2 & -> & _ & Ho2). exists l1, l2. split; [done|].
  unfold observations at 1. rewrite Ho2. apply snd_replicate; [|done]. rewrite Hobs' in Hn. by apply Forall_app in Hn as [_ ?].
Qed.

(** ** Calls that are neither writes nor promotions *)

Definition quiet (serviceName : string) (c : Call) : Prop := outward c ∧ ¬ promotes serviceName c.
(** An error that a step reports. *)
Definition ordinary (e : RolloutError) : Prop := match e with ErrPanic | ErrOutOfFuel => False | _ => True end.

Lemma quiet_outward serviceName l : Forall (quiet serviceName) l → Forall outward l.
Proof. intros Hl. eapply Forall_impl; [done|]. by intros c []. Qed.
Lemma quiet_promotion serviceName image step l : Forall (quiet serviceName) l → Forall (promotion_of serviceName image step) l.
Proof. intros Hl. eapply Forall_impl; [done|]. intros c [_ Hc] image' err ->. destruct Hc. by eexists _, _. Qed.

(** [Forall] over the calls of a trace that is spelled out. *)
Ltac calls := simpl; repeat match goal with
  | |- Forall _ (_ ++ _) => apply Forall_app; split
  | |- Forall _ [] => constructor
  | |- Forall _ (_ :: _) => constructor
  | |- quiet _ _ => split; [exact I|intros (? & ? & ?); unfold slot_options, rollback_options, promote_options in *; congruence]
  | |- outward _ => exact I
  end; try done.

Section steps.
Context {W : Type} `{RolloutEnvLaws W}.

Lemma verify_traffic_emits slot weight answer (Q : result RolloutError unit → list Call → Prop) :
  (answer = Ok (mkTrafficState slot weight) → Q (Ok tt) []) → (∀ e, ordinary e → Q (Err e) []) → emits (W := W) (verify_traffic slot weight answer) Q.
Proof.
  intros Hok Herr. destruct answer as [[t w]|err]; simpl; [|emit; by apply Herr].
  destruct (String.eqb_spec t slot) as [->|]; [destruct (Z.eqb_spec w weight) as [->|]|]; simpl; emit; auto; by apply Herr.
Qed.

Lemma shiftTraffic_emits svc slot weight : emits (shiftTraffic svc slot weight) (λ r l,
  Forall (quiet svc) l ∧ match r with Ok _ => shifted svc slot weight l | Err e => ordinary e end).
Proof.
  unfold shiftTraffic, trafficController. case_match; [emit; split; [calls|done]|]. case_match; emit; [|split; [calls|done]].
  apply verify_traffic_emits; [intros ->|intros e He]; (split; [calls|done]).
Qed.

Lemma cleanupSlots_emits svc : emits (cleanupSlots svc) (λ r l,
  Forall (quiet svc) l ∧ match r with Ok _ => l = [CUndeploy (svc +:+ "-canary") None; CUndeploy (svc +:+ "-green") None] | Err e => ordinary e end).
Proof. unfold cleanupSlots. emit. destruct a, a0; emit; (split; [calls|done]). Qed.

Lemma gate_emits svc step : rs_Action step = StepActionObserve → well_gated step →
  emits (HealthGate_Check (observed_name svc (rs_Config step)) (gate_config (rs_Config step))) (λ r l,
    Forall (quiet svc) l ∧
    match r with
    | Ok res => hc_Passed res = true → in_order (milestones svc "" step) l
    | Err ErrPanic => ∃ name, last l = Some (CObserve name (Ok None))
    | Err e => ordinary e
    end).
Proof.
  intros Ha Hw s r s' E. destruct (Hw Ha) as [Hs Hf].
  apply Check_emits in E as (start & l & _ & Hl & Hn & Hc & _ & Hr); try done. exists l. split; [done|]. split.
  - apply Forall_forall. intros c [[t ->]|[a ->]]%Hc; calls.
  - destruct r as [res|[]]; try done; [|eauto]. intros Hp. unfold milestones. rewrite Ha. exists l, []. rewrite app_nil_r.
    split_and!; [done| |done]. by eapply verdict_gate_passed.
Qed.

Lemma step_post_quiet svc image step r l : Forall (quiet svc) l →
  match r with Ok _ => in_order (milestones svc image step) l | Err e => ordinary e end → step_post svc image step r l.
Proof.
  intros Hq Hr. split_and!; [by eapply quiet_outward|by apply quiet_promotion|]. by destruct r as [|[]].
Qed.

Lemma in_order_one P l : P l → in_order [P] l.
Proof. intros HP. exists l, []. by rewrite app_nil_r. Qed.

Lemma promotion_cons svc image step err l : rs_Action step = StepActionPromote → Forall (quiet svc) l →
  Forall (promotion_of svc image step) (CDeploy svc image (promote_options svc) err :: l).
Proof. intros Ha Hl. constructor; [by intros ? ? [= <- _]|by apply quiet_promotion]. Qed.

Lemma promote_emits svc image step : rs_Action step = StepActionPromote →
  emits (executeStep step svc image) (step_post svc image step).
Proof.
  intros Ha. unfold step_post, executeStep, milestones. rewrite Ha. emit; try (split_and!; [calls|by apply promotion_cons|done]).
  assert (Hend : ∀ r l, Forall (quiet svc) l → match r with Ok _ => True | Err e => ordinary e end →
    step_post svc image step r (CDeploy svc image (promote_options svc) None :: l)).
  { intros r l Hq Hr. split_and!; [constructor; [done|by eapply quiet_outward]|by apply promotion_cons|].
    unfold milestones. rewrite Ha. destruct r as [h|[]]; try done. by exists [CDeploy svc image (promote_options svc) None], l. }
  unfold step_post, milestones in Hend. rewrite Ha in Hend.
  assert (Hclean : ∀ l0, Forall (quiet svc) l0 → emits (do! _ := cleanupSlots svc in act_ret (rs_HealthResult step)) (λ r l,
    Forall (quiet svc) (l0 ++ l) ∧ match r with Ok _ => True | Err e => ordinary e end)).
  { intros l0 Hl0. emit. eapply emits_weaken; [apply cleanupSlots_emits|]. intros [[]|e] l [Hq He]; emit; (split; [|done]); calls. }
  unfold trafficController. destruct (trimmed _) as [from|]; [destruct env_Traffic|]; emit.
  - apply verify_traffic_emits; [intros ->|intros e He; apply (Hend (Err e)); [calls|done]].
    eapply emits_weaken; [apply (Hclean [CSwitch svc from "primary" (Ok (mkTrafficState "primary" 100))]); calls|].
    intros r l [Hq Hr]. by apply Hend.
  - split_and!; [calls|by apply promotion_cons|done].
  - eapply emits_weaken; [apply cleanupSlots_emits|]. intros [[]|e] l [Hq Hs]; emit; [apply (Hend (Ok StepNoHealth))|by apply (Hend (Err e))]; calls.
Qed.

Lemma executeStep_emits svc image step : well_gated step → emits (executeStep step svc image) (step_post svc image step).
Proof.
  intros Hw. destruct (rs_Action step) eqn:Ha; [..|by apply promote_emits| | | |]; unfold executeStep; rewrite Ha.
  - emit; try (apply step_post_quiet; [calls|done]). eapply emits_weaken; [apply shiftTraffic_emits|].
    intros [[]|e] l [Hq Hs]; emit; (apply step_post_quiet; [calls; by rewrite ?app_nil_r|]); [|done].
    unfold milestones. rewrite Ha. exists [CDeploy (svc +:+ "-canary") image (slot_options svc "canary") None], l.
    rewrite app_nil_r. split_and!; [done|done|by apply in_order_one].
  - case_match; [emit; apply step_post_quiet; [calls|done]|]. emit. eapply emits_weaken; [apply shiftTraffic_emits|].
    intros [[]|e] l [Hq Hs]; emit; rewrite ?app_nil_r; (apply step_post_quiet; [done|]); [|done].
    unfold milestones. rewrite Ha. by apply in_order_one.
  - emit. eapply emits_weaken; [by apply (gate_emits svc step)|]. intros [res|e] l [Hq Hr].
    + case_match; emit; rewrite app_nil_r; apply step_post_quiet; try done. unfold milestones in *. rewrite Ha in *. auto.
    + split_and!; [by eapply quiet_outward|by apply quiet_promotion|]. by destruct e.
  - emit. eapply emits_weaken; [apply cleanupSlots_emits|]. intros [[]|e] l [Hq Hs]; emit; rewrite ?app_nil_r; (apply step_post_quiet; [done|]); [|done].
    unfold milestones. by rewrite Ha.
  - emit; (apply step_post_quiet; [calls|]); [done|]. unfold milestones. rewrite Ha. by apply in_order_one.
  - unfold trafficController. destruct env_Traffic; emit; [|apply step_post_quiet; [calls|done]].
    destruct (trimmed _) as [from|] eqn:Ef; [destruct (trimmed (rs_Config step !! "to"%string)) as [to|] eqn:Et|]; emit; try (apply step_post_quiet; [calls|done]).
    apply verify_traffic_emits; [intros ->|intros e He]; emit; (apply step_post_quiet; [calls|]); [|by destruct e].
    unfold milestones. rewrite Ha, Ef, Et. by apply in_order_one.
  - emit. apply step_post_quiet; [calls|done].
Qed.
End steps.

(** ** What a rollback leaves *)

Definition traffic_restored (strategy : DeployStrategy) (serviceName : string) (l : list Call) : Prop :=
  match strategy with
  | DeployStrategyReplace => l = []
  | DeployStrategyCanary => l = [CShift serviceName "canary" 0 (Ok (mkTrafficState "canary" 0))]
  | DeployStrategyBlueGreen => l = [CSwitch serviceName "green" "blue" (Ok (mkTrafficState "blue" 100))]
  | DeployStrategyOther _ => False
  end.

(** The last thing seen of the primary: healthy on its previous artifact, or
    removed where there was none. *)
Definition primary_restored (serviceName previousArtifact : string) (l : list Call) : Prop :=
  ∃ obs, last l = Some (CObserve serviceName (Ok (Some obs))) ∧
    (if String.eqb previousArtifact "" then ob_HealthStatus obs = HealthStatusStopped ∧ CUndeploy serviceName None ∈ l
     else observedArtifact (Some obs) = previousArtifact ∧ ob_HealthStatus obs = HealthStatusHealthy).

Definition slots_removed (serviceName : string) (l : list Call) : Prop :=
  l = [CUndeploy (serviceName +:+ "-canary") None; CUndeploy (serviceName +:+ "-green") None].

Definition rollback_verified (strategy : DeployStrategy) (serviceName previousArtifact : string) (l : list Call) : Prop :=
  ∃ l1 l2 l3, l = l1 ++ l2 ++ l3 ∧ traffic_restored strategy serviceName l1 ∧ primary_restored serviceName previousArtifact l2 ∧ slots_removed serviceName l3.

(** Every run of [autoRollback]. *)
Inductive rolled (plan : RolloutPlan) (serviceName previousArtifact : string) : list Call → Prop :=
| rolled_back l t : Forall (quiet serviceName) l → rollback_verified (rp_Strategy plan) serviceName previousArtifact l →
    rolled plan serviceName previousArtifact (l ++ [CPlan (with_status plan RolloutStatusRolledBack t) None; CPublish "rollout.rolled_back"])
| rolled_unsaved l t t' e err : Forall (quiet serviceName) l → rollback_verified (rp_Strategy plan) serviceName previousArtifact l →
    rolled plan serviceName previousArtifact
      (l ++ [CPlan (with_status plan RolloutStatusRolledBack t) (Some e); CPlan (with_status plan RolloutStatusFailed t') err; CPublish "rollout.rollback_failed"])
| rolled_failed l t err : Forall (quiet serviceName) l →
    rolled plan serviceName previousArtifact (l ++ [CPlan (with_status plan RolloutStatusFailed t) err; CPublish "rollout.rollback_failed"]).

Section rollback.
Context {W : Type} `{RolloutEnvLaws W}.

Lemma restoreTraffic_emits strategy svc : emits (restoreTraffic strategy svc) (λ r l,
  Forall (quiet svc) l ∧ match r with Ok _ => traffic_restored strategy svc l | Err _ => True end).
Proof.
  unfold restoreTraffic, trafficController. destruct strategy; [emit; split; [calls|done]|..];
    destruct env_Traffic; emit; try (split; [calls|done]).
  all: apply verify_traffic_emits; [intros ->|intros e He]; (split; [calls|done]).
Qed.

Lemma verify_primary_emits prev answer (Q : result RolloutError unit → list Call → Prop) :
  (∀ obs, answer = Ok (Some obs) → observedArtifact (Some obs) = prev → ob_HealthStatus obs = HealthStatusHealthy → Q (Ok tt) []) →
  (∀ e, Q (Err e) []) → emits (W := W) (verify_primary prev answer) Q.
Proof.
  intros Hok Herr. unfold verify_primary. destruct answer as [[obs|]|err]; try (emit; by apply Herr).
  destruct (String.eqb_spec (observedArtifact (Some obs)) prev); simpl; [|emit; apply Herr].
  case_bool_decide; simpl; emit; eauto.
Qed.

Lemma restorePrimary_emits svc prev : emits (restorePrimary svc prev) (λ r l,
  Forall (quiet svc) l ∧ match r with Ok _ => primary_restored svc prev l | Err _ => True end).
Proof.
  unfold restorePrimary, primary_restored. destruct (String.eqb prev "").
  - emit; [split; [calls|done]|]. destruct a as [[obs|]|err]; try (emit; split; [calls|done]).
    case_bool_decide as Eo; emit; (split; [calls|]); [|done]. exists obs. split_and!; [done|done|]. by left.
  - emit. destruct (runs_artifact prev a); emit; try (split; [calls|done]).
    all: apply verify_primary_emits; [intros obs -> Ha Hh|intros e]; (split; [calls|]); [|done].
    all: by exists obs.
Qed.

Lemma markRollbackFailed_emits plan (Q : result RolloutError unit → list Call → Prop) :
  (∀ t err, Q (Ok tt) [CPlan (with_status plan RolloutStatusFailed t) err; CPublish "rollout.rollback_failed"]) → emits (markRollbackFailed plan) Q.
Proof. intros HQ. unfold markRollbackFailed. emit. apply HQ. Qed.

Lemma autoRollback_emits plan svc prev : emits (autoRollback plan svc prev) (λ r l, r = Ok tt ∧ rolled plan svc prev l).
Proof.
  unfold autoRollback. emit. eapply emits_weaken; [apply restoreTraffic_emits|]. intros rt l1 [Hq1 H1].
  emit. eapply emits_weaken; [apply restorePrimary_emits|]. intros rp l2 [Hq2 H2].
  emit. eapply emits_weaken; [apply cleanupSlots_emits|]. intros rc l3 [Hq3 H3].
  assert (Hq : Forall (quiet svc) (l1 ++ l2 ++ l3)) by by rewrite !Forall_app.
  assert (Happ : ∀ l, l1 ++ l2 ++ l3 ++ l = (l1 ++ l2 ++ l3) ++ l) by (intros l; by rewrite !app_assoc).
  assert (Hfail : emits (markRollbackFailed plan) (λ r l, r = Ok tt ∧ rolled plan svc prev (l1 ++ l2 ++ l3 ++ l))).
  { apply markRollbackFailed_emits. intros t err. split; [done|]. rewrite Happ. by apply rolled_failed. }
  destruct rt as [[]|], rp as [[]|], rc as [[]|]; simpl; try exact Hfail.
  assert (Hv : rollback_verified (rp_Strategy plan) svc prev (l1 ++ l2 ++ l3)) by (exists l1, l2, l3; done).
  emit. destruct a as [e|]; emit.
  - apply markRollbackFailed_emits. intros t' err. split; [done|]. simpl. rewrite Happ. by apply (rolled_unsaved plan svc prev).
  - split; [done|]. simpl. rewrite Happ. by apply (rolled_back plan svc prev).
Qed.
End rollback.

(** ** Every run of the steps *)

(** [ran plan steps r l]: the steps of a plan may make the calls [l] and end with [r]. *)
Inductive ran (serviceName image previousArtifact : string) : RolloutPlan → list RolloutStep → result RolloutError unit → list Call → Prop :=
| ran_completed plan t :
    ran serviceName image previousArtifact plan [] (Ok tt) [CPlan (with_status plan RolloutStatusCompleted t) None; CPublish "rollout.completed"]
| ran_completed_unsaved plan t e :
    ran serviceName image previousArtifact plan [] (Ok tt) [CPlan (with_status plan RolloutStatusCompleted t) (Some e)]
| ran_plan_unsaved plan step steps e :
    ran serviceName image previousArtifact plan (step :: steps) (Ok tt) [CPlan (at_step plan (rs_StepOrder step)) (Some e)]
| ran_start_unsaved plan step steps t e :
    ran serviceName image previousArtifact plan (step :: steps) (Ok tt)
      [CPlan (at_step plan (rs_StepOrder step)) None; CStep (running step t) (Some e)]
| ran_panicked plan step steps t l :
    step_post serviceName image (running step t) (Err ErrPanic) l →
    ran serviceName image previousArtifact plan (step :: steps) (Err ErrPanic)
      (CPlan (at_step plan (rs_StepOrder step)) None :: CStep (running step t) None :: l)
| ran_failed plan step steps t t' e err l l' :
    step_post serviceName image (running step t) (Err e) l → ordinary e →
    rolled (at_step plan (rs_StepOrder step)) serviceName previousArtifact l' →
    ran serviceName image previousArtifact plan (step :: steps) (Ok tt)
      (CPlan (at_step plan (rs_StepOrder step)) None :: CStep (running step t) None :: l ++ CStep (ended (running step t) StepStatusFailed StepError t') err :: l')
| ran_pass_unsaved plan step steps t t' h e l :
    step_post serviceName image (running step t) (Ok h) l →
    ran serviceName image previousArtifact plan (step :: steps) (Ok tt)
      (CPlan (at_step plan (rs_StepOrder step)) None :: CStep (running step t) None :: l ++ [CStep (ended (running step t) StepStatusPassed h t') (Some e)])
| ran_passed plan step steps t t' h l r l' :
    step_post serviceName image (running step t) (Ok h) l →
    ran serviceName image previousArtifact (at_step plan (rs_StepOrder step)) steps r l' →
    ran serviceName image previousArtifact plan (step :: steps) r
      (CPlan (at_step plan (rs_StepOrder step)) None :: CStep (running step t) None ::
        l ++ CStep (ended (running step t) StepStatusPassed h t') None :: CPublish "rollout.step_completed" :: l').

(** The executor does nothing else. *)
Lemma executeSteps_emits {W} `{RolloutEnvLaws W} svc image prev plan steps : Forall well_gated steps →
  emits (executeSteps plan steps svc image prev) (ran svc image prev plan steps).
Proof.
  intros Hw. revert plan. induction Hw as [|step steps Hw _ IH]; intros plan; simpl.
  { emit. destruct a as [e|]; emit; [apply ran_completed_unsaved|apply ran_completed]. }
  emit. destruct a as [e|]; emit; [apply ran_plan_unsaved|]. destruct a as [e|]; emit; [apply ran_start_unsaved|].
  eapply emits_weaken; [by apply (executeStep_emits svc image (running step t))|]. intros r l Hr. simpl.
  assert (Hfail : ∀ e, r = Err e → ordinary e → emits
    (do! completed := now in do! _ := update_step (ended (running step t) StepStatusFailed StepError completed) in
     autoRollback (at_step plan (rs_StepOrder step)) svc prev)
    (λ r' l', ran svc image prev plan (step :: steps) r' (CPlan (at_step plan (rs_StepOrder step)) None :: CStep (running step t) None :: l ++ l'))).
  { intros e -> He. emit. eapply emits_weaken; [apply autoRollback_emits|]. intros r' l' [-> Hl']. simpl. by eapply ran_failed. }
  destruct r as [h|e].
  - emit. destruct a as [e|]; emit; [by apply (ran_pass_unsaved _ _ _ _ _ _ _ _ h)|].
    eapply emits_weaken; [apply IH|]. intros r' l' Hl'. simpl. by apply (ran_passed _ _ _ _ _ _ _ _ h).
  - destruct e; try (by eapply Hfail); [|by destruct Hr as (_ & _ & [])].
    emit. rewrite app_nil_r. by apply ran_panicked.
Qed.
