(* ===== verification/RolloutProps.v ===== *)
(** * What a progressive rollout guarantees

    The theorems on [Rollout], by induction on the runs that [RolloutTrace]
    describes: the verdict of the health gate, the gates before a promotion,
    what is verified before a plan is recorded as rolled back, and that a
    rollout settles. *)

From Stdlib Require Import ZArith Lia Bool Ascii.
From stdpp Require Import base tactics decidable option list numbers strings gmap.
From S2P Require Import Prelude Action Bytes Rollout RolloutTrace.

(** ** The plans *)

(** What has to be seen, in this order, before the primary gets the new image. *)
Definition gates_before (strategy : DeployStrategy) (serviceName image : string) : list (list Call → Prop) :=
  match strategy with
  | DeployStrategyCanary =>
      [deployed (serviceName +:+ "-canary") image (slot_options serviceName "canary");
       shifted serviceName "canary" 10;
       gate_passed (serviceName +:+ "-canary") 3;
       shifted serviceName "canary" 50;
       gate_passed (serviceName +:+ "-canary") 3]
  | DeployStrategyBlueGreen =>
      [deployed (serviceName +:+ "-green") image (slot_options serviceName "green");
       gate_passed (serviceName +:+ "-green") 3;
       switched serviceName "blue" "green";
       gate_passed serviceName 3]
  | _ => []
  end.

Definition steps_of (strategy : DeployStrategy) : nat :=
  match strategy with DeployStrategyCanary | DeployStrategyBlueGreen => 5 | _ => 1 end.

(** What the steps of a strategy are. *)
Definition built (strategy : DeployStrategy) (steps : list RolloutStep) : Prop :=
  Forall well_gated steps ∧
  (rs_StepOrder <$> steps) = (Z.of_nat <$> seq 0 (steps_of strategy)) ∧
  Forall (λ step, rs_Action step = StepActionObserve → gate_config (rs_Config step) = DefaultHealthGate) steps ∧
  ∀ serviceName image k step, steps !! k = Some step → rs_Action step = StepActionPromote →
    mjoin (milestones serviceName image <$> take k steps) = gates_before strategy serviceName image.

Section plans.
Context {W : Type} `{RolloutEnv W}.

Lemma BuildPlan_emits intentID strategy : emits (BuildPlan intentID strategy) (λ r l,
  l = [] ∧ ∃ plan steps, r = Ok (plan, steps) ∧ rp_Strategy plan = strategy ∧ rp_Status plan = RolloutStatusPending ∧ built strategy steps).
Proof.
  unfold BuildPlan. emit.
  destruct strategy; unfold buildCanarySteps, buildBlueGreenSteps, new_step; emit; (split; [done|]); eexists _, _; split_and!; try done.
  all: split_and!; [by repeat (constructor; [done|])|done|by repeat (constructor; [done|])|].
  all: intros svc image k step Hk Ha; repeat (destruct k as [|k]; [simpl in Hk; injection Hk as <-; try discriminate Ha; reflexivity|]); done.
Qed.
(** The artifact to go back to: what ran before, if anything did. *)
Definition artifact_before (obs : RuntimeObservation) : string :=
  if bool_decide (ob_HealthStatus obs = HealthStatusStopped) then "" else observedArtifact (Some obs).

(** Calls that change nothing of the deployment, and end no plan. *)
Definition harmless (c : Call) : Prop :=
  match c with
  | CDeploy _ _ _ _ | CUndeploy _ _ | CShift _ _ _ _ | CSwitch _ _ _ _ | CStep _ _ => False
  | CPlan p _ => rp_Status p = RolloutStatusRunning
  | _ => True
  end.

Lemma captureArtifact_emits svc : emits (captureArtifact svc) (λ r l, ∃ answer, l = [CObserve svc answer] ∧
  match r with Ok prev => ∃ obs, answer = Ok (Some obs) ∧ prev = artifact_before obs | Err e => ordinary e end).
Proof.
  unfold captureArtifact, artifact_before. emit. destruct a as [[obs|]|err]; [case_bool_decide as Eo|..]; emit;
    (eexists; split; [done|]); try done; exists obs; [by rewrite bool_decide_true|by rewrite bool_decide_false].
Qed.

(** What [CreateAndStart] does before the steps. *)
Lemma create_emits intentID strategy svc : emits (create intentID strategy svc) (λ r l,
  Forall harmless l ∧
  match r with
  | Ok (plan, steps, prev) => ∃ obs, l = [CObserve svc (Ok (Some obs)); CCreate None; CCreate None; CPlan plan None; CPublish "rollout.started"] ∧
      rp_Status plan = RolloutStatusRunning ∧ prev = artifact_before obs ∧ rp_Strategy plan = strategy ∧ built strategy steps
  | Err e => ordinary e
  end).
Proof.
  unfold create. emit. eapply emits_weaken; [apply captureArtifact_emits|]. intros [prev|e] l (answer & -> & Hr); [|split; [by repeat constructor|done]].
  destruct Hr as (obs & -> & ->). emit. eapply emits_weaken; [apply BuildPlan_emits|].
  intros r l (-> & plan & steps & -> & Hs & _ & Hb). emit; (split; [by repeat constructor|]); try done.
  by exists obs.
Qed.

(** A run that got past the creation of its plan. *)
Lemma CreateAndStart_emits `{!RolloutEnvLaws W} intentID strategy svc image : emits (CreateAndStart intentID strategy svc image) (λ r l,
  (∃ e, r = Err e ∧ ordinary e ∧ Forall harmless l) ∨
  ∃ obs plan steps l', l = [CObserve svc (Ok (Some obs)); CCreate None; CCreate None; CPlan plan None; CPublish "rollout.started"] ++ l' ∧
    rp_Status plan = RolloutStatusRunning ∧ rp_Strategy plan = strategy ∧ built strategy steps ∧ ran svc image (artifact_before obs) plan steps r l').
Proof.
  unfold CreateAndStart. emit. eapply emits_weaken; [apply create_emits|]. intros [[[plan steps] prev]|e] l [Hh Hr]; [|eauto].
  destruct Hr as (obs & -> & Hp & -> & Hs & Hb). eapply emits_weaken; [apply executeSteps_emits, Hb|].
  intros r l' Hl'. right. by exists obs, plan, steps, l'.
Qed.
End plans.

(** ** Evidence in order *)

(** Evidence that is found at the end of a trace. *)
Definition absorbs (P : list Call → Prop) : Prop := ∀ l0 l, P l → P (l0 ++ l).

Lemma ends_with_absorbs c : absorbs (ends_with c).
Proof. intros l0 l. apply ends_with_app. Qed.
Lemma gate_passed_absorbs name n : absorbs (gate_passed name n).
Proof. intros l0 l (l1 & l2 & -> & Ho). exists (l0 ++ l1), l2. by rewrite app_assoc. Qed.

Lemma milestones_absorb svc image step : Forall absorbs (milestones svc image step).
Proof.
  unfold milestones. destruct (rs_Action step);
    repeat (constructor; [first [apply ends_with_absorbs|apply gate_passed_absorbs]|]); constructor.
Qed.
Lemma all_absorb svc image steps : Forall absorbs (mjoin (milestones svc image <$> steps)).
Proof. induction steps as [|step steps IH]; [constructor|]. simpl. apply Forall_app. split; [apply milestones_absorb|done]. Qed.

Lemma in_order_prepend Ps l0 l : Forall absorbs Ps → in_order Ps l → in_order Ps (l0 ++ l).
Proof.
  intros [|P Ps' HP _]; [done|]. intros (l1 & l2 & -> & HP1 & Hin). exists (l0 ++ l1), l2. rewrite app_assoc. auto.
Qed.
Lemma in_order_app Ps Qs l l' : Forall absorbs Qs → in_order Ps l → in_order Qs l' → in_order (Ps ++ Qs) (l ++ l').
Proof.
  intros HQ. revert l. induction Ps as [|P Ps IH]; simpl; intros l.
  - intros _ Hin. by apply in_order_prepend.
  - intros (l1 & l2 & -> & HP & Hin) Hin'. exists l1, (l2 ++ l'). rewrite app_assoc. auto.
Qed.

(** ** Promotions *)

Section promotions.
Context (serviceName image previousArtifact : string).

(** Every promotion of a trace comes from a step, after the evidence of the steps before it. *)
Definition gated (steps : list RolloutStep) (l : list Call) : Prop :=
  ∀ pre image' err post, l = pre ++ CDeploy serviceName image' (promote_options serviceName) err :: post →
    image' = image ∧ ∃ k step, steps !! k = Some step ∧ rs_Action step = StepActionPromote ∧
      in_order (mjoin (milestones serviceName image <$> take k steps)) pre.

Definition silent (l : list Call) : Prop := Forall (λ c, ¬ promotes serviceName c) l.

Lemma silent_gated steps l : silent l → gated steps l.
Proof.
  intros Hl pre image' err post ->. apply Forall_app in Hl as [_ Hl]. apply Forall_cons in Hl as [Hc _]. destruct Hc. by eexists _, _.
Qed.

(** Calls around the promotions of a trace. *)
Lemma gated_before steps l0 l : silent l0 → gated steps l → gated steps (l0 ++ l).
Proof.
  intros Hl0 Hl pre image' err post E. apply app_eq_inv in E as [(k & -> & E)|(k & -> & E)].
  - destruct k as [|c k]; simpl in *.
    + destruct (Hl [] image' err post) as [-> (j & step & Hj & Ha & Hin)]; [done|]. split; [done|].
      exists j, step. split_and!; try done. rewrite <- (app_nil_r pre). apply in_order_prepend; [apply all_absorb|done].
    + injection E as <- _. apply Forall_app in Hl0 as [_ Hl0]. apply Forall_cons in Hl0 as [Hc _]. destruct Hc. by eexists _, _.
  - destruct (Hl k image' err post E) as [-> (j & step & Hj & Ha & Hin)]. split; [done|].
    exists j, step. split_and!; try done. apply in_order_prepend; [apply all_absorb|done].
Qed.

(** The calls of the first step, and then those of the others. *)
Lemma gated_step step t r steps l l' : step_post serviceName image (running step t) r l →
  (∀ h, r = Ok h → gated steps l') → (∀ e, r = Err e → silent l') → gated (step :: steps) (l ++ l').
Proof.
  intros (_ & Hp & Hr) Hok Herr pre image' err post E. apply app_eq_inv in E as [(k & -> & E)|(k & -> & E)].
  - destruct k as [|c k]; simpl in *.
    + rewrite app_nil_r in *. destruct r as [h|e].
      * destruct (Hok h eq_refl [] image' err post) as [-> (j & step' & Hj & Ha & Hin)]; [done|]. split; [done|].
        exists (S j), step'. split_and!; try done. simpl. rewrite <- (app_nil_r pre). apply in_order_app; [apply all_absorb|done|done].
      * exfalso. specialize (Herr e eq_refl). rewrite <- E in Herr. apply Forall_cons in Herr as [Hc _]. destruct Hc. by eexists _, _.
    + injection E as <- _. apply Forall_app in Hp as [_ Hp]. apply Forall_cons in Hp as [Hc _].
      destruct (Hc _ _ eq_refl) as [Ha ->]. split; [done|]. by exists O, step.
  - destruct r as [h|e].
    + destruct (Hok h eq_refl k image' err post E) as [-> (j & step' & Hj & Ha & Hin)]. split; [done|].
      exists (S j), step'. split_and!; try done. simpl. apply in_order_app; [apply all_absorb|done|done].
    + specialize (Herr e eq_refl). rewrite E in Herr. apply Forall_app in Herr as [_ Herr].
      apply Forall_cons in Herr as [Hc _]. destruct Hc. by eexists _, _.
Qed.

Lemma quiet_silent l : Forall (quiet serviceName) l → silent l.
Proof. intros Hl. eapply Forall_impl; [done|]. by intros c []. Qed.
Lemma rolled_silent plan l : rolled plan serviceName previousArtifact l → silent l.
Proof. intros [l0 ? Hq%quiet_silent|l0 ? ? ? ? Hq%quiet_silent|l0 ? ? Hq%quiet_silent]; apply Forall_app; (split; [done|]); repeat constructor; by intros (? & ? & ?). Qed.

Lemma write_silent c l : outward c = False → silent l → silent (c :: l).
Proof. intros Hc Hl. constructor; [|done]. intros (img & err & ->). by rewrite <- Hc. Qed.

Lemma ran_gated plan steps r l : ran serviceName image previousArtifact plan steps r l → gated steps l.
Proof.
  induction 1 as [| | | |plan step steps t l Hl|plan step steps t t' e err l l' Hl He Hl'|plan step steps t t' h e l Hl|plan step steps t t' h l r l' Hl _ IH];
    try (apply silent_gated; repeat (apply write_silent; [done|]); constructor).
  all: apply (gated_before _ [_; _]); [repeat (apply write_silent; [done|]); constructor|].
  - rewrite <- (app_nil_r l). eapply gated_step; [done..|]. constructor.
  - eapply gated_step; [done..|]. intros _ _. apply write_silent; [done|]. by eapply rolled_silent.
  - eapply gated_step; [done| |done]. intros _ _. apply silent_gated, write_silent; [done|constructor].
  - eapply gated_step; [done| |done]. intros _ _. apply (gated_before _ [_; _]); [repeat (apply write_silent; [done|]); constructor|done].
Qed.
End promotions.

(** C19: whatever the runtime, the observer and the repository answer, a
    rollout deploys the new image to the primary only after all the evidence its
    strategy asks for, in order: for a canary the canary deployed, 10% of the
    traffic verified, three healthy observations of the canary in a row, 50%
    verified and three more; for blue/green the green slot deployed, three
    healthy observations of it, the switch verified at 100%, and three healthy
    observations of the primary name. *)
Theorem promotion_gated {W} `{RolloutEnvLaws W} intentID strategy serviceName image s r s' pre image' err post :
  CreateAndStart intentID strategy serviceName image s = (r, s') →
  wd_log s' = wd_log s ++ pre ++ CDeploy serviceName image' (promote_options serviceName) err :: post →
  image' = image ∧ in_order (gates_before strategy serviceName image) pre.
Proof.
  intros E Hlog. apply CreateAndStart_emits in E as (l & Hl & Hr). rewrite Hl in Hlog. simplify_list_eq.
  destruct Hr as [(e & _ & _ & Hh)|(obs & plan & steps & l' & E & _ & _ & Hb & Hran)].
  { apply Forall_app in Hh as [_ Hh]. by apply Forall_cons in Hh as [[] _]. }
  apply ran_gated in Hran. apply (gated_before _ _ _ [CObserve serviceName (Ok (Some obs)); CCreate None; CCreate None; CPlan plan None; CPublish "rollout.started"]) in Hran;
    [|repeat (constructor; [by intros (? & ? & ?)|]); constructor].
  destruct (Hran _ _ _ _ (eq_sym E)) as [-> (k & step & Hk & Ha & Hin)]. split; [done|].
  destruct Hb as (_ & _ & _ & Hb). by rewrite (Hb _ _ _ _ Hk Ha) in Hin.
Qed.

(** ** Rollbacks *)

(** A plan recorded as rolled back ends what was verified. *)
Definition rollbacks_verified (strategy : DeployStrategy) (serviceName previousArtifact : string) (l : list Call) : Prop :=
  ∀ pre p err post, l = pre ++ CPlan p err :: post → rp_Status p = RolloutStatusRolledBack →
    ∃ pre' l', pre = pre' ++ l' ∧ rollback_verified strategy serviceName previousArtifact l'.

Definition not_rolled (c : Call) : Prop := match c with CPlan p _ => rp_Status p ≠ RolloutStatusRolledBack | _ => True end.

Lemma rollbacks_before strategy svc prev l0 l : Forall not_rolled l0 → rollbacks_verified strategy svc prev l → rollbacks_verified strategy svc prev (l0 ++ l).
Proof.
  intros Hl0 Hl pre p err post E Hp. apply app_eq_inv in E as [(k & -> & E)|(k & -> & E)].
  - destruct k as [|c k]; simpl in *.
    + destruct (Hl [] p err post) as (pre' & l' & Hnil & Hv); [done|done|]. exists (pre ++ pre'), l'.
      rewrite <- app_assoc, <- Hnil, app_nil_r. done.
    + injection E as <- _. apply Forall_app in Hl0 as [_ Hl0]. by apply Forall_cons in Hl0 as [Hc _].
  - destruct (Hl k p err post E Hp) as (pre' & l' & -> & Hv). exists (l0 ++ pre'), l'. by rewrite app_assoc.
Qed.
Lemma rollbacks_none strategy svc prev l : Forall not_rolled l → rollbacks_verified strategy svc prev l.
Proof. intros Hl. rewrite <- (app_nil_r l). apply rollbacks_before; [done|]. by intros [] p err post. Qed.
Lemma outward_not_rolled l : Forall outward l → Forall not_rolled l.
Proof. intros Hl. eapply Forall_impl; [done|]. by intros []. Qed.

Lemma rolled_verified plan svc prev l : rolled plan svc prev l → rollbacks_verified (rp_Strategy plan) svc prev l.
Proof.
  assert (Hlast : ∀ l0 p err post, Forall (quiet svc) l0 → rollback_verified (rp_Strategy plan) svc prev l0 → Forall not_rolled post →
    rollbacks_verified (rp_Strategy plan) svc prev (l0 ++ CPlan p err :: post)).
  { intros l0 p err post Hq Hv Hpost pre p' err' post' E Hp'. apply app_eq_inv in E as [(k & -> & E)|(k & -> & E)].
    - destruct k as [|c k]; simpl in *; [exists [], pre; split; [done|by rewrite app_nil_r in Hv]|].
      injection E as <- _. apply Forall_app in Hq as [_ Hq]. by apply Forall_cons in Hq as [[[] _] _].
    - destruct k as [|c k]; simpl in *; [exists [], l0; by rewrite app_nil_r|].
      injection E as _ ->. apply Forall_app in Hpost as [_ Hpost]. by apply Forall_cons in Hpost as [Hc _]. }
  intros [l0 t Hq Hv|l0 t t' e err Hq Hv|l0 t err Hq].
  - apply Hlast; [done|done|by repeat constructor].
  - apply Hlast; [done|done|by repeat constructor].
  - apply rollbacks_none, Forall_app. split; [by eapply outward_not_rolled, quiet_outward|by repeat constructor].
Qed.

Lemma ran_rollbacks svc image prev plan steps r l : rp_Status plan ≠ RolloutStatusRolledBack → ran svc image prev plan steps r l →
  rollbacks_verified (rp_Strategy plan) svc prev l.
Proof.
  intros Hst. induction 1 as [| | | |plan step steps t l Hl|plan step steps t t' e err l l' Hl He Hl'|plan step steps t t' h e l Hl|plan step steps t t' h l r l' Hl _ IH];
    try (apply rollbacks_none; by repeat constructor).
  all: assert (Hq : Forall not_rolled l) by (apply outward_not_rolled, Hl).
  - apply rollbacks_none. by repeat constructor.
  - apply (rollbacks_before _ _ _ [_; _]); [by repeat constructor|]. apply rollbacks_before; [done|].
    apply (rollbacks_before _ _ _ [_]); [by repeat constructor|]. by apply rolled_verified in Hl'.
  - apply rollbacks_none. constructor; [done|]. constructor; [done|]. apply Forall_app. split; [done|by repeat constructor].
  - apply (rollbacks_before _ _ _ [_; _]); [by repeat constructor|]. apply rollbacks_before; [done|].
    apply (rollbacks_before _ _ _ [_; _]); [by repeat constructor|]. by apply IH.
Qed.

(** C20: a plan is recorded as rolled back (or would be, had the repository
    accepted it) only right after the rollback was verified: the traffic is back
    where the strategy says, with the runtime reporting it; the primary was then
    observed healthy on the artifact it ran when the rollout began, or stopped
    where nothing ran; and both slots were undeployed without an error. *)
Theorem rolled_back_verified {W} `{RolloutEnvLaws W} intentID strategy serviceName image s r s' pre p err post :
  CreateAndStart intentID strategy serviceName image s = (r, s') →
  wd_log s' = wd_log s ++ pre ++ CPlan p err :: post → rp_Status p = RolloutStatusRolledBack →
  ∃ obs pre' l, pre = CObserve serviceName (Ok (Some obs)) :: pre' ++ l ∧
    rollback_verified strategy serviceName (artifact_before obs) l.
Proof.
  intros E Hlog Hp. apply CreateAndStart_emits in E as (l & Hl & Hr). rewrite Hl in Hlog. simplify_list_eq.
  destruct Hr as [(e & _ & _ & Hh)|(obs & plan & steps & l' & E & Hst & <- & _ & Hran)].
  { apply Forall_app in Hh as [_ Hh]. apply Forall_cons in Hh as [Hc _]. simpl in Hc. congruence. }
  apply ran_rollbacks in Hran; [|by rewrite Hst].
  destruct pre as [|c pre]; injection E as Hc E; [done|]. subst c.
  apply (rollbacks_before _ _ _ [CCreate None; CCreate None; CPlan plan None; CPublish "rollout.started"]) in Hran; [|repeat (constructor; [simpl; by rewrite ?Hst|]); constructor].
  destruct (Hran _ _ _ _ (eq_sym E) Hp) as (pre' & l & -> & Hv). by exists obs, pre', l.
Qed.

(** ** How a rollout ends *)

(** What the repository was told of the steps and of the plan. *)
Definition step_history (l : list Call) : list (Z * StepStatus) :=
  omap (λ c, match c with CStep step _ => Some (rs_StepOrder step, rs_Status step) | _ => None end) l.
Definition plan_history (l : list Call) : list RolloutStatus :=
  omap (λ c, match c with CPlan p _ => Some (rp_Status p) | _ => None end) l.
Definition saved (c : Call) : Prop := match c with CPlan _ (Some _) | CStep _ (Some _) => False | _ => True end.

(** [k] steps from [m] that ran and passed. *)
Definition passes (m k : nat) : list (Z * StepStatus) :=
  mjoin ((λ i, [(Z.of_nat i, StepStatusRunning); (Z.of_nat i, StepStatusPassed)]) <$> seq m k).

(** All the steps passed and the plan completed, or one failed, none after it
    ran, and the plan was rolled back or failed. *)
Definition settled (m n : nat) (l : list Call) : Prop :=
  (step_history l = passes m n ∧ last (plan_history l) = Some RolloutStatusCompleted) ∨
  ∃ k, (k < n)%nat ∧
    step_history l = passes m k ++ [(Z.of_nat (m + k), StepStatusRunning); (Z.of_nat (m + k), StepStatusFailed)] ∧
    (last (plan_history l) = Some RolloutStatusRolledBack ∨ last (plan_history l) = Some RolloutStatusFailed).

Lemma step_history_app l l' : step_history (l ++ l') = step_history l ++ step_history l'.
Proof. apply omap_app. Qed.
Lemma plan_history_app l l' : plan_history (l ++ l') = plan_history l ++ plan_history l'.
Proof. apply omap_app. Qed.
Lemma outward_history l : Forall outward l → step_history l = [] ∧ plan_history l = [].
Proof. induction 1 as [|c l Hc _ [IH1 IH2]]; [done|]. by destruct c. Qed.

Lemma rolled_history plan svc prev l : rolled plan svc prev l → step_history l = [] ∧
  (last (plan_history l) = Some RolloutStatusRolledBack ∨ last (plan_history l) = Some RolloutStatusFailed).
Proof.
  intros [l0 t Hq%quiet_outward _|l0 t t' e err Hq%quiet_outward _|l0 t err Hq%quiet_outward];
    apply outward_history in Hq as [H1 H2]; rewrite step_history_app, plan_history_app, H1, H2; auto.
Qed.

Lemma passes_S m k : passes m (S k) = (Z.of_nat m, StepStatusRunning) :: (Z.of_nat m, StepStatusPassed) :: passes (S m) k.
Proof. done. Qed.

Lemma settled_S m n l l' : step_history l' = [(Z.of_nat m, StepStatusRunning); (Z.of_nat m, StepStatusPassed)] →
  settled (S m) n l → settled m (S n) (l' ++ l).
Proof.
  intros Hl' Hs. unfold settled. rewrite step_history_app, plan_history_app, Hl', last_app.
  destruct Hs as [[-> ->]|(k & Hk & -> & Hp)]; [left; done|right]. exists (S k). split_and!; [lia| |].
  - rewrite passes_S. by replace (m + S k)%nat with (S m + k)%nat by lia.
  - destruct Hp as [-> | ->]; auto.
Qed.

Lemma ran_settles svc image prev plan steps r l m : ran svc image prev plan steps r l →
  rs_StepOrder <$> steps = Z.of_nat <$> seq m (length steps) → r = Ok tt → Forall saved l → settled m (length steps) l.
Proof.
  intros Hran. revert m.
  induction Hran as [| | | |plan step steps t l Hl|plan step steps t t' e err l l' Hl He Hl'|plan step steps t t' h e l Hl|plan step steps t t' h l r l' Hl _ IH];
    intros m Ho Hr Hs; simpl in Ho; try discriminate Hr; try injection Ho as Ho1 Ho2.
  - by left.
  - by apply Forall_cons in Hs as [[] _].
  - by apply Forall_cons in Hs as [[] _].
  - by apply Forall_cons in Hs as [_ [[] _]%Forall_cons].
  - destruct Hl as [[H1 H2]%outward_history _]. apply rolled_history in Hl' as [H3 H4].
    right. exists O. split; [simpl; lia|]. rewrite Nat.add_0_r.
    change (?a :: ?b :: l ++ ?c :: l') with ([a; b] ++ l ++ [c] ++ l').
    rewrite !step_history_app, !plan_history_app, H1, H2, H3. simpl. rewrite Ho1. split; [done|].
    destruct (plan_history l') as [|x ph]; [by destruct H4|]. done.
  - apply Forall_cons in Hs as [_ [_ Hs]%Forall_cons]. apply Forall_app in Hs as [_ [[] _]%Forall_cons].
  - destruct Hl as [[H1 H2]%outward_history _].
    change (?a :: ?b :: l ++ ?c :: ?d :: l') with ([a; b] ++ l ++ [c; d] ++ l') in *. rewrite !app_assoc in *.
    apply Forall_app in Hs as [_ Hs]. apply settled_S; [|by apply IH].
    rewrite !step_history_app, H1. simpl. by rewrite Ho1.
Qed.

Lemma ran_error svc image prev plan steps r l e : ran svc image prev plan steps r l → r = Err e →
  e = ErrPanic ∧ ∃ name, last l = Some (CObserve name (Ok None)).
Proof.
  induction 1 as [| | | |plan step steps t l Hl| | |plan step steps t t' h l r l' Hl _ IH]; try done.
  - intros [= <-]. split; [done|]. destruct Hl as (_ & _ & name & Hl). exists name.
    change (?a :: ?b :: l) with ([a; b] ++ l). by rewrite last_app, Hl.
  - intros He. destruct (IH He) as [-> [name Hl']]. split; [done|]. exists name.
    change (?a :: ?b :: l ++ ?c :: ?d :: l') with ([a; b] ++ l ++ [c; d] ++ l'). by rewrite !last_app, Hl'.
Qed.

(** C21: every rollout comes to an end, the polling of its gates included.  If
    the repository took every write, the plan ends completed with every step
    recorded as run and passed in order, or rolled back or failed with the steps
    before the failing one passed and none after it started.  An error is one of
    the preparation, with nothing deployed, or the panic on an observer that
    answers neither an observation nor an error. *)
Theorem rollout_settles {W} `{RolloutEnvLaws W} intentID strategy serviceName image s r s' :
  CreateAndStart intentID strategy serviceName image s = (r, s') →
  ∃ l, wd_log s' = wd_log s ++ l ∧
    match r with
    | Ok _ => Forall saved l → settled 0 (steps_of strategy) l
    | Err e => Forall harmless l ∨ e = ErrPanic ∧ ∃ name, last l = Some (CObserve name (Ok None))
    end.
Proof.
  intros E. apply CreateAndStart_emits in E as (l & Hl & Hr). exists l. split; [done|].
  destruct Hr as [(e & -> & _ & Hh)|(obs & plan & steps & l' & -> & _ & _ & (_ & Ho & _) & Hran)]; [by left|].
  assert (Hn : length steps = steps_of strategy) by (rewrite <- (length_fmap rs_StepOrder), Ho, length_fmap; apply length_seq).
  destruct r as [[]|e].
  - intros Hs. apply Forall_app in Hs as [_ Hs]. rewrite <- Hn in *.
    destruct (ran_settles _ _ _ _ _ _ _ 0 Hran Ho eq_refl Hs) as [[H1 H2]|(k & Hk & H1 & H2)]; [left|right; exists k];
      rewrite step_history_app, plan_history_app, last_app, H1.
    + by rewrite H2.
    + split_and!; [done|done|]. destruct H2 as [-> | ->]; auto.
  - destruct (ran_error _ _ _ _ _ _ _ e Hran eq_refl) as [-> [name Hl']]. right. split; [done|]. exists name. by rewrite last_app, Hl'.
Qed.

(** ** The health gate *)

(** C22: the health gate gives the verdict its configuration promises.  It polls
    until it can decide, and always comes to an end: no observation before the last one
    decided; it passed exactly when the last ones are as many healthy ones in a
    row as asked for; otherwise it saw as many failures in a row, or the deadline
    passed at the last tick.  The counts are those of the observations.  Besides
    it only ends with its context, or by a panic on an observer that answers
    neither an observation nor an error. *)
Theorem health_gate_exact {W} `{RolloutEnvLaws W} serviceName cfg s r s' :
  0 < hg_Interval cfg → 0 < hg_SuccessThreshold cfg → 0 < hg_FailureThreshold cfg →
  HealthGate_Check serviceName cfg s = (r, s') →
  ∃ l, wd_log s' = wd_log s ++ l ∧
    match r with
    | Ok res => verdict cfg (fst (env_Now (wd_env s))) res (checks l) l
    | Err ErrPanic => last l = Some (CObserve serviceName (Ok None))
    | Err e => ∃ err, e = ErrGateCheck err
    end.
Proof.
  intros Hi Hs Hf E. assert (Hu : used_config cfg = cfg) by (unfold used_config; by destruct (Z.eqb_spec (hg_Interval cfg) 0); [lia|]).
  apply Check_emits in E as (start & l & <- & Hl & _ & _ & _ & Hr); rewrite ?Hu in *; try done.
  exists l. split; [done|]. destruct r as [res|[]]; eauto; done.
Qed.

(** C40: the durations and thresholds of a plan are never used.  The plans write
    them as integers and the executor reads floats, so that every gate of every
    plan runs with the defaults (five minutes, three healthy, two failed), longer
    than any duration the plans ask for. *)
Theorem gate_settings_ignored {W} `{RolloutEnv W} intentID strategy s plan steps s' :
  BuildPlan intentID strategy s = (Ok (plan, steps), s') →
  Forall (λ step, rs_Action step = StepActionObserve →
    gate_config (rs_Config step) = DefaultHealthGate ∧
    ∃ d, rs_Config step !! "duration_seconds"%string = Some (AnyInt d) ∧ d * second < hg_Timeout DefaultHealthGate) steps.
Proof.
  assert (Hb : emits (BuildPlan intentID strategy) (λ r _, ∀ plan steps, r = Ok (plan, steps) →
    Forall (λ step, rs_Action step = StepActionObserve → gate_config (rs_Config step) = DefaultHealthGate ∧
      ∃ d, rs_Config step !! "duration_seconds"%string = Some (AnyInt d) ∧ d * second < hg_Timeout DefaultHealthGate) steps)).
  { unfold BuildPlan. emit. destruct strategy; unfold buildCanarySteps, buildBlueGreenSteps, new_step; emit; intros ? ? [= <- <-];
      repeat (constructor; [intros Ha; first [discriminate Ha|split; [reflexivity|eexists; split; [reflexivity|done]]]|]); constructor. }
  intros E. apply Hb in E as (l & _ & Hl). by eapply Hl.
Qed.

(** ** A runtime that answers *)

Module RolloutSample.

(** The observations left to give; then everything is healthy on [img:1]. *)
Definition Sample : Type := list (result string (option RuntimeObservation)).

Definition at_rest : RuntimeObservation := mkRuntimeObservation "" "img:1" HealthStatusHealthy.
Definition bad : RuntimeObservation := mkRuntimeObservation "" "img:2" HealthStatusUnhealthy.

#[export] Instance Sample_env : RolloutEnv Sample := {
  env_Deploy _ _ _ w := (None, w);
  env_Undeploy _ w := (None, w);
  env_Observe _ w := match w with [] => (Ok (Some at_rest), []) | a :: w' => (a, w') end;
  env_Traffic := true;
  env_ShiftTraffic _ slot weight w := (Ok (mkTrafficState slot weight), w);
  env_SwitchTraffic _ _ to w := (Ok (mkTrafficState to 100), w);
  env_CreatePlan _ w := (None, w);
  env_CreateSteps _ w := (None, w);
  env_UpdatePlan _ w := (None, w);
  env_UpdateStep _ w := (None, w);
  env_Now w := (0, w);
  env_Poll start interval k w := (PollTick (start + (Z.of_nat k + 1) * interval), w);
  env_NewID w := ("id"%string, w);
}.
#[export] Instance Sample_laws : RolloutEnvLaws Sample.
Proof. split. intros start interval k w t w'. simpl. intros [= <- _]. lia. Qed.

(** A canary that is fine, and one whose second gate fails. *)
Definition fine : World Sample := mkWorld [] [].
Definition broken : World Sample := mkWorld (repeat (Ok (Some at_rest)) 4 ++ [Ok (Some bad); Err "unreachable"%string]) [].
Definition rollout (s : World Sample) : result RolloutError unit * World Sample := CreateAndStart "intent" DeployStrategyCanary "web" "img:2" s.

(** The calls before the first that satisfies [f], and those from there. *)
Fixpoint cut (f : Call → bool) (l : list Call) : list Call * list Call :=
  match l with
  | [] => ([], [])
  | c :: l' => if f c then ([], c :: l') else let '(a, b) := cut f l' in (c :: a, b)
  end.
Definition is_promotion (c : Call) : bool := match c with CDeploy "web" _ _ _ => true | _ => false end.
Definition is_rolled_back (c : Call) : bool := match c with CPlan p _ => bool_decide (rp_Status p = RolloutStatusRolledBack) | _ => false end.

Lemma promotion_gated_witness : ∃ err post,
  wd_log (rollout fine).2 = (cut is_promotion (wd_log (rollout fine).2)).1 ++ CDeploy "web" "img:2" (promote_options "web") err :: post ∧
  in_order (gates_before DeployStrategyCanary "web" "img:2") (cut is_promotion (wd_log (rollout fine).2)).1.
Proof.
  eexists None, (tail (cut is_promotion (wd_log (rollout fine).2)).2). split; [vm_compute; reflexivity|].
  eapply (promotion_gated "intent" DeployStrategyCanary "web" "img:2" fine (rollout fine).1 (rollout fine).2 _ "img:2" None
    (tail (cut is_promotion (wd_log (rollout fine).2)).2)); vm_compute; reflexivity.
Defined.

Lemma rolled_back_verified_witness : ∃ obs pre' l,
  (cut is_rolled_back (wd_log (rollout broken).2)).1 = CObserve "web" (Ok (Some obs)) :: pre' ++ l ∧
  rollback_verified DeployStrategyCanary "web" (artifact_before obs) l.
Proof.
  eapply (rolled_back_verified "intent" DeployStrategyCanary "web" "img:2" broken (rollout broken).1 (rollout broken).2 _ _ _
    (tail (cut is_rolled_back (wd_log (rollout broken).2)).2)); [vm_compute; reflexivity|vm_compute; reflexivity|reflexivity].
Defined.

Lemma rollout_settles_witness : ∃ l, wd_log (rollout broken).2 = l ∧ (Forall saved l → settled 0 5 l).
Proof.
  destruct (rollout_settles "intent" DeployStrategyCanary "web" "img:2" broken (rollout broken).1 (rollout broken).2) as (l & Hl & Hr);
    [vm_compute; reflexivity|]. exists l. split; [exact Hl|]. exact Hr.
Defined.

Definition quick : HealthGateConfig := mkHealthGateConfig second (30 * second) 2 1.

Lemma health_gate_exact_witness : ∃ l res, wd_log (HealthGate_Check "web" quick fine).2 = l ∧ verdict quick 0 res (checks l) l.
Proof.
  destruct (health_gate_exact "web" quick fine (HealthGate_Check "web" quick fine).1 (HealthGate_Check "web" quick fine).2) as (l & Hl & Hr);
    [reflexivity..|vm_compute; reflexivity|]. eexists l, _. split; [exact Hl|]. exact Hr.
Defined.

Lemma gate_settings_ignored_witness : ∃ plan steps s', BuildPlan "intent" DeployStrategyBlueGreen fine = (Ok (plan, steps), s') ∧
  Forall (λ step, rs_Action step = StepActionObserve →
    gate_config (rs_Config step) = DefaultHealthGate ∧
    ∃ d, rs_Config step !! "duration_seconds"%string = Some (AnyInt d) ∧ d * second < hg_Timeout DefaultHealthGate) steps.
Proof.
  destruct (BuildPlan "intent" DeployStrategyBlueGreen fine) as [[[plan steps]|e] s'] eqn:E; [|vm_compute in E; discriminate E].
  exists plan, steps, s'. split; [done|]. exact (gate_settings_ignored "intent" DeployStrategyBlueGreen fine plan steps s' E).
Defined.

End RolloutSample.
