(* ===== verification/DeletionGuard.v ===== *)
(** * The guard of deletion requests

    [src/internal/deletionguard/guard.go]: which kind-5 requests the recovery of
    a leaked identity may sign and publish, and exactly which requests those
    are. *)

From Stdlib Require Import ZArith Lia Bool Ascii.
From stdpp Require Import base tactics decidable option list numbers strings gmap fin_maps.
From S2P Require Import Prelude Bytes Nostr Saga Inbound EventID.

Definition MaxBatchSize : nat := 500.

Inductive DeletionError :=
| EKind
| EAuthor
| EContent
| ETagLength
| ESecret
| EEventID
| EUnknownEvent
| ERepeatedEvent
| EKindOutside
| EKindTag
| EKindTagOutside
| ERepeatedKind
| ETagName
| ENoEvents
| EBatch
| EKindCount
| EKindMismatch
| EUnsigned.

(** The three sets of the loop. *)
Record Seen := mkSeen {
  sn_referenced : gset string;
  sn_actualKinds : gset Z;
  sn_declaredKinds : gset Z;
}.

(** [allowedKinds] is nil, or has the kind. *)
Definition kind_allowed (allowedKinds : option (gset Z)) (kind : Z) : bool :=
  match allowedKinds with None => true | Some allowed => bool_decide (kind ∈ allowed) end.

(** [nostr.Kind(number)]: the low sixteen bits. *)
Definition kind_of_int (number : Z) : Z := number mod 65536.

Definition has_nsec (tag : list string) : bool := contains_sub (to_lower (String.concat "" tag)) "nsec1".

(** The body of the loop over the tags. *)
Definition check_tag (targets : gmap string Z) (allowedKinds : option (gset Z)) (seen : Seen) (tag : list string) : result DeletionError Seen :=
  match tag with
  | [name; value] =>
      if has_nsec tag then Err ESecret
      else if String.eqb name "e" then
        match id_from_hex value with
        | None => Err EEventID
        | Some id =>
            if negb (String.eqb (hex id) value) then Err EEventID
            else match targets !! id with
              | None => Err EUnknownEvent
              | Some kind =>
                  if bool_decide (id ∈ sn_referenced seen) then Err ERepeatedEvent
                  else if negb (kind_allowed allowedKinds kind) then Err EKindOutside
                  else Ok (mkSeen ({[ id ]} ∪ sn_referenced seen) ({[ kind ]} ∪ sn_actualKinds seen) (sn_declaredKinds seen))
              end
        end
      else if String.eqb name "k" then
        match parse_int64 value with
        | None => Err EKindTag
        | Some number =>
            if negb (String.eqb (AppendInt "" number) value) then Err EKindTag
            else
              let kind := kind_of_int number in
              if negb (kind_allowed allowedKinds kind) then Err EKindTagOutside
              else if bool_decide (kind ∈ sn_declaredKinds seen) then Err ERepeatedKind
              else Ok (mkSeen (sn_referenced seen) (sn_actualKinds seen) ({[ kind ]} ∪ sn_declaredKinds seen))
        end
      else Err ETagName
  | _ => Err ETagLength
  end.

Fixpoint check_tags (targets : gmap string Z) (allowedKinds : option (gset Z)) (seen : Seen) (tags : list (list string)) : result DeletionError Seen :=
  match tags with
  | [] => Ok seen
  | tag :: tags' => let! seen' := check_tag targets allowedKinds seen tag in check_tags targets allowedKinds seen' tags'
  end.

Definition Check_deletion (ev : Event) (author : string) (targets : gmap string Z) (allowedKinds : option (gset Z)) : result DeletionError unit :=
  check! ev_Kind ev =? KindDeletion else EKind in
  check! String.eqb (ev_PubKey ev) author else EAuthor in
  check! String.eqb (ev_Content ev) "" else EContent in
  let! seen := check_tags targets allowedKinds (mkSeen ∅ ∅ ∅) (ev_Tags ev) in
  check! negb (size (sn_referenced seen) =? 0)%nat else ENoEvents in
  check! (size (sn_referenced seen) <=? MaxBatchSize)%nat else EBatch in
  check! (size (sn_actualKinds seen) =? size (sn_declaredKinds seen))%nat else EKindCount in
  check! bool_decide (sn_actualKinds seen ⊆ sn_declaredKinds seen) else EKindMismatch in
  Ok tt.

(** [CheckSigned] *)
Definition CheckSigned `{NostrPrims} (ev : Event) (author : string) (targets : gmap string Z) (allowedKinds : option (gset Z)) : result DeletionError unit :=
  let! _ := Check_deletion ev author targets allowedKinds in
  check! CheckID ev && VerifySignature ev else EUnsigned in
  Ok tt.

(** ** What the guard lets through *)

(** The events a request names, and the kinds it declares. *)
Definition named_events (tags : list (list string)) : list string :=
  omap (λ tag, match tag with [name; value] => if String.eqb name "e" then id_from_hex value else None | _ => None end) tags.
Definition declared_kinds (tags : list (list string)) : list Z :=
  omap (λ tag, match tag with
    | [name; value] => if String.eqb name "e" then None else if String.eqb name "k" then kind_of_int <$> parse_int64 value else None
    | _ => None
    end) tags.

(** A tag that names a target in lower-case hex, or a kind in plain decimal. *)
Definition tag_permitted (targets : gmap string Z) (allowedKinds : option (gset Z)) (tag : list string) : Prop :=
  has_nsec tag = false ∧
  ((∃ id kind, tag = ["e"%string; hex id] ∧ String.length id = 32%nat ∧ targets !! id = Some kind ∧ kind_allowed allowedKinds kind = true) ∨
   (∃ n, tag = ["k"%string; AppendInt "" n] ∧ min_i64 ≤ n ≤ max_i64 ∧ kind_allowed allowedKinds (kind_of_int n) = true)).

Definition kinds_of (targets : gmap string Z) (ids : list string) : list Z := omap (λ id, targets !! id) ids.

(** The requests the guard is for. *)
Record permitted (ev : Event) (author : string) (targets : gmap string Z) (allowedKinds : option (gset Z)) : Prop := {
  pm_kind : ev_Kind ev = KindDeletion;
  pm_author : ev_PubKey ev = author;
  pm_content : ev_Content ev = "";
  pm_tags : Forall (tag_permitted targets allowedKinds) (ev_Tags ev);
  pm_distinct : NoDup (named_events (ev_Tags ev));
  pm_batch : (1 ≤ length (named_events (ev_Tags ev)) ≤ MaxBatchSize)%nat;
  pm_declared : NoDup (declared_kinds (ev_Tags ev));
  pm_kinds : list_to_set (declared_kinds (ev_Tags ev)) =@{gset Z} list_to_set (kinds_of targets (named_events (ev_Tags ev)));
}.

Lemma parse_int64_range s n : parse_int64 s = Some n → min_i64 ≤ n ≤ max_i64.
Proof. unfold parse_int64. repeat case_match; try done; intros [= <-]; lia. Qed.

(** One round of the loop. *)
Lemma check_tag_ok targets allowed seen tag seen' : check_tag targets allowed seen tag = Ok seen' ↔
  tag_permitted targets allowed tag ∧
  Forall (λ id, id ∉ sn_referenced seen) (named_events [tag]) ∧ Forall (λ k, k ∉ sn_declaredKinds seen) (declared_kinds [tag]) ∧
  seen' = mkSeen (list_to_set (named_events [tag]) ∪ sn_referenced seen) (list_to_set (kinds_of targets (named_events [tag])) ∪ sn_actualKinds seen)
            (list_to_set (declared_kinds [tag]) ∪ sn_declaredKinds seen).
Proof.
  split.
  - unfold check_tag, tag_permitted. destruct tag as [|name [|value []]]; try done.
    destruct (has_nsec _); [done|]. unfold named_events, declared_kinds, kinds_of. simpl.
    destruct (String.eqb_spec name "e") as [->|].
    + destruct (id_from_hex value) as [id|] eqn:Ei; [|done]. destruct (String.eqb_spec (hex id) value) as [Eh|]; [|done]. simpl.
      destruct (targets !! id) as [kind|] eqn:Et; [|done]. case_bool_decide; [done|]. destruct (kind_allowed allowed kind) eqn:Ek; [|done].
      simpl. intros [= <-]. split_and!; [done| |by repeat constructor|by constructor|].
      * left. exists id, kind. split_and!; try done; [by rewrite Eh|].
        unfold id_from_hex in Ei. destruct (Nat.eqb_spec (String.length value) 64) as [El|]; [|done]. rewrite <- Eh, length_hex in El. lia.
      * f_equal; set_solver.
    + destruct (String.eqb_spec name "k") as [->|]; [|done]. destruct (parse_int64 value) as [num|] eqn:En; [|done].
      destruct (String.eqb_spec (AppendInt "" num) value) as [Ea|]; [|done]. simpl.
      destruct (kind_allowed allowed (kind_of_int num)) eqn:Ek; [|done]. simpl. case_bool_decide; [done|]. intros [= <-].
      split_and!; [done| |by constructor|by repeat constructor|f_equal; set_solver].
      right. exists num. split_and!; [by rewrite Ea|apply parse_int64_range in En; lia..|done].
  - intros ([Hn [(id & kind & -> & Hl & Ht & Hk)|(n & -> & Hr & Hk)]] & He & Hd & ->);
      unfold check_tag, named_events, declared_kinds, kinds_of in *; rewrite Hn; simpl in *.
    + rewrite id_from_hex_hex in * by done. simpl in *. rewrite String.eqb_refl, Ht, Hk. apply Forall_cons in He as [He _].
      rewrite bool_decide_false by done. simpl. do 2 f_equal; set_solver.
    + rewrite parse_int64_AppendInt in * by done. simpl in *. rewrite String.eqb_refl, Hk. apply Forall_cons in Hd as [Hd _]. simpl.
      rewrite bool_decide_false by done. do 2 f_equal; set_solver.
Qed.

Lemma named_cons tag tags : named_events (tag :: tags) = named_events [tag] ++ named_events tags.
Proof. apply (omap_app _ [tag]). Qed.
Lemma declared_cons tag tags : declared_kinds (tag :: tags) = declared_kinds [tag] ++ declared_kinds tags.
Proof. apply (omap_app _ [tag]). Qed.
Lemma kinds_of_app targets a b : kinds_of targets (a ++ b) = kinds_of targets a ++ kinds_of targets b.
Proof. apply omap_app. Qed.
(** A tag names at most one event, and declares at most one kind. *)
Lemma named_one tag : NoDup (named_events [tag]).
Proof. unfold named_events. simpl. case_match; [|constructor]. apply NoDup_singleton. Qed.
Lemma declared_one tag : NoDup (declared_kinds [tag]).
Proof. unfold declared_kinds. simpl. case_match; [|constructor]. apply NoDup_singleton. Qed.

Lemma union_swap {A} `{Countable A} (X Y Z : gset A) : X ∪ (Y ∪ Z) = Y ∪ (X ∪ Z).
Proof. by rewrite !(assoc_L (∪)), (comm_L (∪) X Y). Qed.

(** Values added to a set one list after the other, none twice. *)
Lemma fresh_app {A} `{Countable A} (N L : list A) (X : gset A) : NoDup N →
  (NoDup (N ++ L) ∧ Forall (λ x, x ∉ X) (N ++ L)) ↔ Forall (λ x, x ∉ X) N ∧ NoDup L ∧ Forall (λ x, x ∉ list_to_set N ∪ X) L.
Proof.
  intros HN. rewrite NoDup_app, Forall_app, !Forall_forall. split.
  - intros [(_ & Hd & HL) [H1 H2]]. split_and!; [done|done|]. intros x Hx [HxN|HxX]%elem_of_union; [|by apply (H2 x)].
    apply elem_of_list_to_set in HxN. by apply (Hd x).
  - intros (H1 & HL & H2). split_and!; [done| |done|done|].
    + intros x HxN HxL. apply (H2 x HxL), elem_of_union_l. by apply elem_of_list_to_set.
    + intros x HxL HxX. apply (H2 x HxL). by apply elem_of_union_r.
Qed.

(** The whole loop. *)
Lemma check_tags_ok targets allowed tags seen seen' : check_tags targets allowed seen tags = Ok seen' ↔
  Forall (tag_permitted targets allowed) tags ∧
  (NoDup (named_events tags) ∧ Forall (λ id, id ∉ sn_referenced seen) (named_events tags)) ∧
  (NoDup (declared_kinds tags) ∧ Forall (λ k, k ∉ sn_declaredKinds seen) (declared_kinds tags)) ∧
  seen' = mkSeen (list_to_set (named_events tags) ∪ sn_referenced seen) (list_to_set (kinds_of targets (named_events tags)) ∪ sn_actualKinds seen)
            (list_to_set (declared_kinds tags) ∪ sn_declaredKinds seen).
Proof.
  revert seen. induction tags as [|tag tags IH]; intros seen.
  - simpl. rewrite !(left_id_L ∅ (∪)). split; [intros [= <-]|intros (_ & _ & _ & ->)]; destruct seen; [|done].
    split_and!; constructor || done.
  - rewrite named_cons, declared_cons, kinds_of_app, !list_to_set_app_L. cbn [check_tags]. unfold result_bind.
    pose proof (check_tag_ok targets allowed seen tag) as Htag. pose proof (named_one tag) as Hn1. pose proof (declared_one tag) as Hd1.
    rewrite (fresh_app _ _ _ Hn1), (fresh_app _ _ _ Hd1), Forall_cons, <- !(assoc_L (∪)).
    generalize dependent (declared_kinds [tag]). generalize dependent (named_events [tag]). intros N Hn D Htag Hd. split.
    + destruct (check_tag _ _ _ _) as [seen1|]; [|done]. intros E. destruct (proj1 (Htag seen1) eq_refl) as (Hp & He & Hd1 & ->).
      apply IH in E as (Hps & [Hnd ?] & [Hdd ?] & ->). simpl in *. split_and!; try done. f_equal; apply union_swap.
    + intros ([Hp Hps] & (He & Hnd & ?) & (Hd1 & Hdd & ?) & ->). rewrite (proj2 (Htag _) (conj Hp (conj He (conj Hd1 eq_refl)))). apply IH. simpl.
      split_and!; try done. f_equal; apply union_swap.
Qed.

Lemma Check_permitted ev author targets allowedKinds :
  Check_deletion ev author targets allowedKinds = Ok tt ↔ permitted ev author targets allowedKinds.
Proof.
  unfold Check_deletion. set (tags := ev_Tags ev). split.
  - intros Hc. inv_ok. bool_facts. apply check_tags_ok in Hok2 as (Hp & [Hn _] & [Hd _] & ->). simpl in *.
    rewrite !(right_id_L ∅ (∪)) in *. rewrite size_list_to_set in * by done.
    apply Nat.eqb_neq in Hreq2. apply Nat.leb_le in Hreq1. apply Nat.eqb_eq in Hreq0.
    split; try done; [by apply String.eqb_eq|by apply String.eqb_eq|fold tags; lia|].
    symmetry. apply set_subseteq_size_eq; [done|]. fold tags. lia.
  - intros [Hk Ha Hc Hp Hn Hb Hd Hks]. unfold tags.
    rewrite (proj2 (Z.eqb_eq _ _) Hk), (proj2 (String.eqb_eq _ _) Ha), (proj2 (String.eqb_eq _ _) Hc). simpl.
    rewrite (proj2 (check_tags_ok targets allowedKinds (ev_Tags ev) (mkSeen ∅ ∅ ∅) _)
      (conj Hp (conj (conj Hn (Forall_true _ _ (λ x, not_elem_of_empty x))) (conj (conj Hd (Forall_true _ _ (λ x, not_elem_of_empty x))) eq_refl)))).
    simpl. rewrite !(right_id_L ∅ (∪)), !size_list_to_set by done. rewrite <- Hks, size_list_to_set, Nat.eqb_refl by done.
    rewrite bool_decide_true by done. destruct (Nat.eqb_spec (length (named_events (ev_Tags ev))) 0); [lia|].
    by rewrite (proj2 (Nat.leb_le _ _) (proj2 Hb)).
Qed.

Lemma CheckSigned_permitted `{NostrPrims} ev author targets allowedKinds : CheckSigned ev author targets allowedKinds = Ok tt ↔
  permitted ev author targets allowedKinds ∧ CheckID ev = true ∧ VerifySignature ev = true.
Proof.
  rewrite <- Check_permitted. unfold CheckSigned. destruct (Check_deletion _ _ _ _) as [[]|]; simpl; [|split; [done|by intros [? _]]].
  destruct (CheckID ev), (VerifySignature ev); simpl; naive_solver.
Qed.

(** C18: the guard lets through exactly the requests it is for: kind 5, by the
    leaked identity, without content, whose tags each name a target in lower-case
    hex or a kind in plain decimal, with between one and 500 distinct events and,
    once each, exactly the kinds of those events, all of them among the allowed
    kinds where such a set is given.  A kind is read modulo 65536,
    so that a tag for 65537 counts for kind 1.  The guard of a signed request
    asks in addition for its id and its signature. *)
Theorem deletion_guard_exact `{NostrPrims} ev author targets allowedKinds :
  (Check_deletion ev author targets allowedKinds = Ok tt ↔ permitted ev author targets allowedKinds) ∧
  (CheckSigned ev author targets allowedKinds = Ok tt ↔ permitted ev author targets allowedKinds ∧ CheckID ev = true ∧ VerifySignature ev = true).
Proof. split; [apply Check_permitted|apply CheckSigned_permitted]. Qed.
