(* ===== verification/Recovery.v ===== *)
(** * Identity recovery

    [src/internal/identityrecovery]: the engine an operator runs after the key of
    a service leaked ([engine.go], [recovery.go], [pending.go], [quarantine.go],
    [cleanup_evidence.go], [purge_checklist.go], [ledger.go]).  It walks ten
    phases, keeps every record it signs in a local ledger before it publishes it,
    and can be interrupted and run again at any point.

    The relays, the signers, the adapters of the domains and the clock are
    arbitrary functions of a world.  An action keeps what it did to the state in
    memory and to the ledger when it fails, as the code does. *)

From Stdlib Require Import ZArith Lia Bool Ascii.
From stdpp Require Import base tactics decidable option list numbers strings gmap fin_maps sorting.
From S2P Require Import Prelude Action Bytes Nostr EventID OutboxData Saga Inbound TrustEpoch DeletionGuard.

(** ** Phases *)

Inductive Phase :=
| PhaseDeclare
| Contain
| Inventory
| ProvisionNewIdentity
| CutActivateTrust
| ReassertCanonicalState
| RotateExternalSecrets
| DeleteAndPurge
| Verify
| RetireOldIdentity
| PhaseOther (s : string).

#[export] Instance Phase_eq_dec : EqDecision Phase.
Proof. solve_decision. Defined.

Definition phase_name (p : Phase) : string :=
  match p with
  | PhaseDeclare => "declare"
  | Contain => "contain"
  | Inventory => "inventory"
  | ProvisionNewIdentity => "provision-new-identity"
  | CutActivateTrust => "cut-activate-trust"
  | ReassertCanonicalState => "reassert-canonical-state"
  | RotateExternalSecrets => "rotate-external-secrets"
  | DeleteAndPurge => "delete-and-purge"
  | Verify => "verify"
  | RetireOldIdentity => "retire-old-identity"
  | PhaseOther s => s
  end.

Definition Phases : list Phase :=
  [PhaseDeclare; Contain; Inventory; ProvisionNewIdentity; CutActivateTrust; ReassertCanonicalState;
   RotateExternalSecrets; DeleteAndPurge; Verify; RetireOldIdentity].

(** ** Records *)

(** [RelayEvidence]; [re_Complete]: there is a page proof and it is complete. *)
Record RelayEvidence := mkRelayEvidence {
  re_Status : string;
  re_Reason : string;
  re_Complete : bool;
}.

Record InventoryEvent := mkInventoryEvent {
  iv_ID : string;
  iv_Kind : Z;
  iv_CreatedAt : Z;
}.

Record SnapshotReceipt := mkSnapshotReceipt {
  sr_ComputedSHA256 : string;
  sr_AdmittedIDs : list string;
}.

Record WaiverEvidence := mkWaiverEvidence {
  we_ReasonCode : string;
  we_EvidenceIDs : list string;
}.

Record CutoverReadiness := mkCutoverReadiness {
  cr_EvidenceIDs : list string;
  cr_Waivers : gmap string string;
  cr_WaiverDetails : gmap string WaiverEvidence;
  cr_Missing : list string;
}.

Record Incident := mkIncident {
  in_IncidentID : string;
  in_OldPubkey : string;
  in_DeclaredAt : Z;
  in_ReasonCode : string;
  in_ControlledRelays : list string;
  in_Phase : Phase;
  in_Aborted : bool;
}.

Record TrustTransition := mkTrustTransition {
  tt_IncidentID : string;
  tt_Epoch : Z;
  tt_OldPubkey : string;
  tt_NewPubkey : string;
  tt_ControlledRelays : list string;
  tt_ActivationBarrier : Z;
  tt_InventoryDigest : string;
  tt_InventoryCount : Z;
  tt_ConsumerRoster : list string;
  tt_Activated : bool;
}.

Record Receipt := mkReceipt {
  rc_IncidentID : string;
  rc_Phase : Phase;
  rc_Status : string;
  rc_InputDigest : string;
  rc_EvidenceIDs : list string;
  rc_InventoryRelays : gmap string RelayEvidence;
  rc_InventorySnapshots : list SnapshotReceipt;
  rc_InventorySources : gmap string string;
  rc_InventorySourceDefault : string;
  rc_WaiverEventIDs : gmap string string;
  rc_WaiverDetails : gmap string WaiverEvidence;
  rc_CompletedAt : Z;
}.

(** The bodies of the records the engine signs. *)
Inductive Body :=
| BIncident (i : Incident)
| BTrust (t : TrustTransition)
| BReceipt (r : Receipt).

(** [State], its fields in groups; a time is the second its text denotes. *)
Record Declared := mkDeclared {
  dc_IncidentID : string;
  dc_DeclaredAt : Z;
  dc_OldPubkey : string;
  dc_OperatorPubkey : string;
}.

Record Inventoried := mkInventoried {
  st_Inventory : list InventoryEvent;
  st_Observed : list InventoryEvent;
  st_CleanupInventory : gmap string RelayEvidence;
  st_InventoryDigest : string;
  st_InventorySnapshots : list SnapshotReceipt;
  st_InventorySources : gmap string string;
  st_VerifiedSnapshots : list (string * string);
}.

Record Cut := mkCut {
  st_NewPubkey : string;
  st_Epoch : Z;
  st_ActivationBarrier : Z;
  st_CutoverWaiverEventIDs : gmap string string;
  st_CutoverWaiverDetails : gmap string WaiverEvidence;
}.

Record Deletions := mkDeletions {
  st_DeletionIDs : list string;
  st_CleanupDeletions : gmap string (gmap string RelayEvidence);
}.

Record Signed := mkSigned {
  st_LastTimestamp : Z;
  st_Records : gmap string Event;
  st_Pending : list string;
}.

Record State := mkState {
  st_declared : Declared;
  st_inventoried : Inventoried;
  st_cut : Cut;
  st_deletions : Deletions;
  st_signed : Signed;
  st_Aborted : bool;
}.

Definition empty_state : State :=
  mkState (mkDeclared "" 0 "" "") (mkInventoried [] [] ∅ "" [] ∅ []) (mkCut "" 0 0 ∅ ∅) (mkDeletions [] ∅) (mkSigned 0 ∅ []) false.

Definition set_declared (d : Declared) (s : State) : State := mkState d (st_inventoried s) (st_cut s) (st_deletions s) (st_signed s) (st_Aborted s).
Definition set_inventoried (i : Inventoried) (s : State) : State := mkState (st_declared s) i (st_cut s) (st_deletions s) (st_signed s) (st_Aborted s).
Definition set_cut (c : Cut) (s : State) : State := mkState (st_declared s) (st_inventoried s) c (st_deletions s) (st_signed s) (st_Aborted s).
Definition set_deletions (d : Deletions) (s : State) : State := mkState (st_declared s) (st_inventoried s) (st_cut s) d (st_signed s) (st_Aborted s).
Definition set_signed (g : Signed) (s : State) : State := mkState (st_declared s) (st_inventoried s) (st_cut s) (st_deletions s) g (st_Aborted s).
Definition set_aborted (b : bool) (s : State) : State := mkState (st_declared s) (st_inventoried s) (st_cut s) (st_deletions s) (st_signed s) b.

Definition st_IncidentID (s : State) : string := dc_IncidentID (st_declared s).
Definition Records (s : State) : gmap string Event := st_Records (st_signed s).
Definition Pending (s : State) : list string := st_Pending (st_signed s).
Definition Observed (s : State) : list InventoryEvent := st_Observed (st_inventoried s).

(** [encoding/json] on the bodies and back. *)
Class RecoveryJSON := {
  encode_body : Body → string;
  decode_receipt : string → option Receipt;
  decode_transition : string → option TrustTransition;
}.

Definition ascii_text (s : string) : bool := forallb (λ c, Z_of_byte c <? 128) (String.list_ascii_of_string s).

(** Decoding reads the fields it knows: what identifies a receipt comes back,
    another body has no status, and nothing is no JSON. *)
Class RecoveryJSONLaws `{RecoveryJSON} : Prop := {
  decode_receipt_own r : ascii_text (rc_IncidentID r) = true → ascii_text (rc_Status r) = true → rc_Phase r ∈ Phases →
    ∃ r', decode_receipt (encode_body (BReceipt r)) = Some r' ∧
      rc_IncidentID r' = rc_IncidentID r ∧ rc_Phase r' = rc_Phase r ∧ rc_Status r' = rc_Status r;
  decode_receipt_incident i r : decode_receipt (encode_body (BIncident i)) = Some r → rc_Status r = "";
  decode_receipt_trust t r : decode_receipt (encode_body (BTrust t)) = Some r → rc_Status r = "";
  decode_receipt_empty : decode_receipt "" = None;
}.

(** ** Reading records *)

Definition TopicIncident : string := "identity-incident".
Definition TopicTrustEpoch : string := "trust-epoch".
Definition TopicReceipt : string := "identity-recovery-receipt".

(** [tag]: the value of the first pair with this name. *)
Fixpoint tag_of (tags : list (list string)) (key : string) : string :=
  match tags with
  | [] => ""
  | [name; value] :: tags' => if String.eqb name key then value else tag_of tags' key
  | _ :: tags' => tag_of tags' key
  end.
Definition tag (ev : Event) (key : string) : string := tag_of (ev_Tags ev) key.

Definition schema_of (topic : string) : string :=
  if String.eqb topic TopicIncident then "bahia.identity-incident.v1"
  else if String.eqb topic TopicTrustEpoch then "bahia.trust-epoch.v1"
  else if String.eqb topic TopicReceipt then "bahia.identity-recovery-receipt.v1" else "".

(** [CPStateFamily.TagValue] of the three families. *)
Definition FamilyIncident : string := "32051".
Definition FamilyTrustEpoch : string := "32052".
Definition FamilyReceipt : string := "32053".

Section records.
Context `{NostrPrims} `{RecoveryJSON}.

Definition validRecord (ev : Event) (author topic d family : string) : bool :=
  negb (String.eqb (schema_of topic) "") && (ev_Kind ev =? kindCPState) && String.eqb (ev_PubKey ev) author && CheckID ev && VerifySignature ev &&
  String.eqb (tag ev "t") topic && String.eqb (tag ev "d") d && String.eqb (tag ev "domain") "identity" && String.eqb (tag ev "schema") (schema_of topic) &&
  String.eqb (tag ev "legacy_kind") family && String.eqb (tag ev "deleted") "false".

(** The order of [latest]: newest first, then by id. *)
Definition newer (a b : Event) : bool :=
  if ev_CreatedAt a =? ev_CreatedAt b then bytes_ltb (hex (ev_ID a)) (hex (ev_ID b)) else ev_CreatedAt b <? ev_CreatedAt a.
(** The first event after sorting. *)
Definition latest (events : list Event) : option Event :=
  foldr (λ ev best, match best with Some b => if newer b ev then Some b else Some ev | None => Some ev end) None events.

Definition receipt_d (incidentID : string) (p : Phase) : string := "identity-incident:" +:+ incidentID +:+ ":phase:" +:+ phase_name p.

Definition is_receipt (s : State) (author : string) (p : Phase) (ev : Event) : bool :=
  validRecord ev author TopicReceipt (receipt_d (st_IncidentID s) p) FamilyReceipt && String.eqb (tag ev "incident") (st_IncidentID s).

(** [State.Receipt] *)
Definition Receipt_of (s : State) (p : Phase) : option Receipt :=
  match PubKeyFromHex (dc_OperatorPubkey (st_declared s)) with
  | None => None
  | Some author =>
      let candidates := snd <$> filter (λ r, bool_decide (fst r ∉ Pending s) && is_receipt s author p (snd r) = true) (map_to_list (Records s)) in
      match latest candidates with
      | None => None
      | Some ev =>
          match decode_receipt (ev_Content ev) with
          | Some r =>
              if String.eqb (rc_IncidentID r) (st_IncidentID s) && bool_decide (rc_Phase r = p) && String.eqb (rc_Status r) "completed" then Some r else None
          | None => None
          end
      end
  end.

(** [State.signedCompletion] *)
Definition signedCompletion (s : State) (p : Phase) : bool :=
  existsb (λ r : string * Event,
    bool_decide (fst r ∈ Pending s) &&
    match decode_receipt (ev_Content (snd r)) with
    | Some rc => String.eqb (rc_IncidentID rc) (st_IncidentID s) && bool_decide (rc_Phase rc = p) && String.eqb (rc_Status rc) "completed"
    | None => false
    end && CheckID (snd r) && VerifySignature (snd r)) (map_to_list (Records s)).

(** [State.Next] *)
Definition first_open (s : State) (phases : list Phase) : option Phase := find (λ p, match Receipt_of s p with Some _ => false | None => true end) phases.
Definition Next (s : State) : option Phase := if st_Aborted s then None else first_open s Phases.
Definition CutComplete (s : State) : bool := match Receipt_of s CutActivateTrust with Some _ => true | None => false end.

(** [ValidateReceipts]: whether it returns nil. *)
Definition ValidateReceipts (s : State) (author : string) : bool :=
  forallb (λ p,
    match Receipt_of s p with
    | None => false
    | Some r => String.eqb (rc_Status r) "completed" && existsb (λ rec : string * Event, is_receipt s author p (snd rec)) (map_to_list (Records s))
    end) Phases.
End records.

(** ** The engine *)

(** [Config] and what of [Engine] is registered. *)
Record Engine := mkEngine {
  en_ServiceID : string;
  en_OldPubkey : string;
  en_ReasonCode : string;
  en_ControlledRelays : list string;
  en_CleanupRelays : list string;
  en_ConsumerRoster : list string;
  en_OperatorPubkey : string;
  en_AcceptedEventIDs : option (list string);
  en_VerifiedSnapshots : list (string * string);
  (** Adapters that are set. *)
  en_Containment : bool;
  en_Local : bool;
  en_NewSigner : bool;
  en_OldSigner : bool;
  en_Rotation : bool;
  en_Purge : bool;
  en_Acks : bool;
  en_Domains : gset string;
  en_RequiredDomains : list string;
}.

Inductive RecoveryError :=
| EOutside (what err : string)
| EAdapter (what : string)
| ERecoveryIncomplete (what : string)
| EForwardOnly
| EMismatch (what : string)
| EInvalid (what : string)
| EPhase (next : Phase)
| EGuard (e : DeletionError)
| EOutOfFuel.

(** The outside: signers, relays, the disk of the ledger and the adapters.
    [None] is a nil error. *)
Class RecoveryEnv (W : Type) := {
  env_Validate : W → option string * W;
  env_Load : W → option string * W;
  env_Save : W → option string * W;
  env_Clock : W → Z * W;
  env_NewIncidentID : W → result string string * W;
  env_OperatorKey : W → result string string * W;
  env_OperatorSign : Event → W → result string Event * W;
  env_NewSigner : W → option string * W;
  env_NewKey : W → result string string * W;
  env_NewSign : Event → W → result string Event * W;
  env_OldSigner : W → option string * W;
  env_OldKey : W → result string string * W;
  env_OldSign : Event → W → result string Event * W;
  (** The events at the coordinate of the trust epoch. *)
  env_ReadEpochs : W → result string (list Event) * W;
  env_Publish : Event → W → option string * W;
  env_PublishDeletion : Event → W → gmap string RelayEvidence * W;
  env_Scan : W → (list Event * gmap string RelayEvidence) * W;
  env_LocalEvents : W → result string (list Event) * W;
  env_FetchCandidates : list string → W → result string (list Event) * W;
  env_ReadMissing : Z → list string → W → result string (gmap string Event * list SnapshotReceipt) * W;
  env_Contain : W → result string (list string) * W;
  env_DomainInventory : string → W → option string * W;
  env_Reassert : string → W → result string (list string) * W;
  env_DomainVerify : string → W → result string (list string) * W;
  env_RotationInventory : W → result string (list string) * W;
  env_Rotate : list string → W → result string (gmap string string) * W;
  env_Purge : list string → W → result string (list string) * W;
  env_Readiness : Z → string → string → list string → W → result string CutoverReadiness * W;
  env_MissingAcks : Z → list string → W → result string (list string) * W;
}.

(** The calls that leave the process with a signature, and what an activation waits for. *)
Inductive Outcall :=
| OSigned (ev : Event) (answer : result string Event)
| OOldSigned (ev : Event) (answer : result string Event)
| OPublished (ev : Event) (err : option string)
| ODeleted (ev : Event) (outcomes : gmap string RelayEvidence)
| OReadiness (epoch : Z) (answer : result string CutoverReadiness)
| OHead (answer : result string (list Event)).

(** The ledger on disk, the state in memory, and the calls so far. *)
Record RecoveryWorld (W : Type) := mkRecoveryWorld {
  rw_env : W;
  rw_ledger : State;
  rw_mem : State;
  rw_log : list Outcall;
}.
Arguments mkRecoveryWorld {W} _ _ _ _.
Arguments rw_env {W} _.
Arguments rw_ledger {W} _.
Arguments rw_mem {W} _.
Arguments rw_log {W} _.

Section engine.
Context `{NostrPrims} `{RecoveryJSON} {W : Type} `{RecoveryEnv W}.
(** [relayguard.Normalize]: the URL under which a relay reports. *)
Context (normalize : string → string).
Context (e : Engine).

Abbreviation M A := (act (RecoveryWorld W) RecoveryError A).

(** *** State, ledger and calls *)

Definition state : M State := act_read (λ w, Ok (rw_mem w)).
Definition update (f : State → State) : M unit := act_write (λ w, mkRecoveryWorld (rw_env w) (rw_ledger w) (f (rw_mem w)) (rw_log w)).
Definition ask {A} (f : W → A * W) : M A := λ w,
  let '(a, v) := f (rw_env w) in (Ok a, mkRecoveryWorld v (rw_ledger w) (rw_mem w) (rw_log w)).
Definition call {A} (f : W → A * W) (outcall : A → Outcall) : M A := λ w,
  let '(a, v) := f (rw_env w) in (Ok a, mkRecoveryWorld v (rw_ledger w) (rw_mem w) (rw_log w ++ [outcall a])).
Definition unless (what : string) (err : option string) : M unit := match err with None => act_ret tt | Some x => act_fail (EOutside what x) end.
Definition answered {A} (what : string) (a : result string A) : M A := match a with Ok x => act_ret x | Err x => act_fail (EOutside what x) end.
Definition check (c : bool) (err : RecoveryError) : M unit := if c then act_ret tt else act_fail err.

(** [Ledger.Save] of the state in memory, and [Ledger.Load]. *)
Definition Save : M unit := λ w,
  let '(err, v) := env_Save (rw_env w) in
  match err with
  | None => (Ok tt, mkRecoveryWorld v (rw_mem w) (rw_mem w) (rw_log w))
  | Some x => (Err (EOutside "save" x), mkRecoveryWorld v (rw_ledger w) (rw_mem w) (rw_log w))
  end.
Definition Load : M unit := λ w,
  let '(err, v) := env_Load (rw_env w) in
  match err with
  | None => (Ok tt, mkRecoveryWorld v (rw_ledger w) (rw_ledger w) (rw_log w))
  | Some x => (Err (EOutside "load" x), mkRecoveryWorld v (rw_ledger w) (rw_mem w) (rw_log w))
  end.

(** Seconds of a clock, far from the ends of their width. *)
Definition nextTimestamp : M Z :=
  do! n := ask env_Clock in
  do! s := state in
  let g := st_signed s in
  let n := if n <=? st_LastTimestamp g then st_LastTimestamp g + 1 else n in
  do! _ := update (set_signed (mkSigned n (st_Records g) (st_Pending g))) in
  act_ret n.

(** [validEvidenceID] *)
Definition validEvidenceID (value : string) : bool := match id_from_hex value with Some id => String.eqb (hex id) value | None => false end.

(** *** Readiness and the head *)

Definition waiver_ok (details : gmap string WaiverEvidence) (w : string * string) : bool :=
  match details !! fst w with
  | None => false
  | Some detail =>
      Registered (fst w) && ValidWaiverReason (we_ReasonCode detail) && negb (bool_decide (we_EvidenceIDs detail = [])) && validEvidenceID (snd w) &&
      forallb validEvidenceID (we_EvidenceIDs detail)
  end.

(** What a proof of readiness has to be. *)
Definition ready (roster : list string) (proof : CutoverReadiness) : bool :=
  bool_decide (cr_Missing proof = []) && (length roster <=? length (cr_EvidenceIDs proof))%nat &&
  (size (cr_Waivers proof) =? size (cr_WaiverDetails proof))%nat && forallb (waiver_ok (cr_WaiverDetails proof)) (map_to_list (cr_Waivers proof)).

Definition set_waivers (proof : CutoverReadiness) (s : State) : State :=
  let c := st_cut s in
  set_cut (mkCut (st_NewPubkey c) (st_Epoch c) (st_ActivationBarrier c) (cr_Waivers proof) (cr_WaiverDetails proof)) s.

Definition cutoverReadiness (epoch : Z) (newPubkey : string) : M CutoverReadiness :=
  do! _ := check (en_Acks e) (ERecoveryIncomplete "readiness") in
  do! s := state in
  do! answer := call (env_Readiness epoch (st_IncidentID s) newPubkey (en_ConsumerRoster e)) (OReadiness epoch) in
  do! proof := answered "readiness" answer in
  do! _ := check (ready (en_ConsumerRoster e) proof) (ERecoveryIncomplete "readiness") in
  do! _ := update (set_waivers proof) in
  act_ret proof.

(** One candidate after another: the best so far. *)
Fixpoint epoch_best (events : list Event) (best : option TrustTransition) : result RecoveryError (option TrustTransition) :=
  match events with
  | [] => Ok best
  | ev :: events' =>
      if negb (validRecord ev (en_OperatorPubkey e) TopicTrustEpoch ("trust-epoch:" +:+ en_ServiceID e) FamilyTrustEpoch) then Err (EInvalid "head")
      else match decode_transition (ev_Content ev) with
        | None => Err (EInvalid "head")
        | Some c =>
            if (tt_Epoch c <? 1) || String.eqb (tt_OldPubkey c) "" || String.eqb (tt_NewPubkey c) "" || negb (String.eqb (tag ev "epoch") (AppendInt "" (tt_Epoch c)))
            then Err (EInvalid "head")
            else match best with
              | None => epoch_best events' (Some c)
              | Some b =>
                  if tt_Epoch b <? tt_Epoch c then epoch_best events' (Some c)
                  else if (tt_Epoch c =? tt_Epoch b) && negb (String.eqb (tt_IncidentID c) (tt_IncidentID b) && String.eqb (tt_NewPubkey c) (tt_NewPubkey b))
                  then Err (EMismatch "head")
                  else epoch_best events' best
              end
        end
  end.

Definition epochHead : M (option TrustTransition) :=
  do! answer := call env_ReadEpochs OHead in
  do! events := answered "read" answer in
  act_read (λ _, epoch_best events None).

(** *** Publishing what is pending *)

Fixpoint targets_of (observed : list InventoryEvent) (targets : gmap string Z) : option (gmap string Z) :=
  match observed with
  | [] => Some targets
  | item :: observed' =>
      match id_from_hex (iv_ID item) with
      | None => None
      | Some id => targets_of observed' (<[id := kind_of_int (iv_Kind item)]> targets)
      end
  end.

Definition validatePending (s : State) (id : string) (ev : Event) : result RecoveryError unit :=
  check! String.eqb (hex (ev_ID ev)) id && CheckID ev && VerifySignature ev else EInvalid "pending" in
  if ev_Kind ev =? kindCPState then
    check! String.eqb (ev_PubKey ev) (en_OperatorPubkey e) else EInvalid "pending author" in
    let topic := tag ev "t" in
    let d := tag ev "d" in
    if String.eqb topic TopicIncident then
      check! String.eqb d ("identity-incident:" +:+ st_IncidentID s) && validRecord ev (en_OperatorPubkey e) topic d FamilyIncident else EInvalid "pending incident" in
      Ok tt
    else if String.eqb topic TopicReceipt then
      check! has_prefix d ("identity-incident:" +:+ st_IncidentID s +:+ ":phase:") && String.eqb (tag ev "incident") (st_IncidentID s) &&
             validRecord ev (en_OperatorPubkey e) topic d FamilyReceipt else EInvalid "pending receipt" in
      Ok tt
    else if String.eqb topic TopicTrustEpoch then
      check! String.eqb d ("trust-epoch:" +:+ en_ServiceID e) && validRecord ev (en_OperatorPubkey e) topic d FamilyTrustEpoch else EInvalid "pending trust epoch" in
      Ok tt
    else Err (EInvalid "pending topic")
  else
    match targets_of (Observed s) ∅ with
    | None => Err (EInvalid "observed")
    | Some targets => match CheckSigned ev (en_OldPubkey e) targets None with Ok _ => Ok tt | Err x => Err (EGuard x) end
    end.

(** [completeCleanup] *)
Definition completeCleanup (outcomes : gmap string RelayEvidence) (relays : list string) (want : string) : bool :=
  (size outcomes =? length relays)%nat &&
  forallb (λ relay, match outcomes !! normalize relay with
    | None => false
    | Some got => String.eqb (re_Status got) want && (negb (String.eqb want "complete") || re_Complete got)
    end) relays.

(** The head is not at or past a pending epoch, unless it is that epoch. *)
Definition head_allows (head : option TrustTransition) (pending : TrustTransition) : bool :=
  match head with
  | None => true
  | Some h =>
      negb ((tt_Epoch pending <=? tt_Epoch h) &&
        negb ((tt_Epoch h =? tt_Epoch pending) && String.eqb (tt_IncidentID h) (tt_IncidentID pending) &&
              String.eqb (tt_NewPubkey h) (tt_NewPubkey pending) && String.eqb (tt_InventoryDigest h) (tt_InventoryDigest pending)))
  end.

(** What an activation waits for. *)
Definition activation_gate (ev : Event) : M unit :=
  match decode_transition (ev_Content ev) with
  | None => act_fail (EInvalid "pending trust epoch")
  | Some pending =>
      do! _ := cutoverReadiness (tt_Epoch pending) (tt_NewPubkey pending) in
      do! head := epochHead in
      check (head_allows head pending) (EMismatch "trust epoch head advanced")
  end.

Definition set_cleanup (id : string) (outcomes : gmap string RelayEvidence) (s : State) : State :=
  let d := st_deletions s in set_deletions (mkDeletions (st_DeletionIDs d) (<[id := outcomes]> (st_CleanupDeletions d))) s.
Definition pop_pending (s : State) : State :=
  let g := st_signed s in set_signed (mkSigned (st_LastTimestamp g) (st_Records g) (tail (st_Pending g))) s.

(** The body of the loop of [publishPending]. *)
Definition publish_first (id : string) : M unit :=
  do! s := state in
  match Records s !! id with
  | None => act_fail (EInvalid "missing signed pending record")
  | Some ev =>
      do! _ := act_read (λ _, validatePending s id ev) in
      do! _ := (if String.eqb (tag ev "t") TopicTrustEpoch then activation_gate ev else act_ret tt) in
      do! _ := (if ev_Kind ev =? KindDeletion then
          do! outcomes := call (env_PublishDeletion ev) (ODeleted ev) in
          do! _ := update (set_cleanup id outcomes) in
          do! _ := Save in
          check (completeCleanup outcomes (en_CleanupRelays e) "ok") (ERecoveryIncomplete "deletion")
        else
          do! err := call (env_Publish ev) (OPublished ev) in
          unless "publish" err) in
      do! _ := update pop_pending in
      Save
  end.

(** [publishPending]; every round takes one record off the queue. *)
Fixpoint publish_loop (n : nat) : M unit :=
  do! s := state in
  match Pending s with
  | [] => act_ret tt
  | id :: _ =>
      match n with
      | O => act_fail EOutOfFuel
      | S n' => do! _ := publish_first id in publish_loop n'
      end
  end.
Definition publishPending : M unit := do! s := state in publish_loop (length (Pending s)).

(** *** Signing *)

Definition add_record (ev : Event) (s : State) : State :=
  let g := st_signed s in
  set_signed (mkSigned (st_LastTimestamp g) (<[hex (ev_ID ev) := ev]> (st_Records g)) (st_Pending g ++ [hex (ev_ID ev)])) s.

Definition record_tags (topic d schema family : string) (extra : list (list string)) : list (list string) :=
  [["d"; d]; ["t"; topic]; ["domain"; "identity"]; ["schema"; schema]; ["legacy_kind"; family]; ["deleted"; "false"]]%string ++ extra.

Definition record (topic d schema family : string) (extra : list (list string)) (body : Body) : M unit :=
  do! n := nextTimestamp in
  let ev := unsigned_event kindCPState n (record_tags topic d schema family extra) (encode_body body) in
  do! answer := call (env_OperatorSign ev) (OSigned ev) in
  do! ev := answered "operator record signing failed" answer in
  do! _ := check (CheckID ev && VerifySignature ev && String.eqb (ev_PubKey ev) (en_OperatorPubkey e)) (EInvalid "operator signature") in
  do! _ := update (add_record ev) in
  do! _ := Save in
  publishPending.

(** *** Receipts and incidents *)

Definition safeEvidence (ids : list string) : bool :=
  forallb (λ id, negb (contains_sub (to_lower id) "nsec1" || contains_byte (byte_of_Z 10) id || contains_byte (byte_of_Z 13) id)) ids.

Definition relay_digest (relay : string) : string := hex (sha256 (normalize relay)).

Definition digestInput (s : State) (p : Phase) : string :=
  hex (sha256 (st_IncidentID s +:+ String nul (phase_name p +:+ String nul (st_InventoryDigest (st_inventoried s) +:+ String nul (st_NewPubkey (st_cut s)))))).

(** The evidence token of one relay. *)
Definition cleanup_token (prefix relay id : string) (outcome : RelayEvidence) : string :=
  prefix +:+ ":" +:+ re_Status outcome +:+ ":" +:+ relay_digest relay +:+
  (if String.eqb id "" then "" else ":" +:+ id) +:+ (if String.eqb (re_Reason outcome) "" then "" else ":" +:+ re_Reason outcome).

Definition sort_strings (l : list string) : list string := merge_sort bytes_le l.

Definition cleanupEvidence (s : State) (p : Phase) : list string :=
  match p with
  | Inventory => sort_strings ((λ r : string * RelayEvidence, cleanup_token "audit" (fst r) "" (snd r)) <$> map_to_list (st_CleanupInventory (st_inventoried s)))
  | DeleteAndPurge =>
      sort_strings (mjoin ((λ d : string * gmap string RelayEvidence,
        (λ r : string * RelayEvidence, cleanup_token "delete" (fst r) (fst d) (snd r)) <$> map_to_list (snd d)) <$> map_to_list (st_CleanupDeletions (st_deletions s))))
  | _ => []
  end.

Definition receipt_body (s : State) (p : Phase) (status : string) (evidence : list string) (now : Z) : Receipt :=
  let i := st_inventoried s in
  let inventoried := bool_decide (p = Inventory) && String.eqb status "completed" in
  let activated := bool_decide (p = CutActivateTrust) && String.eqb status "completed" in
  mkReceipt (st_IncidentID s) p status (digestInput s p) evidence
    (if inventoried then list_to_map ((λ r : string * RelayEvidence, (relay_digest (fst r), snd r)) <$> map_to_list (st_CleanupInventory i)) else ∅)
    (if inventoried then st_InventorySnapshots i else [])
    (if inventoried then filter (λ r, snd r ≠ "relay"%string) (st_InventorySources i) else ∅)
    (if inventoried then "relay" else "")
    (if activated then st_CutoverWaiverEventIDs (st_cut s) else ∅)
    (if activated then st_CutoverWaiverDetails (st_cut s) else ∅)
    now.

Definition receipt (p : Phase) (status : string) (evidence : list string) : M unit :=
  do! _ := check (safeEvidence evidence) (EInvalid "unsafe recovery evidence") in
  do! s := state in
  do! now := ask env_Clock in
  record TopicReceipt (receipt_d (st_IncidentID s) p) "bahia.identity-recovery-receipt.v1" FamilyReceipt [["incident"%string; st_IncidentID s]]
    (BReceipt (receipt_body s p status evidence now)).

Definition incident (p : Phase) (aborted : bool) : M unit :=
  do! s := state in
  let d := st_declared s in
  record TopicIncident ("identity-incident:" +:+ st_IncidentID s) "bahia.identity-incident.v1" FamilyIncident [["old"%string; dc_OldPubkey d]]
    (BIncident (mkIncident (st_IncidentID s) (dc_OldPubkey d) (dc_DeclaredAt d) (en_ReasonCode e) (en_ControlledRelays e) p aborted)).

(** *** Inventory *)

Definition old_event (ev : Event) : bool := String.eqb (ev_PubKey ev) (en_OldPubkey e) && CheckID ev && VerifySignature ev.
Definition item_of (ev : Event) : InventoryEvent := mkInventoryEvent (hex (ev_ID ev)) (ev_Kind ev) (ev_CreatedAt ev).

(** What was scanned, and from where. *)
Record Scanned := mkScanned {
  sc_scanned : gmap string InventoryEvent;
  sc_sources : gmap string string;
}.

(** The loops stop at the first event that is not the old key's. *)
Fixpoint scan_group (events : list Event) (source : string) (sc : Scanned) : Scanned * bool :=
  match events with
  | [] => (sc, true)
  | ev :: events' =>
      if old_event ev then
        let id := hex (ev_ID ev) in
        scan_group events' source (mkScanned (<[id := item_of ev]> (sc_scanned sc))
          (match sc_scanned sc !! id with Some _ => sc_sources sc | None => <[id := source]> (sc_sources sc) end))
      else (sc, false)
  end.
Fixpoint scan_fetched (events : list Event) (sc : Scanned) : Scanned * bool :=
  match events with
  | [] => (sc, true)
  | ev :: events' =>
      if old_event ev then scan_fetched events' (mkScanned (<[hex (ev_ID ev) := item_of ev]> (sc_scanned sc)) (<[hex (ev_ID ev) := "relay"%string]> (sc_sources sc)))
      else (sc, false)
  end.
Definition scan_admitted (recovered : gmap string Event) (source : string) (sc : Scanned) (id : string) : Scanned :=
  let ev := default (unsigned_event 0 0 [] "") (recovered !! id) in
  mkScanned (<[id := mkInventoryEvent id (ev_Kind ev) (ev_CreatedAt ev)]> (sc_scanned sc)) (<[id := source]> (sc_sources sc)).
Definition scan_receipt (recovered : gmap string Event) (sc : Scanned) (r : SnapshotReceipt) : Scanned :=
  foldl (scan_admitted recovered ("snapshot:" +:+ String.substring 0 12 (sr_ComputedSHA256 r))) sc (sr_AdmittedIDs r).

Definition missing_from (ids : list string) (sc : Scanned) : list string := filter (λ id, sc_scanned sc !! id = None) ids.

Definition item_le (a b : InventoryEvent) : Prop := bytes_le (iv_ID a) (iv_ID b).
#[export] Instance item_le_dec : RelDecision item_le := λ a b, bytes_le_dec (iv_ID a) (iv_ID b).
Definition sort_items (l : list InventoryEvent) : list InventoryEvent := merge_sort item_le l.

(** [InventoryDigest] *)
Definition InventoryDigest (events : list InventoryEvent) : option (string * nat) :=
  if forallb (λ i, validEvidenceID (iv_ID i)) events then
    let ids := sort_strings (remove_dups (iv_ID <$> events)) in
    Some (hex (sha256 (join newline ids)), length ids)
  else None.

Definition set_sources (sources : gmap string string) (s : State) : State :=
  let i := st_inventoried s in
  set_inventoried (mkInventoried (st_Inventory i) (st_Observed i) (st_CleanupInventory i) (st_InventoryDigest i) (st_InventorySnapshots i) sources (st_VerifiedSnapshots i)) s.
Definition set_audit (outcomes : gmap string RelayEvidence) (s : State) : State :=
  let i := st_inventoried s in
  set_inventoried (mkInventoried (st_Inventory i) (st_Observed i) outcomes (st_InventoryDigest i) (st_InventorySnapshots i) (st_InventorySources i) (st_VerifiedSnapshots i)) s.
Definition set_snapshots (receipts : list SnapshotReceipt) (s : State) : State :=
  let i := st_inventoried s in
  set_inventoried (mkInventoried (st_Inventory i) (st_Observed i) (st_CleanupInventory i) (st_InventoryDigest i) receipts (st_InventorySources i) (en_VerifiedSnapshots e)) s.

(** What a scan found; the sources are kept even when it fails. *)
Definition scanned (what : string) (r : Scanned * bool) : M Scanned :=
  do! _ := update (set_sources (sc_sources (fst r))) in
  do! _ := check (snd r) (EInvalid what) in
  act_ret (fst r).

Definition inventory_read (ids : list string) : M Scanned :=
  do! found := ask env_Scan in
  let '(relayEvents, outcomes) := found in
  do! _ := update (set_audit outcomes) in
  do! _ := Save in
  do! _ := check (completeCleanup outcomes (en_CleanupRelays e) "complete") (ERecoveryIncomplete "cleanup relay inventory") in
  do! answer := ask env_LocalEvents in
  do! localEvents := answered "local" answer in
  do! sc := scanned "old-key inventory event" (scan_group relayEvents "relay" (mkScanned ∅ ∅)) in
  do! sc := scanned "old-key inventory event" (scan_group localEvents "local" sc) in
  do! sc := match missing_from ids sc with
    | [] => act_ret sc
    | missing =>
        do! answer := ask (env_FetchCandidates missing) in
        do! fetched := answered "fetch" answer in
        scanned "old-key candidate event" (scan_fetched fetched sc)
    end in
  match en_VerifiedSnapshots e, missing_from ids sc with
  | [], _ | _, [] => act_ret sc
  | _, missing =>
      do! s := state in
      do! answer := ask (env_ReadMissing (dc_DeclaredAt (st_declared s)) missing) in
      do! found := answered "snapshot" answer in
      let '(recovered, receipts) := found in
      do! _ := update (set_snapshots receipts) in
      scanned "snapshot" (foldl (scan_receipt recovered) sc receipts, true)
  end.

Definition set_observed (approved observed : list InventoryEvent) (digest : string) (s : State) : State :=
  let i := st_inventoried s in
  set_inventoried (mkInventoried approved observed (st_CleanupInventory i) digest (st_InventorySnapshots i) (st_InventorySources i) (st_VerifiedSnapshots i)) s.

Definition inventory : M (list string) :=
  do! _ := update (λ s, set_inventoried (mkInventoried [] [] (st_CleanupInventory (st_inventoried s)) "" [] ∅ []) s) in
  do! _ := check (en_Local e) (EInvalid "local event store required") in
  match en_AcceptedEventIDs e with
  | None => act_fail (EInvalid "reviewed accepted event IDs required")
  | Some ids =>
      do! sc := inventory_read ids in
      let observed := sort_items (snd <$> map_to_list (sc_scanned sc)) in
      do! _ := update (set_observed [] observed "") in
      do! _ := check (bool_decide (missing_from ids sc = [])) (ERecoveryIncomplete "reviewed events") in
      let approved := sort_items (omap (λ id, sc_scanned sc !! id) (remove_dups ids)) in
      do! _ := update (set_sources (filter (λ r, fst r ∈ ids) (sc_sources sc))) in
      do! _ := update (set_observed approved observed "") in
      match InventoryDigest approved with
      | None => act_fail (EInvalid "inventory event id")
      | Some (digest, count) =>
          do! _ := update (set_observed approved observed digest) in
          do! _ := Save in
          do! s := state in
          act_ret ([digest; AppendInt "" (Z.of_nat count)] ++ cleanupEvidence s Inventory)
      end
  end.

(** *** The new identity and the cut *)

Definition set_new (pub : string) (s : State) : State :=
  let c := st_cut s in set_cut (mkCut pub (st_Epoch c) (st_ActivationBarrier c) (st_CutoverWaiverEventIDs c) (st_CutoverWaiverDetails c)) s.
Definition set_epoch (epoch barrier : Z) (s : State) : State :=
  let c := st_cut s in set_cut (mkCut (st_NewPubkey c) epoch barrier (st_CutoverWaiverEventIDs c) (st_CutoverWaiverDetails c)) s.

Definition ZeroPK : string := ZeroID.

Definition provision : M (list string) :=
  do! _ := check (en_NewSigner e) (EInvalid "new identity signer required") in
  do! err := ask env_NewSigner in
  do! _ := unless "new identity signer unavailable" err in
  do! answer := ask env_NewKey in
  do! pub := answered "new identity signer pubkey invalid" answer in
  do! _ := check (negb (String.eqb pub ZeroPK || String.eqb pub (en_OldPubkey e) || String.eqb pub (en_OperatorPubkey e))) (EInvalid "new identity signer pubkey") in
  do! s := state in
  do! now := ask env_Clock in
  let probe := unsigned_event kindCPState now [["d"%string; "identity-recovery-probe:" +:+ st_IncidentID s]] "" in
  do! answer := ask (env_NewSign probe) in
  do! probe := answered "new identity signer probe failed" answer in
  do! _ := check (String.eqb (ev_PubKey probe) pub && CheckID probe && VerifySignature probe) (EInvalid "new identity signer probe") in
  do! _ := update (set_new (hex pub)) in
  do! _ := Save in
  act_ret [hex pub].

Definition transition (s : State) (epoch barrier : Z) : TrustTransition :=
  mkTrustTransition (st_IncidentID s) epoch (dc_OldPubkey (st_declared s)) (st_NewPubkey (st_cut s)) (en_ControlledRelays e) barrier
    (st_InventoryDigest (st_inventoried s)) (Z.of_nat (length (st_Inventory (st_inventoried s)))) (en_ConsumerRoster e) true.

(** The head is this incident's activation. *)
Definition own_head (s : State) (head : option TrustTransition) : option TrustTransition :=
  match head with
  | Some h => if String.eqb (tt_IncidentID h) (st_IncidentID s) && tt_Activated h then Some h else None
  | None => None
  end.

Definition cut : M (list string) :=
  do! s := state in
  do! _ := check (negb (String.eqb (st_NewPubkey (st_cut s)) "" || String.eqb (st_InventoryDigest (st_inventoried s)) "")) (EInvalid "provision and inventory required") in
  do! head := epochHead in
  match own_head s head with
  | Some h =>
      do! _ := check (String.eqb (tt_InventoryDigest h) (st_InventoryDigest (st_inventoried s)) && String.eqb (tt_NewPubkey h) (st_NewPubkey (st_cut s)))
                 (EMismatch "activated epoch conflicts with ledger") in
      do! _ := update (set_epoch (tt_Epoch h) (tt_ActivationBarrier h)) in
      do! proof := cutoverReadiness (tt_Epoch h) (tt_NewPubkey h) in
      do! _ := act_try Save in
      act_ret (AppendInt "" (tt_Epoch h) :: cr_EvidenceIDs proof)
  | None =>
      let epoch := match head with Some h => to_i64 (tt_Epoch h + 1) | None => 1 end in
      do! _ := check ((st_Epoch (st_cut s) =? 0) || (st_Epoch (st_cut s) =? epoch)) (EMismatch "epoch changed during interrupted cutover") in
      do! proof := cutoverReadiness epoch (st_NewPubkey (st_cut s)) in
      do! barrier := ask env_Clock in
      do! current := epochHead in
      do! _ := check (match current with Some c => tt_Epoch c <? epoch | None => epoch =? 1 end) (EMismatch "trust epoch head advanced") in
      do! s := state in
      do! _ := record TopicTrustEpoch ("trust-epoch:" +:+ en_ServiceID e) "bahia.trust-epoch.v1" FamilyTrustEpoch [["epoch"%string; AppendInt "" epoch]]
                 (BTrust (transition s epoch barrier)) in
      do! _ := update (set_epoch epoch barrier) in
      do! _ := Save in
      act_ret (AppendInt "" epoch :: cr_EvidenceIDs proof)
  end.

(** *** Domains and secrets *)

Definition requireDomains : M unit :=
  check (forallb (λ name, bool_decide (name ∈ en_Domains e)) (en_RequiredDomains e)) (EAdapter "domain").

Definition discovery : string := "discovery-system".
Definition domainOrder : list string :=
  sort_strings (elements (en_Domains e ∖ {[ discovery ]})) ++ (if bool_decide (discovery ∈ en_Domains e) then [discovery] else []).

(** A step per domain, and the evidence of all. *)
Fixpoint each_domain (step : string → M (list string)) (names : list string) : M (list string) :=
  match names with
  | [] => act_ret []
  | name :: names' => do! ids := step name in do! rest := each_domain step names' in act_ret (ids ++ rest)
  end.

Definition reassert_domain (name : string) : M (list string) :=
  do! err := ask (env_DomainInventory name) in
  do! _ := unless "domain inventory" err in
  do! answer := ask (env_Reassert name) in
  answered "reassert" answer.

Definition reassert : M (list string) :=
  do! _ := requireDomains in
  do! _ := check (negb (bool_decide (en_Domains e = ∅))) (EAdapter "reassert") in
  do! _ := check (en_NewSigner e) (EInvalid "new signer required") in
  do! err := ask env_NewSigner in
  do! _ := unless "new signer" err in
  do! evidence := each_domain reassert_domain domainOrder in
  act_ret (sort_strings evidence).

Definition rotate : M (list string) :=
  do! _ := check (en_Rotation e) (EAdapter "rotate") in
  do! answer := ask env_RotationInventory in
  do! refs := answered "rotation inventory" answer in
  do! answer := ask (env_Rotate refs) in
  do! receipts := answered "rotate" answer in
  let proofs := (λ ref, default ""%string (receipts !! ref)) <$> refs in
  do! _ := check (forallb (λ proof, negb (String.eqb proof "")) proofs) (ERecoveryIncomplete "rotation receipt") in
  act_ret (sort_strings proofs).

(** *** Deletion by the old key *)

Definition notification : string := "notification-channels".

Definition requireNotificationReencryption (deletionEvidence : option (list string)) : M unit :=
  if bool_decide (notification ∈ en_RequiredDomains e) then
    do! _ := check (bool_decide (notification ∈ en_Domains e)) (EAdapter "notification receipts") in
    do! s := state in
    match Receipt_of s ReassertCanonicalState with
    | None => act_fail (ERecoveryIncomplete "notification reassertion receipt")
    | Some reassertion =>
        do! answer := ask (env_DomainVerify notification) in
        do! proof := answered "notification re-encryption verification" answer in
        check (forallb (λ id, bool_decide (id ∈ rc_EvidenceIDs reassertion) &&
            match deletionEvidence with Some ids => bool_decide (id ∈ ids) | None => true end) proof) (ERecoveryIncomplete "notification re-encryption receipt")
    end
  else act_ret tt.

(** [NewQuarantinedOldSigner]: the targets of the only signatures it gives. *)
Fixpoint quarantine_targets (observed : list InventoryEvent) (targets : gmap string Z) : option (gmap string Z) :=
  match observed with
  | [] => Some targets
  | item :: observed' =>
      match id_from_hex (iv_ID item) with
      | Some id => if String.eqb (hex id) (iv_ID item) then quarantine_targets observed' (<[id := kind_of_int (iv_Kind item)]> targets) else None
      | None => None
      end
  end.

Definition NewQuarantinedOldSigner : M (gmap string Z) :=
  do! _ := check (negb (String.eqb (en_OldPubkey e) ZeroPK)) (EInvalid "old signer identity required") in
  do! answer := ask env_OldKey in
  do! pub := answered "old signer" answer in
  do! _ := check (String.eqb pub (en_OldPubkey e)) (EMismatch "old signer") in
  do! s := state in
  match quarantine_targets (Observed s) ∅ with
  | None => act_fail (EInvalid "deletion inventory")
  | Some targets => act_ret targets
  end.

Definition guarded (r : result DeletionError unit) : M unit := match r with Ok _ => act_ret tt | Err x => act_fail (EGuard x) end.

Definition SignDeletion (targets : gmap string Z) (ev : Event) : M Event :=
  do! _ := guarded (Check_deletion ev (en_OldPubkey e) targets None) in
  do! answer := call (env_OldSign ev) (OOldSigned ev) in
  do! ev := answered "old signer refused deletion" answer in
  do! _ := guarded (CheckSigned ev (en_OldPubkey e) targets None) in
  act_ret ev.

Definition sort_kinds (l : list Z) : list Z := merge_sort Z.le (elements (list_to_set l : gset Z)).

Definition deletion_tags (batch : list InventoryEvent) : list (list string) :=
  ((λ item, ["e"%string; iv_ID item]) <$> batch) ++ ((λ k, ["k"%string; AppendInt "" k]) <$> sort_kinds (iv_Kind <$> batch)).

Definition deletion_event (createdAt : Z) (batch : list InventoryEvent) : Event :=
  mkEvent ZeroID (en_OldPubkey e) createdAt KindDeletion (deletion_tags batch) "" (string_of_bytes (replicate 64 0)).

Definition add_deletion (ev : Event) (s : State) : State :=
  let d := st_deletions s in set_deletions (mkDeletions (st_DeletionIDs d ++ [hex (ev_ID ev)]) (st_CleanupDeletions d)) (add_record ev s).

(** The loop over the batches from [start], with [n] rounds left. *)
Fixpoint delete_batches (n : nat) (targets : gmap string Z) (start : nat) : M unit :=
  do! s := state in
  if (start <? length (Observed s))%nat then
    match n with
    | O => act_fail EOutOfFuel
    | S n' =>
        let batch := take MaxBatchSize (drop start (Observed s)) in
        do! createdAt := nextTimestamp in
        do! ev := SignDeletion targets (deletion_event createdAt batch) in
        do! _ := update (add_deletion ev) in
        do! _ := Save in
        delete_batches n' targets (start + MaxBatchSize)
    end
  else act_ret tt.

(** [evidenceToken]: a letter or digit, then up to 127 of those and [:._-]. *)
Definition token_first (c : ascii) : bool :=
  let z := Z_of_byte c in ((48 <=? z) && (z <=? 57)) || ((65 <=? z) && (z <=? 90)) || ((97 <=? z) && (z <=? 122)).
Definition token_byte (c : ascii) : bool := token_first c || contains_byte c ":._-".
Definition evidenceToken (s : string) : bool :=
  match s with
  | EmptyString => false
  | String c s' => token_first c && (String.length s' <=? 127)%nat && forallb token_byte (String.list_ascii_of_string s')
  end.

Definition PurgeChecklistItems : list string := ["archive-artifacts"; "pg-backups"; "wal"; "controlled-re-encryption"]%string.

(** The checklist item a receipt is for. *)
Definition purge_item (receipt : string) : option string :=
  find (λ item, let prefix := "purge:" +:+ item +:+ ":" in
    has_prefix receipt prefix &&
    (let token := String.substring (String.length prefix) (String.length receipt - String.length prefix) receipt in
     evidenceToken token && negb (contains_sub (to_lower token) "nsec1"))) PurgeChecklistItems.

Fixpoint purge_items (receipts seen : list string) : bool :=
  match receipts with
  | [] => (length seen =? length PurgeChecklistItems)%nat
  | receipt :: receipts' =>
      match purge_item receipt with
      | Some item => negb (bool_decide (item ∈ seen)) && purge_items receipts' (item :: seen)
      | None => false
      end
  end.
Definition validatePurgeEvidence (receipts : list string) : bool :=
  (length receipts =? length PurgeChecklistItems)%nat && purge_items receipts [].

Definition deletionOKEvidence (relay id : string) : string := "delete:ok:" +:+ relay_digest relay +:+ ":" +:+ id.

Definition hasPurgeEvidence (r : Receipt) (deletionIDs relays : list string) : bool :=
  validatePurgeEvidence (filter (λ id, has_prefix id "purge:" = true) (rc_EvidenceIDs r)) && bool_decide ("deletion-complete"%string ∈ rc_EvidenceIDs r) &&
  forallb (λ id, bool_decide (id ∈ rc_EvidenceIDs r) && forallb (λ relay, bool_decide (deletionOKEvidence relay id ∈ rc_EvidenceIDs r)) relays) deletionIDs.

Definition deleteAndPurge : M (list string) :=
  do! _ := requireNotificationReencryption None in
  do! _ := check (en_Purge e) (EAdapter "purge") in
  do! _ := check (en_OldSigner e) (EInvalid "quarantined old signer required") in
  do! err := ask env_OldSigner in
  do! _ := unless "old signer unavailable" err in
  do! targets := NewQuarantinedOldSigner in
  do! s := state in
  do! _ := delete_batches (length (Observed s)) targets (length (st_DeletionIDs (st_deletions s)) * MaxBatchSize) in
  do! _ := publishPending in
  do! s := state in
  let ids := (λ item, default ZeroID (id_from_hex (iv_ID item))) <$> Observed s in
  do! answer := ask (env_Purge ids) in
  do! receipts := answered "purge" answer in
  do! _ := check (validatePurgeEvidence receipts) (ERecoveryIncomplete "purge receipts") in
  let evidence := "deletion-complete"%string :: st_DeletionIDs (st_deletions s) in
  do! proof := (if bool_decide (notification ∈ en_RequiredDomains e) then
      do! answer := ask (env_DomainVerify notification) in answered "verify" answer
    else act_ret []) in
  act_ret (evidence ++ proof ++ cleanupEvidence s DeleteAndPurge ++ receipts).

(** *** Verification and retirement *)

Definition verify_domain (name : string) : M (list string) := do! answer := ask (env_DomainVerify name) in answered "domain" answer.

Definition verify : M (list string) :=
  do! _ := requireDomains in
  do! s := state in
  do! _ := check (forallb (λ p, match Receipt_of s p with Some _ => true | None => false end) (take 8 Phases)) (ERecoveryIncomplete "receipt") in
  do! head := epochHead in
  do! _ := check (match head with Some h => tt_Activated h && String.eqb (tt_IncidentID h) (st_IncidentID s) && (tt_Epoch h =? st_Epoch (st_cut s)) | None => false end)
             (ERecoveryIncomplete "trust epoch") in
  do! _ := check (en_Acks e) (ERecoveryIncomplete "consumer acknowledgments") in
  do! answer := ask (env_MissingAcks (st_Epoch (st_cut s)) (en_ConsumerRoster e)) in
  do! missing := answered "acknowledgments" answer in
  do! _ := check (bool_decide (missing = [])) (ERecoveryIncomplete "consumer acknowledgments") in
  do! evidence := each_domain verify_domain domainOrder in
  act_ret (AppendInt "" (st_Epoch (st_cut s)) :: sort_strings evidence).

Definition retire : M (list string) :=
  do! s := state in
  match Receipt_of s DeleteAndPurge with
  | Some deletion =>
      do! _ := check (hasPurgeEvidence deletion (st_DeletionIDs (st_deletions s)) (en_CleanupRelays e)) (ERecoveryIncomplete "retirement") in
      do! _ := requireNotificationReencryption (Some (rc_EvidenceIDs deletion)) in
      do! _ := check (match Receipt_of s ReassertCanonicalState with Some _ => true | None => false end) (ERecoveryIncomplete "canonical reassertion") in
      act_ret [st_IncidentID s]
  | None => act_fail (ERecoveryIncomplete "retirement")
  end.

(** *** The phases *)

Definition execute (p : Phase) : M (list string) :=
  match p with
  | PhaseDeclare => do! s := state in act_ret [st_IncidentID s]
  | Contain => do! _ := check (en_Containment e) (EAdapter "contain") in do! answer := ask env_Contain in answered "contain" answer
  | Inventory => inventory
  | ProvisionNewIdentity => provision
  | CutActivateTrust => cut
  | ReassertCanonicalState => reassert
  | RotateExternalSecrets => rotate
  | DeleteAndPurge => deleteAndPurge
  | Verify => verify
  | RetireOldIdentity => retire
  | PhaseOther _ => act_fail (EInvalid "unknown recovery phase")
  end.

Definition validate : M unit :=
  do! err := ask env_Validate in
  do! _ := unless "validate" err in
  do! answer := ask env_OperatorKey in
  do! pub := answered "operator signer unavailable" answer in
  check (String.eqb pub (en_OperatorPubkey e)) (EMismatch "operator signer").

(** [Status]: the ledger, loaded into memory. *)
Definition Status : M unit :=
  do! _ := Load in
  do! s := state in
  let d := st_declared s in
  do! _ := check (String.eqb (dc_IncidentID d) "" || (String.eqb (dc_OldPubkey d) (hex (en_OldPubkey e)) && String.eqb (dc_OperatorPubkey d) (hex (en_OperatorPubkey e))))
             (EMismatch "ledger incident identity") in
  match Next s with
  | None => check (String.eqb (dc_IncidentID d) "" || st_Aborted s || ValidateReceipts s (en_OperatorPubkey e)) (ERecoveryIncomplete "receipts")
  | Some _ => act_ret tt
  end.

(** The incident is declared in the ledger before anything is signed. *)
Definition declare : M unit :=
  do! s := state in
  if String.eqb (st_IncidentID s) "" then
    do! answer := ask env_NewIncidentID in
    do! id := answered "incident id" answer in
    do! now := ask env_Clock in
    do! _ := update (set_declared (mkDeclared id now (hex (en_OldPubkey e)) (hex (en_OperatorPubkey e)))) in
    Save
  else act_ret tt.

(** What [Apply] does for the next phase. *)
Definition run_phase (p : Phase) : M unit :=
  do! _ := declare in
  do! _ := receipt p "started" [] in
  do! outcome := act_try (execute p) in
  match outcome with
  | Err err =>
      do! s := state in
      do! _ := act_try (receipt p "failed" (cleanupEvidence s p)) in
      act_fail err
  | Ok evidence =>
      do! _ := incident p false in
      receipt p "completed" evidence
  end.

Definition Apply (confirmed : Phase) : M unit :=
  do! _ := validate in
  do! _ := Status in
  do! s := state in
  let completionSigned := signedCompletion s confirmed in
  do! _ := publishPending in
  if completionSigned then act_ret tt
  else
    do! s := state in
    match Next s with
    | None => act_fail (ERecoveryIncomplete "no phase left")
    | Some p => if bool_decide (confirmed = p) then run_phase p else act_fail (EPhase p)
    end.

Definition Abort : M unit :=
  do! _ := validate in
  do! _ := Status in
  do! s := state in
  if String.eqb (st_IncidentID s) "" then act_fail (EInvalid "no incident to abort")
  else if st_Aborted s then act_ret tt
  else if CutComplete s then act_fail EForwardOnly
  else if existsb (λ r : string * Event, String.eqb (tag (snd r) "t") TopicTrustEpoch) (map_to_list (Records s)) then act_fail EForwardOnly
  else
    do! head := epochHead in
    do! _ := check (match own_head s head with Some _ => false | None => true end) EForwardOnly in
    do! _ := incident (default (PhaseOther "") (Next s)) true in
    do! _ := update (set_aborted true) in
    Save.

End engine.
