(* ===== verification/RecoveryInv.v ===== *)
(** * Facts about identity recovery

    The history of a ledger as a list: what was signed, in order, of which a
    prefix was published and the rest is pending; what each record says; and how
    [Receipt_of] and [Next] read it. *)

From Stdlib Require Import ZArith Lia Bool Ascii.
From stdpp Require Import base tactics decidable option list numbers strings gmap fin_maps sorting.
From S2P Require Import Prelude Action Bytes Nostr EventID EventIDFacts OutboxData TrustEpoch Saga Inbound DeletionGuard Recovery.

(** ** Phases in order *)

(** What a record of the ledger is. *)
Inductive entry :=
| EReceipt (p : Phase) (done : bool)
| ETrust
| EOther.

Definition completed (es : list entry) : list Phase := omap (λ e, match e with EReceipt p true => Some p | _ => None end) es.

(** Receipts are for the phase after the completed ones. *)
Inductive phased : list entry → Prop :=
| phased_nil : phased []
| phased_receipt es p c : phased es → Phases !! length (completed es) = Some p → phased (es ++ [EReceipt p c])
| phased_trust es : phased es → phased (es ++ [ETrust])
| phased_other es : phased es → phased (es ++ [EOther]).

Lemma completed_app a b : completed (a ++ b) = completed a ++ completed b.
Proof. apply omap_app. Qed.

Lemma phased_completed es : phased es → completed es = take (length (completed es)) Phases.
Proof.
  induction 1 as [|es p [] _ IH Hp|es _ IH|es _ IH]; [done|..]; rewrite completed_app; simpl; rewrite ?app_nil_r; try done.
  rewrite length_app, Nat.add_1_r. erewrite take_S_r by done. by rewrite <- IH.
Qed.

Lemma NoDup_Phases : NoDup Phases.
Proof. by apply (bool_decide_unpack _). Qed.

Lemma phased_prefix a b : phased (a ++ b) → phased a.
Proof.
  induction b as [|x b IH] using rev_ind; [by rewrite app_nil_r|]. rewrite app_assoc. intros Hp.
  inversion Hp as [E|es p c Hes _ E|es Hes E|es Hes E]; [by destruct (a ++ b)|..]; apply app_inj_tail in E as [-> _]; auto.
Qed.

(** After a phase is completed no receipt of it follows. *)
Lemma phased_final a b p c : phased (a ++ EReceipt p c :: b) → p ∉ completed a.
Proof.
  intros Hp. replace (a ++ EReceipt p c :: b) with ((a ++ [EReceipt p c]) ++ b) in Hp by by rewrite <- app_assoc.
  apply phased_prefix in Hp. inversion Hp as [E|es q d Hes Hq E|es Hes E|es Hes E]; [by destruct a|..];
    apply app_inj_tail in E as [-> Heq]; try discriminate Heq. injection Heq as -> ->.
  rewrite (phased_completed _ Hes). intros Hin. apply elem_of_take in Hin as (i & Hi & Hlt).
  pose proof (NoDup_lookup _ _ _ _ NoDup_Phases Hi Hq). lia.
Qed.

(** ** Reading the records *)

Lemma newer_created a b : newer a b = true → ev_CreatedAt b ≤ ev_CreatedAt a.
Proof. unfold newer. destruct (Z.eqb_spec (ev_CreatedAt a) (ev_CreatedAt b)); [lia|]. intros ?%Z.ltb_lt. lia. Qed.
Lemma not_newer_created a b : newer a b = false → ev_CreatedAt a ≤ ev_CreatedAt b.
Proof. unfold newer. destruct (Z.eqb_spec (ev_CreatedAt a) (ev_CreatedAt b)); [lia|]. intros ?%Z.ltb_ge. lia. Qed.

Lemma latest_spec l : match latest l with
  | None => l = []
  | Some ev => ev ∈ l ∧ ∀ ev', ev' ∈ l → ev_CreatedAt ev' ≤ ev_CreatedAt ev
  end.
Proof.
  induction l as [|ev l IH]; simpl; [done|]. destruct (latest l) as [b|] eqn:E.
  - destruct IH as [Hb Hmax]. destruct (newer b ev) eqn:En.
    + apply newer_created in En. split; [by right|]. intros ev' [->|Hin]%elem_of_cons; [done|auto].
    + apply not_newer_created in En. split; [by left|]. intros ev' [->|Hin]%elem_of_cons; [lia|]. specialize (Hmax _ Hin). lia.
  - subst. split; [by left|]. by intros ev' ->%list_elem_of_singleton.
Qed.

Lemma app_string_inj_l a b c : a +:+ b = a +:+ c → b = c.
Proof. induction a as [|x a IH]; simpl; [done|]. intros [= E]. auto. Qed.

Lemma receipt_d_inj id p q : p ∈ Phases → q ∈ Phases → receipt_d id p = receipt_d id q → p = q.
Proof.
  intros Hp Hq E. unfold receipt_d in E. do 3 apply app_string_inj_l in E.
  assert (Hall : Forall (λ p, Forall (λ q, phase_name p = phase_name q → p = q) Phases) Phases)
    by (repeat (constructor; [repeat (constructor; [intros Heq; by try discriminate Heq|]); constructor|]); constructor).
  rewrite Forall_forall in Hall. specialize (Hall p Hp). rewrite Forall_forall in Hall. by apply Hall.
Qed.

Section history.
Context `{NostrLaws} `{RecoveryJSON} (e : Engine).
Context (Hop : PubKeyFromHex (hex (en_OperatorPubkey e)) = Some (en_OperatorPubkey e)).

Definition id_hex (ev : Event) : string := hex (ev_ID ev).
Definition keyed (l : list Event) : list (string * Event) := (λ ev, (id_hex ev, ev)) <$> l.

(** A record whose content reads as no completion. *)
Definition no_completion (ev : Event) : Prop := ∀ r, decode_receipt (ev_Content ev) = Some r → rc_Status r ≠ "completed".

(** A record and what it is. *)
Definition describes (s : State) (ev : Event) (x : entry) : Prop :=
  match x with
  | EReceipt p c => p ∈ Phases ∧ is_receipt s (en_OperatorPubkey e) p ev = true ∧
      ∃ r, decode_receipt (ev_Content ev) = Some r ∧ rc_IncidentID r = st_IncidentID s ∧ rc_Phase r = p ∧ String.eqb (rc_Status r) "completed" = c
  | ETrust => tag ev "t" = TopicTrustEpoch ∧ no_completion ev
  | EOther => tag ev "t" ≠ TopicTrustEpoch ∧ tag ev "t" ≠ TopicReceipt ∧ no_completion ev
  end.

Definition signed_event (ev : Event) : Prop := wf_event ev ∧ CheckID ev = true ∧ VerifySignature ev = true.
Definition before (a b : Event) : Prop := ev_CreatedAt a < ev_CreatedAt b.

(** What was published and what is pending, in the order it was signed. *)
Record history (k : nat) (s : State) (pub queue : list Event) (es : list entry) : Prop := {
  hi_records : Records s = list_to_map (keyed (pub ++ queue));
  hi_pending : Pending s = id_hex <$> queue;
  hi_sorted : StronglySorted before (pub ++ queue);
  hi_time : Forall (λ ev, ev_CreatedAt ev ≤ st_LastTimestamp (st_signed s)) (pub ++ queue);
  hi_signed : Forall signed_event (pub ++ queue);
  hi_described : Forall2 (describes s) (pub ++ queue) es;
  hi_phased : phased es;
  hi_completed : length (completed es) = k;
  hi_declared : pub ++ queue ≠ [] → st_IncidentID s ≠ "" ∧ dc_OperatorPubkey (st_declared s) = hex (en_OperatorPubkey e);
}.

Lemma is_receipt_d s a p ev : is_receipt s a p ev = true → tag ev "t" = TopicReceipt ∧ tag ev "d" = receipt_d (st_IncidentID s) p.
Proof. unfold is_receipt, validRecord. intros Hr. bool_facts. split; by apply String.eqb_eq. Qed.

(** A receipt of a phase is described as one. *)
Lemma describes_receipt s ev x p : describes s ev x → p ∈ Phases → is_receipt s (en_OperatorPubkey e) p ev = true → ∃ c, x = EReceipt p c.
Proof.
  intros Hx Hp [Ht Hd]%is_receipt_d. destruct x as [q c| |]; simpl in Hx; [|destruct Hx as [Hx _]; rewrite Ht in Hx; discriminate Hx|by destruct Hx as (_ & Hx & _)].
  destruct Hx as (Hq & [_ Hd']%is_receipt_d & _). rewrite Hd in Hd'. apply receipt_d_inj in Hd'; [|done..]. subst. by exists c.
Qed.

(** Distinct times, distinct ids. *)
Lemma keyed_NoDup l : StronglySorted before l → Forall signed_event l → NoDup (keyed l).*1.
Proof.
  unfold keyed. rewrite <- list_fmap_compose. change (fst ∘ _) with id_hex.
  induction 1 as [|ev l Hl IH Hev]; intros Hs; [constructor|]. apply Forall_cons in Hs as [(Hw & Hc & _) Hs]. simpl. constructor; [|by apply IH].
  intros (ev' & Hid & Hin)%list_elem_of_fmap. rewrite Forall_forall in Hev, Hs. destruct (Hs _ Hin) as (Hw' & Hc' & _).
  apply (inj hex) in Hid. destruct (CheckID_same _ _ Hw Hw' Hc Hc' Hid) as (_ & Ht & _). specialize (Hev _ Hin). unfold before in Hev. lia.
Qed.

Lemma keyed_elem l id ev : (id, ev) ∈ keyed l ↔ id = id_hex ev ∧ ev ∈ l.
Proof.
  unfold keyed. rewrite list_elem_of_fmap. split; [intros (ev' & [= -> ->] & Hin); done|]. intros [-> Hin]. by exists ev.
Qed.

Lemma keyed_snoc l ev : keyed (l ++ [ev]) = keyed l ++ [(id_hex ev, ev)].
Proof. unfold keyed. by rewrite fmap_app. Qed.

Section of_history.
Context {k : nat} {s : State} {pub queue : list Event} {es : list entry} (Hh : history k s pub queue es).

Lemma hi_nodup : NoDup (keyed (pub ++ queue)).*1.
Proof. apply keyed_NoDup; apply Hh. Qed.

Lemma records_lookup id ev : Records s !! id = Some ev ↔ id = id_hex ev ∧ ev ∈ pub ++ queue.
Proof. rewrite (hi_records _ _ _ _ _ Hh), <- keyed_elem. symmetry. apply elem_of_list_to_map, hi_nodup. Qed.

Lemma pending_iff ev : ev ∈ pub ++ queue → id_hex ev ∈ Pending s ↔ ev ∈ queue.
Proof.
  intros Hin. rewrite (hi_pending _ _ _ _ _ Hh), list_elem_of_fmap. split; [|by exists ev].
  intros (ev' & Hid & Hin'). assert (Hev' : ev' ∈ pub ++ queue) by (apply elem_of_app; by right).
  assert (E : Some ev = Some ev') by (rewrite <- (proj2 (records_lookup (id_hex ev) ev)), (proj2 (records_lookup (id_hex ev) ev')); done). by injection E as ->.
Qed.

Lemma pub_queue_disjoint ev : ev ∈ pub → ev ∉ queue.
Proof.
  intros Hp Hq. pose proof (hi_sorted _ _ _ _ _ Hh) as Hs. apply StronglySorted_app in Hs as (Hs & _ & _).
  specialize (Hs _ _ Hp Hq). unfold before in Hs. lia.
Qed.

Definition candidates (p : Phase) : list Event :=
  snd <$> filter (λ r, bool_decide (fst r ∉ Pending s) && is_receipt s (en_OperatorPubkey e) p (snd r) = true) (map_to_list (Records s)).

Lemma candidates_elem p ev : ev ∈ candidates p ↔ ev ∈ pub ∧ is_receipt s (en_OperatorPubkey e) p ev = true.
Proof.
  unfold candidates. rewrite list_elem_of_fmap. split.
  - intros ([id ev'] & -> & Hin). apply list_elem_of_filter in Hin as [Hc Hin]. simpl in *. bool_facts.
    apply elem_of_map_to_list, records_lookup in Hin as [-> Hin]. rewrite (pending_iff _ Hin) in *. by apply elem_of_app in Hin as [|].
  - intros [Hin Hr]. exists (id_hex ev, ev). split; [done|].
    assert (Hin' : ev ∈ pub ++ queue) by (apply elem_of_app; by left). apply list_elem_of_filter. simpl. rewrite Hr. split.
    + rewrite bool_decide_true; [done|]. rewrite (pending_iff _ Hin'). by apply pub_queue_disjoint.
    + by apply elem_of_map_to_list, records_lookup.
Qed.

(** The author, where there is a record. *)
Lemma Receipt_of_candidates p : pub ++ queue ≠ [] → Receipt_of s p =
  match latest (candidates p) with
  | None => None
  | Some ev =>
      match decode_receipt (ev_Content ev) with
      | Some r => if String.eqb (rc_IncidentID r) (st_IncidentID s) && bool_decide (rc_Phase r = p) && String.eqb (rc_Status r) "completed" then Some r else None
      | None => None
      end
  end.
Proof. intros Hne. unfold Receipt_of. destruct (hi_declared _ _ _ _ _ Hh Hne) as [_ ->]. by rewrite Hop. Qed.

(** The entry of a published record. *)
Lemma pub_entry i ev : pub !! i = Some ev → ∃ x, take (length pub) es !! i = Some x ∧ describes s ev x.
Proof.
  intros Hi. assert (Hi' : (pub ++ queue) !! i = Some ev) by by apply lookup_app_l_Some.
  destruct (Forall2_lookup_l _ _ _ _ _ (hi_described _ _ _ _ _ Hh) Hi') as (x & Hx & Hd). exists x. split; [|done].
  rewrite lookup_take_lt; [done|]. by apply lookup_lt_Some in Hi.
Qed.

Lemma hi_length : length es = length (pub ++ queue).
Proof. symmetry. apply (Forall2_length _ _ _ (hi_described _ _ _ _ _ Hh)). Qed.

Lemma completed_elem (l : list entry) p : p ∈ completed l ↔ EReceipt p true ∈ l.
Proof.
  unfold completed. rewrite list_elem_of_omap. split; [intros (x & Hx & Hp)|intros Hx; by exists (EReceipt p true)].
  destruct x as [q []| |]; try done. by injection Hp as ->.
Qed.

Lemma sorted_lookup (l : list Event) i j a b : StronglySorted before l → l !! i = Some a → l !! j = Some b → ev_CreatedAt a ≤ ev_CreatedAt b → (i ≤ j)%nat.
Proof.
  intros Hs. revert i j. induction Hs as [|x l Hs IH Hx]; intros i j Hi Hj Ht; [done|].
  destruct i as [|i]; [lia|]. destruct j as [|j]; simpl in *; [|apply le_n_S; eauto].
  injection Hj as ->. rewrite Forall_forall in Hx. apply list_elem_of_lookup_2 in Hi. specialize (Hx _ Hi). unfold before in Hx. lia.
Qed.

(** A phase is on record as completed exactly when its completion was published. *)
Lemma Receipt_of_completed p : p ∈ Phases → is_Some (Receipt_of s p) ↔ p ∈ completed (take (length pub) es).
Proof.
  intros Hp. destruct (decide (pub ++ queue = [])) as [E|Hne].
  { pose proof hi_length as Hl. rewrite E in Hl. destruct es; [|done]. apply app_eq_nil in E as [-> ->]. split; [|by intros ?%elem_of_nil].
    unfold Receipt_of. rewrite (hi_records _ _ _ _ _ Hh). simpl. rewrite map_to_list_empty. case_match; by intros []. }
  rewrite (Receipt_of_candidates p Hne). pose proof (latest_spec (candidates p)) as Hl. rewrite completed_elem. split.
  - destruct (latest (candidates p)) as [ev|]; [|by intros []]. destruct Hl as [[Hin Hr]%candidates_elem _].
    apply list_elem_of_lookup in Hin as [i Hi]. destruct (pub_entry i ev Hi) as (x & Hx & Hd).
    destruct (describes_receipt _ _ _ _ Hd Hp Hr) as [c ->]. destruct Hd as (_ & _ & r & -> & _ & _ & Hc).
    intros [r' Hr']. assert (c = true) as -> by (repeat case_match; bool_facts; congruence). by eapply list_elem_of_lookup_2.
  - intros [i Hi]%list_elem_of_lookup. pose proof (lookup_lt_Some _ _ _ Hi) as Hlt. rewrite length_take in Hlt.
    rewrite lookup_take_lt in Hi by lia.
    destruct (lookup_lt_is_Some_2 pub i ltac:(lia)) as [ev Hev]. destruct (pub_entry i ev Hev) as (x & Hx & Hd).
    rewrite lookup_take_lt, Hi in Hx by lia. injection Hx as <-. destruct Hd as (_ & Hr & r & Hdec & Hid & Hph & Hst).
    assert (Hc : ev ∈ candidates p) by (apply candidates_elem; split; [by eapply list_elem_of_lookup_2|done]).
    destruct (latest (candidates p)) as [ev'|]; [|rewrite Hl in Hc; by apply elem_of_nil in Hc]. destruct Hl as [[Hin' Hr']%candidates_elem Hmax].
    specialize (Hmax _ Hc). apply list_elem_of_lookup in Hin' as [j Hj]. destruct (pub_entry j ev' Hj) as (x & Hx & Hd').
    pose proof (hi_sorted _ _ _ _ _ Hh) as Hsort. apply StronglySorted_app in Hsort as (_ & Hsort & _).
    pose proof (sorted_lookup _ _ _ _ _ Hsort Hev Hj Hmax) as Hij. destruct (describes_receipt _ _ _ _ Hd' Hp Hr') as [c ->].
    rewrite lookup_take_lt in Hx by (by apply lookup_lt_Some in Hj).
    destruct (decide (i = j)) as [<-|Hne']; [|exfalso].
    + rewrite Hev in Hj. injection Hj as <-. rewrite Hdec, Hid, String.eqb_refl, bool_decide_true by done. by rewrite Hst.
    + pose proof (hi_phased _ _ _ _ _ Hh) as Hpd. rewrite <- (take_drop_middle _ _ _ Hx) in Hpd. apply (phased_final _ _ _ _ Hpd).
      apply completed_elem, list_elem_of_lookup. exists i. rewrite lookup_take_lt by lia. done.
Qed.
End of_history.

Lemma find_app {A} (f : A → bool) l l' : forallb (negb ∘ f) l = true → find f (l ++ l') = find f l'.
Proof. induction l as [|x l IH]; simpl; [done|]. intros [Hx Hl]%andb_true_iff. destruct (f x); [done|auto]. Qed.

(** With nothing pending the next phase is the one after the completed ones. *)
Lemma Next_history k s pub es : history k s pub [] es → st_Aborted s = false → Next s = Phases !! k.
Proof.
  intros Hh Ha. pose proof (hi_length Hh) as Hlen. rewrite app_nil_r in Hlen.
  pose proof (phased_completed _ (hi_phased _ _ _ _ _ Hh)) as Hc. rewrite (hi_completed _ _ _ _ _ Hh) in Hc.
  assert (Hrec : ∀ p, p ∈ Phases → is_Some (Receipt_of s p) ↔ p ∈ take k Phases).
  { intros p Hp. rewrite (Receipt_of_completed Hh p Hp), <- Hlen, firstn_all, Hc. done. }
  unfold Next. rewrite Ha. unfold first_open. rewrite <- (take_drop k Phases) at 1. rewrite find_app.
  - destruct (Phases !! k) as [p|] eqn:Ek.
    + rewrite (drop_S _ _ _ Ek). simpl. destruct (Receipt_of s p) as [r|] eqn:Er; [|done]. exfalso.
      assert (Hin : p ∈ take k Phases) by (apply Hrec; [by eapply list_elem_of_lookup_2|by eexists]).
      apply elem_of_take in Hin as (i & Hi & Hlt). pose proof (NoDup_lookup _ _ _ _ NoDup_Phases Hi Ek). lia.
    + by rewrite drop_ge by (by apply lookup_ge_None).
  - apply forallb_forall. intros p Hp%list_elem_of_In. simpl. apply negb_true_iff.
    assert (Hp' : p ∈ Phases) by (apply elem_of_take in Hp as (i & Hi & _); by eapply list_elem_of_lookup_2).
    apply Hrec in Hp as [r ->]; done.
Qed.
End history.

(** * The invariant of identity recovery

    What holds of every state the engine keeps, in memory or in its ledger, and
    of the calls it made; and that each change of a state keeps it. *)

Section invariant.
Context `{NostrLaws} `{RecoveryJSON} (normalize : string → string) (e : Engine).
Context (Hop : PubKeyFromHex (hex (en_OperatorPubkey e)) = Some (en_OperatorPubkey e)).

(** An activation is among the records. *)
Definition trust_in (s : State) : Prop := ∃ id ev, Records s !! id = Some ev ∧ tag ev "t" = TopicTrustEpoch.

Definition DeletionIDs (s : State) : list string := st_DeletionIDs (st_deletions s).
(** Every cleanup relay accepted this deletion. *)
Definition cleaned (s : State) (id : string) : Prop :=
  ∃ outcomes, st_CleanupDeletions (st_deletions s) !! id = Some outcomes ∧ completeCleanup normalize outcomes (en_CleanupRelays e) "ok" = true.

(** A request of the old key that names these events. *)
Definition deletes (ev : Event) (items : list InventoryEvent) : Prop :=
  ev_Kind ev = KindDeletion ∧ ev_PubKey ev = en_OldPubkey e ∧ ∀ item, item ∈ items → ["e"%string; iv_ID item] ∈ ev_Tags ev.

Definition batch (i : nat) (observed : list InventoryEvent) : list InventoryEvent := take MaxBatchSize (drop (i * MaxBatchSize) observed).

(** The [i]-th request is for the [i]-th batch, and was accepted once published. *)
Definition deletions_ok (s : State) : Prop :=
  ∀ i id, DeletionIDs s !! i = Some id → ∃ ev, Records s !! id = Some ev ∧ deletes ev (batch i (Observed s)) ∧ (id ∉ Pending s → cleaned s id).

(** Every event found is named by a request that every cleanup relay accepted. *)
Definition covered (s : State) : Prop :=
  ∀ item, item ∈ Observed s → ∃ id ev, Records s !! id = Some ev ∧ deletes ev [item] ∧ id ∉ Pending s ∧ cleaned s id.

(** A state with [k] completed phases. *)
Record ok (k : nat) (s : State) : Prop := {
  ok_text : ascii_text (st_IncidentID s) = true;
  ok_history : ∃ pub queue es, history e k s pub queue es;
  ok_aborted : st_Aborted s = true → ¬ trust_in s;
  ok_deletions : deletions_ok s;
  ok_early : (k ≤ 6)%nat → DeletionIDs s = [];
  ok_kinds : ∀ id ev, Records s !! id = Some ev → ev_Kind ev = KindDeletion → id ∈ DeletionIDs s;
  ok_covered : (8 ≤ k)%nat → covered s;
}.

Lemma lookup_nil_absurd {A} (i : nat) (x : A) : ([] : list A) !! i = Some x → False.
Proof. by rewrite lookup_nil. Qed.

(** *** States that say the same *)

Lemma describes_frame s s' ev x : st_declared s' = st_declared s → describes e s ev x → describes e s' ev x.
Proof. intros Hd. unfold describes, is_receipt, st_IncidentID. by rewrite Hd. Qed.

Lemma history_frame k s s' pub queue es : st_declared s' = st_declared s → st_signed s' = st_signed s →
  history e k s pub queue es → history e k s' pub queue es.
Proof.
  intros Hd Hs [A1 A2 A3 A4 A5 A6 A7 A8 A9]. unfold Records, Pending, st_IncidentID in *.
  split; unfold Records, Pending, st_IncidentID; rewrite ?Hs, ?Hd; try done.
  eapply Forall2_impl; [done|]. intros ev x. by apply describes_frame.
Qed.

Lemma ok_frame k s s' : st_declared s' = st_declared s → st_signed s' = st_signed s → st_Aborted s' = st_Aborted s →
  st_deletions s' = st_deletions s → Observed s' = Observed s ∨ (k ≤ 2)%nat → ok k s → ok k s'.
Proof.
  intros Hd Hs Ha Hdel Ho [Htx (pub & queue & es & Hh) Hab Hdels He Hk5 Hc].
  assert (Hrec : Records s' = Records s) by (unfold Records; by rewrite Hs).
  assert (Hpen : Pending s' = Pending s) by (unfold Pending; by rewrite Hs).
  assert (Hids : DeletionIDs s' = DeletionIDs s) by (unfold DeletionIDs; by rewrite Hdel).
  split.
  - unfold st_IncidentID. by rewrite Hd.
  - exists pub, queue, es. by eapply history_frame.
  - unfold trust_in. by rewrite Ha, Hrec.
  - unfold deletions_ok, cleaned. rewrite Hids, Hrec, Hpen, Hdel. destruct Ho as [->|Hk]; [done|]. rewrite He by lia. by intros i id ?%lookup_nil_absurd.
  - by rewrite Hids.
  - by rewrite Hids, Hrec.
  - intros Hk. destruct Ho as [Ho|]; [|lia]. unfold covered, cleaned. rewrite Ho, Hrec, Hpen, Hdel. by apply Hc.
Qed.

(** *** The clock *)

Definition at_time (n : Z) (s : State) : State := let g := st_signed s in set_signed (mkSigned n (st_Records g) (st_Pending g)) s.

Lemma ok_time k s n : st_LastTimestamp (st_signed s) ≤ n → ok k s → ok k (at_time n s).
Proof.
  intros Hn [Htx (pub & queue & es & [A1 A2 A3 A4 A5 A6 A7 A8 A9]) Hab Hdels He Hk5 Hc]. split; try done.
  exists pub, queue, es. split; try done. eapply Forall_impl; [exact A4|]. simpl. intros ev Hev. lia.
Qed.

(** Every record is older than this time. *)
Definition older (n : Z) (s : State) : Prop := ∀ id ev, Records s !! id = Some ev → ev_CreatedAt ev < n.

Lemma ok_older k s n : st_LastTimestamp (st_signed s) < n → ok k s → older n (at_time n s).
Proof.
  intros Hn [_ (pub & queue & es & Hh) _ _ _ _ _] id ev Hev. change (Records (at_time n s)) with (Records s) in Hev.
  apply (records_lookup e Hh) in Hev as [_ Hin]. pose proof (hi_time _ _ _ _ _ _ Hh) as Ht. rewrite Forall_forall in Ht. specialize (Ht _ Hin). simpl in Ht. lia.
Qed.

(** *** The queue *)

Lemma ok_pop k s id ev : ok k s → head (Pending s) = Some id → Records s !! id = Some ev → (ev_Kind ev = KindDeletion → cleaned s id) → ok k (pop_pending s).
Proof.
  intros [Htx (pub & queue & es & Hh) Hab Hdels He Hk5 Hc] Hp Hev Hcl.
  pose proof (hi_pending _ _ _ _ _ _ Hh) as Hpen. rewrite Hpen in Hp. destruct queue as [|ev' queue]; [done|]. injection Hp as <-.
  apply (records_lookup e Hh) in Hev as [Hid Hin].
  assert (Hnot : ∀ id', id' ∉ Pending (pop_pending s) → id' ∉ Pending s ∨ id' = id_hex ev').
  { intros id' Hid'. change (Pending (pop_pending s)) with (tail (Pending s)) in Hid'. rewrite Hpen in *. simpl in *. destruct (decide (id' = id_hex ev')); set_solver. }
  split; try done.
  - exists (pub ++ [ev']), queue, es. destruct Hh as [A1 A2 A3 A4 A5 A6 A7 A8 A9].
    split; rewrite <- ?app_assoc; try done. change (Pending (pop_pending s)) with (tail (Pending s)). by rewrite Hpen.
  - intros i id' Hi. destruct (Hdels i id' Hi) as (dv & Hdv & Hd & Hcl'). exists dv. split_and!; [done..|].
    intros [Hn| ->]%Hnot; [by apply Hcl'|]. apply Hcl. apply (records_lookup e Hh) in Hdv as [Hid' Hin'].
    assert (E : Some dv = Some ev) by (rewrite <- (proj2 (records_lookup e Hh (id_hex ev') dv)), (proj2 (records_lookup e Hh (id_hex ev') ev)); done).
    injection E as <-. apply Hd.
  - intros Hk item Hi. destruct (Hc Hk item Hi) as (id' & dv & Hdv & Hd & Hn & Hcl'). exists id', dv. split_and!; try done.
    change (Pending (pop_pending s)) with (tail (Pending s)). rewrite Hpen in *. simpl in *. set_solver.
Qed.

Lemma ok_cleanup k s id outcomes : id ∈ Pending s → ok k s → ok k (set_cleanup id outcomes s).
Proof.
  intros Hp [Htx Hh Hab Hdels He Hk5 Hc].
  assert (Hother : ∀ id', id' ∉ Pending s → cleaned s id' → cleaned (set_cleanup id outcomes s) id').
  { intros id' Hn (o & Ho & Hok). exists o. split; [|done]. simpl. rewrite lookup_insert_ne; [done|]. by intros ->. }
  split; try done.
  - destruct Hh as (pub & queue & es & Hh). exists pub, queue, es. by apply (history_frame k s).
  - intros i id' Hi. destruct (Hdels i id' Hi) as (ev & Hev & Hd & Hcl). exists ev. split_and!; [done..|]. intros Hn. apply Hother; [done|]. by apply Hcl.
  - intros Hk item Hi. destruct (Hc Hk item Hi) as (id' & ev & Hev & Hd & Hn & Hcl). exists id', ev. split_and!; try done. by apply Hother.
Qed.

(** *** New records *)

Definition identified (s : State) : Prop := st_IncidentID s ≠ "" ∧ dc_OperatorPubkey (st_declared s) = hex (en_OperatorPubkey e).

(** The count of completed phases after an entry. *)
Definition count_after (k : nat) (x : entry) : nat := match x with EReceipt _ true => S k | _ => k end.
(** Only receipts of the next phase are written. *)
Definition in_turn (k : nat) (x : entry) : Prop := match x with EReceipt p _ => Phases !! k = Some p | _ => True end.

(** A new record has a new id. *)
Lemma fresh_record k s ev : ok k s → signed_event ev → older (ev_CreatedAt ev) s → Records s !! id_hex ev = None.
Proof.
  intros [_ (pub & queue & es & Hh) _ _ _ _ _] (Hw & Hc & _) Ho. apply eq_None_not_Some. intros [ev' Hev'].
  pose proof (Ho _ _ Hev') as Ht. apply (records_lookup e Hh) in Hev' as [Hid Hin].
  pose proof (hi_signed _ _ _ _ _ _ Hh) as Hs. rewrite Forall_forall in Hs. destruct (Hs _ Hin) as (Hw' & Hc' & _).
  apply (inj hex) in Hid. destruct (CheckID_same _ _ Hw Hw' Hc Hc' Hid) as (_ & Ht' & _). lia.
Qed.

Lemma phased_snoc es x : phased es → in_turn (length (completed es)) x → phased (es ++ [x]).
Proof. intros Hp Hx. destruct x; [by apply phased_receipt|by apply phased_trust|by apply phased_other]. Qed.
Lemma completed_snoc es x : length (completed (es ++ [x])) = count_after (length (completed es)) x.
Proof. rewrite completed_app, length_app. destruct x as [p []| |]; simpl; lia. Qed.

Lemma history_add k s pub queue es ev x : history e k s pub queue es → Records s !! id_hex ev = None → signed_event ev →
  older (ev_CreatedAt ev) s → ev_CreatedAt ev ≤ st_LastTimestamp (st_signed s) → describes e s ev x → in_turn k x → identified s →
  history e (count_after k x) (add_record ev s) pub (queue ++ [ev]) (es ++ [x]).
Proof.
  intros Hh Hf Hs Ho Ht Hd Hx Hi. pose proof Hh as [A1 A2 A3 A4 A5 A6 A7 A8 A9].
  assert (Hold : Forall (λ ev', before ev' ev) (pub ++ queue)).
  { apply Forall_forall. intros ev' Hin. eapply (Ho (id_hex ev')), (records_lookup e Hh). done. }
  split; rewrite ?app_assoc; try done.
  - change (Records (add_record ev s)) with (<[id_hex ev := ev]> (Records s)). rewrite A1 in *.
    rewrite keyed_snoc, (list_to_map_app (keyed (pub ++ queue))). simpl. rewrite insert_empty, insert_union_singleton_l. apply map_union_comm.
    by apply map_disjoint_singleton_l_2.
  - change (Pending (add_record ev s)) with (Pending s ++ [id_hex ev]). by rewrite A2, fmap_app.
  - apply StronglySorted_app. split_and!; [|done|by repeat constructor].
    intros a b Ha ->%list_elem_of_singleton. rewrite Forall_forall in Hold. by apply Hold.
  - apply Forall_app. split; [done|]. by repeat constructor.
  - apply Forall_app. split; [done|]. constructor; [done|constructor].
  - apply Forall2_app; [|constructor; [by apply (describes_frame s)|constructor]]. eapply Forall2_impl; [exact A6|]. intros a y. by apply describes_frame.
  - apply phased_snoc; [done|]. by rewrite A8.
  - by rewrite completed_snoc, A8.
Qed.

(** What stays true of the old records. *)
Lemma deletions_add s ev : Records s !! id_hex ev = None → deletions_ok s → deletions_ok (add_record ev s).
Proof.
  intros Hf Hd i id Hi. destruct (Hd i id Hi) as (dv & Hdv & Hdel & Hcl). exists dv. split_and!; [|done|].
  - change (Records (add_record ev s)) with (<[id_hex ev := ev]> (Records s)). rewrite lookup_insert_ne; [done|]. intros <-. congruence.
  - intros Hn. apply Hcl. change (Pending (add_record ev s)) with (Pending s ++ [id_hex ev]) in Hn. set_solver.
Qed.
Lemma covered_add s ev : Records s !! id_hex ev = None → covered s → covered (add_record ev s).
Proof.
  intros Hf Hc item Hi. destruct (Hc item Hi) as (id & dv & Hdv & Hdel & Hn & Hcl). exists id, dv.
  assert (Hne : id ≠ id_hex ev) by (intros ->; congruence). split_and!; try done.
  - change (Records (add_record ev s)) with (<[id_hex ev := ev]> (Records s)). by rewrite lookup_insert_ne.
  - change (Pending (add_record ev s)) with (Pending s ++ [id_hex ev]). set_solver.
Qed.

Lemma trust_add_inv s ev : trust_in (add_record ev s) → trust_in s ∨ tag ev "t" = TopicTrustEpoch.
Proof.
  intros (id & ev' & Hl & Ht). change (Records (add_record ev s)) with (<[id_hex ev := ev]> (Records s)) in Hl.
  apply lookup_insert_Some in Hl as [[_ <-]|[_ Hl]]; [by right|left]. by exists id, ev'.
Qed.

Lemma trust_add s ev : Records s !! id_hex ev = None → trust_in (add_record ev s) ↔ trust_in s ∨ tag ev "t" = TopicTrustEpoch.
Proof.
  intros Hf. split; [apply trust_add_inv|]. unfold trust_in. change (Records (add_record ev s)) with (<[id_hex ev := ev]> (Records s)).
  intros [(id & ev' & Hl & Ht)|Ht].
  - exists id, ev'. rewrite lookup_insert_ne; [done|]. intros <-. congruence.
  - exists (id_hex ev), ev. by rewrite lookup_insert_eq.
Qed.

Lemma describes_trust s ev x : describes e s ev x → tag ev "t" = TopicTrustEpoch → x = ETrust.
Proof.
  destruct x as [p c| |]; simpl; [|done|by intros []]. intros (_ & [Hr _]%is_receipt_d & _) Ht. rewrite Ht in Hr. discriminate Hr.
Qed.

Lemma ok_add k s ev x : ok k s → signed_event ev → older (ev_CreatedAt ev) s → ev_CreatedAt ev ≤ st_LastTimestamp (st_signed s) →
  describes e s ev x → in_turn k x → identified s → (x = ETrust → st_Aborted s = false) → ((8 ≤ count_after k x)%nat → covered s) →
  ev_Kind ev ≠ KindDeletion → ok (count_after k x) (add_record ev s).
Proof.
  intros Hok Hs Ho Ht Hd Hx Hi Htr Hcov Hkind. pose proof (fresh_record _ _ _ Hok Hs Ho) as Hf. destruct Hok as [Htx (pub & queue & es & Hh) Hab Hdels He Hk5 Hc]. split; [done|..].
  - exists pub, (queue ++ [ev]), (es ++ [x]). by apply history_add.
  - intros Ha. rewrite (trust_add _ _ Hf). intros [Htin|Htag]; [by apply Hab|]. change (st_Aborted (add_record ev s)) with (st_Aborted s) in Ha.
    rewrite (Htr (describes_trust _ _ _ Hd Htag)) in Ha. discriminate Ha.
  - by apply deletions_add.
  - intros Hk. apply He. destruct x as [p []| |]; simpl in Hk; lia.
  - intros id ev' Hl Hk. change (Records (add_record ev s)) with (<[id_hex ev := ev]> (Records s)) in Hl.
    apply lookup_insert_Some in Hl as [[_ <-]|[_ Hl]]; [done|]. by apply (Hk5 id ev').
  - intros Hk. apply covered_add; [done|]. by apply Hcov.
Qed.

(** A new request of the old key, for the next batch. *)
Lemma ok_add_deletion k s ev : ok k s → signed_event ev → older (ev_CreatedAt ev) s → ev_CreatedAt ev ≤ st_LastTimestamp (st_signed s) →
  describes e s ev EOther → identified s → (7 ≤ k)%nat → deletes ev (batch (length (DeletionIDs s)) (Observed s)) → ok k (add_deletion ev s).
Proof.
  intros Hok Hs Ho Ht Hd Hi Hk Hdel. pose proof (fresh_record _ _ _ Hok Hs Ho) as Hf. destruct Hok as [Htx (pub & queue & es & Hh) Hab Hdels He Hk5 Hc]. split; [done|..].
  - exists pub, (queue ++ [ev]), (es ++ [EOther]). apply (history_frame k (add_record ev s)); [done..|]. by apply (history_add k s pub queue es ev EOther).
  - intros Ha. change (trust_in (add_deletion ev s)) with (trust_in (add_record ev s)). rewrite (trust_add _ _ Hf). intros [Htin|Htag]; [by apply Hab|]. by destruct Hd.
  - intros i id Hid. change (DeletionIDs (add_deletion ev s)) with (DeletionIDs s ++ [id_hex ev]) in Hid.
    apply lookup_app_Some in Hid as [Hid|[Hge Hid]]; [by apply (deletions_add s ev Hf Hdels i id)|].
    apply list_lookup_singleton_Some in Hid as [Hz <-]. exists ev. split_and!.
    + apply lookup_insert_eq.
    + by replace i with (length (DeletionIDs s)) by lia.
    + intros Hn. destruct Hn. change (Pending (add_deletion ev s)) with (Pending s ++ [id_hex ev]). set_solver.
  - intros ?. lia.
  - intros id ev' Hl Hkd. change (Records (add_deletion ev s)) with (<[id_hex ev := ev]> (Records s)) in Hl.
    change (DeletionIDs (add_deletion ev s)) with (DeletionIDs s ++ [id_hex ev]). apply elem_of_app.
    apply lookup_insert_Some in Hl as [[<- <-]|[_ Hl]]; [right; by left|left]. by apply (Hk5 id ev').
  - intros Hk8. by apply covered_add, Hc.
Qed.

(** *** Declaring and aborting *)

Lemma ok_declare k s d : ok k s → st_IncidentID s = "" → ascii_text (dc_IncidentID d) = true → ok k (set_declared d s).
Proof.
  intros [Htx (pub & queue & es & Hh) Hab Hdels He Hk5 Hc] Hid Htx'. split; try done.
  destruct Hh as [A1 A2 A3 A4 A5 A6 A7 A8 A9]. assert (Hnil : pub ++ queue = []).
  { destruct (pub ++ queue); [done|]. destruct (A9 ltac:(done)) as [Hne _]. by rewrite Hid in Hne. }
  exists pub, queue, es. rewrite Hnil in *. split; rewrite ?Hnil; try done. inversion A6. constructor.
Qed.

Lemma ok_abort k s : ok k s → ¬ trust_in s → ok k (set_aborted true s).
Proof.
  intros [Htx (pub & queue & es & Hh) Hab Hdels He Hk5 Hc] Ht. split; try done. exists pub, queue, es. by apply (history_frame k s).
Qed.

Lemma ok_empty : ok 0 empty_state.
Proof.
  split; [done| |done| |done|done|by intros ?; lia].
  - exists [], [], []. split; try done; by constructor.
  - by intros i id ?%lookup_nil_absurd.
Qed.
End invariant.
