(* ===== verification/RecoveryRun.v ===== *)
(** * Running identity recovery

    The invariant of [RecoveryInv] along every action of the engine, whatever the
    signers, the relays, the disk and the adapters answer. *)

From Stdlib Require Import ZArith Lia Bool Ascii.
From stdpp Require Import base tactics decidable option list numbers strings gmap fin_maps sorting.
From S2P Require Import Prelude Action Bytes Nostr EventID EventIDFacts OutboxData TrustEpoch Saga Inbound DeletionGuard Recovery RecoveryInv.

(** A signer fills in id, key and signature, and changes nothing else. *)
Definition signs (ev ev' : Event) : Prop :=
  wf_event ev' ∧ ev_CreatedAt ev' = ev_CreatedAt ev ∧ ev_Kind ev' = ev_Kind ev ∧ ev_Tags ev' = ev_Tags ev ∧ ev_Content ev' = ev_Content ev.

Class RecoveryEnvLaws W `{RecoveryEnv W} : Prop := {
  operator_signs ev w ev' w' : env_OperatorSign ev w = (Ok ev', w') → signs ev ev';
  old_signs ev w ev' w' : env_OldSign ev w = (Ok ev', w') → signs ev ev';
  incident_id_text w id w' : env_NewIncidentID w = (Ok id, w') → id ≠ ""%string ∧ ascii_text id = true;
}.

Section run.
Context `{NostrLaws} `{RecoveryJSONLaws} {W : Type} `{RecoveryEnvLaws W} (normalize : string → string) (e : Engine).
Context (Hop : PubKeyFromHex (hex (en_OperatorPubkey e)) = Some (en_OperatorPubkey e)).

Abbreviation M A := (act (RecoveryWorld W) RecoveryError A).

(** ** The calls *)

(** The requests made to the old key or published under it. *)
Definition asked_of_old (c : Outcall) : option Event := match c with ODeleted ev _ | OOldSigned ev _ => Some ev | _ => None end.
Definition deletion_calls (log : list Outcall) : list Event := omap asked_of_old log.

(** A request that names only events of the inventory. *)
Definition names_observed (s : State) (ev : Event) : Prop :=
  ∃ targets, targets_of (Observed s) ∅ = Some targets ∧ permitted ev (en_OldPubkey e) targets None.

(** A record of the operator on one of the three topics. *)
Definition operator_record (ev : Event) : Prop :=
  CheckID ev = true ∧ VerifySignature ev = true ∧ ev_Kind ev = kindCPState ∧ ev_PubKey ev = en_OperatorPubkey e ∧
  (tag ev "t" = TopicIncident ∨ tag ev "t" = TopicReceipt ∨ tag ev "t" = TopicTrustEpoch).

Definition in_scope (c : Outcall) : Prop :=
  match c with
  | OPublished ev _ => operator_record ev
  | ODeleted ev _ => CheckID ev = true ∧ VerifySignature ev = true
  | _ => True
  end.

(** What was read right before an activation was published. *)
Definition activation_read (ev : Event) (l : list Outcall) : Prop :=
  ∃ t proof events head, l = [OReadiness (tt_Epoch t) (Ok proof); OHead (Ok events)] ∧ decode_transition (ev_Content ev) = Some t ∧
    ready (en_ConsumerRoster e) proof = true ∧ epoch_best e events None = Ok head ∧ head_allows head t = true.

Definition activations_ready (log : list Outcall) : Prop :=
  ∀ pre ev err post, log = pre ++ OPublished ev err :: post → tag ev "t" = TopicTrustEpoch →
    ∃ pre' l, pre = pre' ++ l ∧ activation_read ev l.

Definition activated (log : list Outcall) : Prop := ∃ ev err, OPublished ev err ∈ log ∧ tag ev "t" = TopicTrustEpoch.

(** A call that publishes nothing and asks nothing of the old key. *)
Definition plain (c : Outcall) : Prop := match c with OSigned _ _ | OReadiness _ _ | OHead _ => True | _ => False end.

(** The ledger and the calls. *)
Record lok (k : nat) (s : State) (log : list Outcall) : Prop := {
  lo_ok : ok normalize e k s;
  lo_scope : Forall in_scope log;
  lo_ready : activations_ready log;
  lo_activated : activated log → trust_in s;
  lo_early : (k ≤ 5)%nat → deletion_calls log = [];
  lo_named : Forall (names_observed s) (deletion_calls log);
}.

(** The ledger, the memory and the calls. *)
Record wok (km kl : nat) (ledger mem : State) (log : list Outcall) : Prop := {
  wo_mem : ok normalize e km mem;
  wo_ledger : lok kl ledger log;
  wo_trust : trust_in ledger → trust_in mem;
  wo_observed : (3 ≤ kl)%nat → Observed mem = Observed ledger;
  wo_le : kl = km ∨ S kl = km;
}.

Lemma deletion_calls_app a b : deletion_calls (a ++ b) = deletion_calls a ++ deletion_calls b.
Proof. apply omap_app. Qed.

Lemma wok_load k s log : lok k s log → wok k k s s log.
Proof. intros Hl. split; try done; [apply Hl|by left]. Qed.

Lemma wok_save km kl ledger mem log : wok km kl ledger mem log → wok km km mem mem log.
Proof.
  intros [Hm Hl Ht Ho Hle]. apply wok_load. destruct Hl as [H1' H2' H3' H4' H5' H6']. split; try done.
  - auto.
  - intros Hk. apply H5'. lia.
  - destruct (decide (3 ≤ kl)%nat) as [Hk|Hk]; [|rewrite H5' by lia; constructor].
    eapply Forall_impl; [exact H6'|]. intros ev. unfold names_observed. by rewrite (Ho Hk).
Qed.

(** A change of the memory. *)
Lemma wok_mem km kl km' ledger mem mem' log : wok km kl ledger mem log → ok normalize e km' mem' → kl = km' ∨ S kl = km' →
  (trust_in mem → trust_in mem') → Observed mem' = Observed mem ∨ (km ≤ 2)%nat → wok km' kl ledger mem' log.
Proof.
  intros [Hm Hl Ht Ho Hle] Hok Hk Ht' Hobs. split; [done|done|auto| |done].
  intros Hne. destruct Hobs as [->|Hk2]; [auto|lia].
Qed.

Lemma plain_published c ev err : plain c → c ≠ OPublished ev err.
Proof. by destruct c. Qed.

Lemma ready_app log l : activations_ready log → Forall plain l → activations_ready (log ++ l).
Proof.
  intros Hr Hl pre ev err post E Ht. apply app_eq_inv in E as [(k & -> & E)|(k & -> & E)].
  - destruct k as [|c k]; simpl in *; [subst; by apply Forall_cons in Hl as [[] _]|]. injection E as <- _. by eapply Hr.
  - subst. apply Forall_app in Hl as [_ Hl]. by apply Forall_cons in Hl as [[] _].
Qed.

Lemma plain_calls l : Forall plain l → deletion_calls l = [].
Proof. induction 1 as [|c l Hc _ IH]; [done|]. by destruct c. Qed.
Lemma plain_scope l : Forall plain l → Forall in_scope l.
Proof. intros Hl. eapply Forall_impl; [done|]. by intros []. Qed.

(** Calls that publish nothing. *)
Lemma wok_plain km kl ledger mem log l : Forall plain l → wok km kl ledger mem log → wok km kl ledger mem (log ++ l).
Proof.
  intros Hp [Hm [H1' H2' H3' H4' H5' H6'] Ht Ho Hle]. pose proof (plain_calls _ Hp) as Hd.
  split; try done. split; rewrite ?deletion_calls_app, ?Hd, ?app_nil_r; try done.
  - apply Forall_app. split; [done|by apply plain_scope].
  - by apply ready_app.
  - intros (ev & err & [Hin|Hin]%elem_of_app & Htag); [apply H4'; by exists ev, err|]. rewrite Forall_forall in Hp. by destruct (Hp _ Hin).
Qed.

(** A publication of the operator; an activation is in the ledger, and its reads
    were the last calls. *)
Lemma wok_publish km kl ledger mem log ev err : operator_record ev →
  (tag ev "t" = TopicTrustEpoch → trust_in ledger ∧ ∃ pre l, log = pre ++ l ∧ activation_read ev l) →
  wok km kl ledger mem log → wok km kl ledger mem (log ++ [OPublished ev err]).
Proof.
  intros Hrec Htr [Hm [H1' H2' H3' H4' H5' H6'] Ht Ho Hle].
  split; try done. split; rewrite ?deletion_calls_app, ?app_nil_r; try done.
  - apply Forall_app. split; [done|]. constructor; [done|constructor].
  - intros pre ev' err' post E Htag. apply app_eq_inv in E as [(k & -> & E)|(k & -> & E)].
    + destruct k as [|c k]; simpl in *.
      * injection E as -> -> ->. destruct (Htr Htag) as (_ & pre' & l & E & Hread). rewrite app_nil_r in E. by exists pre', l.
      * injection E as <- _. by eapply H3'.
    + destruct k as [|c k]; simpl in *; [|by destruct k]. injection E as <- <- <-. rewrite app_nil_r.
      destruct (Htr Htag) as (_ & pre' & l & E & Hread). by exists pre', l.
  - intros (ev' & err' & [Hin|Hin]%elem_of_app & Htag); [apply H4'; by exists ev', err'|].
    apply list_elem_of_singleton in Hin. injection Hin as <- <-. by apply Htr.
Qed.

(** A request to the old key, or published under it. *)
Lemma wok_delete km kl ledger mem log c ev : in_scope c → deletion_calls [c] = [ev] → (∀ err ev', c ≠ OPublished ev' err) → names_observed mem ev → (7 ≤ km)%nat →
  wok km kl ledger mem log → wok km kl ledger mem (log ++ [c]).
Proof.
  intros Hs Hc Hnp Hn Hk [Hm [H1' H2' H3' H4' H5' H6'] Ht Ho Hle].
  split; try done. split; rewrite ?deletion_calls_app, ?Hc; try done.
  - apply Forall_app. split; [done|]. constructor; [done|constructor].
  - intros pre ev' err' post E Htag. apply app_eq_inv in E as [(k & -> & E)|(k & -> & E)].
    + destruct k as [|c' k]; simpl in *; [by injection E as <-; destruct (Hnp err' ev')|]. injection E as <- _. by eapply H3'.
    + destruct k as [|c' k]; simpl in *; [by injection E as ->; destruct (Hnp err' ev')|by destruct k].
  - intros (ev' & err' & [Hin|Hin]%elem_of_app & Htag); [apply H4'; by exists ev', err'|].
    apply list_elem_of_singleton in Hin. by destruct (Hnp err' ev').
  - intros ?. lia.
  - apply Forall_app. split; [done|]. constructor; [|constructor]. unfold names_observed. by rewrite <- (Ho ltac:(lia)).
Qed.

(** ** Actions that keep the invariant *)

(** [k] phases are completed in memory; whether as many are in the ledger, the
    incident is aborted, has its identity, and has every deletion in place. *)
Definition inv (k : nat) (b a i c : bool) (w : RecoveryWorld W) : Prop :=
  (∃ kl, (b = true → kl = k) ∧ wok k kl (rw_ledger w) (rw_mem w) (rw_log w)) ∧ st_Aborted (rw_mem w) = a ∧
  (i = true → identified e (rw_mem w)) ∧ (c = true → covered normalize e (rw_mem w)).

(** An action keeps [P], and does not run out of fuel. *)
Definition keeps {A} (P : RecoveryWorld W → Prop) (f : M A) : Prop :=
  ∀ w, P w → act_wp f (λ r w', P w' ∧ r ≠ Err EOutOfFuel) w.

Lemma keeps_ret {A} P (a : A) : keeps P (act_ret a).
Proof. by intros w Hw. Qed.
Lemma keeps_fail {A} P x : x ≠ EOutOfFuel → keeps P (act_fail (A := A) x).
Proof. intros Hx w Hw. split; [done|]. by intros [= ->]. Qed.
Lemma keeps_bind {A B} P (f : M A) (g : A → M B) : keeps P f → (∀ a, keeps P (g a)) → keeps P (act_bind f g).
Proof.
  intros Hf Hg w Hw. apply act_wp_bind. eapply act_wp_mono; [by apply Hf|]. intros [a|x] w' [Hw' Hr]; [by apply Hg|].
  split; [done|]. by intros [= ->].
Qed.
Lemma keeps_try {A E'} P (f : M A) : keeps P f → ∀ w, P w → act_wp (act_try (E' := E') f) (λ r w', P w' ∧ ∀ x, r ≠ Err x) w.
Proof. intros Hf w Hw. apply act_wp_try. eapply act_wp_mono; [by apply Hf|]. intros r w' [Hw' _]. done. Qed.
Lemma keeps_state P : keeps P state.
Proof. by intros w Hw. Qed.
Lemma keeps_read {A} P (f : RecoveryWorld W → result RecoveryError A) : (∀ w, f w ≠ Err EOutOfFuel) → keeps P (act_read f).
Proof. intros Hf w Hw. split; [done|apply Hf]. Qed.
Lemma keeps_check P c x : x ≠ EOutOfFuel → keeps P (check c x).
Proof. intros Hx. unfold check. destruct c; [apply keeps_ret|by apply keeps_fail]. Qed.
Lemma keeps_unless P what err : keeps P (unless what err).
Proof. unfold unless. destruct err; [by apply keeps_fail|apply keeps_ret]. Qed.
Lemma keeps_answered {A} P what (r : result string A) : keeps P (answered what r).
Proof. unfold answered. destruct r; [apply keeps_ret|by apply keeps_fail]. Qed.
Lemma keeps_guarded P r : keeps P (guarded r).
Proof. unfold guarded. destruct r; [apply keeps_ret|by apply keeps_fail]. Qed.

Section kept.
Context {k : nat} {b a i c : bool}.
Abbreviation I := (inv k b a i c).

Lemma keeps_ask {A} (f : W → A * W) : keeps I (ask f).
Proof. intros w Hw. unfold act_wp, ask. destruct (f (rw_env w)) as [x v]. done. Qed.
Lemma keeps_call {A} (f : W → A * W) outcall : (∀ x, plain (outcall x)) → keeps I (call f outcall).
Proof.
  intros Hp w ((kl & Hb & Hw) & Hr). unfold act_wp, call. destruct (f (rw_env w)) as [x v]. simpl. split; [|done]. split; [|done].
  exists kl. split; [done|]. apply wok_plain; [|done]. by repeat constructor.
Qed.
Lemma keeps_Save : keeps I Save.
Proof.
  intros w ((kl & Hb & Hw) & Hr). unfold act_wp, Save. destruct (env_Save (rw_env w)) as [[x|] v]; simpl; (split; [|done]); (split; [|done]).
  - by exists kl.
  - exists k. split; [done|]. by eapply wok_save.
Qed.

(** A change outside of the records, the deletions and the inventory. *)
Lemma keeps_update f : (∀ s, st_declared (f s) = st_declared s ∧ st_signed (f s) = st_signed s ∧ st_Aborted (f s) = st_Aborted s ∧
  st_deletions (f s) = st_deletions s ∧ Observed (f s) = Observed s) → keeps I (update f).
Proof.
  intros Hf w ((kl & Hb & Hw) & Ha & Hi & Hc). unfold act_wp, update, act_write. simpl. split; [|done].
  destruct (Hf (rw_mem w)) as (Hd & Hs & Hab & Hdel & Hobs). split_and!.
  - exists kl. split; [done|]. eapply wok_mem; [done| |apply Hw| |by left].
    + eapply ok_frame; [done..|by left|apply Hw].
    + unfold trust_in, Records. simpl. by rewrite Hs.
  - simpl. by rewrite Hab.
  - unfold identified, st_IncidentID. simpl. by rewrite Hd.
  - intros Hc'. specialize (Hc Hc'). unfold covered, cleaned, Records, Pending in *. simpl. by rewrite Hs, Hdel, Hobs.
Qed.
End kept.
End run.

(** Goes through the calls of an action that keeps the invariant. *)
Ltac keep_step :=
  lazymatch goal with
  | |- keeps _ (act_bind _ _) => apply keeps_bind; [|intros ?]
  | |- keeps _ (act_ret _) => apply keeps_ret
  | |- keeps _ (act_fail _) => by apply keeps_fail
  | |- keeps _ state => apply keeps_state
  | |- keeps _ (check _ _) => by apply keeps_check
  | |- keeps _ (unless _ _) => apply keeps_unless
  | |- keeps _ (answered _ _) => apply keeps_answered
  | |- keeps _ (guarded _) => apply keeps_guarded
  | |- keeps _ (ask _) => apply keeps_ask
  | |- keeps _ Save => apply keeps_Save
  | |- keeps _ (update _) => by apply keeps_update
  | |- keeps _ (match ?x with _ => _ end) => destruct x
  end.
Ltac keep := repeat (keep_step; cbv beta).

(** * Publishing and signing in identity recovery

    The queue of signed records is published in order, each after it was
    validated and an activation only right after its readiness was proved; and a
    new record is in the ledger before it is published. *)

Section publish.
Context `{NostrLaws} `{RecoveryJSONLaws} {W : Type} `{RecoveryEnvLaws W} (normalize : string → string) (e : Engine).
Context (Hop : PubKeyFromHex (hex (en_OperatorPubkey e)) = Some (en_OperatorPubkey e)).

(** Only calls, and the fields of the cut. *)
Definition reads (w w' : RecoveryWorld W) (l : list Outcall) : Prop :=
  rw_ledger w' = rw_ledger w ∧ rw_log w' = rw_log w ++ l ∧ Forall plain l ∧ ∃ cutv, rw_mem w' = set_cut cutv (rw_mem w).

Lemma set_cut_same s : s = set_cut (st_cut s) s.
Proof. by destruct s. Qed.

Lemma reads_refl w w' : rw_ledger w' = rw_ledger w → rw_log w' = rw_log w → rw_mem w' = rw_mem w → reads w w' [].
Proof. intros H1' H2' H3'. split_and!; [done|by rewrite H2', app_nil_r|constructor|]. exists (st_cut (rw_mem w)). rewrite H3'. apply set_cut_same. Qed.
Lemma reads_trans w1 w2 w3 l1 l2 : reads w1 w2 l1 → reads w2 w3 l2 → reads w1 w3 (l1 ++ l2).
Proof.
  intros (A1 & A2 & A3 & c1 & A4) (B1 & B2 & B3 & c2 & B4). split_and!; [congruence|by rewrite B2, A2, app_assoc|by apply Forall_app|].
  exists c2. by rewrite B4, A4.
Qed.

Lemma cutoverReadiness_wp epoch pub w : act_wp (cutoverReadiness e epoch pub) (λ r w', ∃ l, reads w w' l ∧ r ≠ Err EOutOfFuel ∧
  match r with Ok proof => l = [OReadiness epoch (Ok proof)] ∧ ready (en_ConsumerRoster e) proof = true | Err _ => True end) w.
Proof.
  unfold cutoverReadiness. apply act_wp_bind. unfold check at 1. destruct (en_Acks e); [|exists []; split_and!; [by apply reads_refl|done|done]].
  simpl. apply act_wp_bind, act_wp_read. simpl. apply act_wp_bind. unfold act_wp at 1, call. destruct (env_Readiness _ _ _ _ _) as [answer v]. simpl.
  set (w1 := mkRecoveryWorld _ _ _ _).
  assert (Hr : reads w w1 [OReadiness epoch answer]).
  { split_and!; [done|done|by repeat constructor|]. exists (st_cut (rw_mem w)). apply set_cut_same. }
  destruct answer as [proof|x]; [|by exists [OReadiness epoch (Err x)]]. apply act_wp_bind. simpl. apply act_wp_bind.
  unfold check. destruct (ready _ proof) eqn:Er; [|by exists [OReadiness epoch (Ok proof)]]. simpl.
  exists [OReadiness epoch (Ok proof)]. split_and!; try done. destruct Hr as (A1 & A2 & A3 & c & A4). split_and!; try done.
  eexists. reflexivity.
Qed.

Lemma epoch_best_error events best x : epoch_best e events best = Err x → x ≠ EOutOfFuel.
Proof.
  revert best. induction events as [|ev events IH]; intros best; simpl; [done|]. repeat case_match; try (by intros [= <-]); eauto.
Qed.

Lemma epochHead_wp w : act_wp (epochHead e) (λ r w', ∃ l, reads w w' l ∧ rw_mem w' = rw_mem w ∧ r ≠ Err EOutOfFuel ∧
  match r with Ok head => ∃ events, l = [OHead (Ok events)] ∧ epoch_best e events None = Ok head | Err _ => True end) w.
Proof.
  unfold epochHead. apply act_wp_bind. unfold act_wp at 1, call. destruct (env_ReadEpochs _) as [answer v]. simpl. set (w1 := mkRecoveryWorld _ _ _ _).
  assert (Hr : reads w w1 [OHead answer]).
  { split_and!; [done|done|by repeat constructor|]. exists (st_cut (rw_mem w)). apply set_cut_same. }
  destruct answer as [events|x]; [|by exists [OHead (Err x)]]. apply act_wp_bind. simpl. exists [OHead (Ok events)]. simpl. split_and!; [done|done| |].
  - intros E. by apply epoch_best_error in E.
  - destruct (epoch_best e events None) eqn:Eb; [|done]. by exists events.
Qed.

Lemma activation_gate_wp ev w : act_wp (activation_gate e ev) (λ r w', ∃ l, reads w w' l ∧ r ≠ Err EOutOfFuel ∧ (r = Ok tt → activation_read e ev l)) w.
Proof.
  unfold activation_gate. destruct (decode_transition (ev_Content ev)) as [t|] eqn:Et; [|exists []; split_and!; [by apply reads_refl|done|done]].
  apply act_wp_bind. eapply act_wp_mono; [apply cutoverReadiness_wp|]. intros [proof|x] w1 (l1 & Hr1 & Hx & Hp); [|exists l1; split_and!; [done|by intros [= ->]|done]].
  destruct Hp as [-> Hready]. apply act_wp_bind. eapply act_wp_mono; [apply epochHead_wp|]. intros [head|x] w2 (l2 & Hr2 & _ & Hx2 & Hh);
    pose proof (reads_trans _ _ _ _ _ Hr1 Hr2) as Hr; [|eexists; split_and!; [done|by intros [= ->]|done]].
  destruct Hh as (events & -> & Hb). simpl in Hr. unfold check. eexists. split_and!; [by destruct (head_allows head t)|by destruct (head_allows head t)|].
  destruct (head_allows head t) eqn:Ea; [|done]. intros _. by exists t, proof, events, head.
Qed.

(** ** The queue *)

Lemma validatePending_ok s id ev : validatePending e s id ev = Ok tt →
  hex (ev_ID ev) = id ∧ CheckID ev = true ∧ VerifySignature ev = true ∧
  if ev_Kind ev =? KindDeletion then names_observed e s ev else operator_record e ev.
Proof.
  unfold validatePending. intros Hv. inv_ok. bool_facts. split_and!; [by apply String.eqb_eq|done|done|].
  destruct (ev_Kind ev =? kindCPState) eqn:Ek.
  - apply Z.eqb_eq in Ek. rewrite Ek. simpl. inv_ok. bool_facts. split_and!; try done; [by apply String.eqb_eq|].
    repeat case_match; try done; rewrite ?String.eqb_eq in *; auto.
  - destruct (targets_of _ _) as [targets|] eqn:Et; [|done]. destruct (CheckSigned _ _ _ _) as [[]|] eqn:Ec; [|done].
    apply CheckSigned_permitted in Ec as [Hp _]. rewrite (pm_kind _ _ _ _ Hp). simpl. by exists targets.
Qed.
Lemma validatePending_error s id ev : validatePending e s id ev ≠ Err EOutOfFuel.
Proof. unfold validatePending, require. repeat case_match; simpl; done. Qed.

(** The records in memory are those in the ledger. *)
Definition synced (w : RecoveryWorld W) : Prop := st_signed (rw_ledger w) = st_signed (rw_mem w) ∧ st_declared (rw_ledger w) = st_declared (rw_mem w).

Lemma synced_trust w : synced w → trust_in (rw_mem w) → trust_in (rw_ledger w).
Proof. unfold synced, trust_in, Records. by intros [-> _]. Qed.

Abbreviation inv := (inv (W := W) normalize e).

Lemma inv_reads k b a i c w w' l : reads w w' l → inv k b a i c w → inv k b a i c w'.
Proof.
  intros (A1 & A2 & A3 & cutv & A4) ((kl & Hb & Hw) & Ha & Hi & Hc). unfold RecoveryRun.inv. rewrite A1, A2, A4. split_and!; try done.
  exists kl. split; [done|]. apply wok_plain; [done|]. eapply wok_mem; [done| |apply Hw|done|by left]. eapply (ok_frame normalize e k (rw_mem w)); [done..|by left|apply Hw].
Qed.
Lemma synced_reads w w' l : reads w w' l → synced w → synced w'.
Proof. intros (A1 & _ & _ & cutv & A4). unfold synced. by rewrite A1, A4. Qed.

(** What every action of the engine leaves, and what it leaves when it succeeds. *)
Definition leaves {A} (P : RecoveryWorld W → Prop) (Q : A → RecoveryWorld W → Prop) (r : result RecoveryError A) (w : RecoveryWorld W) : Prop :=
  P w ∧ r ≠ Err EOutOfFuel ∧ match r with Ok x => Q x w | Err _ => True end.

Lemma leaves_ok {A} (P : RecoveryWorld W → Prop) (Q : A → RecoveryWorld W → Prop) x w : P w → Q x w → leaves P Q (Ok x) w.
Proof. done. Qed.

Lemma wp_then {A B} P (Q : A → RecoveryWorld W → Prop) Q' (f : act (RecoveryWorld W) RecoveryError A) (g : A → act (RecoveryWorld W) RecoveryError B) w :
  act_wp f (leaves P Q) w → (∀ x w', P w' → Q x w' → act_wp (g x) (leaves P Q') w') → act_wp (act_bind f g) (leaves P Q') w.
Proof.
  intros Hf Hg. apply act_wp_bind. eapply act_wp_mono; [done|]. intros [x|x] w' (Hp & Hne & HQ); [by apply Hg|].
  split_and!; [done|by intros [= ->]|done].
Qed.

(** A save that succeeds. *)
Lemma Save_wp k b a i c w : inv k b a i c w → act_wp Save (leaves (inv k b a i c) (λ _ w', inv k true a i c w' ∧ synced w' ∧ rw_mem w' = rw_mem w ∧ rw_ledger w' = rw_mem w)) w.
Proof.
  intros ((kl & Hb & Hw) & Hr). unfold act_wp, Save. destruct (env_Save (rw_env w)) as [[x|] v]; simpl.
  - split_and!; [|done..]. split; [|done]. by exists kl.
  - split_and!; [|done| |split|done..]; try done; (split; [|done]); exists k; (split; [done|]); by eapply wok_save.
Qed.

(** The inventory, the requests made for it, the records and the identity. *)
Definition plan (w : RecoveryWorld W) : list InventoryEvent * list string * gmap string Event * Declared :=
  (Observed (rw_mem w), DeletionIDs (rw_mem w), Records (rw_mem w), st_declared (rw_mem w)).

(** A record off the queue. *)
Lemma pop_wp k b a i c id ev w : inv k b a i c w → head (Pending (rw_mem w)) = Some id → Records (rw_mem w) !! id = Some ev →
  (ev_Kind ev = KindDeletion → cleaned normalize e (rw_mem w) id) →
  act_wp (do! _ := update pop_pending in Save) (leaves (inv k b a i c) (λ _ w', synced w' ∧ plan w' = plan w ∧ Pending (rw_mem w') = tail (Pending (rw_mem w)))) w.
Proof.
  intros ((kl & Hb & Hw) & Ha & Hi & Hc) Hh Hev Hcl. apply act_wp_bind, act_wp_write. set (w1 := mkRecoveryWorld _ _ _ _).
  assert (Hw1 : inv k b a i c w1).
  { split_and!; [|done..|].
    - exists kl. split; [done|]. eapply wok_mem; [done| |apply Hw|done|by left]. eapply (ok_pop normalize e Hop k (rw_mem w)); [apply Hw|done..].
    - intros Hc' item Hin. destruct (Hc Hc' item Hin) as (id' & dv & Hdv & Hd & Hn & Hcl'). exists id', dv. split_and!; try done.
      intros Hin'. apply Hn. change (Pending (rw_mem w1)) with (tail (Pending (rw_mem w))) in Hin'. destruct (Pending (rw_mem w)); [done|]. by right. }
  eapply act_wp_mono; [by apply Save_wp|]. intros r w' (Hp & Hne & Hr). split_and!; [done..|]. destruct r; [|done]. destruct Hr as (_ & Hs & Hm & _). unfold plan. by rewrite Hm.
Qed.

(** Publishing a deletion: the outcomes are kept, also of a failed attempt. *)
Lemma publish_deletion_wp k b a i c id ev w : inv k b a i c w → head (Pending (rw_mem w)) = Some id → Records (rw_mem w) !! id = Some ev →
  ev_Kind ev = KindDeletion → CheckID ev = true → VerifySignature ev = true → names_observed e (rw_mem w) ev →
  act_wp (do! outcomes := call (env_PublishDeletion ev) (ODeleted ev) in
    do! _ := update (set_cleanup id outcomes) in
    do! _ := Save in
    check (completeCleanup normalize outcomes (en_CleanupRelays e) "ok") (ERecoveryIncomplete "deletion"))
  (leaves (inv k b a i c) (λ _ w', plan w' = plan w ∧ Pending (rw_mem w') = Pending (rw_mem w) ∧ Records (rw_mem w') = Records (rw_mem w) ∧ cleaned normalize e (rw_mem w') id)) w.
Proof.
  intros ((kl & Hb & Hw) & Ha & Hi & Hc) Hh Hev Hk Hck Hvs Hn. apply act_wp_bind. unfold act_wp at 1, call. destruct (env_PublishDeletion ev (rw_env w)) as [outcomes v]. simpl.
  assert (Hpen : id ∈ Pending (rw_mem w)) by (destruct (Pending (rw_mem w)); [done|]; injection Hh as ->; by left).
  apply act_wp_bind, act_wp_write. simpl. set (w1 := mkRecoveryWorld _ _ _ _).
  assert (H7 : (7 ≤ k)%nat).
  { destruct (decide (7 ≤ k)%nat); [done|]. pose proof (ok_kinds _ _ _ _ (wo_mem _ _ _ _ _ _ _ Hw) _ _ Hev Hk) as Hin.
    rewrite (ok_early _ _ _ _ (wo_mem _ _ _ _ _ _ _ Hw)) in Hin by lia. by apply elem_of_nil in Hin. }
  assert (Hw1 : inv k b a i c w1).
  { split_and!; [|done..|].
    - exists kl. split; [done|]. eapply (wok_mem normalize e k kl k _ (rw_mem w)); [|apply ok_cleanup; [done|apply Hw]|apply Hw|done|by left].
      by eapply (wok_delete normalize e k kl _ _ _ _ ev).
    - intros Hc' item Hin. destruct (Hc Hc' item Hin) as (id' & dv & Hdv & Hd & Hn' & o & Ho & Hok). exists id', dv. split_and!; try done.
      exists o. split; [|done]. simpl. rewrite lookup_insert_ne; [done|]. by intros ->. }
  eapply wp_then; [by apply (Save_wp _ _ _ _ _ w1)|]. intros [] w' Hw' (_ & _ & Hm & _). unfold check.
  destruct (completeCleanup _ _ _ _) eqn:Ec; (split_and!; [done..|]); [|done]. simpl. unfold plan. rewrite Hm. split_and!; [done..|].
  exists outcomes. split; [|done]. apply lookup_insert_eq.
Qed.

(** An activation waits for its gate; the reads are then the last calls. *)
Lemma gate_wp k b a i c ev w : inv k b a i c w → act_wp (if String.eqb (tag ev "t") TopicTrustEpoch then activation_gate e ev else act_ret tt)
  (leaves (inv k b a i c) (λ _ w', (∃ l, reads w w' l) ∧ (tag ev "t" = TopicTrustEpoch → ∃ pre l, rw_log w' = pre ++ l ∧ activation_read e ev l))) w.
Proof.
  intros Hw. destruct (String.eqb_spec (tag ev "t") TopicTrustEpoch) as [Ht|Ht].
  - eapply act_wp_mono; [apply activation_gate_wp|]. intros r w' (l & Hr & Hx & Hg). split_and!; [by eapply inv_reads|done|].
    destruct r as [[]|]; [|done]. split; [by exists l|]. intros _. destruct Hr as (_ & -> & _). exists (rw_log w), l. split; [done|by apply Hg].
  - apply act_wp_ret. split; [done|]. split; [done|]. split; [|done]. exists []. by apply reads_refl.
Qed.

Lemma publish_record_wp k b a i c ev w : inv k b a i c w → operator_record e ev →
  (tag ev "t" = TopicTrustEpoch → trust_in (rw_ledger w) ∧ ∃ pre l, rw_log w = pre ++ l ∧ activation_read e ev l) →
  act_wp (do! err := call (env_Publish ev) (OPublished ev) in unless "publish" err) (leaves (inv k b a i c) (λ _ w', rw_mem w' = rw_mem w)) w.
Proof.
  intros ((kl & Hb & Hw) & Hr) Ho Ht. apply act_wp_bind. unfold act_wp at 1, call. destruct (env_Publish ev (rw_env w)) as [err v]. simpl.
  set (w1 := mkRecoveryWorld _ _ _ _).
  assert (Hw1 : inv k b a i c w1) by (split; [|done]; exists kl; split; [done|]; by apply wok_publish).
  unfold unless. by destruct err.
Qed.

(** One round of the loop. *)
Lemma publish_first_wp k b a i c id w : inv k b a i c w → synced w → head (Pending (rw_mem w)) = Some id →
  act_wp (publish_first normalize e id) (leaves (inv k b a i c) (λ _ w', synced w' ∧ plan w' = plan w ∧ Pending (rw_mem w') = tail (Pending (rw_mem w)))) w.
Proof.
  intros Hw Hs Hh. unfold publish_first. apply act_wp_bind, act_wp_read. destruct (Records (rw_mem w) !! id) as [ev|] eqn:Hev; [|done].
  apply act_wp_bind, act_wp_read. destruct (validatePending e (rw_mem w) id ev) as [[]|x] eqn:Hv;
    [|split_and!; [done| |done]; intros [= ->]; by apply validatePending_error in Hv].
  apply validatePending_ok in Hv as (_ & Hck & Hvs & Hv).
  eapply wp_then; [by apply gate_wp|]. intros [] w1 Hw1 [[l Hr] Hgate]. pose proof (synced_reads _ _ _ Hr Hs) as Hs1.
  destruct Hr as (_ & _ & _ & cutv & Hm). destruct (ev_Kind ev =? KindDeletion) eqn:Ek.
  - apply Z.eqb_eq in Ek. eapply wp_then; [by apply (publish_deletion_wp k b a i c id ev w1); rewrite ?Hm|].
    intros [] w2 Hw2 (Hpl & Hp & Hrec & Hcl). assert (Hplan : plan w = plan w2) by (rewrite Hpl; unfold plan; by rewrite Hm). rewrite Hplan. rewrite Hm in *. change (Pending (set_cut cutv (rw_mem w))) with (Pending (rw_mem w)) in Hp.
    change (Records (set_cut cutv (rw_mem w))) with (Records (rw_mem w)) in Hrec. rewrite <- Hp. by apply (pop_wp k b a i c id ev); rewrite ?Hp, ?Hrec.
  - assert (Htr : tag ev "t" = TopicTrustEpoch → trust_in (rw_ledger w1)).
    { intros Ht. apply (synced_trust _ Hs1). exists id, ev. by rewrite Hm. }
    eapply wp_then; [apply (publish_record_wp k b a i c ev w1); [done|done|]; intros Ht; split; [by apply Htr|by apply Hgate]|].
    intros [] w2 Hw2 Hm2. rewrite Hm in Hm2. assert (Hplan : plan w = plan w2) by (unfold plan; by rewrite Hm2). rewrite Hplan.
    replace (Pending (rw_mem w)) with (Pending (rw_mem w2)) by by rewrite Hm2.
    apply (pop_wp k b a i c id ev); [done|by rewrite Hm2..|]. intros Hk. by rewrite Hk in Ek.
Qed.

(** The queue is empty after as many rounds as it had records. *)
Lemma publish_loop_wp k b a i c n w : inv k b a i c w → synced w → (length (Pending (rw_mem w)) ≤ n)%nat →
  act_wp (publish_loop normalize e n) (leaves (inv k b a i c) (λ _ w', synced w' ∧ plan w' = plan w ∧ Pending (rw_mem w') = [])) w.
Proof.
  revert w. induction n as [|n IH]; intros w Hw Hs Hn; simpl; apply act_wp_bind, act_wp_read.
  - destruct (Pending (rw_mem w)) eqn:Hp; [|simpl in Hn; lia]. done.
  - destruct (Pending (rw_mem w)) as [|id queue] eqn:Hp; [done|].
    eapply wp_then; [apply (publish_first_wp k b a i c); [done|done|by rewrite Hp]|]. intros [] w' Hw' (Hs' & Hpl & Hp'). rewrite <- Hpl. apply IH; [done|done|].
    rewrite Hp', Hp. simpl in *. lia.
Qed.

Lemma publishPending_wp k b a i c w : inv k b a i c w → synced w →
  act_wp (publishPending normalize e) (leaves (inv k b a i c) (λ _ w', synced w' ∧ plan w' = plan w ∧ Pending (rw_mem w') = [])) w.
Proof. intros Hw Hs. apply act_wp_bind, act_wp_read. by apply publish_loop_wp. Qed.
End publish.

(** * Signing in identity recovery

    A record gets a time after all others, is signed by the operator, is in the
    ledger before it is published, and is published last. *)

Section sign.
Context `{NostrLaws} `{RecoveryJSONLaws} {W : Type} `{RecoveryEnvLaws W} (normalize : string → string) (e : Engine).
Context (Hop : PubKeyFromHex (hex (en_OperatorPubkey e)) = Some (en_OperatorPubkey e)).

Abbreviation inv := (inv (W := W) normalize e).

(** A time after every record, also after an earlier use of the clock. *)
Lemma nextTimestamp_wp k b a i c w : inv k b a i c w →
  act_wp (nextTimestamp (W := W)) (leaves (inv k b a i c) (λ n w', rw_mem w' = at_time n (rw_mem w) ∧ older n (rw_mem w') ∧ rw_ledger w' = rw_ledger w)) w.
Proof.
  intros ((kl & Hb & Hw) & Ha & Hi & Hc). unfold nextTimestamp. apply act_wp_bind. unfold act_wp at 1, ask. destruct (env_Clock (rw_env w)) as [now v]. simpl.
  apply act_wp_bind, act_wp_read, act_wp_bind, act_wp_write, act_wp_ret. simpl. set (n := if now <=? _ then _ else _).
  assert (Hn : st_LastTimestamp (st_signed (rw_mem w)) < n) by (unfold n; destruct (Z.leb_spec now (st_LastTimestamp (st_signed (rw_mem w)))); lia).
  split; [|split; [done|split_and!; [done| |done]; by eapply (ok_older normalize e k); [|apply Hw]]].
  split_and!; [|done..]. exists kl. split; [done|]. eapply wok_mem; [done| |apply Hw|done|by left]. apply ok_time; [simpl; lia|apply Hw].
Qed.

Lemma leaves_mono {A} (P P' : RecoveryWorld W → Prop) (Q Q' : A → RecoveryWorld W → Prop) f w : act_wp f (leaves P Q) w →
  (∀ w', P w' → P' w') → (∀ x w', P w' → Q x w' → Q' x w') → act_wp f (leaves P' Q') w.
Proof. intros Hf HP HQ. eapply act_wp_mono; [done|]. intros r w' (Hp & Hr & Hq). split_and!; [auto|done|]. destruct r; auto. Qed.

Lemma call_wp {A} k b a i c (f : W → A * W) outcall w : (∀ x, plain (outcall x)) → inv k b a i c w →
  act_wp (call f outcall) (leaves (inv k b a i c) (λ x w', rw_mem w' = rw_mem w ∧ rw_ledger w' = rw_ledger w ∧ ∃ v, f (rw_env w) = (x, v))) w.
Proof.
  intros Hp Hw. pose proof (keeps_call normalize e f outcall Hp w Hw) as Hk. unfold act_wp, call in *. destruct (f (rw_env w)) as [x v]. simpl in *.
  split; [apply Hk|]. split; [done|]. by split_and!; [..|exists v].
Qed.

(** Whether the count in the ledger can be behind after this entry. *)
Definition behind (x : entry) : bool := match x with EReceipt _ true => true | _ => false end.

(** A signed record in memory. *)
Lemma add_record_inv k a c ev x w : inv k true a true c w → signed_event ev → older (ev_CreatedAt ev) (rw_mem w) →
  ev_CreatedAt ev ≤ st_LastTimestamp (st_signed (rw_mem w)) → describes e (rw_mem w) ev x → in_turn k x → (x = ETrust → a = false) →
  ((8 ≤ count_after k x)%nat → (8 ≤ k)%nat ∨ c = true) → ev_Kind ev ≠ KindDeletion →
  inv (count_after k x) (negb (behind x)) a true c (mkRecoveryWorld (rw_env w) (rw_ledger w) (add_record ev (rw_mem w)) (rw_log w)).
Proof.
  intros ((kl & Hb & Hw) & Ha & Hi & Hc) Hs Ho Ht Hd Hx Htr Hcov Hk. rewrite (Hb eq_refl) in *.
  pose proof (wo_mem _ _ _ _ _ _ _ Hw) as Hok. pose proof (fresh_record _ _ _ _ _ Hok Hs Ho) as Hf. split_and!; try done.
  - exists k. split; [by destruct x as [p []| |]|]. eapply wok_mem; [done| | | |by left].
    + apply ok_add; try done; [by apply Hi|by intros ->%Htr|]. intros H8. destruct (Hcov H8) as [Hk8|Hct]; [by eapply ok_covered|by apply Hc].
    + destruct x as [p []| |]; simpl; auto.
    + intros Htin. apply trust_add; [done|]. by left.
  - intros Hct. apply (covered_add normalize e Hop (rw_mem w) ev Hf (Hc Hct)).
Qed.

Definition either (k : nat) (x : entry) (a c : bool) (w : RecoveryWorld W) : Prop :=
  inv k true a true c w ∨ inv (count_after k x) (negb (behind x)) a true c w.

(** A record signed, saved and published. *)
Lemma record_wp k a c topic d schema family extra body x w : inv k true a true c w → in_turn k x → (x = ETrust → a = false) →
  ((8 ≤ count_after k x)%nat → (8 ≤ k)%nat ∨ c = true) →
  (∀ ev, CheckID ev = true → VerifySignature ev = true → ev_Kind ev = kindCPState → ev_PubKey ev = en_OperatorPubkey e →
    ev_Tags ev = record_tags topic d schema family extra → ev_Content ev = encode_body body → describes e (rw_mem w) ev x) →
  act_wp (record normalize e topic d schema family extra body)
    (leaves (either k x a c) (λ _ w', inv (count_after k x) true a true c w' ∧ synced w' ∧ Pending (rw_mem w') = [] ∧
      (x ≠ ETrust → trust_in (rw_mem w') → trust_in (rw_mem w)))) w.
Proof.
  intros Hw Hx Htr Hcov Hd. unfold record.
  eapply wp_then; [eapply leaves_mono; [by eapply nextTimestamp_wp|by left|]; intros n w1 Hw1 HQ; exact (conj Hw1 HQ)|].
  intros n w1 _ (Hw1 & Hm1 & Ho & Hl1). cbv beta. set (ev0 := unsigned_event _ _ _ _).
  eapply wp_then; [eapply leaves_mono; [by apply call_wp|by left|]; intros r w2 Hw2 HQ; exact (conj Hw2 HQ)|].
  intros answer w2 _ (Hw2 & Hm2 & Hl2 & v & Hsign). destruct answer as [ev|err]; simpl; [|apply act_wp_bind, act_wp_fail; split_and!; [by left|done..]].
  apply act_wp_bind, act_wp_ret, act_wp_bind. destruct (operator_signs _ _ _ _ Hsign) as (Hwf & Ht & Hk & Htags & Hcont).
  destruct (CheckID ev) eqn:Hck; [|split_and!; [by left|done..]]. destruct (VerifySignature ev) eqn:Hvs; [|split_and!; [by left|done..]].
  destruct (String.eqb_spec (ev_PubKey ev) (en_OperatorPubkey e)) as [Hpk|]; [|split_and!; [by left|done..]]. apply act_wp_ret, act_wp_bind, act_wp_write.
  set (w3 := mkRecoveryWorld _ _ _ _).
  assert (Hw3 : inv (count_after k x) (negb (behind x)) a true c w3).
  { apply add_record_inv; rewrite ?Hm2; try done.
    - by rewrite Ht.
    - rewrite Ht, Hm1. simpl. lia.
    - rewrite Hm1. apply (describes_frame e (rw_mem w)); [done|]. by apply Hd.
    - by rewrite Hk. }
  eapply wp_then; [eapply leaves_mono; [exact (Save_wp normalize e _ _ _ _ _ w3 Hw3)|by right|]; intros u w4 _ HQ; exact HQ|].
  intros [] w4 _ (Hw4 & Hs4 & Hm4 & _). eapply leaves_mono; [exact (publishPending_wp normalize e Hop _ _ _ _ _ w4 Hw4 Hs4)| |].
  - intros w5 Hw5. right. destruct Hw5 as ((kl & Hb & Hw5) & Hr). split; [|done]. exists kl. split; [|done]. intros _. by apply Hb.
  - intros [] w5 Hw5 (Hs5 & Hpl & Hp5). split_and!; [done..|]. intros Hne. injection Hpl as _ _ Hrec _. rewrite Hm4 in Hrec.
    unfold trust_in at 1. rewrite Hrec. intros Htin. simpl in Htin. rewrite Hm2, Hm1 in Htin.
    destruct (trust_add_inv _ _ Htin) as [|Htt]; [done|]. destruct Hne. apply (describes_trust e (rw_mem w) ev); [by apply Hd|done].
Qed.

Lemma ask_wp {A} k b a i c (f : W → A * W) w : inv k b a i c w →
  act_wp (ask f) (leaves (inv k b a i c) (λ x w', rw_mem w' = rw_mem w ∧ rw_ledger w' = rw_ledger w ∧ ∃ v, f (rw_env w) = (x, v))) w.
Proof.
  intros Hw. pose proof (keeps_ask normalize e f w Hw) as Hk. unfold act_wp, ask in *. destruct (f (rw_env w)) as [x v]. simpl in *.
  split; [apply Hk|]. split; [done|]. by split_and!; [..|exists v].
Qed.

(** A receipt of the next phase. *)
Lemma receipt_wp k a c p status evidence w : inv k true a true c w → Phases !! k = Some p → ascii_text status = true →
  let x := EReceipt p (String.eqb status "completed") in
  ((8 ≤ count_after k x)%nat → (8 ≤ k)%nat ∨ c = true) →
  act_wp (receipt normalize e p status evidence)
    (leaves (either k x a c) (λ _ w', inv (count_after k x) true a true c w' ∧ synced w' ∧ Pending (rw_mem w') = [])) w.
Proof.
  intros Hw Hp Hst x Hcov. unfold receipt. apply act_wp_bind. unfold check. destruct (safeEvidence evidence); [|split_and!; [by left|done..]].
  apply act_wp_ret, act_wp_bind, act_wp_read. eapply wp_then; [eapply leaves_mono; [exact (ask_wp _ _ _ _ _ _ _ Hw)|by left|]; intros u w1 Hw1 HQ; exact (conj Hw1 HQ)|].
  intros now w1 _ (Hw1 & Hm & _). eapply leaves_mono; [apply (record_wp k a c _ _ _ _ _ _ x); [done..|]|done|by intros [] w' _ (? & ? & ? & _)]. rewrite Hm.
  intros ev Hck Hvs Hk Hpk Ht Hc. split_and!; [by eapply list_elem_of_lookup_2| |].
  - unfold is_receipt, validRecord, tag. rewrite Ht, Hck, Hvs, Hk, Hpk. cbn -[receipt_d st_IncidentID]. by rewrite !String.eqb_refl.
  - destruct (decode_receipt_own (receipt_body normalize (rw_mem w) p status evidence now)) as (r & Hr & Hi & Hph & Hs);
      [|done|by eapply list_elem_of_lookup_2|].
    + destruct Hw as ((kl & _ & Hw) & _). apply (ok_text _ _ _ _ (wo_mem _ _ _ _ _ _ _ Hw)).
    + exists r. rewrite Hc. split_and!; [done..|]. by rewrite Hs.
Qed.

Lemma incident_wp k a c p aborted w : inv k true a true c w →
  act_wp (incident normalize e p aborted) (leaves (inv k true a true c) (λ _ w', synced w' ∧ Pending (rw_mem w') = [] ∧ (trust_in (rw_mem w') → trust_in (rw_mem w)))) w.
Proof.
  intros Hw. unfold incident. apply act_wp_bind, act_wp_read.
  eapply leaves_mono; [eapply (record_wp k a c _ _ _ _ _ _ EOther w Hw); [done|done|by left|]| |].
  - intros ev _ _ _ _ Ht Hc. unfold describes, tag. rewrite Ht. split_and!; [done..|]. intros r. rewrite Hc. by intros ->%decode_receipt_incident.
  - by intros w' [|].
  - intros [] w' _ (_ & Hs & Hp & Ht). split_and!; [done..|]. by apply Ht.
Qed.

(** A receipt that does not complete the phase. *)
Lemma note_wp k a c p status evidence w : inv k true a true c w → Phases !! k = Some p → ascii_text status = true → String.eqb status "completed" = false →
  act_wp (receipt normalize e p status evidence) (leaves (inv k true a true c) (λ _ w', synced w' ∧ Pending (rw_mem w') = [])) w.
Proof.
  intros Hw Hp Hst Hs. pose proof (receipt_wp k a c p status evidence w Hw Hp Hst) as Hr. rewrite Hs in Hr. eapply leaves_mono; [apply Hr; by left| |].
  - by intros w' [|].
  - intros [] w' _ (_ & Hsy & Hpe). done.
Qed.
End sign.
