(* ===== verification/RecoveryEngine.v ===== *)
(** * The phases of identity recovery

    Each phase keeps the invariant whatever it is answered; the deletion phase
    succeeds only with a request for every event of the inventory accepted by
    every cleanup relay. *)

From Stdlib Require Import ZArith Lia Bool Ascii.
From stdpp Require Import base tactics decidable option list numbers strings gmap fin_maps sorting.
From S2P Require Import Prelude Action Bytes Nostr EventID EventIDFacts OutboxData TrustEpoch Saga Inbound DeletionGuard Recovery RecoveryInv RecoveryRun.

Section phases.
Context `{NostrLaws} `{RecoveryJSONLaws} {W : Type} `{RecoveryEnvLaws W} (normalize : string → string) (e : Engine).
Context (Hop : PubKeyFromHex (hex (en_OperatorPubkey e)) = Some (en_OperatorPubkey e)).

Abbreviation inv := (inv (W := W) normalize e).
Abbreviation keeps := (keeps (W := W)).

(** ** Phases that only ask *)

Lemma keeps_leaves {A} P (f : act (RecoveryWorld W) RecoveryError A) w : keeps P f → P w → act_wp f (leaves P (λ _, P)) w.
Proof. intros Hf Hw. eapply act_wp_mono; [by apply Hf|]. intros r w' [Hp Hr]. split_and!; [done..|]. by destruct r. Qed.
Lemma leaves_keeps {A} P (Q : A → RecoveryWorld W → Prop) (f : act (RecoveryWorld W) RecoveryError A) : (∀ w, P w → act_wp f (leaves P Q) w) → keeps P f.
Proof. intros Hf w Hw. eapply act_wp_mono; [by apply Hf|]. intros r w' (Hp & Hr & _). done. Qed.

Section kept.
Context {k : nat} {b a i c : bool}.
Abbreviation I := (inv k b a i c).

Lemma keeps_epochHead : keeps I (epochHead e).
Proof. intros w Hw. eapply act_wp_mono; [apply epochHead_wp|]. intros r w' (l & Hr & _ & Hx & _). split; [by eapply inv_reads|done]. Qed.
Lemma keeps_cutoverReadiness epoch pub : keeps I (cutoverReadiness e epoch pub).
Proof. intros w Hw. eapply act_wp_mono; [apply cutoverReadiness_wp|]. intros r w' (l & Hr & Hx & _). split; [by eapply inv_reads|done]. Qed.
Lemma keeps_attempt {A} (f : act (RecoveryWorld W) RecoveryError A) : keeps I f → keeps I (act_try f).
Proof. intros Hf w Hw. eapply act_wp_mono; [by apply (keeps_try I f Hf)|]. intros r w' [Hp Hr]. split; [done|apply Hr]. Qed.
Lemma keeps_each_domain step names : (∀ name, keeps I (step name)) → keeps I (each_domain step names).
Proof. intros Hs. induction names as [|name names IH]; simpl; keep; [apply Hs|apply IH]. Qed.

Lemma keeps_provision : keeps I (provision e).
Proof. unfold provision. keep. Qed.
Lemma keeps_reassert : keeps I (reassert e).
Proof. unfold reassert, requireDomains. keep. apply keeps_each_domain. intros name. unfold reassert_domain. keep. Qed.
Lemma keeps_rotate : keeps I (rotate e).
Proof. unfold rotate. keep. Qed.
Lemma keeps_requireNotification evidence : keeps I (requireNotificationReencryption e evidence).
Proof. unfold requireNotificationReencryption. keep. Qed.
Lemma keeps_verify : keeps I (verify e).
Proof. unfold verify, requireDomains. keep; [apply keeps_epochHead|]. apply keeps_each_domain. intros name. unfold verify_domain. keep. Qed.
Lemma keeps_retire : keeps I (retire normalize e).
Proof. unfold retire. keep. apply keeps_requireNotification. Qed.
Lemma keeps_validate : keeps I (validate e).
Proof. unfold validate. keep. Qed.
End kept.

(** ** The inventory, before anything rests on it *)

Lemma keeps_inventoried {k b a i} f : (k ≤ 2)%nat → (∀ s, st_declared (f s) = st_declared s ∧ st_signed (f s) = st_signed s ∧ st_Aborted (f s) = st_Aborted s ∧
  st_deletions (f s) = st_deletions s) → keeps (inv k b a i false) (update f).
Proof.
  intros Hk Hf w ((kl & Hb & Hw) & Ha & Hi & Hc). unfold act_wp, update, act_write. simpl. split; [|done].
  destruct (Hf (rw_mem w)) as (Hd & Hs & Hab & Hdel). split_and!.
  - exists kl. split; [done|]. eapply wok_mem; [done| |apply Hw| |by right].
    + eapply (ok_frame normalize e k (rw_mem w)); [done..|by right|apply Hw].
    + unfold trust_in, Records. simpl. by rewrite Hs.
  - simpl. by rewrite Hab.
  - unfold identified, st_IncidentID. simpl. by rewrite Hd.
  - done.
Qed.

Lemma keeps_scanned {k b a i} what r : (k ≤ 2)%nat → keeps (inv k b a i false) (scanned what r).
Proof. intros Hk. unfold scanned. apply keeps_bind; [by apply keeps_inventoried|]. intros []. keep. Qed.

Ltac keep_inventory := repeat (first [by apply keeps_inventoried | by apply keeps_scanned | keep_step]; cbv beta).

Lemma keeps_inventory_read {k b a i} ids : (k ≤ 2)%nat → keeps (inv k b a i false) (inventory_read normalize e ids).
Proof. intros Hk. unfold inventory_read. keep_inventory. Qed.

Lemma keeps_inventory {k b a i} : (k ≤ 2)%nat → keeps (inv k b a i false) (inventory normalize e).
Proof. intros Hk. unfold inventory. keep_inventory. by apply keeps_inventory_read. Qed.

(** ** The cut *)

Lemma keeps_cut_record {k c} d schema family extra t : (k ≤ 7)%nat → keeps (inv k true false true c) (record normalize e TopicTrustEpoch d schema family extra (BTrust t)).
Proof.
  intros Hk. apply (leaves_keeps _ (λ _ _, True)). intros w Hw. eapply leaves_mono; [eapply (record_wp normalize e Hop k false c _ _ _ _ _ _ ETrust w Hw)| |]; [done|done|simpl; lia| |by intros w' [|]|].
  - intros ev _ _ _ _ Ht Hc. unfold describes, tag. rewrite Ht. split; [done|]. intros r. rewrite Hc. by intros ->%decode_receipt_trust.
  - done.
Qed.

Lemma keeps_cut {k c} : (k ≤ 7)%nat → keeps (inv k true false true c) (cut normalize e).
Proof.
  intros Hk. unfold cut.
  repeat (first [apply keeps_epochHead | apply keeps_cutoverReadiness | by apply keeps_cut_record | apply keeps_attempt, keeps_Save | keep_step]; cbv beta).
Qed.

(** ** Deletion *)

Lemma quarantine_targets_of observed targets targets' : quarantine_targets observed targets = Some targets' → targets_of observed targets = Some targets'.
Proof. revert targets. induction observed as [|item observed IH]; intros targets; simpl; [done|]. repeat case_match; try done. apply IH. Qed.

(** A permitted request has no topic. *)
Lemma permitted_topic ev author targets allowed : permitted ev author targets allowed → tag ev "t" = "".
Proof.
  intros Hp. apply pm_tags in Hp. unfold tag. induction Hp as [|t tags [_ [(id & kind & -> & _)|(n & -> & _)]] _ IH]; simpl; done.
Qed.

(** The next request of the old key. *)
Lemma SignDeletion_wp targets n w items : inv 7 true false true false w → targets_of (Observed (rw_mem w)) ∅ = Some targets →
  act_wp (SignDeletion e targets (deletion_event e n items))
    (leaves (inv 7 true false true false) (λ ev w', rw_mem w' = rw_mem w ∧ signed_event ev ∧ ev_CreatedAt ev = n ∧ permitted ev (en_OldPubkey e) targets None ∧ deletes e ev items)) w.
Proof.
  intros Hw Ht. unfold SignDeletion. apply act_wp_bind. unfold guarded at 1. destruct (Check_deletion _ _ _ _) as [[]|] eqn:Ec; [|split_and!; done].
  apply act_wp_ret, act_wp_bind. unfold act_wp at 1, call. destruct (env_OldSign _ (rw_env w)) as [answer v] eqn:Eold. simpl. set (w1 := mkRecoveryWorld _ _ _ _).
  assert (Hw1 : inv 7 true false true false w1).
  { destruct Hw as ((kl & Hb & Hw) & Hr). split; [|done]. exists kl. split; [done|]. eapply (wok_delete normalize e 7 kl _ _ _ _ (deletion_event e n items)); [done|done|done| |lia|done].
    exists targets. split; [done|]. by apply Check_permitted. }
  destruct answer as [ev|x]; [|by split_and!]. apply act_wp_bind, act_wp_ret, act_wp_bind. unfold guarded. destruct (CheckSigned _ _ _ _) as [[]|] eqn:Es; [|by split_and!].
  apply act_wp_ret, act_wp_ret. destruct (old_signs _ _ _ _ Eold) as (Hwf & Hat & Hk & Htags & Hcont). apply CheckSigned_permitted in Es as (Hp & Hck & Hvs).
  split; [done|]. split; [done|]. split_and!; try done. split_and!; [apply Hp|apply Hp|]. intros item Hin. rewrite Htags. apply elem_of_app. left. apply list_elem_of_fmap. by exists item.
Qed.

Lemma add_deletion_inv targets ev w : inv 7 true false true false w → signed_event ev → older (ev_CreatedAt ev) (rw_mem w) →
  ev_CreatedAt ev ≤ st_LastTimestamp (st_signed (rw_mem w)) → permitted ev (en_OldPubkey e) targets None →
  deletes e ev (batch (length (DeletionIDs (rw_mem w))) (Observed (rw_mem w))) →
  inv 7 true false true false (mkRecoveryWorld (rw_env w) (rw_ledger w) (add_deletion ev (rw_mem w)) (rw_log w)).
Proof.
  intros ((kl & Hb & Hw) & Ha & Hi & Hc) Hs Ho Ht Hp Hd. pose proof (wo_mem _ _ _ _ _ _ _ Hw) as Hok.
  pose proof (fresh_record _ _ _ _ _ Hok Hs Ho) as Hf. split_and!; try done. exists kl. split; [done|]. eapply wok_mem; [done| |apply Hw| |by left].
  - apply ok_add_deletion; try done; [|by apply Hi]. pose proof (permitted_topic _ _ _ _ Hp) as Htop. split_and!; [by rewrite Htop..|].
    intros r. by rewrite (pm_content _ _ _ _ Hp), decode_receipt_empty.
  - intros Htin. simpl. change (trust_in (add_deletion ev (rw_mem w))) with (trust_in (add_record ev (rw_mem w))). apply trust_add; [done|]. by left.
Qed.

(** Every batch gets its request; a restart goes on after the last one. *)
Lemma delete_batches_wp n targets start w : inv 7 true false true false w → synced w → targets_of (Observed (rw_mem w)) ∅ = Some targets →
  start = (length (DeletionIDs (rw_mem w)) * MaxBatchSize)%nat → (length (Observed (rw_mem w)) - start ≤ n)%nat →
  act_wp (delete_batches e n targets start) (leaves (inv 7 true false true false)
    (λ _ w', synced w' ∧ (length (Observed (rw_mem w')) ≤ length (DeletionIDs (rw_mem w')) * MaxBatchSize)%nat)) w.
Proof.
  revert start w. induction n as [|n IH]; intros start w Hw Hs Ht Hst Hn; simpl; apply act_wp_bind, act_wp_read; destruct (Nat.ltb_spec start (length (Observed (rw_mem w)))) as [Hlt|Hge];
    [lia|apply act_wp_ret, leaves_ok; [done|by rewrite <- Hst]| |apply act_wp_ret, leaves_ok; [done|by rewrite <- Hst]].
  eapply wp_then; [by apply nextTimestamp_wp|]. intros t w1 Hw1 (Hm1 & Ho & _). cbv beta.
  eapply wp_then; [apply (SignDeletion_wp targets t w1); [done|by rewrite Hm1]|]. intros ev w2 Hw2 (Hm2 & Hsg & Hat & Hp & Hd).
  apply act_wp_bind, act_wp_write. set (w3 := mkRecoveryWorld _ _ _ _).
  assert (Hw3 : inv 7 true false true false w3).
  { apply (add_deletion_inv targets); rewrite ?Hm2; [done|done|by rewrite Hat|rewrite Hat, Hm1; simpl; lia|done|].
    rewrite Hm1. unfold batch. change (DeletionIDs (at_time t (rw_mem w))) with (DeletionIDs (rw_mem w)). by rewrite <- Hst. }
  eapply wp_then; [exact (Save_wp normalize e _ _ _ _ _ w3 Hw3)|]. intros u w4 Hw4 (_ & Hs4 & Hm4 & _).
  assert (Hobs : Observed (rw_mem w4) = Observed (rw_mem w)) by by rewrite Hm4; simpl; rewrite Hm2, Hm1.
  assert (Hids : length (DeletionIDs (rw_mem w4)) = S (length (DeletionIDs (rw_mem w)))).
  { rewrite Hm4. simpl. rewrite Hm2, Hm1. unfold DeletionIDs. simpl. rewrite length_app. simpl. lia. }
  apply IH; rewrite ?Hobs, ?Hids; try done; [by rewrite Hst, Nat.mul_succ_l|]. assert (1 ≤ MaxBatchSize)%nat by (by apply (bool_decide_unpack _)). lia.
Qed.

(** Nothing is left to publish, and the requests reach the end of the inventory. *)
Lemma batches_cover w : inv 7 true false true false w → (length (Observed (rw_mem w)) ≤ length (DeletionIDs (rw_mem w)) * MaxBatchSize)%nat →
  Pending (rw_mem w) = [] → covered normalize e (rw_mem w).
Proof.
  intros ((kl & _ & Hw) & _) Hlen Hpen item [j Hj]%list_elem_of_lookup. pose proof (lookup_lt_Some _ _ _ Hj) as Hlt.
  assert (Hm : (0 < MaxBatchSize)%nat) by (by apply (bool_decide_unpack _)).
  pose proof (Nat.div_mod_eq j MaxBatchSize) as Hdm. pose proof (Nat.mod_upper_bound j MaxBatchSize ltac:(lia)) as Hmod.
  destruct (lookup_lt_is_Some_2 (DeletionIDs (rw_mem w)) (j / MaxBatchSize)%nat) as [id Hid]; [apply Nat.Div0.div_lt_upper_bound; lia|].
  destruct (ok_deletions _ _ _ _ (wo_mem _ _ _ _ _ _ _ Hw) _ _ Hid) as (ev & Hev & (Hk & Ha & Hd) & Hcl). rewrite Hpen in Hcl.
  exists id, ev. rewrite Hpen. split_and!; [done| |by apply not_elem_of_nil|by apply Hcl, not_elem_of_nil]. split_and!; [done..|].
  intros item' ->%list_elem_of_singleton. apply Hd. unfold batch. apply elem_of_take. exists (j mod MaxBatchSize)%nat. split; [|lia].
  rewrite lookup_drop. rewrite <- Hj. f_equal. lia.
Qed.

(** What does not depend on the outside. *)
Definition calm (P : RecoveryWorld W → Prop) : Prop := ∀ w v, P w → P (mkRecoveryWorld v (rw_ledger w) (rw_mem w) (rw_log w)).
Lemma keeps_ask_calm {A} P (f : W → A * W) : calm P → keeps P (ask f).
Proof. intros Hc w Hw. unfold act_wp, ask. destruct (f (rw_env w)) as [x v]. split; [by apply Hc|done]. Qed.
Lemma keeps_then {A B} (P P' : RecoveryWorld W → Prop) (Q : B → RecoveryWorld W → Prop) (f : act (RecoveryWorld W) RecoveryError A) g w :
  keeps P f → P w → (∀ w', P w' → P' w') → (∀ x w', P w' → act_wp (g x) (leaves P' Q) w') → act_wp (act_bind f g) (leaves P' Q) w.
Proof. intros Hf Hw HP Hg. eapply wp_then; [eapply leaves_mono; [by apply keeps_leaves|done|]; intros x w' _ Hw'; exact Hw'|]. intros x w' _ Hw'. by apply Hg. Qed.

Definition J (w : RecoveryWorld W) : Prop := inv 7 true false true false w ∧ synced w.
Lemma calm_J : calm J.
Proof. by intros w v [? ?]. Qed.

Ltac keep_calm := repeat (first [apply keeps_ask_calm, calm_J | keep_step]; cbv beta).

(** What the deletion phase reads before it signs. *)
Lemma NewQuarantined_wp w : J w → act_wp (NewQuarantinedOldSigner e) (leaves J (λ targets w', targets_of (Observed (rw_mem w')) ∅ = Some targets)) w.
Proof.
  intros Hw. unfold NewQuarantinedOldSigner. do 4 (eapply (keeps_then J); [by keep_calm|done|done|]; clear w Hw; intros ? w Hw).
  apply act_wp_bind, act_wp_read. destruct (quarantine_targets _ _) as [targets|] eqn:Eq; [|by split_and!].
  apply act_wp_ret, leaves_ok; [done|]. by apply quarantine_targets_of.
Qed.

Lemma deleteAndPurge_wp w : J w → act_wp (deleteAndPurge normalize e) (leaves (inv 7 true false true false) (λ _, inv 7 true false true true)) w.
Proof.
  intros Hw. unfold deleteAndPurge.
  eapply (keeps_then J); [unfold requireNotificationReencryption; by keep_calm|done|by intros w' [? _]|]. clear w Hw; intros ? w Hw.
  do 4 (eapply (keeps_then J); [by keep_calm|done|by intros w' [? _]|]; clear w Hw; intros ? w Hw).
  eapply wp_then; [eapply leaves_mono; [by apply NewQuarantined_wp|by intros w' [? _]|]; intros t w' HJ HQ; exact (conj HJ HQ)|].
  clear w Hw. intros targets w _ [[Hw Hs] Ht]. apply act_wp_bind, act_wp_read.
  eapply wp_then; [by apply delete_batches_wp; [..|lia]|]. clear w Hw Hs Ht. intros _ w Hw [Hs Hlen].
  eapply wp_then; [by apply publishPending_wp|]. intros _ w1 Hw1 (_ & Hpl & Hpen).
  assert (Hw2 : inv 7 true false true true w1).
  { destruct Hw1 as (Hw1 & Ha & Hi & Hc). split_and!; try done. intros _. apply batches_cover; [done| |done]. injection Hpl as -> -> _ _. done. }
  apply act_wp_bind, act_wp_read. eapply leaves_mono; [apply (keeps_leaves (inv 7 true false true true)); [keep|done]| |].
  - intros w' (Hw' & Ha & Hi & _). by split_and!.
  - by intros u w' _ Hw'.
Qed.
End phases.

(** * Applying and aborting a recovery

    [Apply] and [Abort] keep the invariant of the ledger and of the calls from
    any ledger that has it, and when [Apply] returns nil its phase is completed in
    the ledger. *)

Section engine.
Context `{NostrLaws} `{RecoveryJSONLaws} {W : Type} `{RecoveryEnvLaws W} (normalize : string → string) (e : Engine).
Context (Hop : PubKeyFromHex (hex (en_OperatorPubkey e)) = Some (en_OperatorPubkey e)).

Abbreviation inv := (inv (W := W) normalize e).

(** ** What the records say *)

Lemma completed_phases k s pub queue es : history e k s pub queue es → completed es = take k Phases.
Proof. intros Hh. rewrite (phased_completed _ (hi_phased _ _ _ _ _ _ Hh)). by rewrite (hi_completed _ _ _ _ _ _ Hh). Qed.

(** A phase is on record only after the ones before it. *)
Lemma Receipt_of_phase k s p : ok normalize e k s → p ∈ Phases → is_Some (Receipt_of s p) → p ∈ take k Phases.
Proof.
  intros [_ (pub & queue & es & Hh) _ _ _ _ _] Hp Hr. apply (Receipt_of_completed e Hop Hh p Hp) in Hr. rewrite <- (completed_phases _ _ _ _ _ Hh).
  rewrite <- (take_drop (length pub) es), completed_app. apply elem_of_app. by left.
Qed.
(** With nothing pending every completed phase is on record. *)
Lemma phase_Receipt_of k s p : ok normalize e k s → Pending s = [] → p ∈ take k Phases → is_Some (Receipt_of s p).
Proof.
  intros [_ (pub & queue & es & Hh) _ _ _ _ _] Hpen Hp. pose proof (hi_pending _ _ _ _ _ _ Hh) as Hq. rewrite Hpen in Hq. symmetry in Hq. apply fmap_nil_inv in Hq as ->.
  apply (Receipt_of_completed e Hop Hh p).
  - apply elem_of_take in Hp as (i & Hi & _). by eapply list_elem_of_lookup_2.
  - pose proof (hi_length e Hh) as Hl. rewrite app_nil_r in Hl. rewrite <- Hl, firstn_all. by rewrite (completed_phases _ _ _ _ _ Hh).
Qed.
(** A completion that waits to be published. *)
Lemma signedCompletion_phase k s p : ok normalize e k s → signedCompletion s p = true → p ∈ take k Phases.
Proof.
  intros [_ (pub & queue & es & Hh) _ _ _ _ _] Hs. rewrite <- (completed_phases _ _ _ _ _ Hh). apply existsb_exists in Hs as ([id ev] & Hin & Hc). simpl in Hc. bool_facts.
  apply list_elem_of_In, elem_of_map_to_list, (records_lookup e Hh) in Hin as [_ Hin]. apply list_elem_of_lookup in Hin as [j Hj].
  destruct (Forall2_lookup_l _ _ _ _ _ (hi_described _ _ _ _ _ _ Hh) Hj) as (x & Hx & Hd).
  destruct (decode_receipt (ev_Content ev)) as [r|] eqn:Er; [|done]. bool_facts. rewrite String.eqb_eq in *.
  apply completed_elem, list_elem_of_lookup. exists j. rewrite Hx. f_equal. destruct x as [q c| |]; simpl in Hd.
  - destruct Hd as (_ & _ & r' & Hr' & _ & Hq & Hst). rewrite Er in Hr'. injection Hr' as <-. subst. f_equal. by apply String.eqb_eq.
  - destruct Hd as [_ Hn]. by destruct (Hn _ Er).
  - destruct Hd as (_ & _ & Hn). by destruct (Hn _ Er).
Qed.

(** ** A phase *)

Lemma inv_weaken k b a i c w : inv k b a i c w → inv k b a false false w.
Proof. intros (Hw & Ha & _ & _). by split_and!. Qed.

Lemma execute_wp k p w : inv k true false true false w → synced w → Phases !! k = Some p →
  act_wp (execute normalize e p) (leaves (inv k true false true false) (λ _, inv k true false true (bool_decide (p = DeleteAndPurge)))) w.
Proof.
  intros Hw Hs Hp.
  destruct k as [|[|[|[|[|[|[|[|[|[|k]]]]]]]]]]; [injection Hp as <-..|done]; simpl; try (apply keeps_leaves; [|done]).
  - keep.
  - keep.
  - apply keeps_inventory. lia.
  - apply keeps_provision.
  - apply keeps_cut; [done|lia].
  - apply keeps_reassert.
  - apply keeps_rotate.
  - by apply deleteAndPurge_wp.
  - apply keeps_verify.
  - apply keeps_retire.
Qed.

(** The incident has its identity before anything is signed. *)
Lemma declare_wp k w : inv k true false false false w → (st_IncidentID (rw_mem w) ≠ ""%string → dc_OperatorPubkey (st_declared (rw_mem w)) = hex (en_OperatorPubkey e)) →
  act_wp (declare e) (leaves (inv k true false false false) (λ _, inv k true false true false)) w.
Proof.
  intros Hw Hid. unfold declare. apply act_wp_bind, act_wp_read. destruct (String.eqb_spec (st_IncidentID (rw_mem w)) "") as [E|Hne].
  - eapply wp_then; [by apply ask_wp|]. intros answer w1 Hw1 (Hm1 & _ & v & Ha). destruct answer as [id|x]; [|by split_and!].
    apply act_wp_bind, act_wp_ret. destruct (incident_id_text _ _ _ Ha) as [Hne Htx].
    eapply wp_then; [by apply ask_wp|]. intros now w2 Hw2 (Hm2 & _ & _). apply act_wp_bind, act_wp_write. set (w3 := mkRecoveryWorld _ _ _ _).
    assert (Hw3 : inv k true false true false w3).
    { destruct Hw2 as ((kl & Hb & Hw2) & Hab & _ & _). split_and!; try done. exists kl. split; [done|]. eapply wok_mem; [done| |apply Hw2|done|by left].
      apply ok_declare; [apply Hw2| |done]. by rewrite Hm2, Hm1. }
    eapply leaves_mono; [exact (Save_wp normalize e _ _ _ _ _ w3 Hw3)|apply inv_weaken|]. by intros u w' Hw' _.
  - apply act_wp_ret, leaves_ok; [done|]. destruct Hw as (Hw & Ha & _ & Hc). split_and!; try done. intros _. split; [done|]. by apply Hid.
Qed.

(** The phase is not completed, or completed in memory. *)
Definition phase_end (k : nat) (w : RecoveryWorld W) : Prop := inv k true false false false w ∨ inv (S k) false false false false w.

Lemma run_phase_wp k p w : inv k true false false false w → Phases !! k = Some p →
  (st_IncidentID (rw_mem w) ≠ ""%string → dc_OperatorPubkey (st_declared (rw_mem w)) = hex (en_OperatorPubkey e)) →
  act_wp (run_phase normalize e p) (leaves (phase_end k) (λ _ w', inv (S k) true false false false w' ∧ synced w' ∧ Pending (rw_mem w') = [])) w.
Proof.
  intros Hw Hp Hid. unfold run_phase.
  eapply wp_then; [eapply leaves_mono; [by apply (declare_wp k)|by left|]; intros u w' _ HQ; exact HQ|]. clear w Hw Hid. intros [] w _ Hw.
  assert (Hend : ∀ c w', inv k true false true c w' → phase_end k w') by (left; by eapply inv_weaken).
  eapply wp_then; [eapply leaves_mono; [by apply (note_wp normalize e Hop k false false)|apply Hend|]; intros u w' Hw' [HQ _]; exact (conj Hw' HQ)|].
  clear w Hw. intros [] w _ [Hw Hs].
  apply act_wp_bind, act_wp_try. eapply act_wp_mono; [by apply (execute_wp k p)|]. clear w Hw Hs. intros r w (Hw & Hr & HQ). destruct r as [evidence|err].
  - eapply wp_then; [eapply leaves_mono; [by apply incident_wp|apply Hend|]; intros u w' Hw' _; exact Hw'|]. clear w Hw HQ. intros [] w _ Hw.
    eapply leaves_mono; [eapply (receipt_wp normalize e Hop k); [done..|]| |].
    + simpl. intros H8. destruct (decide (8 ≤ k)%nat); [by left|right]. assert (k = 7%nat) as -> by lia. by injection Hp as <-.
    + intros w' [Hw'|Hw']; [by eapply Hend|right; by eapply inv_weaken].
    + intros [] w' _ (Hw' & Hs & Hpen). split_and!; [by eapply inv_weaken|done..].
  - apply act_wp_bind, act_wp_read, act_wp_bind, act_wp_try.
    eapply act_wp_mono; [by apply (note_wp normalize e Hop k false false)|]. intros r w' (Hw' & _). apply act_wp_fail. split_and!; [by eapply Hend|by intros [= ->]|done].
Qed.

(** ** The two operations *)

(** The ledger and the calls; the state in memory is loaded anew. *)
Definition sound (w : RecoveryWorld W) : Prop := ∃ k, lok normalize e k (rw_ledger w) (rw_log w).

Lemma inv_sound k b a i c w : inv k b a i c w → sound w.
Proof. intros ((kl & _ & Hw) & _). exists kl. apply Hw. Qed.
Lemma calm_sound : calm sound.
Proof. by intros w v [k Hw]; exists k. Qed.
Lemma keeps_sound_validate : keeps sound (validate e).
Proof. unfold validate. repeat (first [apply keeps_ask_calm, calm_sound | keep_step]; cbv beta). Qed.

Definition own_identity (s : State) : Prop := st_IncidentID s ≠ ""%string → dc_OperatorPubkey (st_declared s) = hex (en_OperatorPubkey e).

Lemma Status_wp w : sound w → act_wp (Status e) (leaves sound (λ _ w', rw_mem w' = rw_ledger w' ∧ own_identity (rw_mem w') ∧
  ∃ k, inv k true (st_Aborted (rw_mem w')) false false w')) w.
Proof.
  intros [k Hw]. unfold Status. apply act_wp_bind. unfold act_wp at 1, Load. destruct (env_Load (rw_env w)) as [[x|] v]; simpl.
  - split_and!; [by exists k|done..].
  - apply act_wp_bind, act_wp_read. simpl. apply act_wp_bind. set (w1 := mkRecoveryWorld _ _ _ _).
    assert (Hw1 : inv k true (st_Aborted (rw_mem w1)) false false w1) by (split_and!; try done; exists k; split; [done|]; by apply wok_load).
    unfold check at 1. destruct (String.eqb _ "" || _) eqn:Eid; [|split_and!; [by eapply inv_sound|done..]]. apply act_wp_ret.
    assert (HQ : rw_mem w1 = rw_ledger w1 ∧ own_identity (rw_mem w1) ∧ ∃ k, inv k true (st_Aborted (rw_mem w1)) false false w1).
    { split_and!; [done| |by exists k]. intros Hne. apply orb_true_iff in Eid as [Eid|Eid]; [by apply String.eqb_eq in Eid|]. bool_facts. by apply String.eqb_eq. }
    destruct (Next _); [|unfold check; case_match]; split_and!; try (by eapply inv_sound); done.
Qed.

Lemma Apply_wp confirmed w : sound w → act_wp (Apply normalize e confirmed) (leaves sound (λ _ w', Pending (rw_ledger w') = [] ∧
  ∃ k, lok normalize e k (rw_ledger w') (rw_log w') ∧ confirmed ∈ take k Phases)) w.
Proof.
  intros Hw. unfold Apply. eapply (keeps_then sound); [apply keeps_sound_validate|done|done|]. clear w Hw. intros [] w Hw.
  eapply wp_then; [by apply Status_wp|]. clear w Hw. intros [] w _ (Hml & Hid & k & Hw). apply act_wp_bind, act_wp_read.
  assert (Hs : synced w) by (unfold synced; by rewrite Hml).
  eapply wp_then; [eapply leaves_mono; [by apply publishPending_wp|apply inv_sound|]; intros u w' Hw' HQ; exact (conj Hw' HQ)|].
  intros [] w1 _ (Hw1 & Hs1 & Hpl & Hpen). destruct (signedCompletion (rw_mem w) confirmed) eqn:Esc.
  - apply act_wp_ret, leaves_ok; [by eapply inv_sound|]. destruct Hs1 as [Hsg _]. unfold Pending in *. rewrite Hsg. split; [done|].
    destruct Hw1 as ((kl & Hb & Hw1) & _). rewrite (Hb eq_refl) in Hw1. exists k. split; [apply Hw1|]. eapply signedCompletion_phase; [|done].
    destruct Hw as ((kl' & _ & Hw) & _). apply Hw.
  - apply act_wp_bind, act_wp_read. destruct (Next (rw_mem w1)) as [p|] eqn:En; [|split_and!; [by eapply inv_sound|done..]].
    case_bool_decide as Hc; [subst|split_and!; [by eapply inv_sound|done..]].
    destruct (st_Aborted (rw_mem w)) eqn:Ea; [exfalso; destruct Hw1 as (_ & Ha & _); unfold Next in En; by rewrite Ha in En|].
    assert (Hk : Phases !! k = Some p).
    { rewrite <- En. destruct Hw1 as ((kl & _ & [[_ (pub & queue & es & Hh) _ _ _ _ _] _ _ _ _]) & Ha & _). symmetry.
      pose proof (hi_pending _ _ _ _ _ _ Hh) as Hq. rewrite Hpen in Hq. symmetry in Hq. apply fmap_nil_inv in Hq as ->. by eapply Next_history. }
    assert (Hid1 : own_identity (rw_mem w1)) by (unfold own_identity, st_IncidentID; injection Hpl as _ _ _ ->; done).
    eapply leaves_mono; [by apply (run_phase_wp k p)| |].
    + intros w' [Hw'|Hw']; by eapply inv_sound.
    + intros [] w' _ (Hw' & [Hsg _] & Hpen'). unfold Pending in *. rewrite Hsg. split; [done|].
      destruct Hw' as ((kl & Hb & Hw') & _). rewrite (Hb eq_refl) in Hw'. exists (S k). split; [apply Hw'|]. rewrite (take_S_r _ _ p Hk). set_solver.
Qed.

Lemma no_trust s : existsb (λ r : string * Event, String.eqb (tag (snd r) "t") TopicTrustEpoch) (map_to_list (Records s)) = false → ¬ trust_in s.
Proof.
  intros Hf (id & ev & Hev & Ht). apply not_true_iff_false in Hf. apply Hf, existsb_exists. exists (id, ev).
  split; [by apply list_elem_of_In, elem_of_map_to_list|]. by apply String.eqb_eq.
Qed.

(** Aborting is the last thing saved, and only of an incident without activation. *)
Lemma Abort_wp w : sound w → act_wp (Abort normalize e) (leaves sound (λ _ w', st_Aborted (rw_ledger w') = true)) w.
Proof.
  intros Hw. unfold Abort. eapply (keeps_then sound); [apply keeps_sound_validate|done|done|]. clear w Hw. intros [] w Hw.
  eapply wp_then; [by apply Status_wp|]. clear w Hw. intros [] w _ (Hml & Hid & k & Hw). apply act_wp_bind, act_wp_read.
  pose proof (inv_sound _ _ _ _ _ _ Hw) as Hsound.
  destruct (String.eqb_spec (st_IncidentID (rw_mem w)) "") as [E|Hne]; [by split_and!|]. destruct (st_Aborted (rw_mem w)) eqn:Ea.
  { apply act_wp_ret, leaves_ok; [done|]. by rewrite <- Hml. }
  destruct (CutComplete (rw_mem w)); [by split_and!|]. destruct (existsb _ _) eqn:Et; [by split_and!|]. apply no_trust in Et.
  assert (Hw' : inv k true false true false w) by (destruct Hw as (Hw & _); split_and!; try done; intros _; split; [done|by apply Hid]). clear Hw.
  apply act_wp_bind. eapply act_wp_mono; [apply epochHead_wp|]. intros r w1 (l & Hr & Hm1 & Hx & _). pose proof (inv_reads _ _ _ _ _ _ _ _ _ _ Hr Hw') as Hw1.
  destruct r as [head|x]; [|split_and!; [by eapply inv_sound|by intros [= ->]|done]]. apply act_wp_bind. unfold check.
  destruct (own_head _ head); [split_and!; [by eapply inv_sound|done..]|]. apply act_wp_ret.
  eapply wp_then; [eapply leaves_mono; [by apply incident_wp|apply inv_sound|]; intros u w2 Hw2 HQ; exact (conj Hw2 HQ)|].
  intros [] w2 _ (Hw2 & _ & _ & Htr). apply act_wp_bind, act_wp_write. set (w3 := mkRecoveryWorld _ _ _ _).
  assert (Hw3 : inv k true true true false w3).
  { destruct Hw2 as ((kl & Hb & Hw2) & Ha & Hi & _). split_and!; try done. exists kl. split; [done|]. eapply wok_mem; [done| |apply Hw2|done|by left].
    apply ok_abort; [apply Hw2|]. intros Htin. apply Et. rewrite <- Hm1. by apply Htr. }
  eapply leaves_mono; [exact (Save_wp normalize e _ _ _ _ _ w3 Hw3)|apply inv_sound|]. intros [] w4 _ (_ & _ & _ & ->). done.
Qed.
End engine.
