(* ===== verification/RecoveryProps.v ===== *)
(** * Identity recovery: theorems

    Whatever the relays, signers, adapters and the disk answer, and in whatever
    order the operator applies phases and aborts: the ledger is well formed and
    its phases are completed in order, an activation is published right after
    its readiness was proved and is never aborted, the leaked key signs deletions
    of inventoried events only, and a completed deletion phase covers the whole
    inventory. *)

From Stdlib Require Import ZArith Lia Bool Ascii.
From stdpp Require Import base tactics decidable option list numbers strings gmap fin_maps sorting.
From S2P Require Import Prelude Action Bytes Nostr EventID EventIDFacts SampleDigest OutboxData Saga Inbound TrustEpoch DeletionGuard.
From S2P Require Import Recovery RecoveryInv RecoveryRun RecoveryEngine.

(** What an operator runs. *)
Inductive Command :=
| CApply (p : Phase)
| CAbort.

Section sessions.
Context `{NostrLaws} `{RecoveryJSONLaws} {W : Type} `{RecoveryEnvLaws W} (normalize : string → string) (e : Engine).

Definition perform (c : Command) : act (RecoveryWorld W) RecoveryError unit :=
  match c with CApply p => Apply normalize e p | CAbort => Abort normalize e end.

(** Commands one after the other, whether they fail or not, from no ledger. *)
Definition session (v : W) (commands : list Command) : RecoveryWorld W :=
  foldl (λ w c, snd (perform c w)) (mkRecoveryWorld v empty_state empty_state []) commands.

Context (Hop : PubKeyFromHex (hex (en_OperatorPubkey e)) = Some (en_OperatorPubkey e)).

Lemma sound_empty v : sound normalize e (mkRecoveryWorld v empty_state empty_state [] : RecoveryWorld W).
Proof.
  exists 0%nat. split; [apply ok_empty|constructor|by intros []|by intros (ev & err & Hin & _); apply elem_of_nil in Hin|done|constructor].
Qed.

Lemma session_sound v commands : sound normalize e (session v commands).
Proof.
  unfold session. generalize (sound_empty v). generalize (mkRecoveryWorld v empty_state empty_state [] : RecoveryWorld W).
  induction commands as [|c commands IH]; intros w Hw; [done|]. simpl. apply IH. destruct c; simpl; [apply (Apply_wp normalize e Hop p w Hw)|apply (Abort_wp normalize e Hop w Hw)].
Qed.

(** ** The ledger *)

(** What the file of the ledger holds. *)
Record well_formed (s : State) : Prop := {
  lw_records : ∀ id ev, Records s !! id = Some ev → id = hex (ev_ID ev) ∧ wf_event ev ∧ CheckID ev = true ∧ VerifySignature ev = true ∧
    ev_CreatedAt ev ≤ st_LastTimestamp (st_signed s);
  lw_times : ∀ id ev id' ev', Records s !! id = Some ev → Records s !! id' = Some ev' → ev_CreatedAt ev = ev_CreatedAt ev' → id = id';
  lw_pending : NoDup (Pending s) ∧ ∀ id, id ∈ Pending s → is_Some (Records s !! id);
  lw_deletions : ∀ id, id ∈ st_DeletionIDs (st_deletions s) → ∃ ev, Records s !! id = Some ev ∧ ev_Kind ev = KindDeletion ∧ ev_PubKey ev = en_OldPubkey e;
  lw_identity : Records s ≠ ∅ → st_IncidentID s ≠ ""%string ∧ dc_OperatorPubkey (st_declared s) = hex (en_OperatorPubkey e);
}.

Lemma ok_well_formed k s : ok normalize e k s → well_formed s.
Proof.
  intros [_ (pub & queue & es & Hh) _ Hd _ _ _]. pose proof Hh as [A1 A2 A3 A4 A5 A6 A7 A8 A9]. split.
  - intros id ev [-> Hin]%(records_lookup e Hh). rewrite Forall_forall in A4, A5. specialize (A4 _ Hin). destruct (A5 _ Hin) as (Hw & Hc & Hv). by split_and!.
  - intros id ev id' ev' [-> [i Hi]%list_elem_of_lookup]%(records_lookup e Hh) [-> [j Hj]%list_elem_of_lookup]%(records_lookup e Hh) Ht.
    assert (i = j) as <-; [|congruence]. pose proof (sorted_lookup _ _ _ _ _ A3 Hi Hj). pose proof (sorted_lookup _ _ _ _ _ A3 Hj Hi). lia.
  - rewrite A2. split.
    + apply StronglySorted_app in A3 as (_ & _ & A3). apply Forall_app in A5 as [_ A5]. pose proof (keyed_NoDup _ A3 A5) as Hnd.
      unfold keyed in Hnd. by rewrite <- list_fmap_compose in Hnd.
    + intros id (ev & -> & Hin)%list_elem_of_fmap. exists ev. apply (records_lookup e Hh). split; [done|]. apply elem_of_app. by right.
  - intros id [i Hi]%list_elem_of_lookup. destruct (Hd i id Hi) as (ev & Hev & (Hk & Ha & _) & _). by exists ev.
  - intros Hne. apply A9. intros E. apply Hne. by rewrite A1, E.
Qed.

(** C17: every ledger the engine leaves is well formed: its records are signed
    events under their own ids, no two with the same time and none after the last
    time used; what is pending is on record, once; the deletions are requests of
    the leaked key; and with a record there is the identity of the incident. *)
Theorem ledger_well_formed v commands : well_formed (rw_ledger (session v commands)).
Proof. destruct (session_sound v commands) as [k Hk]. eapply ok_well_formed, Hk. Qed.

(** C15: phases are completed in order: the phases on record as completed are the
    first ones, up to some phase. *)
Theorem recovery_phases_in_order v commands : ∃ m, ∀ i p, Phases !! i = Some p →
  is_Some (Receipt_of (rw_ledger (session v commands)) p) ↔ (i < m)%nat.
Proof.
  destruct (session_sound v commands) as [k [[_ (pub & queue & es & Hh) _ _ _ _ _] _ _ _ _ _]].
  pose proof (hi_phased _ _ _ _ _ _ Hh) as Hp. rewrite <- (take_drop (length pub) es) in Hp. apply phased_prefix, phased_completed in Hp.
  exists (length (completed (take (length pub) es))). intros i p Hi. rewrite (Receipt_of_completed e Hop Hh) by (by eapply list_elem_of_lookup_2). rewrite Hp at 1. split.
  - intros (j & Hj & Hlt)%elem_of_take. pose proof (NoDup_lookup _ _ _ _ NoDup_Phases Hi Hj). lia.
  - intros Hlt. apply elem_of_take. by exists i.
Qed.

(** C16: a call of [Apply] ends, and when it returns nil its phase is on record as
    completed and nothing waits to be published. *)
Theorem recovery_apply_completes v commands p :
  let '(r, w') := Apply normalize e p (session v commands) in
  r ≠ Err EOutOfFuel ∧ (r = Ok tt → Pending (rw_ledger w') = [] ∧ is_Some (Receipt_of (rw_ledger w') p)).
Proof.
  pose proof (Apply_wp normalize e Hop p _ (session_sound v commands)) as Hwp. unfold act_wp in Hwp.
  destruct (Apply normalize e p (session v commands)) as [r w']. destruct Hwp as (_ & Hr & HQ). split; [done|]. intros ->.
  destruct HQ as (Hpen & k & Hl & Hin). split; [done|]. eapply (phase_Receipt_of normalize e Hop k); [apply Hl|done|done].
Qed.

(** ** The calls *)

(** C12: the operator's key publishes records of the three topics only.  An
    activation is published right after a proof that every consumer is ready and
    a read of the trust epochs that does not forbid it, and once one is published
    the ledger is not aborted, now or after any later command.  (The flag is the
    ledger's: an abort whose last save failed may have been announced before.) *)
Theorem recovery_activation_final v commands :
  let w := session v commands in
  Forall (λ c, match c with OPublished ev _ => operator_record e ev | _ => True end) (rw_log w) ∧
  (∀ pre ev err post, rw_log w = pre ++ OPublished ev err :: post → tag ev "t" = TopicTrustEpoch →
    (∃ pre' l, pre = pre' ++ l ∧ activation_read e ev l) ∧ st_Aborted (rw_ledger w) = false).
Proof.
  intros w. destruct (session_sound v commands) as [k [Hok Hsc Hrd Hact _ _]]. fold w in Hok, Hsc, Hrd, Hact. split.
  - eapply Forall_impl; [exact Hsc|]. by intros [].
  - intros pre ev err post E Ht. split; [by eapply Hrd|]. apply not_true_iff_false. intros Ha. apply (ok_aborted _ _ _ _ Hok Ha), Hact.
    exists ev, err. split; [|done]. rewrite E. apply elem_of_app. right. by left.
Qed.

(** C13: the leaked key is asked for, and used to publish, nothing but deletion
    requests the guard permits for the inventory of the ledger; what is published
    is signed. *)
Theorem old_key_confined v commands : Forall (λ c,
    match asked_of_old c with
    | Some ev => ∃ targets, targets_of (Observed (rw_ledger (session v commands))) ∅ = Some targets ∧ permitted ev (en_OldPubkey e) targets None
    | None => True
    end ∧
    match c with ODeleted ev _ => CheckID ev = true ∧ VerifySignature ev = true | _ => True end) (rw_log (session v commands)).
Proof.
  destruct (session_sound v commands) as [k [_ Hsc _ _ _ Hn]]. rewrite Forall_forall in Hsc. rewrite Forall_forall in Hn.
  apply Forall_forall. intros c Hin. split.
  - destruct (asked_of_old c) as [ev|] eqn:Ea; [|done]. apply Hn, list_elem_of_omap. by exists c.
  - specialize (Hsc _ Hin). by destruct c.
Qed.

(** C14: once the deletion phase is on record as completed, every event of the
    inventory is named by a request of the leaked key that every cleanup relay
    accepted. *)
Theorem deletion_covers_inventory v commands :
  let s := rw_ledger (session v commands) in
  is_Some (Receipt_of s DeleteAndPurge) →
  Forall (λ item, ∃ id ev outcomes, Records s !! id = Some ev ∧ ev_Kind ev = KindDeletion ∧ ev_PubKey ev = en_OldPubkey e ∧
    ["e"%string; iv_ID item] ∈ ev_Tags ev ∧ st_CleanupDeletions (st_deletions s) !! id = Some outcomes ∧
    ∀ relay, relay ∈ en_CleanupRelays e → ∃ got, outcomes !! normalize relay = Some got ∧ re_Status got = "ok"%string) (Observed s).
Proof.
  intros s Hr. destruct (session_sound v commands) as [k [Hok _ _ _ _ _]]. fold s in Hok.
  assert (H8 : (8 ≤ k)%nat).
  { pose proof Hr as Hr'. apply (Receipt_of_phase normalize e Hop k) in Hr' as (i & Hi & Hlt)%elem_of_take; [|done|by apply (bool_decide_unpack _)].
    pose proof (NoDup_lookup _ _ 7 _ NoDup_Phases Hi eq_refl). lia. }
  apply Forall_forall. intros item Hin. destruct (ok_covered _ _ _ _ Hok H8 item Hin) as (id & ev & Hev & (Hk & Ha & Ht) & _ & outcomes & Ho & Hc).
  exists id, ev, outcomes. split_and!; [done..|apply Ht; by left|done|]. intros relay Hrel.
  unfold completeCleanup in Hc. bool_facts. rename select (forallb _ _ = true) into Hf. rewrite forallb_forall in Hf. apply list_elem_of_In, Hf in Hrel.
  destruct (outcomes !! normalize relay) as [got|]; [|done]. exists got. bool_facts. split; [done|]. by apply String.eqb_eq.
Qed.
End sessions.

(** ** A sample recovery *)

Module RecoverySample.

Definition operator : string := key_of 31.
Definition old_key : string := key_of 32.
Definition new_key : string := key_of 33.

(** A byte that is no text ends the status, and the phase is its place. *)
Definition stop : ascii := byte_of_Z 255.
Fixpoint split_stop (s : string) : option (string * string) :=
  match s with
  | EmptyString => None
  | String c s' => if Ascii.eqb c stop then Some (EmptyString, s') else prod_map (String c) id <$> split_stop s'
  end.
Definition phase_index (p : Phase) : nat := match list_find (λ q, q = p) Phases with Some (i, _) => i | None => 99 end.
Definition receipt_of (id : string) (p : Phase) (status : string) : Receipt := mkReceipt id p status "" [] ∅ [] ∅ "" ∅ ∅ 0.
Definition transition_of : TrustTransition := mkTrustTransition "" 1 "" "" [] 0 "" 0 [] true.

#[export] Instance sample_json : RecoveryJSON := {|
  encode_body b := match b with
    | BReceipt r => String "R" (String (ascii_of_nat (phase_index (rc_Phase r))) (rc_Status r +:+ String stop (rc_IncidentID r)))
    | BTrust _ => "T"
    | BIncident i => if in_Aborted i then "A" else "I"
    end;
  decode_receipt s := match s with
    | String "R" (String i rest) =>
        match Phases !! nat_of_ascii i, split_stop rest with
        | Some p, Some (status, id) => Some (receipt_of id p status)
        | _, _ => None
        end
    | _ => None
    end;
  decode_transition s := if String.eqb s "T" then Some transition_of else None;
|}.

Lemma split_stop_text status id : ascii_text status = true → split_stop (status +:+ String stop id) = Some (status, id).
Proof.
  induction status as [|c status IH]; [done|]. unfold ascii_text. simpl. intros [Hc Hs]%andb_true_iff.
  destruct (Ascii.eqb_spec c stop) as [->|_]; [done|]. by rewrite (IH Hs).
Qed.

Lemma phase_index_lookup p : p ∈ Phases → Phases !! nat_of_ascii (ascii_of_nat (phase_index p)) = Some p.
Proof.
  assert (Hall : Forall (λ p, Phases !! nat_of_ascii (ascii_of_nat (phase_index p)) = Some p) Phases) by (repeat (constructor; [reflexivity|]); constructor).
  rewrite Forall_forall in Hall. apply Hall.
Qed.

#[export] Instance sample_json_laws : RecoveryJSONLaws.
Proof.
  split; [|by intros i r; simpl; destruct (in_Aborted i)|done|done]. intros r _ Hs Hp. exists (receipt_of (rc_IncidentID r) (rc_Phase r) (rc_Status r)).
  split_and!; [|done..]. cbn [decode_receipt encode_body sample_json]. by rewrite (phase_index_lookup _ Hp), (split_stop_text _ _ Hs).
Qed.

(** The clock, the saves so far, the one that fails, and what was signed. *)
Record Outside := mkOutside {
  os_clock : Z;
  os_saves : nat;
  os_failing : nat;
  os_signed : list Event;
}.

Section env.
Context `{NostrPrims}.

Definition signed_by (key : string) (ev : Event) (v : Outside) : result string Event * Outside :=
  let ev1 := mkEvent ZeroID key (ev_CreatedAt ev) (ev_Kind ev) (ev_Tags ev) (ev_Content ev) sig_of in
  let ev2 := mkEvent (GetID ev1) key (ev_CreatedAt ev) (ev_Kind ev) (ev_Tags ev) (ev_Content ev) sig_of in
  (if wf_eventb ev2 then Ok ev2 else Err "size"%string, mkOutside (os_clock v) (os_saves v) (os_failing v) (os_signed v ++ [ev2])).

Lemma signed_by_signs key ev v ev' v' : signed_by key ev v = (Ok ev', v') → signs ev ev'.
Proof.
  unfold signed_by. destruct (wf_eventb _) eqn:E; [|done]. intros [= <- _]. split; [by apply wf_eventb_spec|done].
Qed.

Definition leaked : Event :=
  let ev1 := mkEvent ZeroID old_key 900 1 [] "hello" sig_of in mkEvent (GetID ev1) old_key 900 1 [] "hello" sig_of.

Definition relays : list string := ["wss://a"; "wss://b"]%string.
Definition everywhere (status : string) : gmap string RelayEvidence := list_to_map ((λ r, (r, mkRelayEvidence status "" true)) <$> relays).

#[export] Instance sample_env : RecoveryEnv Outside := {|
  env_Validate v := (None, v);
  env_Load v := (None, v);
  env_Save v := (if Nat.eqb (os_saves v) (os_failing v) then Some "disk"%string else None, mkOutside (os_clock v) (S (os_saves v)) (os_failing v) (os_signed v));
  env_Clock v := (os_clock v, mkOutside (os_clock v + 10) (os_saves v) (os_failing v) (os_signed v));
  env_NewIncidentID v := (Ok "incident-1"%string, v);
  env_OperatorKey v := (Ok operator, v);
  env_OperatorSign := signed_by operator;
  env_NewSigner v := (None, v);
  env_NewKey v := (Ok new_key, v);
  env_NewSign := signed_by new_key;
  env_OldSigner v := (None, v);
  env_OldKey v := (Ok old_key, v);
  env_OldSign := signed_by old_key;
  env_ReadEpochs v := (Ok [], v);
  env_Publish _ v := (None, v);
  env_PublishDeletion _ v := (everywhere "ok", v);
  env_Scan v := (([leaked], everywhere "complete"), v);
  env_LocalEvents v := (Ok [], v);
  env_FetchCandidates _ v := (Ok [], v);
  env_ReadMissing _ _ v := (Err "none"%string, v);
  env_Contain v := (Ok ["contained"%string], v);
  env_DomainInventory _ v := (None, v);
  env_Reassert _ v := (Ok ["reasserted"%string], v);
  env_DomainVerify _ v := (Ok [], v);
  env_RotationInventory v := (Ok ["secret"%string], v);
  env_Rotate _ v := (Ok {[ "secret"%string := "rotated"%string ]}, v);
  env_Purge _ v := (Ok ((λ item, "purge:" +:+ item +:+ ":done") <$> PurgeChecklistItems), v);
  env_Readiness _ _ _ _ v := (Ok (mkCutoverReadiness ["ack"%string] ∅ ∅ []), v);
  env_MissingAcks _ _ v := (Ok [], v);
|}.

Definition engine : Engine :=
  mkEngine "bahia" old_key "leaked" relays relays ["cli"%string] operator (Some [hex (ev_ID leaked)]) [] true true true true true true true {[ "assistant"%string ]} ["assistant"%string].

Definition outside (failing : nat) : Outside := mkOutside 1000 0 failing [].
Definition ran (failing : nat) (commands : list Command) : RecoveryWorld Outside := session id engine (outside failing) commands.
End env.

(** A digest for what the sample signs: the times of the events, on a table of
    its inputs, which a run with the bare times finds. *)
Fixpoint until_comma (n : nat) (s : string) : string :=
  match n, s with
  | S n', String c s' => if Ascii.eqb c "," then String nul (until_comma n' EmptyString) else String c (until_comma n' s')
  | S n', EmptyString => String nul (until_comma n' EmptyString)
  | O, _ => EmptyString
  end.
(** Before the time: bracket, zero, comma, the key in quotes, comma. *)
Definition time_digest (s : string) : string := until_comma 32 (drop_bytes 70 s).

Definition prims_with (f : string → string) : NostrPrims := {|
  sha256 := f;
  verify_bip340 := λ _ _ sig, Nat.eqb (String.length sig) 64;
  ParsePubKey := λ _, true;
  SchnorrVerify := λ _ _ sig, Nat.eqb (String.length sig) 64;
  decode_unadmitted := λ _, None;
  decode_accepted := λ _, None;
  decode_refused := λ _, None;
|}.

Definition inputs (failing : nat) (commands : list Command) : list string :=
  let H := prims_with time_digest in
  serializedHash_bytes <$> leaked :: os_signed (rw_env (ran failing commands)).

(** The phases up to the deletions, with an abort after the first. *)
Definition commands : list Command := CApply PhaseDeclare :: CAbort :: (CApply <$> take 7 (drop 1 Phases)).
(** The tenth save is the last of the abort. *)
Definition last_save : nat := 9.
(** The inventory and the relays are digested as well. *)
Definition table : list (string * string) := Eval vm_compute in
  ((λ s, (s, time_digest s)) <$> inputs last_save commands) ++
  [(hex (ev_ID (let H := prims_with time_digest in leaked)), key_of 201); ("wss://a"%string, key_of 202); ("wss://b"%string, key_of 203)].

#[export] Instance sample_prims : NostrPrims := prims_with (digest table).
#[export] Instance sample_laws : NostrLaws.
Proof. split; [|by intros]. intros a b. apply (digest_collision_free table). apply (bool_decide_unpack _). by vm_compute. Qed.

#[export] Instance sample_env_laws : RecoveryEnvLaws Outside.
Proof. split; [apply signed_by_signs|apply signed_by_signs|]. by intros w id w' [= <- _]. Qed.

Lemma operator_key : PubKeyFromHex (hex (en_OperatorPubkey engine)) = Some (en_OperatorPubkey engine).
Proof. vm_compute. reflexivity. Qed.

Lemma ledger_well_formed_witness : well_formed engine (rw_ledger (ran last_save commands)).
Proof. exact (ledger_well_formed id engine operator_key (outside last_save) commands). Defined.

Lemma recovery_phases_in_order_witness : ∃ m, ∀ i p, Phases !! i = Some p → is_Some (Receipt_of (rw_ledger (ran last_save commands)) p) ↔ (i < m)%nat.
Proof. exact (recovery_phases_in_order id engine operator_key (outside last_save) commands). Defined.

Definition applied : RecoveryWorld Outside := snd (Apply id engine PhaseDeclare (ran last_save [])).
Lemma recovery_apply_completes_witness : Pending (rw_ledger applied) = [] ∧ is_Some (Receipt_of (rw_ledger applied) PhaseDeclare).
Proof.
  pose proof (recovery_apply_completes id engine operator_key (outside last_save) [] PhaseDeclare) as Ht. unfold applied, ran.
  assert (Hr : fst (Apply id engine PhaseDeclare (session id engine (outside last_save) [])) = Ok tt) by (vm_compute; reflexivity).
  destruct (Apply id engine PhaseDeclare (session id engine (outside last_save) [])) as [r w]. exact (proj2 Ht Hr).
Defined.

(** *** What the run reaches *)

(** The calls around the first that [f] accepts. *)
Fixpoint first_call (f : Outcall → bool) (log : list Outcall) : option (list Outcall * Outcall * list Outcall) :=
  match log with
  | [] => None
  | c :: log' => if f c then Some ([], c, log') else (λ r, (c :: r.1.1, r.1.2, r.2)) <$> first_call f log'
  end.

Lemma first_call_spec f log pre c post : first_call f log = Some (pre, c, post) → log = pre ++ c :: post ∧ f c = true.
Proof.
  revert pre. induction log as [|c' log IH]; intros pre; simpl; [done|]. destruct (f c') eqn:Ef; [by intros [= <- <- <-]|].
  destruct (first_call f log) as [[[pre1 c1] post1]|]; [|done]. intros [= <- <- <-]. by destruct (IH pre1 eq_refl) as [-> ?].
Qed.

Definition activates (c : Outcall) : bool := match c with OPublished ev _ => String.eqb (tag ev "t") TopicTrustEpoch | _ => false end.
Definition deletes (c : Outcall) : bool := match c with ODeleted _ _ => true | _ => false end.
Definition announces (c : Outcall) : bool := match c with OPublished ev None => String.eqb (ev_Content ev) "A" | _ => false end.
Definition contain_receipt (c : Outcall) : bool :=
  match c with OPublished ev None => String.eqb (tag ev "d") (receipt_d "incident-1" Contain) | _ => false end.

(** Deletions are on record as completed for an inventory that is not empty;
    an activation and a deletion were published; an abort was announced, and is
    not in the ledger, before a receipt of a later phase. *)
Definition far (w : RecoveryWorld Outside) : bool :=
  bool_decide (is_Some (Receipt_of (rw_ledger w) DeleteAndPurge)) && negb (Nat.eqb (length (Observed (rw_ledger w))) 0) &&
  bool_decide (is_Some (Receipt_of (rw_ledger w) Contain)) && existsb activates (rw_log w) && existsb deletes (rw_log w) && negb (st_Aborted (rw_ledger w)) &&
  match first_call announces (rw_log w) with Some (_, _, post) => existsb contain_receipt post | None => false end.

Lemma ran_far : far (ran last_save commands) = true.
Proof. vm_cast_no_check (eq_refl true). Qed.

Lemma existsb_first f (log : list Outcall) : existsb f log = true → ∃ pre c post, log = pre ++ c :: post ∧ f c = true.
Proof. intros (c & Hin & Hf)%existsb_exists. apply list_elem_of_In, list_elem_of_split in Hin as (pre & post & ->). eauto. Qed.

(** An activation is in the log. *)
Lemma recovery_activation_final_witness : let w := ran last_save commands in
  ∃ pre ev err post, rw_log w = pre ++ OPublished ev err :: post ∧ tag ev "t" = TopicTrustEpoch ∧
    (∃ pre' l, pre = pre' ++ l ∧ activation_read engine ev l) ∧ st_Aborted (rw_ledger w) = false.
Proof.
  destruct (recovery_activation_final id engine operator_key (outside last_save) commands) as [_ Ht]. pose proof ran_far as Hf. revert Ht Hf.
  unfold ran. generalize (session id engine (outside last_save) commands). intros w Ht Hf. unfold far in Hf. bool_facts. rename select (existsb activates _ = true) into Ha. apply existsb_first in Ha as (pre & c & post & E & Hc).
  destruct c as [| |ev err| | |]; try done. apply String.eqb_eq in Hc. exists pre, ev, err, post.
  split; [exact E|]. split; [exact Hc|]. exact (Ht pre ev err post E Hc).
Defined.

(** A deletion request of the leaked key is in the log, and was permitted. *)
Lemma old_key_confined_witness : let w := ran last_save commands in
  ∃ ev outcomes targets, ODeleted ev outcomes ∈ rw_log w ∧ CheckID ev = true ∧ VerifySignature ev = true ∧
    targets_of (Observed (rw_ledger w)) ∅ = Some targets ∧ permitted ev (en_OldPubkey engine) targets None.
Proof.
  pose proof (old_key_confined id engine operator_key (outside last_save) commands) as Ht. pose proof ran_far as Hf. revert Ht Hf.
  unfold ran. generalize (session id engine (outside last_save) commands). intros w Ht Hf. unfold far in Hf. bool_facts. rename select (existsb deletes _ = true) into Ha. apply existsb_first in Ha as (pre & c & post & E & Hc).
  destruct c as [| | |ev outcomes| |]; try done. rewrite Forall_forall in Ht. assert (Hin : ODeleted ev outcomes ∈ rw_log w).
  { rewrite E. apply elem_of_app. right. by left. }
  destruct (Ht _ Hin) as [(targets & Hto & Hpe) [Hci Hvs]]. by exists ev, outcomes, targets.
Defined.

(** The deletions are completed, and the inventory is not empty. *)
Lemma deletion_covers_inventory_witness :
  let s := rw_ledger (ran last_save commands) in
  Observed s ≠ [] ∧
  Forall (λ item, ∃ id' ev outcomes, Records s !! id' = Some ev ∧ ev_Kind ev = KindDeletion ∧ ev_PubKey ev = en_OldPubkey engine ∧
    ["e"%string; iv_ID item] ∈ ev_Tags ev ∧ st_CleanupDeletions (st_deletions s) !! id' = Some outcomes ∧
    ∀ relay, relay ∈ en_CleanupRelays engine → ∃ got, outcomes !! id relay = Some got ∧ re_Status got = "ok"%string) (Observed s).
Proof.
  pose proof (deletion_covers_inventory id engine operator_key (outside last_save) commands) as Ht. pose proof ran_far as Hf. revert Ht Hf.
  unfold ran. generalize (session id engine (outside last_save) commands). intros w Ht Hf. unfold far in Hf. bool_facts. split; [by intros E; rewrite E in *|]. by apply Ht.
Defined.

(** ** An abort that does not last *)

(** [Abort] publishes the aborted incident before it saves the ledger: where
    that save fails, the incident is published as aborted, and the next phase can
    still be applied. *)
Theorem abort_announced_not_kept :
  let w := ran last_save commands in
  st_Aborted (rw_ledger w) = false ∧ is_Some (Receipt_of (rw_ledger w) Contain) ∧
  ∃ pre post ev i, rw_log w = pre ++ OPublished ev None :: post ∧ ev_Content ev = encode_body (BIncident i) ∧ in_Aborted i = true ∧
    ∃ ev', OPublished ev' None ∈ post ∧ tag ev' "d" = receipt_d "incident-1" Contain.
Proof.
  pose proof ran_far as Hf. revert Hf. generalize (ran last_save commands). intros w Hf. unfold far in Hf. bool_facts.
  destruct (first_call announces (rw_log w)) as [[[pre c] post]|] eqn:Ea; [|done]. apply first_call_spec in Ea as [El Hc].
  rename select (existsb contain_receipt _ = true) into He. apply existsb_first in He as (pre' & c' & post' & E & Hc').
  destruct c as [| |ev [|]| | |]; try done. destruct c' as [| |ev' [|]| | |]; try done. apply String.eqb_eq in Hc, Hc'. split; [done|]. split; [done|].
  exists pre, post, ev, (mkIncident "" "" 0 "" [] PhaseDeclare true). split; [done|]. split; [done|]. split; [done|].
  exists ev'. split; [|done]. rewrite E. apply elem_of_app. right. by left.
Qed.
End RecoverySample.
